(* ===== verification/_CoqProject ===== *)
-Q . S2P
Prelude.v
Types.v
Scheduler.v
SchedulerSystem.v
SchedulerTheorems.v
SchedulerLow.v
SchedulerProgress.v
SchedulerSpec.v
Platform.v
Compat.v
Storage.v
MvMemory.v
MvMemorySpec.v
VmDb.v
VmDbLemmas.v
VmDbReplay.v
Vm.v
Chain.v
VmSpec.v
StorageSpec.v
Rpc.v
RpcSpec.v
Fetch.v
FetchSpec.v
ParallelCodes.v
Sequential.v
ParallelSystem.v
ParallelInv.v
ParallelSpec.v
ParallelProgress.v
Kinds.v
Pexe.v
PexeLemmas.v
PexeSpec.v
SequentialRuns.v
SequentialSpec.v
Settled.v
Rejected.v
Plain.v
Results.v
PlainSpec.v
ChainSpec.v
BlockSpec.v
LazyAgree.v
PlainResults.v
LazyChoice.v
ValidBlock.v
ValidProgress.v
Transfers.v
PerpTypes.v
PerpTraits.v
Hybrid.v
HybridSpec.v
PerpState.v
PerpStorage.v
PerpExecutor.v
PerpStateSpec.v
PerpMath.v
PerpSpec.v
PerpVms.v
