(* ===== verification/Prelude.v ===== *)
(** * A verification development of the parallel execution engine (crates/pevm)

    The program executes the transactions of a block in parallel and must give the
    result of executing them one after the other.  Worker threads take tasks from a
    collaborative scheduler; an execution runs the EVM on a database that reads a
    multi-version memory shared by all workers, records what it read and wrote
    there, and is validated by reading again; a transaction whose reads no longer
    hold is aborted, its writes become estimates, and it runs again.  Balances of
    plain transfers and of the beneficiary are updated lazily and evaluated when the
    threads have joined.  Next to this engine stand the storages it reads from, the
    chains it knows (Ethereum and Optimism), and a second virtual machine for
    perpetual futures (PerpDex) with its transaction codec.

    ** The parts

    Paths are below src/crates/pevm/src.  A file that defines a part is followed by
    the files with its theorems.

    - Prelude: results with errors and panics ([outcome]), the state monad
      [stateM], machine integers, bytes, tactics and lemmas shared by all.
    - Types (lib.rs): locations, values, versions, statuses, tasks, flags, hashers.
    - Scheduler (scheduler.rs): the struct and one function per method.
      SchedulerSystem (pexe.rs, the thread scope): configurations of one scheduler
      and any number of workers, one scheduler call per step; its invariant [inv].
      SchedulerTheorems, SchedulerLow, SchedulerProgress and SchedulerSpec: statuses,
      counters, absence of lost work, termination at any point, and that some worker
      is always low, so that somebody finds the work that is left.
    - Platform, Compat (compat.rs): what the engine takes from revm, alloy and the
      hash crates, as the classes [Platform] and [Revm]; the block environment.
    - Storage (storage.rs, storage/in_memory.rs) and StorageSpec: the [Storage]
      trait as a record, codes and accounts with their conversions, the
      [StorageWrapper] of sequential execution, the in-memory storage.
    - Rpc (storage/rpc.rs) and RpcSpec: the storage that asks a node, with its
      retries and caches.
    - Fetch (bins/fetch/src/main.rs, and the loader of crates/pevm/tests/common) and
      FetchSpec: the tool that keeps fetched blocks on disk.
    - MvMemory (mv_memory.rs) and MvMemorySpec: the multi-version memory, histories
      of its operations, validation as reading again.
    - VmDb (vm.rs, [VmDb]), VmDbLemmas and VmDbReplay: the database of one execution
      and what each of its reads depends on.
    - Vm (vm.rs, [Vm], and the part of chain.rs that it uses) and VmSpec: execution,
      write set, rewards; a validated execution replays.
    - ParallelSystem (pexe.rs, [try_execute], [try_validate] and the worker loop):
      SchedulerSystem with memory, results, abort reason and what every worker is in
      the middle of.  ParallelCodes, ParallelInv and ParallelSpec: the invariants and
      the serialisation theorem.  ParallelProgress: from every state the first
      transaction that is not settled can be settled, if it can be executed.
    - Sequential and SequentialSpec: a reference execution of a block, one transaction
      after the other on a journal of values, and the proof that the workers compute
      what it computes.  SequentialRuns: what it can execute, [Vm::execute] can, and
      for what it refuses [Vm::execute] waits.  Settled: the transactions below the
      first that is not settled, which are a run of the reference and stay as they
      are.  Rejected: a transaction that the reference refuses.
    - Plain: a simpler reference, on accounts with a balance and a nonce, every update
      at once.  Results, PlainSpec and PlainResults: the journal seen as plain
      accounts, and the results of a block as what happens on plain accounts.
      LazyChoice: which transfers are lazy makes no difference; its interface
      [LazyTransfers] says that the transfer that [Vm::execute] makes itself does what
      the EVM would do, [LazySucceeds] that it succeeds where the EVM does.
      ValidBlock: the evaluation of a valid block succeeds, if the EVM checks nonce
      and funds of the senders ([CheckedSenders]), with the right results.
      ValidProgress: a valid block can be answered from every state.  Transfers: an
      EVM of payments, for which the three interfaces are proved.
    - Pexe (pexe.rs, [execute], [execute_revm_parallel] after the join,
      [execute_revm_sequential]), PexeLemmas, PexeSpec, Kinds, LazyAgree, BlockSpec:
      the evaluation of lazy accounts, what a block returns.  [ChainLaws] in Kinds is
      the interface that a chain must keep: rewards go to accounts that are evaluated
      lazily, and estimates are rewarded.
    - Chain (chain.rs, chain/ethereum.rs, chain/optimism.rs) and ChainSpec: the two
      chains, which discharge [ChainLaws].
    - Hybrid (hybrid.rs) and HybridSpec: telling PerpDex transactions apart, and the
      codec byte by byte.
    - PerpTypes (perpdex/types.rs), PerpTraits (perpdex/state_traits.rs and
      perpdex/executor_traits.rs: the traits of a VM as classes, with their laws),
      PerpState (perpdex/state.rs), PerpStorage (perpdex/storage.rs), PerpExecutor
      (perpdex/executor.rs): the PerpDex machine.  PerpStateSpec, PerpMath, PerpSpec
      and PerpVms: partitions, metadata and the order index; the arithmetic; what a
      transaction writes and answers; VMs side by side, by the laws of the traits.

    ** What is shown

    - Parallel execution is sequential execution: when the workers have joined
      without an abort, every transaction has one standing execution; its reads,
      replayed in block order on the final memory, give the same result, and the
      memory holds exactly the writes of these executions.  So results and memory are
      those of the reference of Sequential.v, which has no versions, estimates or
      validation, for some choice of the transfers that are lazy.  It rests on
      validation being equivalent to reading again, on the invariant that a read that
      no longer holds is covered by a pending validation, and on the replay of whole
      executions.
    - Down to plain accounts: what [execute_revm_parallel] reports after the lazy
      evaluation is, transaction by transaction, receipt by receipt and account by
      account, what a plain execution gives.  [block_reports_plain_accounts] says so
      for the transfers that happened to be lazy.  [valid_block_reported] says so for
      none of them, and that the evaluation does succeed, if lazy transfers are
      transfers, senders are checked, no balance reaches the maximum and every sender
      keeps something ([sound]; an emptied sender may vanish, see
      [emptied_account_vanishes]).
    - There is an answer: while a block is valid, no state of the workers is a dead
      end; from each there is a continuation in which all leave the loop, nobody
      aborts and the evaluation succeeds ([valid_block_answered]).  That the threads
      take such a continuation is up to the operating system.  If the reference
      refuses a transaction after the first for its nonce or its funds, the workers
      cannot join without an abort; from every state they come to one from which on
      every try of that transaction waits in vain and leads back to where it started
      ([rejected_transaction_retried]).
    - The scheduler: no unchecked index is out of bounds, the assertions of the
      sources hold, no version is dispatched twice, no work is lost, the validation
      count is exact, workers leave only when all is validated, and from every
      reachable configuration the block can be finished.
    - The end of a block: every transaction has a result, no account holds an
      estimate, the evaluation of lazy accounts never panics, does not depend on the
      order of a hash set, and reports what a reader inside the block reads; errors
      and paths of [execute].
    - Chains and storages: hard forks, rewards, what the receipt trie holds; a run of
      the EVM on the database of the parallel execution ends as on the sequential one
      while nothing is written below it; the RPC storage answers as the chain does,
      but for a code that no account answered so far has; its snapshot replays a
      session, and so does what the fetch tool leaves on disk, if there is a file of
      block hashes.
    - PerpDex: a transaction writes only its user's state and no more money than the
      user has; a failed operation leaves no trace; order ids are those that fall to
      the transaction from the shared counter; entry prices average, reduce-only
      orders reduce; the order index is the record of the calls; metadata keep their
      types; executors of different partitions never touch the same location; the
      codec round-trips up to its known gap.

    Where the code does not do what it means to, a small lemma exhibits it on a
    concrete input, such as [huge_count_panics], [margin_overflow],
    [operations_do_not_see_each_other] or [deposit_estimates_misplaced].

    ** Conventions and bounds

    - Integers are [Z] with the wrap-around of release builds written out
      ([wrap], [swrap]); saturating operations clamp.  Indexes and counters of type
      [usize] are [nat]; the theorems on the scheduler assume blocks of fewer than
      2^64 transactions, so that the counters do not wrap.
    - A panic, and the undefined behaviour of [get_unchecked], are values: [Panic] of
      [outcome], [None] of the scheduler and the memory.  The build is the release
      profile of Cargo.toml: no overflow checks; no [debug_assert!] (those of the
      scheduler are a theorem, that of the lazy evaluation is left out); and
      [panic = "abort"], so a worker that panics takes no further step and is an
      outcome of the block ([worker_panics]).  In a profile that unwinds a panic would
      also poison the mutexes of [RpcStorage], which the model does not follow.
    - Atomicity: one scheduler call (one iteration of the loop of [next_task]), the
      recording of an execution, the conversion of a write set and the validation
      of one location are each one step of the transition system.  The reads of an
      execution happen at arbitrary earlier moments, each on the memory of that
      moment.  A worker that is told to retry does so in the same step or a later
      one; the retry itself is no step.  A PerpDex transaction is one step; what other
      executions do to the counter of order ids meanwhile is a list that it is given,
      how many ids they take before each of its own ([OrderIds]).
    - Fuel: [next_task] run alone ends within 2n+1 iterations, proved by
      [next_task_terminates]; [remove_stale] gets the length of the list it shrinks
      or walks; the decoder gets the length of its input, every operation consuming
      a byte; [EvmCode_from] gets one step, enough as analysed code is not raw
      ([PlatformLaws]); [fetch_loop] counts its lives.
    - Hash functions are parameters.  A theorem that needs it assumes that different
      locations have different hashes ([hash_injective]), or that bare addresses do
      not hash like locations ([address_hashes_apart]); each has a witness at a
      concrete platform where this holds.

    ** Not modelled

    - pevm_bak.rs: an older copy of pexe.rs that no module includes.
    - Failures to create or write a file, and the encodings of files, of bins/fetch.
    - The EVM itself, revm's [CacheDB] and handlers, RLP, EIP-2718 and the Merkle
      trie, FxHasher and keccak: dependencies, parameters of the model.
    - The background dropper of pexe.rs and the runtime of rpc.rs: they free memory
      and wait.  Calls of one [RpcStorage] are made one after the other.
    - [mock_tx] and [mock_rpc_tx] of the chains: constructors for tests.
    - The multi-version memory behind the [VmExecutor] trait: the source has a
      placeholder without fields, and so has PerpTraits. *)

From stdpp Require Export base tactics numbers list gmap fin_maps.
From Stdlib Require Export ZArith Lia.

#[local] Open Scope Z_scope.

#[global] Arguments Nat.ltb : simpl never.
#[global] Arguments Nat.leb : simpl never.
#[global] Arguments Nat.min : simpl never.
#[global] Arguments Z.pow : simpl never.

(** ** Results, errors and panics

    [outcome E A] is Rust's [Result<A, E>] together with the possibility that
    the code panics (slice out of bounds, [unwrap] on [Err]/[None], division by
    zero, capacity overflow, [unreachable!]). *)

Inductive outcome (E A : Type) : Type :=
| Ok (a : A)
| Err (e : E)
| Panic.
Arguments Ok {E A} a.
Arguments Err {E A} e.
Arguments Panic {E A}.

#[export] Instance outcome_ret E : MRet (outcome E) := fun A a => Ok a.
#[export] Instance outcome_bind E : MBind (outcome E) := fun A B f m =>
  match m with
  | Ok a => f a
  | Err e => Err e
  | Panic => Panic
  end.
#[export] Instance outcome_fmap E : FMap (outcome E) := fun A B f m =>
  match m with
  | Ok a => Ok (f a)
  | Err e => Err e
  | Panic => Panic
  end.
#[export] Instance outcome_eq_dec E A `{!EqDecision E} `{!EqDecision A} :
  EqDecision (outcome E A).
Proof. solve_decision. Defined.

(** [Result::map_err]. *)
Definition map_err {E F A} (f : E -> F) (m : outcome E A) : outcome F A :=
  match m with
  | Ok a => Ok a
  | Err e => Err (f e)
  | Panic => Panic
  end.

(** [Option::unwrap]. *)
Definition unwrap {F A} (o : option A) : outcome F A :=
  match o with Some a => Ok a | None => Panic end.

Lemma outcome_bind_ext {E A B} (f g : A -> outcome E B) (m : outcome E A) :
  (forall a, f a = g a) -> (m ≫= f) = (m ≫= g).
Proof. intros H. destruct m; cbn; auto. Qed.

Lemma outcome_bind_ok {E A B} (f : A -> outcome E B) (m : outcome E A) (b : B) :
  (m ≫= f) = Ok b <-> exists a, m = Ok a /\ f a = Ok b.
Proof.
  split.
  - destruct m as [a|e|]; try done. exists a. by split.
  - by intros (a & -> & ?).
Qed.

Lemma outcome_bind_err {E A B} (f : A -> outcome E B) (m : outcome E A) (e : E) :
  (m ≫= f) = Err e <-> m = Err e \/ exists a, m = Ok a /\ f a = Err e.
Proof. destruct m as [a|e'|]; cbn; naive_solver. Qed.

Lemma outcome_bind_iff {E A B} (f g : A -> outcome E B) (m m' : outcome E A) (b : B) :
  (forall a, m = Ok a <-> m' = Ok a) -> (forall a, f a = Ok b <-> g a = Ok b) ->
  (m ≫= f) = Ok b <-> (m' ≫= g) = Ok b.
Proof.
  intros Hm Hf. rewrite !outcome_bind_ok. split; intros (a & Ha & Hb); exists a;
    (split; [by apply Hm|by apply Hf]).
Qed.

(** ** State

    Code that threads a state and may fail; what a failed call has already done
    to the state stays done. *)

Definition stateM (St E A : Type) : Type := St -> outcome E A * St.

#[export] Instance state_ret St E : MRet (stateM St E) := fun A a s => (Ok a, s).
#[export] Instance state_bind St E : MBind (stateM St E) := fun A B f m s =>
  match m s with
  | (Ok a, s) => f a s
  | (Err e, s) => (Err e, s)
  | (Panic, s) => (Panic, s)
  end.
Definition throw {St E A} (e : E) : stateM St E A := fun s => (Err e, s).
Definition pure_of {St E A} (m : outcome E A) : stateM St E A := fun s => (m, s).

Lemma state_bind_ok {St E A B} (m : stateM St E A) (k : A -> stateM St E B) s b s' :
  (m ≫= k) s = (Ok b, s') <-> exists a s1, m s = (Ok a, s1) /\ k a s1 = (Ok b, s').
Proof.
  unfold mbind, state_bind. destruct (m s) as [[a|e|] s1]; split; try naive_solver.
Qed.

(** ** Machine integers

    A [w]-bit unsigned integer is a [Z] in [0, 2^w). *)

Definition wrap (w z : Z) : Z := z mod 2 ^ w.
Definition is_u (w z : Z) : Prop := 0 <= z < 2 ^ w.

#[export] Instance is_u_dec w z : Decision (is_u w z).
Proof. unfold is_u. apply _. Defined.

(** Two's complement reading of the low [w] bits. *)
Definition swrap (w z : Z) : Z := (z + 2 ^ (w - 1)) mod 2 ^ w - 2 ^ (w - 1).
Definition is_s (w z : Z) : Prop := - 2 ^ (w - 1) <= z < 2 ^ (w - 1).

#[export] Instance is_s_dec w z : Decision (is_s w z).
Proof. unfold is_s. apply _. Defined.

Definition U64_MAX : Z := 2 ^ 64 - 1.
Definition U256_MAX : Z := 2 ^ 256 - 1.
Definition I128_MAX : Z := 2 ^ 127 - 1.

(** The operators [+], [-], [*] of [U256] wrap; [saturating_*] clamp. *)
Definition u256_add (a b : Z) : Z := wrap 256 (a + b).
Definition u256_sub (a b : Z) : Z := wrap 256 (a - b).
Definition u256_mul (a b : Z) : Z := wrap 256 (a * b).
Definition sat_add (a b : Z) : Z := Z.min (a + b) U256_MAX.
Definition sat_sub (a b : Z) : Z := Z.max (a - b) 0.
Definition sat_mul (a b : Z) : Z := Z.min (a * b) U256_MAX.
Definition abs_diff (a b : Z) : Z := Z.abs (a - b).

(** Release-profile [u64]/[i128] arithmetic (no overflow checks: it wraps). *)
Definition u64_add (a b : Z) : Z := wrap 64 (a + b).
Definition u64_sub (a b : Z) : Z := wrap 64 (a - b).
Definition sat_add64 (a b : Z) : Z := Z.min (a + b) U64_MAX.
Definition i128_add (a b : Z) : Z := swrap 128 (a + b).
Definition i128_mul (a b : Z) : Z := swrap 128 (a * b).
Definition i128_neg (a : Z) : Z := swrap 128 (- a).

Lemma wrap_small w z : is_u w z -> wrap w z = z.
Proof. intros H. unfold wrap. apply Z.mod_small. exact H. Qed.

Lemma wrap_is_u w z : 0 <= w -> is_u w (wrap w z).
Proof. intros Hw. apply Z.mod_pos_bound. by apply Z.pow_pos_nonneg. Qed.

Lemma wrap_idemp w z : 0 <= w -> wrap w (wrap w z) = wrap w z.
Proof. intros Hw. apply wrap_small. by apply wrap_is_u. Qed.

Lemma swrap_small w z : 0 < w -> is_s w z -> swrap w z = z.
Proof.
  intros Hw H. unfold swrap, is_s in *.
  assert (2 ^ w = 2 * 2 ^ (w - 1)) as E.
  { rewrite <- Z.pow_succ_r by lia. f_equal. lia. }
  rewrite Z.mod_small by lia. lia.
Qed.

Lemma swrap_is_s w z : 0 < w -> is_s w (swrap w z).
Proof.
  intros Hw. unfold swrap, is_s.
  assert (2 ^ w = 2 * 2 ^ (w - 1)) as E.
  { rewrite <- Z.pow_succ_r by lia. f_equal. lia. }
  assert (0 < 2 ^ w) by (apply Z.pow_pos_nonneg; lia).
  pose proof (Z.mod_pos_bound (z + 2 ^ (w - 1)) (2 ^ w) ltac:(lia)). lia.
Qed.

Lemma sat_add_bound a b : is_u 256 a -> is_u 256 b -> is_u 256 (sat_add a b).
Proof. unfold is_u, sat_add, U256_MAX. lia. Qed.

Lemma sat_sub_bound a b : is_u 256 a -> is_u 256 b -> is_u 256 (sat_sub a b).
Proof. unfold is_u, sat_sub. lia. Qed.

Lemma sat_mul_bound a b : is_u 256 a -> is_u 256 b -> is_u 256 (sat_mul a b).
Proof. unfold is_u, sat_mul, U256_MAX. nia. Qed.

Lemma abs_diff_bound a b : is_u 256 a -> is_u 256 b -> is_u 256 (abs_diff a b).
Proof. unfold is_u, abs_diff. lia. Qed.

Create HintDb machine_ints.
#[export] Hint Resolve wrap_is_u swrap_is_s sat_add_bound sat_sub_bound sat_mul_bound
  abs_diff_bound : machine_ints.

(** ** Bytes and big-endian words

    A byte is a [Z] in [0, 256); [to_be n z] is [to_be_bytes] at [n] bytes and
    [from_be] is [from_be_bytes]. *)

Definition is_bytes (bs : list Z) : Prop := Forall (is_u 8) bs.

Fixpoint to_be (n : nat) (z : Z) : list Z :=
  match n with
  | O => []
  | S m => to_be m (z / 256) ++ [z mod 256]
  end.

Definition from_be (bs : list Z) : Z := foldl (fun acc b => acc * 256 + b) 0 bs.

Lemma length_to_be n z : length (to_be n z) = n.
Proof. revert z. induction n as [|n IH]; intros z; simpl; [done|]. rewrite length_app, IH. simpl. lia. Qed.

Lemma from_be_snoc bs b : from_be (bs ++ [b]) = from_be bs * 256 + b.
Proof. unfold from_be. by rewrite foldl_app. Qed.

Lemma from_be_to_be n z : from_be (to_be n z) = z mod 256 ^ Z.of_nat n.
Proof.
  revert z. induction n as [|n IH]; intros z.
  - simpl. by rewrite Z.mod_1_r.
  - cbn [to_be]. rewrite from_be_snoc, IH.
    replace (Z.of_nat (S n)) with (Z.succ (Z.of_nat n)) by lia.
    assert (0 < 256 ^ Z.of_nat n) by (apply Z.pow_pos_nonneg; lia).
    rewrite Z.pow_succ_r by lia. rewrite Z.rem_mul_r by lia. lia.
Qed.

Lemma from_be_to_be_u n z : is_u (8 * Z.of_nat n) z -> from_be (to_be n z) = z.
Proof.
  intros H. rewrite from_be_to_be. unfold is_u in H.
  rewrite Z.pow_mul_r in H by lia. by apply Z.mod_small.
Qed.

Lemma to_be_is_bytes n z : is_bytes (to_be n z).
Proof.
  revert z. induction n as [|n IH]; intros z; [constructor|].
  cbn [to_be]. apply Forall_app; split; [apply IH|].
  constructor; [|constructor]. apply Z.mod_pos_bound. lia.
Qed.

Lemma from_be_bound bs : is_bytes bs -> is_u (8 * Z.of_nat (length bs)) (from_be bs).
Proof.
  intros H. induction bs as [|b bs IH] using rev_ind.
  - unfold is_u, from_be. simpl. lia.
  - apply Forall_app in H as [Hbs Hb]. apply Forall_cons in Hb as [Hb _].
    specialize (IH Hbs). rewrite from_be_snoc, length_app. unfold is_u in *. simpl.
    replace (8 * Z.of_nat (length bs + 1)) with (8 * Z.of_nat (length bs) + 8) by lia.
    rewrite Z.pow_add_r by lia. change (2 ^ 8) with 256 in *. lia.
Qed.


Lemma list_filter_all {A} (P : A -> Prop) `{!forall x, Decision (P x)} (l : list A) : Forall P l -> filter P l = l.
Proof. induction 1 as [|x l Hx _ IH]; [done|]. by rewrite filter_cons_True, IH. Qed.

(** ** Sums over lists, and how a point update changes them *)

Fixpoint sum_map {A} (f : A -> nat) (l : list A) : nat :=
  match l with
  | [] => 0%nat
  | x :: l => (f x + sum_map f l)%nat
  end.

Lemma sum_map_app {A} (f : A -> nat) l1 l2 :
  sum_map f (l1 ++ l2) = (sum_map f l1 + sum_map f l2)%nat.
Proof. induction l1; simpl; lia. Qed.

Lemma sum_map_insert {A} (f : A -> nat) (l : list A) k x y :
  l !! k = Some x ->
  (sum_map f (<[k:=y]> l) + f x = sum_map f l + f y)%nat.
Proof.
  revert k. induction l as [|z l IH]; intros [|k] H; simplify_eq/=.
  - lia.
  - specialize (IH k H). lia.
Qed.

Lemma sum_map_lookup_le {A} (f : A -> nat) (l : list A) k x :
  l !! k = Some x -> (f x <= sum_map f l)%nat.
Proof.
  revert k. induction l as [|z l IH]; intros [|k] H; simplify_eq/=; [lia|].
  specialize (IH k H). lia.
Qed.

Lemma sum_map_replicate {A} (f : A -> nat) n x : f x = 0%nat -> sum_map f (replicate n x) = 0%nat.
Proof. intros H. induction n; simpl; lia. Qed.

Lemma sum_map_zero {A} (f : A -> nat) (l : list A) :
  (forall k x, l !! k = Some x -> f x = 0%nat) -> sum_map f l = 0%nat.
Proof.
  induction l as [|z l IH]; intros H; simpl; [done|].
  rewrite (H 0%nat z eq_refl), IH; [done|]. intros k x Hk. by apply (H (S k)).
Qed.

Lemma sum_map_full {A} (f : A -> nat) (l : list A) :
  (forall x, f x <= 1)%nat -> (length l <= sum_map f l)%nat ->
  forall k x, l !! k = Some x -> f x = 1%nat.
Proof.
  intros Hb. induction l as [|z l IH]; intros Hl [|k] x H; simplify_eq/=.
  - assert (sum_map f l <= length l)%nat as Hle.
    { clear -Hb. induction l as [|z l IH]; simpl; [lia|]. specialize (Hb z). lia. }
    specialize (Hb x). lia.
  - apply (IH ltac:(pose proof (Hb z); lia) k x H).
Qed.

Lemma sum_map_le_length {A} (f : A -> nat) (l : list A) :
  (forall x, f x <= 1)%nat -> (sum_map f l <= length l)%nat.
Proof. intros Hb. induction l as [|z l IH]; simpl; [lia|]. specialize (Hb z). lia. Qed.

Lemma sum_map_pos {A} (f : A -> nat) (l : list A) :
  (0 < sum_map f l)%nat -> exists k x, l !! k = Some x /\ (0 < f x)%nat.
Proof.
  induction l as [|z l IH]; simpl; [lia|]. intros H.
  destruct (decide (0 < f z)%nat) as [Hz|Hz].
  - by exists 0%nat, z.
  - destruct IH as (k & x & Hk & Hx); [lia|]. by exists (S k), x.
Qed.

Abbreviation b2n := Nat.b2n.

Lemma b2n_le_1 b : (b2n b <= 1)%nat.
Proof. destruct b; simpl; lia. Qed.

Lemma sum_map_ones {A} (f : A -> nat) (l : list A) :
  (forall k x, l !! k = Some x -> f x = 1%nat) -> sum_map f l = length l.
Proof.
  induction l as [|z l IH]; intros H; [done|]. simpl.
  rewrite (H 0%nat z eq_refl), IH; [done|]. intros k x Hk. by apply (H (S k)).
Qed.

(** Two lists of one length, the second pointwise no larger and smaller by [d]
    at one position. *)
Lemma sum_map_drop {A} (f : A -> nat) (l l' : list A) (i d : nat) (x y : A) :
  length l = length l' ->
  (forall k x y, l !! k = Some x -> l' !! k = Some y -> (f y <= f x)%nat) ->
  l !! i = Some x -> l' !! i = Some y -> (f y + d <= f x)%nat ->
  (sum_map f l' + d <= sum_map f l)%nat.
Proof.
  assert (forall l l' : list A, length l = length l' ->
    (forall k x y, l !! k = Some x -> l' !! k = Some y -> (f y <= f x)%nat) ->
    (sum_map f l' <= sum_map f l)%nat) as Hle.
  { clear. induction l as [|z l IH]; intros [|z' l'] Hlen Hpt; simplify_eq/=; [lia|].
    pose proof (Hpt 0%nat z z' eq_refl eq_refl).
    pose proof (IH l' ltac:(lia) (fun k => Hpt (S k))). lia. }
  revert l' i. induction l as [|z l IH]; intros [|z' l'] [|i] Hlen Hpt Hx Hy Hd; simplify_eq/=.
  - pose proof (Hle l l' ltac:(lia) (fun k => Hpt (S k))). lia.
  - pose proof (Hpt 0%nat z z' eq_refl eq_refl).
    pose proof (IH l' i ltac:(lia) (fun k => Hpt (S k)) Hx Hy Hd). lia.
Qed.

(** A filter that keeps everything. *)
Lemma filter_all {A} (P : A -> Prop) `{forall x, Decision (P x)} (l : list A) :
  (forall x, x ∈ l -> P x) -> filter P l = l.
Proof.
  induction l as [|x l IH]; intros Hl; [done|].
  rewrite filter_cons_True by (apply Hl; by left). f_equal. apply IH. intros y Hy. apply Hl. by right.
Qed.
