(* ===== verification/Types.v ===== *)
(** * Types: the shared data of the engine (crates/pevm/src/lib.rs)

    Memory locations and values, the entries of the multi-version memory,
    transaction versions and incarnation statuses, read origins, read and
    write sets, worker tasks, the execution flags and the two pass-through
    hashers, plus [AccountBasic] of storage.rs, which the values embed.

    An [Address] is a 160-bit integer, a [B256] and a [U256] are 256-bit ones,
    a [MemoryLocationHash] a 64-bit one, all of type [Z].  Transaction indexes
    and incarnation numbers ([usize] counters) are [nat]. *)

From S2P Require Import Prelude.
#[local] Open Scope Z_scope.

Abbreviation Address := Z (only parsing).
Abbreviation B256 := Z (only parsing).
Abbreviation U256 := Z (only parsing).
Abbreviation MemoryLocationHash := Z (only parsing).
Abbreviation TxIdx := nat (only parsing).
Abbreviation TxIncarnation := nat (only parsing).

(** ** Pass-through hashers *)

(** [SuffixHasher::write]: keep the last eight bytes, big endian; slicing
    panics when fewer bytes are given.  The result is the hasher's state, which
    [finish] returns. *)
Definition SuffixHasher_write (bytes : list Z) : outcome Empty_set Z :=
  if decide (length bytes < 8)%nat then Panic
  else Ok (from_be (drop (length bytes - 8)%nat bytes)).

(** [IdentityHasher]: [write_u64] and [write_usize] store the identifier,
    [write] is unreachable. *)
Inductive hasher_input :=
| WriteU64 (id : Z)
| WriteUsize (id : Z)
| WriteBytes (bytes : list Z).

Definition IdentityHasher_write (i : hasher_input) : outcome Empty_set Z :=
  match i with
  | WriteU64 id => Ok id
  | WriteUsize id => Ok (wrap 64 id)
  | WriteBytes _ => Panic
  end.

(** ** Locations and values *)

Inductive MemoryLocation :=
| Basic (a : Address)
| CodeHash (a : Address)
| StorageLoc (a : Address) (slot : U256).

#[export] Instance MemoryLocation_eq_dec : EqDecision MemoryLocation.
Proof. solve_decision. Defined.

Record AccountBasic := mkAccountBasic { balance : U256; nonce : Z }.

#[export] Instance AccountBasic_eq_dec : EqDecision AccountBasic.
Proof. solve_decision. Defined.

(** [AccountBasic::default]. *)
Definition AccountBasic_default : AccountBasic := {| balance := 0; nonce := 0 |}.

Inductive MemoryValue :=
| VBasic (info : AccountBasic)
| VCodeHash (h : B256)
| VStorage (v : U256)
| LazyRecipient (addition : U256)
| LazySender (subtraction : U256)
| SelfDestructed.

#[export] Instance MemoryValue_eq_dec : EqDecision MemoryValue.
Proof. solve_decision. Defined.

Inductive MemoryEntry :=
| Data (inc : TxIncarnation) (v : MemoryValue)
| Estimate.

#[export] Instance MemoryEntry_eq_dec : EqDecision MemoryEntry.
Proof. solve_decision. Defined.

(** ** Transaction versions and statuses *)

Inductive IncarnationStatus :=
| ReadyToExecute
| Executing
| Executed
| Validated
| Aborting.

#[export] Instance IncarnationStatus_eq_dec : EqDecision IncarnationStatus.
Proof. solve_decision. Defined.

Record TxStatus := mkTxStatus { incarnation : TxIncarnation; status : IncarnationStatus }.

#[export] Instance TxStatus_eq_dec : EqDecision TxStatus.
Proof. solve_decision. Defined.

Record TxVersion := mkTxVersion { tx_idx : TxIdx; tx_incarnation : TxIncarnation }.

#[export] Instance TxVersion_eq_dec : EqDecision TxVersion.
Proof. solve_decision. Defined.

Inductive ReadOrigin :=
| FromMvMemory (version : TxVersion)
| FromStorage.

#[export] Instance ReadOrigin_eq_dec : EqDecision ReadOrigin.
Proof. solve_decision. Defined.

Abbreviation ReadOrigins := (list ReadOrigin).
Abbreviation ReadSet := (gmap MemoryLocationHash ReadOrigins).
Abbreviation WriteSet := (list (MemoryLocationHash * MemoryValue)).

Inductive Task :=
| Execution (v : TxVersion)
| Validation (v : TxVersion).

#[export] Instance Task_eq_dec : EqDecision Task.
Proof. solve_decision. Defined.

Definition task_version (t : Task) : TxVersion :=
  match t with Execution v | Validation v => v end.

(** ** Execution flags

    The [bitflags!] type over [u8]: the declared bits, [empty], union and the
    inclusion test [contains]. *)

Definition NeedValidation : Z := 0.
Definition WroteNewLocation : Z := 1.
Definition flags_empty : Z := 0.
Definition flags_union (a b : Z) : Z := Z.lor a b.
Definition contains (flags other : Z) : bool := bool_decide (Z.land flags other = other).

(** A bit pattern of zero is contained in every flag value, so
    [flags.contains(NeedValidation)] cannot be false. *)
Lemma contains_need_validation flags : contains flags NeedValidation = true.
Proof. unfold contains, NeedValidation. apply bool_decide_eq_true_2. apply Z.land_0_r. Qed.

Lemma contains_wrote_empty : contains flags_empty WroteNewLocation = false.
Proof. reflexivity. Qed.

Lemma contains_wrote_union flags :
  contains (flags_union flags WroteNewLocation) WroteNewLocation = true.
Proof.
  unfold contains, flags_union, WroteNewLocation. apply bool_decide_eq_true_2.
  rewrite Z.land_lor_distr_l. apply Z.bits_inj'. intros n Hn.
  rewrite Z.lor_spec, !Z.land_spec. destruct (Z.testbit flags n), (Z.testbit 1 n); reflexivity.
Qed.

(** The suffix hasher reads the low 64 bits of a big-endian integer. *)
Lemma SuffixHasher_low64 n z :
  (8 <= n)%nat -> SuffixHasher_write (to_be n z) = Ok (z mod 2 ^ 64).
Proof.
  intros Hn. unfold SuffixHasher_write. rewrite length_to_be, decide_False by lia. f_equal.
  assert (forall k m y, drop k (to_be (k + m) y) = to_be m y) as Hdrop.
  { intros k m. induction m as [|m IH]; intros y.
    - rewrite drop_ge; [done|]. rewrite length_to_be. lia.
    - replace (k + S m)%nat with (S (k + m))%nat by lia. cbn [to_be].
      rewrite drop_app_le by (rewrite length_to_be; lia). by rewrite IH. }
  replace n with ((n - 8) + 8)%nat at 2 by lia.
  rewrite Hdrop, from_be_to_be. done.
Qed.
