(* ===== verification/Scheduler.v ===== *)
(** * Scheduler: the collaborative scheduler (crates/pevm/src/scheduler.rs)

    [Scheduler] is the struct of the same name; each method is a function on
    it.  The result is an [option]: [None] stands for the undefined behaviour
    of [index_mutex!] ([get_unchecked] past the end of a vector), which
    SchedulerSystem.v proves unreachable.  One call of a method is one
    transition; a [while] loop is one transition per iteration. *)

From S2P Require Import Prelude Types.
#[local] Open Scope nat_scope.

(** ** State *)

Record Scheduler := mkScheduler {
  block_size : nat;
  transactions_status : list TxStatus;
  transactions_dependents : list (list TxIdx);
  execution_idx : nat;
  validation_idx : nat;
  min_validation_idx : nat;
  num_validated : Z;
  aborted : bool;
}.

(** [Scheduler::new]. *)
Definition new (n : nat) : Scheduler := {|
  block_size := n;
  transactions_status := replicate n {| incarnation := 0; status := ReadyToExecute |};
  transactions_dependents := replicate n [];
  execution_idx := 0;
  validation_idx := n;
  min_validation_idx := n;
  num_validated := 0;
  aborted := false;
|}.

(** Field updates. *)
Definition set_statuses (l : list TxStatus) (s : Scheduler) : Scheduler :=
  mkScheduler (block_size s) l (transactions_dependents s) (execution_idx s)
    (validation_idx s) (min_validation_idx s) (num_validated s) (aborted s).
Definition set_dependents (l : list (list TxIdx)) (s : Scheduler) : Scheduler :=
  mkScheduler (block_size s) (transactions_status s) l (execution_idx s)
    (validation_idx s) (min_validation_idx s) (num_validated s) (aborted s).
Definition set_execution_idx (i : nat) (s : Scheduler) : Scheduler :=
  mkScheduler (block_size s) (transactions_status s) (transactions_dependents s) i
    (validation_idx s) (min_validation_idx s) (num_validated s) (aborted s).
Definition set_validation_idx (i : nat) (s : Scheduler) : Scheduler :=
  mkScheduler (block_size s) (transactions_status s) (transactions_dependents s)
    (execution_idx s) i (min_validation_idx s) (num_validated s) (aborted s).
Definition set_min_validation_idx (i : nat) (s : Scheduler) : Scheduler :=
  mkScheduler (block_size s) (transactions_status s) (transactions_dependents s)
    (execution_idx s) (validation_idx s) i (num_validated s) (aborted s).
Definition set_num_validated (z : Z) (s : Scheduler) : Scheduler :=
  mkScheduler (block_size s) (transactions_status s) (transactions_dependents s)
    (execution_idx s) (validation_idx s) (min_validation_idx s) z (aborted s).

(** The atomics: [fetch_min] and the two wrapping [fetch_add]/[fetch_sub] of
    the validation count. *)
Definition fetch_min_execution (i : nat) (s : Scheduler) : Scheduler :=
  set_execution_idx (Nat.min (execution_idx s) i) s.
Definition fetch_min_validation (i : nat) (s : Scheduler) : Scheduler :=
  set_validation_idx (Nat.min (validation_idx s) i) s.
Definition incr_num_validated (s : Scheduler) : Scheduler :=
  set_num_validated (u64_add (num_validated s) 1) s.
Definition decr_num_validated (s : Scheduler) : Scheduler :=
  set_num_validated (u64_sub (num_validated s) 1) s.

(** Write [st] under the lock of transaction [i], whose value is [tx]. *)
Definition put_status (i : nat) (tx : TxStatus) (st : IncarnationStatus) (s : Scheduler)
    : Scheduler :=
  set_statuses (<[i := {| incarnation := incarnation tx; status := st |}]> (transactions_status s)) s.

Definition version_of (i : nat) (tx : TxStatus) : TxVersion :=
  {| tx_idx := i; tx_incarnation := incarnation tx |}.

(** ** Operations *)

Definition abort (s : Scheduler) : Scheduler :=
  mkScheduler (block_size s) (transactions_status s) (transactions_dependents s)
    (execution_idx s) (validation_idx s) (min_validation_idx s) (num_validated s) true.

Definition try_execute (s : Scheduler) (i : TxIdx) : option (option TxVersion * Scheduler) :=
  if i <? block_size s then
    tx ← transactions_status s !! i;
    if decide (status tx = ReadyToExecute)
    then Some (Some (version_of i tx), put_status i tx Executing s)
    else Some (None, s)
  else Some (None, s).

(** What one iteration of the loop of [next_task] does: leave the loop (the
    call returns [None]), yield the thread and go round, go round, or return a
    task. *)
Inductive iteration :=
| IterBreak
| IterYield
| IterContinue
| IterTask (t : Task).

#[export] Instance iteration_eq_dec : EqDecision iteration.
Proof. solve_decision. Defined.

(** "Prioritize execution task": the tail of an iteration. *)
Definition next_execution (s : Scheduler) : option (iteration * Scheduler) :=
  let i := execution_idx s in
  '(r, s1) ← try_execute (set_execution_idx (S i) s) i;
  match r with
  | Some v => Some (IterTask (Execution v), s1)
  | None => Some (IterContinue, s1)
  end.

Definition next_task_iter (s : Scheduler) : option (iteration * Scheduler) :=
  if aborted s then Some (IterBreak, s)
  else if (block_size s <=? execution_idx s) && (block_size s <=? validation_idx s) then
    if (Z.of_nat (block_size s - min_validation_idx s) <=? num_validated s)%Z
    then Some (IterBreak, s)
    else Some (IterYield, s)
  else if validation_idx s <? execution_idx s then
    let i := validation_idx s in
    let s1 := set_validation_idx (S i) s in
    if i <? block_size s then
      tx ← transactions_status s1 !! i;
      match status tx with
      | ReadyToExecute => Some (IterTask (Execution (version_of i tx)), put_status i tx Executing s1)
      | Executed | Validated => Some (IterTask (Validation (version_of i tx)), s1)
      | Aborting => Some (IterContinue, s1)
      | Executing => next_execution s1
      end
    else next_execution s1
  else next_execution s.

(** The loop itself, run by one thread until it returns or has to yield to the
    other threads.  [fuel] bounds the iterations; [next_task_terminates] shows
    how much is enough. *)
Inductive next_result :=
| NtReturn (t : option Task)
| NtYield
| NtOutOfFuel.

Fixpoint next_task (fuel : nat) (s : Scheduler) : option (next_result * Scheduler) :=
  match fuel with
  | O => Some (NtOutOfFuel, s)
  | S fuel =>
      '(r, s1) ← next_task_iter s;
      match r with
      | IterBreak => Some (NtReturn None, s1)
      | IterTask t => Some (NtReturn (Some t), s1)
      | IterYield => Some (NtYield, s1)
      | IterContinue => next_task fuel s1
      end
  end.

Definition add_dependency (s : Scheduler) (i blocking : TxIdx) : option (bool * Scheduler) :=
  blocking_tx ← transactions_status s !! blocking;
  if decide (status blocking_tx = Executed \/ status blocking_tx = Validated)
  then Some (false, s)
  else
    tx ← transactions_status s !! i;
    let s1 := put_status i tx Aborting s in
    deps ← transactions_dependents s1 !! blocking;
    Some (true, set_dependents (<[blocking := deps ++ [i]]> (transactions_dependents s1)) s1).

Definition set_ready_status (s : Scheduler) (i : TxIdx) : option Scheduler :=
  tx ← transactions_status s !! i;
  Some (set_statuses
    (<[i := {| incarnation := S (incarnation tx); status := ReadyToExecute |}]>
       (transactions_status s)) s).

(** The loop "Resume dependent transactions". *)
Fixpoint resume_dependents (deps : list TxIdx) (s : Scheduler) : option Scheduler :=
  match deps with
  | [] => Some s
  | j :: deps =>
      s1 ← set_ready_status s j;
      resume_dependents deps (fetch_min_execution j s1)
  end.

(** The tail of [finish_execution] that no early return took. *)
Definition finish_without_task (i : TxIdx) (tx : TxStatus) (flags : Z) (s : Scheduler)
    : option Task * Scheduler :=
  if contains flags NeedValidation
  then (None, put_status i tx Executed s)
  else (None, incr_num_validated (put_status i tx Validated s)).

Definition finish_execution (s : Scheduler) (v : TxVersion) (flags : Z)
    : option (option Task * Scheduler) :=
  let i := tx_idx v in
  tx ← transactions_status s !! i;
  deps ← transactions_dependents s !! i;
  s1 ← resume_dependents deps (set_dependents (<[i := []]> (transactions_dependents s)) s);
  let '(min_idx, s2) :=
    if contains flags NeedValidation
    then (Nat.min (min_validation_idx s1) i,
          set_min_validation_idx (Nat.min (min_validation_idx s1) i) s1)
    else (min_validation_idx s1, s1) in
  if min_idx <? block_size s then
    if i <? min_idx then
      let s3 := if contains flags WroteNewLocation then fetch_min_validation min_idx s2 else s2 in
      Some (finish_without_task i tx flags s3)
    else if i <? validation_idx s2 then
      let s3 := if contains flags WroteNewLocation then fetch_min_validation (S i) s2 else s2 in
      if contains flags NeedValidation
      then Some (Some (Validation v), put_status i tx Executed s3)
      else
        let s4 := incr_num_validated (put_status i tx Validated s3) in
        Some (finish_without_task i tx flags s4)
    else Some (finish_without_task i tx flags s2)
  else Some (finish_without_task i tx flags s2).

Definition try_validation_abort (s : Scheduler) (v : TxVersion) : option (bool * Scheduler) :=
  let i := tx_idx v in
  tx ← transactions_status s !! i;
  let s1 := if decide (status tx = Validated) then decr_num_validated s else s in
  if decide (status tx = Executed \/ status tx = Validated)
  then Some (true, put_status i tx Aborting s1)
  else Some (false, s1).

Definition finish_validation (s : Scheduler) (v : TxVersion) (abort_won : bool)
    : option (option Task * Scheduler) :=
  let i := tx_idx v in
  if abort_won then
    s1 ← set_ready_status s i;
    let s2 := fetch_min_validation (S i) s1 in
    if i <? execution_idx s2 then
      '(r, s3) ← try_execute s2 i;
      Some (option_map Execution r, s3)
    else Some (None, s2)
  else
    tx ← transactions_status s !! i;
    if decide (status tx = Executed)
    then Some (None, incr_num_validated (put_status i tx Validated s))
    else Some (None, s).

(** ** Basic facts *)

Create HintDb sched.

(** A scheduler whose vectors have the block's size: every index below the
    block size is in bounds. *)
Definition sized (s : Scheduler) : Prop :=
  length (transactions_status s) = block_size s /\
  length (transactions_dependents s) = block_size s.

Lemma new_sized n : sized (new n).
Proof. split; apply length_replicate. Qed.

Lemma sized_lookup s i : sized s -> i < block_size s ->
  exists tx, transactions_status s !! i = Some tx.
Proof. intros [H _] Hi. apply lookup_lt_is_Some_2. lia. Qed.

Lemma sized_dependents s i : sized s -> i < block_size s ->
  exists deps, transactions_dependents s !! i = Some deps.
Proof. intros [_ H] Hi. apply lookup_lt_is_Some_2. lia. Qed.

Lemma put_status_sized s i tx st : sized s -> sized (put_status i tx st s).
Proof. intros [H1 H2]. split; cbn; [by rewrite length_insert|done]. Qed.

#[export] Hint Resolve new_sized put_status_sized : sched.

(** ** [try_execute] *)

Lemma try_execute_total s i : sized s ->
  exists r s', try_execute s i = Some (r, s').
Proof.
  intros Hs. unfold try_execute. destruct (Nat.ltb_spec i (block_size s)) as [Hi|Hi]; [|eauto].
  destruct (sized_lookup s i Hs Hi) as [tx Htx]. rewrite Htx. simpl. case_decide; eauto.
Qed.

(** A successful [try_execute] took a ready transaction and dispatched its
    current incarnation; an unsuccessful one changed nothing. *)
Lemma try_execute_inv s i r s' : try_execute s i = Some (r, s') ->
  (exists tx, i < block_size s /\ transactions_status s !! i = Some tx /\
     status tx = ReadyToExecute /\ r = Some (version_of i tx) /\ s' = put_status i tx Executing s) \/
  (r = None /\ s' = s /\
     forall tx, i < block_size s -> transactions_status s !! i = Some tx -> status tx <> ReadyToExecute).
Proof.
  unfold try_execute. destruct (Nat.ltb_spec i (block_size s)) as [Hi|Hi].
  - destruct (transactions_status s !! i) as [tx|] eqn:Htx; simpl; [|done].
    case_decide as Hst; intros [= <- <-]; [left|right]; naive_solver.
  - intros [= <- <-]. right. repeat split; lia.
Qed.

(** ** [next_task] *)

(** One iteration never leaves the vectors. *)
Lemma next_task_iter_total s : sized s -> exists r s', next_task_iter s = Some (r, s').
Proof.
  intros Hs. unfold next_task_iter, next_execution.
  destruct (aborted s); [eauto|]. destruct (_ && _); [destruct (_ <=? _)%Z; eauto|].
  assert (forall s1, sized s1 -> exists r s', next_execution s1 = Some (r, s')) as Hne.
  { intros s1 Hs1. unfold next_execution.
    destruct (try_execute_total (set_execution_idx (S (execution_idx s1)) s1) (execution_idx s1))
      as (r & s' & ->); [done|]. destruct r; simpl; eauto. }
  destruct (Nat.ltb_spec (validation_idx s) (execution_idx s)); [|by apply Hne].
  destruct (Nat.ltb_spec (validation_idx s) (block_size s)) as [Hi|Hi]; [|by apply Hne].
  destruct (sized_lookup s _ Hs Hi) as [tx Htx]. cbn. rewrite Htx. cbn.
  destruct (status tx); eauto. apply (Hne (set_validation_idx (S (validation_idx s)) s)). exact Hs.
Qed.

(** How far the two task counters are from the end of the block. *)
Definition idle_measure (s : Scheduler) : nat :=
  (block_size s - execution_idx s) + (block_size s - validation_idx s).

Lemma next_execution_continue s s' :
  next_execution s = Some (IterContinue, s') -> s' = set_execution_idx (S (execution_idx s)) s.
Proof.
  unfold next_execution.
  destruct (try_execute _ _) as [[r s1]|] eqn:E; simpl; [|done].
  apply try_execute_inv in E as [(tx & ? & ? & ? & -> & ->)|(-> & -> & _)]; simpl; congruence.
Qed.

Lemma next_task_iter_decreases s s' :
  next_task_iter s = Some (IterContinue, s') ->
  (idle_measure s' < idle_measure s) /\ (sized s -> sized s') /\ block_size s' = block_size s.
Proof.
  unfold next_task_iter. destruct (aborted s); [congruence|].
  destruct (Nat.leb_spec (block_size s) (execution_idx s)) as [He|He],
    (Nat.leb_spec (block_size s) (validation_idx s)) as [Hv|Hv]; cbn;
    [destruct (_ <=? _)%Z; congruence| | |];
    (destruct (Nat.ltb_spec (validation_idx s) (execution_idx s));
     [|intros ->%next_execution_continue; unfold idle_measure; cbn;
       split; [lia|by split]]);
    (destruct (Nat.ltb_spec (validation_idx s) (block_size s)); [|lia]);
    (destruct (transactions_status s !! _) as [tx|]; cbn; [|congruence];
     destruct (status tx); try congruence);
    (intros ->%next_execution_continue || intros [= <-]);
    unfold idle_measure; cbn; (split; [lia|by split]).
Qed.

Lemma next_task_fuel fuel s : sized s -> idle_measure s < fuel ->
  exists r s', next_task fuel s = Some (r, s') /\ r <> NtOutOfFuel.
Proof.
  revert s. induction fuel as [|fuel IH]; intros s Hs Hm; [lia|]. cbn [next_task].
  destruct (next_task_iter_total s Hs) as (r & s1 & E). rewrite E. cbn.
  destruct r; [by eauto|by eauto| |by eauto].
  apply next_task_iter_decreases in E as (Hlt & Hs1 & _). apply IH; [by apply Hs1|lia].
Qed.

(** C21: the loop of [next_task], run without interference from any state whose
    vectors have the block's size, stops within twice the block size plus one
    iterations: it returns (a task or [None]) or reaches [yield_now], and it
    never indexes out of bounds. *)
Theorem next_task_terminates (s : Scheduler) (Hs : sized s) :
  exists r s', next_task (S (2 * block_size s)) s = Some (r, s') /\ r <> NtOutOfFuel.
Proof. apply next_task_fuel; [done|]. unfold idle_measure. lia. Qed.

Lemma next_task_terminates_witness :
  sized (new 3) /\ exists r s', next_task 7 (new 3) = Some (r, s') /\ r <> NtOutOfFuel.
Proof. split; [by vm_compute|]. apply (next_task_terminates (new 3)). by vm_compute. Defined.

(** ** [set_ready_status] and the resumption of dependents *)

(** The status [set_ready_status] leaves behind. *)
Definition readied (tx : TxStatus) : TxStatus :=
  {| incarnation := S (incarnation tx); status := ReadyToExecute |}.

(** Everything but the statuses and the execution counter is as before. *)
Record same_frame (s s' : Scheduler) : Prop := {
  sf_block_size : block_size s' = block_size s;
  sf_dependents : transactions_dependents s' = transactions_dependents s;
  sf_validation : validation_idx s' = validation_idx s;
  sf_min : min_validation_idx s' = min_validation_idx s;
  sf_num : num_validated s' = num_validated s;
  sf_aborted : aborted s' = aborted s;
  sf_length : length (transactions_status s') = length (transactions_status s);
}.

Record resumed (deps : list TxIdx) (s s' : Scheduler) : Prop := {
  rs_frame : same_frame s s';
  rs_status : forall j, transactions_status s' !! j =
    if decide (j ∈ deps) then option_map readied (transactions_status s !! j)
    else transactions_status s !! j;
  rs_execution : execution_idx s' <= execution_idx s;
  rs_execution_dep : forall j, j ∈ deps -> execution_idx s' <= j;
  rs_execution_above : forall m, m <= execution_idx s -> (forall j, j ∈ deps -> m <= j) ->
    m <= execution_idx s';
  rs_sum : forall f : TxStatus -> nat,
    (forall j tx, j ∈ deps -> transactions_status s !! j = Some tx ->
       f tx = 0 /\ f (readied tx) = 0) ->
    sum_map f (transactions_status s') = sum_map f (transactions_status s);
}.

Lemma resume_dependents_spec deps s :
  NoDup deps ->
  (forall j, j ∈ deps -> exists tx, transactions_status s !! j = Some tx) ->
  exists s', resume_dependents deps s = Some s' /\ resumed deps s s'.
Proof.
  revert s. induction deps as [|k deps IH]; intros s Hnd Hin.
  - exists s. split; [done|]. split; [by split| |lia| |done|done].
    + intros j. by rewrite decide_False by apply not_elem_of_nil.
    + intros j Hj. by apply elem_of_nil in Hj.
  - apply NoDup_cons in Hnd as [Hk Hnd].
    destruct (Hin k) as [tx Htx]; [by left|].
    set (s1 := fetch_min_execution k
      (set_statuses (<[k:=readied tx]> (transactions_status s)) s)).
    assert (forall j, transactions_status s1 !! j =
      if decide (j = k) then Some (readied tx) else transactions_status s !! j) as Hs1.
    { intros j. subst s1; cbn. case_decide as E.
      - subst. apply list_lookup_insert_eq. by eapply lookup_lt_Some.
      - by apply list_lookup_insert_ne. }
    destruct (IH s1 Hnd) as (s' & Hres & [Hf Hst He Hed Hab Hsum]).
    { intros j Hj. rewrite Hs1. case_decide; [eauto|]. apply Hin. by right. }
    exists s'. split.
    { cbn [resume_dependents]. unfold set_ready_status. by rewrite Htx. }
    split.
    + destruct Hf as [? ? ? ? ? ? Hl]. split; try done. rewrite Hl. subst s1; cbn.
      apply length_insert.
    + intros j. rewrite Hst, Hs1. destruct (decide (j = k)) as [->|Hjk].
      * rewrite (decide_False (P := k ∈ deps)) by done. rewrite decide_True by by left.
        by rewrite Htx.
      * destruct (decide (j ∈ deps)) as [Hj|Hj].
        -- by rewrite decide_True by by right.
        -- by rewrite decide_False by (intros [?|?]%elem_of_cons; done).
    + subst s1; cbn in He. lia.
    + intros j [->|Hj]%elem_of_cons; [subst s1; cbn in He; lia|by apply Hed].
    + intros m Hm Hd. apply Hab.
      * subst s1; cbn. pose proof (Hd k ltac:(by left)). lia.
      * intros j Hj. apply Hd. by right.
    + intros f Hz. rewrite Hsum.
      * pose proof (sum_map_insert f _ k tx (readied tx) Htx) as Hi.
        destruct (Hz k tx ltac:(by left) Htx). subst s1; cbn. lia.
      * intros j tx' Hj. rewrite Hs1. case_decide as E; [congruence|].
        intros Hj'. apply (Hz j); [by right|done].
Qed.

(** ** [finish_execution]

    [contains flags NeedValidation] is always true, so one normal form covers
    the method: the dependents are resumed, the minimum is lowered to this
    transaction, its status becomes [Executed], and it is validated at once
    unless the validation counter still has to reach it. *)
Record finished (s : Scheduler) (v : TxVersion) (flags : Z) (tx : TxStatus)
    (deps : list TxIdx) (t : option Task) (s' : Scheduler) : Prop := {
  fin_mid : exists s1,
    resumed deps (set_dependents (<[tx_idx v := []]> (transactions_dependents s)) s) s1 /\
    transactions_status s' =
      <[tx_idx v := {| incarnation := incarnation tx; status := Executed |}]>
        (transactions_status s1) /\
    execution_idx s' = execution_idx s1;
  fin_block_size : block_size s' = block_size s;
  fin_dependents : transactions_dependents s' = <[tx_idx v := []]> (transactions_dependents s);
  fin_min : min_validation_idx s' = Nat.min (min_validation_idx s) (tx_idx v);
  fin_num : num_validated s' = num_validated s;
  fin_aborted : aborted s' = aborted s;
  fin_task :
    (t = Some (Validation v) /\ tx_idx v < validation_idx s /\
     validation_idx s' = (if contains flags WroteNewLocation
                          then Nat.min (validation_idx s) (S (tx_idx v)) else validation_idx s)) \/
    (t = None /\ validation_idx s <= tx_idx v /\ validation_idx s' = validation_idx s);
}.

Lemma finish_execution_spec s v flags tx deps :
  transactions_status s !! tx_idx v = Some tx ->
  transactions_dependents s !! tx_idx v = Some deps ->
  tx_idx v < block_size s ->
  NoDup deps ->
  (forall j, j ∈ deps -> exists tx, transactions_status s !! j = Some tx) ->
  exists t s', finish_execution s v flags = Some (t, s') /\ finished s v flags tx deps t s'.
Proof.
  intros Htx Hdeps Hi Hnd Hin.
  destruct (resume_dependents_spec deps
    (set_dependents (<[tx_idx v := []]> (transactions_dependents s)) s)) as (s1 & Hres & Hr);
    [done|done|].
  pose proof (rs_frame _ _ _ Hr) as [Hb Hd Hv Hm Hn Ha Hl]; cbn in *.
  unfold finish_execution, finish_without_task. rewrite Htx; cbn. rewrite Hdeps; cbn.
  rewrite Hres; cbn. rewrite contains_need_validation; cbn. rewrite Hm, Hv.
  destruct (Nat.ltb_spec (Nat.min (min_validation_idx s) (tx_idx v)) (block_size s)); [|lia].
  destruct (Nat.ltb_spec (tx_idx v) (Nat.min (min_validation_idx s) (tx_idx v))); [lia|].
  destruct (Nat.ltb_spec (tx_idx v) (validation_idx s)) as [Hlt|Hge];
    eexists _, _; (split; [reflexivity|]).
  - destruct (contains flags WroteNewLocation) eqn:Hw; split; cbn; rewrite ?Hw; try done;
      try (exists s1; by split); left; (split; [done|]); split; congruence.
  - split; cbn; try done; [exists s1; by split|]. right. by rewrite Hv.
Qed.

(** ** The cases of one iteration of [next_task]

    An iteration of a running scheduler stops or yields at the end of the block,
    dispatches a ready transaction, hands out the transaction under the
    validation counter for validation, or only advances counters, past
    transactions that are not ready (execution) or not executed (validation). *)
Definition advance_ok (s : Scheduler) (e va : nat) (keep_ready keep_executed : TxIdx -> Prop) : Prop :=
  (forall j tx, transactions_status s !! j = Some tx -> status tx = ReadyToExecute ->
     execution_idx s <= j -> e <= j \/ keep_ready j) /\
  (forall j tx, transactions_status s !! j = Some tx -> status tx = Executed \/ status tx = Validated ->
     validation_idx s <= j -> va <= j \/ keep_executed j).

Inductive iter_case (s : Scheduler) : iteration -> Scheduler -> Prop :=
| iter_end r :
    block_size s <= execution_idx s -> block_size s <= validation_idx s ->
    r = (if (Z.of_nat (block_size s - min_validation_idx s) <=? num_validated s)%Z
         then IterBreak else IterYield) ->
    iter_case s r s
| iter_execute i tx e va :
    transactions_status s !! i = Some tx -> status tx = ReadyToExecute -> i < block_size s ->
    advance_ok s e va (fun j => j = i) (fun _ => False) ->
    iter_case s (IterTask (Execution (version_of i tx)))
      (put_status i tx Executing (set_execution_idx e (set_validation_idx va s)))
| iter_validate i tx va :
    transactions_status s !! i = Some tx -> status tx = Executed \/ status tx = Validated ->
    i < block_size s ->
    advance_ok s (execution_idx s) va (fun _ => False) (fun j => j = i) ->
    iter_case s (IterTask (Validation (version_of i tx))) (set_validation_idx va s)
| iter_continue e va :
    advance_ok s e va (fun _ => False) (fun _ => False) ->
    iter_case s IterContinue (set_execution_idx e (set_validation_idx va s)).

Lemma next_execution_cases s va r s' :
  next_execution (set_validation_idx va s) = Some (r, s') ->
  (forall j tx, transactions_status s !! j = Some tx -> status tx = Executed \/ status tx = Validated ->
     validation_idx s <= j -> va <= j) ->
  sized s -> iter_case s r s'.
Proof.
  intros E Hva Hs. unfold next_execution in E.
  destruct (try_execute _ _) as [[o s1]|] eqn:T; simpl in E; [|done].
  apply try_execute_inv in T as [(tx & Hi & Htx & Hst & -> & ->)|(-> & -> & Hno)];
    cbn in *; simplify_eq.
  - apply (iter_execute s (execution_idx s) tx (S (execution_idx s)) va); try done.
    split; [intros j tx' _ _ Hj; lia|]. intros j tx' Hj ? ?. left. by eapply Hva.
  - apply (iter_continue s (S (execution_idx s)) va). split.
    + intros j tx Hj Hr Hle. left. destruct (decide (j = execution_idx s)) as [->|]; [|lia].
      exfalso. apply (Hno tx); try done. destruct Hs as [Hl _]. apply lookup_lt_Some in Hj. lia.
    + intros j tx Hj ? ?. left. by eapply Hva.
Qed.

Lemma next_task_iter_cases s r s' :
  sized s -> aborted s = false -> next_task_iter s = Some (r, s') -> iter_case s r s'.
Proof.
  intros Hs Ha. unfold next_task_iter. rewrite Ha.
  assert (forall r s', next_execution s = Some (r, s') -> iter_case s r s') as Hne.
  { intros r1 s1 E. apply (next_execution_cases s (validation_idx s)); [by destruct s|lia|done]. }
  destruct (Nat.leb_spec (block_size s) (execution_idx s)) as [He|He],
    (Nat.leb_spec (block_size s) (validation_idx s)) as [Hv|Hv]; cbn.
  { intros E. destruct (Z.leb_spec (Z.of_nat (block_size s - min_validation_idx s))
      (num_validated s)) as [Hz|Hz]; simplify_eq; apply iter_end; try done;
      [by apply Z.leb_le in Hz as ->|by apply Z.leb_gt in Hz as ->]. }
  all: destruct (Nat.ltb_spec (validation_idx s) (execution_idx s)); [|by apply Hne].
  2: lia.
  all: destruct (Nat.ltb_spec (validation_idx s) (block_size s)) as [Hi|Hi]; [|lia].
  all: destruct (transactions_status s !! validation_idx s) as [tx|] eqn:Htx; cbn; [|done].
  all: assert (status tx <> Executed -> status tx <> Validated -> forall j tx',
    transactions_status s !! j = Some tx' -> status tx' = Executed \/ status tx' = Validated ->
    validation_idx s <= j -> S (validation_idx s) <= j) as Hnx
    by (intros Hst Hst2 j tx' Hj [?|?] ?; destruct (decide (j = validation_idx s)); try lia; subst; congruence).
  all: destruct (status tx) eqn:Hst; intros E.
  all: try (by apply (next_execution_cases s (S (validation_idx s))); [done|by apply Hnx|done]).
  all: simplify_eq.
  all: try (apply (iter_execute s (validation_idx s) tx (execution_idx s) (S (validation_idx s)));
    try done; split; [intros; by left|intros j tx' ? ? ?; left; by eapply Hnx]).
  all: try (apply (iter_validate s (validation_idx s) tx); try done; try (by left); try (by right);
    split; [intros; by left|intros j tx' ? ? ?; destruct (decide (j = validation_idx s)); [by right|left; lia]]).
  all: apply (iter_continue s (execution_idx s) (S (validation_idx s)));
    split; [intros; by left|intros j tx' ? ? ?; left; by eapply Hnx].
Qed.
