(* ===== verification/SchedulerSystem.v ===== *)
(** * SchedulerSystem: worker threads sharing one scheduler (pexe.rs, scheduler.rs)

    The [thread::scope] of [Pexe::execute_revm_parallel] as a transition
    system.  A configuration is the shared [Scheduler] and the local state of
    every worker; a step lets one worker perform one scheduler call (one loop
    iteration for [next_task]), in any interleaving.  What the EVM and the
    multi-version memory answer is left open here: an execution may block on any
    lower transaction, finish with any flags or fail, and a validation may come
    out either way.

    The invariant [inv] is proved by rule induction; from it follow the safety
    of the unchecked indexing and of every [debug_assert], the bookkeeping of
    [num_validated], that every version is dispatched and aborted at most once,
    that a worker only yields while another one holds a task, and that when all
    workers have left every transaction is validated. *)

From S2P Require Import Prelude Types Scheduler.
#[local] Open Scope nat_scope.

(** ** Workers and configurations *)

Inductive worker :=
| Idle                                        (* about to run an iteration of [next_task] *)
| HasTask (t : Task)                          (* [task = Some t] *)
| Checked (v : TxVersion) (abort_won : bool)  (* [try_validate], before [finish_validation] *)
| Exited (left : option Task).                (* out of the loop, [left] abandoned after an abort *)

#[export] Instance worker_eq_dec : EqDecision worker.
Proof. solve_decision. Defined.

Record config := mkConfig {
  sched : Scheduler;
  workers : list worker;
  dispatched : list TxVersion;  (* history: versions handed out for execution *)
  abort_log : list TxVersion;   (* history: versions aborted by a validation *)
}.

Definition after_task (t : option Task) : worker :=
  match t with Some t => HasTask t | None => Idle end.

Definition after_iter (r : iteration) : worker :=
  match r with
  | IterBreak => Exited None
  | IterYield | IterContinue => Idle
  | IterTask t => HasTask t
  end.

Definition log_exec (t : option Task) (l : list TxVersion) : list TxVersion :=
  match t with Some (Execution v) => v :: l | _ => l end.

Definition iter_task (r : iteration) : option Task :=
  match r with IterTask t => Some t | _ => None end.

(** The configuration after worker [w] moved to [x] and the scheduler to [s]. *)
Definition moved (c : config) (s : Scheduler) (w : nat) (x : worker) (t : option Task)
    (aborts : list TxVersion) : config :=
  mkConfig s (<[w := x]> (workers c)) (log_exec t (dispatched c)) (aborts ++ abort_log c).

Inductive step (c : config) : config -> Prop :=
| step_next w r s' :
    workers c !! w = Some Idle ->
    next_task_iter (sched c) = Some (r, s') ->
    step c (moved c s' w (after_iter r) (iter_task r) [])
| step_exec_blocked w v b ok s' :
    workers c !! w = Some (HasTask (Execution v)) ->
    b < tx_idx v ->
    add_dependency (sched c) (tx_idx v) b = Some (ok, s') ->
    step c (moved c s' w (if ok then Idle else HasTask (Execution v)) None [])
| step_exec_finish w v flags t s' :
    workers c !! w = Some (HasTask (Execution v)) ->
    finish_execution (sched c) v flags = Some (t, s') ->
    step c (moved c s' w (after_task t) t [])
| step_exec_fatal w v :
    workers c !! w = Some (HasTask (Execution v)) ->
    step c (moved c (abort (sched c)) w (Exited (Some (Execution v))) None [])
| step_validate_pass w v :
    workers c !! w = Some (HasTask (Validation v)) ->
    step c (moved c (sched c) w (Checked v false) None [])
| step_validate_fail w v tx won s' :
    workers c !! w = Some (HasTask (Validation v)) ->
    transactions_status (sched c) !! tx_idx v = Some tx ->
    try_validation_abort (sched c) v = Some (won, s') ->
    step c (moved c s' w (Checked v won) None (if won then [version_of (tx_idx v) tx] else []))
| step_finish_validation w v won t s' :
    workers c !! w = Some (Checked v won) ->
    finish_validation (sched c) v won = Some (t, s') ->
    step c (moved c s' w (after_task t) t [])
| step_leave w t :
    workers c !! w = Some (HasTask t) ->
    aborted (sched c) = true ->
    step c (moved c (sched c) w (Exited (Some t)) None []).

(** [concurrency_level] workers on a fresh scheduler. *)
Definition init (n level : nat) : config := mkConfig (new n) (replicate level Idle) [] [].

Definition reachable (n level : nat) (c : config) : Prop := rtc step (init n level) c.

(** ** Ownership tokens

    An executing transaction is owned by the worker that holds its execution
    task; an aborting one by the worker that won its abort, or by the dependents
    list of the transaction that blocks it. *)
Definition held (x : worker) : option Task :=
  match x with HasTask t => Some t | Exited t => t | _ => None end.
Definition exec_tok (i : TxIdx) (x : worker) : nat :=
  match held x with Some (Execution v) => b2n (tx_idx v =? i) | _ => 0 end.
Definition abort_tok (i : TxIdx) (x : worker) : nat :=
  match x with Checked v true => b2n (tx_idx v =? i) | _ => 0 end.
Definition dep_tok (i : TxIdx) (deps : list TxIdx) : nat :=
  sum_map (fun j => b2n (j =? i)) deps.
Definition deps_tok (i : TxIdx) (s : Scheduler) : nat :=
  sum_map (dep_tok i) (transactions_dependents s).
Definition is_st (st : IncarnationStatus) (tx : TxStatus) : nat :=
  b2n (bool_decide (status tx = st)).

(** A worker that will settle the validation of transaction [i]. *)
Definition validates (i : TxIdx) (x : worker) : Prop :=
  match x with
  | HasTask (Validation v) | Exited (Some (Validation v)) | Checked v _ => tx_idx v = i
  | _ => False
  end.

Definition done_status (st : IncarnationStatus) : Prop := st = Executed \/ st = Validated.

Definition in_range (n : nat) (x : worker) : Prop :=
  match x with
  | HasTask t | Exited (Some t) => tx_idx (task_version t) < n
  | Checked v _ => tx_idx v < n
  | _ => True
  end.

(** The life of an incarnation, as drawn above [IncarnationStatus] in lib.rs. *)
Definition lifecycle (tx tx' : TxStatus) : Prop :=
  match status tx, status tx' with
  | ReadyToExecute, Executing                        (* try_execute *)
  | Executing, Executed                              (* finish_execution *)
  | Executed, Validated                              (* finish_validation *)
  | Executed, Aborting | Validated, Aborting         (* try_validation_abort *)
  | Executing, Aborting =>                           (* add_dependency *)
      incarnation tx' = incarnation tx
  | Aborting, ReadyToExecute =>                      (* finish_validation, resume *)
      incarnation tx' = S (incarnation tx)
  | _, _ => False
  end.

(** A history entry is of an incarnation that is over, or of the current one
    when that has left the statuses [fresh]. *)
Definition past (s : Scheduler) (P : IncarnationStatus -> Prop) (v : TxVersion) : Prop :=
  exists tx, transactions_status s !! tx_idx v = Some tx /\
    (tx_incarnation v < incarnation tx \/
     (tx_incarnation v = incarnation tx /\ P (status tx))).

Record inv (c : config) : Prop := {
  inv_sized : sized (sched c);
  inv_bound : (Z.of_nat (block_size (sched c)) < 2 ^ 64)%Z;
  inv_exec : forall i tx, transactions_status (sched c) !! i = Some tx ->
    sum_map (exec_tok i) (workers c) = is_st Executing tx;
  inv_abort : forall i tx, transactions_status (sched c) !! i = Some tx ->
    sum_map (abort_tok i) (workers c) + deps_tok i (sched c) = is_st Aborting tx;
  inv_holder : forall w x v, workers c !! w = Some x -> held x = Some (Execution v) ->
    exists tx, transactions_status (sched c) !! tx_idx v = Some tx /\
      incarnation tx = tx_incarnation v;
  inv_range : forall w x, workers c !! w = Some x -> in_range (block_size (sched c)) x;
  inv_deps : forall b deps j, transactions_dependents (sched c) !! b = Some deps -> j ∈ deps ->
    b < j < block_size (sched c) /\
    forall tx, transactions_status (sched c) !! b = Some tx -> ~ done_status (status tx);
  inv_ready : forall i tx, transactions_status (sched c) !! i = Some tx ->
    status tx = ReadyToExecute -> execution_idx (sched c) <= i;
  inv_num : num_validated (sched c) =
    Z.of_nat (sum_map (is_st Validated) (transactions_status (sched c)));
  inv_min : forall i tx, transactions_status (sched c) !! i = Some tx ->
    done_status (status tx) -> min_validation_idx (sched c) <= i;
  inv_pending : forall i tx, transactions_status (sched c) !! i = Some tx ->
    status tx = Executed -> validation_idx (sched c) <= i \/
    exists w x, workers c !! w = Some x /\ validates i x;
  inv_dispatched : NoDup (dispatched c) /\
    Forall (past (sched c) (fun st => st <> ReadyToExecute)) (dispatched c);
  inv_aborts : NoDup (abort_log c) /\
    Forall (past (sched c) (fun st => st = Aborting)) (abort_log c);
}.

(** ** One step, seen from the invariant *)

(** What a step that moves worker [w] from [x] to [x'] and the scheduler to [s']
    owes, transaction by transaction. *)
Record tx_change (c : config) (w : nat) (x x' : worker) (s' : Scheduler)
    (j : TxIdx) (tx tx' : TxStatus) : Prop := {
  tc_exec : exec_tok j x' + is_st Executing tx = exec_tok j x + is_st Executing tx';
  tc_abort : abort_tok j x' + deps_tok j s' + is_st Aborting tx =
             abort_tok j x + deps_tok j (sched c) + is_st Aborting tx';
  tc_inc : status tx = Executing -> status tx' = Executing -> incarnation tx' = incarnation tx;
  tc_ready : status tx' = ReadyToExecute -> execution_idx s' <= j;
  tc_min : done_status (status tx') -> min_validation_idx s' <= j;
  tc_pending : status tx' = Executed -> validation_idx s' <= j \/ validates j x' \/
    exists w2 x2, w2 <> w /\ workers c !! w2 = Some x2 /\ validates j x2;
  tc_past : incarnation tx < incarnation tx' \/
    (incarnation tx = incarnation tx' /\
     (status tx <> ReadyToExecute -> status tx' <> ReadyToExecute) /\
     (status tx = Aborting -> status tx' = Aborting));
  tc_life : rtc lifecycle tx tx';
}.

Record change (c : config) (w : nat) (x x' : worker) (s' : Scheduler) : Prop := {
  ch_worker : workers c !! w = Some x;
  ch_sized : sized s';
  ch_block_size : block_size s' = block_size (sched c);
  ch_tx : forall j tx', transactions_status s' !! j = Some tx' ->
    exists tx, transactions_status (sched c) !! j = Some tx /\ tx_change c w x x' s' j tx tx';
  ch_holder : forall v, held x' = Some (Execution v) ->
    exists tx', transactions_status s' !! tx_idx v = Some tx' /\ incarnation tx' = tx_incarnation v;
  ch_range : in_range (block_size s') x';
  ch_deps : forall b deps j, transactions_dependents s' !! b = Some deps -> j ∈ deps ->
    b < j < block_size s' /\
    forall tx, transactions_status s' !! b = Some tx -> ~ done_status (status tx);
  ch_num : num_validated s' = Z.of_nat (sum_map (is_st Validated) (transactions_status s'));
}.

Lemma is_st_pos st tx : 0 < is_st st tx <-> status tx = st.
Proof. unfold is_st. case_bool_decide; simpl; split; intros; by (lia || congruence). Qed.

Lemma is_st_self st tx : status tx = st -> is_st st tx = 1.
Proof. intros H. unfold is_st. by rewrite bool_decide_true. Qed.

Lemma is_st_other st tx : status tx <> st -> is_st st tx = 0.
Proof. intros H. unfold is_st. by rewrite bool_decide_false. Qed.

(** Evaluate the indicator [is_st] where the status is known. *)
Ltac st_simpl :=
  repeat match goal with
  | |- context [is_st ?st ?tx] =>
      first [rewrite (is_st_self st tx) by (cbn; congruence)
            |rewrite (is_st_other st tx) by (cbn; congruence)]
  | H : context [is_st ?st ?tx] |- _ =>
      first [rewrite (is_st_self st tx) in H by (cbn; congruence)
            |rewrite (is_st_other st tx) in H by (cbn; congruence)]
  | H : context [bool_decide (?a = ?b)] |- _ =>
      first [rewrite (bool_decide_true (a = b)) in H by congruence
            |rewrite (bool_decide_false (a = b)) in H by congruence]
  end; cbn [Nat.b2n] in *.

(** One edge of [lifecycle] out of a known status. *)
Ltac life :=
  apply rtc_once; unfold lifecycle; cbn;
  match goal with H : status _ = _ |- _ => rewrite H end; done.

Lemma sized_same_lookup s s' j tx :
  sized s -> sized s' -> block_size s' = block_size s ->
  transactions_status s !! j = Some tx -> exists tx', transactions_status s' !! j = Some tx'.
Proof.
  intros [H1 _] [H2 _] Hb Hj. apply lookup_lt_Some in Hj. apply lookup_lt_is_Some_2. lia.
Qed.

Lemma change_past c w x x' s' (P : IncarnationStatus -> Prop) l :
  inv c -> change c w x x' s' ->
  (forall tx tx' j, tx_change c w x x' s' j tx tx' ->
     incarnation tx = incarnation tx' -> P (status tx) -> P (status tx')) ->
  Forall (past (sched c) P) l -> Forall (past s' P) l.
Proof.
  intros Hi Hc HP Hl. apply (Forall_impl _ _ _ Hl). intros v (tx & Htx & Hv).
  destruct (sized_same_lookup _ s' _ _ (inv_sized _ Hi) (ch_sized _ _ _ _ _ Hc)
    (ch_block_size _ _ _ _ _ Hc) Htx) as [tx' Htx'].
  destruct (ch_tx _ _ _ _ _ Hc _ _ Htx') as (tx0 & Htx0 & Ht). simplify_eq.
  exists tx'. split; [done|].
  pose proof (tc_past _ _ _ _ _ _ _ _ Ht) as [Hlt|(Heq & _)]; [lia|].
  destruct Hv as [Hv|[Hv HPv]]; [lia|]. right. split; [lia|]. by eapply HP.
Qed.

Lemma change_inv c w x x' s' t aborts :
  inv c -> change c w x x' s' ->
  NoDup (log_exec t (dispatched c)) ->
  Forall (past s' (fun st => st <> ReadyToExecute)) (log_exec t []) ->
  NoDup (aborts ++ abort_log c) ->
  Forall (past s' (fun st => st = Aborting)) aborts ->
  inv (moved c s' w x' t aborts).
Proof.
  intros Hi Hc Hnd Hfd Hna Hfa. pose proof Hc as [Hw Hs Hb Htx Hh Hr Hd Hn].
  assert (forall w2 y, <[w:=x']> (workers c) !! w2 = Some y ->
    (w2 = w /\ y = x') \/ (w2 <> w /\ workers c !! w2 = Some y)) as Hws.
  { intros w2 y [(-> & -> & _)|[? ?]]%list_lookup_insert_Some; [by left|by right]. }
  split; cbn; try done.
  - rewrite Hb. apply Hi.
  - intros i tx' Hi'. destruct (Htx i tx' Hi') as (tx & Hold & Ht).
    pose proof (sum_map_insert (exec_tok i) _ w x x' Hw).
    pose proof (inv_exec _ Hi _ _ Hold). pose proof (tc_exec _ _ _ _ _ _ _ _ Ht). lia.
  - intros i tx' Hi'. destruct (Htx i tx' Hi') as (tx & Hold & Ht).
    pose proof (sum_map_insert (abort_tok i) _ w x x' Hw).
    pose proof (inv_abort _ Hi _ _ Hold). pose proof (tc_abort _ _ _ _ _ _ _ _ Ht). lia.
  - intros w2 y v [[-> ->]|[Hne Hw2]]%Hws Hheld; [by apply Hh|].
    destruct (inv_holder _ Hi _ _ _ Hw2 Hheld) as (tx & Hold & Hinc).
    destruct (sized_same_lookup _ s' _ _ (inv_sized _ Hi) Hs Hb Hold) as [tx' Hnew].
    destruct (Htx _ _ Hnew) as (tx0 & Htx0 & Ht). simplify_eq. exists tx'. split; [done|].
    assert (1 <= exec_tok (tx_idx v) y) as H1.
    { unfold exec_tok. rewrite Hheld, Nat.eqb_refl. simpl. lia. }
    pose proof (sum_map_lookup_le (exec_tok (tx_idx v)) _ _ _ Hw2).
    assert (<[w:=x']> (workers c) !! w2 = Some y) as Hw2'
      by by rewrite list_lookup_insert_ne.
    pose proof (sum_map_lookup_le (exec_tok (tx_idx v)) _ _ _ Hw2').
    pose proof (sum_map_insert (exec_tok (tx_idx v)) _ w x x' Hw).
    pose proof (inv_exec _ Hi _ _ Hold). pose proof (tc_exec _ _ _ _ _ _ _ _ Ht).
    rewrite <- Hinc. apply (tc_inc _ _ _ _ _ _ _ _ Ht); apply is_st_pos; lia.
  - intros w2 y [[-> ->]|[Hne Hw2]]%Hws; [done|]. rewrite Hb. by apply (inv_range _ Hi w2).
  - intros i tx' Hi'. destruct (Htx i tx' Hi') as (tx & Hold & Ht). apply (tc_ready _ _ _ _ _ _ _ _ Ht).
  - intros i tx' Hi'. destruct (Htx i tx' Hi') as (tx & Hold & Ht). apply (tc_min _ _ _ _ _ _ _ _ Ht).
  - intros i tx' Hi' Hex. destruct (Htx i tx' Hi') as (tx & Hold & Ht).
    destruct (tc_pending _ _ _ _ _ _ _ _ Ht Hex) as [?|[?|(w2 & x2 & Hne & Hw2 & ?)]].
    + by left.
    + right. exists w, x'. split; [|done]. apply list_lookup_insert_eq. by eapply lookup_lt_Some.
    + right. exists w2, x2. split; [|done]. by rewrite list_lookup_insert_ne.
  - split; [done|].
    assert (Forall (past s' (fun st => st <> ReadyToExecute)) (dispatched c)) as Hold.
    { eapply change_past; [done|done| |apply (inv_dispatched _ Hi)].
      intros tx tx' j Ht Heq. destruct (tc_past _ _ _ _ _ _ _ _ Ht) as [?|(_ & ? & _)]; [lia|done]. }
    destruct t as [[v|v]|]; simpl in *; try done. constructor; [|done]. by inversion Hfd.
  - split; [done|]. apply Forall_app; split; [done|].
    eapply change_past; [done|done| |apply (inv_aborts _ Hi)].
    intros tx tx' j Ht Heq. destruct (tc_past _ _ _ _ _ _ _ _ Ht) as [?|(_ & _ & ?)]; [lia|done].
Qed.

(** ** Building a [change] *)

Lemma exec_tok_ne j v t : tx_idx v <> j -> t = Execution v \/ t = Validation v ->
  exec_tok j (HasTask t) = 0.
Proof. intros Hne [->| ->]; unfold exec_tok; simpl; [|done]. by apply Nat.eqb_neq in Hne as ->. Qed.

Lemma abort_tok_ne j v b : tx_idx v <> j -> abort_tok j (Checked v b) = 0.
Proof. intros Hne. destruct b; simpl; [|done]. by apply Nat.eqb_neq in Hne as ->. Qed.

Lemma exec_tok_self v : exec_tok (tx_idx v) (HasTask (Execution v)) = 1.
Proof. unfold exec_tok. simpl. by rewrite Nat.eqb_refl. Qed.

Lemma abort_tok_self v : abort_tok (tx_idx v) (Checked v true) = 1.
Proof. simpl. by rewrite Nat.eqb_refl. Qed.

(** A transaction whose status the step leaves alone. *)
Lemma tx_unchanged c w x x' s' j tx :
  inv c -> workers c !! w = Some x ->
  transactions_status (sched c) !! j = Some tx ->
  exec_tok j x' = exec_tok j x ->
  abort_tok j x' + deps_tok j s' = abort_tok j x + deps_tok j (sched c) ->
  (status tx = ReadyToExecute -> execution_idx (sched c) <= j -> execution_idx s' <= j) ->
  min_validation_idx s' <= min_validation_idx (sched c) ->
  (status tx = Executed -> validation_idx (sched c) <= j ->
     validation_idx s' <= j \/ validates j x') ->
  (status tx = Executed -> validates j x -> validation_idx s' <= j \/ validates j x') ->
  tx_change c w x x' s' j tx tx.
Proof.
  intros Hi Hw Htx He Ha Hex Hm Hv1 Hv2. split; try lia; try done.
  - intros Hr. apply Hex; [done|]. by eapply (inv_ready _ Hi).
  - intros Hd. etrans; [exact Hm|]. by eapply (inv_min _ Hi).
  - intros Hst. destruct (inv_pending _ Hi _ _ Htx Hst) as [?|(w2 & x2 & Hw2 & Hval)].
    + destruct (Hv1 Hst) as [?|?]; auto.
    + destruct (decide (w2 = w)) as [->|Hne]; [|right; right; by eauto].
      simplify_eq. destruct (Hv2 Hst Hval) as [?|?]; auto.
  - right. done.
Qed.

(** A scheduler that only moved its counters, or updated the status of [i]. *)
Lemma put_status_lookup s i tx st j tx' :
  transactions_status (put_status i tx st s) !! j = Some tx' ->
  (j = i /\ tx' = {| incarnation := incarnation tx; status := st |}) \/
  (j <> i /\ transactions_status s !! j = Some tx').
Proof. cbn. intros [(-> & <- & _)|[? ?]]%list_lookup_insert_Some; auto. Qed.

Lemma put_status_self s i tx st :
  i < length (transactions_status s) ->
  transactions_status (put_status i tx st s) !! i =
    Some {| incarnation := incarnation tx; status := st |}.
Proof. intros H. cbn. by apply list_lookup_insert_eq. Qed.

(** The dependents clause when the dependents did not change and no transaction
    became executed or validated. *)
Lemma deps_unchanged c s' :
  inv c -> transactions_dependents s' = transactions_dependents (sched c) ->
  block_size s' = block_size (sched c) ->
  (forall b tx', transactions_status s' !! b = Some tx' -> done_status (status tx') ->
     exists tx, transactions_status (sched c) !! b = Some tx /\ done_status (status tx)) ->
  forall b deps j, transactions_dependents s' !! b = Some deps -> j ∈ deps ->
    b < j < block_size s' /\
    forall tx, transactions_status s' !! b = Some tx -> ~ done_status (status tx).
Proof.
  intros Hi Hd Hb Hst b deps j Hbd Hj. rewrite Hd in Hbd.
  destruct (inv_deps _ Hi _ _ _ Hbd Hj) as [Hlt Hnd]. rewrite Hb. split; [done|].
  intros tx' Htx' Hdone. destruct (Hst _ _ Htx' Hdone) as (tx & ? & ?). by eapply Hnd.
Qed.

Lemma num_put_status s i tx st :
  transactions_status s !! i = Some tx ->
  sum_map (is_st Validated) (transactions_status (put_status i tx st s)) + is_st Validated tx =
  sum_map (is_st Validated) (transactions_status s) + b2n (bool_decide (st = Validated)).
Proof.
  intros H. pose proof (sum_map_insert (is_st Validated) _ i tx
    {| incarnation := incarnation tx; status := st |} H) as E. exact E.
Qed.

(** *** [next_task] *)

Lemma change_next c w r s' :
  inv c -> workers c !! w = Some Idle ->
  next_task_iter (sched c) = Some (r, s') -> change c w Idle (after_iter r) s'.
Proof.
  intros Hi Hw E. pose proof (inv_sized _ Hi) as Hs.
  assert (forall x', x' = Idle \/ x' = Exited None -> change c w Idle x' (sched c)) as Hstay.
  { intros x' Hx. split; try done; try (by destruct Hx as [->| ->]); try apply Hi.
    intros j tx Hj. exists tx. split; [done|].
    apply tx_unchanged; try done; destruct Hx as [->| ->]; tauto. }
  destruct (aborted (sched c)) eqn:Ha.
  { unfold next_task_iter in E. rewrite Ha in E. injection E as <- <-. apply Hstay. by right. }
  apply next_task_iter_cases in E; [|done|done].
  destruct E as [r Hex Hva ->|i tx e va Htx Hst Hlt [He Hv]|i tx va Htx Hst Hlt [_ Hv]|e va [He Hv]].
  - destruct (_ <=? _)%Z; apply Hstay; auto.
  - split; try done.
    + by apply put_status_sized.
    + intros j tx' [[-> ->]|[Hne Hj]]%put_status_lookup.
      * exists tx. split; [done|]. cbn. split; cbn.
        -- rewrite Nat.eqb_refl, (is_st_other Executing tx) by congruence. done.
        -- rewrite (is_st_other Aborting tx) by congruence. done.
        -- congruence.
        -- done.
        -- intros [?|?]; done.
        -- done.
        -- right. repeat split; congruence.
        -- life.
      * exists tx'. split; [done|]. apply tx_unchanged; try done; cbn.
        -- by apply Nat.eqb_neq in Hne as H; rewrite Nat.eqb_sym in H; rewrite H.
        -- intros ? ?. destruct (He j tx'); [done|done|done|done|congruence].
        -- intros ? ?. destruct (Hv j tx'); by auto.
    + intros v [= <-]. exists {| incarnation := incarnation tx; status := Executing |}.
      split; [|done]. apply put_status_self. by eapply lookup_lt_Some.
    + eapply deps_unchanged; try done. intros b tx' [[-> ->]|[Hne Hb]]%put_status_lookup; [|eauto].
      intros [?|?]; done.
    + cbn. rewrite (inv_num _ Hi). f_equal.
      pose proof (num_put_status (sched c) i tx Executing Htx) as Hn.
      rewrite (is_st_other Validated tx) in Hn by congruence.
      rewrite bool_decide_false in Hn by done. cbn in *. lia.
  - split; try done.
    + intros j tx' Hj. exists tx'. split; [done|]. apply tx_unchanged; try done; cbn.
      intros ? ?. destruct (Hv j tx') as [?| ->]; auto.
    + eapply deps_unchanged; try done. eauto.
    + apply Hi.
  - split; try done.
    + intros j tx' Hj. exists tx'. split; [done|]. apply tx_unchanged; try done; cbn; try tauto.
      * intros ? ?. destruct (He j tx'); by auto.
      * intros ? ?. destruct (Hv j tx'); by auto.
    + eapply deps_unchanged; try done. eauto.
    + apply Hi.
Qed.

(** *** [add_dependency] *)

Lemma deps_tok_insert s b deps j deps' :
  transactions_dependents s !! b = Some deps ->
  sum_map (dep_tok j) (<[b:=deps']> (transactions_dependents s)) + dep_tok j deps =
  deps_tok j s + dep_tok j deps'.
Proof. intros H. by apply sum_map_insert. Qed.

Lemma dep_tok_snoc i deps j : dep_tok j (deps ++ [i]) = dep_tok j deps + b2n (i =? j).
Proof. unfold dep_tok. rewrite sum_map_app. simpl. lia. Qed.

Lemma dep_tok_cons j k deps : dep_tok j (k :: deps) = b2n (k =? j) + dep_tok j deps.
Proof. done. Qed.

Lemma dep_tok_elem j deps : j ∈ deps -> 1 <= dep_tok j deps.
Proof.
  intros [k Hk]%list_elem_of_lookup.
  pose proof (sum_map_lookup_le (fun i => b2n (i =? j)) _ _ _ Hk) as H. simpl in H.
  rewrite Nat.eqb_refl in H. exact H.
Qed.

Lemma dep_tok_notin j deps : j ∉ deps -> dep_tok j deps = 0.
Proof.
  intros H. apply sum_map_zero. intros k x Hk. destruct (Nat.eqb_spec x j) as [->|]; [|done].
  exfalso. apply H. apply list_elem_of_lookup. by exists k.
Qed.

Lemma dep_tok_le_1 deps : (forall j, dep_tok j deps <= 1) -> NoDup deps.
Proof.
  induction deps as [|k deps IH]; intros H; [constructor|]. constructor.
  - intros Hk%dep_tok_elem. specialize (H k). rewrite dep_tok_cons, Nat.eqb_refl in H. simpl in H. lia.
  - apply IH. intros j. specialize (H j). rewrite dep_tok_cons in H. lia.
Qed.

(** The holder of an execution task: its transaction is executing. *)
Lemma holder_executing c w v :
  inv c -> workers c !! w = Some (HasTask (Execution v)) ->
  exists tx, transactions_status (sched c) !! tx_idx v = Some tx /\
    status tx = Executing /\ incarnation tx = tx_incarnation v /\ tx_idx v < block_size (sched c).
Proof.
  intros Hi Hw. destruct (inv_holder _ Hi _ _ _ Hw eq_refl) as (tx & Htx & Hinc). exists tx.
  repeat split; try done; [|apply (inv_range _ Hi _ _ Hw)].
  pose proof (sum_map_lookup_le (exec_tok (tx_idx v)) _ _ _ Hw) as Hle.
  rewrite exec_tok_self, (inv_exec _ Hi _ _ Htx) in Hle. by apply is_st_pos.
Qed.

Lemma change_blocked c w v b ok s' :
  inv c -> workers c !! w = Some (HasTask (Execution v)) -> b < tx_idx v ->
  add_dependency (sched c) (tx_idx v) b = Some (ok, s') ->
  change c w (HasTask (Execution v)) (if ok then Idle else HasTask (Execution v)) s'.
Proof.
  intros Hi Hw Hb. destruct (holder_executing _ _ _ Hi Hw) as (tx & Htx & Hst & Hinc & Hlt).
  pose proof (inv_sized _ Hi) as Hs.
  destruct (sized_lookup _ b Hs ltac:(lia)) as [btx Hbtx].
  destruct (sized_dependents _ b Hs ltac:(lia)) as [deps Hdeps].
  unfold add_dependency. rewrite Hbtx; cbn. case_decide as Hdone.
  { intros [= <- <-]. split; [done|apply Hi|done| | |exact (inv_range _ Hi _ _ Hw)|apply Hi|apply Hi].
    - intros j tx' Hj. exists tx'. split; [done|]. apply tx_unchanged; auto.
    - intros v' [= <-]. exact (inv_holder _ Hi _ _ _ Hw eq_refl). }
  rewrite Htx; cbn. rewrite Hdeps; cbn. intros [= <- <-]. split; try done.
  - split; cbn; rewrite length_insert; apply Hs.
  - intros j tx' [[-> ->]|[Hne Hj]]%put_status_lookup.
    + exists tx. split; [done|]. split; cbn -[exec_tok].
      * rewrite exec_tok_self, (is_st_self Executing tx) by done. done.
      * pose proof (deps_tok_insert (sched c) b deps (tx_idx v) (deps ++ [tx_idx v]) Hdeps) as Hd.
        rewrite dep_tok_snoc, Nat.eqb_refl in Hd.
        st_simpl. unfold deps_tok in *; cbn in *. lia.
      * done.
      * done.
      * by intros [?|?].
      * done.
      * right. repeat split; congruence.
      * life.
    + exists tx'. split; [done|]. apply tx_unchanged; try done; cbn -[exec_tok].
      * by rewrite (exec_tok_ne j v) by auto.
      * pose proof (deps_tok_insert (sched c) b deps j (deps ++ [tx_idx v]) Hdeps) as Hd.
        rewrite dep_tok_snoc in Hd. apply Nat.neq_sym, Nat.eqb_neq in Hne. rewrite Hne in Hd.
        unfold deps_tok in *; cbn in *. lia.
      * auto.
  - intros b2 deps2 j; cbn. intros [(-> & <- & _)|[Hne Hl]]%list_lookup_insert_Some Hj.
    + split.
      * apply elem_of_app in Hj as [Hj|Hj%list_elem_of_singleton]; [|subst; lia].
        by destruct (inv_deps _ Hi _ _ _ Hdeps Hj).
      * intros tx2 [[-> ->]|[_ Htx2]]%put_status_lookup; [by intros [?|?]|].
        simplify_eq. exact Hdone.
    + destruct (inv_deps _ Hi _ _ _ Hl Hj) as [? Hnd]. split; [done|].
      intros tx2 [[-> ->]|[_ Htx2]]%put_status_lookup; [by intros [?|?]|]. by apply Hnd.
  - cbn. rewrite (inv_num _ Hi). f_equal.
    pose proof (num_put_status (sched c) (tx_idx v) tx Aborting Htx) as Hn.
    rewrite (is_st_other Validated tx), bool_decide_false in Hn by congruence. cbn in *. lia.
Qed.

(** *** [finish_execution] *)

(** A blocked transaction is aborting, and recorded once. *)
Lemma dependent_aborting c b deps j :
  inv c -> transactions_dependents (sched c) !! b = Some deps -> j ∈ deps ->
  exists tx, transactions_status (sched c) !! j = Some tx /\ status tx = Aborting /\
    deps_tok j (sched c) = 1 /\ dep_tok j deps = 1.
Proof.
  intros Hi Hb Hj. destruct (inv_deps _ Hi _ _ _ Hb Hj) as [[_ Hlt] _].
  destruct (sized_lookup _ j (inv_sized _ Hi) Hlt) as [tx Htx]. exists tx.
  pose proof (dep_tok_elem _ _ Hj). pose proof (sum_map_lookup_le (dep_tok j) _ _ _ Hb) as H1.
  pose proof (inv_abort _ Hi _ _ Htx) as H2.
  assert (is_st Aborting tx <= 1) by apply b2n_le_1.
  fold (deps_tok j (sched c)) in H1.
  assert (status tx = Aborting) by (apply is_st_pos; lia).
  repeat split; try done; st_simpl; lia.
Qed.

Lemma dependents_nodup c b deps :
  inv c -> transactions_dependents (sched c) !! b = Some deps -> NoDup deps.
Proof.
  intros Hi Hb. apply dep_tok_le_1. intros j.
  destruct (decide (j ∈ deps)) as [Hj|Hj]; [|rewrite dep_tok_notin by done; lia].
  destruct (dependent_aborting _ _ _ _ Hi Hb Hj) as (? & _ & _ & _ & ->). done.
Qed.

(** The statuses after [finish_execution]: this transaction is executed, its
    dependents are ready for their next incarnation, the others are as before. *)
Lemma finished_lookup s v flags tx deps t s' j tx' :
  finished s v flags tx deps t s' -> transactions_status s' !! j = Some tx' ->
  (j = tx_idx v /\ tx' = {| incarnation := incarnation tx; status := Executed |}) \/
  (j <> tx_idx v /\ j ∈ deps /\ exists tx0, transactions_status s !! j = Some tx0 /\ tx' = readied tx0) \/
  (j <> tx_idx v /\ j ∉ deps /\ transactions_status s !! j = Some tx').
Proof.
  intros Hf. destruct (fin_mid _ _ _ _ _ _ _ Hf) as (s1 & Hr & -> & _).
  intros [(-> & <- & _)|[Hne Hj]]%list_lookup_insert_Some; [by left|right].
  rewrite (rs_status _ _ _ Hr) in Hj. cbn in Hj. case_decide as Hin; [left|by right; auto].
  destruct (transactions_status s !! j) as [tx0|]; simplify_eq/=. eauto 6.
Qed.

Lemma finished_sized s v flags tx deps t s' :
  finished s v flags tx deps t s' -> sized s -> sized s'.
Proof.
  intros Hf [H1 H2]. destruct (fin_mid _ _ _ _ _ _ _ Hf) as (s1 & Hr & Hst & _).
  split; rewrite (fin_block_size _ _ _ _ _ _ _ Hf).
  - rewrite Hst, length_insert, (sf_length _ _ (rs_frame _ _ _ Hr)). exact H1.
  - rewrite (fin_dependents _ _ _ _ _ _ _ Hf), length_insert. exact H2.
Qed.

Lemma finished_execution_le s v flags tx deps t s' :
  finished s v flags tx deps t s' ->
  execution_idx s' <= execution_idx s /\ (forall j, j ∈ deps -> execution_idx s' <= j).
Proof.
  intros Hf. destruct (fin_mid _ _ _ _ _ _ _ Hf) as (s1 & Hr & _ & ->).
  split; [apply (rs_execution _ _ _ Hr)|apply (rs_execution_dep _ _ _ Hr)].
Qed.

Lemma finished_validation_le s v flags tx deps t s' :
  finished s v flags tx deps t s' -> validation_idx s' <= validation_idx s.
Proof.
  intros Hf. destruct (fin_task _ _ _ _ _ _ _ Hf) as [(_ & _ & ->)|(_ & _ & ->)]; [|done].
  destruct (contains _ _); lia.
Qed.

Lemma finish_task_no_exec t v : (t = Some (Validation v) \/ t = None) ->
  forall j, exec_tok j (after_task t) = 0 /\ abort_tok j (after_task t) = 0.
Proof. by intros [->| ->]. Qed.

Lemma finished_num c v flags tx deps t s' :
  inv c -> transactions_status (sched c) !! tx_idx v = Some tx -> status tx = Executing ->
  transactions_dependents (sched c) !! tx_idx v = Some deps ->
  finished (sched c) v flags tx deps t s' ->
  num_validated s' = Z.of_nat (sum_map (is_st Validated) (transactions_status s')).
Proof.
  intros Hi Htx Hst Hdeps Hf. rewrite (fin_num _ _ _ _ _ _ _ Hf), (inv_num _ Hi). f_equal.
  destruct (fin_mid _ _ _ _ _ _ _ Hf) as (s1 & Hr & -> & _).
  assert (transactions_status s1 !! tx_idx v = Some tx) as Hs1.
  { rewrite (rs_status _ _ _ Hr), decide_False; [done|]. intros Hin.
    destruct (inv_deps _ Hi _ _ _ Hdeps Hin) as [? _]. lia. }
  pose proof (sum_map_insert (is_st Validated) _ _ _
    {| incarnation := incarnation tx; status := Executed |} Hs1) as Hsum.
  rewrite (rs_sum _ _ _ Hr (is_st Validated)) in Hsum.
  - st_simpl. cbn in *. lia.
  - cbn. intros j tx0 Hj Htx0.
    destruct (dependent_aborting _ _ _ _ Hi Hdeps Hj) as (tx1 & ? & ? & _). simplify_eq.
    split; apply is_st_other; [congruence|done].
Qed.

Lemma change_finish c w v flags t s' :
  inv c -> workers c !! w = Some (HasTask (Execution v)) ->
  finish_execution (sched c) v flags = Some (t, s') ->
  change c w (HasTask (Execution v)) (after_task t) s' /\ (t = Some (Validation v) \/ t = None).
Proof.
  intros Hi Hw E. destruct (holder_executing _ _ _ Hi Hw) as (tx & Htx & Hst & Hinc & Hlt).
  pose proof (inv_sized _ Hi) as Hs. destruct (sized_dependents _ _ Hs Hlt) as [deps Hdeps].
  destruct (finish_execution_spec (sched c) v flags tx deps Htx Hdeps Hlt
    (dependents_nodup _ _ _ Hi Hdeps)) as (t0 & s0 & E0 & Hf).
  { intros j Hj. destruct (dependent_aborting _ _ _ _ Hi Hdeps Hj) as (? & ? & _). eauto. }
  rewrite E in E0. injection E0 as <- <-.
  assert (t = Some (Validation v) \/ t = None) as Ht
    by (destruct (fin_task _ _ _ _ _ _ _ Hf) as [(? & _)|(? & _)]; auto).
  split; [|done]. pose proof (finish_task_no_exec _ _ Ht) as Htok.
  assert (forall j, deps_tok j s' + dep_tok j deps = deps_tok j (sched c)) as Hdt.
  { intros j. unfold deps_tok at 1. rewrite (fin_dependents _ _ _ _ _ _ _ Hf).
    pose proof (deps_tok_insert _ _ _ j [] Hdeps) as H.
    change (dep_tok j []) with 0 in H. lia. }
  pose proof (finished_execution_le _ _ _ _ _ _ _ Hf) as [Hel Hed].
  pose proof (finished_validation_le _ _ _ _ _ _ _ Hf) as Hvl.
  pose proof (fin_min _ _ _ _ _ _ _ Hf) as Hmin.
  assert (tx_idx v ∉ deps) as Hni
    by (intros Hin; destruct (inv_deps _ Hi _ _ _ Hdeps Hin) as [? _]; lia).
  split; try done.
  - by eapply finished_sized.
  - apply (fin_block_size _ _ _ _ _ _ _ Hf).
  - intros j tx' Hj. specialize (Hdt j). destruct (Htok j) as [Hte Hta].
    destruct (finished_lookup _ _ _ _ _ _ _ _ _ Hf Hj)
      as [[-> ->]|[(Hne & Hin & tx0 & Htx0 & ->)|(Hne & Hnin & Hj')]].
    + exists tx. split; [done|]. rewrite dep_tok_notin in Hdt by done.
      split; cbn -[exec_tok abort_tok]; rewrite ?Hte, ?Hta, ?exec_tok_self; st_simpl;
        try done; try lia.
      * cbn. lia.
      * intros _. destruct (fin_task _ _ _ _ _ _ _ Hf) as [(-> & _)|(-> & Hle & ->)]; [|by left].
        right; by left.
      * right. repeat split; congruence.
      * life.
    + exists tx0. split; [done|].
      destruct (dependent_aborting _ _ _ _ Hi Hdeps Hin) as (tx1 & ? & Hab & _ & H1). simplify_eq.
      split; cbn -[exec_tok abort_tok]; rewrite ?Hte, ?Hta, ?(exec_tok_ne j v) by auto; st_simpl;
        try done; try lia; [cbn; lia|by intros _; apply Hed|by intros [?|?]|life].
    + exists tx'. split; [done|]. rewrite dep_tok_notin in Hdt by done.
      apply tx_unchanged; try done; try lia; try (by rewrite (exec_tok_ne j v) by auto).
      * rewrite Hta. cbn. lia.
  - intros v0 Hv0. destruct Ht as [->| ->]; done.
  - destruct Ht as [->| ->]; [|done]. cbn. by rewrite (fin_block_size _ _ _ _ _ _ _ Hf).
  - intros b deps2 j. rewrite (fin_dependents _ _ _ _ _ _ _ Hf), (fin_block_size _ _ _ _ _ _ _ Hf).
    intros [(<- & <- & _)|[Hne Hl]]%list_lookup_insert_Some Hj2; [by apply elem_of_nil in Hj2|].
    destruct (inv_deps _ Hi _ _ _ Hl Hj2) as [? Hnd]. split; [done|]. intros tx2 Htx2.
    destruct (finished_lookup _ _ _ _ _ _ _ _ _ Hf Htx2)
      as [[-> ->]|[(_ & _ & tx0 & _ & ->)|(_ & _ & ?)]]; [done|by intros [?|?]|by apply Hnd].
  - by eapply finished_num.
Qed.

(** *** Validation *)

Lemma num_bounds c : inv c ->
  (0 <= num_validated (sched c) < 2 ^ 64)%Z /\
  forall i tx, transactions_status (sched c) !! i = Some tx -> status tx = Validated ->
    (1 <= num_validated (sched c))%Z.
Proof.
  intros Hi. rewrite (inv_num _ Hi). split.
  - pose proof (sum_map_le_length (is_st Validated) (transactions_status (sched c))
      (fun _ => b2n_le_1 _)). pose proof (inv_bound _ Hi). destruct (inv_sized _ Hi). lia.
  - intros i tx Htx Hst. pose proof (sum_map_lookup_le (is_st Validated) _ _ _ Htx) as H.
    st_simpl. lia.
Qed.

(** A transaction that is not validated leaves room to count one more. *)
Lemma num_room c i tx : inv c -> transactions_status (sched c) !! i = Some tx ->
  status tx <> Validated -> (num_validated (sched c) + 1 < 2 ^ 64)%Z.
Proof.
  intros Hi Htx Hst. rewrite (inv_num _ Hi).
  pose proof (num_put_status (sched c) i tx Validated Htx) as Hn. st_simpl.
  pose proof (sum_map_le_length (is_st Validated)
    (transactions_status (put_status i tx Validated (sched c))) (fun _ => b2n_le_1 _)) as Hl.
  pose proof (inv_bound _ Hi). destruct (inv_sized _ Hi). cbn in *. rewrite length_insert in Hl. lia.
Qed.

Lemma change_pass c w v :
  inv c -> workers c !! w = Some (HasTask (Validation v)) ->
  change c w (HasTask (Validation v)) (Checked v false) (sched c).
Proof.
  intros Hi Hw. split; try done; try apply Hi.
  - intros j tx Hj. exists tx. split; [done|]. apply tx_unchanged; auto.
  - exact (inv_range _ Hi _ _ Hw).
Qed.

Lemma change_fail c w v tx won s' :
  inv c -> workers c !! w = Some (HasTask (Validation v)) ->
  transactions_status (sched c) !! tx_idx v = Some tx ->
  try_validation_abort (sched c) v = Some (won, s') ->
  change c w (HasTask (Validation v)) (Checked v won) s' /\
  (won = true -> done_status (status tx) /\
     transactions_status s' !! tx_idx v =
       Some {| incarnation := incarnation tx; status := Aborting |}).
Proof.
  intros Hi Hw Htx. unfold try_validation_abort. rewrite Htx; cbn.
  pose proof (inv_range _ Hi _ _ Hw) as Hlt. pose proof (num_bounds _ Hi) as [Hb Hpos].
  destruct (decide (status tx = Executed \/ status tx = Validated)) as [Hd|Hd]; intros [= <- <-].
  2: { rewrite decide_False by tauto. split; [|done]. split; try done; try apply Hi.
    intros j tx' Hj. exists tx'. split; [done|]. apply tx_unchanged; auto. }
  set (s1 := if decide (status tx = Validated) then _ else _).
  assert (transactions_status s1 = transactions_status (sched c) /\ block_size s1 = block_size (sched c) /\
    transactions_dependents s1 = transactions_dependents (sched c) /\
    execution_idx s1 = execution_idx (sched c) /\ validation_idx s1 = validation_idx (sched c) /\
    min_validation_idx s1 = min_validation_idx (sched c)) as (Hs1 & Hb1 & Hd1 & He1 & Hv1 & Hm1)
    by (subst s1; case_decide; done).
  assert (num_validated s1 + Z.of_nat (is_st Validated tx) = num_validated (sched c))%Z as Hn1.
  { subst s1. case_decide as Hv; st_simpl; [|lia]. cbn. specialize (Hpos _ _ Htx Hv).
    unfold u64_sub. rewrite wrap_small by (unfold is_u; lia). lia. }
  split.
  - split; try done.
    + split; cbn; rewrite ?length_insert, ?Hs1, ?Hb1, ?Hd1; apply Hi.
    + cbn. rewrite Hs1. intros j tx' [(<- & <- & _)|[Hne Hj]]%list_lookup_insert_Some.
      * exists tx. split; [done|].
        split; cbn -[abort_tok]; rewrite ?abort_tok_self; unfold deps_tok; cbn; rewrite ?Hd1;
          rewrite ?(is_st_other Executing tx), ?(is_st_other Aborting tx) by (destruct Hd; congruence);
          st_simpl; try done; try lia; [by intros [?|?]| |destruct Hd; life].
        right. split; [done|]. split; [done|]. destruct Hd; congruence.
      * exists tx'. split; [done|].
        apply tx_unchanged; try done; cbn -[abort_tok]; rewrite ?He1, ?Hv1, ?Hm1; auto.
        rewrite (abort_tok_ne j v) by auto. unfold deps_tok. cbn. by rewrite Hd1.
    + cbn. by rewrite Hb1.
    + eapply deps_unchanged; try done. cbn. rewrite Hs1.
      intros b tx' [(<- & <- & _)|[Hne Hj]]%list_lookup_insert_Some [?|?]; try done; eexists; by split;
        [|(by left) || (by right)].
    + pose proof (num_put_status (sched c) (tx_idx v) tx Aborting Htx) as Hn.
      rewrite bool_decide_false in Hn by done. pose proof (inv_num _ Hi). cbn in *.
      rewrite Hs1. lia.
  - intros _. split; [done|]. cbn. rewrite Hs1. apply list_lookup_insert_eq.
    by eapply lookup_lt_Some.
Qed.

(** The aborted transaction becomes ready for its next incarnation, which the
    worker takes at once ([x'] holds it) or leaves to the execution counter. *)
Lemma change_readied c w v tx x' st s' :
  inv c -> workers c !! w = Some (Checked v true) ->
  transactions_status (sched c) !! tx_idx v = Some tx -> status tx = Aborting ->
  deps_tok (tx_idx v) (sched c) = 0 -> tx_idx v < block_size (sched c) ->
  (st = Executing /\ x' = HasTask (Execution {| tx_idx := tx_idx v; tx_incarnation := S (incarnation tx) |})
   \/ st = ReadyToExecute /\ x' = Idle /\ execution_idx (sched c) <= tx_idx v) ->
  transactions_status s' =
    <[tx_idx v := {| incarnation := S (incarnation tx); status := st |}]>
      (transactions_status (sched c)) ->
  transactions_dependents s' = transactions_dependents (sched c) ->
  block_size s' = block_size (sched c) -> execution_idx s' = execution_idx (sched c) ->
  validation_idx s' = Nat.min (validation_idx (sched c)) (S (tx_idx v)) ->
  min_validation_idx s' = min_validation_idx (sched c) ->
  num_validated s' = num_validated (sched c) -> change c w (Checked v true) x' s'.
Proof.
  intros Hi Hw Htx Hst Hab Hlt Hx Hs1 Hd1 Hb1 He1 Hv1 Hm1 Hn1.
  pose proof (inv_sized _ Hi) as Hs. pose proof (lookup_lt_Some _ _ _ Htx) as Hlen.
  assert (forall j, abort_tok j x' = 0) as Hta by (intros j; by destruct Hx as [[_ ->]|(_ & -> & _)]).
  assert (st <> Executed /\ st <> Validated /\ st <> Aborting) as (Hn2 & Hn3 & Hn4)
    by (destruct Hx as [[-> _]|[-> _]]; done).
  split; try done.
  + split; rewrite ?Hs1, ?Hd1, ?length_insert, ?Hb1; apply Hs.
  + rewrite Hs1. intros j tx' [(<- & <- & _)|[Hne Hj]]%list_lookup_insert_Some.
    * exists tx. split; [done|].
      split; cbn -[exec_tok abort_tok]; rewrite ?Hta, ?abort_tok_self; unfold deps_tok;
        rewrite ?Hd1; rewrite ?(is_st_other Aborting {| incarnation := S (incarnation tx); status := st |}) by done;
        st_simpl; try done; try lia.
      -- destruct Hx as [[-> ->]|(-> & -> & _)]; [|by st_simpl].
         st_simpl. unfold exec_tok. simpl. by rewrite Nat.eqb_refl.
      -- congruence.
      -- destruct Hx as [[-> _]|(-> & _ & ?)]; [done|]. intros _. lia.
      -- intros [?|?]; done.
      -- apply (rtc_l _ _ (readied tx)); [unfold lifecycle; cbn; by rewrite Hst|].
         destruct Hx as [[-> _]|(-> & _)]; [by apply rtc_once|done].
    * exists tx'. split; [done|].
      apply tx_unchanged; try done; cbn -[exec_tok abort_tok]; rewrite ?He1, ?Hv1, ?Hm1; auto; try lia.
      -- destruct Hx as [[_ ->]|(_ & -> & _)]; [|done]. unfold exec_tok. simpl. by apply Nat.eqb_neq in Hne as ->.
      -- rewrite Hta, (abort_tok_ne j v) by auto. unfold deps_tok. by rewrite Hd1.
  + destruct Hx as [[-> ->]|(_ & -> & _)]; [|done]. intros v0 [= <-]. rewrite Hs1.
    exists {| incarnation := S (incarnation tx); status := Executing |}. split; [|done].
    by apply list_lookup_insert_eq.
  + destruct Hx as [[_ ->]|(_ & -> & _)]; [|done]. cbn. lia.
  + eapply deps_unchanged; try done. rewrite Hs1.
    intros b tx' [(<- & <- & _)|[Hne Hj]]%list_lookup_insert_Some; [by intros [?|?]|eauto].
  + pose proof (sum_map_insert (is_st Validated) _ _ _
      {| incarnation := S (incarnation tx); status := st |} Htx) as Hn.
    rewrite (is_st_other Validated {| incarnation := S (incarnation tx); status := st |}) in Hn by done.
    st_simpl. rewrite Hn1, (inv_num _ Hi), Hs1. lia.
Qed.

Lemma change_finish_won c w v t s' :
  inv c -> workers c !! w = Some (Checked v true) ->
  finish_validation (sched c) v true = Some (t, s') ->
  change c w (Checked v true) (after_task t) s' /\
  exists tx, transactions_status (sched c) !! tx_idx v = Some tx /\
    (t = None \/
     (t = Some (Execution {| tx_idx := tx_idx v; tx_incarnation := S (incarnation tx) |}) /\
      transactions_status s' !! tx_idx v =
        Some {| incarnation := S (incarnation tx); status := Executing |})).
Proof.
  intros Hi Hw. pose proof (inv_sized _ Hi) as Hs. pose proof (inv_range _ Hi _ _ Hw) as Hlt.
  destruct (sized_lookup _ _ Hs Hlt) as [tx Htx]. cbn in Hlt.
  pose proof (sum_map_lookup_le (abort_tok (tx_idx v)) _ _ _ Hw) as Hle.
  rewrite abort_tok_self in Hle. pose proof (inv_abort _ Hi _ _ Htx) as Hab.
  assert (is_st Aborting tx <= 1) by apply b2n_le_1.
  assert (status tx = Aborting) as Hst by (apply is_st_pos; lia).
  pose proof (lookup_lt_Some _ _ _ Htx) as Hlen.
  unfold finish_validation, set_ready_status. rewrite Htx; cbn.
  destruct (Nat.ltb_spec (tx_idx v) (execution_idx (sched c))) as [Hex|Hex].
  - unfold try_execute. cbn. rewrite (proj2 (Nat.ltb_lt _ _) Hlt).
    rewrite list_lookup_insert_eq by done. cbn. intros [= <- <-]. split.
    + eapply change_readied; try done; [lia|by left|]. cbn. by rewrite list_insert_insert_eq.
    + exists tx. split; [done|]. right. split; [done|]. cbn.
      apply list_lookup_insert_eq. by rewrite length_insert.
  - intros [= <- <-]. split; [|exists tx; split; [done|by left]].
    eapply change_readied; try done; [lia|by right].
Qed.

Lemma change_finish_lost c w v t s' :
  inv c -> workers c !! w = Some (Checked v false) ->
  finish_validation (sched c) v false = Some (t, s') ->
  t = None /\ change c w (Checked v false) Idle s'.
Proof.
  intros Hi Hw. pose proof (inv_sized _ Hi) as Hs. pose proof (inv_range _ Hi _ _ Hw) as Hlt.
  destruct (sized_lookup _ _ Hs Hlt) as [tx Htx]. unfold finish_validation. rewrite Htx; cbn.
  pose proof (num_bounds _ Hi) as [Hb _].
  destruct (decide (status tx = Executed)) as [Hst|Hst]; intros [= <- <-]; (split; [done|]).
  2: { split; try done; try apply Hi. intros j tx' Hj. exists tx'. split; [done|].
    apply tx_unchanged; auto. intros Hj2 Hv. cbn in Hv. subst j. congruence. }
  pose proof (num_room _ _ _ Hi Htx ltac:(congruence)) as Hr.
  split; try done.
  - by apply put_status_sized.
  - intros j tx' [[-> ->]|[Hne Hj]]%put_status_lookup.
    + exists tx. split; [done|].
      split; cbn; st_simpl; try done; try lia; [|right; repeat split; congruence|life].
      intros _. eapply (inv_min _ Hi); [done|by left].
    + exists tx'. split; [done|]. apply tx_unchanged; auto. intros _ Hv. cbn in Hv. congruence.
  - eapply deps_unchanged; try done. intros b tx' [[-> ->]|[Hne Hj]]%put_status_lookup; [|eauto].
    intros _. exists tx. split; [done|by left].
  - pose proof (num_put_status (sched c) (tx_idx v) tx Validated Htx) as Hn.
    rewrite bool_decide_true in Hn by done. pose proof (inv_num _ Hi) as Hnum.
    st_simpl. cbn in *. unfold u64_add. rewrite wrap_small by (unfold is_u; lia). lia.
Qed.

(** *** Leaving after an abort *)

Lemma change_leave c w t s' :
  inv c -> workers c !! w = Some (HasTask t) -> s' = sched c \/ s' = abort (sched c) ->
  change c w (HasTask t) (Exited (Some t)) s'.
Proof.
  intros Hi Hw Hs'.
  assert (exists b, s' = mkScheduler (block_size (sched c)) (transactions_status (sched c))
    (transactions_dependents (sched c)) (execution_idx (sched c)) (validation_idx (sched c))
    (min_validation_idx (sched c)) (num_validated (sched c)) b) as [b ->].
  { destruct Hs' as [->| ->]; [exists (aborted (sched c)); by destruct (sched c)|by exists true]. }
  split; try done; try apply Hi.
  - intros j tx Hj. exists tx. split; [done|]. apply tx_unchanged; try done; tauto.
  - intros v Hv. exact (inv_holder _ Hi _ _ _ Hw Hv).
  - exact (inv_range _ Hi _ _ Hw).
Qed.

(** ** Every step preserves the invariant *)

Lemma change_inv_quiet c w x x' s' t :
  inv c -> change c w x x' s' -> (forall v, t <> Some (Execution v)) ->
  inv (moved c s' w x' t []).
Proof.
  intros Hi Hc Ht.
  assert (forall l, log_exec t l = l) as Hl by (intros l; destruct t as [[v|v]|]; naive_solver).
  apply (change_inv _ _ _ _ _ _ _ Hi Hc); rewrite ?Hl; try done; apply Hi.
Qed.

(** A version that is not past yet is not in the history. *)
Lemma past_fresh s P l v : Forall (past s P) l ->
  (forall tx, transactions_status s !! tx_idx v = Some tx ->
     incarnation tx < tx_incarnation v \/ (incarnation tx = tx_incarnation v /\ ~ P (status tx))) ->
  v ∉ l.
Proof.
  intros Hl Hv Hin. rewrite Forall_forall in Hl.
  destruct (Hl _ Hin) as (tx & Htx & Hp). destruct (Hv _ Htx) as [?|[? ?]]; destruct Hp as [?|[? ?]];
    by (lia || tauto).
Qed.

Lemma iteration_dispatch s r s' : sized s -> next_task_iter s = Some (r, s') ->
  (forall v, iter_task r <> Some (Execution v)) \/
  (exists i tx, r = IterTask (Execution (version_of i tx)) /\ i < block_size s /\
     transactions_status s !! i = Some tx /\ status tx = ReadyToExecute /\
     transactions_status s' !! i = Some {| incarnation := incarnation tx; status := Executing |}).
Proof.
  intros Hs E. destruct (aborted s) eqn:Ha.
  { unfold next_task_iter in E. rewrite Ha in E. injection E as <- <-. by left. }
  apply next_task_iter_cases in E; [|done|done].
  destruct E as [r _ _ ->|i tx e va Htx Hst Hlt _| |]; try by left.
  - left. by destruct (_ <=? _)%Z.
  - right. exists i, tx. repeat split; try done. apply put_status_self. by eapply lookup_lt_Some.
Qed.

Lemma step_inv c c' : step c c' -> inv c -> inv c'.
Proof.
  intros Hst Hi. destruct Hst as [w r s' Hw E|w v b ok s' Hw Hb E|w v flags t s' Hw E|w v Hw|w v Hw
    |w v tx won s' Hw Htx E|w v won t s' Hw E|w t Hw Ha].
  - pose proof (change_next _ _ _ _ Hi Hw E) as Hc.
    destruct (iteration_dispatch _ _ _ (inv_sized _ Hi) E)
      as [Hn|(i & tx & -> & Hlt & Htx & Hst & Hnew)]; [by eapply change_inv_quiet|].
    apply (change_inv _ _ _ _ _ _ _ Hi Hc); simpl; [| |apply (inv_aborts _ Hi)|done].
    + constructor; [|apply (inv_dispatched _ Hi)].
      eapply past_fresh; [apply (inv_dispatched _ Hi)|]. cbn. intros tx' ?. simplify_eq. right. tauto.
    + constructor; [|done]. eexists. split; [exact Hnew|]. by right.
  - pose proof (change_blocked _ _ _ _ _ _ Hi Hw Hb E) as Hc. by eapply change_inv_quiet.
  - destruct (change_finish _ _ _ _ _ _ Hi Hw E) as [Hc Ht].
    eapply change_inv_quiet; [done|done|]. intros v0. by destruct Ht as [->| ->].
  - eapply change_inv_quiet; [done| |done]. apply change_leave; auto.
  - eapply change_inv_quiet; [done| |done]. by apply change_pass.
  - destruct (change_fail _ _ _ _ _ _ Hi Hw Htx E) as [Hc Hwon].
    destruct won; [|by eapply change_inv_quiet]. destruct (Hwon eq_refl) as [Hd Hnew].
    apply (change_inv _ _ _ _ _ _ _ Hi Hc); simpl; [apply (inv_dispatched _ Hi)|done| |].
    + constructor; [|apply (inv_aborts _ Hi)].
      eapply past_fresh; [apply (inv_aborts _ Hi)|]. cbn. intros tx' ?. simplify_eq. right.
      split; [done|]. destruct Hd; congruence.
    + constructor; [|done]. eexists. split; [exact Hnew|]. by right.
  - destruct won.
    + destruct (change_finish_won _ _ _ _ _ Hi Hw E) as (Hc & tx & Htx & Ht).
      destruct Ht as [->|[-> Hnew]]; [by eapply change_inv_quiet|].
      apply (change_inv _ _ _ _ _ _ _ Hi Hc); simpl; [| |apply (inv_aborts _ Hi)|done].
      * constructor; [|apply (inv_dispatched _ Hi)].
        eapply past_fresh; [apply (inv_dispatched _ Hi)|]. cbn. intros tx' ?. simplify_eq. left. lia.
      * constructor; [|done]. eexists. split; [exact Hnew|]. by right.
    + destruct (change_finish_lost _ _ _ _ _ Hi Hw E) as [-> Hc]. by eapply change_inv_quiet.
  - eapply change_inv_quiet; [done| |done]. apply change_leave; auto.
Qed.

(** Every step is a [change] of one worker. *)
Lemma step_change c c' : step c c' -> inv c -> exists w x x', change c w x x' (sched c').
Proof.
  intros Hst Hi. destruct Hst as [w r s' Hw E|w v b ok s' Hw Hb E|w v flags t s' Hw E|w v Hw|w v Hw
    |w v tx won s' Hw Htx E|w v won t s' Hw E|w t Hw Ha]; exists w; cbn.
  - eexists _, _. by apply (change_next _ _ _ _ Hi Hw E).
  - eexists _, _. by apply (change_blocked _ _ _ _ _ _ Hi Hw Hb E).
  - eexists _, _. by apply (change_finish _ _ _ _ _ _ Hi Hw E).
  - eexists _, _. apply (change_leave _ _ _ _ Hi Hw). by right.
  - eexists _, _. by apply (change_pass _ _ _ Hi Hw).
  - eexists _, _. by apply (change_fail _ _ _ _ _ _ Hi Hw Htx E).
  - destruct won; eexists _, _.
    + by apply (change_finish_won _ _ _ _ _ Hi Hw E).
    + by apply (change_finish_lost _ _ _ _ _ Hi Hw E).
  - eexists _, _. apply (change_leave _ _ _ _ Hi Hw). by left.
Qed.

Lemma init_inv n level : (Z.of_nat n < 2 ^ 64)%Z -> inv (init n level).
Proof.
  intros Hn.
  assert (forall i tx, transactions_status (new n) !! i = Some tx ->
    tx = {| incarnation := 0; status := ReadyToExecute |}) as Hst
    by by intros i tx [-> _]%lookup_replicate.
  assert (forall w x, replicate level Idle !! w = Some x -> x = Idle) as Hw
    by by intros w x [-> _]%lookup_replicate.
  assert (forall b deps, replicate n (@nil TxIdx) !! b = Some deps -> deps = []) as Hd
    by by intros b x [-> _]%lookup_replicate.
  split; cbn; try done.
  - apply new_sized.
  - intros i tx ->%Hst. rewrite sum_map_zero; [done|]. by intros w x ->%Hw.
  - intros i tx ->%Hst. rewrite sum_map_zero; [|by intros w x ->%Hw].
    unfold deps_tok. rewrite sum_map_zero; [done|]. by intros w x ->%Hd.
  - by intros w x v ->%Hw.
  - by intros w x ->%Hw.
  - intros b deps j ->%Hd Hj. by apply elem_of_nil in Hj.
  - intros; lia.
  - rewrite sum_map_zero; [done|]. by intros w x ->%Hst.
  - by intros i tx ->%Hst [?|?].
  - by intros i tx ->%Hst.
  - by split; constructor.
  - by split; constructor.
Qed.

Lemma reachable_inv n level c : (Z.of_nat n < 2 ^ 64)%Z -> reachable n level c -> inv c.
Proof.
  intros Hn Hr. assert (inv (init n level)) as Hi by by apply init_inv.
  unfold reachable in Hr. induction Hr as [|c1 c2 c3 Hst _ IH]; [done|].
  apply IH. by eapply step_inv.
Qed.
