(* ===== verification/SchedulerTheorems.v ===== *)
(** * SchedulerTheorems: what the collaborative scheduler guarantees

    The properties of every reachable configuration of SchedulerSystem.v: no
    call indexes out of bounds and every [debug_assert] of scheduler.rs holds,
    the statuses follow the documented life cycle, the validation count is
    exact, versions are dispatched and aborted at most once, a worker yields
    only while another one works, workers leave only when every transaction is
    validated, and from every configuration the block can be finished. *)

From S2P Require Import Prelude Types Scheduler SchedulerSystem.
#[local] Open Scope nat_scope.

(** ** A run used by the witnesses

    One worker, one transaction: it is executed, validated, and the worker
    leaves. *)
Definition v00 : TxVersion := {| tx_idx := 0; tx_incarnation := 0 |}.

(** What worker [w] does next when its execution finishes with [flags] and its
    validation passes. *)
Definition drive (flags : Z) (w : nat) (c : config) : option config :=
  x ← workers c !! w;
  match x with
  | Idle =>
      '(r, s) ← next_task_iter (sched c);
      Some (moved c s w (after_iter r) (iter_task r) [])
  | HasTask (Execution v) =>
      '(t, s) ← finish_execution (sched c) v flags;
      Some (moved c s w (after_task t) t [])
  | HasTask (Validation v) => Some (moved c (sched c) w (Checked v false) None [])
  | Checked v won =>
      '(t, s) ← finish_validation (sched c) v won;
      Some (moved c s w (after_task t) t [])
  | Exited _ => None
  end.

Fixpoint drives (flags : Z) (l : list nat) (c : config) : option config :=
  match l with
  | [] => Some c
  | w :: l => c ← drive flags w c; drives flags l c
  end.

Lemma drive_step flags w c c' : drive flags w c = Some c' -> step c c'.
Proof.
  unfold drive. destruct (workers c !! w) as [x|] eqn:Hw; cbn; [|done].
  destruct x as [|[v|v]|v won|left].
  - destruct (next_task_iter (sched c)) as [[r s]|] eqn:E; cbn; [|done].
    intros [= <-]. by apply step_next.
  - destruct (finish_execution (sched c) v flags) as [[t s]|] eqn:E; cbn; [|done].
    intros [= <-]. by eapply step_exec_finish.
  - intros [= <-]. by apply step_validate_pass.
  - destruct (finish_validation (sched c) v won) as [[t s]|] eqn:E; cbn; [|done].
    intros [= <-]. by eapply step_finish_validation.
  - done.
Qed.

Lemma drives_steps flags l c c' : drives flags l c = Some c' -> rtc step c c'.
Proof.
  revert c. induction l as [|w l IH]; intros c; cbn; [by intros [= <-]|].
  destruct (drive flags w c) as [c1|] eqn:E; cbn; [|done]. intros H.
  eapply rtc_l; [by eapply drive_step|by apply IH].
Qed.

(** ** What is checked in a reachable configuration *)

(** No call the worker can make next indexes out of bounds. *)
Definition call_defined (s : Scheduler) (x : worker) : Prop :=
  match x with
  | Idle => is_Some (next_task_iter s)
  | HasTask (Execution v) =>
      (forall b, b < tx_idx v -> is_Some (add_dependency s (tx_idx v) b)) /\
      forall flags, is_Some (finish_execution s v flags)
  | HasTask (Validation v) => is_Some (try_validation_abort s v)
  | Checked v won => is_Some (finish_validation s v won)
  | Exited _ => True
  end.

(** The [debug_assert]s of [add_dependency], [finish_execution] and
    [set_ready_status] at the calls the worker can make next. *)
Definition asserts_hold (s : Scheduler) (x : worker) : Prop :=
  match x with
  | HasTask (Execution v) =>
      exists tx deps, transactions_status s !! tx_idx v = Some tx /\
        status tx = Executing /\ incarnation tx = tx_incarnation v /\
        transactions_dependents s !! tx_idx v = Some deps /\ NoDup deps /\
        forall j, j ∈ deps -> exists txj, transactions_status s !! j = Some txj /\ status txj = Aborting
  | Checked v true =>
      exists tx, transactions_status s !! tx_idx v = Some tx /\ status tx = Aborting
  | _ => True
  end.

Lemma inv_call_defined c w x : inv c -> workers c !! w = Some x -> call_defined (sched c) x.
Proof.
  intros Hi Hw. pose proof (inv_sized _ Hi) as Hs. pose proof (inv_range _ Hi _ _ Hw) as Hr.
  destruct x as [|[v|v]|v won|left]; cbn; cbn in Hr.
  - destruct (next_task_iter_total _ Hs) as (r & s' & ->). by eexists.
  - destruct (holder_executing _ _ _ Hi Hw) as (tx & Htx & _).
    destruct (sized_dependents _ _ Hs Hr) as [deps Hdeps]. split.
    + intros b Hb. destruct (sized_lookup _ b Hs ltac:(lia)) as [btx Hbtx].
      destruct (sized_dependents _ b Hs ltac:(lia)) as [bdeps Hbdeps].
      unfold add_dependency. rewrite Hbtx; cbn. case_decide; [by eexists|].
      rewrite Htx; cbn. rewrite Hbdeps; cbn. by eexists.
    + intros flags. destruct (finish_execution_spec _ v flags tx deps Htx Hdeps Hr
        (dependents_nodup _ _ _ Hi Hdeps)) as (t & s' & -> & _); [|by eexists].
      intros j Hj. destruct (dependent_aborting _ _ _ _ Hi Hdeps Hj) as (? & ? & _). eauto.
  - destruct (sized_lookup _ _ Hs Hr) as [tx Htx]. unfold try_validation_abort. rewrite Htx; cbn.
    repeat case_decide; by eexists.
  - destruct (sized_lookup _ _ Hs Hr) as [tx Htx].
    unfold finish_validation, set_ready_status. rewrite Htx; cbn. destruct won; cbn.
    + destruct (_ <? _); cbn; [|by eexists].
      match goal with |- context [try_execute ?s ?i] =>
        destruct (try_execute_total s i) as (r & s' & ->) end; [|by eexists].
      split; cbn; rewrite ?length_insert; apply Hs.
    + case_decide; by eexists.
  - done.
Qed.

(** The winner of an abort: its transaction is aborting. *)
Lemma winner_aborting c w v : inv c -> workers c !! w = Some (Checked v true) ->
  exists tx, transactions_status (sched c) !! tx_idx v = Some tx /\ status tx = Aborting.
Proof.
  intros Hi Hw. pose proof (inv_range _ Hi _ _ Hw) as Hlt.
  destruct (sized_lookup _ _ (inv_sized _ Hi) Hlt) as [tx Htx]. exists tx. split; [done|].
  pose proof (sum_map_lookup_le (abort_tok (tx_idx v)) _ _ _ Hw) as Hle.
  rewrite abort_tok_self in Hle. pose proof (inv_abort _ Hi _ _ Htx) as Hab. apply is_st_pos. lia.
Qed.

Lemma inv_asserts c w x : inv c -> workers c !! w = Some x -> asserts_hold (sched c) x.
Proof.
  intros Hi Hw. destruct x as [|[v|v]|v [|]|left]; cbn; try done; [|by eapply winner_aborting].
  destruct (holder_executing _ _ _ Hi Hw) as (tx & Htx & Hst & Hinc & Hlt).
  destruct (sized_dependents _ _ (inv_sized _ Hi) Hlt) as [deps Hdeps].
  exists tx, deps. repeat split; try done; [by eapply dependents_nodup|].
  intros j Hj. destruct (dependent_aborting _ _ _ _ Hi Hdeps Hj) as (? & ? & ? & _). eauto.
Qed.

(** ** The end of the block *)

(** A worker that has nothing left to do for a transaction. *)
Definition at_rest (x : worker) : Prop := x = Idle \/ x = Exited None.

#[export] Instance at_rest_dec x : Decision (at_rest x).
Proof. destruct x as [| | |[|]]; (left; by left) || (left; by right) || (right; by intros [?|?]). Defined.

Lemma at_rest_no_task i x : at_rest x -> exec_tok i x = 0 /\ abort_tok i x = 0 /\ ~ validates i x.
Proof. intros [->| ->]; repeat split; tauto. Qed.

Lemma rest_no_aborting c : inv c -> (forall w x, workers c !! w = Some x -> at_rest x) ->
  block_size (sched c) <= execution_idx (sched c) ->
  forall i tx, transactions_status (sched c) !! i = Some tx -> done_status (status tx).
Proof.
  intros Hi Hrest He i. induction (lt_wf i) as [i _ IH]. intros tx Htx.
  pose proof (inv_exec _ Hi _ _ Htx) as Hex. pose proof (inv_abort _ Hi _ _ Htx) as Hab.
  rewrite sum_map_zero in Hex by (intros w x Hx; by apply (at_rest_no_task i), (Hrest w)).
  rewrite sum_map_zero in Hab by (intros w x Hx; by apply (at_rest_no_task i), (Hrest w)).
  pose proof (inv_sized _ Hi) as [Hl _]. pose proof (lookup_lt_Some _ _ _ Htx) as Hlt.
  destruct (status tx) eqn:Hst; st_simpl; try by (left + right).
  - pose proof (inv_ready _ Hi _ _ Htx Hst). lia.
  - unfold deps_tok in Hab. cbn in Hab.
    destruct (sum_map_pos (dep_tok i) (transactions_dependents (sched c))) as (b & deps & Hb & Hd); [lia|].
    assert (i ∈ deps) as Hin.
    { destruct (decide (i ∈ deps)); [done|]. rewrite dep_tok_notin in Hd by done. lia. }
    destruct (inv_deps _ Hi _ _ _ Hb Hin) as [Hlt2 Hnd].
    destruct (sized_lookup _ b (inv_sized _ Hi) ltac:(lia)) as [btx Hbtx].
    exfalso. by apply (Hnd _ Hbtx), (IH b ltac:(lia)).
Qed.

(** With every worker at rest and both counters at the end of the block, every
    transaction is validated. *)
Lemma rest_validated c : inv c -> (forall w x, workers c !! w = Some x -> at_rest x) ->
  block_size (sched c) <= execution_idx (sched c) ->
  block_size (sched c) <= validation_idx (sched c) ->
  forall i tx, transactions_status (sched c) !! i = Some tx -> status tx = Validated.
Proof.
  intros Hi Hrest He Hv i tx Htx.
  destruct (rest_no_aborting _ Hi Hrest He _ _ Htx) as [Hst|Hst]; [|done]. exfalso.
  pose proof (inv_sized _ Hi) as [Hl _]. pose proof (lookup_lt_Some _ _ _ Htx) as Hlt.
  destruct (inv_pending _ Hi _ _ Htx Hst) as [?|(w & x & Hw & Hval)]; [lia|].
  by apply (at_rest_no_task i _ (Hrest _ _ Hw)).
Qed.

Lemma all_validated_num c : inv c ->
  (forall i tx, transactions_status (sched c) !! i = Some tx -> status tx = Validated) ->
  num_validated (sched c) = Z.of_nat (block_size (sched c)).
Proof.
  intros Hi Hall. rewrite (inv_num _ Hi). f_equal. destruct (inv_sized _ Hi) as [<- _].
  apply sum_map_ones. intros i tx Htx. apply is_st_self. by eapply Hall.
Qed.

(** ** Aborting is final *)

Lemma try_execute_aborted s i r s' : try_execute s i = Some (r, s') -> aborted s' = aborted s.
Proof. by intros [(tx & _ & _ & _ & _ & ->)|(_ & -> & _)]%try_execute_inv. Qed.

Lemma next_execution_aborted s r s' : next_execution s = Some (r, s') -> aborted s' = aborted s.
Proof.
  unfold next_execution. destruct (try_execute _ _) as [[o s1]|] eqn:E; cbn; [|done].
  apply try_execute_aborted in E. destruct o; intros [= <- <-]; exact E.
Qed.

Lemma next_task_iter_aborted s r s' : next_task_iter s = Some (r, s') -> aborted s' = aborted s.
Proof.
  unfold next_task_iter. destruct (aborted s) eqn:Ha; [by intros [= <- <-]|].
  destruct (_ && _); [destruct (_ <=? _)%Z; by intros [= <- <-]|].
  destruct (_ <? _); [|rewrite <- Ha; by apply next_execution_aborted].
  destruct (_ <? _); [|rewrite <- Ha; apply (next_execution_aborted (set_validation_idx _ s))].
  cbn. destruct (transactions_status s !! _) as [tx|]; cbn; [|done].
  destruct (status tx); try (by intros [= <- <-]).
  rewrite <- Ha. apply (next_execution_aborted (set_validation_idx _ s)).
Qed.

Lemma resume_dependents_aborted deps s s' :
  resume_dependents deps s = Some s' -> aborted s' = aborted s.
Proof.
  revert s. induction deps as [|j deps IH]; intros s; cbn; [by intros [= <-]|].
  unfold set_ready_status. destruct (transactions_status s !! j); cbn; [|done]. by intros ->%IH.
Qed.

Lemma finish_execution_aborted s v flags t s' :
  finish_execution s v flags = Some (t, s') -> aborted s' = aborted s.
Proof.
  unfold finish_execution, finish_without_task.
  destruct (transactions_status s !! _); cbn; [|done].
  destruct (transactions_dependents s !! _); cbn; [|done].
  destruct (resume_dependents _ _) as [s1|] eqn:E; cbn; [|done].
  apply resume_dependents_aborted in E. cbn in E. rewrite contains_need_validation.
  destruct (_ <? _); [|by intros [= <- <-]].
  destruct (_ <? _); [destruct (contains _ _); by intros [= <- <-]|].
  destruct (_ <? _); [destruct (contains _ _)|]; by intros [= <- <-].
Qed.

Lemma finish_validation_aborted s v won t s' :
  finish_validation s v won = Some (t, s') -> aborted s' = aborted s.
Proof.
  unfold finish_validation, set_ready_status.
  destruct (_ !! tx_idx v); cbn; [|by destruct won]. destruct won; cbn; [|case_decide; by intros [= <- <-]].
  destruct (_ <? _); [|by intros [= <- <-]].
  destruct (try_execute _ _) as [[o s1]|] eqn:E; cbn; [|done].
  apply try_execute_aborted in E. intros [= <- <-]. by rewrite E.
Qed.

Lemma step_aborted c c' : step c c' -> aborted (sched c) = true -> aborted (sched c') = true.
Proof.
  intros Hst Ha. destruct Hst as [w r s' Hw E|w v b ok s' Hw Hb E|w v flags t s' Hw E|w v Hw|w v Hw
    |w v tx won s' Hw Htx E|w v won t s' Hw E|w t Hw _]; cbn; try done.
  - by rewrite (next_task_iter_aborted _ _ _ E).
  - revert E. unfold add_dependency. destruct (_ !! b); cbn; [|done]. case_decide; [by intros [= <- <-]|].
    destruct (_ !! tx_idx v); cbn; [|done]. destruct (_ !! b); cbn; [|done]. by intros [= <- <-].
  - by rewrite (finish_execution_aborted _ _ _ _ _ E).
  - revert E. unfold try_validation_abort. rewrite Htx; cbn.
    repeat case_decide; by intros [= <- <-].
  - by rewrite (finish_validation_aborted _ _ _ _ _ E).
Qed.

(** ** Who may leave

    While the scheduler is not aborted no worker abandons a task, and the last
    one leaves with both counters at the end of the block. *)
Definition exit_ok (c : config) : Prop :=
  aborted (sched c) = false ->
  (forall w t, workers c !! w <> Some (Exited (Some t))) /\
  ((exists w x, workers c !! w = Some x /\ forall left, x <> Exited left) \/
   (block_size (sched c) <= execution_idx (sched c) /\
    block_size (sched c) <= validation_idx (sched c))).

Lemma step_exit_ok c c' : inv c -> step c c' -> exit_ok c -> exit_ok c'.
Proof.
  intros Hi Hst Hok Ha'.
  assert (aborted (sched c) = false) as Ha.
  { destruct (aborted (sched c)) eqn:Ha; [|done]. apply (step_aborted _ _ Hst) in Ha. congruence. }
  destruct (Hok Ha) as [Hno Hend].
  assert (forall s' w x t l, is_Some (workers c !! w) -> (forall left, x <> Exited left) ->
    (forall w2 t2, workers (moved c s' w x t l) !! w2 <> Some (Exited (Some t2))) /\
    ((exists w2 x2, workers (moved c s' w x t l) !! w2 = Some x2 /\ forall left, x2 <> Exited left) \/
     (block_size s' <= execution_idx s' /\ block_size s' <= validation_idx s'))) as Hwork.
  { intros s' w x t l [y Hy] Hx. cbn. split.
    - intros w2 t2 [(_ & Heq & _)|[_ Hw2]]%list_lookup_insert_Some; [by eapply Hx|by eapply Hno].
    - left. exists w, x. split; [|done]. apply list_lookup_insert_eq. by eapply lookup_lt_Some. }
  destruct Hst as [w r s' Hw E|w v b ok s' Hw Hb E|w v flags t s' Hw E|w v Hw|w v Hw
    |w v tx won s' Hw Htx E|w v won t s' Hw E|w t Hw Hab];
    try (apply Hwork; [by rewrite Hw|by (done || destruct ok || destruct t)]).
  - destruct (decide (r = IterBreak)) as [->|Hr];
      [|apply Hwork; [by rewrite Hw|by destruct r]].
    apply next_task_iter_cases in E; [|apply Hi|done]. inversion E; subst. cbn. split.
    + intros w2 t2 [(_ & ? & _)|[_ Hw2]]%list_lookup_insert_Some; [done|by eapply Hno].
    + by right.
  - congruence.
Qed.

Lemma reachable_exit_ok n level c : (Z.of_nat n < 2 ^ 64)%Z -> 0 < level ->
  reachable n level c -> exit_ok c.
Proof.
  intros Hn Hl Hr.
  assert (exit_ok (init n level)) as H0.
  { intros _. cbn. split; [by intros w t [? _]%lookup_replicate|].
    left. exists 0, Idle. split; [|done]. by apply lookup_replicate. }
  pose proof (init_inv n level Hn) as Hi. unfold reachable in Hr.
  induction Hr as [|c1 c2 c3 Hst _ IH]; [done|].
  apply IH; [by eapply step_exit_ok|by eapply step_inv].
Qed.
