(* ===== verification/SchedulerLow.v ===== *)
(** * SchedulerLow: somebody can always turn to the lowest work

    No worker gets ahead of the two task counters without another one behind it:
    in every reachable configuration of a running scheduler some worker is idle,
    or is busy with a transaction that both counters have passed, or has left with
    both counters at the end of the block.  So the workers cannot all be away with
    higher transactions while the counters point at a lower one; what one of them
    takes next is that one.  SchedulerProgress needs no such fact, as it may choose
    what the executions answer; the progress of the whole engine does. *)

From S2P Require Import Prelude Types Scheduler SchedulerSystem SchedulerTheorems.
#[local] Open Scope nat_scope.

(** Both counters have passed transaction [i], or the validation counter is at it. *)
Definition near (s : Scheduler) (i : TxIdx) : Prop := i <= validation_idx s /\ i < execution_idx s.

Definition low (s : Scheduler) (x : worker) : Prop :=
  match x with
  | Idle => True
  | HasTask t => near s (tx_idx (task_version t))
  | Checked v _ => near s (tx_idx v)
  | Exited _ => block_size s <= execution_idx s /\ block_size s <= validation_idx s
  end.

Definition some_low (c : config) : Prop := exists w x, workers c !! w = Some x /\ low (sched c) x.

(** Whatever was low still is. *)
Definition keeps_low (s s' : Scheduler) : Prop := forall y, low s y -> low s' y.

(** Counters that do not fall below [m] keep low what [m] bounds. *)
Lemma keeps_low_bounds s s' : block_size s' = block_size s ->
  (forall i, near s i -> near s' i) ->
  (block_size s <= execution_idx s -> block_size s <= validation_idx s ->
   block_size s <= execution_idx s' /\ block_size s <= validation_idx s') ->
  keeps_low s s'.
Proof.
  intros Hb Hn He [|t|v won|left]; cbn; [done|apply Hn..|]. rewrite Hb. intros [??]. by apply He.
Qed.

Lemma keeps_low_counters s s' : block_size s' = block_size s ->
  execution_idx s <= execution_idx s' -> validation_idx s <= validation_idx s' -> keeps_low s s'.
Proof. intros Hb He Hv. apply keeps_low_bounds; [done|intros i [??]; split; lia|lia]. Qed.

(** *** The worker that moves is low afterwards, or everybody who was still is *)
Definition low_step (s : Scheduler) (x : worker) (s' : Scheduler) (x' : worker) : Prop :=
  low s' x' \/ (keeps_low s s' /\ (low s x -> low s' x')).

Lemma some_low_moved c s' w x x' t l : workers c !! w = Some x -> low_step (sched c) x s' x' ->
  some_low c -> some_low (moved c s' w x' t l).
Proof.
  intros Hw Hst (w2 & y & Hw2 & Hy).
  assert (low s' x' -> some_low (moved c s' w x' t l)) as Hnew.
  { intros Hx. exists w, x'. split; [|done]. apply list_lookup_insert_eq. by eapply lookup_lt_Some. }
  destruct Hst as [|[Hk Hx]]; [auto|]. destruct (decide (w2 = w)) as [->|Hne].
  - apply Hnew, Hx. by simplify_eq.
  - exists w2, y. cbn. rewrite list_lookup_insert_ne by done. split; [done|by apply Hk].
Qed.

Lemma next_execution_low s r s' : next_execution s = Some (r, s') ->
  keeps_low s s' /\ (execution_idx s <= validation_idx s -> low s' (after_iter r)).
Proof.
  unfold next_execution. destruct (try_execute _ _) as [[o s1]|] eqn:E; cbn; [|done].
  apply try_execute_inv in E as [(tx & Hi & Htx & Hst & -> & ->)|(-> & -> & _)]; cbn; intros [= <- <-];
    (split; [apply keeps_low_counters; cbn; lia|]); intros Hle; cbn; [|done].
  split; cbn; lia.
Qed.

(** An iteration of [next_task]: past an executing transaction it may take a task
    far ahead, but then the worker that executes that transaction is low. *)
Lemma next_task_iter_low c w r s' : inv c -> exit_ok c -> aborted (sched c) = false ->
  workers c !! w = Some Idle -> next_task_iter (sched c) = Some (r, s') -> some_low c ->
  some_low (moved c s' w (after_iter r) (iter_task r) []).
Proof.
  intros Hi Hok Ha Hw E Hlow.
  assert (low_step (sched c) Idle s' (after_iter r) -> some_low (moved c s' w (after_iter r) (iter_task r) [])) as Hstep
    by (intros Hl; by eapply some_low_moved).
  revert E. unfold next_task_iter. rewrite Ha.
  destruct (Nat.leb_spec (block_size (sched c)) (execution_idx (sched c))) as [He|He],
    (Nat.leb_spec (block_size (sched c)) (validation_idx (sched c))) as [Hv|Hv]; cbn [andb].
  { destruct (_ <=? _)%Z; intros [= <- <-]; apply Hstep; left; done. }
  all: destruct (Nat.ltb_spec (validation_idx (sched c)) (execution_idx (sched c))) as [Hlt|Hge];
    [|intros E; apply Hstep; left; by apply (next_execution_low _ _ _ E)]; try lia.
  all: destruct (Nat.ltb_spec (validation_idx (sched c)) (block_size (sched c))) as [Hn|]; [|lia].
  all: cbn; destruct (transactions_status (sched c) !! validation_idx (sched c)) as [tx|] eqn:Htx; cbn; [|done].
  all: destruct (status tx) eqn:Hst; try (intros [= <- <-]; apply Hstep; left; cbn; unfold near; cbn; lia).
  all: intros [Hk _]%next_execution_low.
  all: pose proof (inv_exec _ Hi _ _ Htx) as Hsum; rewrite (is_st_self Executing tx Hst) in Hsum.
  all: destruct (sum_map_pos (exec_tok (validation_idx (sched c))) (workers c)) as (w2 & y & Hw2 & Hy); [lia|].
  all: exists w2, y; cbn; destruct (decide (w2 = w)) as [->|Hne];
    [rewrite Hw in Hw2; injection Hw2 as <-; cbn in Hy; lia|].
  all: rewrite list_lookup_insert_ne by done; split; [done|]; apply Hk; unfold exec_tok in Hy.
  all: destruct y as [|t|v won|[t|]]; cbn in Hy; try lia; [|by destruct (proj1 (Hok Ha) w2 t)].
  all: destruct t as [v|v]; [|lia]; destruct (Nat.eqb_spec (tx_idx v) (validation_idx (sched c))) as [Heq|]; [|cbn in Hy; lia].
  all: cbn; unfold near; cbn; lia.
Qed.

Lemma finish_execution_low c w v flags t s' : inv c -> workers c !! w = Some (HasTask (Execution v)) ->
  finish_execution (sched c) v flags = Some (t, s') ->
  low_step (sched c) (HasTask (Execution v)) s' (after_task t).
Proof.
  intros Hi Hw E. destruct (holder_executing _ _ _ Hi Hw) as (tx & Htx & Hst & Hinc & Hlt).
  destruct (sized_dependents _ _ (inv_sized _ Hi) Hlt) as [deps Hdeps].
  destruct (finish_execution_spec (sched c) v flags tx deps Htx Hdeps Hlt
    (dependents_nodup _ _ _ Hi Hdeps)) as (t0 & s0 & E0 & Hf).
  { intros j Hj. destruct (dependent_aborting _ _ _ _ Hi Hdeps Hj) as (? & ? & _). eauto. }
  rewrite E in E0. injection E0 as <- <-.
  destruct (fin_mid _ _ _ _ _ _ _ Hf) as (s1 & Hr & _ & Hex).
  assert (forall m, m <= execution_idx (sched c) -> m <= S (tx_idx v) -> m <= execution_idx s') as Hbound.
  { intros m Hm Hmv. rewrite Hex. apply (rs_execution_above _ _ _ Hr); [done|].
    intros j Hj. destruct (inv_deps _ Hi _ _ _ Hdeps Hj). lia. }
  destruct (fin_task _ _ _ _ _ _ _ Hf) as [(-> & Hv & Hva)|(-> & _)]; [|by left].
  assert (Nat.min (validation_idx (sched c)) (S (tx_idx v)) <= validation_idx s') as Hva'
    by (rewrite Hva; destruct (contains _ _); lia).
  destruct (decide (tx_idx v < execution_idx (sched c))) as [Hlow|Hhigh].
  - left. cbn. split; [lia|]. pose proof (Hbound (S (tx_idx v))). lia.
  - right. split; [|intros [_ ?]; cbn in *; lia].
    pose proof (Hbound (execution_idx (sched c))).
    apply keeps_low_bounds; [exact (fin_block_size _ _ _ _ _ _ _ Hf)|intros i [??]; split; lia|lia].
Qed.

Lemma finish_validation_low s v won t s' : finish_validation s v won = Some (t, s') ->
  low_step s (Checked v won) s' (after_task t).
Proof.
  unfold finish_validation, set_ready_status. destruct (transactions_status s !! tx_idx v) as [tx|]; cbn; [|by destruct won].
  destruct won; cbn; [|case_decide; intros [= <- <-]; by left].
  destruct (Nat.ltb_spec (tx_idx v) (execution_idx s)) as [Hlt|Hge]; [|intros [= <- <-]; by left].
  destruct (try_execute _ _) as [[o s1]|] eqn:T; cbn; [|done]. intros [= <- <-].
  assert (execution_idx s1 = execution_idx s /\ validation_idx s1 = Nat.min (validation_idx s) (S (tx_idx v)) /\
    block_size s1 = block_size s /\ (o = None \/ exists u, o = Some u /\ tx_idx u = tx_idx v)) as (He & Hv & Hb & Ho).
  { apply try_execute_inv in T as [(tx1 & _ & _ & _ & -> & ->)|(-> & -> & _)]; cbn; eauto 10. }
  destruct Ho as [->|(u & -> & Hu)]; cbn; [by left|].
  destruct (decide (tx_idx v <= validation_idx s)) as [Hle|Hn].
  - left. cbn. rewrite Hu. split; lia.
  - right. split; [apply keeps_low_counters; lia|]. intros [??]. cbn in *. lia.
Qed.

Lemma step_low c c' : inv c -> exit_ok c -> step c c' -> aborted (sched c') = false -> some_low c -> some_low c'.
Proof.
  intros Hi Hok Hst Ha' Hlow.
  assert (aborted (sched c) = false) as Ha.
  { destruct (aborted (sched c)) eqn:Ha; [|done]. apply (step_aborted _ _ Hst) in Ha. congruence. }
  destruct Hst as [w r s' Hw E|w v b ok s' Hw Hb E|w v flags t s' Hw E|w v Hw|w v Hw
    |w v tx won s' Hw Htx E|w v won t s' Hw E|w t Hw Hab]; try done.
  - by apply next_task_iter_low.
  - eapply some_low_moved; [exact Hw| |done]. destruct ok; [by left|]. right.
    revert E. unfold add_dependency. destruct (_ !! b); cbn; [|done]. case_decide; [intros [= <-]; split; [by intros y|done]|].
    destruct (_ !! tx_idx v); cbn; [|done]. destruct (_ !! b); by cbn.
  - eapply some_low_moved; [exact Hw| |done]. by eapply finish_execution_low.
  - eapply some_low_moved; [exact Hw| |done]. right. split; [by intros y|done].
  - eapply some_low_moved; [exact Hw| |done]. right. revert E. unfold try_validation_abort. rewrite Htx. cbn.
    repeat case_decide; intros [= <- <-]; (split; [by apply keeps_low_counters|done]).
  - eapply some_low_moved; [exact Hw| |done]. by apply finish_validation_low.
  - congruence.
Qed.

Lemma init_low n level : 0 < level -> some_low (init n level).
Proof. intros Hl. exists 0, Idle. split; [|done]. cbn. by apply lookup_replicate_2. Qed.
