(* ===== verification/SchedulerProgress.v ===== *)
(** * SchedulerProgress: the scheduler is never stuck

    From every reachable configuration of a running scheduler the block can be
    driven to its end: there is a continuation after which every worker has
    left its loop and every transaction is validated.  The continuation lets
    executions finish without new locations and validations pass; a measure on
    configurations shows that it is finite, whatever the state it starts in. *)

From S2P Require Import Prelude Types Scheduler SchedulerSystem SchedulerTheorems.
#[local] Open Scope nat_scope.

(** ** The measure *)

Definition st_weight (tx : TxStatus) : nat :=
  match status tx with
  | Aborting => 3
  | ReadyToExecute => 2
  | Executing => 1
  | Executed | Validated => 0
  end.

Definition worker_weight (x : worker) : nat :=
  match x with
  | HasTask (Execution _) => 4
  | HasTask (Validation _) => 3
  | Checked _ _ => 2
  | Idle => 1
  | Exited _ => 0
  end.

Definition statuses_weight (s : Scheduler) : nat := sum_map st_weight (transactions_status s).

Definition measure (c : config) : nat :=
  (6 * block_size (sched c) + 4) * statuses_weight (sched c) +
  3 * idle_measure (sched c) + sum_map worker_weight (workers c).

Lemma idle_measure_le s : idle_measure s <= 2 * block_size s.
Proof. unfold idle_measure. lia. Qed.

(** A step that lowers a status pays for any change of the counters. *)
Lemma measure_status c s' w x x' t l :
  workers c !! w = Some x -> block_size s' = block_size (sched c) ->
  statuses_weight s' + 1 <= statuses_weight (sched c) ->
  worker_weight x' <= worker_weight x + 3 -> measure (moved c s' w x' t l) < measure c.
Proof.
  intros Hw Hb Hs Hx. unfold measure. cbn. rewrite Hb.
  pose proof (sum_map_insert worker_weight _ w x x' Hw).
  pose proof (idle_measure_le s'). rewrite Hb in *.
  assert ((6 * block_size (sched c) + 4) * (statuses_weight s' + 1) <=
    (6 * block_size (sched c) + 4) * statuses_weight (sched c)) by by apply Nat.mul_le_mono_l.
  lia.
Qed.

(** One that keeps the statuses must lower the counters or the worker. *)
Lemma measure_local c s' w x x' t l :
  workers c !! w = Some x -> block_size s' = block_size (sched c) ->
  statuses_weight s' = statuses_weight (sched c) ->
  3 * idle_measure s' + worker_weight x' < 3 * idle_measure (sched c) + worker_weight x ->
  measure (moved c s' w x' t l) < measure c.
Proof.
  intros Hw Hb Hs Hx. unfold measure. cbn. rewrite Hb, Hs.
  pose proof (sum_map_insert worker_weight _ w x x' Hw). lia.
Qed.

Lemma statuses_weight_put s i tx st : transactions_status s !! i = Some tx ->
  statuses_weight (put_status i tx st s) + st_weight tx =
  statuses_weight s + st_weight {| incarnation := incarnation tx; status := st |}.
Proof. intros H. unfold statuses_weight. cbn. by apply sum_map_insert. Qed.

(** ** [next_task] *)

Lemma next_task_iter_measure s v s' :
  next_task_iter s = Some (IterTask (Validation v), s') ->
  idle_measure s' < idle_measure s /\ transactions_status s' = transactions_status s /\
  block_size s' = block_size s.
Proof.
  unfold next_task_iter, next_execution. destruct (aborted s); [done|].
  destruct (_ && _); [by destruct (_ <=? _)%Z|].
  assert (forall s1, (('(r, s2) ← try_execute (set_execution_idx (S (execution_idx s1)) s1) (execution_idx s1);
     match r with
     | Some v0 => Some (IterTask (Execution v0), s2)
     | None => Some (IterContinue, s2) end) : option (iteration * Scheduler)) <>
     Some (IterTask (Validation v), s')) as Hne.
  { intros s1. destruct (try_execute _ _) as [[[o|] s2]|]; cbn; congruence. }
  destruct (_ <? _); [|by intros ?%Hne]. destruct (Nat.ltb_spec (validation_idx s) (block_size s));
    [|by intros ?%Hne].
  cbn. destruct (transactions_status s !! _) as [tx|]; cbn; [|done].
  destruct (status tx); try done; try (by intros ?%(Hne (set_validation_idx _ s)));
    intros [= _ <-]; unfold idle_measure; cbn; (split; [lia|done]).
Qed.

Lemma drive_next c w r s' :
  inv c -> aborted (sched c) = false -> workers c !! w = Some Idle ->
  next_task_iter (sched c) = Some (r, s') -> r <> IterYield ->
  measure (moved c s' w (after_iter r) (iter_task r) []) < measure c.
Proof.
  intros Hi Ha Hw E Hy. pose proof E as Hc.
  apply next_task_iter_cases in Hc; [|apply Hi|done].
  destruct Hc as [r _ _ ->|i tx e va Htx Hst Hlt _|i tx va Htx Hst Hlt _|e va _].
  - destruct (_ <=? _)%Z; [|done]. apply (measure_local _ _ _ _ _ _ _ Hw); cbn -[idle_measure Nat.mul]; done || lia.
  - apply (measure_status _ _ _ _ _ _ _ Hw); cbn; try done; try lia.
    pose proof (statuses_weight_put (set_execution_idx e (set_validation_idx va (sched c)))
      i tx Executing Htx) as H. unfold st_weight in H. rewrite Hst in H. cbn in H.
    unfold statuses_weight in *. cbn in *. lia.
  - apply next_task_iter_measure in E as (Hm & _ & _).
    apply (measure_local _ _ _ _ _ _ _ Hw); cbn -[idle_measure Nat.mul]; try done. lia.
  - apply next_task_iter_decreases in E as (Hm & _ & _).
    apply (measure_local _ _ _ _ _ _ _ Hw); cbn -[idle_measure Nat.mul]; try done. lia.
Qed.

(** ** The other calls *)

Lemma drive_finish c w v flags t s' :
  inv c -> workers c !! w = Some (HasTask (Execution v)) ->
  finish_execution (sched c) v flags = Some (t, s') ->
  measure (moved c s' w (after_task t) t []) < measure c.
Proof.
  intros Hi Hw E. destruct (holder_executing _ _ _ Hi Hw) as (tx & Htx & Hst & Hinc & Hlt).
  pose proof (inv_sized _ Hi) as Hs. destruct (sized_dependents _ _ Hs Hlt) as [deps Hdeps].
  destruct (finish_execution_spec (sched c) v flags tx deps Htx Hdeps Hlt
    (dependents_nodup _ _ _ Hi Hdeps)) as (t0 & s0 & E0 & Hf).
  { intros j Hj. destruct (dependent_aborting _ _ _ _ Hi Hdeps Hj) as (? & ? & _). eauto. }
  rewrite E in E0. injection E0 as <- <-.
  pose proof (finished_sized _ _ _ _ _ _ _ Hf Hs) as Hs'.
  pose proof (fin_block_size _ _ _ _ _ _ _ Hf) as Hb.
  apply (measure_status _ _ _ _ _ _ _ Hw); [done| |].
  2: { destruct (fin_task _ _ _ _ _ _ _ Hf) as [(-> & _)|(-> & _)]; cbn; lia. }
  destruct (sized_same_lookup _ s' _ _ Hs Hs' Hb Htx) as [tx' Htx'].
  assert (forall k tx0 tx1, transactions_status (sched c) !! k = Some tx0 ->
    transactions_status s' !! k = Some tx1 ->
    st_weight tx1 <= st_weight tx0 /\ (k = tx_idx v -> st_weight tx1 = 0)) as Hpt.
  { intros k tx0 tx1 H0 H1. destruct (finished_lookup _ _ _ _ _ _ _ _ _ Hf H1)
      as [[-> ->]|[(Hne & Hin & tx2 & Htx2 & ->)|(Hne & Hnin & Hk)]]; simplify_eq.
    - split; [unfold st_weight; cbn; lia|done].
    - destruct (dependent_aborting _ _ _ _ Hi Hdeps Hin) as (tx3 & ? & Hab & _). simplify_eq.
      unfold st_weight. cbn. rewrite Hab. split; [lia|done].
    - done. }
  unfold statuses_weight.
  apply (sum_map_drop st_weight _ _ (tx_idx v) 1 tx tx' ); try done.
  - destruct Hs, Hs'. lia.
  - intros k x y H0 H1. by apply (Hpt k).
  - destruct (Hpt _ _ _ Htx Htx') as [_ ->]; [|done]. unfold st_weight. rewrite Hst. lia.
Qed.

Lemma drive_validated c w v won t s' :
  inv c -> workers c !! w = Some (Checked v won) ->
  finish_validation (sched c) v won = Some (t, s') ->
  measure (moved c s' w (after_task t) t []) < measure c.
Proof.
  intros Hi Hw E. pose proof (inv_sized _ Hi) as Hs. destruct won.
  - destruct (winner_aborting _ _ _ Hi Hw) as (tx & Htx & Hst).
    unfold finish_validation, set_ready_status in E. rewrite Htx in E. cbn in E.
    pose proof (sum_map_insert st_weight _ _ tx
      {| incarnation := S (incarnation tx); status := ReadyToExecute |} Htx) as H1.
    unfold st_weight in H1 at 2 4. rewrite Hst in H1. cbn in H1.
    destruct (_ <? _).
    2: { injection E as <- <-. apply (measure_status _ _ _ _ _ _ _ Hw); cbn; try lia.
      unfold statuses_weight. cbn. lia. }
    match type of E with context [try_execute ?s ?i] =>
      destruct (try_execute s i) as [[o s1]|] eqn:T; cbn in E; [|done] end.
    injection E as <- <-.
    apply try_execute_inv in T as [(tx1 & _ & Htx1 & Hr & -> & ->)|(-> & -> & _)];
      (apply (measure_status _ _ _ _ _ _ _ Hw); [done| |cbn; lia]).
    + pose proof (statuses_weight_put _ _ _ Executing Htx1) as H2.
      unfold st_weight in H2. rewrite Hr in H2. cbn in H2. unfold statuses_weight in *. cbn in *. lia.
    + unfold statuses_weight. cbn. lia.
  - pose proof (inv_range _ Hi _ _ Hw) as Hlt. destruct (sized_lookup _ _ Hs Hlt) as [tx Htx].
    unfold finish_validation in E. rewrite Htx in E. cbn in E.
    case_decide as Hst; injection E as <- <-; apply (measure_local _ _ _ _ _ _ _ Hw); try done;
      try (unfold idle_measure; cbn; lia).
    pose proof (statuses_weight_put _ _ _ Validated Htx) as H2.
    unfold st_weight in H2. rewrite Hst in H2. cbn in H2. unfold statuses_weight in *. cbn in *. lia.
Qed.

(** ** Driving a configuration to its end *)

Lemma drive_measure c w x :
  inv c -> aborted (sched c) = false -> workers c !! w = Some x -> (forall left, x <> Exited left) ->
  (forall s, x = Idle -> next_task_iter (sched c) <> Some (IterYield, s)) ->
  exists c', drive 0 w c = Some c' /\ measure c' < measure c /\ aborted (sched c') = false.
Proof.
  intros Hi Ha Hw Hx Hy. pose proof (inv_call_defined _ _ _ Hi Hw) as Hd.
  unfold drive. rewrite Hw. cbn -[measure moved].
  destruct x as [|[v|v]|v won|left]; cbn in Hd; [| | | |by destruct (Hx left)].
  - destruct Hd as [[r s'] E]. rewrite E. cbn -[measure moved]. eexists. split; [done|].
    split; [|cbn; by rewrite (next_task_iter_aborted _ _ _ E)].
    apply (drive_next _ _ _ _ Hi Ha Hw E). intros ->. by eapply Hy.
  - destruct Hd as [_ Hd]. destruct (Hd 0%Z) as [[t s'] E]. rewrite E. cbn -[measure moved].
    eexists. split; [done|]. split; [by eapply drive_finish|].
    cbn. by rewrite (finish_execution_aborted _ _ _ _ _ E).
  - eexists. split; [done|]. split; [|done].
    apply (measure_local _ _ _ _ _ _ _ Hw); cbn -[idle_measure Nat.mul]; try done. lia.
  - destruct Hd as [[t s'] E]. rewrite E. cbn -[measure moved].
    eexists. split; [done|]. split; [by eapply drive_validated|].
    cbn. by rewrite (finish_validation_aborted _ _ _ _ _ E).
Qed.

(** A scheduler all of whose workers are at rest does not make them yield. *)
Lemma rest_no_yield c s : inv c -> (forall w x, workers c !! w = Some x -> at_rest x) ->
  aborted (sched c) = false -> next_task_iter (sched c) <> Some (IterYield, s).
Proof.
  intros Hi Hrest Ha E. apply next_task_iter_cases in E; [|apply Hi|done].
  inversion E as [r He Hv Hr| | |]; subst. revert Hr.
  rewrite (all_validated_num _ Hi (rest_validated _ Hi Hrest He Hv)).
  destruct (Z.leb_spec (Z.of_nat (block_size (sched c) - min_validation_idx (sched c)))
    (Z.of_nat (block_size (sched c))));
    [done|lia].
Qed.

Lemma find_busy (l : list worker) :
  (exists w x, l !! w = Some x /\ ~ at_rest x) \/ (forall w x, l !! w = Some x -> at_rest x).
Proof.
  destruct (decide (Exists (fun x => ~ at_rest x) l)) as [H|H].
  - left. apply Exists_exists in H as (x & [w Hw]%list_elem_of_lookup & Hx). eauto.
  - right. intros w x Hw. destruct (decide (at_rest x)) as [|Hn]; [done|]. exfalso. apply H.
    apply Exists_exists. exists x. split; [|done]. apply list_elem_of_lookup. eauto.
Qed.

Lemma find_idle (l : list worker) : (forall w x, l !! w = Some x -> at_rest x) ->
  (exists w, l !! w = Some Idle) \/ (forall w x, l !! w = Some x -> x = Exited None).
Proof.
  intros Hl. destruct (decide (Exists (fun x => x <> Exited None) l)) as [H|H].
  - left. apply Exists_exists in H as (x & [w Hw]%list_elem_of_lookup & Hx). exists w.
    destruct (Hl _ _ Hw) as [->| ->]; done.
  - right. intros w x Hw. destruct (Hl _ _ Hw) as [->|]; [|done]. exfalso. apply H.
    apply Exists_exists. exists Idle. split; [|done]. apply list_elem_of_lookup. eauto.
Qed.

Lemma drive_to_end k c : measure c <= k -> inv c -> exit_ok c -> aborted (sched c) = false ->
  exists c', rtc step c c' /\ inv c' /\ exit_ok c' /\ aborted (sched c') = false /\
    forall w x, workers c' !! w = Some x -> x = Exited None.
Proof.
  revert c. induction k as [k IH] using lt_wf_ind. intros c Hk Hi Hok Ha.
  assert (forall w x, workers c !! w = Some x -> (forall left, x <> Exited left) ->
    (forall s, x = Idle -> next_task_iter (sched c) <> Some (IterYield, s)) ->
    exists c', rtc step c c' /\ inv c' /\ exit_ok c' /\ aborted (sched c') = false /\
      forall w x, workers c' !! w = Some x -> x = Exited None) as Hgo.
  { intros w x Hw Hx Hy.
    destruct (drive_measure _ _ _ Hi Ha Hw Hx Hy) as (c1 & E & Hm & Ha1).
    apply drive_step in E. pose proof (step_inv _ _ E Hi) as Hi1.
    destruct (IH (measure c1) ltac:(lia) c1) as (c' & Hr & Hrest); try done;
      [exact (step_exit_ok _ _ Hi E Hok)|]. exists c'. split; [by eapply rtc_l|done]. }
  destruct (find_busy (workers c)) as [(w & x & Hw & Hx)|Hrest].
  - apply (Hgo w x Hw).
    + intros [t|] ->; [|by apply Hx; right]. by apply (proj1 (Hok Ha) w t).
    + intros s ->. exfalso. apply Hx. by left.
  - destruct (find_idle _ Hrest) as [[w Hw]|Hall]; [|by exists c].
    apply (Hgo w Idle Hw); [done|]. intros s _. by apply rest_no_yield.
Qed.

(** All workers out of a running scheduler: the block is validated. *)
Lemma exited_validated c : inv c -> exit_ok c -> aborted (sched c) = false ->
  (forall w x, workers c !! w = Some x -> exists left, x = Exited left) ->
  forall i tx, transactions_status (sched c) !! i = Some tx -> status tx = Validated.
Proof.
  intros Hi Hok Ha Hall. destruct (Hok Ha) as [Hno [(w & x & Hw & Hx)|[He Hv]]].
  - destruct (Hall _ _ Hw) as [left ->]. by destruct (Hx left).
  - apply rest_validated; try done. intros w x Hw. destruct (Hall _ _ Hw) as [[t|] ->]; [|by right].
    by destruct (Hno w t).
Qed.
