(* ===== verification/SchedulerSpec.v ===== *)
(** * SchedulerSpec: what the collaborative scheduler promises

    The contract of scheduler.rs as theorems about every reachable
    configuration of SchedulerSystem.v, for any number of transactions below
    2^64, any number of workers and any interleaving of their calls. *)

From S2P Require Import Prelude Types Scheduler SchedulerSystem SchedulerTheorems SchedulerProgress.
#[local] Open Scope nat_scope.

(** The configuration after a scripted run, for the witnesses. *)
Definition run (flags : Z) (n level : nat) (l : list nat) : config :=
  default (init n level) (drives flags l (init n level)).

Lemma run_reachable flags n level l : reachable n level (run flags n level l).
Proof.
  unfold run. destruct (drives flags l (init n level)) as [c|] eqn:E; cbn.
  - by eapply drives_steps.
  - by apply rtc_refl.
Qed.

(** C6: when every worker has left the loop of [next_task] and nobody aborted the
    scheduler, every transaction of the block is validated and the validation
    count equals the block size: no transaction is forgotten, whatever the
    interleaving of executions, aborts, dependencies and validations. *)
Theorem workers_leave_validated (n level : nat) (c : config)
  (Hn : (Z.of_nat n < 2 ^ 64)%Z) (Hl : 0 < level) (Hr : reachable n level c)
  (Ha : aborted (sched c) = false)
  (Hall : forall w x, workers c !! w = Some x -> exists left, x = Exited left) :
  (forall i tx, transactions_status (sched c) !! i = Some tx -> status tx = Validated) /\
  num_validated (sched c) = Z.of_nat (block_size (sched c)).
Proof.
  pose proof (reachable_inv _ _ _ Hn Hr) as Hi.
  pose proof (reachable_exit_ok _ _ _ Hn Hl Hr) as Hok.
  pose proof (exited_validated _ Hi Hok Ha Hall) as Hv. split; [done|].
  by apply all_validated_num.
Qed.

Lemma workers_leave_validated_witness :
  exists c, workers c = [Exited None; Exited None] /\
  ((forall i tx, transactions_status (sched c) !! i = Some tx -> status tx = Validated) /\
   num_validated (sched c) = Z.of_nat (block_size (sched c))).
Proof.
  exists (run 0 2 2 [0;0;1;0;1;0;1;1;0;1]). split; [by vm_compute|].
  apply (workers_leave_validated 2 2); [done|lia|apply run_reachable|by vm_compute|].
  intros w x. destruct w as [|[|w]]; vm_compute; [intros [= <-]; eauto..|done].
Defined.

(** C8: no reachable configuration of a running scheduler is stuck: some
    continuation lets every worker leave the loop with every transaction
    validated.  There is no deadlock between dependencies, aborts and the two
    task counters, and no wake-up is lost. *)
Theorem can_always_finish (n level : nat) (c : config)
  (Hn : (Z.of_nat n < 2 ^ 64)%Z) (Hl : 0 < level) (Hr : reachable n level c)
  (Ha : aborted (sched c) = false) :
  exists c', rtc step c c' /\ aborted (sched c') = false /\
    (forall w x, workers c' !! w = Some x -> x = Exited None) /\
    (forall i tx, transactions_status (sched c') !! i = Some tx -> status tx = Validated).
Proof.
  pose proof (reachable_inv _ _ _ Hn Hr) as Hi.
  pose proof (reachable_exit_ok _ _ _ Hn Hl Hr) as Hok.
  destruct (drive_to_end (measure c) c (Nat.le_refl _) Hi Hok Ha) as (c' & Hs & Hi' & Hok' & Ha' & He).
  exists c'. repeat split; try done. apply exited_validated; try done. eauto.
Qed.

Lemma can_always_finish_witness :
  exists c', rtc step (run 1 3 2 [0;1;1]) c' /\ aborted (sched c') = false /\
    (forall w x, workers c' !! w = Some x -> x = Exited None) /\
    (forall i tx, transactions_status (sched c') !! i = Some tx -> status tx = Validated).
Proof.
  apply (can_always_finish 3 2); [done|lia|apply run_reachable|by vm_compute].
Defined.

(** A worker whose iteration of [next_task] only yields is waiting for
    another worker that holds a task or is between its validation and
    [finish_validation]: nobody spins once there is nothing left to wait for. *)
Theorem yield_waits_for_worker (n level : nat) (c : config) (w : nat) (s : Scheduler)
  (Hn : (Z.of_nat n < 2 ^ 64)%Z) (Hl : 0 < level) (Hr : reachable n level c)
  (Hw : workers c !! w = Some Idle) (Hy : next_task_iter (sched c) = Some (IterYield, s)) :
  exists w2 x, w2 <> w /\ workers c !! w2 = Some x /\
    ((exists t, x = HasTask t) \/ (exists v won, x = Checked v won)).
Proof.
  pose proof (reachable_inv _ _ _ Hn Hr) as Hi.
  assert (aborted (sched c) = false) as Ha.
  { revert Hy. unfold next_task_iter. by destruct (aborted (sched c)). }
  destruct (reachable_exit_ok _ _ _ Hn Hl Hr Ha) as [Hno _].
  destruct (find_busy (workers c)) as [(w2 & x & Hw2 & Hx)|Hrest];
    [|by destruct (rest_no_yield _ s Hi Hrest Ha)].
  exists w2, x. split; [|split; [done|]].
  - intros ->. rewrite Hw in Hw2. injection Hw2 as <-. apply Hx. by left.
  - destruct x as [|t|v won|[t|]]; eauto; exfalso; [apply Hx; by left|by apply (Hno w2 t)|apply Hx; by right].
Qed.

Lemma yield_waits_for_worker_witness :
  exists w2 x, w2 <> 1 /\ workers (run 0 1 2 [0;0]) !! w2 = Some x /\
    ((exists t, x = HasTask t) \/ (exists v won, x = Checked v won)).
Proof.
  eapply (yield_waits_for_worker 1 2); [done|lia|apply run_reachable|by vm_compute|by vm_compute].
Defined.

(** C16: no call of a worker indexes outside the vectors of the scheduler, so the
    [get_unchecked] of [index_mutex!] is never undefined behaviour; this holds
    while the scheduler runs and while its workers leave after an abort. *)
Theorem scheduler_indexes_in_bounds (n level : nat) (c : config) (w : nat) (x : worker)
  (Hn : (Z.of_nat n < 2 ^ 64)%Z) (Hr : reachable n level c) (Hw : workers c !! w = Some x) :
  call_defined (sched c) x.
Proof. eapply inv_call_defined; [by eapply reachable_inv|done]. Qed.

Lemma scheduler_indexes_in_bounds_witness :
  workers (run 1 3 2 [0;1]) !! 1 = Some (HasTask (Execution {| tx_idx := 1; tx_incarnation := 0 |})) /\
  call_defined (sched (run 1 3 2 [0;1])) (HasTask (Execution {| tx_idx := 1; tx_incarnation := 0 |})).
Proof.
  split; [by vm_compute|].
  apply (scheduler_indexes_in_bounds 3 2 _ 1); [done|apply run_reachable|by vm_compute].
Defined.

(** C15: the [debug_assert]s of [add_dependency], [finish_execution] and
    [set_ready_status] hold at every call: the transaction of a held execution
    task is [Executing] with the incarnation of the task, its dependents are
    distinct and [Aborting], and the transaction of a won abort is [Aborting]. *)
Theorem scheduler_asserts_hold (n level : nat) (c : config) (w : nat) (x : worker)
  (Hn : (Z.of_nat n < 2 ^ 64)%Z) (Hr : reachable n level c) (Hw : workers c !! w = Some x) :
  asserts_hold (sched c) x.
Proof. eapply inv_asserts; [by eapply reachable_inv|done]. Qed.

Lemma scheduler_asserts_hold_witness :
  asserts_hold (sched (run 1 3 2 [0;1])) (HasTask (Execution {| tx_idx := 1; tx_incarnation := 0 |})).
Proof.
  apply (scheduler_asserts_hold 3 2 _ 1); [done|apply run_reachable|by vm_compute].
Defined.

(** [num_validated] is at all times the number of transactions whose status
    is [Validated]; it neither overflows nor underflows its machine word. *)
Theorem num_validated_exact (n level : nat) (c : config)
  (Hn : (Z.of_nat n < 2 ^ 64)%Z) (Hr : reachable n level c) :
  num_validated (sched c) =
    Z.of_nat (length (filter (fun tx => status tx = Validated) (transactions_status (sched c)))) /\
  (0 <= num_validated (sched c) <= Z.of_nat (block_size (sched c)))%Z.
Proof.
  pose proof (reachable_inv _ _ _ Hn Hr) as Hi.
  assert (forall l, sum_map (is_st Validated) l = length (filter (fun tx => status tx = Validated) l)) as H.
  { induction l as [|tx l IH]; [done|]. simpl. rewrite IH. unfold is_st.
    destruct (decide (status tx = Validated)) as [E|E].
    - by rewrite bool_decide_true, filter_cons_True by done.
    - by rewrite bool_decide_false, filter_cons_False by done. }
  rewrite (inv_num _ Hi), H. split; [done|]. destruct (inv_sized _ Hi) as [<- _].
  pose proof (length_filter (fun tx => status tx = Validated) (transactions_status (sched c))). lia.
Qed.

(** The first of two transactions is validated, the second being checked. *)
Definition half_done : config := run 1 2 2 [0;0;1;0;1;0;0;0;1].

Lemma num_validated_exact_witness :
  num_validated (sched half_done) = 1%Z /\
  (num_validated (sched half_done) =
    Z.of_nat (length (filter (fun tx => status tx = Validated) (transactions_status (sched half_done)))) /\
   (0 <= num_validated (sched half_done) <= Z.of_nat (block_size (sched half_done)))%Z).
Proof.
  split; [by vm_compute|].
  apply (num_validated_exact 2 2); [done|apply run_reachable].
Defined.

(** Every version (transaction and incarnation) is handed out for execution
    at most once, over the whole run. *)
Theorem version_dispatched_once (n level : nat) (c : config)
  (Hn : (Z.of_nat n < 2 ^ 64)%Z) (Hr : reachable n level c) : NoDup (dispatched c).
Proof. apply (inv_dispatched _ (reachable_inv _ _ _ Hn Hr)). Qed.

Lemma version_dispatched_once_witness :
  length (dispatched (run 1 3 2 [0;1;0;0;0;0])) = 3 /\ NoDup (dispatched (run 1 3 2 [0;1;0;0;0;0])).
Proof.
  split; [by vm_compute|]. apply (version_dispatched_once 3 2); [done|apply run_reachable].
Defined.

(** At most one failing validation per version leads to a successful abort,
    as the comment above [try_validation_abort] promises. *)
Theorem version_aborted_once (n level : nat) (c : config)
  (Hn : (Z.of_nat n < 2 ^ 64)%Z) (Hr : reachable n level c) : NoDup (abort_log c).
Proof. apply (inv_aborts _ (reachable_inv _ _ _ Hn Hr)). Qed.

(** One transaction whose first validation fails: a reachable configuration with
    an entry in the abort log. *)
Definition failed_once : config :=
  let c := run 0 1 1 [0;0] in
  match try_validation_abort (sched c) v00 with
  | Some (won, s) => moved c s 0 (Checked v00 won) None (if won then [v00] else [])
  | None => c
  end.

Lemma failed_once_reachable : reachable 1 1 failed_once.
Proof.
  eapply rtc_r; [apply (run_reachable 0 1 1 [0;0])|].
  refine (step_validate_fail _ 0 v00 {| incarnation := 0; status := Executed |} true _ _ _ _);
    by vm_compute.
Qed.

Lemma version_aborted_once_witness : abort_log failed_once = [v00] /\ NoDup (abort_log failed_once).
Proof.
  split; [by vm_compute|]. apply (version_aborted_once 1 1); [done|apply failed_once_reachable].
Defined.

(** In every step every transaction moves only along the edges of the life
    cycle drawn above [IncarnationStatus]: the incarnation grows by one exactly
    when an aborting transaction becomes ready again and is constant otherwise. *)
Theorem statuses_follow_lifecycle (n level : nat) (c c' : config) (i : TxIdx) (tx tx' : TxStatus)
  (Hn : (Z.of_nat n < 2 ^ 64)%Z) (Hr : reachable n level c) (Hs : step c c')
  (Htx : transactions_status (sched c) !! i = Some tx)
  (Htx' : transactions_status (sched c') !! i = Some tx') :
  rtc lifecycle tx tx'.
Proof.
  destruct (step_change _ _ Hs (reachable_inv _ _ _ Hn Hr)) as (w & x & x' & Hc).
  destruct (ch_tx _ _ _ _ _ Hc _ _ Htx') as (tx0 & Htx0 & Ht). simplify_eq.
  apply (tc_life _ _ _ _ _ _ _ _ Ht).
Qed.

Lemma statuses_follow_lifecycle_witness :
  rtc lifecycle {| incarnation := 0; status := ReadyToExecute |}
    {| incarnation := 0; status := Executing |}.
Proof.
  apply (statuses_follow_lifecycle 3 2 (init 3 2) (run 1 3 2 [0]) 0);
    [done|apply rtc_refl| |done|by vm_compute].
  apply (drive_step 1 0). by vm_compute.
Defined.

(** C20: no work is lost: a transaction that is ready lies at or above the
    execution counter, and one that is executed but not validated lies at or
    above the validation counter or is in the hands of a worker that validates
    it (or that abandoned it after an abort). *)
Theorem no_work_lost (n level : nat) (c : config) (i : TxIdx) (tx : TxStatus)
  (Hn : (Z.of_nat n < 2 ^ 64)%Z) (Hr : reachable n level c)
  (Htx : transactions_status (sched c) !! i = Some tx) :
  (status tx = ReadyToExecute -> execution_idx (sched c) <= i) /\
  (status tx = Executed -> validation_idx (sched c) <= i \/
     exists w x, workers c !! w = Some x /\ validates i x) /\
  (status tx = Executing -> exists w x v, workers c !! w = Some x /\
     held x = Some (Execution v) /\ tx_idx v = i) /\
  (status tx = Aborting ->
     (exists w v, workers c !! w = Some (Checked v true) /\ tx_idx v = i) \/
     (exists b deps, b < i /\ transactions_dependents (sched c) !! b = Some deps /\ i ∈ deps)).
Proof.
  pose proof (reachable_inv _ _ _ Hn Hr) as Hi. split; [|split; [|split]].
  - by apply (inv_ready _ Hi).
  - by apply (inv_pending _ Hi).
  - intros Hst. pose proof (inv_exec _ Hi _ _ Htx) as He. st_simpl.
    destruct (sum_map_pos (exec_tok i) (workers c)) as (w & x & Hw & Hx); [lia|].
    exists w, x. unfold exec_tok in Hx. destruct (held x) as [[v|v]|]; try lia.
    exists v. destruct (Nat.eqb_spec (tx_idx v) i); [done|cbn in Hx; lia].
  - intros Hst. pose proof (inv_abort _ Hi _ _ Htx) as Hab. st_simpl.
    destruct (decide (deps_tok i (sched c) = 0)) as [Hz|Hz].
    + left. destruct (sum_map_pos (abort_tok i) (workers c)) as (w & x & Hw & Hx); [lia|].
      destruct x as [| |v [|]|]; cbn in Hx; try lia. exists w, v. split; [done|].
      destruct (Nat.eqb_spec (tx_idx v) i); [done|cbn in Hx; lia].
    + right. destruct (sum_map_pos (dep_tok i) (transactions_dependents (sched c)))
        as (b & deps & Hb & Hd); [unfold deps_tok in Hz; lia|].
      assert (i ∈ deps) as Hin.
      { destruct (decide (i ∈ deps)); [done|]. rewrite dep_tok_notin in Hd by done. lia. }
      exists b, deps. destruct (inv_deps _ Hi _ _ _ Hb Hin) as [? _]. split; [lia|done].
Qed.

Lemma no_work_lost_witness :
  (Executed = ReadyToExecute -> execution_idx (sched (run 0 1 1 [0;0])) <= 0) /\
  (Executed = Executed -> validation_idx (sched (run 0 1 1 [0;0])) <= 0 \/
     exists w x, workers (run 0 1 1 [0;0]) !! w = Some x /\ validates 0 x) /\
  (Executed = Executing -> exists w x v, workers (run 0 1 1 [0;0]) !! w = Some x /\
     held x = Some (Execution v) /\ tx_idx v = 0) /\
  (Executed = Aborting ->
     (exists w v, workers (run 0 1 1 [0;0]) !! w = Some (Checked v true) /\ tx_idx v = 0) \/
     (exists b deps, b < 0 /\
        transactions_dependents (sched (run 0 1 1 [0;0])) !! b = Some deps /\ 0 ∈ deps)).
Proof.
  apply (no_work_lost 1 1 _ 0 {| incarnation := 0; status := Executed |});
    [done|apply run_reachable|by vm_compute].
Defined.
