(* ===== verification/Platform.v ===== *)
(** * Platform: what the engine takes from its dependencies

    The types and functions of revm, alloy and the hash crates that the sources
    call, as one interface.  Nothing of them is defined here: [Platform] is the
    interface, a plain instance of which the witnesses supply; the records below
    list the fields of revm's types that the sources read or write.

    An execution of a transaction by the EVM is a tree of database requests
    ([evm_run]): the EVM asks for an account, a code, a slot or a block hash and
    goes on with the answer.  The same tree runs against the database of vm.rs
    and against a plain storage. *)

From stdpp Require Export strings.
From S2P Require Import Prelude Types.
#[local] Open Scope Z_scope.

(** ** Bytecode, seen through its public constructors *)

Inductive bytecode_view :=
| ViewLegacyRaw
| ViewLegacyAnalyzed (bytecode : list Z) (original_len : nat) (jump_table : list bool)
| ViewEip7702 (delegated_address : Address) (version : Z)
| ViewEof (raw : list Z).

Class Platform := {
  (* rustc_hash, alloy_primitives *)
  hash_deterministic : MemoryLocation -> MemoryLocationHash;
  hash_address : Address -> MemoryLocationHash;
  keccak256_of_number : Z -> B256;
  KECCAK_EMPTY : B256;
  (* revm::primitives::Bytecode *)
  Bytecode : Type;
  Bytecode_default : Bytecode;
  new_analyzed : list Z -> nat -> list bool -> Bytecode;
  new_eip7702 : Address -> Z -> list Z -> Bytecode;
  EIP7702_MAGIC_BYTES : list Z;
  EofDecodeError : Type;
  eof_decode : list Z -> outcome EofDecodeError Bytecode;
  to_analysed : Bytecode -> Bytecode;
  view : Bytecode -> bytecode_view;
  (* revm::primitives::TxEnv, from the blob hashes *)
  total_blob_gas_of : list B256 -> Z;
  (* of the optimism part of revm *)
  L1BlockInfo : Type;
}.

(** ** Transactions and blocks *)

Inductive TxKind :=
| Create
| Call (to : Address).

(** [TxKind::to]. *)
Definition TxKind_to (k : TxKind) : option Address :=
  match k with Create => None | Call to => Some to end.

(** An EIP-7702 authorization, signed. *)
Record SignedAuthorization := mkSignedAuthorization {
  auth_chain_id : U256;
  auth_address : Address;
  auth_nonce : Z;
  auth_y_parity : Z;
  auth_r : U256;
  auth_s : U256;
}.

Record TxEnv := mkTxEnv {
  caller : Address;
  gas_limit : Z;
  gas_price : U256;
  gas_priority_fee : option U256;
  transact_to : TxKind;
  value : U256;
  tx_data : list Z;
  tx_nonce : option Z;
  tx_chain_id : option Z;
  access_list : list (Address * list B256);
  blob_hashes : list B256;
  max_fee_per_blob_gas : option U256;
  authorization_list : option (list SignedAuthorization);
  (* [optimism] *)
  source_hash : option B256;
  mint : option Z;
  is_system_transaction : option bool;
  enveloped_tx : option (list Z);
}.

(** [get_total_blob_gas]. *)
Definition total_blob_gas {P : Platform} (tx : TxEnv) : Z := total_blob_gas_of (blob_hashes tx).

Record BlobExcessGasAndPrice := mkBlobExcessGasAndPrice {
  blob_excess : Z;
  blob_price : Z;
}.

Record BlockEnv := mkBlockEnv {
  be_number : U256;
  coinbase : Address;
  be_timestamp : U256;
  be_gas_limit : U256;
  basefee : U256;
  be_difficulty : U256;
  be_prevrandao : option B256;
  blob_excess_gas_and_price : option BlobExcessGasAndPrice;
}.

Section Evm.
Context {P : Platform}.

(** ** Accounts *)

Record AccountInfo := mkAccountInfo {
  ai_balance : U256;
  ai_nonce : Z;
  ai_code_hash : B256;
  ai_code : option Bytecode;
}.

Definition is_empty_code_hash (i : AccountInfo) : bool := bool_decide (ai_code_hash i = KECCAK_EMPTY).

(** An account of the state that the EVM returns: its flags and its slots with
    their original and present values. *)
Record Account := mkAccount {
  info : AccountInfo;
  is_selfdestructed : bool;
  is_touched : bool;
  is_empty : bool;
  slots : list (U256 * (U256 * U256));
}.

(** [changed_storage_slots]. *)
Definition changed_storage_slots (a : Account) : list (U256 * U256) :=
  omap (fun '(k, (original, present)) => if decide (original = present) then None else Some (k, present))
    (slots a).

Record ExecutionResult := mkExecutionResult {
  is_success : bool;
  gas_used : Z;
  logs : list (list Z);
}.

Record ResultAndState := mkResultAndState {
  result : ExecutionResult;
  state : list (Address * Account);
}.

(** The errors of a transaction that the sources tell apart. *)
Inductive InvalidTransaction :=
| LackOfFundForMaxFee (fee balance : U256)
| NonceTooHigh
| OtherInvalid.

(** ** Runs of the EVM *)

Inductive evm_run (R : Type) : Type :=
| EvmDone (r : R)
| EvmBasic (a : Address) (k : option AccountInfo -> evm_run R)
| EvmCodeByHash (h : B256) (k : Bytecode -> evm_run R)
| EvmStorage (a : Address) (slot : U256) (k : U256 -> evm_run R)
| EvmBlockHash (n : Z) (k : B256 -> evm_run R).

End Evm.
Arguments EvmDone {P R} r.
Arguments EvmBasic {P R} a k.
Arguments EvmCodeByHash {P R} h k.
Arguments EvmStorage {P R} a slot k.
Arguments EvmBlockHash {P R} n k.

(** ** A concrete platform

    For the witnesses: locations are hashed injectively, bytecodes are their own
    views, code that starts with 0xef is EOF, and nothing else is modelled. *)
#[export] Instance MemoryLocation_countable : Countable MemoryLocation.
Proof.
  refine (inj_countable'
    (fun l => match l with Basic a => inl a | CodeHash a => inr (inl a) | StorageLoc a s => inr (inr (a, s)) end)
    (fun x => match x with inl a => Basic a | inr (inl a) => CodeHash a | inr (inr (a, s)) => StorageLoc a s end) _).
  by intros [].
Defined.

Definition demo : Platform := {|
  hash_deterministic l := Zpos (encode l);
  hash_address a := Z.opp (Z.abs a);
  keccak256_of_number n := n;
  KECCAK_EMPTY := 0;
  Bytecode := bytecode_view;
  Bytecode_default := ViewLegacyAnalyzed [] 0 [];
  new_analyzed b n j := ViewLegacyAnalyzed b n j;
  new_eip7702 a v _ := ViewEip7702 a v;
  EIP7702_MAGIC_BYTES := [239; 1];
  EofDecodeError := unit;
  eof_decode raw := match raw with 239 :: _ => Ok (ViewEof raw) | _ => Err tt end;
  to_analysed _ := ViewLegacyAnalyzed [] 0 [];
  view b := b;
  total_blob_gas_of hashes := 131072 * Z.of_nat (length hashes);
  L1BlockInfo := Z;
|}.

(** A block environment with this beneficiary and base fee. *)
Definition demo_block_env (beneficiary : Address) (fee : U256) : BlockEnv :=
  mkBlockEnv 1 beneficiary 1 30000000 fee 0 None None.
