(* ===== verification/Compat.v ===== *)
(** * Compat: from a block header to the block environment of the EVM (compat.rs)

    [Header] is alloy's, the fields that the sources read.  How revm prices the
    excess blob gas is its own affair, and so is the order of its hard forks: both
    are in the class [Revm], with the documented order as [RevmLaws]. *)

From S2P Require Import Prelude Types Platform.
#[local] Open Scope Z_scope.

Record Header := mkHeader {
  hd_number : Z;
  beneficiary : Address;
  hd_timestamp : Z;
  hd_gas_limit : Z;
  hd_gas_used : Z;
  base_fee_per_gas : option Z;
  difficulty : U256;
  mix_hash : B256;
  excess_blob_gas : option Z;
}.

(** ** Hard forks

    revm's [SpecId] is an enumeration that derives its order from the discriminants,
    [spec_index] here. *)
Class Revm := {
  SpecId : Type;
  spec_index : SpecId -> Z;
  FRONTIER : SpecId; HOMESTEAD : SpecId; TANGERINE : SpecId; SPURIOUS_DRAGON : SpecId; BYZANTIUM : SpecId;
  PETERSBURG : SpecId; ISTANBUL : SpecId; BERLIN : SpecId; LONDON : SpecId; MERGE : SpecId;
  BEDROCK : SpecId; REGOLITH : SpecId; SHANGHAI : SpecId; CANYON : SpecId; CANCUN : SpecId; ECOTONE : SpecId;
  FJORD : SpecId; PRAGUE : SpecId;
  (* [BlobExcessGasAndPrice::new]: the price of blob gas, before and from Prague *)
  blob_gasprice : Z -> bool -> Z;
}.

(** The order that revm documents. *)
Class RevmLaws (R : Revm) : Prop := {
  spec_index_inj : forall a b, spec_index a = spec_index b -> a = b;
  forks_in_order :
    spec_index FRONTIER < spec_index HOMESTEAD < spec_index TANGERINE /\
    spec_index TANGERINE < spec_index SPURIOUS_DRAGON < spec_index BYZANTIUM /\
    spec_index BYZANTIUM < spec_index PETERSBURG < spec_index ISTANBUL /\
    spec_index ISTANBUL < spec_index BERLIN < spec_index LONDON /\
    spec_index LONDON < spec_index MERGE < spec_index BEDROCK /\
    spec_index BEDROCK < spec_index REGOLITH < spec_index SHANGHAI /\
    spec_index SHANGHAI < spec_index CANYON < spec_index CANCUN /\
    spec_index CANCUN < spec_index ECOTONE < spec_index FJORD /\
    spec_index FJORD < spec_index PRAGUE;
}.

Section Specs.
Context {R : Revm}.

(** [a >= b] and [a < b] on spec ids, and [spec_id.is_enabled_in(other)]. *)
Definition spec_ge (a b : SpecId) : bool := spec_index b <=? spec_index a.
Definition is_enabled_in (spec_id other : SpecId) : bool := spec_ge spec_id other.

Definition get_block_env (header : Header) (spec_id : SpecId) : BlockEnv := {|
  be_number := hd_number header;
  coinbase := beneficiary header;
  be_timestamp := hd_timestamp header;
  be_gas_limit := hd_gas_limit header;
  basefee := default 0 (base_fee_per_gas header);
  be_difficulty := difficulty header;
  be_prevrandao := Some (mix_hash header);
  blob_excess_gas_and_price := (fun excess =>
    mkBlobExcessGasAndPrice excess (blob_gasprice excess (is_enabled_in spec_id PRAGUE))) <$> excess_blob_gas header;
|}.
End Specs.

(** A plain instance: the discriminants themselves. *)
Definition demo_revm : Revm := {|
  SpecId := Z; spec_index z := z;
  FRONTIER := 0; HOMESTEAD := 2; TANGERINE := 4; SPURIOUS_DRAGON := 5; BYZANTIUM := 6; PETERSBURG := 8; ISTANBUL := 9;
  BERLIN := 11; LONDON := 12; MERGE := 15; BEDROCK := 16; REGOLITH := 17; SHANGHAI := 18; CANYON := 19; CANCUN := 20;
  ECOTONE := 21; FJORD := 22; PRAGUE := 25;
  blob_gasprice excess _ := excess;
|}.

#[export] Instance demo_revm_laws : RevmLaws demo_revm.
Proof. by split. Qed.
