(* ===== verification/Storage.v ===== *)
(** * Storage: chain state for the engine (storage.rs, storage/in_memory.rs)

    The [Storage] trait as a record of functions, the EVM account and code types
    with their conversions from and to revm's, [StorageWrapper] (the database of
    the sequential executor) and [InMemoryStorage]. *)

From S2P Require Import Prelude Types Platform.
#[local] Open Scope Z_scope.

(** ** Code *)

Record LegacyCode := mkLegacyCode {
  bytecode : list Z;
  original_len : nat;
  jump_table : list bool;
}.

Record Eip7702Code := mkEip7702Code {
  delegated_address : Address;
  version : Z;
}.

Inductive EvmCode :=
| Legacy (code : LegacyCode)
| Eip7702 (code : Eip7702Code)
| Eof (raw : list Z).

#[export] Instance LegacyCode_eq_dec : EqDecision LegacyCode.
Proof. solve_decision. Defined.
#[export] Instance Eip7702Code_eq_dec : EqDecision Eip7702Code.
Proof. solve_decision. Defined.
#[export] Instance EvmCode_eq_dec : EqDecision EvmCode.
Proof. solve_decision. Defined.

Section Storage.
Context {P : Platform}.

Inductive BytecodeConversionError :=
| EofDecodingError (e : EofDecodeError).

(** [TryFrom<EvmCode> for Bytecode]. *)
Definition Bytecode_try_from (code : EvmCode) : outcome BytecodeConversionError Bytecode :=
  match code with
  | Legacy code => Ok (new_analyzed (bytecode code) (original_len code) (jump_table code))
  | Eip7702 code =>
      let raw := EIP7702_MAGIC_BYTES ++ [version code] ++ to_be 20 (delegated_address code) in
      Ok (new_eip7702 (delegated_address code) (version code) raw)
  | Eof code => map_err EofDecodingError (eof_decode code)
  end.

(** [From<Bytecode> for EvmCode].  The raw arm calls itself on the analysed
    code; [fuel] bounds that recursion. *)
Fixpoint EvmCode_from (fuel : nat) (code : Bytecode) : option EvmCode :=
  match view code with
  | ViewLegacyRaw =>
      match fuel with
      | O => None
      | S fuel => EvmCode_from fuel (to_analysed code)
      end
  | ViewLegacyAnalyzed b n j => Some (Legacy (mkLegacyCode b n j))
  | ViewEip7702 a v => Some (Eip7702 (mkEip7702Code a v))
  | ViewEof raw => Some (Eof raw)
  end.

(** ** Accounts *)

Record EvmAccount := mkEvmAccount {
  ea_balance : U256;
  ea_nonce : Z;
  ea_code_hash : option B256;
  ea_code : option EvmCode;
  ea_storage : gmap U256 U256;
}.

(** [EvmAccount::default]. *)
Definition EvmAccount_default : EvmAccount := mkEvmAccount 0 0 None None ∅.

(** [From<Account> for EvmAccount]; [unwrap] of a missing code panics. *)
Definition EvmAccount_from (a : Account) : outcome Empty_set EvmAccount :=
  let has_code := negb (is_empty_code_hash (info a)) in
  code ← (if has_code then
    match ai_code (info a) with
    | Some c => match EvmCode_from 1 c with Some c => Ok (Some c) | None => Panic end
    | None => Panic
    end
  else Ok None);
  Ok (mkEvmAccount (ai_balance (info a)) (ai_nonce (info a))
    (if has_code then Some (ai_code_hash (info a)) else None) code
    (list_to_map (reverse ((fun '(k, (_, present)) => (k, present)) <$> slots a)))).

(** ** The [Storage] trait *)

Record Storage (E : Type) := mkStorage {
  st_basic : Address -> outcome E (option AccountBasic);
  st_code_hash : Address -> outcome E (option B256);
  st_code_by_hash : B256 -> outcome E (option EvmCode);
  st_has_storage : Address -> outcome E bool;
  st_storage : Address -> U256 -> outcome E U256;
  st_block_hash : Z -> outcome E B256;
}.
Arguments st_basic {E}.
Arguments st_code_hash {E}.
Arguments st_code_by_hash {E}.
Arguments st_has_storage {E}.
Arguments st_storage {E}.
Arguments st_block_hash {E}.
Arguments mkStorage {E}.

(** ** [StorageWrapper] *)

Inductive StorageWrapperError (E : Type) :=
| WrapStorageError (e : E)
| WrapInvalidBytecode (e : BytecodeConversionError).
Arguments WrapStorageError {E}.
Arguments WrapInvalidBytecode {E}.

(** [Option<EvmCode>] to [Option<Bytecode>], transposed. *)
Definition convert_code {E} (c : option EvmCode)
    : outcome (StorageWrapperError E) (option Bytecode) :=
  match c with
  | Some c => b ← map_err WrapInvalidBytecode (Bytecode_try_from c); Ok (Some b)
  | None => Ok None
  end.

Definition basic_ref {E} (s : Storage E) (a : Address)
    : outcome (StorageWrapperError E) (option AccountInfo) :=
  basic ← map_err WrapStorageError (st_basic s a);
  match basic with
  | None => Ok None
  | Some basic =>
      code_hash ← map_err WrapStorageError (st_code_hash s a);
      code ← match code_hash with
        | Some hash => c ← map_err WrapStorageError (st_code_by_hash s hash); convert_code c
        | None => Ok None
        end;
      Ok (Some (mkAccountInfo (balance basic) (nonce basic) (default KECCAK_EMPTY code_hash) code))
  end.

Definition code_by_hash_ref {E} (s : Storage E) (h : B256)
    : outcome (StorageWrapperError E) Bytecode :=
  c ← map_err WrapStorageError (st_code_by_hash s h);
  b ← convert_code c;
  Ok (default Bytecode_default b).

Definition storage_ref {E} (s : Storage E) (a : Address) (i : U256)
    : outcome (StorageWrapperError E) U256 := map_err WrapStorageError (st_storage s a i).

Definition block_hash_ref {E} (s : Storage E) (n : Z)
    : outcome (StorageWrapperError E) B256 := map_err WrapStorageError (st_block_hash s n).

(** ** [InMemoryStorage] *)

Record InMemoryStorage := mkInMemoryStorage {
  accounts : gmap Address EvmAccount;
  bytecodes : gmap B256 EvmCode;
  block_hashes : gmap Z B256;
}.

(** Its implementation of the trait, which never fails. *)
Definition InMemory_storage (m : InMemoryStorage) : Storage Empty_set := mkStorage
  (fun a => Ok (account ← accounts m !! a; Some (mkAccountBasic (ea_balance account) (ea_nonce account))))
  (fun a => Ok (account ← accounts m !! a; ea_code_hash account))
  (fun h => Ok (bytecodes m !! h))
  (fun a => Ok (match accounts m !! a with
    | Some account => negb (bool_decide (ea_storage account = ∅))
    | None => false end))
  (fun a i => Ok (default 0 (account ← accounts m !! a; ea_storage account !! i)))
  (fun n => Ok (default (keccak256_of_number n) (block_hashes m !! n))).

End Storage.
Arguments st_basic {E}.
Arguments st_code_hash {E}.
Arguments st_code_by_hash {E}.
Arguments st_has_storage {E}.
Arguments st_storage {E}.
Arguments st_block_hash {E}.
Arguments mkStorage {E}.
