(* ===== verification/MvMemory.v ===== *)
(** * MvMemory: the multi-version memory (crates/pevm/src/mv_memory.rs)

    [MvMemory] is the struct of the same name.  [data] maps a location hash to
    the entries that the transactions of the block have written there (a
    [BTreeMap] keyed by transaction index); [last_locations] keeps for every
    transaction its last read set and the locations it last wrote.  The methods
    are state-passing functions; [None] is the undefined behaviour of
    [index_mutex!] past the end of [last_locations].

    The theorems are in MvMemorySpec.v; this file has the definitions and the
    lemmas that characterise each of them entry by entry. *)

From S2P Require Import Prelude Types.
#[local] Open Scope nat_scope.

(** ** Sorted maps

    [range_desc m i] is what repeated [next_back] on [m.range(..i)] yields: the
    entries below [i], the closest first. *)
Definition range_desc {E} (m : gmap nat E) (i : nat) : list (nat * E) :=
  omap (fun k => e ← m !! k; Some (k, e)) (rev (seq 0 i)).

(** [Vec::swap_remove] at an index in bounds: the last element takes the place
    of the removed one. *)
Definition swap_remove {A} (i : nat) (l : list A) : list A :=
  match last l with
  | Some x => take (length l - 1) (<[i := x]> l)
  | None => l
  end.

(** ** State *)

Record LastLocations := mkLastLocations {
  read : ReadSet;
  write : list MemoryLocationHash;
}.

Definition LastLocations_default : LastLocations := {| read := ∅; write := [] |}.

Abbreviation VersionedData := (gmap MemoryLocationHash (gmap TxIdx MemoryEntry)).

Section MvMemory.
Context {Bytecode : Type}.

Record MvMemory := mkMvMemory {
  data : VersionedData;
  last_locations : list LastLocations;
  lazy_addresses : gset Address;
  new_bytecodes : gmap B256 Bytecode;
}.

(** [MvMemory::new]: each estimated location holds an [Estimate] of each of its
    transactions; a location given twice keeps the last list. *)
Definition estimates (idxs : list TxIdx) : gmap TxIdx MemoryEntry :=
  list_to_map ((fun i => (i, Estimate)) <$> idxs).

Definition MvMemory_new (n : nat) (estimated : list (MemoryLocationHash * list TxIdx))
    (lazy : list Address) : MvMemory := {|
  data := foldl (fun d e => <[e.1 := estimates e.2]> d) ∅ estimated;
  last_locations := replicate n LastLocations_default;
  lazy_addresses := list_to_set lazy;
  new_bytecodes := ∅;
|}.

Definition add_lazy_addresses (mv : MvMemory) (addrs : list Address) : MvMemory :=
  mkMvMemory (data mv) (last_locations mv) (lazy_addresses mv ∪ list_to_set addrs)
    (new_bytecodes mv).

(** [std::mem::take] of the lazy addresses. *)
Definition consume_lazy_addresses (mv : MvMemory) : gset Address * MvMemory :=
  (lazy_addresses mv, mkMvMemory (data mv) (last_locations mv) ∅ (new_bytecodes mv)).

End MvMemory.
Arguments MvMemory : clear implicits.

(** ** [record] *)

(** The [get_mut(prev_location)] block of the first loop. *)
Definition remove_entry (i : TxIdx) (loc : MemoryLocationHash) (d : VersionedData) : VersionedData :=
  match d !! loc with
  | Some written => <[loc := delete i written]> d
  | None => d
  end.

(** "Remove old locations that aren't written to anymore": the [while] loop over
    [last_locations.write] from position [idx]. *)
Fixpoint remove_stale (fuel : nat) (i : TxIdx) (locs : list MemoryLocationHash) (idx : nat)
    (old : list MemoryLocationHash) (d : VersionedData) : list MemoryLocationHash * VersionedData :=
  match fuel with
  | O => (old, d)
  | S fuel =>
      match old !! idx with
      | None => (old, d)
      | Some prev =>
          if decide (Forall (fun l => l <> prev) locs)
          then remove_stale fuel i locs idx (swap_remove idx old) (remove_entry i prev d)
          else remove_stale fuel i locs (S idx) old d
      end
  end.

(** [self.data.entry(location).or_default().insert(..)]. *)
Definition insert_entry (loc : MemoryLocationHash) (i : TxIdx) (e : MemoryEntry) (d : VersionedData)
    : VersionedData :=
  <[loc := <[i := e]> (default ∅ (d !! loc))]> d.

(** "Register new writes": the [for] loop over the write set. *)
Fixpoint register_writes (v : TxVersion) (ws : WriteSet) (wrote_new : bool)
    (old : list MemoryLocationHash) (d : VersionedData)
    : bool * list MemoryLocationHash * VersionedData :=
  match ws with
  | [] => (wrote_new, old, d)
  | (loc, value) :: ws =>
      let d := insert_entry loc (tx_idx v) (Data (tx_incarnation v) value) d in
      if decide (loc ∈ old) then register_writes v ws wrote_new old d
      else register_writes v ws true (old ++ [loc]) d
  end.

Definition record {Bytecode} (mv : MvMemory Bytecode) (v : TxVersion) (read_set : ReadSet)
    (write_set : WriteSet) : option (bool * MvMemory Bytecode) :=
  ll ← last_locations mv !! tx_idx v;
  let '(old, d) :=
    remove_stale (length (write ll)) (tx_idx v) write_set.*1 0 (write ll) (data mv) in
  let '(wrote_new, locs, d) := register_writes v write_set false old d in
  Some (wrote_new,
    mkMvMemory d
      (<[tx_idx v := {| read := read_set; write := locs |}]> (last_locations mv))
      (lazy_addresses mv) (new_bytecodes mv)).

(** ** [validate_read_locations] *)

(** The inner loop over the prior origins, [entries] being what the iterator
    over the location still has to give. *)
Fixpoint validate_origins (entries : list (TxIdx * MemoryEntry)) (origins : ReadOrigins) : bool :=
  match origins with
  | [] => true
  | FromMvMemory prior :: origins =>
      match entries with
      | (closest, Data inc _) :: entries =>
          if negb (closest =? tx_idx prior) || negb (tx_incarnation prior =? inc) then false
          else validate_origins entries origins
      | _ => false
      end
  | FromStorage :: origins =>
      match entries with
      | _ :: _ => false
      | [] => validate_origins [] origins
      end
  end.

Definition validate_location {Bytecode} (mv : MvMemory Bytecode) (i : TxIdx)
    (loc : MemoryLocationHash) (origins : ReadOrigins) : bool :=
  match data mv !! loc with
  | Some written => validate_origins (range_desc written i) origins
  | None => negb (negb (length origins =? 1) || negb (bool_decide (last origins = Some FromStorage)))
  end.

(** The loop over the read set, whose order does not matter. *)
Definition validate_read_locations {Bytecode} (mv : MvMemory Bytecode) (i : TxIdx) : option bool :=
  ll ← last_locations mv !! i;
  Some (forallb (fun e => validate_location mv i e.1 e.2) (map_to_list (read ll))).

(** ** [convert_writes_to_estimates] *)

Definition estimate_entry (i : TxIdx) (d : VersionedData) (loc : MemoryLocationHash)
    : VersionedData :=
  match d !! loc with
  | Some written => <[loc := <[i := Estimate]> written]> d
  | None => d
  end.

Definition convert_writes_to_estimates {Bytecode} (mv : MvMemory Bytecode) (i : TxIdx)
    : option (MvMemory Bytecode) :=
  ll ← last_locations mv !! i;
  Some (mkMvMemory (foldl (estimate_entry i) (data mv) (write ll)) (last_locations mv)
    (lazy_addresses mv) (new_bytecodes mv)).

(** ** Entries

    What the multi-version memory holds for transaction [i] at location [loc]:
    the view in which the operations are specified. *)
Definition entry (d : VersionedData) (loc : MemoryLocationHash) (i : TxIdx) : option MemoryEntry :=
  m ← d !! loc; m !! i.

Lemma entry_insert loc i e d loc' j :
  entry (insert_entry loc i e d) loc' j =
  if decide (loc' = loc /\ j = i) then Some e else entry d loc' j.
Proof.
  unfold entry, insert_entry. destruct (decide (loc' = loc)) as [->|Hl].
  - rewrite lookup_insert_eq. cbn. case_decide as H.
    + destruct H as [_ ->]. by rewrite lookup_insert_eq.
    + rewrite lookup_insert_ne by naive_solver. by destruct (d !! loc).
  - rewrite lookup_insert_ne by done. by rewrite decide_False by naive_solver.
Qed.

Lemma entry_remove i loc d loc' j :
  entry (remove_entry i loc d) loc' j =
  if decide (loc' = loc /\ j = i) then None else entry d loc' j.
Proof.
  unfold entry, remove_entry. destruct (d !! loc) as [m|] eqn:Hm.
  - destruct (decide (loc' = loc)) as [->|Hl].
    + rewrite lookup_insert_eq, Hm. cbn. case_decide as H.
      * destruct H as [_ ->]. by rewrite lookup_delete_eq.
      * by rewrite lookup_delete_ne by naive_solver.
    + rewrite lookup_insert_ne by done. by rewrite decide_False by naive_solver.
  - case_decide as H; [|done]. destruct H as [-> ->]. by rewrite Hm.
Qed.

Lemma entry_estimate i d loc loc' j :
  entry (estimate_entry i d loc) loc' j =
  if decide (loc' = loc /\ j = i /\ is_Some (d !! loc)) then Some Estimate else entry d loc' j.
Proof.
  unfold entry, estimate_entry. destruct (d !! loc) as [m|] eqn:Hm.
  - destruct (decide (loc' = loc)) as [->|Hl].
    + rewrite lookup_insert_eq, Hm. cbn. case_decide as H.
      * destruct H as (_ & -> & _). by rewrite lookup_insert_eq.
      * rewrite lookup_insert_ne; [done|]. intros ->. naive_solver.
    + rewrite lookup_insert_ne by done. by rewrite decide_False by naive_solver.
  - rewrite decide_False; [done|]. intros (_ & _ & [? [=]]).
Qed.

(** ** [swap_remove] *)

Lemma swap_remove_perm {A} (l : list A) i x : l !! i = Some x -> x :: swap_remove i l ≡ₚ l.
Proof.
  intros Hx. unfold swap_remove. destruct l as [|z l _] using rev_ind; [done|].
  rewrite last_snoc, length_app. cbn. replace (length l + 1 - 1) with (length l) by lia.
  apply lookup_lt_Some in Hx as Hlt. rewrite length_app in Hlt. cbn in Hlt.
  destruct (decide (i = length l)) as [->|Hne].
  - rewrite list_lookup_middle in Hx by done. injection Hx as ->.
    rewrite insert_app_r_alt by lia. rewrite take_app_le, take_ge by lia.
    by rewrite Permutation_cons_append.
  - rewrite lookup_app_l in Hx by lia. rewrite insert_app_l by lia.
    rewrite take_app_le by (rewrite length_insert; lia).
    rewrite take_ge by (rewrite length_insert; lia).
    rewrite insert_take_drop by lia. rewrite <- (take_drop_middle l i x Hx) at 3.
    rewrite <- !app_assoc, <- Permutation_middle. cbn.
    rewrite <- Permutation_middle. constructor.
    by rewrite app_assoc, <- Permutation_cons_append.
Qed.

Lemma swap_remove_lookup_lt {A} (l : list A) i k :
  k < i -> i < length l -> swap_remove i l !! k = l !! k.
Proof.
  intros Hk Hi. unfold swap_remove. destruct (last l) as [z|] eqn:Hz; [|done].
  rewrite lookup_take_lt by lia. by apply list_lookup_insert_ne; lia.
Qed.

Lemma swap_remove_length {A} (l : list A) i x :
  l !! i = Some x -> length l = S (length (swap_remove i l)).
Proof. intros H. by rewrite <- (swap_remove_perm l i x H) at 1. Qed.

(** ** [record], entry by entry *)

Lemma remove_stale_spec fuel i locs idx old d :
  length old - idx < S fuel ->
  (forall k x, k < idx -> old !! k = Some x -> x ∈ locs) ->
  let '(old', d') := remove_stale fuel i locs idx old d in
  old' ≡ₚ filter (fun l => l ∈ locs) old /\
  forall loc j, entry d' loc j =
    if decide (j = i /\ loc ∈ old /\ loc ∉ locs) then None else entry d loc j.
Proof.
  revert idx old d. induction fuel as [|fuel IH]; intros idx old d Hf Hpre; cbn [remove_stale].
  2: destruct (old !! idx) as [prev|] eqn:Hp.
  2: destruct (decide (Forall (fun l => l <> prev) locs)) as [Hst|Hst].
  (* the position is at the end *)
  1,4: assert (forall x, x ∈ old -> x ∈ locs) as Hall
    by (intros x [k Hk]%list_elem_of_lookup; apply (Hpre k); [|done];
        apply lookup_lt_Some in Hk; try apply lookup_ge_None in Hp; lia);
    split; [by rewrite filter_all|];
    intros loc j; rewrite decide_False; [done|]; intros (_ & H & Hn); by apply Hn, Hall.
  - apply lookup_lt_Some in Hp as Hlt. pose proof (swap_remove_length _ _ _ Hp) as Hlen.
    assert (prev ∉ locs) as Hn
      by (rewrite Forall_forall in Hst; intros Hin; by destruct (Hst _ Hin)).
    pose proof (swap_remove_perm _ _ _ Hp) as Hperm.
    specialize (IH idx (swap_remove idx old) (remove_entry i prev d)).
    destruct (remove_stale _ _ _ _ _ _) as [old' d']. destruct IH as [IH1 IH2]; [lia| |split].
    + intros k x Hk. rewrite swap_remove_lookup_lt by lia. by apply Hpre.
    + transitivity (filter (fun l => l ∈ locs) (prev :: swap_remove idx old)).
      * by rewrite filter_cons_False.
      * by rewrite Hperm.
    + intros loc j. rewrite IH2, entry_remove.
      assert (loc ∈ old <-> loc = prev \/ loc ∈ swap_remove idx old) as Hiff
        by (rewrite <- elem_of_cons; by rewrite Hperm).
      repeat case_decide; naive_solver.
  - assert (prev ∈ locs) as Hin.
    { destruct (decide (prev ∈ locs)); [done|]. exfalso. apply Hst, Forall_forall.
      by intros x Hx ->. }
    apply lookup_lt_Some in Hp as Hlt. apply IH; [lia|].
    intros k x Hk Hx. destruct (decide (k = idx)) as [->|]; [|apply (Hpre k); [lia|done]].
    congruence.
Qed.

(** The value a write set leaves at a location: the last one pushed. *)
Fixpoint last_write (loc : MemoryLocationHash) (ws : WriteSet) : option MemoryValue :=
  match ws with
  | [] => None
  | (l, v) :: ws =>
      match last_write loc ws with
      | Some v' => Some v'
      | None => if decide (l = loc) then Some v else None
      end
  end.

Lemma last_write_Some loc ws : is_Some (last_write loc ws) <-> loc ∈ ws.*1.
Proof.
  induction ws as [|[l v] ws IH]; cbn; [split; [by intros [? [=]]|by intros ?%elem_of_nil]|].
  rewrite elem_of_cons, <- IH. destruct (last_write loc ws) as [v'|].
  - split; intros _; [right|]; by eexists.
  - case_decide as H; split; try (by eexists); [by intros _; left|by intros [? [=]]|].
    intros [->|[? [=]]]; done.
Qed.

Lemma register_writes_spec v ws b old d :
  let '(b', old', d') := register_writes v ws b old d in
  (b' = true <-> b = true \/ exists loc, loc ∈ ws.*1 /\ loc ∉ old) /\
  (forall loc, loc ∈ old' <-> loc ∈ old \/ loc ∈ ws.*1) /\
  (NoDup old -> NoDup old') /\
  forall loc j, entry d' loc j =
    match last_write loc ws with
    | Some value => if decide (j = tx_idx v) then Some (Data (tx_incarnation v) value) else entry d loc j
    | None => entry d loc j
    end.
Proof.
  revert b old d. induction ws as [|[l value] ws IH]; intros b old d; cbn [register_writes].
  { cbn. setoid_rewrite elem_of_nil. naive_solver. }
  set (d1 := insert_entry _ _ _ d).
  assert (forall b1 old1, (forall loc, loc ∈ old1 <-> loc ∈ old \/ loc = l) ->
    (NoDup old -> NoDup old1) -> (b1 = true <-> b = true \/ l ∉ old) ->
    let '(b', old', d') := register_writes v ws b1 old1 d1 in
    (b' = true <-> b = true \/ exists loc, loc ∈ ((l, value) :: ws).*1 /\ loc ∉ old) /\
    (forall loc, loc ∈ old' <-> loc ∈ old \/ loc ∈ ((l, value) :: ws).*1) /\
    (NoDup old -> NoDup old') /\
    forall loc j, entry d' loc j =
      match last_write loc ((l, value) :: ws) with
      | Some value => if decide (j = tx_idx v) then Some (Data (tx_incarnation v) value) else entry d loc j
      | None => entry d loc j
      end) as Hstep.
  { intros b1 old1 Hold Hnd Hb1. specialize (IH b1 old1 d1).
    destruct (register_writes _ _ _ _ _) as [[b' old'] d']. destruct IH as (IH1 & IH2 & IH3 & IH4).
    split; [|split; [|split; [auto|]]].
    - rewrite IH1, Hb1. cbn. setoid_rewrite elem_of_cons. split.
      + intros [[?|?]|(loc & ? & Hn)]; [by left|right; by eauto|].
        right. exists loc. rewrite Hold in Hn. tauto.
      + intros [?|(loc & [->|Hin] & Hn)]; [by left; left|by left; right|].
        destruct (decide (loc = l)) as [->|Hne]; [left; by right|].
        right. exists loc. rewrite Hold. tauto.
    - intros loc. rewrite IH2, Hold. cbn. rewrite elem_of_cons. tauto.
    - intros loc j. rewrite IH4. cbn. subst d1. rewrite entry_insert.
      destruct (last_write loc ws) as [v'|]; repeat case_decide; naive_solver. }
  destruct (decide (l ∈ old)) as [Hin|Hin].
  - apply Hstep; [naive_solver|done|tauto].
  - apply Hstep; [|intros Hnd; apply NoDup_app; repeat split; try done|tauto].
    + intros loc. by rewrite elem_of_app, list_elem_of_singleton.
    + intros x Hx ->%list_elem_of_singleton. done.
    + apply NoDup_singleton.
Qed.

(** ** [convert_writes_to_estimates], entry by entry *)

Lemma estimate_dom i d loc l : is_Some (estimate_entry i d loc !! l) <-> is_Some (d !! l).
Proof.
  unfold estimate_entry. destruct (d !! loc) as [m|] eqn:Hm; [|done].
  destruct (decide (l = loc)) as [->|Hl].
  - rewrite lookup_insert_eq, Hm. split; by eexists.
  - by rewrite lookup_insert_ne.
Qed.

Lemma estimates_fold_spec i locs d loc j :
  entry (foldl (estimate_entry i) d locs) loc j =
  if decide (loc ∈ locs /\ j = i /\ is_Some (d !! loc)) then Some Estimate else entry d loc j.
Proof.
  revert d. induction locs as [|l locs IH]; intros d; cbn [foldl].
  { rewrite decide_False; [done|]. by intros [?%elem_of_nil _]. }
  rewrite IH, entry_estimate. pose proof (estimate_dom i d l loc) as Hdom.
  pose proof (elem_of_cons locs loc l) as Hiff.
  repeat case_decide; try done; exfalso; naive_solver.
Qed.

(** ** Reading the closest entries *)

Lemma range_desc_S {E} (m : gmap nat E) i :
  range_desc m (S i) = match m !! i with Some e => (i, e) :: range_desc m i | None => range_desc m i end.
Proof.
  unfold range_desc. rewrite seq_S, rev_app_distr. cbn. by destruct (m !! i).
Qed.

Lemma range_desc_0 {E} (m : gmap nat E) : range_desc m 0 = [].
Proof. done. Qed.

(** The first entry is the closest one below; the rest are those below it. *)
Lemma range_desc_first {E} (m : gmap nat E) i k e :
  k < i -> m !! k = Some e -> (forall j, k < j < i -> m !! j = None) ->
  range_desc m i = (k, e) :: range_desc m k.
Proof.
  intros Hk He Hn. induction i as [|i IH]; [lia|]. rewrite range_desc_S.
  destruct (decide (k = i)) as [->|Hne]; [by rewrite He|].
  rewrite (Hn i) by lia. apply IH; [lia|]. intros j Hj. apply Hn. lia.
Qed.

Lemma range_desc_none {E} (m : gmap nat E) i :
  (forall j, j < i -> m !! j = None) -> range_desc m i = [].
Proof.
  intros Hn. induction i as [|i IH]; [done|]. rewrite range_desc_S, (Hn i) by lia. auto.
Qed.

Lemma range_desc_inv {E} (m : gmap nat E) i :
  (range_desc m i = [] /\ forall j, j < i -> m !! j = None) \/
  (exists k e, range_desc m i = (k, e) :: range_desc m k /\ k < i /\ m !! k = Some e /\
     forall j, k < j < i -> m !! j = None).
Proof.
  induction i as [|i IH]; [left; split; [done|lia]|]. rewrite range_desc_S.
  destruct (m !! i) as [e|] eqn:He.
  - right. exists i, e. repeat split; try done; try lia; intros j Hj; lia.
  - destruct IH as [[-> Hn]|(k & e & -> & Hk & Hm & Hn)].
    + left. split; [done|]. intros j Hj. destruct (decide (j = i)) as [->|]; [done|]. apply Hn. lia.
    + right. exists k, e. repeat split; try done; [lia|].
      intros j Hj. destruct (decide (j = i)) as [->|]; [done|]. apply Hn. lia.
Qed.

Lemma range_desc_elem {E} (m : gmap nat E) i k e :
  (k, e) ∈ range_desc m i <-> k < i /\ m !! k = Some e.
Proof.
  induction i as [|i IH]; [rewrite range_desc_0, elem_of_nil; split; [done|lia]|].
  rewrite range_desc_S. destruct (m !! i) as [e'|] eqn:He.
  - rewrite elem_of_cons, IH. split.
    + intros [[= -> ->]|[? ?]]; (split; [lia|done]).
    + intros [Hk Hm]. destruct (decide (k = i)) as [->|]; [left; congruence|right; split; [lia|done]].
  - rewrite IH. split; intros [Hk Hm]; (split; [|done]); [lia|].
    destruct (decide (k = i)) as [->|]; [congruence|lia].
Qed.

(** ** What a read of a location sees

    The entries of a location below a reader, down to the first absolute value
    or to the storage: their origins and values.  [inl k]: the reader is blocked
    by the estimate of transaction [k].  This is the specification that the
    database of vm.rs and the validation are compared with. *)
Definition is_lazy_value (v : MemoryValue) : bool :=
  match v with LazyRecipient _ | LazySender _ => true | _ => false end.

Fixpoint chain (entries : list (TxIdx * MemoryEntry))
    : TxIdx + (ReadOrigins * list MemoryValue) :=
  match entries with
  | [] => inr ([FromStorage], [])
  | (k, Estimate) :: _ => inl k
  | (k, Data inc v) :: rest =>
      let o := FromMvMemory {| tx_idx := k; tx_incarnation := inc |} in
      if is_lazy_value v then
        match chain rest with
        | inl b => inl b
        | inr (os, vs) => inr (o :: os, v :: vs)
        end
      else inr ([o], [v])
  end.

Definition entries_below (d : VersionedData) (loc : MemoryLocationHash) (i : TxIdx)
    : list (TxIdx * MemoryEntry) :=
  match d !! loc with Some m => range_desc m i | None => [] end.

Definition read_chain (d : VersionedData) (loc : MemoryLocationHash) (i : TxIdx) :=
  chain (entries_below d loc i).

Lemma entries_below_elem d loc i k e :
  (k, e) ∈ entries_below d loc i <-> k < i /\ entry d loc k = Some e.
Proof.
  unfold entries_below, entry. destruct (d !! loc) as [m|]; cbn; [apply range_desc_elem|].
  rewrite elem_of_nil. naive_solver.
Qed.

(** Two memories in which a version has written at most one value per location
    (an incarnation records its write set once). *)
Definition agree (d d' : VersionedData) (loc : MemoryLocationHash) : Prop :=
  forall k inc v v', entry d loc k = Some (Data inc v) -> entry d' loc k = Some (Data inc v') -> v = v'.

(** Validating the origins of a chain of [es0] against [es1] succeeds exactly
    when [es1] reads the same chain. *)
Lemma validate_chain es0 es1 os vs :
  (forall k inc v v', (k, Data inc v) ∈ es0 -> (k, Data inc v') ∈ es1 -> v = v') ->
  chain es0 = inr (os, vs) ->
  validate_origins es1 os = true <-> chain es1 = inr (os, vs).
Proof.
  revert es1 os vs. induction es0 as [|[k e] es0 IH]; intros es1 os vs Hag Hc; cbn in Hc.
  { injection Hc as <- <-. destruct es1 as [|[k e] es1]; cbn; [done|].
    split; [done|]. destruct e as [inc v|]; [|done]. destruct (is_lazy_value v); [|done].
    destruct (chain es1) as [b|[os vs]]; done. }
  destruct e as [inc v|]; [|done].
  assert (exists os' vs', os = FromMvMemory {| tx_idx := k; tx_incarnation := inc |} :: os' /\
    vs = v :: vs' /\ if is_lazy_value v then chain es0 = inr (os', vs') else os' = [] /\ vs' = [])
    as (os' & vs' & -> & -> & Hrest).
  { destruct (is_lazy_value v); [destruct (chain es0) as [b|[os' vs']]; [done|]|];
      injection Hc as <- <-; eauto 6. }
  destruct es1 as [|[k1 [inc1 v1|]] es1]; [done| |done]. cbn.
  destruct (Nat.eqb_spec k1 k) as [->|Hk]; cbn.
  2: { split; [done|]. destruct (is_lazy_value v1); [destruct (chain es1) as [?|[? ?]]|]; congruence. }
  destruct (Nat.eqb_spec inc inc1) as [<-|Hinc]; cbn.
  2: { split; [done|]. destruct (is_lazy_value v1); [destruct (chain es1) as [?|[? ?]]|]; congruence. }
  assert (v = v1) as <- by (apply (Hag k inc); by left).
  destruct (is_lazy_value v) eqn:Hlazy.
  - rewrite (IH es1 os' vs'); [|intros; eapply Hag; by right|done].
    destruct (chain es1) as [b|[os2 vs2]]; [done|]. naive_solver.
  - destruct Hrest as [-> ->]. by destruct es1.
Qed.
