(* ===== verification/MvMemorySpec.v ===== *)
(** * MvMemorySpec: what the multi-version memory promises

    The methods of mv_memory.rs composed into histories: sequences of [record],
    [convert_writes_to_estimates] and [add_lazy_addresses] calls and updates of
    the new bytecodes on a fresh memory.  The well-formedness invariant of every history, the effect of
    [record] entry by entry, and the central fact of the optimistic scheme:
    validation succeeds exactly when re-reading the read set now would see the
    same origins and the same values. *)

From S2P Require Import Prelude Types MvMemory.
#[local] Open Scope nat_scope.

(** ** Histories *)

Inductive mv_op (Bytecode : Type) :=
| OpRecord (v : TxVersion) (read_set : ReadSet) (write_set : WriteSet)
| OpEstimate (i : TxIdx)
| OpLazy (addrs : list Address)
| OpBytecodes (codes : gmap B256 Bytecode).
Arguments OpRecord {Bytecode}.
Arguments OpEstimate {Bytecode}.
Arguments OpLazy {Bytecode}.
Arguments OpBytecodes {Bytecode}.

(** The bytecodes that [Vm::execute] adds to [new_bytecodes]. *)
Definition put_bytecodes {Bytecode} (codes : gmap B256 Bytecode) (mv : MvMemory Bytecode)
    : MvMemory Bytecode :=
  mkMvMemory (data mv) (last_locations mv) (lazy_addresses mv) codes.

Section Spec.
Context {Bytecode : Type}.
Local Abbreviation mv_op := (mv_op Bytecode).
Implicit Types mv : MvMemory Bytecode.

Definition apply_op mv (o : mv_op) : option (MvMemory Bytecode) :=
  match o with
  | OpRecord v rs ws => r ← record mv v rs ws; Some r.2
  | OpEstimate i => convert_writes_to_estimates mv i
  | OpLazy addrs => Some (add_lazy_addresses mv addrs)
  | OpBytecodes codes => Some (put_bytecodes codes mv)
  end.

Fixpoint apply_ops mv (ops : list mv_op) : option (MvMemory Bytecode) :=
  match ops with
  | [] => Some mv
  | o :: ops => mv ← apply_op mv o; apply_ops mv ops
  end.

Lemma apply_ops_app mv ops1 ops2 :
  apply_ops mv (ops1 ++ ops2) = (mv1 ← apply_ops mv ops1; apply_ops mv1 ops2).
Proof.
  revert mv. induction ops1 as [|o ops1 IH]; intros mv; cbn; [done|].
  destruct (apply_op mv o) as [mv1|]; cbn; [apply IH|done].
Qed.

(** The versions a history records. *)
Definition recorded (ops : list mv_op) : list TxVersion :=
  omap (fun o => match o with OpRecord v _ _ => Some v | _ => None end) ops.

(** ** Well-formedness *)

(** The last written locations of a transaction are distinct, each of them holds
    an entry of the transaction, and a value of the transaction is nowhere
    else. *)
Record mv_wf mv : Prop := {
  wf_nodup : forall i ll, last_locations mv !! i = Some ll -> NoDup (write ll);
  wf_write : forall i ll loc, last_locations mv !! i = Some ll -> loc ∈ write ll ->
    is_Some (entry (data mv) loc i);
  wf_data : forall i ll loc inc v, last_locations mv !! i = Some ll ->
    entry (data mv) loc i = Some (Data inc v) -> loc ∈ write ll;
}.

(** [record] in one lemma. *)
Lemma record_full mv v rs ws ll :
  last_locations mv !! tx_idx v = Some ll -> 
  exists b locs d, record mv v rs ws = Some (b,
    mkMvMemory d (<[tx_idx v := {| read := rs; write := locs |}]> (last_locations mv))
      (lazy_addresses mv) (new_bytecodes mv)) /\
  (b = true <-> exists loc, loc ∈ ws.*1 /\ loc ∉ write ll) /\
  (forall loc, loc ∈ locs <-> loc ∈ ws.*1) /\
  (NoDup (write ll) -> NoDup locs) /\
  forall loc j, entry d loc j =
    if decide (j = tx_idx v) then
      match last_write loc ws with
      | Some value => Some (Data (tx_incarnation v) value)
      | None => if decide (loc ∈ write ll) then None else entry (data mv) loc j
      end
    else entry (data mv) loc j.
Proof.
  intros Hll. unfold record. rewrite Hll. cbn.
  pose proof (remove_stale_spec (length (write ll)) (tx_idx v) ws.*1 0 (write ll) (data mv)
    ltac:(lia) ltac:(lia)) as H1.
  destruct (remove_stale _ _ _ _ _ _) as [old d1]. destruct H1 as [Hold Hd1].
  pose proof (register_writes_spec v ws false old d1) as H2.
  destruct (register_writes _ _ _ _ _) as [[b locs] d2]. destruct H2 as (Hb & Hlocs & Hnd & Hd2).
  exists b, locs, d2. split; [done|].
  assert (forall loc, loc ∈ old <-> loc ∈ ws.*1 /\ loc ∈ write ll) as Helem.
  { intros loc. by rewrite Hold, list_elem_of_filter. }
  split; [|split; [|split]].
  - rewrite Hb. setoid_rewrite Helem. naive_solver.
  - intros loc. rewrite Hlocs, Helem. tauto.
  - intros H. apply Hnd. rewrite Hold. by apply NoDup_filter.
  - intros loc j. rewrite Hd2. pose proof (last_write_Some loc ws) as Hlw.
    destruct (last_write loc ws) as [value|] eqn:Hv.
    + case_decide as Hj; [done|]. rewrite Hd1. by rewrite decide_False by naive_solver.
    + assert (loc ∉ ws.*1) as Hn by (rewrite <- Hlw; by intros [? [=]]).
      rewrite Hd1. repeat case_decide; naive_solver.
Qed.

Lemma convert_full mv i ll :
  last_locations mv !! i = Some ll ->
  exists d, convert_writes_to_estimates mv i = Some
    (mkMvMemory d (last_locations mv) (lazy_addresses mv) (new_bytecodes mv)) /\
  forall loc j, entry d loc j =
    if decide (loc ∈ write ll /\ j = i /\ is_Some (data mv !! loc)) then Some Estimate
    else entry (data mv) loc j.
Proof.
  intros Hll. unfold convert_writes_to_estimates. rewrite Hll. cbn. eexists. split; [done|].
  intros loc j. apply estimates_fold_spec.
Qed.

Lemma entry_dom (d : VersionedData) loc i : is_Some (entry d loc i) -> is_Some (d !! loc).
Proof. unfold entry. destruct (d !! loc); [by eexists|]. by intros [? [=]]. Qed.

(** A fresh memory holds estimates only. *)
Lemma estimated_no_data (est : list (MemoryLocationHash * list TxIdx)) (d : VersionedData) :
  (forall loc j inc v, entry d loc j <> Some (Data inc v)) ->
  forall loc j inc v, entry (foldl (fun d e => <[e.1 := estimates e.2]> d) d est) loc j <> Some (Data inc v).
Proof.
  revert d. induction est as [|[l idxs] est IH]; intros d Hd; cbn; [done|]. apply IH.
  intros loc j inc v. unfold entry. destruct (decide (loc = l)) as [->|].
  - rewrite lookup_insert_eq. cbn. unfold estimates. intros H%elem_of_list_to_map_2.
    apply list_elem_of_fmap in H as (k & [=] & _).
  - rewrite lookup_insert_ne by done. apply Hd.
Qed.

Lemma new_no_data n estimated lazy loc j inc v :
  entry (data (MvMemory_new (Bytecode := Bytecode) n estimated lazy)) loc j <> Some (Data inc v).
Proof. apply estimated_no_data. intros ? ? ? ?. unfold entry. by rewrite lookup_empty. Qed.

Lemma new_wf n estimated lazy : mv_wf (MvMemory_new (Bytecode := Bytecode) n estimated lazy).
Proof.
  assert (forall i ll, last_locations (MvMemory_new (Bytecode := Bytecode) n estimated lazy) !! i = Some ll ->
    ll = LastLocations_default) as Hll by by intros i ll [-> _]%lookup_replicate.
  split.
  - intros i ll ->%Hll. constructor.
  - intros i ll loc ->%Hll H. by apply elem_of_nil in H.
  - intros i ll loc inc v _ H. exfalso. by eapply new_no_data.
Qed.

Lemma record_wf mv v rs ws b mv' : mv_wf mv -> record mv v rs ws = Some (b, mv') -> mv_wf mv'.
Proof.
  intros [Hnd Hw Hd] E. destruct (last_locations mv !! tx_idx v) as [ll|] eqn:Hll.
  2: { unfold record in E. by rewrite Hll in E. }
  destruct (record_full mv v rs ws ll Hll) as (b' & locs & d & E' & _ & Hlocs & Hnd' & Hent).
  rewrite E in E'. injection E' as -> ->.
  assert (forall i ll2, <[tx_idx v := {| read := rs; write := locs |}]> (last_locations mv) !! i = Some ll2 ->
    (i = tx_idx v /\ write ll2 = locs) \/ (i <> tx_idx v /\ last_locations mv !! i = Some ll2)) as Hcase.
  { intros i ll2 [(-> & <- & _)|[? ?]]%list_lookup_insert_Some; [by left|by right]. }
  split; cbn.
  - intros i ll2 [[-> ->]|[_ Hi]]%Hcase; [by eapply Hnd', Hnd|by eapply Hnd].
  - intros i ll2 loc [[-> ->]|[Hne Hi]]%Hcase Hin; rewrite Hent.
    + rewrite decide_True by done. apply Hlocs, last_write_Some in Hin as [value ->]. by eexists.
    + rewrite decide_False by done. by eapply Hw.
  - intros i ll2 loc inc value [[-> ->]|[Hne Hi]]%Hcase; rewrite Hent.
    + rewrite decide_True by done. intros H. apply Hlocs, last_write_Some.
      destruct (last_write loc ws) as [value'|] eqn:Hlw; [by eexists|].
      case_decide as Hin; [done|]. exfalso. apply Hin. by eapply Hd.
    + rewrite decide_False by done. by eapply Hd.
Qed.

Lemma convert_wf mv i mv' : mv_wf mv -> convert_writes_to_estimates mv i = Some mv' -> mv_wf mv'.
Proof.
  intros [Hnd Hw Hd] E. destruct (last_locations mv !! i) as [ll|] eqn:Hll.
  2: { unfold convert_writes_to_estimates in E. by rewrite Hll in E. }
  destruct (convert_full mv i ll Hll) as (d & E' & Hent). rewrite E in E'. injection E' as ->.
  split; cbn; [done| |].
  - intros j ll2 loc Hj Hin. rewrite Hent. case_decide; [by eexists|by eapply Hw].
  - intros j ll2 loc inc v Hj. rewrite Hent. case_decide; [done|]. by eapply Hd.
Qed.

Lemma apply_op_wf mv o mv' : mv_wf mv -> apply_op mv o = Some mv' -> mv_wf mv'.
Proof.
  intros Hwf. destruct o as [v rs ws|i|addrs|codes]; cbn.
  - destruct (record mv v rs ws) as [[b mv1]|] eqn:E; cbn; [|done]. intros [= <-]. by eapply record_wf.
  - by apply convert_wf.
  - intros [= <-]. destruct Hwf. by split.
  - intros [= <-]. destruct Hwf. by split.
Qed.

Lemma apply_ops_wf ops mv mv' : mv_wf mv -> apply_ops mv ops = Some mv' -> mv_wf mv'.
Proof.
  revert mv. induction ops as [|o ops IH]; intros mv Hwf; cbn; [by intros [= <-]|].
  destruct (apply_op mv o) as [mv1|] eqn:E; cbn; [|done]. apply IH. by eapply apply_op_wf.
Qed.

(** ** A version writes one value per location

    The values of the memory after a history are those of the write sets it
    recorded. *)
Definition written_by (ops : list mv_op) (v : TxVersion) (loc : MemoryLocationHash)
    (value : MemoryValue) : Prop :=
  exists rs ws, OpRecord v rs ws ∈ ops /\ last_write loc ws = Some value.

Definition data_from (ops : list mv_op) (d : VersionedData) : Prop :=
  forall loc k inc value, entry d loc k = Some (Data inc value) ->
    written_by ops {| tx_idx := k; tx_incarnation := inc |} loc value.

Lemma written_by_mono ops ops' v loc value : ops ⊆ ops' ->
  written_by ops v loc value -> written_by ops' v loc value.
Proof. intros Hs (rs & ws & Hin & H). exists rs, ws. split; [by apply Hs|done]. Qed.

Lemma apply_op_data_from pre mv o mv' :
  data_from pre (data mv) -> apply_op mv o = Some mv' -> data_from (pre ++ [o]) (data mv').
Proof.
  intros Hd E. assert (data_from (pre ++ [o]) (data mv)) as Hold.
  { intros loc k inc value H. eapply written_by_mono; [|by apply Hd].
    intros x Hx. apply elem_of_app. by left. }
  destruct o as [v rs ws|i|addrs|codes]; cbn in E.
  - destruct (last_locations mv !! tx_idx v) as [ll|] eqn:Hll.
    2: { unfold record in E. by rewrite Hll in E. }
    destruct (record_full mv v rs ws ll Hll) as (b & locs & d & E' & _ & _ & _ & Hent).
    rewrite E' in E. cbn in E. injection E as <-. cbn. intros loc k inc value. rewrite Hent.
    case_decide as Hk; [|by apply Hold]. destruct (last_write loc ws) as [value'|] eqn:Hlw.
    + intros [= <- <-]. exists rs, ws. split; [|done]. apply elem_of_app. right.
      subst k. destruct v. by left.
    + case_decide; [done|]. by apply Hold.
  - destruct (last_locations mv !! i) as [ll|] eqn:Hll.
    2: { unfold convert_writes_to_estimates in E. by rewrite Hll in E. }
    destruct (convert_full mv i ll Hll) as (d & E' & Hent). rewrite E in E'. injection E' as ->. cbn.
    intros loc k inc value. rewrite Hent. case_decide; [done|]. by apply Hold.
  - by injection E as <-.
  - by injection E as <-.
Qed.

Lemma apply_ops_data_from ops pre mv mv' :
  data_from pre (data mv) -> apply_ops mv ops = Some mv' -> data_from (pre ++ ops) (data mv').
Proof.
  revert pre mv. induction ops as [|o ops IH]; intros pre mv Hd; cbn.
  { intros [= <-]. by rewrite app_nil_r. }
  destruct (apply_op mv o) as [mv1|] eqn:E; cbn; [|done]. intros H.
  replace (pre ++ o :: ops) with ((pre ++ [o]) ++ ops) by by rewrite <- app_assoc.
  eapply IH; [|done]. by eapply apply_op_data_from.
Qed.

Lemma recorded_unique ops v rs ws rs' ws' : NoDup (recorded ops) ->
  OpRecord v rs ws ∈ ops -> OpRecord v rs' ws' ∈ ops -> rs = rs' /\ ws = ws'.
Proof.
  intros Hnd. induction ops as [|o ops IH]; intros H1 H2; [by apply elem_of_nil in H1|].
  assert (forall rs ws, OpRecord v rs ws ∈ ops -> v ∈ recorded ops) as Hin.
  { intros rs0 ws0 H. apply list_elem_of_omap. by exists (OpRecord v rs0 ws0). }
  apply elem_of_cons in H1 as [<-|H1]; apply elem_of_cons in H2 as [H2|H2].
  - by injection H2 as -> ->.
  - exfalso. cbn in Hnd. apply NoDup_cons in Hnd as [Hn _]. by eapply Hn, Hin.
  - subst o. exfalso. cbn in Hnd. apply NoDup_cons in Hnd as [Hn _]. by eapply Hn, Hin.
  - apply IH; try done. destruct o; cbn in Hnd; [by apply NoDup_cons in Hnd as [_ ?]|done..].
Qed.

(** Outside the last written locations a transaction has at most an initial
    estimate. *)
Definition estimates_from (d0 : VersionedData) mv : Prop :=
  forall i ll loc, last_locations mv !! i = Some ll -> loc ∉ write ll ->
    entry (data mv) loc i = Some Estimate -> entry d0 loc i = Some Estimate.

Lemma apply_op_estimates d0 mv o mv' :
  estimates_from d0 mv -> apply_op mv o = Some mv' -> estimates_from d0 mv'.
Proof.
  intros He. destruct o as [v rs ws|i|addrs|codes]; cbn.
  - destruct (last_locations mv !! tx_idx v) as [ll|] eqn:Hll.
    2: { unfold record. by rewrite Hll. }
    destruct (record_full mv v rs ws ll Hll) as (b & locs & d & -> & _ & Hlocs & _ & Hent).
    intros [= <-] i ll2 loc. cbn. rewrite Hent.
    intros [(<- & <- & _)|[Hne Hi]]%list_lookup_insert_Some Hn.
    + cbn in Hn. rewrite decide_True by done. rewrite Hlocs in Hn.
      destruct (last_write loc ws) as [x|]; [done|]. case_decide; [done|]. by apply (He _ ll).
    + rewrite decide_False by done. by apply (He _ ll2).
  - destruct (last_locations mv !! i) as [ll|] eqn:Hll.
    2: { unfold convert_writes_to_estimates. by rewrite Hll. }
    destruct (convert_full mv i ll Hll) as (d & -> & Hent). intros [= <-] j ll2 loc. cbn. rewrite Hent.
    intros Hj Hn. case_decide as Hd; [|by apply (He _ ll2)]. destruct Hd as (Hin & -> & _). congruence.
  - intros [= <-]. exact He.
  - intros [= <-]. exact He.
Qed.

Lemma history_estimates mv0 ops mv :
  apply_ops mv0 ops = Some mv -> estimates_from (data mv0) mv.
Proof.
  assert (estimates_from (data mv0) mv0) as He by by intros i ll loc _ _ H.
  revert He. generalize mv0 at 2 3 as mv1. induction ops as [|o ops IH]; intros mv1 He; cbn.
  - by intros [= <-].
  - destruct (apply_op mv1 o) as [mv2|] eqn:Ho; cbn; [|done]. apply IH. by eapply apply_op_estimates.
Qed.

(** Past the block size a history changes nothing. *)
Lemma apply_op_outside mv o mv' j : apply_op mv o = Some mv' -> last_locations mv !! j = None ->
  last_locations mv' !! j = None /\ forall loc, entry (data mv') loc j = entry (data mv) loc j.
Proof.
  destruct o as [v rs ws|i|addrs|codes]; cbn.
  - destruct (last_locations mv !! tx_idx v) as [ll|] eqn:Hll.
    2: { unfold record. by rewrite Hll. }
    destruct (record_full mv v rs ws ll Hll) as (b & locs & d & -> & _ & _ & _ & Hent).
    intros [= <-] Hj. cbn. assert (j <> tx_idx v) by congruence.
    split; [by rewrite list_lookup_insert_ne|]. intros loc. by rewrite Hent, decide_False.
  - destruct (last_locations mv !! i) as [ll|] eqn:Hll.
    2: { unfold convert_writes_to_estimates. by rewrite Hll. }
    destruct (convert_full mv i ll Hll) as (d & -> & Hent). intros [= <-] Hj. cbn. split; [done|].
    intros loc. rewrite Hent, decide_False; [done|]. intros (_ & -> & _). congruence.
  - by intros [= <-].
  - by intros [= <-].
Qed.

Lemma history_outside mv0 ops mv j : apply_ops mv0 ops = Some mv -> last_locations mv0 !! j = None ->
  forall loc, entry (data mv) loc j = entry (data mv0) loc j.
Proof.
  revert mv0. induction ops as [|o ops IH]; intros mv0; cbn; [by intros [= <-]|].
  destruct (apply_op mv0 o) as [mv1|] eqn:Ho; cbn; [|done]. intros H Hj loc.
  destruct (apply_op_outside _ _ _ _ Ho Hj) as [Hj1 He]. by rewrite (IH mv1 H Hj1).
Qed.

(** Every transaction of the block keeps its last locations. *)
Lemma history_length mv0 ops mv : apply_ops mv0 ops = Some mv ->
  length (last_locations mv) = length (last_locations mv0).
Proof.
  revert mv0. induction ops as [|o ops IH]; intros mv0; cbn; [by intros [= <-]|].
  destruct (apply_op mv0 o) as [mv1|] eqn:Ho; cbn; [|done]. intros ->%IH. revert Ho.
  destruct o as [v rs ws|i|addrs|codes]; cbn; [..|by intros [= <-]|by intros [= <-]].
  - destruct (last_locations mv0 !! tx_idx v) as [ll|] eqn:Hll; [|unfold record; by rewrite Hll].
    destruct (record_full mv0 v rs ws ll Hll) as (b & locs & d & -> & _). intros [= <-]. cbn. apply length_insert.
  - destruct (last_locations mv0 !! i) as [ll|] eqn:Hll; [|unfold convert_writes_to_estimates; by rewrite Hll].
    destruct (convert_full mv0 i ll Hll) as (d & -> & _). by intros [= <-].
Qed.

Lemma histories_agree n estimated lazy ops1 ops2 mv1 mv2 loc :
  NoDup (recorded (ops1 ++ ops2)) ->
  apply_ops (MvMemory_new n estimated lazy) ops1 = Some mv1 ->
  apply_ops (MvMemory_new n estimated lazy) (ops1 ++ ops2) = Some mv2 ->
  agree (data mv1) (data mv2) loc.
Proof.
  intros Hnd E1 E2 k inc v v' H1 H2.
  assert (data_from [] (data (MvMemory_new (Bytecode := Bytecode) n estimated lazy))) as H0.
  { intros l j i0 x H. exfalso. by eapply new_no_data. }
  apply (apply_ops_data_from _ _ _ _ H0) in E1 as Hd1. apply (apply_ops_data_from _ _ _ _ H0) in E2 as Hd2.
  destruct (Hd1 _ _ _ _ H1) as (rs & ws & Hin & Hlw). destruct (Hd2 _ _ _ _ H2) as (rs' & ws' & Hin' & Hlw').
  assert (OpRecord {| tx_idx := k; tx_incarnation := inc |} rs ws ∈ ops1 ++ ops2) as Hin2
    by (apply elem_of_app; by left).
  destruct (recorded_unique _ _ _ _ _ _ Hnd Hin2 Hin') as [_ ->]. congruence.
Qed.
End Spec.

(** ** Properties *)

Section Properties.
Context {Bytecode : Type}.
Implicit Types mv : MvMemory Bytecode.

Lemma history_wf n estimated lazy ops mv :
  apply_ops (MvMemory_new n estimated lazy) ops = Some mv -> mv_wf mv.
Proof. intros H. eapply apply_ops_wf; [apply new_wf|done]. Qed.

(** Every location of the read set of [i] was read through [read_chain] at some
    earlier point of the history [ops], giving the recorded origins and the
    values [vals]. *)
Definition read_during n estimated lazy (ops : list (mv_op Bytecode)) (i : TxIdx) (rs : ReadSet)
    (vals : MemoryLocationHash -> list MemoryValue) : Prop :=
  forall loc os, rs !! loc = Some os -> exists ops1 ops2 mv1, ops = ops1 ++ ops2 /\
    apply_ops (MvMemory_new (Bytecode := Bytecode) n estimated lazy) ops1 = Some mv1 /\
    read_chain (data mv1) loc i = inr (os, vals loc).

Lemma validate_location_chain d0 mv i loc os vs :
  agree d0 (data mv) loc -> read_chain d0 loc i = inr (os, vs) ->
  validate_location mv i loc os = true <-> read_chain (data mv) loc i = inr (os, vs).
Proof.
  intros Hag Hc. rewrite <- (validate_chain (entries_below d0 loc i) (entries_below (data mv) loc i) os vs);
    [|intros k inc v v' [_ H1]%entries_below_elem [_ H2]%entries_below_elem; by eapply Hag|done].
  unfold validate_location, entries_below. destruct (data mv !! loc) as [m|]; [done|].
  (* the location holds nothing: only a single storage origin passes *)
  destruct os as [|o os]; [|destruct os as [|o2 os]]; cbn.
  - unfold read_chain in Hc. destruct (entries_below d0 loc i) as [|[k [inc v|]] es]; cbn in Hc; try done.
    destruct (is_lazy_value v); [destruct (chain es) as [?|[? ?]]|]; done.
  - destruct o as [v|]; cbn; [|done]. by rewrite bool_decide_eq_false_2.
  - destruct o as [v|]; [done|]. unfold read_chain in Hc.
    destruct (entries_below d0 loc i) as [|[k [inc v|]] es]; cbn in Hc; try done.
    destruct (is_lazy_value v); [destruct (chain es) as [?|[? ?]]|]; done.
Qed.

(** C5: validation is exact.  In any history in which each version is recorded at
    most once, [validate_read_locations] accepts a transaction if and only if
    reading every location of its read set again now would give the recorded
    origins and the values that the execution saw. *)
Theorem validation_iff_reread n estimated lazy ops i mv ll vals
  (Hnd : NoDup (recorded ops))
  (Hops : apply_ops (MvMemory_new n estimated lazy) ops = Some mv)
  (Hll : last_locations mv !! i = Some ll)
  (Hread : read_during n estimated lazy ops i (read ll) vals) :
  validate_read_locations mv i = Some true <->
  forall loc os, read ll !! loc = Some os -> read_chain (data mv) loc i = inr (os, vals loc).
Proof.
  unfold validate_read_locations. rewrite Hll. cbn.
  assert (forall loc os, read ll !! loc = Some os ->
    validate_location mv i loc os = true <-> read_chain (data mv) loc i = inr (os, vals loc)) as Hloc.
  { intros loc os Hos. destruct (Hread _ _ Hos) as (ops1 & ops2 & mv1 & -> & E1 & Hc).
    apply (validate_location_chain (data mv1)); [|done]. by eapply histories_agree. }
  split.
  - intros [= Hall] loc os Hos. apply Hloc; [done|]. rewrite forallb_forall in Hall.
    apply (Hall (loc, os)), list_elem_of_In, elem_of_map_to_list. done.
  - intros Hall. f_equal. apply forallb_forall. intros [loc os] Hin%list_elem_of_In%elem_of_map_to_list.
    apply Hloc; [done|]. by apply Hall.
Qed.

(** C13: what [record] does, entry by entry: the locations of the write set hold
    the last value written there, tagged with the incarnation; locations that
    the previous incarnation wrote and this one did not are cleared; nothing of
    another transaction changes; the read set and the written locations are
    remembered; the result says whether some location is new. *)
Theorem record_updates mv v rs ws ll
  (Hll : last_locations mv !! tx_idx v = Some ll) :
  exists b mv', record mv v rs ws = Some (b, mv') /\
  (b = true <-> exists loc, loc ∈ ws.*1 /\ loc ∉ write ll) /\
  (forall loc j, entry (data mv') loc j =
    if decide (j = tx_idx v) then
      match last_write loc ws with
      | Some value => Some (Data (tx_incarnation v) value)
      | None => if decide (loc ∈ write ll) then None else entry (data mv) loc j
      end
    else entry (data mv) loc j) /\
  (exists ll', last_locations mv' !! tx_idx v = Some ll' /\ read ll' = rs /\
    forall loc, loc ∈ write ll' <-> loc ∈ ws.*1) /\
  (forall j, j <> tx_idx v -> last_locations mv' !! j = last_locations mv !! j) /\
  lazy_addresses mv' = lazy_addresses mv /\ new_bytecodes mv' = new_bytecodes mv.
Proof.
  destruct (record_full mv v rs ws ll Hll) as (b & locs & d & E & Hb & Hlocs & _ & Hent).
  exists b. eexists. split; [exact E|]. split; [done|]. split; [exact Hent|]. cbn.
  split; [|split; [|done]].
  - eexists. split; [apply list_lookup_insert_eq; by eapply lookup_lt_Some|]. by split.
  - intros j Hj. by rewrite list_lookup_insert_ne.
Qed.

(** In every history the last written locations of a transaction are
    distinct and hold one of its entries each, and it has a value nowhere else:
    no write of an old incarnation survives. *)
Theorem history_well_formed n estimated lazy ops mv
  (Hops : apply_ops (MvMemory_new n estimated lazy) ops = Some mv) : mv_wf mv.
Proof. by eapply history_wf. Qed.

(** After [convert_writes_to_estimates] of transaction [i] a higher
    transaction that reads a location [i] wrote, with nothing in between, is
    blocked by [i]. *)
Theorem estimates_block_readers n estimated lazy ops mv mv' i j ll loc
  (Hops : apply_ops (MvMemory_new n estimated lazy) ops = Some mv)
  (Hll : last_locations mv !! i = Some ll) (Hloc : loc ∈ write ll)
  (Hij : i < j) (Hbetween : forall k, i < k < j -> entry (data mv) loc k = None)
  (E : convert_writes_to_estimates mv i = Some mv') :
  read_chain (data mv') loc j = inl i.
Proof.
  pose proof (history_wf _ _ _ _ _ Hops) as Hwf.
  destruct (convert_full mv i ll Hll) as (d & E' & Hent). rewrite E in E'. injection E' as ->. cbn.
  pose proof (entry_dom _ _ _ (wf_write _ Hwf _ _ _ Hll Hloc)) as Hdom.
  assert (entry d loc i = Some Estimate) as Hi by (rewrite Hent; by rewrite decide_True).
  assert (forall k, i < k < j -> entry d loc k = None) as Hn.
  { intros k Hk. rewrite Hent, decide_False by lia. by apply Hbetween. }
  unfold read_chain, entries_below. unfold entry in Hi, Hn.
  destruct (d !! loc) as [m|]; cbn in Hi, Hn; [|done].
  by rewrite (range_desc_first m j i Estimate Hij Hi Hn).
Qed.

(** After the writes of an aborted transaction became estimates, validation
    rejects every transaction that read a value of it. *)
Theorem abort_invalidates_readers n estimated lazy ops mv mv' i j ll llj loc os inc
  (Hops : apply_ops (MvMemory_new n estimated lazy) ops = Some mv)
  (Hll : last_locations mv !! i = Some ll) (Hloc : loc ∈ write ll)
  (Hllj : last_locations mv !! j = Some llj)
  (Hos : read llj !! loc = Some os)
  (Hin : FromMvMemory {| tx_idx := i; tx_incarnation := inc |} ∈ os)
  (E : convert_writes_to_estimates mv i = Some mv') :
  validate_read_locations mv' j = Some false.
Proof.
  pose proof (history_wf _ _ _ _ _ Hops) as Hwf.
  destruct (convert_full mv i ll Hll) as (d & E' & Hent). rewrite E in E'. injection E' as ->.
  pose proof (entry_dom _ _ _ (wf_write _ Hwf _ _ _ Hll Hloc)) as Hdom.
  assert (entry d loc i = Some Estimate) as Hi by (rewrite Hent; by rewrite decide_True).
  unfold validate_read_locations. cbn. rewrite Hllj. cbn. f_equal.
  apply not_true_is_false. intros Hall. rewrite forallb_forall in Hall.
  specialize (Hall (loc, os)). cbn in Hall.
  assert (validate_location (mkMvMemory d (last_locations mv) (lazy_addresses mv) (new_bytecodes mv))
    j loc os = true) as Hv by by apply Hall, list_elem_of_In, elem_of_map_to_list.
  unfold validate_location in Hv. cbn in Hv. unfold entry in Hi.
  destruct (d !! loc) as [m|]; cbn in Hi; [|done].
  assert (forall es os, (forall e, (i, e) ∈ es -> e = Estimate) ->
    FromMvMemory {| tx_idx := i; tx_incarnation := inc |} ∈ os -> validate_origins es os = false) as Hno.
  { clear. intros es os. revert es. induction os as [|o os IH]; intros es Hes Hin; [by apply elem_of_nil in Hin|].
    destruct o as [v|]; cbn.
    - destruct es as [|[k [inc' v'|]] es]; try done. destruct v as [vi vinc]. cbn.
      destruct (Nat.eqb_spec k vi) as [->|]; cbn; [|done].
      destruct (Nat.eqb_spec vinc inc') as [->|]; cbn; [|done].
      apply elem_of_cons in Hin as [[= -> ->]|Hin].
      + by specialize (Hes (Data inc' v') ltac:(by left)).
      + apply IH; [|done]. intros e He. apply Hes. by right.
    - destruct es; [|done]. apply elem_of_cons in Hin as [|Hin]; [done|].
      by apply IH. }
  rewrite Hno in Hv; [done| |done].
  intros e [_ He]%range_desc_elem. congruence.
Qed.
End Properties.

(** ** Witnesses

    Two transactions: transaction 0 writes location 7, transaction 1 reads it. *)
Definition ops_example : list (mv_op unit) :=
  [OpRecord {| tx_idx := 0; tx_incarnation := 0 |} ∅ [(7%Z, VStorage 5)];
   OpRecord {| tx_idx := 1; tx_incarnation := 0 |}
     {[ 7%Z := [FromMvMemory {| tx_idx := 0; tx_incarnation := 0 |}] ]} [(8%Z, VStorage 6)]].

Definition mv_example : MvMemory unit :=
  default (MvMemory_new 2 [] []) (apply_ops (MvMemory_new 2 [] []) ops_example).

Lemma validation_iff_reread_witness :
  validate_read_locations mv_example 1 = Some true <->
  forall loc os,
    ({[ 7%Z := [FromMvMemory {| tx_idx := 0; tx_incarnation := 0 |}] ]} : ReadSet) !! loc = Some os ->
    read_chain (data mv_example) loc 1 = inr (os, [VStorage 5]).
Proof.
  refine (validation_iff_reread 2 [] [] ops_example 1 mv_example
    {| read := {[ 7%Z := [FromMvMemory {| tx_idx := 0; tx_incarnation := 0 |}] ]}; write := [8%Z] |}
    (fun _ => [VStorage 5]) _ _ _ _).
  - apply (bool_decide_unpack _). by vm_compute.
  - by vm_compute.
  - by vm_compute.
  - intros loc os H. destruct (proj1 (lookup_singleton_Some (M:=gmap Z) 7%Z loc _ os) H) as [<- <-].
    exists (take 1 ops_example), (drop 1 ops_example). eexists. split; [done|].
    split; [by vm_compute|by vm_compute].
Defined.

Lemma record_updates_witness :
  last_locations mv_example !! 0 = Some {| read := ∅; write := [7%Z] |} /\
  exists b mv', record mv_example {| tx_idx := 0; tx_incarnation := 1 |} ∅ [(9%Z, VStorage 1)] = Some (b, mv') /\
    (b = true <-> exists loc, loc ∈ ([(9%Z, VStorage 1)] : WriteSet).*1 /\ loc ∉ [7%Z]).
Proof.
  split; [by vm_compute|].
  destruct (record_updates mv_example {| tx_idx := 0; tx_incarnation := 1 |} ∅ [(9%Z, VStorage 1)]
    {| read := ∅; write := [7%Z] |}) as (b & mv' & E & Hb & _); [by vm_compute|].
  exists b, mv'. by split.
Defined.

Lemma history_well_formed_witness : mv_wf mv_example.
Proof. apply (history_well_formed 2 [] [] ops_example). by vm_compute. Defined.

Lemma estimates_block_readers_witness :
  exists mv', convert_writes_to_estimates mv_example 0 = Some mv' /\
    read_chain (data mv') 7 1 = inl 0.
Proof.
  eexists. split; [by vm_compute|].
  eapply (estimates_block_readers 2 [] [] ops_example mv_example _ 0 1 {| read := ∅; write := [7%Z] |});
    [by vm_compute|by vm_compute|by left|lia|lia|by vm_compute].
Defined.

Lemma abort_invalidates_readers_witness :
  exists mv', convert_writes_to_estimates mv_example 0 = Some mv' /\
    validate_read_locations mv' 1 = Some false.
Proof.
  eexists. split; [by vm_compute|].
  eapply (abort_invalidates_readers 2 [] [] ops_example mv_example _ 0 1 {| read := ∅; write := [7%Z] |}
    {| read := {[ 7%Z := [FromMvMemory {| tx_idx := 0; tx_incarnation := 0 |}] ]}; write := [8%Z] |} 7
    [FromMvMemory {| tx_idx := 0; tx_incarnation := 0 |}] 0);
    [by vm_compute|by vm_compute|by left|by vm_compute|by vm_compute|by left|by vm_compute].
Defined.
