(* ===== verification/VmDb.v ===== *)
(** * VmDb: the database of one execution (crates/pevm/src/vm.rs)

    [VmDb] intercepts the reads of the EVM while it executes one transaction: it
    answers from the multi-version memory and the storage, records the origins of
    every read, and mocks the accounts of lazily updated raw transfers.  Each
    method takes the memory as it is at that moment; between two reads other
    workers may change it.

    A method returns its answer with the updated database.  When it fails the
    execution is over and its database is dropped, so an error carries none. *)

From S2P Require Import Prelude Types Platform Storage MvMemory.
#[local] Open Scope Z_scope.

Section VmDb.
Context {P : Platform} {E : Type} (display : E -> string) (storage : Storage E).

(** ** Errors *)

Inductive ReadError :=
| StorageError (msg : string)
| Blocking (idx : TxIdx)
| InconsistentRead
| InvalidNonce (idx : TxIdx)
| SelfDestructedAccount
| InvalidBytecode (e : BytecodeConversionError)
| InvalidMemoryValueType.

Inductive VmExecutionError :=
| Retry
| FallbackToSequential
| BlockingTx (idx : TxIdx)
| ExecutionError (e : ReadError + InvalidTransaction).

(** [From<ReadError> for VmExecutionError]. *)
Definition VmExecutionError_from (err : ReadError) : VmExecutionError :=
  match err with
  | InconsistentRead => Retry
  | SelfDestructedAccount => FallbackToSequential
  | Blocking idx => BlockingTx idx
  | _ => ExecutionError (inl err)
  end.

Definition from_storage {A} (m : outcome E A) : outcome ReadError A :=
  map_err (fun e => StorageError (display e)) m.

(** ** State *)

Record VmDb := mkVmDb {
  db_tx_idx : TxIdx;
  db_tx : TxEnv;
  from_hash : MemoryLocationHash;
  to_hash : option MemoryLocationHash;
  to_code_hash : option B256;
  is_lazy : bool;
  read_set : ReadSet;
  read_accounts : gmap MemoryLocationHash (AccountBasic * option B256);
}.

Definition set_read_set (rs : ReadSet) (db : VmDb) : VmDb :=
  mkVmDb (db_tx_idx db) (db_tx db) (from_hash db) (to_hash db) (to_code_hash db) (is_lazy db) rs
    (read_accounts db).
Definition set_read_accounts (ra : gmap MemoryLocationHash (AccountBasic * option B256)) (db : VmDb)
    : VmDb :=
  mkVmDb (db_tx_idx db) (db_tx db) (from_hash db) (to_hash db) (to_code_hash db) (is_lazy db)
    (read_set db) ra.
Definition set_lazy (code_hash : option B256) (lazy : bool) (db : VmDb) : VmDb :=
  mkVmDb (db_tx_idx db) (db_tx db) (from_hash db) (to_hash db) code_hash lazy (read_set db)
    (read_accounts db).

(** [self.read_set.entry(location_hash).or_default()]. *)
Definition origins_at (loc : MemoryLocationHash) (db : VmDb) : ReadOrigins :=
  default [] (read_set db !! loc).
Definition put_origins (loc : MemoryLocationHash) (os : ReadOrigins) (db : VmDb) : VmDb :=
  set_read_set (<[loc := os]> (read_set db)) db.

Definition hash_basic (db : VmDb) (a : Address) : outcome ReadError MemoryLocationHash :=
  if decide (a = caller (db_tx db)) then Ok (from_hash db)
  else match transact_to (db_tx db) with
  | Call to => if decide (to = a) then unwrap (to_hash db) else Ok (hash_deterministic (Basic a))
  | Create => Ok (hash_deterministic (Basic a))
  end.

Definition push_origin (read_origins : ReadOrigins) (origin : ReadOrigin)
    : outcome ReadError ReadOrigins :=
  match last read_origins with
  | Some prev => if decide (prev = origin) then Ok read_origins else Err InconsistentRead
  | None => Ok (read_origins ++ [origin])
  end.

Definition mv_origin (k : TxIdx) (inc : TxIncarnation) : ReadOrigin :=
  FromMvMemory {| tx_idx := k; tx_incarnation := inc |}.

Definition get_code_hash (mv : MvMemory Bytecode) (db : VmDb) (a : Address)
    : outcome ReadError (option B256 * VmDb) :=
  let loc := hash_deterministic (CodeHash a) in
  let read_origins := origins_at loc db in
  let fallback :=
    os ← push_origin read_origins FromStorage;
    h ← from_storage (st_code_hash storage a);
    Ok (h, put_origins loc os db) in
  match entries_below (data mv) loc (db_tx_idx db) with
  | (k, Data inc value) :: _ =>
      match value with
      | SelfDestructed => Err SelfDestructedAccount
      | VCodeHash h => os ← push_origin read_origins (mv_origin k inc); Ok (Some h, put_origins loc os db)
      | _ => fallback
      end
  | _ => fallback
  end.

(** [VmDb::new]. *)
Definition VmDb_new (mv : MvMemory Bytecode) (i : TxIdx) (tx : TxEnv) (from : MemoryLocationHash)
    (to : option MemoryLocationHash) : outcome ReadError VmDb :=
  let db := mkVmDb i tx from to None false ∅ ∅ in
  match transact_to tx with
  | Call addr =>
      '(code_hash, db) ← get_code_hash mv db addr;
      lazy ← (if bool_decide (code_hash = None) then
                if bool_decide (is_Some (data mv !! from)) then Ok true
                else to ← unwrap to; Ok (bool_decide (is_Some (data mv !! to)))
              else Ok false);
      Ok (set_lazy code_hash lazy db)
  | Create => Ok db
  end.

(** ** [basic]: evaluating the entries of an account

    The accumulator of the loop "Fully evaluate lazy updates". *)
Record lazy_acc := mkLazyAcc {
  new_origins : ReadOrigins;
  final_account : option AccountBasic;
  balance_addition : U256;
  positive_addition : bool;
  nonce_addition : Z;
}.

Definition lazy_acc_0 : lazy_acc := mkLazyAcc [] None 0 true 0.

(** One arm of [match value]: [None] is [InvalidMemoryValueType]. *)
Definition add_value (acc : lazy_acc) (o : ReadOrigin) (v : MemoryValue) : option lazy_acc :=
  let os := new_origins acc ++ [o] in
  match v with
  | VBasic basic =>
      Some (mkLazyAcc os (Some basic) (balance_addition acc) (positive_addition acc) (nonce_addition acc))
  | LazyRecipient addition =>
      Some (if positive_addition acc
        then mkLazyAcc os (final_account acc) (sat_add (balance_addition acc) addition) true
               (nonce_addition acc)
        else mkLazyAcc os (final_account acc) (abs_diff (balance_addition acc) addition)
               (balance_addition acc <=? addition) (nonce_addition acc))
  | LazySender subtraction =>
      let n := u64_add (nonce_addition acc) 1 in
      Some (if positive_addition acc
        then mkLazyAcc os (final_account acc) (abs_diff (balance_addition acc) subtraction)
               (subtraction <=? balance_addition acc) n
        else mkLazyAcc os (final_account acc) (sat_add (balance_addition acc) subtraction) false n)
  | _ => None
  end.

(** The loop.  [prev] are the origins of an earlier read of the location, empty
    on the first one; [Panic] is the [get_unchecked] past their end. *)
Fixpoint eval_entries (prev : ReadOrigins) (entries : list (TxIdx * MemoryEntry)) (acc : lazy_acc)
    : outcome ReadError lazy_acc :=
  match entries with
  | [] => Ok acc
  | (blocking, Estimate) :: _ => Err (Blocking blocking)
  | (closest, Data inc v) :: entries =>
      let has_prev := negb (length prev =? 0)%nat in
      if has_prev && (length prev =? length (new_origins acc))%nat then Err InconsistentRead
      else
        let origin := mv_origin closest inc in
        let go :=
          match add_value acc origin v with
          | None => Err InvalidMemoryValueType
          | Some acc' =>
              match final_account acc' with
              | Some _ => Ok acc'
              | None => eval_entries prev entries acc'
              end
          end in
        if has_prev then
          match prev !! length (new_origins acc) with
          | None => Panic
          | Some o => if decide (o = origin) then go else Err InconsistentRead
          end
        else go
  end.

(** "Fall back to storage". *)
Definition storage_fallback (prev : ReadOrigins) (a : Address) (acc : lazy_acc)
    : outcome ReadError lazy_acc :=
  match final_account acc with
  | Some _ => Ok acc
  | None =>
      let has_prev := negb (length prev =? 0)%nat in
      os ← (if negb has_prev then Ok (new_origins acc ++ [FromStorage])
            else if negb (length prev =? length (new_origins acc) + 1)%nat
                    || negb (bool_decide (last prev = Some FromStorage)) then Err InconsistentRead
            else Ok (new_origins acc));
      stored ← from_storage (st_basic storage a);
      let account := match stored with
        | Some basic => Some basic
        | None => if 0 <? balance_addition acc then Some AccountBasic_default else None
        end in
      Ok (mkLazyAcc os account (balance_addition acc) (positive_addition acc) (nonce_addition acc))
  end.

(** The code of an account with hash [code_hash]. *)
Definition load_code (mv : MvMemory Bytecode) (code_hash : option B256)
    : outcome ReadError (option Bytecode) :=
  match code_hash with
  | None => Ok None
  | Some h =>
      match new_bytecodes mv !! h with
      | Some code => Ok (Some code)
      | None =>
          c ← from_storage (st_code_by_hash storage h);
          match c with
          | None => Ok None
          | Some c => b ← map_err InvalidBytecode (Bytecode_try_from c); Ok (Some b)
          end
      end
  end.

(** What the accumulated lazy updates make of the account below them. *)
Definition evaluate (acc : lazy_acc) (account : AccountBasic) : AccountBasic := {|
  balance := if positive_addition acc then sat_add (balance account) (balance_addition acc)
             else sat_sub (balance account) (balance_addition acc);
  nonce := u64_add (nonce account) (nonce_addition acc);
|}.

Definition lazy_mock (db : VmDb) : AccountInfo :=
  mkAccountInfo U256_MAX (default 1 (tx_nonce (db_tx db))) KECCAK_EMPTY None.

(** The tail of [basic]: check the nonce of the sender, load the code and
    register the account in the read cache. *)
Definition finish_basic (mv : MvMemory Bytecode) (db : VmDb) (a : Address) (loc : MemoryLocationHash)
    (account : AccountBasic) : outcome ReadError (option AccountInfo * VmDb) :=
  if bool_decide (loc = from_hash db) &&
     match tx_nonce (db_tx db) with Some n => negb (n =? nonce account) | None => false end
  then if (0 <? db_tx_idx db)%nat then Err (Blocking (db_tx_idx db - 1)%nat)
       else Err (InvalidNonce (db_tx_idx db))
  else
    '(code_hash, db) ← (if decide (Some loc = to_hash db) then Ok (to_code_hash db, db)
                        else get_code_hash mv db a);
    code ← load_code mv code_hash;
    let db := set_read_accounts (<[loc := (account, code_hash)]> (read_accounts db)) db in
    Ok (Some (mkAccountInfo (balance account) (nonce account) (default KECCAK_EMPTY code_hash) code), db).

Definition basic (mv : MvMemory Bytecode) (db : VmDb) (a : Address)
    : outcome ReadError (option AccountInfo * VmDb) :=
  loc ← hash_basic db a;
  if is_lazy db && bool_decide (loc = from_hash db) then Ok (Some (lazy_mock db), db)
  else if is_lazy db && bool_decide (Some loc = to_hash db) then Ok (None, db)
  else
    let prev := origins_at loc db in
    let has_prev := negb (length prev =? 0)%nat in
    let entries := if (0 <? db_tx_idx db)%nat then entries_below (data mv) loc (db_tx_idx db) else [] in
    acc ← eval_entries prev entries lazy_acc_0;
    acc ← storage_fallback prev a acc;
    let db := put_origins loc (if has_prev then prev else new_origins acc) db in
    match final_account acc with
    | Some account => finish_basic mv db a loc (evaluate acc account)
    | None => Ok (None, db)
    end.

(** [code_by_hash], [storage] and [block_hash] of the [Database]. *)
Definition code_by_hash (h : B256) : outcome ReadError Bytecode :=
  c ← from_storage (st_code_by_hash storage h);
  match c with
  | Some c => map_err InvalidBytecode (Bytecode_try_from c)
  | None => Ok Bytecode_default
  end.

Definition read_storage (mv : MvMemory Bytecode) (db : VmDb) (a : Address) (slot : U256)
    : outcome ReadError (U256 * VmDb) :=
  let loc := hash_deterministic (StorageLoc a slot) in
  let read_origins := origins_at loc db in
  let entries := if (0 <? db_tx_idx db)%nat then entries_below (data mv) loc (db_tx_idx db) else [] in
  match entries with
  | (closest, Data inc (VStorage v)) :: _ =>
      os ← push_origin read_origins (mv_origin closest inc);
      Ok (v, put_origins loc os db)
  | (closest, Estimate) :: _ => Err (Blocking closest)
  | _ :: _ => Err InvalidMemoryValueType
  | [] =>
      os ← push_origin read_origins FromStorage;
      v ← from_storage (st_storage storage a slot);
      Ok (v, put_origins loc os db)
  end.

Definition block_hash (n : Z) : outcome ReadError B256 := from_storage (st_block_hash storage n).

End VmDb.
