(* ===== verification/VmDbLemmas.v ===== *)
(** * VmDbLemmas: what a read depends on

    A successful read of an account evaluates exactly the chain of entries that
    [read_chain] specifies, and two memories with the same chain answer alike.
    The lemmas characterise the loop of [basic] in terms of [chain], for a first
    read of a location and for a repeated one. *)

From S2P Require Import Prelude Types Platform Storage MvMemory VmDb.
#[local] Open Scope Z_scope.

Section Lemmas.
Context {P : Platform} {E : Type} (display : E -> string) (storage : Storage E).

(** ** The loop, on the origins and values of a chain *)

Fixpoint replay_values (acc : lazy_acc) (os : ReadOrigins) (vs : list MemoryValue)
    : outcome ReadError lazy_acc :=
  match vs, os with
  | [], _ => Ok acc
  | v :: vs, o :: os =>
      match add_value acc o v with
      | None => Err InvalidMemoryValueType
      | Some acc' =>
          match final_account acc' with
          | Some _ => Ok acc'
          | None => replay_values acc' os vs
          end
      end
  | _ :: _, [] => Panic
  end.

Lemma add_value_origins acc o v acc' :
  add_value acc o v = Some acc' -> new_origins acc' = new_origins acc ++ [o].
Proof. destruct v; cbn; try done; try (intros [= <-]); try done; destruct (positive_addition acc); done. Qed.

Lemma add_value_lazy acc o v : is_lazy_value v = true ->
  exists acc', add_value acc o v = Some acc' /\ final_account acc' = final_account acc.
Proof. destruct v; try done; intros _; eexists; (split; [done|]); by destruct (positive_addition acc). Qed.

Lemma add_value_absolute acc o v acc' : is_lazy_value v = false ->
  add_value acc o v = Some acc' -> exists b, v = VBasic b /\ final_account acc' = Some b.
Proof. destruct v; try done. intros _ [= <-]. by eexists. Qed.

Lemma chain_nonempty es os vs : chain es = inr (os, vs) -> os <> [].
Proof.
  destruct es as [|[k [inc v|]] es]; cbn; try done; [by intros [= <- <-]|].
  destruct (is_lazy_value v); [destruct (chain es) as [?|[? ?]]; [done|]|]; by intros [= <- <-].
Qed.

(** With no earlier read, or one that saw the same chain, the loop is a function
    of the chain. *)
Lemma eval_entries_chain prev es os vs acc :
  chain es = inr (os, vs) -> final_account acc = None ->
  prev = [] \/ prev = new_origins acc ++ os ->
  eval_entries prev es acc = replay_values acc os vs.
Proof.
  revert os vs acc. induction es as [|[k [inc v|]] es IH]; intros os vs acc Hc Hf Hp; cbn in Hc;
    [by injection Hc as <- <-| |done].
  assert (exists os' vs', os = mv_origin k inc :: os' /\ vs = v :: vs' /\
    if is_lazy_value v then chain es = inr (os', vs') else os' = [] /\ vs' = [])
    as (os' & vs' & -> & -> & Hrest).
  { destruct (is_lazy_value v); [destruct (chain es) as [b|[os' vs']]; [done|]|];
      injection Hc as <- <-; eauto 6. }
  assert (match add_value acc (mv_origin k inc) v with
    | None => Err InvalidMemoryValueType
    | Some acc' => match final_account acc' with
      | Some _ => Ok acc' | None => eval_entries prev es acc' end
    end = replay_values acc (mv_origin k inc :: os') (v :: vs')) as Hgo.
  { cbn [replay_values]. destruct (add_value acc (mv_origin k inc) v) as [acc'|] eqn:Ha; [|done].
    destruct (is_lazy_value v) eqn:Hl.
    - destruct (add_value_lazy acc (mv_origin k inc) v Hl) as (acc2 & Ha2 & Hf2).
      rewrite Ha in Ha2. injection Ha2 as <-. rewrite Hf2, Hf. apply IH; [done|congruence|].
      destruct Hp as [->| ->]; [by left|right]. rewrite (add_value_origins _ _ _ _ Ha).
      by rewrite <- app_assoc.
    - by destruct (add_value_absolute _ _ _ _ Hl Ha) as (b & _ & ->). }
  cbn [eval_entries]. destruct Hp as [->| ->]; [exact Hgo|].
  rewrite length_app. cbn [length]. replace (length (new_origins acc) + S (length os') =? 0)%nat with false
    by (symmetry; apply Nat.eqb_neq; lia).
  replace (length (new_origins acc) + S (length os') =? length (new_origins acc))%nat with false
    by (symmetry; apply Nat.eqb_neq; lia).
  cbn [negb andb]. rewrite list_lookup_middle by done. rewrite decide_True by done. exact Hgo.
Qed.

Lemma replay_values_origins acc os vs es acc' :
  chain es = inr (os, vs) -> final_account acc = None ->
  replay_values acc os vs = Ok acc' ->
  (final_account acc' = None /\ new_origins acc' ++ [FromStorage] = new_origins acc ++ os) \/
  (is_Some (final_account acc') /\ new_origins acc' = new_origins acc ++ os).
Proof.
  revert os vs acc. induction es as [|[k [inc v|]] es IH]; intros os vs acc Hc Hf; cbn in Hc;
    [injection Hc as <- <-; intros [= <-]; by left| |done].
  destruct (is_lazy_value v) eqn:Hl.
  - destruct (chain es) as [b|[os' vs']] eqn:Hes; [done|]. injection Hc as <- <-.
    cbn [replay_values]. destruct (add_value_lazy acc (mv_origin k inc) v Hl) as (acc2 & Ha & Hf2).
    unfold mv_origin in Ha. rewrite Ha, Hf2, Hf. intros Hr.
    apply (IH os' vs' acc2 eq_refl ltac:(congruence)) in Hr.
    rewrite (add_value_origins _ _ _ _ Ha), <- app_assoc in Hr. exact Hr.
  - injection Hc as <- <-. cbn [replay_values].
    destruct (add_value acc _ v) as [acc2|] eqn:Ha; [|done].
    destruct (add_value_absolute _ _ _ _ Hl Ha) as (b & _ & Hb). rewrite Hb. intros [= <-].
    right. rewrite Hb. split; [by eexists|]. by apply (add_value_origins _ _ _ _ Ha).
Qed.

(** The account that a chain with storage below it evaluates to. *)
Definition chain_account (a : Address) (os : ReadOrigins) (vs : list MemoryValue)
    : outcome ReadError (option AccountBasic) :=
  acc ← replay_values lazy_acc_0 os vs;
  match final_account acc with
  | Some account => Ok (Some (evaluate acc account))
  | None =>
      stored ← from_storage display (st_basic storage a);
      Ok (match stored with
          | Some account => Some (evaluate acc account)
          | None => if 0 <? balance_addition acc then Some (evaluate acc AccountBasic_default) else None
          end)
  end.

Definition db_entries (mv : MvMemory Bytecode) (db : VmDb) (loc : MemoryLocationHash) :=
  if (0 <? db_tx_idx db)%nat then entries_below (data mv) loc (db_tx_idx db) else [].

Lemma db_entries_below mv db loc : db_entries mv db loc = entries_below (data mv) loc (db_tx_idx db).
Proof.
  unfold db_entries. destruct (Nat.ltb_spec 0 (db_tx_idx db)); [done|].
  replace (db_tx_idx db) with 0%nat by lia. unfold entries_below. by destruct (data mv !! loc).
Qed.

(** [basic] below the lazy mock, as a function of the chain. *)
Definition basic_read (mv : MvMemory Bytecode) (db : VmDb) (a : Address) (loc : MemoryLocationHash)
    : outcome ReadError (option AccountInfo * VmDb) :=
  let prev := origins_at loc db in
  let has_prev := negb (length prev =? 0)%nat in
  acc ← eval_entries prev (db_entries mv db loc) lazy_acc_0;
  acc ← storage_fallback display storage prev a acc;
  let db := put_origins loc (if has_prev then prev else new_origins acc) db in
  match final_account acc with
  | Some account => finish_basic display storage mv db a loc (evaluate acc account)
  | None => Ok (None, db)
  end.

Lemma basic_unfold mv db a : basic display storage mv db a =
  (loc ← hash_basic db a;
   if is_lazy db && bool_decide (loc = from_hash db) then Ok (Some (lazy_mock db), db)
   else if is_lazy db && bool_decide (Some loc = to_hash db) then Ok (None, db)
   else basic_read mv db a loc).
Proof. reflexivity. Qed.

Lemma basic_read_chain mv db a loc os vs :
  read_chain (data mv) loc (db_tx_idx db) = inr (os, vs) ->
  origins_at loc db = [] \/ origins_at loc db = os ->
  basic_read mv db a loc =
  (x ← chain_account a os vs;
   match x with
   | Some account => finish_basic display storage mv (put_origins loc os db) a loc account
   | None => Ok (None, put_origins loc os db)
   end).
Proof.
  intros Hc Hp. unfold read_chain in Hc. rewrite <- db_entries_below in Hc.
  unfold basic_read, chain_account.
  rewrite (eval_entries_chain _ _ os vs) by (done || exact Hp).
  destruct (replay_values lazy_acc_0 os vs) as [acc|e|] eqn:Hr; [|done|done]. cbn.
  pose proof (chain_nonempty _ _ _ Hc) as Hne.
  destruct (replay_values_origins lazy_acc_0 _ _ _ _ Hc eq_refl Hr) as [[Hf Ho]|[[b Hf] Ho]]; cbn in Ho.
  - unfold storage_fallback. rewrite Hf. destruct Hp as [-> | ->]; cbn.
    + destruct (from_storage display (st_basic storage a)) as [[stored|]|e|]; cbn; try done.
      * by rewrite Ho.
      * destruct (0 <? balance_addition acc); by rewrite Ho.
    + assert (length os = length (new_origins acc) + 1)%nat as Hl by (rewrite <- Ho, length_app; done).
      replace (length os =? 0)%nat with false by (symmetry; apply Nat.eqb_neq; lia).
      replace (length os =? length (new_origins acc) + 1)%nat with true by (symmetry; by apply Nat.eqb_eq).
      rewrite bool_decide_eq_true_2 by (rewrite <- Ho; apply last_snoc). cbn.
      destruct (from_storage display (st_basic storage a)) as [[stored|]|e|]; cbn; try done.
      by destruct (0 <? balance_addition acc).
  - unfold storage_fallback. rewrite Hf. cbn. rewrite Hf. rewrite Ho.
    destruct Hp as [-> | ->]; [done|]. by destruct (negb _).
Qed.

(** ** What a successful read saw *)

(** The destruction of a successful loop step, shared by the inductions below. *)
Lemma eval_entries_cons prev k inc v es acc acc' :
  eval_entries prev ((k, Data inc v) :: es) acc = Ok acc' ->
  (prev = [] \/ prev !! length (new_origins acc) = Some (mv_origin k inc)) /\
  exists acc1, add_value acc (mv_origin k inc) v = Some acc1 /\
    match final_account acc1 with Some _ => acc' = acc1 | None => eval_entries prev es acc1 = Ok acc' end.
Proof.
  cbn [eval_entries]. set (go := match add_value _ _ _ with Some _ => _ | None => _ end).
  assert (go = Ok acc' -> exists acc1, add_value acc (mv_origin k inc) v = Some acc1 /\
    match final_account acc1 with Some _ => acc' = acc1 | None => eval_entries prev es acc1 = Ok acc' end)
    as Hgo.
  { subst go. destruct (add_value acc _ v) as [acc1|]; [|done]. intros H. exists acc1. split; [done|].
    destruct (final_account acc1); [congruence|done]. }
  destruct prev as [|o prev]; [auto|]. cbn [length Nat.eqb negb andb].
  destruct (match length (new_origins acc) with O => _ | S _ => _ end); [done|].
  destruct ((o :: prev) !! length (new_origins acc)) as [o'|] eqn:Ho; [|done].
  case_decide as Heq; [|done]. subst o'. auto.
Qed.

Lemma eval_entries_ok prev es acc acc' :
  eval_entries prev es acc = Ok acc' -> final_account acc = None ->
  prev = [] \/ new_origins acc `prefix_of` prev ->
  (exists os vs, chain es = inr (os, vs) /\ replay_values acc os vs = Ok acc') /\
  (prev = [] \/ new_origins acc' `prefix_of` prev).
Proof.
  revert acc. induction es as [|[k [inc v|]] es IH]; intros acc He Hf Hp; [| |done].
  { injection He as <-. split; [|done]. by exists [FromStorage], []. }
  apply eval_entries_cons in He as (Hprev & acc1 & Ha & He).
  assert (prev = [] \/ new_origins acc1 `prefix_of` prev) as Hp1.
  { destruct Hprev as [->|Hl]; [by left|]. destruct Hp as [->|[suf ->]]; [by left|right].
    rewrite (add_value_origins _ _ _ _ Ha). apply prefix_app.
    rewrite lookup_app_r, Nat.sub_diag in Hl by lia. destruct suf as [|o suf]; [done|].
    injection Hl as ->. by exists suf. }
  destruct (is_lazy_value v) eqn:Hl.
  - destruct (add_value_lazy acc (mv_origin k inc) v Hl) as (acc2 & Ha2 & Hf2).
    rewrite Ha in Ha2. injection Ha2 as <-. rewrite Hf2, Hf in He.
    destruct (IH acc1 He ltac:(congruence) Hp1) as ((os & vs & Hc & Hr) & Hp'). split; [|done].
    exists (mv_origin k inc :: os), (v :: vs). cbn. rewrite Hl, Hc. split; [done|].
    by rewrite Ha, Hf2, Hf.
  - destruct (add_value_absolute _ _ _ _ Hl Ha) as (b & -> & Hb). rewrite Hb in He. subst acc'.
    split; [|done]. exists [mv_origin k inc], [VBasic b]. split; [done|]. cbn in Ha |- *. by injection Ha as <-.
Qed.

Lemma storage_fallback_prev prev a acc acc' :
  storage_fallback display storage prev a acc = Ok acc' ->
  final_account acc = None -> prev <> [] -> new_origins acc `prefix_of` prev ->
  prev = new_origins acc ++ [FromStorage].
Proof.
  intros H Hf Hne [suf ->]. unfold storage_fallback in H. rewrite Hf in H.
  destruct (Nat.eqb_spec (length (new_origins acc ++ suf)) 0) as [Hz|_];
    [by apply length_zero_iff_nil in Hz|]. cbn in H.
  destruct (Nat.eqb_spec (length (new_origins acc ++ suf)) (length (new_origins acc) + 1)) as [Hl|];
    [|done]. rewrite length_app in Hl. destruct suf as [|o [|o2 suf]]; cbn in Hl; try lia.
  cbn in H. destruct (decide (last (new_origins acc ++ [o]) = Some FromStorage)) as [Hs|Hs].
  - rewrite last_snoc in Hs. by injection Hs as ->.
  - by rewrite bool_decide_eq_false_2 in H.
Qed.

(** A successful read followed a chain whose origins start the earlier ones. *)
Lemma basic_read_ok mv db a loc x db' :
  basic_read mv db a loc = Ok (x, db') ->
  exists os vs, read_chain (data mv) loc (db_tx_idx db) = inr (os, vs) /\
    (origins_at loc db = [] \/ os `prefix_of` origins_at loc db).
Proof.
  unfold basic_read. intros H. apply outcome_bind_ok in H as (acc & He & H).
  apply outcome_bind_ok in H as (acc' & Hs & H).
  pose proof (eval_entries_ok _ _ _ _ He eq_refl (or_intror (prefix_nil _)))
    as ((os & vs & Hc & Hr) & Hp).
  exists os, vs. unfold read_chain. rewrite <- db_entries_below. split; [done|].
  destruct Hp as [Hp|Hp]; [by left|]. destruct (decide (origins_at loc db = [])) as [|Hne]; [by left|right].
  destruct (replay_values_origins lazy_acc_0 _ _ _ _ Hc eq_refl Hr) as [[Hf Ho]|[Hf Ho]]; cbn in Ho.
  - rewrite <- Ho, <- (storage_fallback_prev _ _ _ _ Hs Hf Hne Hp). done.
  - by rewrite <- Ho.
Qed.

(** Two chains with agreeing values, one of whose origins start the other's,
    are the same. *)
Lemma chain_prefix_eq es0 es os0 vs0 os vs :
  (forall k inc v v', (k, Data inc v) ∈ es0 -> (k, Data inc v') ∈ es -> v = v') ->
  chain es0 = inr (os0, vs0) -> chain es = inr (os, vs) -> os `prefix_of` os0 ->
  os = os0 /\ vs = vs0.
Proof.
  revert es os0 vs0 os vs. induction es0 as [|[k [inc v|]] es0 IH];
    intros [|[k1 [inc1 v1|]] es] os0 vs0 os vs Hag H0 H1 [suf Hp]; cbn in H0, H1; try done.
  - by injection H0 as <- <-; injection H1 as <- <-.
  - injection H0 as <- <-. destruct (is_lazy_value v1);
      [destruct (chain es) as [?|[? ?]]; [done|]|]; by injection H1 as <- <-.
  - injection H1 as <- <-. destruct (is_lazy_value v);
      [destruct (chain es0) as [?|[? ?]]; [done|]|]; by injection H0 as <- <-.
  - assert (exists os' vs', os0 = mv_origin k inc :: os' /\ vs0 = v :: vs' /\
      if is_lazy_value v then chain es0 = inr (os', vs') else os' = [] /\ vs' = [])
      as (os0' & vs0' & -> & -> & H0').
    { destruct (is_lazy_value v); [destruct (chain es0) as [b|[os' vs']]; [done|]|];
        injection H0 as <- <-; eauto 6. }
    assert (exists os' vs', os = mv_origin k1 inc1 :: os' /\ vs = v1 :: vs' /\
      if is_lazy_value v1 then chain es = inr (os', vs') else os' = [] /\ vs' = [])
      as (os' & vs' & -> & -> & H1').
    { destruct (is_lazy_value v1); [destruct (chain es) as [b|[os' vs']]; [done|]|];
        injection H1 as <- <-; eauto 6. }
    injection Hp as -> -> Hp.
    assert (v = v1) as <- by (apply (Hag k1 inc1); by left).
    destruct (is_lazy_value v).
    + destruct (IH es os0' vs0' os' vs') as [-> ->]; try done; [|by exists suf].
      intros k2 inc2 v2 v2' ? ?. eapply (Hag k2 inc2); by right.
    + by destruct H0' as [-> ->], H1' as [-> ->].
Qed.
End Lemmas.
