(* ===== verification/VmDbReplay.v ===== *)
(** * VmDbReplay: reads against a memory that has not changed for them

    If the origins a database has recorded are the ones the memory [mv] gives,
    every successful read that led to them gives the same answer on [mv]: one
    lemma per method of the database.  They make validation sound for whole
    executions (VmSpec.v). *)

From S2P Require Import Prelude Types Platform Storage MvMemory VmDb VmDbLemmas.
#[local] Open Scope Z_scope.

Section Replay.
Context {P : Platform} {E : Type} (display : E -> string) (storage : Storage E).

(** The database was built for a transaction by [Vm::execute]. *)
Definition db_hashes (db : VmDb) : Prop :=
  from_hash db = hash_deterministic (Basic (caller (db_tx db))) /\
  to_hash db = option_map (fun to => hash_deterministic (Basic to)) (TxKind_to (transact_to (db_tx db))).

(** The location hash identifies locations. *)
Definition hash_injective : Prop :=
  forall l1 l2, hash_deterministic l1 = hash_deterministic l2 -> l1 = l2.

Lemma hash_basic_eq db a : db_hashes db -> hash_basic db a = Ok (hash_deterministic (Basic a)).
Proof.
  intros [Hf Ht]. unfold hash_basic. case_decide as Ha; [by rewrite Hf, Ha|].
  destruct (transact_to (db_tx db)) as [|to]; [done|]. case_decide as Hto; [|done].
  rewrite Ht. cbn. by rewrite Hto.
Qed.

(** The origins recorded at [loc] are those of a read of [mv]. *)
Definition current_at (mv : MvMemory Bytecode) (db : VmDb) (loc : MemoryLocationHash) : Prop :=
  origins_at loc db = [] \/ exists vs, read_chain (data mv) loc (db_tx_idx db) = inr (origins_at loc db, vs).

Definition current (mv : MvMemory Bytecode) (db : VmDb) : Prop := forall loc, current_at mv db loc.

(** Code hashes and slots have at most one origin. *)
Definition single_origins (db : VmDb) : Prop :=
  forall l, (forall a, l <> Basic a) -> (length (origins_at (hash_deterministic l) db) <= 1)%nat.

(** What every method keeps: the transaction, its hashes and recorded origins. *)
Record extends (db db' : VmDb) : Prop := {
  ext_idx : db_tx_idx db' = db_tx_idx db;
  ext_tx : db_tx db' = db_tx db;
  ext_from : from_hash db' = from_hash db;
  ext_to : to_hash db' = to_hash db;
  ext_code : to_code_hash db' = to_code_hash db;
  ext_lazy : is_lazy db' = is_lazy db;
  ext_origins : forall loc, origins_at loc db <> [] -> origins_at loc db' = origins_at loc db;
}.

Lemma extends_refl db : extends db db.
Proof. by split. Qed.

Lemma extends_trans db1 db2 db3 : extends db1 db2 -> extends db2 db3 -> extends db1 db3.
Proof.
  intros [? ? ? ? ? ? H1] [? ? ? ? ? ? H2]. split; try congruence.
  intros loc Hl. rewrite H2; [by apply H1|]. rewrite H1; done.
Qed.

Lemma origins_at_put loc os db loc' :
  origins_at loc' (put_origins loc os db) = if decide (loc' = loc) then os else origins_at loc' db.
Proof.
  unfold origins_at, put_origins. cbn. case_decide as H.
  - subst. by rewrite lookup_insert_eq.
  - by rewrite lookup_insert_ne.
Qed.

Lemma put_extends loc os db : (origins_at loc db = [] \/ os = origins_at loc db) ->
  extends db (put_origins loc os db).
Proof.
  intros H. split; try done. intros loc' Hl. rewrite origins_at_put. case_decide as Hd; [|done].
  subst. by destruct H.
Qed.

Lemma current_extends mv db db' : extends db db' -> current mv db' -> current mv db.
Proof.
  intros He Hc loc. destruct (decide (origins_at loc db = [])) as [|Hne]; [by left|].
  specialize (Hc loc). unfold current_at in *. rewrite (ext_origins _ _ He loc Hne), (ext_idx _ _ He) in Hc.
  exact Hc.
Qed.

Lemma push_origin_inv os o os' : push_origin os o = Ok os' ->
  (os = [] /\ os' = [o]) \/ (os' = os /\ last os = Some o).
Proof.
  unfold push_origin. destruct (last os) as [prev|] eqn:Hl.
  - case_decide as Hd; [|done]. intros [= <-]. right. by subst.
  - apply last_None in Hl as ->. intros [= <-]. by left.
Qed.

Lemma push_origin_single os o os' : push_origin os o = Ok os' -> (length os <= 1)%nat -> os' = [o].
Proof.
  intros [[-> ->]|[-> Hl]]%push_origin_inv Hlen; [done|].
  destruct os as [|x [|y os]]; cbn in *; [done|by injection Hl as ->|lia].
Qed.

Lemma push_origin_extends loc db o os' : push_origin (origins_at loc db) o = Ok os' ->
  extends db (put_origins loc os' db).
Proof. intros [[H _]|[-> _]]%push_origin_inv; apply put_extends; auto. Qed.

Lemma put_single loc os db :
  single_origins db -> (length os <= 1)%nat -> single_origins (put_origins loc os db).
Proof. intros Hs Hl l Hb. rewrite origins_at_put. case_decide; [done|by apply Hs]. Qed.

(** ** The chain of a location with one origin *)

Lemma chain_storage es vs : chain es = inr ([FromStorage], vs) -> es = [].
Proof.
  destruct es as [|[k [inc v|]] es]; cbn; try done.
  destruct (is_lazy_value v); [destruct (chain es) as [?|[? ?]]|]; done.
Qed.

Lemma chain_one es k inc vs : chain es = inr ([mv_origin k inc], vs) ->
  exists v es', es = (k, Data inc v) :: es'.
Proof.
  destruct es as [|[k1 [inc1 v|]] es]; cbn; try done.
  destruct (is_lazy_value v); [destruct (chain es) as [?|[os' vs']]; [done|]|];
    intros [= -> -> _]; eauto.
Qed.

Lemma agree_entries d d' loc i k inc v v' : agree d d' loc ->
  (k, Data inc v) ∈ entries_below d loc i -> (k, Data inc v') ∈ entries_below d' loc i -> v = v'.
Proof. intros Ha [_ H1]%entries_below_elem [_ H2]%entries_below_elem. by eapply Ha. Qed.

(** ** Code hashes *)

(** What a code hash read found: the closest entry, or the storage when that is
    neither a code hash nor a self-destruction. *)
Definition code_found (entries : list (TxIdx * MemoryEntry)) (a : Address) (o : ReadOrigin)
    (h : option B256) : Prop :=
  match entries with
  | (k, Data inc (VCodeHash h')) :: _ => o = mv_origin k inc /\ h = Some h'
  | (_, Data _ SelfDestructed) :: _ => False
  | _ => o = FromStorage /\ from_storage display (st_code_hash storage a) = Ok h
  end.

Lemma get_code_hash_iff mv db a h db' :
  get_code_hash display storage mv db a = Ok (h, db') <->
  exists o os, code_found (entries_below (data mv) (hash_deterministic (CodeHash a)) (db_tx_idx db)) a o h /\
    push_origin (origins_at (hash_deterministic (CodeHash a)) db) o = Ok os /\
    db' = put_origins (hash_deterministic (CodeHash a)) os db.
Proof.
  unfold get_code_hash. set (loc := hash_deterministic (CodeHash a)).
  set (fallback := os ← push_origin _ FromStorage; _).
  assert (fallback = Ok (h, db') <-> exists o os,
    (o = FromStorage /\ from_storage display (st_code_hash storage a) = Ok h) /\
    push_origin (origins_at loc db) o = Ok os /\ db' = put_origins loc os db) as Hfb.
  { subst fallback. rewrite outcome_bind_ok. setoid_rewrite outcome_bind_ok. split.
    - intros (os & Ho & h' & Hh & [= <- <-]). eauto 8.
    - intros (o & os & [-> Hh] & Ho & ->). eauto 8. }
  unfold code_found.
  destruct (entries_below (data mv) loc (db_tx_idx db)) as [|[k [inc [| | | | |]|]] es]; try exact Hfb.
  - rewrite outcome_bind_ok. split.
    + intros (os & Ho & [= <- <-]). eauto 8.
    + intros (o & os & [-> ->] & Ho & ->). eauto 8.
  - split; [done|]. by intros (? & ? & [] & _).
Qed.

Lemma get_code_hash_extends mv db a h db' :
  get_code_hash display storage mv db a = Ok (h, db') -> extends db db'.
Proof. intros (o & os & _ & Ho & ->)%get_code_hash_iff. by eapply push_origin_extends. Qed.

Lemma get_code_hash_single mv db a h db' : single_origins db ->
  get_code_hash display storage mv db a = Ok (h, db') -> single_origins db'.
Proof.
  intros Hs (o & os & _ & Ho & ->)%get_code_hash_iff. apply put_single; [done|].
  rewrite (push_origin_single _ _ _ Ho); [done|]. by apply Hs.
Qed.

(** A recorded single origin, on the memory it is current for. *)
Lemma current_single mv db loc o : current_at mv (put_origins loc [o] db) loc ->
  exists vs, chain (entries_below (data mv) loc (db_tx_idx db)) = inr ([o], vs).
Proof.
  intros [Hn|[vs Hch]]; unfold read_chain in *; rewrite origins_at_put, decide_True in * by done; [done|].
  eauto.
Qed.

Lemma get_code_hash_replay mv mv' db a h db' :
  single_origins db -> (forall loc, agree (data mv) (data mv') loc) -> current mv' db' ->
  get_code_hash display storage mv db a = Ok (h, db') ->
  get_code_hash display storage mv' db a = Ok (h, db').
Proof.
  intros Hs Hag Hc (o & os & Hf & Ho & ->)%get_code_hash_iff. apply get_code_hash_iff.
  set (loc := hash_deterministic (CodeHash a)) in *. exists o, os. split; [|done].
  rewrite (push_origin_single _ _ _ Ho (Hs (CodeHash a) ltac:(done))) in Hc.
  destruct (current_single _ _ _ _ (Hc loc)) as [vs Hch].
  assert (o = FromStorage -> from_storage display (st_code_hash storage a) = Ok h ->
    code_found (entries_below (data mv') loc (db_tx_idx db)) a o h) as Hfb.
  { intros -> Hh. rewrite (chain_storage _ _ Hch). by split. }
  unfold code_found in Hf.
  destruct (entries_below (data mv) loc (db_tx_idx db)) as [|[k [inc [| | | | |]|]] es] eqn:Hes;
    try (by destruct Hf; apply Hfb).
  destruct Hf as [-> ->]. destruct (chain_one _ _ _ _ Hch) as (v & es' & Hes').
  assert (VCodeHash h0 = v) as <-.
  { apply (agree_entries _ _ loc (db_tx_idx db) k inc _ _ (Hag loc)); [rewrite Hes|rewrite Hes']; by left. }
  by rewrite Hes'.
Qed.

(** ** Slots *)

Definition slot_found (entries : list (TxIdx * MemoryEntry)) (a : Address) (slot : U256)
    (o : ReadOrigin) (v : U256) : Prop :=
  match entries with
  | (k, Data inc (VStorage v')) :: _ => o = mv_origin k inc /\ v = v'
  | _ :: _ => False
  | [] => o = FromStorage /\ from_storage display (st_storage storage a slot) = Ok v
  end.

Lemma read_storage_iff mv db a slot v db' :
  read_storage display storage mv db a slot = Ok (v, db') <->
  exists o os, slot_found (entries_below (data mv) (hash_deterministic (StorageLoc a slot)) (db_tx_idx db)) a slot o v /\
    push_origin (origins_at (hash_deterministic (StorageLoc a slot)) db) o = Ok os /\
    db' = put_origins (hash_deterministic (StorageLoc a slot)) os db.
Proof.
  unfold read_storage. set (loc := hash_deterministic (StorageLoc a slot)).
  change (if (0 <? db_tx_idx db)%nat then entries_below (data mv) loc (db_tx_idx db) else [])
    with (db_entries mv db loc). rewrite db_entries_below. unfold slot_found.
  destruct (entries_below (data mv) loc (db_tx_idx db)) as [|[k [inc [| | | | |]|]] es];
    try (split; [done|by intros (? & ? & [] & _)]).
  - rewrite outcome_bind_ok. setoid_rewrite outcome_bind_ok. split.
    + intros (os & Ho & v' & Hh & [= <- <-]). eauto 8.
    + intros (o & os & [-> Hh] & Ho & ->). eauto 8.
  - rewrite outcome_bind_ok. split.
    + intros (os & Ho & [= <- <-]). eauto 8.
    + intros (o & os & [-> ->] & Ho & ->). eauto 8.
Qed.

Lemma read_storage_extends mv db a slot v db' :
  read_storage display storage mv db a slot = Ok (v, db') -> extends db db'.
Proof. intros (o & os & _ & Ho & ->)%read_storage_iff. by eapply push_origin_extends. Qed.

Lemma read_storage_single mv db a slot v db' : single_origins db ->
  read_storage display storage mv db a slot = Ok (v, db') -> single_origins db'.
Proof.
  intros Hs (o & os & _ & Ho & ->)%read_storage_iff. apply put_single; [done|].
  rewrite (push_origin_single _ _ _ Ho); [done|]. by apply Hs.
Qed.

Lemma read_storage_replay mv mv' db a slot v db' :
  single_origins db -> (forall loc, agree (data mv) (data mv') loc) -> current mv' db' ->
  read_storage display storage mv db a slot = Ok (v, db') ->
  read_storage display storage mv' db a slot = Ok (v, db').
Proof.
  intros Hs Hag Hc (o & os & Hf & Ho & ->)%read_storage_iff. apply read_storage_iff.
  set (loc := hash_deterministic (StorageLoc a slot)) in *. exists o, os. split; [|done].
  rewrite (push_origin_single _ _ _ Ho (Hs (StorageLoc a slot) ltac:(done))) in Hc.
  destruct (current_single _ _ _ _ (Hc loc)) as [vs Hch]. unfold slot_found in Hf.
  destruct (entries_below (data mv) loc (db_tx_idx db)) as [|[k [inc [| | | | |]|]] es] eqn:Hes; try done.
  - destruct Hf as [-> Hv]. by rewrite (chain_storage _ _ Hch).
  - destruct Hf as [-> ->]. destruct (chain_one _ _ _ _ Hch) as (v' & es' & Hes').
    assert (VStorage v0 = v') as <-.
    { apply (agree_entries _ _ loc (db_tx_idx db) k inc _ _ (Hag loc)); [rewrite Hes|rewrite Hes']; by left. }
    by rewrite Hes'.
Qed.

(** ** Accounts *)

Lemma set_read_accounts_extends ra db : extends db (set_read_accounts ra db).
Proof. by split. Qed.

Lemma finish_basic_inv mv db a loc account x db' :
  finish_basic display storage mv db a loc account = Ok (x, db') ->
  exists db1 ra, db' = set_read_accounts ra db1 /\
    (db1 = db \/ exists h, get_code_hash display storage mv db a = Ok (h, db1)).
Proof.
  unfold finish_basic. destruct (_ && _); [by destruct (0 <? _)%nat|].
  intros ([h db1] & Hh & (code & _ & [= _ <-])%outcome_bind_ok)%outcome_bind_ok.
  exists db1. eexists. split; [done|]. revert Hh. case_decide; [intros [= _ <-]; by left|right; eauto].
Qed.

Lemma finish_basic_extends mv db a loc account x db' :
  finish_basic display storage mv db a loc account = Ok (x, db') -> extends db db'.
Proof.
  intros (db1 & ra & -> & H)%finish_basic_inv.
  apply extends_trans with db1; [|apply set_read_accounts_extends].
  destruct H as [->|[h H]]; [apply extends_refl|by eapply get_code_hash_extends].
Qed.

Lemma finish_basic_single mv db a loc account x db' : single_origins db ->
  finish_basic display storage mv db a loc account = Ok (x, db') -> single_origins db'.
Proof.
  intros Hs (db1 & ra & -> & H)%finish_basic_inv. change (single_origins db1).
  destruct H as [->|[h H]]; [done|by eapply get_code_hash_single].
Qed.

(** Both memories load the same bytecode for a hash. *)
Definition same_code (mv mv' : MvMemory Bytecode) (h : option B256) : Prop :=
  load_code display storage mv h = load_code display storage mv' h.

(** The hashes that [db] may load from [mv]: those of accounts read there, and
    that of the recipient, which it keeps. *)
Definition same_codes (mv mv' : MvMemory Bytecode) (db : VmDb) : Prop :=
  same_code mv mv' (to_code_hash db) /\
  forall db1 a h db2, get_code_hash display storage mv db1 a = Ok (h, db2) -> same_code mv mv' h.

Lemma finish_basic_replay mv mv' db a loc account x db' :
  single_origins db -> (forall l, agree (data mv) (data mv') l) -> same_codes mv mv' db ->
  current mv' db' ->
  finish_basic display storage mv db a loc account = Ok (x, db') ->
  finish_basic display storage mv' db a loc account = Ok (x, db').
Proof.
  intros Hs Hag Hcode Hc. unfold finish_basic. destruct (_ && _); [done|].
  intros ([h db1] & Hh & Hrest)%outcome_bind_ok. apply outcome_bind_ok. exists (h, db1).
  pose proof Hrest as (code & Hload & [= Hx Hdb])%outcome_bind_ok.
  assert (current mv' db1) as Hc1 by (subst db'; exact Hc).
  destruct Hcode as [Hto Hget]. split.
  - revert Hh. case_decide; [done|]. by apply get_code_hash_replay.
  - apply outcome_bind_ok. exists code. split; [|by rewrite Hx, Hdb].
    assert (same_code mv mv' h) as <-; [|done].
    revert Hh. case_decide; [by intros [= <- _]|by apply Hget].
Qed.

(** A successful read of an account, from its chain on. *)
Definition basic_from mv db a loc os account : outcome ReadError (option AccountInfo * VmDb) :=
  match account with
  | Some account => finish_basic display storage mv (put_origins loc os db) a loc account
  | None => Ok (None, put_origins loc os db)
  end.

Lemma basic_from_extends mv db a loc os account x db' :
  (origins_at loc db = [] \/ os = origins_at loc db) ->
  basic_from mv db a loc os account = Ok (x, db') -> extends db db'.
Proof.
  intros Ho H. apply extends_trans with (put_origins loc os db); [by apply put_extends|].
  destruct account; [by eapply finish_basic_extends|]. injection H as _ <-. apply extends_refl.
Qed.

(** The origins that [basic_read] leaves: the earlier ones, or those it found. *)
Lemma basic_read_leaves mv db a loc x db' :
  basic_read display storage mv db a loc = Ok (x, db') ->
  exists os account, os <> [] /\ (origins_at loc db = [] \/ os = origins_at loc db) /\
    basic_from mv db a loc os account = Ok (x, db').
Proof.
  unfold basic_read. intros (acc & He & (acc' & Hs & H)%outcome_bind_ok)%outcome_bind_ok.
  destruct (eval_entries_ok _ _ _ _ He eq_refl (or_intror (prefix_nil _))) as ((os & vs & Hc & Hr) & Hp).
  pose proof (chain_nonempty _ _ _ Hc) as Hne.
  destruct (origins_at loc db) as [|o os0] eqn:Ho.
  - exists (new_origins acc'), (option_map (evaluate acc') (final_account acc')).
    split; [|split; [by left|by destruct (final_account acc')]].
    destruct (replay_values_origins lazy_acc_0 _ _ _ _ Hc eq_refl Hr) as [[Hf Hn]|[[b Hf] Hn]];
      unfold storage_fallback in Hs; rewrite Hf in Hs.
    + apply outcome_bind_ok in Hs as (os' & [= <-] & (st & _ & [= <-])%outcome_bind_ok). cbn.
      by destruct (new_origins acc).
    + injection Hs as <-. by rewrite Hn.
  - exists (o :: os0), (option_map (evaluate acc') (final_account acc')).
    split; [done|split; [by right|]]. by destruct (final_account acc').
Qed.

Lemma basic_extends mv db a x db' : db_hashes db ->
  basic display storage mv db a = Ok (x, db') -> extends db db'.
Proof.
  intros Hh. rewrite basic_unfold, (hash_basic_eq db a Hh). cbn.
  destruct (_ && _); [intros [= _ <-]; apply extends_refl|].
  destruct (_ && _); [intros [= _ <-]; apply extends_refl|].
  intros (os & account & _ & Ho & H)%basic_read_leaves. by eapply basic_from_extends.
Qed.

Lemma basic_single mv db a x db' : db_hashes db -> hash_injective -> single_origins db ->
  basic display storage mv db a = Ok (x, db') -> single_origins db'.
Proof.
  intros Hh Hinj Hs. rewrite basic_unfold, (hash_basic_eq db a Hh). cbn.
  destruct (_ && _); [by intros [= _ <-]|]. destruct (_ && _); [by intros [= _ <-]|].
  intros (os & account & _ & Ho & H)%basic_read_leaves.
  assert (single_origins (put_origins (hash_deterministic (Basic a)) os db)) as Hs1.
  { intros l Hl. rewrite origins_at_put. case_decide as Hd; [|by apply Hs].
    apply Hinj in Hd. by destruct (Hl a). }
  destruct account; cbn in H; [by eapply finish_basic_single|]. by injection H as _ <-.
Qed.

(** [basic] on the memory its origins are current for. *)
Lemma basic_replay mv mv' db a x db' :
  db_hashes db -> single_origins db -> hash_injective ->
  (forall l, agree (data mv) (data mv') l) -> same_codes mv mv' db -> current mv' db' ->
  basic display storage mv db a = Ok (x, db') -> basic display storage mv' db a = Ok (x, db').
Proof.
  intros Hh Hs Hinj Hag Hcode Hc H. pose proof (basic_extends _ _ _ _ _ Hh H) as Hext.
  rewrite basic_unfold, (hash_basic_eq db a Hh) in H |- *. cbn in H |- *.
  destruct (_ && _); [done|]. destruct (_ && _); [done|].
  set (loc := hash_deterministic (Basic a)) in *.
  pose proof (basic_read_leaves _ _ _ _ _ _ H) as (os1 & account1 & Hne & Ho1 & H1).
  destruct (basic_read_ok _ _ _ _ _ _ _ _ H) as (os & vs & Hch & Hpre).
  assert (origins_at loc db' = os1) as Hos1.
  { assert (extends (put_origins loc os1 db) db') as He.
    { destruct account1; cbn in H1; [by eapply finish_basic_extends|]. injection H1 as _ <-. apply extends_refl. }
    pose proof (ext_origins _ _ He loc) as Hq. rewrite origins_at_put, decide_True in Hq by done. auto. }
  pose proof (ext_idx _ _ Hext) as Hidx.
  destruct (Hc loc) as [Hn|[vs' Hch']]; [congruence|]. rewrite Hos1, Hidx in Hch'.
  assert (os = os1) as ->.
  { destruct Ho1 as [Hnil|Heq].
    - rewrite (basic_read_chain _ _ _ _ _ _ os vs Hch (or_introl Hnil)) in H.
      apply outcome_bind_ok in H as (y & _ & H).
      assert (extends (put_origins loc os db) db') as He.
      { destruct y; [by eapply finish_basic_extends|]. injection H as _ <-. apply extends_refl. }
      pose proof (ext_origins _ _ He loc) as Hq. rewrite origins_at_put, decide_True in Hq by done.
      rewrite <- Hos1. symmetry. apply Hq. by eapply chain_nonempty.
    - destruct Hpre as [Hnil|Hpre]; [congruence|]. rewrite <- Heq in Hpre.
      eapply (chain_prefix_eq _ _ os1 vs' os vs); [|exact Hch'|exact Hch|done].
      intros k inc v v' Hin Hin'. symmetry. by eapply agree_entries. }
  assert (vs = vs') as <-.
  { eapply (chain_prefix_eq _ _ os1 vs' os1 vs); [|exact Hch'|exact Hch|done].
    intros k inc v v' Hin Hin'. symmetry. by eapply agree_entries. }
  assert (origins_at loc db = [] \/ origins_at loc db = os1) as Ho2 by (destruct Ho1; auto).
  rewrite (basic_read_chain _ _ _ _ _ _ os1 vs Hch Ho2) in H.
  rewrite (basic_read_chain _ _ _ _ _ _ os1 vs Hch' Ho2).
  apply outcome_bind_ok in H as (y & Hy & H). apply outcome_bind_ok. exists y. split; [done|].
  destruct y as [account|]; [|done]. eapply finish_basic_replay; try done.
  intros l Hl. rewrite origins_at_put. case_decide as Hd; [|by apply Hs]. apply Hinj in Hd. by destruct (Hl a).
Qed.
End Replay.
