(* ===== verification/Vm.v ===== *)
(** * Vm: executing one transaction (crates/pevm/src/vm.rs)

    [Vm::execute] builds the database, runs the EVM on it, turns the resulting
    state into a write set with the rewards of the beneficiary, and records read
    and write set in the multi-version memory.  The EVM is the request tree of
    Platform.v.  While it runs other workers change the memory, so the run takes
    the memory at each of its reads ([mvs k] at the [k]-th); the recording at the
    end is one step on the memory of that moment. *)

From S2P Require Import Prelude Types Platform Storage MvMemory VmDb.
#[local] Open Scope Z_scope.

Section Vm.
Context {P : Platform} {E : Type} (display : E -> string).

(** ** Chains (the part of the [PexeChain] trait that execution uses) *)

Inductive RewardPolicy :=
| Ethereum
| Optimism (l1_fee_recipient_location_hash base_fee_vault_location_hash : MemoryLocationHash).

(** What [evm.transact()] gives: an error of the transaction or the new state,
    and the L1 block info of the EVM context. *)
Abbreviation evm_output := ((InvalidTransaction + ResultAndState) * option L1BlockInfo)%type.

Record PexeChain (SpecId : Type) := mkPexeChain {
  is_eip_1559_enabled : SpecId -> bool;
  is_eip_161_enabled : SpecId -> bool;
  get_reward_policy : RewardPolicy;
  build_evm : SpecId -> bool -> BlockEnv -> TxEnv -> evm_run evm_output;
  (* revm's [L1BlockInfo::calculate_tx_l1_cost], which takes its own [SpecId] *)
  calculate_tx_l1_cost : L1BlockInfo -> list Z -> SpecId -> U256;
  (* the estimated locations and lazy addresses that [build_mv_memory] passes to [MvMemory::new] *)
  mv_estimates : BlockEnv -> list TxEnv -> list (MemoryLocationHash * list TxIdx) * list Address;
}.
Arguments is_eip_1559_enabled {SpecId}.
Arguments is_eip_161_enabled {SpecId}.
Arguments get_reward_policy {SpecId}.
Arguments build_evm {SpecId}.
Arguments calculate_tx_l1_cost {SpecId}.
Arguments mv_estimates {SpecId}.

(** [PexeChain::build_mv_memory]. *)
Definition build_mv_memory {SpecId} (chain : PexeChain SpecId) (block_env : BlockEnv) (txs : list TxEnv)
    : MvMemory Bytecode :=
  let '(estimated, lazy) := mv_estimates chain block_env txs in
  MvMemory_new (length txs) estimated lazy.

(** ** Results *)

Record Receipt := mkReceipt {
  receipt_status : bool;
  cumulative_gas_used : Z;
  receipt_logs : list (list Z);
}.

Abbreviation EvmStateTransitions := (gmap Address (option EvmAccount)).

Record PexeTxExecutionResult := mkPexeTxExecutionResult {
  receipt : Receipt;
  tx_state : EvmStateTransitions;
}.

(** The entry of one touched account in the state transitions. *)
Definition transition (eip_161 : bool) (a : Account) : outcome Empty_set (option EvmAccount) :=
  if is_selfdestructed a || is_empty a && eip_161 then Ok None
  else acc ← EvmAccount_from a; Ok (Some acc).

Fixpoint transitions (eip_161 : bool) (l : list (Address * Account))
    : outcome Empty_set EvmStateTransitions :=
  match l with
  | [] => Ok ∅
  | (addr, a) :: l =>
      if is_touched a then
        x ← transition eip_161 a;
        rest ← transitions eip_161 l;
        (* a later entry of the same address would replace this one *)
        Ok (match rest !! addr with Some _ => rest | None => <[addr := x]> rest end)
      else transitions eip_161 l
  end.

(** [PexeTxExecutionResult::from_revm]. *)
Definition from_revm {SpecId} (chain : PexeChain SpecId) (spec : SpecId) (r : ResultAndState)
    : outcome Empty_set PexeTxExecutionResult :=
  st ← transitions (is_eip_161_enabled chain spec) (state r);
  Ok (mkPexeTxExecutionResult
    (mkReceipt (is_success (result r)) (gas_used (result r)) (logs (result r))) st).

Record VmExecutionResult := mkVmExecutionResult {
  execution_result : PexeTxExecutionResult;
  flags : Z;
}.

(** ** Running the EVM on a [VmDb] *)

Section Run.
Context (storage : Storage E).

Fixpoint run_evm {R} (mvs : nat -> MvMemory Bytecode) (k : nat) (t : evm_run R) (db : VmDb)
    : outcome ReadError (R * VmDb) :=
  match t with
  | EvmDone r => Ok (r, db)
  | EvmBasic a c => '(x, db) ← basic display storage (mvs k) db a; run_evm mvs (S k) (c x) db
  | EvmCodeByHash h c => x ← code_by_hash display storage h; run_evm mvs (S k) (c x) db
  | EvmStorage a slot c =>
      '(x, db) ← read_storage display storage (mvs k) db a slot; run_evm mvs (S k) (c x) db
  | EvmBlockHash n c => x ← block_hash display storage n; run_evm mvs (S k) (c x) db
  end.
End Run.

(** ** [Vm] *)

Record Vm (SpecId : Type) := mkVm {
  vm_storage : Storage E;
  vm_chain : PexeChain SpecId;
  vm_block_env : BlockEnv;
  vm_txs : list TxEnv;
  vm_spec_id : SpecId;
  beneficiary_location_hash : MemoryLocationHash;
  reward_policy : RewardPolicy;
}.
Arguments vm_storage {SpecId}.
Arguments vm_chain {SpecId}.
Arguments vm_block_env {SpecId}.
Arguments vm_txs {SpecId}.
Arguments vm_spec_id {SpecId}.
Arguments beneficiary_location_hash {SpecId}.
Arguments reward_policy {SpecId}.

Definition Vm_new {SpecId} (storage : Storage E) (chain : PexeChain SpecId) (block_env : BlockEnv)
    (txs : list TxEnv) (spec : SpecId) : Vm SpecId :=
  mkVm SpecId storage chain block_env txs spec
    (hash_deterministic (Basic (coinbase block_env))) (get_reward_policy chain).

(** ** Rewards *)

(** The effective gas price that [apply_rewards] pays out. *)
Definition reward_gas_price {SpecId} (vm : Vm SpecId) (tx : TxEnv) : U256 :=
  let base := basefee (vm_block_env vm) in
  let price := match gas_priority_fee tx with
    | Some fee => Z.min (gas_price tx) (sat_add fee base)
    | None => gas_price tx
    end in
  if is_eip_1559_enabled (vm_chain vm) (vm_spec_id vm) then sat_sub price base else price.

Definition rewards {SpecId} (vm : Vm SpecId) (tx : TxEnv) (gas : U256) (l1 : option L1BlockInfo)
    : outcome VmExecutionError (list (MemoryLocationHash * U256)) :=
  let price := reward_gas_price vm tx in
  match reward_policy vm with
  | Ethereum => Ok [(beneficiary_location_hash vm, sat_mul price gas)]
  | Optimism l1_loc base_loc =>
      match source_hash tx with
      | Some _ => Ok []
      | None =>
          enveloped ← unwrap (enveloped_tx tx);
          info ← unwrap l1;
          Ok [(beneficiary_location_hash vm, sat_mul price gas);
              (l1_loc, calculate_tx_l1_cost (vm_chain vm) info enveloped (vm_spec_id vm));
              (base_loc, sat_mul (basefee (vm_block_env vm)) gas)]
      end
  end.

(** One reward on the write set: add to the first entry of the recipient, or
    push a lazy one. *)
Fixpoint add_reward (ws : WriteSet) (recipient : MemoryLocationHash) (amount : U256)
    : outcome VmExecutionError WriteSet :=
  match ws with
  | [] => Ok [(recipient, LazyRecipient amount)]
  | (loc, v) :: ws =>
      if decide (loc = recipient) then
        match v with
        | VBasic b => Ok ((loc, VBasic (mkAccountBasic (sat_add (balance b) amount) (nonce b))) :: ws)
        | LazySender s => Ok ((loc, LazySender (sat_sub s amount)) :: ws)
        | LazyRecipient x => Ok ((loc, LazyRecipient (sat_add x amount)) :: ws)
        | _ => Err (VmExecutionError_from InvalidMemoryValueType)
        end
      else ws' ← add_reward ws recipient amount; Ok ((loc, v) :: ws')
  end.

Fixpoint add_rewards (ws : WriteSet) (rs : list (MemoryLocationHash * U256))
    : outcome VmExecutionError WriteSet :=
  match rs with
  | [] => Ok ws
  | (recipient, amount) :: rs => ws ← add_reward ws recipient amount; add_rewards ws rs
  end.

Definition apply_rewards {SpecId} (vm : Vm SpecId) (ws : WriteSet) (tx : TxEnv) (gas : U256)
    (l1 : option L1BlockInfo) : outcome VmExecutionError WriteSet :=
  rs ← rewards vm tx gas l1;
  add_rewards ws rs.

(** ** The write set *)

Abbreviation NewBytecodes := (gmap B256 Bytecode).

(** The writes of one account of the resulting state. *)
Definition account_writes (eip_161 : bool) (db : VmDb) (tx : TxEnv) (a : Address) (acc : Account)
    (codes : NewBytecodes) : outcome VmExecutionError (WriteSet * NewBytecodes) :=
  if is_selfdestructed acc then Ok ([(hash_deterministic (CodeHash a), SelfDestructed)], codes)
  else
    touched ← (if is_touched acc then
      let loc := hash_deterministic (Basic a) in
      let read_account := read_accounts db !! loc in
      let has_code := negb (is_empty_code_hash (info acc)) in
      let is_new_code := has_code &&
        match read_account with Some (_, Some _) => false | _ => true end in
      let changed := is_new_code ||
        match read_account with
        | None => true
        | Some (b, _) => negb (nonce b =? ai_nonce (info acc)) || negb (balance b =? ai_balance (info acc))
        end in
      let basic_write :=
        if changed then
          if is_lazy db then
            if decide (loc = from_hash db) then [(loc, LazySender (u256_sub U256_MAX (ai_balance (info acc))))]
            else if decide (Some loc = to_hash db) then [(loc, LazyRecipient (value tx))]
            else []
          else if negb eip_161 || negb (is_empty acc)
          then [(loc, VBasic (mkAccountBasic (ai_balance (info acc)) (ai_nonce (info acc))))]
          else []
        else [] in
      if is_new_code then
        codes ← match codes !! ai_code_hash (info acc) with
          | Some _ => Ok codes
          | None => c ← unwrap (ai_code (info acc)); Ok (<[ai_code_hash (info acc) := c]> codes)
          end;
        Ok (basic_write ++ [(hash_deterministic (CodeHash a), VCodeHash (ai_code_hash (info acc)))], codes)
      else Ok (basic_write, codes)
    else Ok ([], codes));
    let '(ws, codes) := touched in
    Ok (ws ++ ((fun '(slot, v) => (hash_deterministic (StorageLoc a slot), VStorage v))
                 <$> changed_storage_slots acc), codes).

Fixpoint state_writes (eip_161 : bool) (db : VmDb) (tx : TxEnv) (l : list (Address * Account))
    (codes : NewBytecodes) : outcome VmExecutionError (WriteSet * NewBytecodes) :=
  match l with
  | [] => Ok ([], codes)
  | (a, acc) :: l =>
      '(ws, codes) ← account_writes eip_161 db tx a acc codes;
      '(ws', codes) ← state_writes eip_161 db tx l codes;
      Ok (ws ++ ws', codes)
  end.

(** ** [execute] *)

(** "Optimistically retry": the arm of a transaction error. *)
Definition transaction_error (i : TxIdx) (err : InvalidTransaction) : VmExecutionError :=
  match err with
  | LackOfFundForMaxFee _ _ | NonceTooHigh =>
      if (0 <? i)%nat then BlockingTx (i - 1)%nat else ExecutionError (inr err)
  | OtherInvalid => ExecutionError (inr err)
  end.

(** [from_hash] and [to_hash] of a transaction. *)
Definition tx_from_hash (tx : TxEnv) : MemoryLocationHash := hash_deterministic (Basic (caller tx)).
Definition tx_to_hash (tx : TxEnv) : option MemoryLocationHash :=
  option_map (fun to => hash_deterministic (Basic to)) (TxKind_to (transact_to tx)).

(** The reading half: create the database, run the EVM. *)
Definition execute_reads {SpecId} (vm : Vm SpecId) (mvs : nat -> MvMemory Bytecode) (i : TxIdx)
    (tx : TxEnv) : outcome VmExecutionError (evm_output * VmDb) :=
  db ← map_err VmExecutionError_from
    (VmDb_new display (vm_storage vm) (mvs 0%nat) i tx (tx_from_hash tx) (tx_to_hash tx));
  map_err VmExecutionError_from
    (run_evm (vm_storage vm) mvs 1
       (build_evm (vm_chain vm) (vm_spec_id vm) false (vm_block_env vm) tx) db).

(** The writing half, on the memory of that moment. *)
Definition execute_writes {SpecId} (vm : Vm SpecId) (mv : MvMemory Bytecode) (v : TxVersion)
    (tx : TxEnv) (r : ResultAndState) (l1 : option L1BlockInfo) (db : VmDb)
    : outcome VmExecutionError (VmExecutionResult * MvMemory Bytecode) :=
  '(ws, codes) ← state_writes (is_eip_161_enabled (vm_chain vm) (vm_spec_id vm)) db tx (state r)
    (new_bytecodes mv);
  ws ← apply_rewards vm ws tx (gas_used (result r)) l1;
  let mv := mkMvMemory (data mv) (last_locations mv) (lazy_addresses mv) codes in
  mv ← (if is_lazy db then
          to ← unwrap (TxKind_to (transact_to tx));
          Ok (add_lazy_addresses mv [caller tx; to])
        else Ok mv);
  let flags := if (0 <? tx_idx v)%nat && negb (is_lazy db) then NeedValidation else flags_empty in
  '(wrote_new, mv) ← unwrap (record mv v (read_set db) ws);
  let flags := if wrote_new : bool then flags_union flags WroteNewLocation else flags in
  res ← match from_revm (vm_chain vm) (vm_spec_id vm) r with
        | Ok res => Ok res | Err e => match e with end | Panic => Panic end;
  Ok (mkVmExecutionResult res flags, mv).

Definition execute {SpecId} (vm : Vm SpecId) (mvs : nat -> MvMemory Bytecode)
    (mv : MvMemory Bytecode) (v : TxVersion)
    : outcome VmExecutionError (VmExecutionResult * MvMemory Bytecode) :=
  tx ← unwrap (vm_txs vm !! tx_idx v);
  '((out, l1), db) ← execute_reads vm mvs (tx_idx v) tx;
  match out with
  | inr r => execute_writes vm mv v tx r l1 db
  | inl err => Err (transaction_error (tx_idx v) err)
  end.

End Vm.
Arguments is_eip_1559_enabled {P SpecId}.
Arguments is_eip_161_enabled {P SpecId}.
Arguments get_reward_policy {P SpecId}.
Arguments build_evm {P SpecId}.
Arguments calculate_tx_l1_cost {P SpecId}.
Arguments mv_estimates {P SpecId}.
Arguments mkPexeChain {P SpecId}.
Arguments vm_storage {P E SpecId}.
Arguments vm_chain {P E SpecId}.
Arguments vm_block_env {P E SpecId}.
Arguments vm_txs {P E SpecId}.
Arguments vm_spec_id {P E SpecId}.
Arguments beneficiary_location_hash {P E SpecId}.
Arguments reward_policy {P E SpecId}.
Arguments mkVm {P E SpecId}.
