(* ===== verification/Chain.v ===== *)
(** * Chain: Ethereum and Optimism (chain.rs, chain/ethereum.rs, chain/optimism.rs)

    The two implementations of [PexeChain]: hard forks by block, transaction
    environments, the estimates of [build_mv_memory], rewards and the receipt root.
    alloy's transactions are records of what the [Transaction] trait answers; the
    handler of revm, the encodings and the Merkle trie are parameters. *)

From stdpp Require Import sorting.
From S2P Require Import Prelude Types Platform Compat Storage MvMemory Vm.
#[local] Open Scope Z_scope.

(** ** Transactions *)

Inductive TxType :=
| TxLegacy
| TxEip2930
| TxEip1559
| TxEip4844
| TxEip7702.

Inductive OpTxType :=
| OpLegacy
| OpEip2930
| OpEip1559
| OpEip7702
| OpDeposit.

#[export] Instance TxType_eq_dec : EqDecision TxType.
Proof. solve_decision. Defined.
#[export] Instance OpTxType_eq_dec : EqDecision OpTxType.
Proof. solve_decision. Defined.

(** What a transaction answers to the methods of alloy's [Transaction]; [T] is its
    type, [signer] the recovered sender. *)
Record AlloyTx (T : Type) := mkAlloyTx {
  tx_type : T;
  signer : Address;
  at_gas_limit : Z;
  at_gas_price : option Z;
  at_max_fee_per_gas : Z;
  at_max_priority_fee_per_gas : option Z;
  at_kind : TxKind;
  at_value : U256;
  at_input : list Z;
  at_nonce : Z;
  at_chain_id : option Z;
  at_access_list : option (list (Address * list B256));
  at_blob_versioned_hashes : option (list B256);
  at_max_fee_per_blob_gas : option Z;
  at_authorization_list : option (list SignedAuthorization);
}.
Arguments tx_type {T}.
Arguments signer {T}.
Arguments at_gas_limit {T}.
Arguments at_gas_price {T}.
Arguments at_max_fee_per_gas {T}.
Arguments at_max_priority_fee_per_gas {T}.
Arguments at_kind {T}.
Arguments at_value {T}.
Arguments at_input {T}.
Arguments at_nonce {T}.
Arguments at_chain_id {T}.
Arguments at_access_list {T}.
Arguments at_blob_versioned_hashes {T}.
Arguments at_max_fee_per_blob_gas {T}.
Arguments at_authorization_list {T}.
Arguments mkAlloyTx {T}.

(** An Optimism transaction: [deposit] holds source hash and mint of a
    [OpTxEnvelope::Deposit], [encoded] is [encode_2718]. *)
Record OpTx := mkOpTx {
  op_inner : AlloyTx OpTxType;
  op_deposit : option (option B256 * option Z);
  op_is_system : bool;
  op_encoded : list Z;
}.

(** ** Errors *)

Inductive EthereumTransactionParsingError := MissingGasPrice.
Inductive OptimismBlockSpecError := UnsupportedSpec.
Inductive OptimismTransactionParsingError := OpMissingGasPrice.

Inductive CalculateReceiptRootError :=
| Unsupported
| InvalidTxType (t : Z)
| Custom (msg : string)
| OpDepositMissingSender.

(** ** Gas prices and transaction environments *)

Definition get_ethereum_gas_price (tx : AlloyTx TxType) : outcome EthereumTransactionParsingError U256 :=
  match tx_type tx with
  | TxLegacy | TxEip2930 => match at_gas_price tx with Some p => Ok p | None => Err MissingGasPrice end
  | TxEip1559 | TxEip4844 | TxEip7702 => Ok (at_max_fee_per_gas tx)
  end.

Definition get_optimism_gas_price (tx : AlloyTx OpTxType) : outcome OptimismTransactionParsingError U256 :=
  match tx_type tx with
  | OpLegacy | OpEip2930 => match at_gas_price tx with Some p => Ok p | None => Err OpMissingGasPrice end
  | OpEip1559 | OpEip7702 => Ok (at_max_fee_per_gas tx)
  | OpDeposit => Ok 0
  end.

(** [OptimismFields]: source hash, mint, system flag, encoded transaction. *)
Definition get_optimism_fields (tx : OpTx) : option B256 * option Z * option bool * option (list Z) :=
  let '(source_hash, mint) := match op_deposit tx with
    | Some (source_hash, mint) => (source_hash, mint)
    | None => (None, None)
    end in
  (source_hash, mint, Some (op_is_system tx), Some (op_encoded tx)).

(** The fields that both chains take over in the same way. *)
Definition env_of {T} (tx : AlloyTx T) (gas_price : U256)
    (optimism : option B256 * option Z * option bool * option (list Z)) : TxEnv :=
  let '(source_hash, mint, is_system, enveloped) := optimism in {|
  caller := signer tx;
  gas_limit := at_gas_limit tx;
  gas_price := gas_price;
  gas_priority_fee := at_max_priority_fee_per_gas tx;
  transact_to := at_kind tx;
  value := at_value tx;
  tx_data := at_input tx;
  tx_nonce := Some (at_nonce tx);
  tx_chain_id := at_chain_id tx;
  access_list := default [] (at_access_list tx);
  blob_hashes := default [] (at_blob_versioned_hashes tx);
  max_fee_per_blob_gas := at_max_fee_per_blob_gas tx;
  authorization_list := at_authorization_list tx;
  source_hash := source_hash;
  mint := mint;
  is_system_transaction := is_system;
  enveloped_tx := enveloped;
|}.

(** [OptimismFields::default]. *)
Definition OptimismFields_default : option B256 * option Z * option bool * option (list Z) := (None, None, None, None).

Definition eth_get_tx_env (tx : AlloyTx TxType) : outcome EthereumTransactionParsingError TxEnv :=
  price ← get_ethereum_gas_price tx;
  Ok (env_of tx price OptimismFields_default).

Definition op_get_tx_env (tx : OpTx) : outcome OptimismTransactionParsingError TxEnv :=
  let optimism := get_optimism_fields tx in
  price ← get_optimism_gas_price (op_inner tx);
  Ok (env_of (op_inner tx) price optimism).

(** ** Hard forks *)

Section Specs.
Context {R : Revm}.

Definition eth_get_block_spec (header : Header) : outcome Empty_set SpecId :=
  Ok (if 1710338135 <=? hd_timestamp header then CANCUN
      else if 1681338455 <=? hd_timestamp header then SHANGHAI
      else if 15537394 <=? hd_number header then MERGE
      else if 12965000 <=? hd_number header then LONDON
      else if 12244000 <=? hd_number header then BERLIN
      else if 9069000 <=? hd_number header then ISTANBUL
      else if 7280000 <=? hd_number header then PETERSBURG
      else if 4370000 <=? hd_number header then BYZANTIUM
      else if 2675000 <=? hd_number header then SPURIOUS_DRAGON
      else if 2463000 <=? hd_number header then TANGERINE
      else if 1150000 <=? hd_number header then HOMESTEAD
      else FRONTIER).

Definition op_get_block_spec (header : Header) : outcome OptimismBlockSpecError SpecId :=
  if 1720627201 <=? hd_timestamp header then Ok FJORD
  else if 1710374401 <=? hd_timestamp header then Ok ECOTONE
  else if 1704992401 <=? hd_timestamp header then Ok CANYON
  else if 105235063 <=? hd_number header then Ok REGOLITH
  else Err UnsupportedSpec.

Definition eth_is_eip_1559_enabled (spec_id : SpecId) : bool := spec_ge spec_id LONDON.
Definition eth_is_eip_161_enabled (spec_id : SpecId) : bool := spec_ge spec_id SPURIOUS_DRAGON.
Definition op_is_eip_1559_enabled (_ : SpecId) : bool := true.
Definition op_is_eip_161_enabled (_ : SpecId) : bool := true.
End Specs.

(** ** Estimates, rewards and handlers *)

Section Chains.
Context {P : Platform} {R : Revm} (L1_FEE_RECIPIENT BASE_FEE_RECIPIENT : Address).

(** The arguments of [MvMemory::new] in [build_mv_memory]: estimated locations and
    lazy addresses. *)
Definition eth_estimates (block_env : BlockEnv) (txs : list TxEnv)
    : list (MemoryLocationHash * list TxIdx) * list Address :=
  ([(hash_deterministic (Basic (coinbase block_env)), seq 0 (length txs))], [coinbase block_env]).

(** [entry(loc).or_insert_with(Vec::new).push(index)]. *)
Definition push_estimate (m : gmap MemoryLocationHash (list TxIdx)) (loc : MemoryLocationHash) (index : TxIdx)
    : gmap MemoryLocationHash (list TxIdx) := <[loc := default [] (m !! loc) ++ [index]]> m.

(** Optimism hashes the two fee recipients as addresses, not as locations. *)
Definition op_estimated_locations (block_env : BlockEnv) (txs : list TxEnv)
    : gmap MemoryLocationHash (list TxIdx) :=
  foldl (fun m '(index, tx) =>
    match source_hash tx with
    | None => push_estimate m (hash_deterministic (Basic (coinbase block_env))) index
    | Some _ =>
        push_estimate (push_estimate m (hash_address L1_FEE_RECIPIENT) index) (hash_address BASE_FEE_RECIPIENT) index
    end) ∅ (zip (seq 0 (length txs)) txs).

Definition op_estimates (block_env : BlockEnv) (txs : list TxEnv)
    : list (MemoryLocationHash * list TxIdx) * list Address :=
  (map_to_list (op_estimated_locations block_env txs), [coinbase block_env; L1_FEE_RECIPIENT; BASE_FEE_RECIPIENT]).

Definition eth_get_reward_policy : RewardPolicy := Ethereum.
Definition op_get_reward_policy : RewardPolicy :=
  Optimism (hash_deterministic (Basic L1_FEE_RECIPIENT)) (hash_deterministic (Basic BASE_FEE_RECIPIENT)).

(** [get_handler]: the handler of the spec, unless told otherwise with a reward
    step that does nothing. *)
Definition get_handler {Handler : Type} (with_spec : SpecId -> Handler) (skip_reward : Handler -> Handler)
    (spec_id : SpecId) (with_reward_beneficiary : bool) : Handler :=
  let handler := with_spec spec_id in
  if negb with_reward_beneficiary then skip_reward handler else handler.

Context {Handler : Type} (mainnet_with_spec optimism_with_spec : SpecId -> Handler) (skip_reward : Handler -> Handler).
(** A transaction in a block, executed with a handler. *)
Context (run : Handler -> BlockEnv -> TxEnv ->
  evm_run ((InvalidTransaction + ResultAndState) * option L1BlockInfo)).
Context (l1_cost : L1BlockInfo -> list Z -> SpecId -> U256).

Definition PevmEthereum : PexeChain SpecId := {|
  is_eip_1559_enabled := eth_is_eip_1559_enabled;
  is_eip_161_enabled := eth_is_eip_161_enabled;
  get_reward_policy := eth_get_reward_policy;
  build_evm spec reward block_env tx :=
    run (get_handler mainnet_with_spec skip_reward spec reward) block_env tx;
  calculate_tx_l1_cost := l1_cost;
  mv_estimates := eth_estimates;
|}.

Definition PevmOptimism : PexeChain SpecId := {|
  is_eip_1559_enabled := op_is_eip_1559_enabled;
  is_eip_161_enabled := op_is_eip_161_enabled;
  get_reward_policy := op_get_reward_policy;
  build_evm spec reward block_env tx :=
    run (get_handler optimism_with_spec skip_reward spec reward) block_env tx;
  calculate_tx_l1_cost := l1_cost;
  mv_estimates := op_estimates;
|}.

(** ** Receipt roots *)

(** The order of [sort] on pairs of byte strings. *)
Fixpoint bytes_le (a b : list Z) : bool :=
  match a, b with
  | [], _ => true
  | _ :: _, [] => false
  | x :: a, y :: b => (x <? y) || (x =? y) && bytes_le a b
  end.
Definition entry_le (a b : list Z * list Z) : Prop :=
  if decide (a.1 = b.1) then bytes_le a.2 b.2 = true else bytes_le a.1 b.1 = true.
#[export] Instance entry_le_dec a b : Decision (entry_le a b).
Proof. unfold entry_le. case_decide; apply _. Defined.

(** [alloy_rlp::encode_fixed_size] of an index, the EIP-2718 encoding of a receipt in
    the envelope of its type, and the root of the trie with these leaves. *)
Context (rlp_index : nat -> list Z) (trie_root : list (list Z * list Z) -> B256).

Definition trie_entries (receipts : list (list Z)) : list (list Z * list Z) :=
  merge_sort entry_le (imap (fun index receipt => (rlp_index index, receipt)) receipts).

Definition eth_calculate_receipt_root (encoded_2718 : TxType -> Receipt -> list Z) (spec_id : SpecId)
    (txs : list (AlloyTx TxType)) (tx_results : list PexeTxExecutionResult)
    : outcome CalculateReceiptRootError B256 :=
  if spec_index spec_id <? spec_index BYZANTIUM then Err Unsupported
  else
    Ok (trie_root (trie_entries (zip_with (fun tx r => encoded_2718 (tx_type tx) (receipt r)) txs tx_results))).

(** What goes into the envelope: of a deposit the nonce that the sender had and a
    version, both from Canyon. *)
Inductive OpReceipt :=
| PlainReceipt (t : OpTxType) (r : Receipt)
| DepositReceipt (r : Receipt) (deposit_nonce deposit_receipt_version : option Z).

Definition op_receipt (spec_id : SpecId) (tx : OpTx) (r : PexeTxExecutionResult)
    : outcome CalculateReceiptRootError OpReceipt :=
  match tx_type (op_inner tx) with
  | OpDeposit =>
      match default None (tx_state r !! signer (op_inner tx)) with
      | None => Err OpDepositMissingSender
      | Some account =>
          Ok (DepositReceipt (receipt r)
            (if spec_ge spec_id CANYON then Some (u64_sub (ea_nonce account) 1) else None)
            (if spec_ge spec_id CANYON then Some 1 else None))
      end
  | t => Ok (PlainReceipt t (receipt r))
  end.

Fixpoint op_receipts (spec_id : SpecId) (l : list (OpTx * PexeTxExecutionResult))
    : outcome CalculateReceiptRootError (list OpReceipt) :=
  match l with
  | [] => Ok []
  | (tx, r) :: l => x ← op_receipt spec_id tx r; xs ← op_receipts spec_id l; Ok (x :: xs)
  end.

Definition op_calculate_receipt_root (encoded_2718 : OpReceipt -> list Z) (spec_id : SpecId)
    (txs : list OpTx) (tx_results : list PexeTxExecutionResult) : outcome CalculateReceiptRootError B256 :=
  receipts ← op_receipts spec_id (zip txs tx_results);
  Ok (trie_root (trie_entries (encoded_2718 <$> receipts))).
End Chains.
