(* ===== verification/VmSpec.v ===== *)
(** * VmSpec: what executing and validating a transaction guarantees

    Validation of a whole execution: if the read set that an execution recorded
    passes validation against a memory, then the same execution on that memory,
    with nothing changing underneath, reads the same values and ends the same
    way.  The evaluation of lazily updated balances, the bound on blocking
    indexes that the scheduler relies on, and the reward of the beneficiary. *)

From S2P Require Import Prelude Types Platform Storage MvMemory MvMemorySpec.
From S2P Require Import VmDb VmDbLemmas VmDbReplay Vm.
#[local] Open Scope Z_scope.

Section VmLemmas.
Context {P : Platform} {E : Type} (display : E -> string) (storage : Storage E).

(** ** Runs *)

Lemma run_evm_extends {R} mvs k (t : evm_run R) db r db' :
  db_hashes db -> run_evm display storage mvs k t db = Ok (r, db') -> extends db db'.
Proof.
  revert k db. induction t as [x|a c IH|h c IH|a slot c IH|n c IH]; intros k db Hh; cbn.
  - intros [= _ <-]. apply extends_refl.
  - intros ([x db1] & H1 & H2)%outcome_bind_ok. pose proof (basic_extends _ _ _ _ _ _ _ Hh H1) as He.
    apply (extends_trans _ _ _ He). eapply IH; [|exact H2].
    unfold db_hashes. by rewrite (ext_from _ _ He), (ext_to _ _ He), (ext_tx _ _ He).
  - intros (x & H1 & H2)%outcome_bind_ok. by eapply IH.
  - intros ([x db1] & H1 & H2)%outcome_bind_ok. pose proof (read_storage_extends _ _ _ _ _ _ _ _ H1) as He.
    apply (extends_trans _ _ _ He). eapply IH; [|exact H2].
    unfold db_hashes. by rewrite (ext_from _ _ He), (ext_to _ _ He), (ext_tx _ _ He).
  - intros (x & H1 & H2)%outcome_bind_ok. by eapply IH.
Qed.

Lemma db_hashes_extends db db' : extends db db' -> db_hashes db -> db_hashes db'.
Proof. intros He. unfold db_hashes. by rewrite (ext_from _ _ He), (ext_to _ _ He), (ext_tx _ _ He). Qed.

(** On a memory for which the final read set is current, a run reads the same. *)
Lemma run_evm_replay {R} mvs mv k (t : evm_run R) db r db' :
  hash_injective -> (forall k l, agree (data (mvs k)) (data mv) l) ->
  (forall k, same_codes display storage (mvs k) mv db) ->
  db_hashes db -> single_origins db -> current mv db' ->
  run_evm display storage mvs k t db = Ok (r, db') ->
  run_evm display storage (fun _ => mv) k t db = Ok (r, db').
Proof.
  intros Hinj Hag. revert k db.
  assert (forall db db1, extends db db1 -> (forall k, same_codes display storage (mvs k) mv db) ->
    forall k, same_codes display storage (mvs k) mv db1) as Hext
    by (intros db db1 He Hcode k; unfold same_codes; rewrite (ext_code _ _ He); apply Hcode).
  induction t as [x|a c IH|h c IH|a slot c IH|n c IH]; intros k db Hcode Hh Hs Hc; cbn; [done| | | |].
  - intros ([x db1] & H1 & H2)%outcome_bind_ok. pose proof (basic_extends _ _ _ _ _ _ _ Hh H1) as He.
    pose proof (db_hashes_extends _ _ He Hh) as Hh1.
    pose proof (run_evm_extends _ _ _ _ _ _ Hh1 H2) as He2.
    apply outcome_bind_ok. exists (x, db1). split.
    + apply (basic_replay display storage (mvs k)); try done. exact (current_extends _ _ _ He2 Hc).
    + apply IH; try done; [by eapply Hext|]. exact (basic_single _ _ _ _ _ _ _ Hh Hinj Hs H1).
  - intros (x & H1 & H2)%outcome_bind_ok. apply outcome_bind_ok. exists x. split; [done|by apply IH].
  - intros ([x db1] & H1 & H2)%outcome_bind_ok.
    pose proof (read_storage_extends _ _ _ _ _ _ _ _ H1) as He.
    pose proof (db_hashes_extends _ _ He Hh) as Hh1.
    pose proof (run_evm_extends _ _ _ _ _ _ Hh1 H2) as He2.
    apply outcome_bind_ok. exists (x, db1). split.
    + apply (read_storage_replay display storage (mvs k)); try done. exact (current_extends _ _ _ He2 Hc).
    + apply IH; try done; [by eapply Hext|]. exact (read_storage_single _ _ _ _ _ _ _ _ Hs H1).
  - intros (x & H1 & H2)%outcome_bind_ok. apply outcome_bind_ok. exists x. split; [done|by apply IH].
Qed.

(** ** Where recorded origins come from *)

(** The origins of a read of [d]: those of the chain, or the fallback to the
    storage of a code hash. *)
Definition origin_read (d : VersionedData) (loc : MemoryLocationHash) (i : TxIdx) (os : ReadOrigins) : Prop :=
  (exists vs, read_chain d loc i = inr (os, vs)) \/ os = [FromStorage].

(** The origins that [db'] has more than [db] were read from [d]. *)
Definition records (d : VersionedData) (db db' : VmDb) : Prop :=
  forall loc, origins_at loc db' = origins_at loc db \/
    origin_read d loc (db_tx_idx db) (origins_at loc db').

Lemma push_records d loc o os db :
  push_origin (origins_at loc db) o = Ok os -> origin_read d loc (db_tx_idx db) [o] ->
  records d db (put_origins loc os db).
Proof.
  intros Ho Hr loc'. rewrite origins_at_put. case_decide as Hd; [|by left]. subst loc'.
  apply push_origin_inv in Ho as [[_ ->]|[-> _]]; [by right|by left].
Qed.

Lemma get_code_hash_records mv db a h db' :
  get_code_hash display storage mv db a = Ok (h, db') -> records (data mv) db db'.
Proof.
  intros (o & os & Hf & Ho & ->)%get_code_hash_iff. eapply push_records; [exact Ho|].
  unfold code_found in Hf. unfold origin_read, read_chain.
  destruct (entries_below _ _ _) as [|[k [inc [| | | | |]|]] es]; try (destruct Hf as [-> _]; by right); [|done].
  destruct Hf as [-> _]. left. by eexists.
Qed.

Lemma read_storage_records mv db a slot v db' :
  read_storage display storage mv db a slot = Ok (v, db') -> records (data mv) db db'.
Proof.
  intros (o & os & Hf & Ho & ->)%read_storage_iff. eapply push_records; [exact Ho|].
  unfold slot_found in Hf. unfold origin_read, read_chain.
  destruct (entries_below _ _ _) as [|[k [inc [| | | | |]|]] es]; try done;
    destruct Hf as [-> _]; [by right|]. left. by eexists.
Qed.

Lemma records_trans d db1 db2 db3 : db_tx_idx db2 = db_tx_idx db1 ->
  records d db1 db2 -> records d db2 db3 -> records d db1 db3.
Proof.
  intros Hi H1 H2 loc. rewrite <- Hi. destruct (H2 loc) as [Heq|]; [|by right].
  rewrite Heq, Hi. apply H1.
Qed.

Lemma finish_basic_records mv db a loc account x db' :
  finish_basic display storage mv db a loc account = Ok (x, db') -> records (data mv) db db'.
Proof.
  intros (db1 & ra & -> & H)%finish_basic_inv. intros l.
  change (origins_at l (set_read_accounts ra db1)) with (origins_at l db1).
  destruct H as [->|[h H]]; [by left|]. by apply (get_code_hash_records _ _ _ _ _ H).
Qed.

Lemma basic_read_records mv db a loc x db' :
  basic_read display storage mv db a loc = Ok (x, db') -> records (data mv) db db'.
Proof.
  intros H. destruct (basic_read_leaves _ _ _ _ _ _ _ _ H) as (os1 & account & _ & [Hn| ->] & H1).
  - destruct (basic_read_ok _ _ _ _ _ _ _ _ H) as (os & vs & Hch & _).
    rewrite (basic_read_chain _ _ _ _ _ _ os vs Hch (or_introl Hn)) in H.
    apply outcome_bind_ok in H as (y & _ & H).
    assert (records (data mv) db (put_origins loc os db)) as Hr.
    { intros l. rewrite origins_at_put. case_decide as Hd; [|by left]. subst l. right. left. by eexists. }
    apply (records_trans _ _ (put_origins loc os db)); [done|done|].
    destruct y; [by eapply finish_basic_records|]. injection H as _ <-. intros l. by left.
  - assert (records (data mv) db (put_origins loc (origins_at loc db) db)) as Hr.
    { intros l. rewrite origins_at_put. case_decide as Hd; [|by left]. subst l. by left. }
    apply (records_trans _ _ (put_origins loc (origins_at loc db) db)); [done|done|].
    destruct account; cbn in H1; [by eapply finish_basic_records|]. injection H1 as _ <-. intros l. by left.
Qed.

Lemma basic_records mv db a x db' : db_hashes db ->
  basic display storage mv db a = Ok (x, db') -> records (data mv) db db'.
Proof.
  intros Hh. rewrite basic_unfold, (hash_basic_eq db a Hh). cbn.
  destruct (_ && _); [intros [= _ <-] l; by left|].
  destruct (_ && _); [intros [= _ <-] l; by left|]. apply basic_read_records.
Qed.

(** Every origin that a run adds was read from one of its memories. *)
Lemma run_evm_records {R} mvs k (t : evm_run R) db r db' :
  db_hashes db -> run_evm display storage mvs k t db = Ok (r, db') ->
  forall loc, origins_at loc db' = origins_at loc db \/
    exists k, origin_read (data (mvs k)) loc (db_tx_idx db) (origins_at loc db').
Proof.
  revert k db. induction t as [x|a c IH|h c IH|a slot c IH|n c IH]; intros k db Hh; cbn.
  - intros [= _ <-] loc. by left.
  - intros ([x db1] & H1 & H2)%outcome_bind_ok loc. pose proof (basic_extends _ _ _ _ _ _ _ Hh H1) as He.
    destruct (IH _ _ _ (db_hashes_extends _ _ He Hh) H2 loc) as [Heq|(k' & Hk)];
      [|right; exists k'; by rewrite (ext_idx _ _ He) in Hk].
    destruct (basic_records _ _ _ _ _ Hh H1 loc) as [Hq|Hq]; [left; congruence|].
    right. exists k. by rewrite Heq.
  - intros (x & H1 & H2)%outcome_bind_ok. by eapply IH.
  - intros ([x db1] & H1 & H2)%outcome_bind_ok loc.
    pose proof (read_storage_extends _ _ _ _ _ _ _ _ H1) as He.
    destruct (IH _ _ _ (db_hashes_extends _ _ He Hh) H2 loc) as [Heq|(k' & Hk)];
      [|right; exists k'; by rewrite (ext_idx _ _ He) in Hk].
    destruct (read_storage_records _ _ _ _ _ _ H1 loc) as [Hq|Hq]; [left; congruence|].
    right. exists k. by rewrite Heq.
  - intros (x & H1 & H2)%outcome_bind_ok. by eapply IH.
Qed.
End VmLemmas.

(** ** The database of an execution *)

Section Executions.
Context {P : Platform} {E : Type} (display : E -> string) {SpecId : Type}.
Implicit Types vm : Vm (P := P) (E := E) SpecId.

Lemma map_err_ok {F G A} (f : F -> G) (m : outcome F A) (x : A) : map_err f m = Ok x <-> m = Ok x.
Proof. destruct m; cbn; split; congruence. Qed.

(** [VmDb::new] either only sets the laziness of a code hash read, or nothing. *)
Lemma VmDb_new_inv storage mv i tx from to db :
  VmDb_new display storage mv i tx from to = Ok db ->
  exists h lazy db1, db = set_lazy h lazy db1 /\
    match transact_to tx with
    | Call addr => get_code_hash display storage mv (mkVmDb i tx from to None false ∅ ∅) addr = Ok (h, db1)
    | Create => h = None /\ lazy = false /\ db1 = mkVmDb i tx from to None false ∅ ∅
    end.
Proof.
  unfold VmDb_new. destruct (transact_to tx) as [|addr]; [intros [= <-]; by exists None, false, (mkVmDb i tx from to None false ∅ ∅)|].
  intros ([h db1] & H1 & (lazy & _ & [= <-])%outcome_bind_ok)%outcome_bind_ok. eauto.
Qed.

(** Only a transfer to an address without code is lazy. *)
Lemma VmDb_new_lazy storage mv i tx from to db :
  VmDb_new display storage mv i tx from to = Ok db -> is_lazy db = true ->
  to_code_hash db = None /\ transact_to tx <> Create.
Proof.
  unfold VmDb_new. destruct (transact_to tx) as [|addr]; [by intros [= <-]|].
  intros ([h db1] & _ & (lazy & Hl & [= <-])%outcome_bind_ok)%outcome_bind_ok. cbn. intros ->.
  case_bool_decide; [by split|done].
Qed.

(** Laziness is decided without a panic when the transaction has a recipient. *)
Lemma VmDb_new_call storage mv i tx from to addr h db1 :
  transact_to tx = Call addr ->
  get_code_hash display storage mv (mkVmDb i tx from (Some to) None false ∅ ∅) addr = Ok (h, db1) ->
  exists lazy, VmDb_new display storage mv i tx from (Some to) = Ok (set_lazy h lazy db1).
Proof.
  intros Ht H. unfold VmDb_new. rewrite Ht, H. cbn.
  case_bool_decide; cbn; [case_bool_decide; cbn|]; eauto.
Qed.

Lemma tx_hashes mv db i tx storage :
  VmDb_new display storage mv i tx (tx_from_hash tx) (tx_to_hash tx) = Ok db ->
  db_hashes db /\ single_origins db /\ db_tx_idx db = i /\
  forall loc, origins_at loc db = [] \/ origin_read (data mv) loc i (origins_at loc db).
Proof.
  intros (h & lazy & db1 & -> & Hn)%VmDb_new_inv.
  set (db0 := mkVmDb i tx (tx_from_hash tx) (tx_to_hash tx) None false ∅ ∅) in *.
  assert (single_origins db0) as Hs0 by (intros l _; unfold origins_at; cbn; rewrite lookup_empty; cbn; lia).
  destruct (transact_to tx) as [|addr] eqn:Ht.
  - destruct Hn as (-> & -> & ->). split; [by split|]. split; [done|]. split; [done|].
    intros loc. left. unfold origins_at. cbn. by rewrite lookup_empty.
  - pose proof (get_code_hash_extends _ _ _ _ _ _ _ Hn) as He.
    split; [|split; [|split]].
    + change (db_hashes db1). apply (db_hashes_extends _ _ He). by split.
    + change (single_origins db1). by eapply get_code_hash_single.
    + exact (ext_idx _ _ He).
    + intros loc. change (origins_at loc (set_lazy h lazy db1)) with (origins_at loc db1).
      destruct (get_code_hash_records _ _ _ _ _ _ _ Hn loc) as [Hq|Hq]; [left|by right].
      rewrite Hq. unfold origins_at. cbn. by rewrite lookup_empty.
Qed.

(** A read set that validates is current. *)
Lemma validated_current {Bc} (mv : MvMemory Bc) (d : VersionedData) loc i os :
  agree d (data mv) loc -> origin_read d loc i os -> validate_location mv i loc os = true ->
  exists vs, read_chain (data mv) loc i = inr (os, vs).
Proof.
  intros Hag [[vs Hch]| ->] Hv.
  - exists vs. by apply (validate_location_chain d).
  - exists []. unfold validate_location in Hv. unfold read_chain, entries_below.
    destruct (data mv !! loc) as [m|]; [|done]. by destruct (range_desc m i).
Qed.

(** The memories that an execution saw: each after a part of the history. *)
Definition snapshots n estimated lazy (ops : list (mv_op Bytecode)) (mvs : nat -> MvMemory Bytecode) : Prop :=
  forall k, exists ops1 ops2, ops = ops1 ++ ops2 /\
    apply_ops (MvMemory_new n estimated lazy) ops1 = Some (mvs k).

(** A code hash read at one moment stands for the same bytecode at later ones and
    at the end. *)
Definition codes_stable vm (mvs : nat -> MvMemory Bytecode) (mv : MvMemory Bytecode) : Prop :=
  forall k k' db a h db', (k <= k')%nat ->
    get_code_hash display (vm_storage vm) (mvs k) db a = Ok (h, db') ->
    same_code display (vm_storage vm) (mvs k') mv h.

(** The reading half on an unchanging memory, with the laziness given. *)
Definition execute_reads_as vm (mv : MvMemory Bytecode) (i : TxIdx) (tx : TxEnv) (lazy : bool)
    : outcome VmExecutionError (((InvalidTransaction + ResultAndState) * option L1BlockInfo) * VmDb) :=
  db ← map_err VmExecutionError_from
    (VmDb_new display (vm_storage vm) mv i tx (tx_from_hash tx) (tx_to_hash tx));
  map_err VmExecutionError_from
    (run_evm display (vm_storage vm) (fun _ => mv) 1
       (build_evm (vm_chain vm) (vm_spec_id vm) false (vm_block_env vm) tx)
       (set_lazy (to_code_hash db) lazy db)).

Lemma execution_replays vm n estimated lazy ops mvs mv i tx out db ll :
  hash_injective -> NoDup (recorded ops) ->
  apply_ops (MvMemory_new n estimated lazy) ops = Some mv ->
  snapshots n estimated lazy ops mvs -> codes_stable vm mvs mv ->
  execute_reads display vm mvs i tx = Ok (out, db) ->
  last_locations mv !! i = Some ll -> read ll = read_set db ->
  validate_read_locations mv i = Some true ->
  execute_reads_as vm mv i tx (is_lazy db) = Ok (out, db).
Proof.
  intros Hinj Hnd Hops Hsnap Hcode Hexec Hll Hrs Hval.
  assert (forall k l, agree (data (mvs k)) (data mv) l) as Hag.
  { intros k l. destruct (Hsnap k) as (ops1 & ops2 & -> & E1). by eapply histories_agree. }
  unfold execute_reads in Hexec. apply outcome_bind_ok in Hexec as (db1 & Hnew & Hrun).
  apply map_err_ok in Hnew. apply map_err_ok in Hrun.
  destruct (tx_hashes _ _ _ _ _ Hnew) as (Hh & Hs & Hi & Horig).
  pose proof (run_evm_extends _ _ _ _ _ _ _ _ Hh Hrun) as Hext.
  assert (current mv db) as Hcur.
  { intros loc. destruct (decide (origins_at loc db = [])) as [|Hne]; [by left|right].
    assert (read_set db !! loc = Some (origins_at loc db)) as Hlook.
    { unfold origins_at in *. by destruct (read_set db !! loc). }
    assert (exists k, origin_read (data (mvs k)) loc i (origins_at loc db)) as [k Hk].
    { destruct (run_evm_records _ _ _ _ _ _ _ _ Hh Hrun loc) as [Heq|[k Hk]].
      - rewrite Heq in Hne |- *. destruct (Horig loc) as [|Hr]; [done|]. by exists 0%nat.
      - exists k. by rewrite Hi in Hk. }
    rewrite (ext_idx _ _ Hext), Hi. eapply validated_current; [apply Hag|exact Hk|].
    unfold validate_read_locations in Hval. rewrite Hll in Hval. injection Hval as Hall.
    rewrite forallb_forall in Hall. apply (Hall (loc, origins_at loc db)).
    apply list_elem_of_In, elem_of_map_to_list. by rewrite Hrs. }
  pose proof (current_extends _ _ _ Hext Hcur) as Hcur1.
  assert (forall k, same_codes display (vm_storage vm) (mvs k) mv db1) as Hcodes.
  { intros k. split; [|intros db2 a h db3; by apply Hcode].
    pose proof Hnew as (h & l & db2 & -> & Hn)%VmDb_new_inv. cbn.
    destruct (transact_to tx); [destruct Hn as (-> & _); done|].
    eapply Hcode; [|exact Hn]. lia. }
  pose proof (run_evm_replay display (vm_storage vm) mvs mv 1 _ _ _ _ Hinj Hag Hcodes Hh Hs Hcur Hrun) as Hrun'.
  assert (exists lz, VmDb_new display (vm_storage vm) mv i tx (tx_from_hash tx) (tx_to_hash tx) =
    Ok (set_lazy (to_code_hash db1) lz db1)) as [lz Hnew'].
  { pose proof Hnew as (h & l & db2 & -> & Hn)%VmDb_new_inv. unfold tx_to_hash in *.
    destruct (transact_to tx) as [|addr] eqn:Ht; cbn in *.
    - destruct Hn as (-> & -> & ->). exists false. unfold VmDb_new. by rewrite Ht.
    - destruct (VmDb_new_call (vm_storage vm) mv i tx (tx_from_hash tx)
        (hash_deterministic (Basic addr)) addr h db2 Ht) as [lz Hl]; [|by exists lz].
      apply (get_code_hash_replay display (vm_storage vm) (mvs 0%nat)); try done.
      intros a Ha. unfold origins_at. cbn. rewrite lookup_empty. cbn. lia. }
  unfold execute_reads_as. rewrite Hnew'. cbn. rewrite map_err_ok.
  replace (set_lazy _ _ _) with db1; [exact Hrun'|]. rewrite (ext_lazy _ _ Hext). by destruct db1.
Qed.

(** C9: validation is sound for whole executions.  Take any history in which
    every version is recorded once, and an execution whose reads happened at
    arbitrary points of it.  If the read set it recorded validates against the
    memory at the end of the history, then executing the transaction on that
    memory, unchanging, gives the same outcome and the same read set, unless the
    decision to update it lazily comes out differently there. *)
Theorem validated_execution_replays vm n estimated lazy ops mvs mv i tx out db ll
  (Hinj : hash_injective)
  (Hnd : NoDup (recorded ops))
  (Hops : apply_ops (MvMemory_new n estimated lazy) ops = Some mv)
  (Hsnap : snapshots n estimated lazy ops mvs)
  (Hcode : codes_stable vm mvs mv)
  (Hexec : execute_reads display vm mvs i tx = Ok (out, db))
  (Hll : last_locations mv !! i = Some ll) (Hrs : read ll = read_set db)
  (Hval : validate_read_locations mv i = Some true) :
  exists db0, VmDb_new display (vm_storage vm) mv i tx (tx_from_hash tx) (tx_to_hash tx) = Ok db0 /\
    (is_lazy db0 = is_lazy db -> execute_reads display vm (fun _ => mv) i tx = Ok (out, db)).
Proof.
  pose proof (execution_replays _ _ _ _ _ _ _ _ _ _ _ _ Hinj Hnd Hops Hsnap Hcode Hexec Hll Hrs Hval) as H.
  unfold execute_reads_as in H. apply outcome_bind_ok in H as (db0 & Hnew & Hrun).
  apply map_err_ok in Hnew. exists db0. split; [done|]. intros Hlz. unfold execute_reads. rewrite Hnew. cbn.
  rewrite <- Hlz in Hrun. by replace (set_lazy (to_code_hash db0) (is_lazy db0) db0) with db0 in Hrun
    by by destruct db0.
Qed.

(** ** Blocking *)

Lemma push_origin_blocking os o b : push_origin os o <> Err (Blocking b).
Proof. unfold push_origin. destruct (last os); [case_decide|]; done. Qed.

Lemma from_storage_blocking {A} (m : outcome E A) b : from_storage display m <> Err (Blocking b).
Proof. by destruct m. Qed.

Lemma bind_blocking {A B} (m : outcome ReadError A) (f : A -> outcome ReadError B) b :
  (m ≫= f) = Err (Blocking b) -> m = Err (Blocking b) \/ exists a, m = Ok a /\ f a = Err (Blocking b).
Proof. destruct m as [a|e|]; cbn; [right; by exists a|left; congruence|done]. Qed.

Lemma get_code_hash_blocking storage mv db a b : get_code_hash display storage mv db a <> Err (Blocking b).
Proof.
  unfold get_code_hash. set (fallback := os ← push_origin _ FromStorage; _).
  assert (fallback <> Err (Blocking b)) as Hf.
  { subst fallback. intros [H|(os & _ & H)]%bind_blocking; [by apply push_origin_blocking in H|].
    apply bind_blocking in H as [H|(h & _ & H)]; [by apply from_storage_blocking in H|done]. }
  destruct (entries_below _ _ _) as [|[k [inc [| | | | |]|]] es]; try done.
  intros [H|(os & _ & H)]%bind_blocking; [by apply push_origin_blocking in H|done].
Qed.

Lemma eval_entries_blocking prev es acc b :
  eval_entries prev es acc = Err (Blocking b) -> (b, Estimate) ∈ es.
Proof.
  revert acc. induction es as [|[k [inc v|]] es IH]; intros acc; cbn; [done| |intros [= ->]; by left].
  destruct (_ && _); [done|].
  assert (match add_value acc (mv_origin k inc) v with
    | None => Err InvalidMemoryValueType
    | Some acc' => match final_account acc' with Some _ => Ok acc' | None => eval_entries prev es acc' end
    end = Err (Blocking b) -> (b, Estimate) ∈ (k, Data inc v) :: es) as Hgo.
  { destruct (add_value _ _ _) as [acc'|]; [|done]. destruct (final_account acc'); [done|].
    intros H. right. by eapply IH. }
  destruct (negb _); [|done]. destruct (prev !! _); [|done]. by case_decide.
Qed.

Lemma load_code_blocking storage mv h b : load_code display storage mv h <> Err (Blocking b).
Proof.
  unfold load_code. destruct h as [h|]; [|done]. destruct (new_bytecodes mv !! h); [done|].
  intros [H|(c & _ & H)]%bind_blocking; [by apply from_storage_blocking in H|].
  destruct c as [c|]; [|done]. apply bind_blocking in H as [H|(? & _ & H)]; [|done].
  by destruct (Bytecode_try_from c).
Qed.

Lemma basic_blocking storage mv db a b : db_hashes db ->
  basic display storage mv db a = Err (Blocking b) -> (b < db_tx_idx db)%nat.
Proof.
  intros Hh. rewrite basic_unfold, (hash_basic_eq db a Hh). cbn.
  destruct (_ && _); [done|]. destruct (_ && _); [done|]. unfold basic_read.
  rewrite db_entries_below.
  intros [H|(acc & _ & H)]%bind_blocking;
    [by apply eval_entries_blocking, entries_below_elem in H as [? _]|].
  apply bind_blocking in H as [H|(acc' & _ & H)].
  { unfold storage_fallback in H. destruct (final_account acc); [done|].
    apply bind_blocking in H as [H|(os & _ & H)];
      [by repeat case_match|].
    apply bind_blocking in H as [H|(st & _ & H)]; [by apply from_storage_blocking in H|done]. }
  destruct (final_account acc') as [account|]; [|done]. unfold finish_basic in H.
  destruct (_ && _).
  { cbn in H. destruct (Nat.ltb_spec 0 (db_tx_idx db)); [|done]. injection H as <-. lia. }
  apply bind_blocking in H as [H|([h db1] & _ & H)].
  { case_decide; [done|]. by apply get_code_hash_blocking in H. }
  apply bind_blocking in H as [H|(c & _ & H)]; [by apply load_code_blocking in H|done].
Qed.

Lemma read_storage_blocking storage mv db a slot b :
  read_storage display storage mv db a slot = Err (Blocking b) -> (b < db_tx_idx db)%nat.
Proof.
  unfold read_storage. set (loc := hash_deterministic _).
  change (if (0 <? db_tx_idx db)%nat then entries_below (data mv) loc (db_tx_idx db) else [])
    with (db_entries mv db loc). rewrite db_entries_below.
  destruct (entries_below _ _ _) as [|[k [inc [| | | | |]|]] es] eqn:Hes; try done.
  - intros [H|(os & _ & H)]%bind_blocking; [by apply push_origin_blocking in H|].
    apply bind_blocking in H as [H|(v & _ & H)]; [by apply from_storage_blocking in H|done].
  - intros [H|(os & _ & H)]%bind_blocking; [by apply push_origin_blocking in H|done].
  - intros [= ->]. assert ((b, Estimate) ∈ entries_below (data mv) loc (db_tx_idx db)) as Hin
      by (rewrite Hes; by left). by apply entries_below_elem in Hin as [? _].
Qed.

Lemma run_evm_blocking {R} storage mvs k (t : evm_run R) db b : db_hashes db ->
  run_evm display storage mvs k t db = Err (Blocking b) -> (b < db_tx_idx db)%nat.
Proof.
  revert k db. induction t as [x|a c IH|h c IH|a slot c IH|m c IH]; intros k db Hh; cbn; [done| | | |].
  - intros [H|([x db1] & H1 & H)]%bind_blocking; [by eapply basic_blocking|].
    pose proof (basic_extends _ _ _ _ _ _ _ Hh H1) as He. rewrite <- (ext_idx _ _ He).
    eapply IH; [by eapply db_hashes_extends|exact H].
  - intros [H|(x & _ & H)]%bind_blocking; [|by eapply IH]. exfalso. unfold code_by_hash in H.
    apply bind_blocking in H as [H|(code & _ & H)]; [by apply from_storage_blocking in H|].
    destruct code as [code|]; [by destruct (Bytecode_try_from code)|done].
  - intros [H|([x db1] & H1 & H)]%bind_blocking; [by eapply read_storage_blocking|].
    pose proof (read_storage_extends _ _ _ _ _ _ _ _ H1) as He. rewrite <- (ext_idx _ _ He).
    eapply IH; [by eapply db_hashes_extends|exact H].
  - intros [H|(x & _ & H)]%bind_blocking; [|by eapply IH]. exfalso.
    by apply from_storage_blocking in H.
Qed.

Lemma VmDb_new_blocking storage mv i tx from to b :
  VmDb_new display storage mv i tx from to <> Err (Blocking b).
Proof.
  unfold VmDb_new. destruct (transact_to tx) as [|addr]; [done|].
  intros [H|([h db1] & _ & H)]%bind_blocking; [by apply get_code_hash_blocking in H|].
  apply bind_blocking in H as [H|(lz & _ & H)]; [|done].
  repeat case_bool_decide; try done. by destruct to.
Qed.

Lemma from_read_error e b : VmExecutionError_from e = BlockingTx b -> e = Blocking b.
Proof. destruct e; cbn; congruence. Qed.

(** No later stage blocks. *)
Definition never_blocks {A} (m : outcome VmExecutionError A) : Prop := forall b, m <> Err (BlockingTx b).

Lemma never_blocks_bind {A B} (m : outcome VmExecutionError A) (f : A -> outcome VmExecutionError B) :
  never_blocks m -> (forall a, never_blocks (f a)) -> never_blocks (m ≫= f).
Proof. intros Hm Hf b. destruct m as [a|e|]; cbn; [apply Hf|intros [= ->]; by apply (Hm b)|done]. Qed.

Lemma never_blocks_ok {A} (a : A) : never_blocks (Ok a).
Proof. done. Qed.

Lemma never_blocks_unwrap {A} (o : option A) : never_blocks (unwrap o).
Proof. by destruct o. Qed.

Lemma never_blocks_add_reward ws r amount : never_blocks (add_reward ws r amount).
Proof.
  induction ws as [|[l v] ws IH]; cbn; [done|]. case_decide; [by destruct v|].
  apply never_blocks_bind; [done|]. intros ws'. apply never_blocks_ok.
Qed.

Lemma never_blocks_add_rewards ws rs : never_blocks (add_rewards ws rs).
Proof.
  revert ws. induction rs as [|[r amount] rs IH]; intros ws; cbn; [done|].
  apply never_blocks_bind; [apply never_blocks_add_reward|done].
Qed.

Lemma never_blocks_account_writes e db tx a acc codes : never_blocks (account_writes e db tx a acc codes).
Proof.
  unfold account_writes. destruct (is_selfdestructed acc); [done|].
  apply never_blocks_bind; [|by intros [ws codes'] b].
  destruct (is_touched acc); [|done]. destruct (negb _ && _); [|done].
  apply never_blocks_bind; [|by intros codes' b].
  destruct (codes !! _); [done|]. apply never_blocks_bind; [apply never_blocks_unwrap|]. by intros c b.
Qed.

Lemma never_blocks_state_writes e db tx l codes : never_blocks (state_writes e db tx l codes).
Proof.
  revert codes. induction l as [|[a acc] l IH]; intros codes; cbn; [done|].
  apply never_blocks_bind; [apply never_blocks_account_writes|]. intros [ws codes'].
  apply never_blocks_bind; [apply IH|]. by intros [ws' codes''] b.
Qed.

Lemma never_blocks_execute_writes vm mv v tx r l1 db : never_blocks (execute_writes vm mv v tx r l1 db).
Proof.
  unfold execute_writes. apply never_blocks_bind; [apply never_blocks_state_writes|]. intros [ws codes].
  apply never_blocks_bind.
  { unfold apply_rewards. apply never_blocks_bind; [|intros rs; apply never_blocks_add_rewards].
    unfold rewards. destruct (reward_policy vm); [done|]. destruct (source_hash tx); [done|].
    apply never_blocks_bind; [apply never_blocks_unwrap|]. intros x.
    apply never_blocks_bind; [apply never_blocks_unwrap|]. by intros y b. }
  intros ws'. apply never_blocks_bind.
  { destruct (is_lazy db); [|done]. apply never_blocks_bind; [apply never_blocks_unwrap|]. by intros to b. }
  intros mv'. apply never_blocks_bind; [apply never_blocks_unwrap|]. intros [wrote mv2].
  apply never_blocks_bind; [|by intros res b]. by destruct (from_revm _ _ _) as [|[]|].
Qed.

Lemma execute_blocking vm mvs mv v b :
  execute display vm mvs mv v = Err (BlockingTx b) -> (b < tx_idx v)%nat.
Proof.
  intros H. unfold execute in H. destruct (vm_txs vm !! tx_idx v) as [tx|]; cbn in H; [|done].
  destruct (execute_reads display vm mvs (tx_idx v) tx) as [[[out l1] db]|e|] eqn:Hx; cbn in H; [| |done].
  - destruct out as [err|r]; [|by apply never_blocks_execute_writes in H].
    destruct err; cbn in H; try done;
      (destruct (Nat.ltb_spec 0 (tx_idx v)); [injection H as <-; lia|done]).
  - injection H as ->. unfold execute_reads in Hx.
    destruct (VmDb_new _ _ _ _ _ _ _) as [db|e|] eqn:Hn; cbn in Hx; [| |done].
    + destruct (tx_hashes _ _ _ _ _ Hn) as (Hh & _ & <- & _).
      destruct (run_evm _ _ _ _ _ _) as [x|e|] eqn:Hr; cbn in Hx; try done.
      injection Hx as Hx%from_read_error. subst e. by eapply run_evm_blocking.
    + injection Hx as Hx%from_read_error. subst e. by apply VmDb_new_blocking in Hn.
Qed.

(** An execution only ever blocks on a lower transaction, whatever the EVM
    asks for and whatever the memory holds: the index that [try_execute] hands to
    [add_dependency] is below the transaction's own. *)
Theorem execute_blocks_below vm mvs mv v b
  (H : execute display vm mvs mv v = Err (BlockingTx b)) : (b < tx_idx v)%nat.
Proof. by eapply execute_blocking. Qed.
End Executions.

(** ** Lazy balances *)

Section Balances.
Context {P : Platform} {E : Type} (display : E -> string) (storage : Storage E).

(** What a value adds to the balance below it, and whether it spends a nonce. *)
Definition delta (v : MemoryValue) : Z :=
  match v with LazyRecipient x => x | LazySender x => - x | _ => 0 end.
Definition spends (v : MemoryValue) : Z := match v with LazySender _ => 1 | _ => 0 end.

Definition delta_sum (vs : list MemoryValue) : Z := foldr (fun v acc => delta v + acc) 0 vs.
Definition delta_size (vs : list MemoryValue) : Z := foldr (fun v acc => Z.abs (delta v) + acc) 0 vs.
Definition spend_count (vs : list MemoryValue) : Z := foldr (fun v acc => spends v + acc) 0 vs.

(** Lazy amounts are unsigned words. *)
Definition amounts_ok (vs : list MemoryValue) : Prop :=
  Forall (fun v => match v with LazyRecipient x | LazySender x => 0 <= x | _ => True end) vs.

(** The sign-and-magnitude accumulator of [basic] as an integer. *)
Definition signed (acc : lazy_acc) : Z :=
  if positive_addition acc then balance_addition acc else - balance_addition acc.

Lemma add_value_signed acc o v acc' :
  add_value acc o v = Some acc' ->
  (match v with LazyRecipient x | LazySender x => 0 <= x | _ => True end) ->
  0 <= balance_addition acc -> Z.abs (signed acc) + Z.abs (delta v) <= U256_MAX ->
  0 <= balance_addition acc' /\ signed acc' = signed acc + delta v /\
  nonce_addition acc' = wrap 64 (nonce_addition acc + spends v) \/
  (spends v = 0 /\ nonce_addition acc' = nonce_addition acc /\
   0 <= balance_addition acc' /\ signed acc' = signed acc + delta v).
Proof.
  unfold signed. destruct v as [b|h|x|x|x|]; cbn; try done; intros [= <-] Hx Hb Hle.
  - right. cbn. repeat split; lia.
  - right. destruct (positive_addition acc); cbn.
    + unfold sat_add. repeat split; lia.
    + unfold abs_diff. destruct (Z.leb_spec (balance_addition acc) x); repeat split; lia.
  - left. destruct (positive_addition acc); cbn.
    + unfold abs_diff. destruct (Z.leb_spec x (balance_addition acc)); repeat split; lia.
    + unfold sat_add. repeat split; lia.
Qed.

Lemma replay_values_sum acc os vs acc' :
  replay_values acc os vs = Ok acc' -> amounts_ok vs -> final_account acc = None ->
  0 <= balance_addition acc -> Z.abs (signed acc) + delta_size vs <= U256_MAX ->
  is_u 64 (nonce_addition acc) ->
  (forall k v, vs !! k = Some v -> is_lazy_value v = false -> S k = length vs) ->
  0 <= balance_addition acc' /\ signed acc' = signed acc + delta_sum vs /\
  nonce_addition acc' = wrap 64 (nonce_addition acc + spend_count vs) /\
  final_account acc' = match last vs with Some (VBasic b) => Some b | _ => None end.
Proof.
  revert acc os. induction vs as [|v vs IH]; intros acc os Hr Hok Hf Hb Hle Hn Habs;
    cbn -[replay_values] in *.
  { assert (acc = acc') as <- by (destruct os; cbn in Hr; congruence). rewrite !Z.add_0_r, wrap_small by done. done. }
  destruct os as [|o os]; [done|]. apply Forall_cons in Hok as [Hv Hok].
  change (foldr _ 0 vs) with (delta_size vs) in Hle.
  assert (0 <= delta_size vs) as Hpos.
  { clear. unfold delta_size. induction vs as [|v vs IH]; cbn; lia. }
  cbn [replay_values] in Hr.
  destruct (add_value acc o v) as [acc1|] eqn:Ha; [|done].
  assert (0 <= balance_addition acc1 /\ signed acc1 = signed acc + delta v /\
    nonce_addition acc1 = wrap 64 (nonce_addition acc + spends v)) as (Hb1 & Hs1 & Hn1).
  { destruct (add_value_signed _ _ _ _ Ha Hv Hb ltac:(lia)) as [?|(Hz & -> & ? & ?)]; [done|].
    rewrite Hz, Z.add_0_r. rewrite wrap_small by done. done. }
  destruct (is_lazy_value v) eqn:Hl.
  - destruct (add_value_lazy acc o v Hl) as (acc2 & Ha2 & Hf2). rewrite Ha in Ha2. injection Ha2 as <-.
    rewrite Hf2, Hf in Hr. destruct (IH acc1 os Hr Hok) as (H1 & H2 & H3 & H4); try done; try lia; try congruence.
    + rewrite Hn1. by apply wrap_is_u.
    + intros k v' Hk Hv'. specialize (Habs (S k) v' Hk Hv'). lia.
    + unfold delta_sum, spend_count in *. split; [done|]. split; [lia|]. split.
      * rewrite H3, Hn1. unfold wrap. rewrite Zplus_mod_idemp_l. f_equal. lia.
      * rewrite H4. destruct vs as [|v' vs']; cbn; [by destruct v|]. done.
  - destruct (add_value_absolute _ _ _ _ Hl Ha) as (b & -> & Hb'). rewrite Hb' in Hr. injection Hr as <-.
    specialize (Habs 0%nat (VBasic b) eq_refl eq_refl). destruct vs; [|cbn in Habs; lia]. cbn in *.
    rewrite ?Z.add_0_r in *. done.
Qed.

(** Only the last value of a chain is absolute. *)
Lemma chain_lazy es os vs : chain es = inr (os, vs) ->
  forall k v, vs !! k = Some v -> is_lazy_value v = false -> S k = length vs.
Proof.
  revert os vs. induction es as [|[i [inc v|]] es IH]; intros os vs Hc; cbn in Hc; [| |done].
  { injection Hc as <- <-. done. }
  destruct (is_lazy_value v) eqn:Hl.
  - destruct (chain es) as [?|[os' vs']]; [done|]. injection Hc as <- <-.
    intros [|k] v' Hk Hv'; cbn in *; [congruence|]. f_equal. by eapply IH.
  - injection Hc as <- <-. intros [|k] v' Hk _; [done|]. by destruct k.
Qed.

(** The account below the lazy values of a chain: its absolute last value, or
    what the storage holds. *)
Definition base_account (a : Address) (vs : list MemoryValue) (base : AccountBasic) : Prop :=
  match last vs with
  | Some (VBasic b) => base = b
  | _ => st_basic storage a = Ok (Some base) \/ (st_basic storage a = Ok None /\ base = AccountBasic_default)
  end.

Lemma finish_basic_answer mv db a loc account info db' :
  finish_basic display storage mv db a loc account = Ok (Some info, db') ->
  ai_balance info = balance account /\ ai_nonce info = nonce account.
Proof.
  unfold finish_basic. destruct (_ && _); [by destruct (0 <? _)%nat|].
  intros ([h db1] & _ & (code & _ & [= <- _])%outcome_bind_ok)%outcome_bind_ok. done.
Qed.

Lemma evaluate_signed acc base : 0 <= balance base <= U256_MAX -> 0 <= balance_addition acc ->
  balance (evaluate acc base) = Z.max 0 (Z.min (balance base + signed acc) U256_MAX).
Proof.
  intros Hb Ha. unfold evaluate, signed, sat_add, sat_sub. cbn. destruct (positive_addition acc); lia.
Qed.

Lemma replay_values_final acc os vs es acc' :
  chain es = inr (os, vs) -> final_account acc = None -> replay_values acc os vs = Ok acc' ->
  final_account acc' = match last vs with Some (VBasic b) => Some b | _ => None end.
Proof.
  revert acc os vs. induction es as [|[k [inc v|]] es IH]; intros acc os vs Hc H0 Hr; cbn in Hc; [| |done].
  { injection Hc as <- <-. by injection Hr as <-. }
  destruct (is_lazy_value v) eqn:Hl.
  - destruct (chain es) as [?|[os' vs']] eqn:Hes; [done|]. injection Hc as <- <-. cbn in Hr.
    destruct (add_value_lazy acc (mv_origin k inc) v Hl) as (acc2 & Ha2 & Hf2). unfold mv_origin in Ha2.
    rewrite Ha2, Hf2, H0 in Hr. rewrite (IH acc2 os' vs' eq_refl ltac:(congruence) Hr).
    destruct vs'; [by destruct v|done].
  - injection Hc as <- <-. cbn in Hr. destruct (add_value acc _ v) as [acc1|] eqn:Ha; [|done].
    destruct (add_value_absolute _ _ _ _ Hl Ha) as (b & -> & Hb). rewrite Hb in Hr. by injection Hr as <-.
Qed.

Lemma storage_fallback_account prev a acc acc' account :
  storage_fallback display storage prev a acc = Ok acc' -> final_account acc' = Some account ->
  balance_addition acc' = balance_addition acc /\ positive_addition acc' = positive_addition acc /\
  nonce_addition acc' = nonce_addition acc /\
  match final_account acc with
  | Some b => account = b
  | None => st_basic storage a = Ok (Some account) \/
            (st_basic storage a = Ok None /\ account = AccountBasic_default)
  end.
Proof.
  unfold storage_fallback. destruct (final_account acc) as [b|] eqn:Hf.
  { intros [= <-] Hacc. repeat split. congruence. }
  intros (os' & _ & (stored & Hst & [= <-])%outcome_bind_ok)%outcome_bind_ok. cbn. intros Hacc.
  repeat split. apply map_err_ok in Hst. destruct stored as [b|]; [left; congruence|right].
  destruct (0 <? balance_addition acc); [|done]. by injection Hacc as <-.
Qed.

Lemma basic_sum mv db a info db' :
  db_hashes db -> is_lazy db = false -> basic display storage mv db a = Ok (Some info, db') ->
  exists os vs base,
    read_chain (data mv) (hash_deterministic (Basic a)) (db_tx_idx db) = inr (os, vs) /\
    base_account a vs base /\
    (amounts_ok vs -> delta_size vs <= U256_MAX -> 0 <= balance base <= U256_MAX ->
     ai_balance info = Z.max 0 (Z.min (balance base + delta_sum vs) U256_MAX) /\
     ai_nonce info = wrap 64 (nonce base + spend_count vs)).
Proof.
  intros Hh Hlazy H. rewrite basic_unfold, (hash_basic_eq db a Hh), Hlazy in H. cbn in H.
  set (loc := hash_deterministic (Basic a)) in *. unfold basic_read in H.
  apply outcome_bind_ok in H as (acc & He & (acc' & Hs & H)%outcome_bind_ok).
  destruct (eval_entries_ok _ _ _ _ He eq_refl (or_intror (prefix_nil _))) as ((os & vs & Hc & Hr) & _).
  assert (amounts_ok vs -> delta_size vs <= U256_MAX ->
    0 <= balance_addition acc /\ signed acc = delta_sum vs /\ nonce_addition acc = wrap 64 (spend_count vs))
    as Hsum.
  { intros H1 H2. destruct (replay_values_sum _ _ _ _ Hr H1 eq_refl) as (? & ? & ? & _); cbn; try done;
      try lia. by apply (chain_lazy _ _ _ Hc). }
  pose proof (replay_values_final lazy_acc_0 _ _ _ _ Hc eq_refl Hr) as Hfin.
  exists os, vs. unfold read_chain. rewrite <- db_entries_below.
  destruct (final_account acc') as [base|] eqn:Hacc; [|done].
  apply finish_basic_answer in H as [Hbal Hnon].
  destruct (storage_fallback_account _ _ _ _ _ Hs Hacc) as (Hp1 & Hp2 & Hp3 & Hbase).
  assert (base_account a vs base) as Hba.
  { unfold base_account. rewrite Hfin in Hbase. by destruct (last vs) as [[]|]. }
  exists base. split; [done|]. split; [done|]. intros Hok Hsz Hbb.
  destruct (Hsum Hok Hsz) as (H1 & H2 & H3). rewrite Hbal, Hnon.
  assert (signed acc' = signed acc) as Hsg by (unfold signed; by rewrite Hp1, Hp2).
  split.
  - rewrite evaluate_signed by (rewrite ?Hp1; done). by rewrite Hsg, H2.
  - cbn. unfold u64_add. rewrite Hp3, H3. unfold wrap. by rewrite Zplus_mod_idemp_r.
Qed.

(** C11: reading an account evaluates its lazy updates exactly: the balance is the
    sum of the account below and of all the signed lazy amounts between it and
    the reader, clamped to 256 bits once at the end, and the nonce counts the
    lazy senders, as long as the amounts together fit a word.  The order in which
    the code adds and subtracts magnitudes does not matter. *)
Theorem basic_evaluates_lazy_updates mv db a info db'
  (Hh : db_hashes db) (Hlazy : is_lazy db = false)
  (H : basic display storage mv db a = Ok (Some info, db')) :
  exists os vs base,
    read_chain (data mv) (hash_deterministic (Basic a)) (db_tx_idx db) = inr (os, vs) /\
    base_account a vs base /\
    (amounts_ok vs -> delta_size vs <= U256_MAX -> 0 <= balance base <= U256_MAX ->
     ai_balance info = Z.max 0 (Z.min (balance base + delta_sum vs) U256_MAX) /\
     ai_nonce info = wrap 64 (nonce base + spend_count vs)).
Proof. by eapply basic_sum. Qed.
End Balances.

(** ** Rewards *)

Section Rewards.
Context {P : Platform} {E : Type} (display : E -> string) {SpecId : Type}.
Implicit Types vm : Vm (P := P) (E := E) SpecId.

(** A reward on top of what the transaction itself wrote to the recipient. *)
Definition rewarded (amount : U256) (old : option MemoryValue) : MemoryValue :=
  match old with
  | None => LazyRecipient amount
  | Some (VBasic b) => VBasic (mkAccountBasic (sat_add (balance b) amount) (nonce b))
  | Some (LazySender s) => LazySender (sat_sub s amount)
  | Some (LazyRecipient x) => LazyRecipient (sat_add x amount)
  | Some v => v
  end.

Lemma last_write_none loc ws : loc ∉ ws.*1 -> last_write loc ws = None.
Proof.
  intros Hn. destruct (last_write loc ws) eqn:Hl; [|done]. exfalso. apply Hn, last_write_Some. by eexists.
Qed.

Lemma add_reward_spec ws r amount ws' : NoDup ws.*1 -> add_reward ws r amount = Ok ws' ->
  (forall loc, loc ∈ ws'.*1 <-> loc ∈ ws.*1 \/ loc = r) /\
  (forall loc, loc <> r -> last_write loc ws' = last_write loc ws) /\
  last_write r ws' = Some (rewarded amount (last_write r ws)).
Proof.
  revert ws'. induction ws as [|[l v] ws IH]; intros ws' Hnd; cbn in *.
  { intros [= <-]. cbn. split; [|split].
    - intros loc. rewrite elem_of_nil, list_elem_of_singleton. tauto.
    - intros loc Hl. by rewrite decide_False.
    - by rewrite decide_True. }
  apply NoDup_cons in Hnd as [Hn Hnd]. case_decide as Hd.
  - subst l. pose proof (last_write_none _ _ Hn) as Hnone.
    assert (forall v', v' = rewarded amount (Some v) -> ws' = (r, v') :: ws ->
      (forall loc, loc ∈ ws'.*1 <-> loc ∈ r :: ws.*1 \/ loc = r) /\
      (forall loc, loc <> r -> last_write loc ws' =
        match last_write loc ws with Some v' => Some v' | None => if decide (r = loc) then Some v else None end) /\
      last_write r ws' = Some (rewarded amount
        (match last_write r ws with Some v' => Some v' | None => Some v end)))
      as Hgo.
    { intros v' -> ->. cbn. split; [|split].
      - intros loc. rewrite elem_of_cons. tauto.
      - intros loc Hl. destruct (last_write loc ws); [done|]. by rewrite !decide_False by congruence.
      - rewrite Hnone. by rewrite decide_True. }
    destruct v; try done; intros [= <-]; by eapply Hgo.
  - intros (ws1 & H1 & [= <-])%outcome_bind_ok. destruct (IH ws1 Hnd H1) as (I1 & I2 & I3). cbn.
    split; [|split].
    + intros loc. rewrite !elem_of_cons, I1. tauto.
    + intros loc Hl. by rewrite I2.
    + rewrite I3. destruct (last_write r ws); done.
Qed.

(** C22: under the Ethereum policy the rewards touch the beneficiary only: its
    write is the one of the transaction plus the saturated product of the
    effective gas price and the gas used, or a lazy addition of that amount when
    the transaction did not write the account. *)
Theorem ethereum_rewards vm ws tx gas l1 ws'
  (Hp : reward_policy vm = Ethereum) (Hnd : NoDup ws.*1)
  (H : apply_rewards vm ws tx gas l1 = Ok ws') :
  (forall loc, loc <> beneficiary_location_hash vm -> last_write loc ws' = last_write loc ws) /\
  last_write (beneficiary_location_hash vm) ws' =
    Some (rewarded (sat_mul (reward_gas_price vm tx) gas) (last_write (beneficiary_location_hash vm) ws)).
Proof.
  unfold apply_rewards, rewards in H. rewrite Hp in H. cbn in H.
  destruct (add_reward _ _ _) as [ws1|e|] eqn:Ha; cbn in H; try done. injection H as <-.
  by destruct (add_reward_spec _ _ _ _ Hnd Ha) as (_ & ? & ?).
Qed.

Lemma add_reward_elem ws r amount ws' : add_reward ws r amount = Ok ws' -> r ∈ ws'.*1.
Proof.
  revert ws'. induction ws as [|[l v] ws IH]; intros ws'; cbn.
  - intros [= <-]. by left.
  - case_decide as Hd.
    + subst l. destruct v; try done; intros [= <-]; by left.
    + intros (ws1 & H1 & [= <-])%outcome_bind_ok. right. by apply IH.
Qed.

(** Under the Ethereum policy every successful execution leaves a value of its
    own at the location of the beneficiary, so the estimates that
    [build_mv_memory] places there for every transaction never outlive the
    transaction's execution and cannot block a reader for good. *)
Theorem beneficiary_always_written vm mvs mv v res mv'
  (Hp : reward_policy vm = Ethereum)
  (H : execute display vm mvs mv v = Ok (res, mv')) :
  exists value, entry (data mv') (beneficiary_location_hash vm) (tx_idx v) =
    Some (Data (tx_incarnation v) value).
Proof.
  unfold execute in H. apply outcome_bind_ok in H as (tx & _ & H).
  apply outcome_bind_ok in H as ([[out l1] db] & _ & H). destruct out as [err|r]; [done|].
  unfold execute_writes in H. apply outcome_bind_ok in H as ([ws codes] & _ & H).
  apply outcome_bind_ok in H as (ws1 & Hr & H).
  apply outcome_bind_ok in H as (mv1 & Hmv1 & H).
  apply outcome_bind_ok in H as ([wrote mv2] & Hrec & H).
  apply outcome_bind_ok in H as (res' & _ & [= _ <-]).
  unfold apply_rewards, rewards in Hr. rewrite Hp in Hr. cbn in Hr.
  destruct (add_reward _ _ _) as [ws2|e|] eqn:Ha; cbn in Hr; try done. injection Hr as <-.
  apply add_reward_elem in Ha.
  destruct (record mv1 v (read_set db) ws2) as [[b mv3]|] eqn:Hrecord; cbn in Hrec; [|done].
  injection Hrec as <- <-. destruct (last_locations mv1 !! tx_idx v) as [ll|] eqn:Hll.
  2: { unfold record in Hrecord. by rewrite Hll in Hrecord. }
  destruct (record_full mv1 v (read_set db) ws2 ll Hll) as (b' & locs & d & E' & _ & _ & _ & Hent).
  rewrite Hrecord in E'. injection E' as -> ->. cbn. rewrite Hent, decide_True by done.
  apply last_write_Some in Ha as [value ->]. by exists value.
Qed.
End Rewards.

(** ** Witnesses

    Transaction 0 writes slot 0 of contract 9; transaction 1 creates a contract
    whose code reads it. *)
Section Demo.
#[local] Existing Instance demo.

Definition no_error (e : Empty_set) : string := match e with end.

Definition demo_storage : Storage Empty_set := InMemory_storage (mkInMemoryStorage ∅ ∅ ∅).

Definition demo_result (gas : Z) : ResultAndState := mkResultAndState (mkExecutionResult true gas []) [].

Definition demo_chain : PexeChain unit := {|
  is_eip_1559_enabled _ := true;
  is_eip_161_enabled _ := true;
  get_reward_policy := Ethereum;
  build_evm _ _ _ tx :=
    EvmStorage 9 0 (fun v => EvmBasic (caller tx) (fun _ => EvmDone (inr (demo_result (21000 + v)), None)));
  calculate_tx_l1_cost _ _ _ := 0%Z;
  mv_estimates _ _ := ([], []);
|}.

Definition demo_tx : TxEnv := mkTxEnv 7 100000 10 None Create 0 [] None None [] [] None None None None None None.

Definition demo_vm : Vm unit :=
  Vm_new demo_storage demo_chain (demo_block_env 3 2) [demo_tx; demo_tx] tt.

Definition slot_loc : MemoryLocationHash := hash_deterministic (StorageLoc 9 0).
Definition caller_loc : MemoryLocationHash := hash_deterministic (Basic 7).

Definition demo_ops : list (mv_op Bytecode) :=
  [OpRecord {| tx_idx := 0; tx_incarnation := 0 |} ∅
     [(slot_loc, VStorage 5); (caller_loc, LazyRecipient 40)];
   OpRecord {| tx_idx := 1; tx_incarnation := 0 |}
     (<[slot_loc := [mv_origin 0 0]]>
       (<[caller_loc := [mv_origin 0 0; FromStorage]]>
         (<[hash_deterministic (CodeHash 7) := [FromStorage]]> ∅))) []].

Definition demo_mv (k : nat) : MvMemory Bytecode :=
  default (MvMemory_new 2 [] []) (apply_ops (MvMemory_new 2 [] []) (take k demo_ops)).

Definition demo_run := execute_reads no_error demo_vm (fun _ => demo_mv 1) 1 demo_tx.

Lemma demo_run_ok : exists db, demo_run = Ok ((inr (demo_result 21005), None), db).
Proof. eexists. by vm_compute. Defined.

Lemma demo_hash_injective : hash_injective.
Proof.
  intros l1 l2 H.
  apply (encode_inj (A := MemoryLocation)). change (Zpos (encode l1) = Zpos (encode l2)) in H. congruence.
Qed.

Lemma demo_snapshots : snapshots 2 [] [] demo_ops (fun _ => demo_mv 1).
Proof. intros k. exists (take 1 demo_ops), (drop 1 demo_ops). split; [done|]. by vm_compute. Qed.

Lemma validated_execution_replays_witness :
  exists db db0,
    VmDb_new no_error demo_storage (demo_mv 2) 1 demo_tx (tx_from_hash demo_tx) (tx_to_hash demo_tx) = Ok db0 /\
    (is_lazy db0 = is_lazy db ->
     execute_reads no_error demo_vm (fun _ => demo_mv 2) 1 demo_tx = Ok ((inr (demo_result 21005), None), db)).
Proof.
  destruct demo_run_ok as [db Hdb]. exists db.
  refine (validated_execution_replays no_error demo_vm 2 [] [] demo_ops (fun _ => demo_mv 1) (demo_mv 2)
    1 demo_tx _ db _ demo_hash_injective _ _ demo_snapshots _ Hdb _ _ _).
  - apply (bool_decide_unpack _). by vm_compute.
  - by vm_compute.
  - intros k k' db1 a h db2 _ _. by destruct h.
  - cbn [demo_mv]. reflexivity.
  - clear -Hdb. vm_compute in Hdb. injection Hdb as <-. vm_compute. reflexivity.
  - by vm_compute.
Defined.

(** The slot is an estimate of transaction 0: transaction 1 is blocked by it. *)
Definition estimated_mv : MvMemory Bytecode := MvMemory_new 2 [(slot_loc, [0%nat])] [].

Lemma execute_blocks_below_witness :
  execute no_error demo_vm (fun _ => estimated_mv) estimated_mv {| tx_idx := 1; tx_incarnation := 0 |} =
    Err (BlockingTx 0) /\ (0 < 1)%nat.
Proof.
  assert (execute no_error demo_vm (fun _ => estimated_mv) estimated_mv {| tx_idx := 1; tx_incarnation := 0 |} =
    Err (BlockingTx 0)) as H by by vm_compute.
  split; [exact H|]. exact (execute_blocks_below no_error demo_vm _ _ _ _ H).
Defined.

(** The account of the sender has a lazy addition of 40 and nothing below. *)
Definition demo_db : VmDb := mkVmDb 1 demo_tx caller_loc None None false ∅ ∅.

Lemma basic_evaluates_lazy_updates_witness :
  exists info db', basic no_error demo_storage (demo_mv 1) demo_db 7 = Ok (Some info, db') /\
  exists os vs base,
    read_chain (data (demo_mv 1)) (hash_deterministic (Basic 7)) 1 = inr (os, vs) /\
    base_account demo_storage 7 vs base /\
    (amounts_ok vs -> delta_size vs <= U256_MAX -> 0 <= balance base <= U256_MAX ->
     ai_balance info = Z.max 0 (Z.min (balance base + delta_sum vs) U256_MAX) /\
     ai_nonce info = wrap 64 (nonce base + spend_count vs)).
Proof.
  eexists _, _. split; [vm_compute; reflexivity|].
  refine (basic_evaluates_lazy_updates no_error demo_storage (demo_mv 1) demo_db 7 _ _ _ _ _);
    [by split|done|by vm_compute].
Defined.

Lemma ethereum_rewards_witness :
  exists ws', apply_rewards demo_vm [(slot_loc, VStorage 5)] demo_tx 21000 None = Ok ws' /\
  (forall loc, loc <> beneficiary_location_hash demo_vm ->
     last_write loc ws' = last_write loc [(slot_loc, VStorage 5)]) /\
  last_write (beneficiary_location_hash demo_vm) ws' =
    Some (rewarded (sat_mul (reward_gas_price demo_vm demo_tx) 21000)
      (last_write (beneficiary_location_hash demo_vm) [(slot_loc, VStorage 5)])).
Proof.
  eexists. split; [vm_compute; reflexivity|].
  apply (ethereum_rewards demo_vm [(slot_loc, VStorage 5)] demo_tx 21000 None);
    [done|apply NoDup_singleton|by vm_compute].
Defined.

Lemma beneficiary_always_written_witness :
  exists res mv', execute no_error demo_vm (fun _ => demo_mv 1) (demo_mv 1)
    {| tx_idx := 1; tx_incarnation := 0 |} = Ok (res, mv') /\
  exists value, entry (data mv') (beneficiary_location_hash demo_vm) 1 = Some (Data 0 value).
Proof.
  eexists _, _. split; [vm_compute; reflexivity|].
  refine (beneficiary_always_written no_error demo_vm (fun _ => demo_mv 1) (demo_mv 1)
    {| tx_idx := 1; tx_incarnation := 0 |} _ _ _ _); [done|by vm_compute].
Defined.
End Demo.
