(* ===== verification/StorageSpec.v ===== *)
(** * StorageSpec: the storage seen from both executions (storage.rs, vm.rs)

    Codes survive the conversion to revm's bytecode and back; and before anything
    is written, a run of the EVM on the database of the parallel execution goes as
    on the [StorageWrapper] that the sequential execution reads through. *)

From S2P Require Import Prelude Types Platform Storage MvMemory MvMemorySpec.
From S2P Require Import VmDb VmDbLemmas VmDbReplay Vm VmSpec.
#[local] Open Scope Z_scope.

(** What revm's bytecode type promises: its constructors are seen again in its
    fields, an EOF container keeps the bytes it was decoded from, and analysed
    code is not raw. *)
Class PlatformLaws (P : Platform) : Prop := {
  view_analyzed : forall b n j, view (new_analyzed b n j) = ViewLegacyAnalyzed b n j;
  view_eip7702 : forall a v raw, view (new_eip7702 a v raw) = ViewEip7702 a v;
  view_eof : forall raw b, eof_decode raw = Ok b -> view b = ViewEof raw;
  view_to_analysed : forall b, view (to_analysed b) <> ViewLegacyRaw;
}.

#[export] Instance demo_laws : PlatformLaws demo.
Proof.
  split; try done. intros raw b. cbn. destruct raw as [|z raw]; [done|].
  destruct z as [|p|p]; try done. repeat (destruct p as [p|p|]; try done). by intros [= <-].
Qed.

Section Codes.
Context {P : Platform} {L : PlatformLaws P}.

(** C24: converting a code to revm's bytecode and back gives the code again: the
    storage that keeps an executed account's code loses nothing. *)
Theorem code_round_trip (c : EvmCode) (b : Bytecode) fuel
  (H : Bytecode_try_from c = Ok b) : EvmCode_from fuel b = Some c.
Proof.
  destruct c as [[b0 n j]|[a v]|raw]; cbn in H.
  - injection H as <-. by destruct fuel; cbn; rewrite view_analyzed.
  - injection H as <-. by destruct fuel; cbn; rewrite view_eip7702.
  - destruct (eof_decode raw) as [b'|e|] eqn:He; cbn in H; [|done|done]. injection H as <-.
    by destruct fuel; cbn; rewrite (view_eof _ _ He).
Qed.

(** The recursion of [From<Bytecode>] stops: one unfolding of the raw arm is
    enough, so the conversion is total. *)
Theorem code_conversion_total (b : Bytecode) : exists c, EvmCode_from 1 b = Some c.
Proof.
  cbn. destruct (view b); eauto. pose proof (view_to_analysed b). destruct (view (to_analysed b)); eauto. done.
Qed.
End Codes.

(** ** Before anything is written

    The EVM on the [StorageWrapper], which reads nothing else. *)
Section Fresh.
Context {P : Platform} {E : Type} (display : E -> string) (storage : Storage E).

Fixpoint run_wrapped {R} (t : evm_run R) : outcome (StorageWrapperError E) R :=
  match t with
  | EvmDone r => Ok r
  | EvmBasic a c => x ← basic_ref storage a; run_wrapped (c x)
  | EvmCodeByHash h c => x ← code_by_hash_ref storage h; run_wrapped (c x)
  | EvmStorage a slot c => x ← storage_ref storage a slot; run_wrapped (c x)
  | EvmBlockHash n c => x ← block_hash_ref storage n; run_wrapped (c x)
  end.

(** The error of the parallel database for an error of the wrapper. *)
Definition read_error (e : StorageWrapperError E) : ReadError :=
  match e with
  | WrapStorageError _ e => StorageError (display e)
  | WrapInvalidBytecode _ e => InvalidBytecode e
  end.

(** The created bytecodes that the storage has as well are those of the storage. *)
Definition known_codes (codes : gmap B256 Bytecode) : Prop :=
  forall a h b, st_code_hash storage a = Ok (Some h) -> codes !! h = Some b ->
    exists c, st_code_by_hash storage h = Ok (Some c) /\ Bytecode_try_from c = Ok b.

Lemma from_storage_wrapped {A} (m : outcome E A) : from_storage display m = map_err read_error (map_err (WrapStorageError E) m).
Proof. by destruct m. Qed.

Lemma convert_wrapped c :
  (match c with Some c => b ← map_err InvalidBytecode (Bytecode_try_from c); Ok (Some b) | None => Ok None end)
    = map_err read_error (convert_code (E := E) c).
Proof. destruct c as [c|]; [|done]. cbn. by destruct (Bytecode_try_from c). Qed.

Lemma map_err_bind {E1 E2 A B} (f : E1 -> E2) (m : outcome E1 A) (k : A -> outcome E1 B) :
  map_err f (m ≫= k) = (map_err f m ≫= fun x => map_err f (k x)).
Proof. by destruct m. Qed.

Lemma code_by_hash_wrapped h : code_by_hash display storage h = map_err read_error (code_by_hash_ref storage h).
Proof.
  unfold code_by_hash, code_by_hash_ref. rewrite map_err_bind, <- from_storage_wrapped. apply outcome_bind_ext.
  intros c. rewrite map_err_bind, <- convert_wrapped. destruct c as [c|]; [|done]. cbn. by destruct (Bytecode_try_from c).
Qed.

Lemma load_code_wrapped mv a h : known_codes (new_bytecodes mv) -> st_code_hash storage a = Ok h ->
  load_code display storage mv h = map_err read_error
    (match h with Some h => c ← map_err (WrapStorageError E) (st_code_by_hash storage h); convert_code c | None => Ok None end).
Proof.
  intros Hk Ha. unfold load_code. destruct h as [h|]; [|done].
  destruct (new_bytecodes mv !! h) as [b|] eqn:Hb.
  - destruct (Hk _ _ _ Ha Hb) as (c & -> & Hc). cbn. by rewrite Hc.
  - rewrite map_err_bind, <- from_storage_wrapped. apply outcome_bind_ext. apply convert_wrapped.
Qed.

(** *** The database of a transaction with nothing below it *)

Context (i : TxIdx) (tx : TxEnv).

Record fresh_db (db : VmDb) : Prop := mkFreshDb {
  fd_idx : db_tx_idx db = i;
  fd_tx : db_tx db = tx;
  fd_hashes : db_hashes db;
  fd_lazy : is_lazy db = false;
  fd_origins : forall loc, origins_at loc db = [] \/ origins_at loc db = [FromStorage];
  fd_to : forall to, transact_to tx = Call to -> st_code_hash storage to = Ok (to_code_hash db);
}.

Lemma fresh_put db loc : fresh_db db -> fresh_db (put_origins loc [FromStorage] db).
Proof.
  intros [H1 H2 H3 H4 H5 H6]. split; try done. intros loc'. rewrite origins_at_put. case_decide; [by right|apply H5].
Qed.

Lemma fresh_push db loc : fresh_db db -> push_origin (origins_at loc db) FromStorage = Ok [FromStorage].
Proof. intros Hf. destruct (fd_origins _ Hf loc) as [->| ->]; [done|]. cbn. unfold push_origin. cbn. by rewrite decide_True. Qed.

(** What the database answers is what the wrapper answers, and it stays fresh. *)
Definition answers_as {A} (m : outcome ReadError (A * VmDb)) (r : outcome (StorageWrapperError E) A) : Prop :=
  match r with
  | Ok x => exists db, m = Ok (x, db) /\ fresh_db db
  | Err e => m = Err (read_error e)
  | Panic => m = Panic
  end.

Lemma answers_bind {A B} (m : outcome ReadError (A * VmDb)) r (k : A * VmDb -> outcome ReadError (B * VmDb)) k' :
  answers_as m r -> (forall x db, fresh_db db -> r = Ok x -> answers_as (k (x, db)) (k' x)) -> answers_as (m ≫= k) (r ≫= k').
Proof.
  destruct r as [x|e|]; cbn; [|by intros ->..]. intros (db & -> & Hf) Hk. cbn. by apply Hk.
Qed.

Lemma answers_const {A B} db (m : outcome ReadError A) r (k : A -> outcome ReadError (B * VmDb)) k' :
  fresh_db db -> m = map_err read_error r -> (forall x, r = Ok x -> answers_as (k x) (k' x)) -> answers_as (m ≫= k) (r ≫= k').
Proof. intros Hf ->. destruct r as [x|e|]; cbn; auto. Qed.

Section Reads.
Context (mv : MvMemory Bytecode) (Hempty : forall loc, entries_below (data mv) loc i = []).
Context (Hcodes : known_codes (new_bytecodes mv)) (Hinj : hash_injective).
Context (Hwords : forall a b, st_basic storage a = Ok (Some b) -> is_u 256 (balance b) /\ is_u 64 (nonce b)).

Lemma code_hash_fresh db a : fresh_db db ->
  answers_as (get_code_hash display storage mv db a) (map_err (WrapStorageError E) (st_code_hash storage a)).
Proof.
  intros Hf. unfold get_code_hash. rewrite (fd_idx _ Hf), Hempty, (fresh_push _ _ Hf). cbn.
  destruct (st_code_hash storage a); cbn; [|done..]. eexists. split; [done|]. by apply fresh_put.
Qed.

Lemma storage_fresh db a slot : fresh_db db ->
  answers_as (read_storage display storage mv db a slot) (storage_ref storage a slot).
Proof.
  intros Hf. unfold read_storage. rewrite (fd_idx _ Hf), Hempty, (fresh_push _ _ Hf).
  assert ((if (0 <? i)%nat then [] else []) = @nil (TxIdx * MemoryEntry)) as -> by by destruct (0 <? i)%nat. cbn.
  unfold storage_ref. destruct (st_storage storage a slot); cbn; [|done..]. eexists. split; [done|]. by apply fresh_put.
Qed.

Lemma evaluate_nothing account : is_u 256 (balance account) -> is_u 64 (nonce account) ->
  evaluate (mkLazyAcc [FromStorage] (Some account) 0 true 0) account = account.
Proof.
  intros Hb Hn. unfold evaluate. cbn. destruct account as [b n]. cbn in *. unfold sat_add, u64_add. rewrite !Z.add_0_r.
  rewrite (wrap_small 64) by done. f_equal. unfold is_u, U256_MAX in *. lia.
Qed.

(** The sender has the nonce of the transaction, if it is checked. *)
Context (Hnonce : forall b n, st_basic storage (caller tx) = Ok (Some b) -> tx_nonce tx = Some n -> n = nonce b).

Lemma basic_fresh db a : fresh_db db -> answers_as (basic display storage mv db a) (basic_ref storage a).
Proof.
  intros Hf. rewrite basic_unfold, (hash_basic_eq db a (fd_hashes _ Hf)), (fd_lazy _ Hf). cbn [andb outcome_bind mbind].
  set (loc := hash_deterministic (Basic a)). unfold basic_read. rewrite db_entries_below, (fd_idx _ Hf), Hempty.
  cbn [eval_entries outcome_bind mbind]. unfold basic_ref.
  assert (exists os, storage_fallback display storage (origins_at loc db) a lazy_acc_0 =
      (st ← from_storage display (st_basic storage a); Ok (mkLazyAcc os st 0 true 0)) /\
      (if negb (length (origins_at loc db) =? 0)%nat then origins_at loc db else os) = [FromStorage]) as (os & -> & Hos).
  { unfold storage_fallback. destruct (fd_origins _ Hf loc) as [->| ->]; cbn; [exists [FromStorage]|exists []];
      (split; [|done]); destruct (st_basic storage a) as [[]| |]; done. }
  destruct (st_basic storage a) as [[account|]|e|] eqn:Hst; cbn; [|rewrite Hos; eexists; split; [done|by apply fresh_put]|done..].
  rewrite Hos. pose proof (fresh_put db loc Hf) as Hf1. set (db1 := put_origins loc [FromStorage] db) in *.
  destruct (Hwords a account Hst) as [Hb Hn].
  assert (evaluate (mkLazyAcc os (Some account) 0 true 0) account = account) as -> by exact (evaluate_nothing account Hb Hn).
  unfold finish_basic. assert (bool_decide (loc = from_hash db1) && match tx_nonce (db_tx db1) with
      | Some n => negb (n =? nonce account) | None => false end = false) as ->.
  { rewrite (fd_tx _ Hf1). destruct (fd_hashes _ Hf1) as [-> _]. rewrite (fd_tx _ Hf1).
    destruct (bool_decide _) eqn:Hd; [|done]. apply bool_decide_eq_true, Hinj in Hd. injection Hd as ->.
    destruct (tx_nonce tx) as [n|] eqn:Htn; [|done]. rewrite (Hnonce account n Hst eq_refl). cbn. by rewrite Z.eqb_refl. }
  apply (answers_bind (A := option B256)).
  - case_decide as Hto; [|by apply code_hash_fresh].
    destruct (fd_hashes _ Hf1) as [_ Hth]. rewrite Hth, (fd_tx _ Hf1) in Hto.
    destruct (transact_to tx) as [|to] eqn:Htt; [done|]. injection Hto as [= <-]%Hinj.
    rewrite (fd_to _ Hf _ Htt). cbn. by exists db1.
  - intros h db2 Hf2 Hh. assert (st_code_hash storage a = Ok h) as Hh' by (destruct (st_code_hash storage a); cbn in Hh; congruence).
    eapply answers_const; [done|by eapply load_code_wrapped|]. intros code _. cbn. eexists. split; [done|].
    by destruct Hf2 as [H1 H2 H3 H4 H5 H6].
Qed.
End Reads.

(** Nor does it matter when the reads happen. *)
Lemma run_fresh {R} mvs k (t : evm_run R) db :
  (forall k loc, entries_below (data (mvs k)) loc i = []) -> (forall k, known_codes (new_bytecodes (mvs k))) -> hash_injective ->
  (forall a b, st_basic storage a = Ok (Some b) -> is_u 256 (balance b) /\ is_u 64 (nonce b)) ->
  (forall b n, st_basic storage (caller tx) = Ok (Some b) -> tx_nonce tx = Some n -> n = nonce b) ->
  fresh_db db -> answers_as (run_evm display storage mvs k t db) (run_wrapped t).
Proof.
  intros Hempty Hcodes Hinj Hwords Hnonce. revert k db.
  induction t as [r|a c IH|h c IH|a slot c IH|n c IH]; intros k db Hf; cbn [run_evm run_wrapped].
  - by exists db.
  - apply answers_bind; [by apply basic_fresh|]. intros x db' Hf' _. by apply IH.
  - eapply answers_const; [done|apply code_by_hash_wrapped|]. intros x _. by apply IH.
  - apply answers_bind; [by apply storage_fresh|]. intros x db' Hf' _. by apply IH.
  - eapply answers_const; [done|apply from_storage_wrapped|]. intros x _. by apply IH.
Qed.

Lemma new_fresh mv db : (forall loc, entries_below (data mv) loc i = []) ->
  VmDb_new display storage mv i tx (tx_from_hash tx) (tx_to_hash tx) = Ok db -> is_lazy db = false -> fresh_db db.
Proof.
  intros Hempty Hnew Hlazy. destruct (tx_hashes display _ _ _ _ _ Hnew) as (Hh & _ & Hi & _).
  unfold VmDb_new in Hnew. destruct (transact_to tx) as [|to] eqn:Ht.
  { injection Hnew as <-. split; [done|done|done|done| |congruence]. intros loc. left. unfold origins_at. cbn. by rewrite lookup_empty. }
  apply outcome_bind_ok in Hnew as ([h db1] & Hg & (lazy & _ & [= <-])%outcome_bind_ok).
  unfold get_code_hash in Hg. cbn in Hg. rewrite Hempty in Hg. unfold origins_at in Hg. cbn in Hg. rewrite lookup_empty in Hg. cbn in Hg.
  apply outcome_bind_ok in Hg as (h' & Hs & [= -> <-]). cbn in *.
  split; [done|done|done|done| |].
  - intros loc. unfold origins_at, set_lazy, put_origins, set_read_set. cbn. destruct (decide (loc = hash_deterministic (CodeHash to))) as [->|Hne].
    + rewrite lookup_insert_eq. by right.
    + rewrite lookup_insert_ne, lookup_empty by done. by left.
  - intros to' Hto. cbn. assert (to' = to) as -> by congruence. destruct (st_code_hash storage to); cbn in Hs; congruence.
Qed.
End Fresh.

(** C23: before anything is written below a transaction, as it always is for the first
    of a block, the parallel execution reads what the sequential one reads.  Whatever
    the EVM asks of its database, at whatever moments, and in whatever order, it gets
    the same answers from [VmDb] as from the [StorageWrapper] of the sequential
    execution, so it ends with the same result, or with the same failure of the
    storage or of the conversion of a code.  The transaction is not lazy, its nonce is
    that of its sender, and what the block creates does not take the hash of a
    different code of the storage. *)
Theorem fresh_runs_agree {P : Platform} {E : Type} (display : E -> string) (storage : Storage E) {R}
    i tx mvs (t : evm_run R) db
  (Hempty : forall k loc, entries_below (data (mvs k)) loc i = [])
  (Hcodes : forall k, known_codes storage (new_bytecodes (mvs k))) (Hinj : hash_injective)
  (Hwords : forall a b, st_basic storage a = Ok (Some b) -> is_u 256 (balance b) /\ is_u 64 (nonce b))
  (Hnonce : forall b n, st_basic storage (caller tx) = Ok (Some b) -> tx_nonce tx = Some n -> n = nonce b)
  (Hnew : VmDb_new display storage (mvs 0%nat) i tx (tx_from_hash tx) (tx_to_hash tx) = Ok db) (Hlazy : is_lazy db = false) :
  (fun x => x.1) <$> run_evm display storage mvs 1 t db = map_err (read_error display) (run_wrapped storage t).
Proof.
  pose proof (run_fresh display storage i tx mvs 1 t db Hempty Hcodes Hinj Hwords Hnonce
    (new_fresh display storage i tx (mvs 0%nat) db (Hempty 0%nat) Hnew Hlazy)) as H.
  unfold answers_as in H. destruct (run_wrapped storage t) as [x|e|]; cbn; [destruct H as (db' & -> & _)|rewrite H..]; done.
Qed.

(** Below the first transaction of a block there is nothing. *)
Lemma nothing_below_first (d : VersionedData) loc : entries_below d loc 0 = [].
Proof. unfold entries_below. by destruct (d !! loc). Qed.

(** ** Witnesses *)

Section Witnesses.
#[local] Existing Instance demo.
#[local] Existing Instance demo_laws.

Lemma code_round_trip_witness :
  Bytecode_try_from (Eof [239; 0; 1]) = Ok (ViewEof [239; 0; 1]) /\
  EvmCode_from 1 (ViewEof [239; 0; 1]) = Some (Eof [239; 0; 1]).
Proof. split; [reflexivity|]. exact (code_round_trip (Eof [239; 0; 1]) (ViewEof [239; 0; 1]) 1 eq_refl). Defined.

Lemma code_conversion_total_witness : exists c, EvmCode_from 1 ViewLegacyRaw = Some c.
Proof. exact (code_conversion_total (P := demo) (L := demo_laws) ViewLegacyRaw). Defined.

(** A storage with one account that has a code and a slot. *)
Definition coded_storage : Storage Empty_set := InMemory_storage (mkInMemoryStorage
  {[ 9 := mkEvmAccount 500 3 (Some 77) (Some (Eof [239; 4])) {[ 0 := 12 ]} ]} {[ 77 := Eof [239; 4] ]} ∅).

Definition coded_account : AccountInfo := mkAccountInfo 500 3 77 (Some (ViewEof [239; 4])).

(** The first transaction of a block calls account 9, reads it twice and its slot. *)
Definition coded_tx : TxEnv := mkTxEnv 7 100000 10 None (Call 9) 0 [] None None [] [] None None None None None None.
Definition coded_run : evm_run (option AccountInfo * U256) :=
  EvmBasic 9 (fun x => EvmStorage 9 0 (fun v => EvmBasic 9 (fun _ => EvmDone (x, v)))).

Lemma fresh_runs_agree_witness :
  exists db, VmDb_new no_error coded_storage (MvMemory_new 2 [] []) 0 coded_tx (tx_from_hash coded_tx) (tx_to_hash coded_tx) = Ok db /\
    read_set db <> ∅ /\
    (fun x => x.1) <$> run_evm no_error coded_storage (fun _ => MvMemory_new 2 [] []) 1 coded_run db = Ok (Some coded_account, 12).
Proof.
  eexists. split; [vm_compute; reflexivity|]. split; [done|].
  etransitivity; [|instantiate (1 := map_err (read_error no_error) (run_wrapped coded_storage coded_run)); by vm_compute].
  apply (fresh_runs_agree no_error coded_storage 0 coded_tx (fun _ => MvMemory_new 2 [] [])).
  - intros k loc. apply nothing_below_first.
  - intros k a h b _. cbn. by rewrite lookup_empty.
  - exact demo_hash_injective.
  - intros a b [= H]. apply bind_Some in H as (acc & Hacc & [= <-]).
    apply lookup_singleton_Some in Hacc as [_ <-]. by vm_compute.
  - done.
  - vm_compute. reflexivity.
  - reflexivity.
Defined.
End Witnesses.
