(* ===== verification/Rpc.v ===== *)
(** * Rpc: a storage that fetches from a node (storage/rpc.rs)

    [RpcStorage] answers from three caches and asks the provider for the rest,
    retrying each request.  The provider is a record of its answers: request number
    [n] of the storage, attempt [i].  Waiting and the runtime are not modelled, the
    time slept between attempts is returned. *)

From S2P Require Import Prelude Types Platform Storage.
#[local] Open Scope Z_scope.

(** ** [fetch] *)

Definition RETRY_LIMIT : nat := 8.
Definition INITIAL_DELAY_MILLIS : Z := 125.

Definition is_err {E A} (m : outcome E A) : bool := match m with Err _ => true | _ => false end.

(** The loop: attempt [i] with so many lives left; the result, the number of
    attempts and the milliseconds slept. *)
Fixpoint fetch_loop {E A} (request : nat -> outcome E A) (lives : nat) (delay : Z) (i : nat) (slept : Z)
    : outcome E A * nat * Z :=
  let result := request i in
  match lives with
  | Datatypes.S lives =>
      if is_err result then fetch_loop request lives (2 * delay) (Datatypes.S i) (slept + delay)
      else (result, Datatypes.S i, slept)
  | O => (result, Datatypes.S i, slept)
  end.

Definition fetch_run {E A} (request : nat -> outcome E A) : outcome E A * nat * Z :=
  fetch_loop request RETRY_LIMIT INITIAL_DELAY_MILLIS 0 0.

Section Rpc.
Context {P : Platform} {E : Type}.

(** ** The provider, at the block of the storage *)

Record Provider := mkProvider {
  get_transaction_count : nat -> nat -> Address -> outcome E Z;
  get_balance : nat -> nat -> Address -> outcome E U256;
  get_code_at : nat -> nat -> Address -> outcome E (list Z);
  get_storage_hash : nat -> nat -> Address -> outcome E B256;     (* [get_proof(..).storage_hash] *)
  get_storage_at : nat -> nat -> Address -> U256 -> outcome E U256;
  get_block_hash : nat -> nat -> Z -> outcome E (option B256);    (* of [get_block_by_number], if any *)
}.

(** revm's [Bytecode::new_raw], [is_empty] and [hash_slow]; alloy's [EMPTY_ROOT_HASH]. *)
Context (new_raw : list Z -> Bytecode) (code_is_empty : Bytecode -> bool) (hash_slow : Bytecode -> B256)
  (EMPTY_ROOT_HASH : B256).

(** [RpcStorage]; [requests] counts the calls of [fetch] so far. *)
Record RpcStorage := mkRpcStorage {
  cache_accounts : gmap Address EvmAccount;
  cache_bytecodes : gmap B256 EvmCode;
  cache_block_hashes : gmap Z B256;
  requests : nat;
}.
Abbreviation rpc := (stateM RpcStorage E).

Definition RpcStorage_new : RpcStorage := mkRpcStorage ∅ ∅ ∅ 0.

Context (provider : Provider) (precompiles : list Address).

(** One request to the provider, with its retries. *)
Definition fetch {A} (request : nat -> nat -> outcome E A) : rpc (outcome E A) := fun s =>
  (Ok (fetch_run (request (requests s))).1.1,
   mkRpcStorage (cache_accounts s) (cache_bytecodes s) (cache_block_hashes s) (Datatypes.S (requests s))).

Definition insert_account (a : Address) (acc : EvmAccount) : rpc unit := fun s =>
  (Ok tt, mkRpcStorage (<[a := acc]> (cache_accounts s)) (cache_bytecodes s) (cache_block_hashes s) (requests s)).
Definition insert_bytecode (h : B256) (c : EvmCode) : rpc unit := fun s =>
  (Ok tt, mkRpcStorage (cache_accounts s) (<[h := c]> (cache_bytecodes s)) (cache_block_hashes s) (requests s)).
Definition insert_block_hash (n : Z) (h : B256) : rpc unit := fun s =>
  (Ok tt, mkRpcStorage (cache_accounts s) (cache_bytecodes s) (<[n := h]> (cache_block_hashes s)) (requests s)).
Definition cached {A} (f : RpcStorage -> A) : rpc A := fun s => (Ok (f s), s).

(** ** The [Storage] trait *)

(** The account as the cache will hold it: without code and slots. *)
Definition fetched_account (balance : U256) (nonce : Z) (code_hash : option B256) : EvmAccount :=
  mkEvmAccount balance nonce code_hash None ∅.

(** What [basic] makes of the three answers.  (Should the conversion of the code
    panic, the mutex of the caches would be poisoned as well; here they go on.) *)
Definition cache_fetched (a : Address) (nonce : Z) (balance : U256) (raw : list Z) : rpc (option AccountBasic) :=
  if negb (bool_decide (a ∈ precompiles)) && (balance =? 0) && (nonce =? 0) && bool_decide (raw = [])
  then mret None
  else
    let code := new_raw raw in
    code_hash ← (if code_is_empty code then mret None
      else
        code' ← pure_of (unwrap (EvmCode_from 1 code));
        _ ← insert_bytecode (hash_slow code) code';
        mret (Some (hash_slow code)));
    _ ← insert_account a (fetched_account balance nonce code_hash);
    mret (Some (mkAccountBasic balance nonce)).

Definition rpc_basic (a : Address) : rpc (option AccountBasic) :=
  hit ← cached (fun s => cache_accounts s !! a);
  match hit with
  | Some account => mret (Some (mkAccountBasic (ea_balance account) (ea_nonce account)))
  | None =>
      nonce ← fetch (fun n i => get_transaction_count provider n i a);
      balance ← fetch (fun n i => get_balance provider n i a);
      code ← fetch (fun n i => get_code_at provider n i a);
      nonce ← pure_of nonce;
      balance ← pure_of balance;
      code ← pure_of code;
      cache_fetched a nonce balance code
  end.

Definition rpc_code_hash (a : Address) : rpc (option B256) :=
  _ ← rpc_basic a;
  cached (fun s => account ← cache_accounts s !! a; ea_code_hash account).

Definition rpc_code_by_hash (h : B256) : rpc (option EvmCode) := cached (fun s => cache_bytecodes s !! h).

Definition rpc_has_storage (a : Address) : rpc bool :=
  proof ← fetch (fun n i => get_storage_hash provider n i a);
  storage_hash ← pure_of proof;
  mret (negb (storage_hash =? EMPTY_ROOT_HASH)).

Definition add_slot (account : EvmAccount) (index : U256) (v : U256) : EvmAccount :=
  mkEvmAccount (ea_balance account) (ea_nonce account) (ea_code_hash account) (ea_code account)
    (<[index := v]> (ea_storage account)).

Definition rpc_storage (a : Address) (index : U256) : rpc U256 :=
  hit ← cached (fun s => account ← cache_accounts s !! a; ea_storage account !! index);
  match hit with
  | Some v => mret v
  | None =>
      v ← fetch (fun n i => get_storage_at provider n i a index);
      v ← pure_of v;
      _ ← rpc_basic a;
      account ← cached (fun s => cache_accounts s !! a);
      _ ← (match account with Some account => insert_account a (add_slot account index v) | None => mret tt end);
      mret v
  end.

Definition rpc_block_hash (number : Z) : rpc B256 :=
  hit ← cached (fun s => cache_block_hashes s !! number);
  match hit with
  | Some h => mret h
  | None =>
      block ← fetch (fun n i => get_block_hash provider n i number);
      block ← pure_of block;
      h ← pure_of (unwrap block);
      _ ← insert_block_hash number h;
      mret h
  end.

(** The caches, as the in-memory storage that they are turned into. *)
Definition into_snapshot (s : RpcStorage) : InMemoryStorage :=
  mkInMemoryStorage (cache_accounts s) (cache_bytecodes s) (cache_block_hashes s).
End Rpc.
