(* ===== verification/RpcSpec.v ===== *)
(** * RpcSpec: the RPC storage is the chain at its block (storage/rpc.rs)

    The retries of [fetch], and the caches: whatever calls are made, and whatever
    requests fail, every answer is that of the chain, and the snapshot of the caches
    replays the answers without a node.  Calls are made one after the other. *)

From S2P Require Import Prelude Types Platform Storage Rpc.
#[local] Open Scope Z_scope.

(** ** Retries *)

Lemma fetch_loop_spec {E A} (request : nat -> outcome E A) lives delay i slept :
  exists k, (k <= lives)%nat /\
    fetch_loop request lives delay i slept = (request (i + k)%nat, S (i + k), slept + delay * (2 ^ Z.of_nat k - 1)) /\
    (forall j, (j < k)%nat -> is_err (request (i + j)%nat) = true) /\
    (is_err (request (i + k)%nat) = true -> k = lives).
Proof.
  revert delay i slept. induction lives as [|lives IH]; intros delay i slept; cbn.
  - exists 0%nat. rewrite Nat.add_0_r, Z.mul_0_r, Z.add_0_r. by repeat split; intros; try lia.
  - destruct (is_err (request i)) eqn:He.
    + destruct (IH (2 * delay) (S i) (slept + delay)) as (k & Hk & -> & Hj & Hlast). exists (S k).
      replace (i + S k)%nat with (S i + k)%nat by lia. split; [lia|]. split; [|split].
      * f_equal. rewrite Nat2Z.inj_succ, Z.pow_succ_r by lia. lia.
      * intros [|j] Hlt; [by rewrite Nat.add_0_r|]. replace (i + S j)%nat with (S i + j)%nat by lia. apply Hj. lia.
      * intros H. by rewrite (Hlast H).
    + exists 0%nat. rewrite Nat.add_0_r, Z.mul_0_r, Z.add_0_r. repeat split; intros; try lia. congruence.
Qed.

(** C40: a request is tried at most nine times.  [fetch] returns the answer of its last
    attempt; all attempts before it failed, and if it failed as well it was the
    ninth; the delays double from 125 ms, so that it never sleeps more than 31.875
    seconds in total. *)
Theorem fetch_retries {E A} (request : nat -> outcome E A) :
  exists k, (k <= RETRY_LIMIT)%nat /\
    fetch_run request = (request k, S k, 125 * (2 ^ Z.of_nat k - 1)) /\
    (forall j, (j < k)%nat -> is_err (request j) = true) /\
    (is_err (request k) = true <-> forall j, (j <= RETRY_LIMIT)%nat -> is_err (request j) = true) /\
    (fetch_run request).2 <= 31875.
Proof.
  destruct (fetch_loop_spec request RETRY_LIMIT INITIAL_DELAY_MILLIS 0 0) as (k & Hk & Heq & Hj & Hlast).
  unfold fetch_run. rewrite Heq. cbn [Nat.add] in *. exists k. split; [done|]. split; [done|]. split; [done|]. split.
  - split; [|intros H; by apply H]. intros H j Hle. specialize (Hlast H). subst k.
    destruct (decide (j = RETRY_LIMIT)) as [->|]; [done|]. apply Hj. lia.
  - cbn. unfold INITIAL_DELAY_MILLIS, RETRY_LIMIT in *.
    assert (2 ^ Z.of_nat k <= 2 ^ 8) by (apply Z.pow_le_mono_r; lia). lia.
Qed.

Lemma fetch_run_answers {E A} (request : nat -> outcome E A) x :
  (fetch_run request).1.1 = Ok x -> exists i, request i = Ok x.
Proof.
  destruct (fetch_loop_spec request RETRY_LIMIT INITIAL_DELAY_MILLIS 0 0) as (k & _ & Heq & _).
  unfold fetch_run. rewrite Heq. cbn. by exists k.
Qed.

(** ** The chain at the block of the storage *)

Section World.
Context {P : Platform} {E : Type}.
Context (new_raw : list Z -> Bytecode) (code_is_empty : Bytecode -> bool) (hash_slow : Bytecode -> B256)
  (EMPTY_ROOT_HASH : B256) (provider : Provider (E := E)) (precompiles : list Address).

Record world := mkWorld {
  w_nonce : Address -> Z;
  w_balance : Address -> U256;
  w_code : Address -> list Z;
  w_storage_hash : Address -> B256;
  w_slot : Address -> U256 -> U256;
  w_block_hash : Z -> option B256;
}.
Context (w : world).

(** What the provider answers is so, if it answers; codes have distinct hashes. *)
Record provider_sound : Prop := mkSound {
  ps_nonce : forall n i a x, get_transaction_count provider n i a = Ok x -> x = w_nonce w a;
  ps_balance : forall n i a x, get_balance provider n i a = Ok x -> x = w_balance w a;
  ps_code : forall n i a x, get_code_at provider n i a = Ok x -> x = w_code w a;
  ps_storage_hash : forall n i a x, get_storage_hash provider n i a = Ok x -> x = w_storage_hash w a;
  ps_slot : forall n i a j x, get_storage_at provider n i a j = Ok x -> x = w_slot w a j;
  ps_block : forall n i b x, get_block_hash provider n i b = Ok x -> x = w_block_hash w b;
  ps_hashes : forall a b, hash_slow (new_raw (w_code w a)) = hash_slow (new_raw (w_code w b)) -> w_code w a = w_code w b;
}.

(** No account there: neither precompile nor balance, nonce or code. *)
Definition absent (a : Address) : Prop :=
  a ∉ precompiles /\ w_balance w a = 0 /\ w_nonce w a = 0 /\ w_code w a = [].
#[export] Instance absent_dec a : Decision (absent a) := ltac:(unfold absent; apply _).

Definition w_basic (a : Address) : option AccountBasic :=
  if decide (absent a) then None else Some (mkAccountBasic (w_balance w a) (w_nonce w a)).
Definition w_code_hash (a : Address) : option B256 :=
  if decide (absent a) then None
  else let c := new_raw (w_code w a) in if code_is_empty c then None else Some (hash_slow c).

(** ** The caches *)

Record account_ok (codes : gmap B256 EvmCode) (a : Address) (acc : EvmAccount) : Prop := mkAccountOk {
  ao_present : ~ absent a;
  ao_balance : ea_balance acc = w_balance w a;
  ao_nonce : ea_nonce acc = w_nonce w a;
  ao_code_hash : ea_code_hash acc = w_code_hash a;
  ao_code : forall h, ea_code_hash acc = Some h ->
    exists c, codes !! h = Some c /\ EvmCode_from 1 (new_raw (w_code w a)) = Some c;
  ao_slots : forall i v, ea_storage acc !! i = Some v -> v = w_slot w a i;
  ao_bare : ea_code acc = None;
}.

Record cache_ok (s : RpcStorage) : Prop := mkCacheOk {
  co_accounts : forall a acc, cache_accounts s !! a = Some acc -> account_ok (cache_bytecodes s) a acc;
  co_codes : forall h c, cache_bytecodes s !! h = Some c ->
    exists a, h = hash_slow (new_raw (w_code w a)) /\ EvmCode_from 1 (new_raw (w_code w a)) = Some c;
  co_blocks : forall n h, cache_block_hashes s !! n = Some h -> w_block_hash w n = Some h;
}.

(** Nothing cached is lost. *)
Record grows (s s' : RpcStorage) : Prop := mkGrows {
  gr_accounts : forall a acc, cache_accounts s !! a = Some acc ->
    exists acc', cache_accounts s' !! a = Some acc' /\ ea_storage acc ⊆ ea_storage acc';
  gr_codes : cache_bytecodes s ⊆ cache_bytecodes s';
  gr_blocks : cache_block_hashes s ⊆ cache_block_hashes s';
}.

#[export] Instance grows_preorder : PreOrder grows.
Proof.
  split.
  - intros s. split; [|done|done]. intros a acc H. by exists acc.
  - intros s1 s2 s3 [A1 B1 C1] [A2 B2 C2]. split; [|by etrans..]. intros a acc (acc1 & H1 & L1)%A1.
    destruct (A2 _ _ H1) as (acc2 & H2 & L2). exists acc2. split; [done|by etrans].
Qed.

(** The caches stay in order, and an answer has the property. *)
Definition keeps {A} (s : RpcStorage) (Q : A -> RpcStorage -> Prop) (r : outcome E A * RpcStorage) : Prop :=
  cache_ok r.2 /\ grows s r.2 /\ forall x, r.1 = Ok x -> Q x r.2.

Lemma keeps_same {A} s (Q : A -> RpcStorage -> Prop) (m : outcome E A) : cache_ok s ->
  (forall x, m = Ok x -> Q x s) -> keeps s Q (m, s).
Proof. intros Hs Hq. by split; [|split]. Qed.

Lemma keeps_grow {A} s s1 (Q : A -> RpcStorage -> Prop) r : grows s s1 -> keeps s1 Q r -> keeps s Q r.
Proof. intros Hg (H1 & H2 & H3). split; [done|]. split; [by etrans|done]. Qed.

Lemma keeps_mono {A} s (Q Q' : A -> RpcStorage -> Prop) r : keeps s Q r -> (forall x s', cache_ok s' -> Q x s' -> Q' x s') ->
  keeps s Q' r.
Proof. intros (H1 & H2 & H3) Hq. split; [done|]. split; [done|]. intros x Hx. apply Hq; [done|by apply H3]. Qed.

Lemma keeps_bind {A B} s (m : stateM RpcStorage E A) (k : A -> stateM RpcStorage E B) Q Q' :
  keeps s Q (m s) -> (forall x s', cache_ok s' -> grows s s' -> Q x s' -> keeps s' Q' (k x s')) -> keeps s Q' ((m ≫= k) s).
Proof.
  intros (H1 & H2 & H3) Hk. unfold mbind, state_bind. destruct (m s) as [[x|e|] s']; cbn in *; [|by split; [|split]..].
  eapply keeps_grow; [exact H2|]. apply Hk; [done|done|by apply H3].
Qed.
(** ** The operations *)

Abbreviation basic := (rpc_basic new_raw code_is_empty hash_slow provider precompiles).
Abbreviation code_hash := (rpc_code_hash new_raw code_is_empty hash_slow provider precompiles).
Abbreviation storage := (rpc_storage new_raw code_is_empty hash_slow provider precompiles).

(** One more request. *)
Definition bump (s : RpcStorage) : RpcStorage :=
  mkRpcStorage (cache_accounts s) (cache_bytecodes s) (cache_block_hashes s) (S (requests s)).

Lemma bump_ok s : cache_ok s -> cache_ok (bump s).
Proof. by intros []. Qed.
Lemma bump_grows s : grows s (bump s).
Proof. split; [|done|done]. intros a acc H. by exists acc. Qed.

Lemma keeps_fetch {A} s (request : nat -> nat -> outcome E A) (T : A -> Prop) : cache_ok s ->
  (forall n i x, request n i = Ok x -> T x) ->
  keeps s (fun r s' => (forall h, cache_accounts s' !! h = cache_accounts s !! h) /\ forall x, r = Ok x -> T x) (fetch request s).
Proof.
  intros Hs Ht. split; [by apply bump_ok|]. split; [apply bump_grows|]. intros r [= <-]. split; [done|].
  intros x (i & Hi)%fetch_run_answers. by eapply Ht.
Qed.

Lemma keeps_pure {A} s (m : outcome E A) (Q : A -> RpcStorage -> Prop) : cache_ok s ->
  (forall x, m = Ok x -> Q x s) -> keeps s Q (pure_of m s).
Proof. apply keeps_same. Qed.

Lemma keeps_insert_code s h c (Q : unit -> RpcStorage -> Prop) : provider_sound -> cache_ok s ->
  (exists a, h = hash_slow (new_raw (w_code w a)) /\ EvmCode_from 1 (new_raw (w_code w a)) = Some c) ->
  (forall s', (forall a, cache_accounts s' !! a = cache_accounts s !! a) -> cache_bytecodes s' !! h = Some c -> Q tt s') ->
  keeps s Q (insert_bytecode h c s).
Proof.
  intros Hp [Ha Hc Hb] (a & Hh & Hac) Hq. assert (cache_bytecodes s ⊆ <[h := c]> (cache_bytecodes s)) as Hsub.
  { apply map_subseteq_spec. intros h' c' Hc'. destruct (decide (h' = h)) as [->|]; [|by rewrite lookup_insert_ne].
    rewrite lookup_insert_eq. destruct (Hc _ _ Hc') as (b & Hhb & Hbc). f_equal.
    assert (w_code w a = w_code w b) as Hab by (apply (ps_hashes Hp); congruence). rewrite Hab in Hac. congruence. }
  split; [|split].
  - split; cbn.
    + intros a' acc H'. destruct (Ha _ _ H') as [H1 H2 H3 H4 H5 H6]. split; try done.
      intros h' (c' & Hc' & Hx)%H5. exists c'. split; [by eapply lookup_weaken|done].
    + intros h' c'. destruct (decide (h' = h)) as [->|]; [rewrite lookup_insert_eq; intros [= <-]; by exists a|].
      rewrite lookup_insert_ne by done. apply Hc.
    + done.
  - split; cbn; [|done|done]. intros a' acc H. by exists acc.
  - intros [] _. apply Hq; [done|]. apply lookup_insert_eq.
Qed.

Lemma keeps_insert_account s a acc (Q : unit -> RpcStorage -> Prop) : cache_ok s ->
  account_ok (cache_bytecodes s) a acc ->
  (forall old, cache_accounts s !! a = Some old -> ea_storage old ⊆ ea_storage acc) ->
  (forall s', cache_accounts s' !! a = Some acc -> Q tt s') ->
  keeps s Q (insert_account a acc s).
Proof.
  intros [Ha Hc Hb] Hacc Hold Hq. split; [|split].
  - split; cbn; [|done|done]. intros a' acc'. destruct (decide (a' = a)) as [->|].
    + rewrite lookup_insert_eq. by intros [= <-].
    + rewrite lookup_insert_ne by done. apply Ha.
  - split; cbn; [|done|done]. intros a' acc' H. destruct (decide (a' = a)) as [->|].
    + exists acc. rewrite lookup_insert_eq. split; [done|]. by apply Hold.
    + exists acc'. by rewrite lookup_insert_ne.
  - intros [] _. apply Hq, lookup_insert_eq.
Qed.

(** What the cache holds of an account after it was asked for. *)
Definition known (a : Address) (s : RpcStorage) : Prop :=
  match cache_accounts s !! a with Some _ => ~ absent a | None => absent a end.

Lemma cache_fetched_ok s a : provider_sound -> cache_ok s -> cache_accounts s !! a = None ->
  keeps s (fun b s' => b = w_basic a /\ known a s')
    (cache_fetched (E := E) new_raw code_is_empty hash_slow precompiles a (w_nonce w a) (w_balance w a) (w_code w a) s).
Proof.
  intros Hp Hs Hmiss. unfold cache_fetched, w_basic.
  destruct (negb _ && _ && _ && _) eqn:Habs.
  - assert (absent a) as Ha.
    { apply andb_true_iff in Habs as [[[H1 H2]%andb_true_iff H3]%andb_true_iff H4].
      apply negb_true_iff, bool_decide_eq_false in H1. apply bool_decide_eq_true in H4. by repeat split; try lia. }
    apply keeps_same; [done|]. intros x [= <-]. rewrite decide_True by done. split; [done|]. unfold known. by rewrite Hmiss.
  - assert (~ absent a) as Ha.
    { intros (H1 & H2 & H3 & H4). by rewrite (bool_decide_eq_false_2 _ H1), H2, H3, H4 in Habs. }
    eapply (keeps_bind _ _ _ (fun ch s' => cache_accounts s' !! a = None /\ ch = w_code_hash a /\
      forall h, ch = Some h -> exists c, cache_bytecodes s' !! h = Some c /\ EvmCode_from 1 (new_raw (w_code w a)) = Some c)).
    + unfold w_code_hash. rewrite decide_False by done.
      destruct (code_is_empty _); [apply keeps_same; [done|]; by intros x [= <-]|].
      eapply (keeps_bind _ _ _ (fun c s' => s' = s /\ EvmCode_from 1 (new_raw (w_code w a)) = Some c)).
      { apply keeps_pure; [done|]. by destruct (EvmCode_from 1 _); intros x [= <-]. }
      intros c s1 Hs1 _ [-> Hc]. eapply (keeps_bind _ _ _ (fun _ s' => cache_accounts s' !! a = None /\
        cache_bytecodes s' !! hash_slow (new_raw (w_code w a)) = Some c)).
      { apply keeps_insert_code; [done|done|by exists a|]. intros s' Hsame Hin. by rewrite Hsame. }
      intros [] s2 Hs2 _ [Hm Hin]. apply keeps_same; [done|]. intros x [= <-]. split; [done|]. split; [done|].
      intros h [= <-]. by exists c.
    + intros ch s1 Hs1 _ (Hm & Hch & Hcode).
      eapply (keeps_bind _ _ _ (fun _ s' => is_Some (cache_accounts s' !! a))).
      { apply keeps_insert_account; [done| |by rewrite Hm|by intros s' ->; eexists].
        split; cbn; [done|done|done|done|done| |done]. by intros i v ?%lookup_empty_Some. }
      intros [] s2 Hs2 _ [acc Hacc]. apply keeps_same; [done|]. intros x [= <-]. rewrite decide_False by done.
      split; [done|]. unfold known. by rewrite Hacc.
Qed.

Lemma basic_ok s a : provider_sound -> cache_ok s -> keeps s (fun b s' => b = w_basic a /\ known a s') (basic a s).
Proof.
  intros Hp Hs. unfold rpc_basic. eapply (keeps_bind _ _ _ (fun hit s' => s' = s /\ hit = cache_accounts s !! a)).
  { apply keeps_same; [done|]. by intros x [= <-]. }
  intros hit s1 _ _ [-> ->]. destruct (cache_accounts s !! a) as [acc|] eqn:Hhit.
  { apply keeps_same; [done|]. intros x [= <-]. destruct (co_accounts _ Hs _ _ Hhit) as [H1 H2 H3 _ _ _ _].
    unfold w_basic, known. rewrite Hhit, decide_False by done. by rewrite H2, H3. }
  eapply keeps_bind; [apply (keeps_fetch _ _ (fun x => x = w_nonce w a)); [done|by intros; eapply ps_nonce]|].
  intros n s1 Hs1 _ [Hm1 Hn]. rewrite <- Hm1 in Hhit.
  eapply keeps_bind; [apply (keeps_fetch _ _ (fun x => x = w_balance w a)); [done|by intros; eapply ps_balance]|].
  intros b s2 Hs2 _ [Hm2 Hb]. rewrite <- Hm2 in Hhit.
  eapply keeps_bind; [apply (keeps_fetch _ _ (fun x => x = w_code w a)); [done|by intros; eapply ps_code]|].
  intros c s3 Hs3 _ [Hm3 Hc]. rewrite <- Hm3 in Hhit.
  eapply (keeps_bind _ _ _ (fun x s' => s' = s3 /\ x = w_nonce w a)); [apply keeps_pure; auto|]. intros ? ? _ _ [-> ->].
  eapply (keeps_bind _ _ _ (fun x s' => s' = s3 /\ x = w_balance w a)); [apply keeps_pure; auto|]. intros ? ? _ _ [-> ->].
  eapply (keeps_bind _ _ _ (fun x s' => s' = s3 /\ x = w_code w a)); [apply keeps_pure; auto|]. intros ? ? _ _ [-> ->].
  by apply cache_fetched_ok.
Qed.

Lemma known_code_hash s a : cache_ok s -> known a s ->
  (account ← cache_accounts s !! a; ea_code_hash account) = w_code_hash a.
Proof.
  unfold known. intros Hs Hk. destruct (cache_accounts s !! a) as [acc|] eqn:Hacc; cbn.
  - by apply (ao_code_hash _ _ _ (co_accounts _ Hs _ _ Hacc)).
  - unfold w_code_hash. by rewrite decide_True.
Qed.

Lemma code_hash_ok s a : provider_sound -> cache_ok s ->
  keeps s (fun h s' => h = w_code_hash a /\ known a s') (code_hash a s).
Proof.
  intros Hp Hs. unfold rpc_code_hash. eapply keeps_bind; [by apply basic_ok|]. intros b s1 Hs1 _ [_ Hk].
  apply keeps_same; [done|]. intros x [= <-]. by rewrite known_code_hash.
Qed.

(** A slot that was asked for is in the cache, if its account is. *)
Definition slot_known (a : Address) (i : U256) (s : RpcStorage) : Prop :=
  match cache_accounts s !! a with Some acc => ea_storage acc !! i = Some (w_slot w a i) | None => absent a end.

Lemma slot_ok s a i : provider_sound -> cache_ok s ->
  keeps s (fun v s' => v = w_slot w a i /\ slot_known a i s') (storage a i s).
Proof.
  intros Hp Hs. unfold rpc_storage.
  eapply (keeps_bind _ _ _ (fun hit s' => s' = s /\ hit = account ← cache_accounts s !! a; ea_storage account !! i)).
  { apply keeps_same; [done|]. by intros x [= <-]. }
  intros hit s1 _ _ [-> ->]. destruct (account ← cache_accounts s !! a; _) as [v|] eqn:Hhit.
  { apply keeps_same; [done|]. intros x [= <-]. unfold slot_known. destruct (cache_accounts s !! a) as [acc|] eqn:Hacc; [|done].
    pose proof (ao_slots _ _ _ (co_accounts _ Hs _ _ Hacc) _ _ Hhit) as ->. done. }
  eapply keeps_bind; [apply (keeps_fetch _ _ (fun x => x = w_slot w a i)); [done|by intros; eapply ps_slot]|].
  intros r s1 Hs1 _ [_ Hr].
  eapply (keeps_bind _ _ _ (fun x s' => s' = s1 /\ x = w_slot w a i)); [apply keeps_pure; auto|]. intros ? ? _ _ [-> ->].
  eapply keeps_bind; [by apply basic_ok|]. intros b s2 Hs2 _ [_ Hk]. unfold known in Hk.
  eapply (keeps_bind _ _ _ (fun x s' => s' = s2 /\ x = cache_accounts s2 !! a)).
  { apply keeps_same; [done|]. by intros x [= <-]. }
  intros ? ? _ _ [-> ->]. eapply (keeps_bind _ _ _ (fun _ s' => slot_known a i s')).
  2:{ intros [] s4 Hs4 _ Hsk. apply keeps_same; [done|]. by intros x [= <-]. }
  destruct (cache_accounts s2 !! a) as [acc|] eqn:Hacc.
  - destruct (co_accounts _ Hs2 _ _ Hacc) as [H1 H2 H3 H4 H5 H6 H7]. apply keeps_insert_account; [done| | |].
    + split; try done. intros j v. cbn. destruct (decide (j = i)) as [->|]; [rewrite lookup_insert_eq; by intros [= <-]|].
      rewrite lookup_insert_ne by done. apply H6.
    + rewrite Hacc. intros old [= <-]. cbn. apply map_subseteq_spec. intros j v Hj.
      destruct (decide (j = i)) as [->|]; [rewrite lookup_insert_eq; by rewrite (H6 _ _ Hj)|by rewrite lookup_insert_ne].
    + intros s' Hs'. unfold slot_known. rewrite Hs'. cbn. apply lookup_insert_eq.
  - apply keeps_same; [done|]. intros x [= <-]. unfold slot_known. by rewrite Hacc.
Qed.

Lemma has_storage_ok s a : provider_sound -> cache_ok s ->
  keeps s (fun b _ => b = negb (w_storage_hash w a =? EMPTY_ROOT_HASH)) (rpc_has_storage EMPTY_ROOT_HASH provider a s).
Proof.
  intros Hp Hs. unfold rpc_has_storage.
  eapply keeps_bind; [apply (keeps_fetch _ _ (fun x => x = w_storage_hash w a)); [done|by intros; eapply ps_storage_hash]|].
  intros r s1 Hs1 _ [_ Hr].
  eapply (keeps_bind _ _ _ (fun x s' => s' = s1 /\ x = w_storage_hash w a)); [apply keeps_pure; auto|]. intros ? ? _ _ [-> ->].
  apply keeps_same; [done|]. by intros x [= <-].
Qed.

Lemma block_hash_ok s n : provider_sound -> cache_ok s ->
  keeps s (fun h s' => w_block_hash w n = Some h /\ cache_block_hashes s' !! n = Some h) (rpc_block_hash provider n s).
Proof.
  intros Hp Hs. unfold rpc_block_hash. eapply (keeps_bind _ _ _ (fun hit s' => s' = s /\ hit = cache_block_hashes s !! n)).
  { apply keeps_same; [done|]. by intros x [= <-]. }
  intros hit s1 _ _ [-> ->]. destruct (cache_block_hashes s !! n) as [h|] eqn:Hhit.
  { apply keeps_same; [done|]. intros x [= <-]. split; [by apply (co_blocks _ Hs)|done]. }
  eapply keeps_bind; [apply (keeps_fetch _ _ (fun x => x = w_block_hash w n)); [done|by intros; eapply ps_block]|].
  intros r s1 Hs1 _ [_ Hr].
  eapply (keeps_bind _ _ _ (fun x s' => s' = s1 /\ x = w_block_hash w n)); [apply keeps_pure; auto|]. intros ? ? _ _ [-> ->].
  eapply (keeps_bind _ _ _ (fun x s' => s' = s1 /\ w_block_hash w n = Some x)).
  { apply keeps_pure; [done|]. destruct (w_block_hash w n); by intros x [= <-]. }
  intros h s2 _ _ [-> Hh]. destruct Hs1 as [Ha Hc Hb].
  eapply (keeps_bind _ _ _ (fun _ s' => cache_block_hashes s' !! n = Some h)).
  - split; [|split].
    + split; cbn; [done|done|]. intros m x. destruct (decide (m = n)) as [->|]; [rewrite lookup_insert_eq; by intros [= <-]|].
      rewrite lookup_insert_ne by done. apply Hb.
    + split; cbn; [by intros a acc H; exists acc|done|]. apply map_subseteq_spec. intros m x Hx.
      destruct (decide (m = n)) as [->|]; [|by rewrite lookup_insert_ne]. rewrite lookup_insert_eq. rewrite (Hb _ _ Hx) in Hh. congruence.
    + intros [] _. cbn. apply lookup_insert_eq.
  - intros [] s3 Hs3 _ Hin. apply keeps_same; [done|]. by intros x [= <-].
Qed.

(** ** Calls and answers *)

Inductive call :=
| CallBasic (a : Address)
| CallCodeHash (a : Address)
| CallCodeByHash (h : B256)
| CallHasStorage (a : Address)
| CallStorage (a : Address) (i : U256)
| CallBlockHash (n : Z).

Inductive answer :=
| ABasic (b : option AccountBasic)
| ACodeHash (h : option B256)
| ACode (c : option EvmCode)
| AHasStorage (b : bool)
| ASlot (v : U256)
| ABlockHash (h : B256).

Definition run_call (c : call) : stateM RpcStorage E answer :=
  match c with
  | CallBasic a => x ← basic a; mret (ABasic x)
  | CallCodeHash a => x ← code_hash a; mret (ACodeHash x)
  | CallCodeByHash h => x ← rpc_code_by_hash h; mret (ACode x)
  | CallHasStorage a => x ← rpc_has_storage EMPTY_ROOT_HASH provider a; mret (AHasStorage x)
  | CallStorage a i => x ← storage a i; mret (ASlot x)
  | CallBlockHash n => x ← rpc_block_hash provider n; mret (ABlockHash x)
  end.

(** The calls in order, failed or not, and what they answered. *)
Fixpoint run_calls (cs : list call) (s : RpcStorage) : list (call * outcome E answer) * RpcStorage :=
  match cs with
  | [] => ([], s)
  | c :: cs => let '(r, s1) := run_call c s in let '(log, s2) := run_calls cs s1 in ((c, r) :: log, s2)
  end.

(** The account that a call makes known, if it answers. *)
Definition touches (c : call) : option Address :=
  match c with CallBasic a | CallCodeHash a | CallStorage a _ => Some a | _ => None end.

(** The answer of the chain, after the calls and answers [before].  A code is only
    ever looked up in the cache, so it is missing until an account that has it is
    known. *)
Definition correct (before : list (call * outcome E answer)) (c : call) (x : answer) : Prop :=
  match c, x with
  | CallBasic a, ABasic b => b = w_basic a
  | CallCodeHash a, ACodeHash h => h = w_code_hash a
  | CallCodeByHash h, ACode (Some c) =>
      exists a, h = hash_slow (new_raw (w_code w a)) /\ EvmCode_from 1 (new_raw (w_code w a)) = Some c
  | CallCodeByHash h, ACode None =>
      forall c' y a, (c', Ok y) ∈ before -> touches c' = Some a -> w_code_hash a <> Some h
  | CallHasStorage a, AHasStorage b => b = negb (w_storage_hash w a =? EMPTY_ROOT_HASH)
  | CallStorage a i, ASlot v => v = w_slot w a i
  | CallBlockHash n, ABlockHash h => w_block_hash w n = Some h
  | _, _ => False
  end.

(** The in-memory storage gives this answer. *)
Definition replays (m : InMemoryStorage) (c : call) (x : answer) : Prop :=
  let st := InMemory_storage m in
  match c, x with
  | CallBasic a, ABasic b => st_basic st a = Ok b
  | CallCodeHash a, ACodeHash h => st_code_hash st a = Ok h /\
      forall h', h = Some h' -> exists c, st_code_by_hash st h' = Ok (Some c) /\ EvmCode_from 1 (new_raw (w_code w a)) = Some c
  | CallCodeByHash h, ACode (Some c) => st_code_by_hash st h = Ok (Some c)
  | CallStorage a i, ASlot v => (absent a -> w_slot w a i = 0) -> st_storage st a i = Ok v
  | CallBlockHash n, ABlockHash h => st_block_hash st n = Ok h
  | CallCodeByHash _, ACode None | CallHasStorage _, AHasStorage _ => True
  | _, _ => False
  end.

(** ** Caches that remember their answers *)

Definition remembers (c : call) (x : answer) (s : RpcStorage) : Prop :=
  match c, x with
  | CallBasic a, _ | CallCodeHash a, _ => known a s
  | CallCodeByHash h, ACode (Some c) => cache_bytecodes s !! h = Some c
  | CallStorage a i, _ => slot_known a i s
  | CallBlockHash n, ABlockHash h => cache_block_hashes s !! n = Some h
  | _, _ => True
  end.

Lemma known_grows a s s' : cache_ok s' -> grows s s' -> known a s -> known a s'.
Proof.
  intros Hs' Hg. unfold known. destruct (cache_accounts s !! a) as [acc|] eqn:Hacc.
  - by destruct (gr_accounts _ _ Hg _ _ Hacc) as (acc' & -> & _).
  - intros Ha. destruct (cache_accounts s' !! a) as [acc'|] eqn:Hacc'; [|done].
    by destruct (ao_present _ _ _ (co_accounts _ Hs' _ _ Hacc')).
Qed.

Lemma remembers_grows c x s s' : cache_ok s' -> grows s s' -> remembers c x s -> remembers c x s'.
Proof.
  intros Hs' Hg. destruct c as [a|a|h|a|a i|n]; cbn; [by apply known_grows..| |done| |].
  - destruct x as [| |[c|]| | |]; try done. intros Hc. exact (lookup_weaken _ _ _ _ Hc (gr_codes _ _ Hg)).
  - unfold slot_known. destruct (cache_accounts s !! a) as [acc|] eqn:Hacc.
    + destruct (gr_accounts _ _ Hg _ _ Hacc) as (acc' & -> & Hsub). intros H. by eapply lookup_weaken.
    + intros Ha. destruct (cache_accounts s' !! a) as [acc'|] eqn:Hacc'; [|done].
      by destruct (ao_present _ _ _ (co_accounts _ Hs' _ _ Hacc')).
  - destruct x; try done. intros Hb. exact (lookup_weaken _ _ _ _ Hb (gr_blocks _ _ Hg)).
Qed.

(** An in-memory storage with the accounts of the caches, and at least their
    bytecodes and block hashes. *)
Record holds_caches (m : InMemoryStorage) (s : RpcStorage) : Prop := mkHoldsCaches {
  hc_accounts : accounts m = cache_accounts s;
  hc_codes : cache_bytecodes s ⊆ bytecodes m;
  hc_hashes : cache_block_hashes s ⊆ block_hashes m;
}.

Lemma snapshot_holds_caches s : holds_caches (into_snapshot s) s.
Proof. done. Qed.

Lemma remembers_replays m before c x s : holds_caches m s -> cache_ok s -> correct before c x -> remembers c x s -> replays m c x.
Proof.
  intros [Hma Hmc Hmh] Hs. destruct c as [a|a|h|a|a i|n], x as [b|h'|[c'|]|b|v|h']; cbn; rewrite ?Hma; try done.
  - intros -> Hk. f_equal. unfold known in Hk. unfold w_basic. destruct (cache_accounts s !! a) as [acc|] eqn:Hacc; cbn.
    + destruct (co_accounts _ Hs _ _ Hacc) as [H1 H2 H3 _ _ _ _]. by rewrite decide_False, H2, H3.
    + by rewrite decide_True.
  - intros -> Hk. rewrite (known_code_hash s a Hs Hk). split; [done|]. intros h0 Hh0.
    rewrite <- (known_code_hash s a Hs Hk) in Hh0. destruct (cache_accounts s !! a) as [acc|] eqn:Hacc; cbn in Hh0; [|done].
    destruct (ao_code _ _ _ (co_accounts _ Hs _ _ Hacc) _ Hh0) as (c & Hc & Hx). exists c.
    by rewrite (lookup_weaken _ _ _ _ Hc Hmc).
  - intros _ Hc. by rewrite (lookup_weaken _ _ _ _ Hc Hmc).
  - intros -> Hk Hz. f_equal. unfold slot_known in Hk. destruct (cache_accounts s !! a) as [acc|]; cbn; [by rewrite Hk|].
    by rewrite Hz.
  - intros _ Hh. by rewrite (lookup_weaken _ _ _ _ Hh Hmh).
Qed.

(** ** Sequences of calls *)

Lemma remembers_known c x s a : cache_ok s -> remembers c x s -> touches c = Some a -> known a s.
Proof.
  intros Hs. destruct c as [b|b|h|b|b i|n]; cbn; try done; intros H [= <-]; [done..|].
  unfold slot_known in H. unfold known. destruct (cache_accounts s !! b) as [acc|] eqn:Hacc; [|done].
  by apply (ao_present _ _ _ (co_accounts _ Hs _ _ Hacc)).
Qed.

(** Every account that an answer has made known is known. *)
Definition all_known (before : list (call * outcome E answer)) (s : RpcStorage) : Prop :=
  forall c y a, (c, Ok y) ∈ before -> touches c = Some a -> known a s.

Lemma known_code s a h : cache_ok s -> known a s -> w_code_hash a = Some h -> is_Some (cache_bytecodes s !! h).
Proof.
  intros Hs Hk Hh. rewrite <- (known_code_hash s a Hs Hk) in Hh.
  destruct (cache_accounts s !! a) as [acc|] eqn:Hacc; cbn in Hh; [|done].
  destruct (ao_code _ _ _ (co_accounts _ Hs _ _ Hacc) _ Hh) as (c & Hc & _). by exists c.
Qed.

Lemma call_ok s before c : provider_sound -> cache_ok s -> all_known before s ->
  keeps s (fun x s' => correct before c x /\ remembers c x s') (run_call c s).
Proof.
  intros Hp Hs Hk. assert (forall A (Q : A -> RpcStorage -> Prop) (m : stateM RpcStorage E A) (f : A -> answer),
    keeps s Q (m s) -> (forall x s', Q x s' -> correct before c (f x) /\ remembers c (f x) s') ->
    keeps s (fun x s' => correct before c x /\ remembers c x s') ((x ← m; mret (f x)) s)) as Hgo.
  { intros A Q m f Hm Hq. eapply keeps_bind; [exact Hm|]. intros x s' Hs' _ Hx. apply keeps_same; [done|].
    intros y [= <-]. by apply Hq. }
  destruct c as [a|a|h|a|a i|n]; cbn [run_call].
  - by eapply Hgo; [by apply basic_ok|].
  - by eapply Hgo; [by apply code_hash_ok|].
  - eapply (Hgo _ (fun c s' => s' = s /\ c = cache_bytecodes s !! h)); [apply keeps_same; [done|]; by intros x [= <-]|].
    intros x s' [-> ->]. destruct (cache_bytecodes s !! h) as [c|] eqn:Hc; cbn; (split; [|done]).
    + by apply (co_codes _ Hs).
    + intros c' y a Hin Ha Hh. destruct (known_code s a h Hs (Hk _ _ _ Hin Ha) Hh) as [? ?]. congruence.
  - eapply Hgo; [by apply has_storage_ok|]. by intros x s' ->.
  - by eapply Hgo; [by apply slot_ok|].
  - by eapply Hgo; [by apply block_hash_ok|].
Qed.

Lemma calls_ok_from cs s before log s' : provider_sound -> cache_ok s -> all_known before s -> run_calls cs s = (log, s') ->
  cache_ok s' /\ grows s s' /\
  forall l1 c x l2, log = l1 ++ (c, Ok x) :: l2 -> correct (before ++ l1) c x /\ remembers c x s'.
Proof.
  intros Hp. revert s before log. induction cs as [|c cs IH]; intros s before log Hs Hk; cbn.
  { intros [= <- <-]. split; [done|]. split; [done|]. by intros [] ? ? ?. }
  pose proof (call_ok s before c Hp Hs Hk) as (H1 & H2 & H3). destruct (run_call c s) as [r s1]. cbn in *.
  destruct (run_calls cs s1) as [log1 s2] eqn:Hrest. intros [= <- <-].
  assert (all_known (before ++ [(c, r)]) s1) as Hk1.
  { intros c' y a [Hin|[= -> <-]%list_elem_of_singleton]%elem_of_app Ha; [by eapply known_grows; [..|by eapply Hk]|].
    eapply remembers_known; [done|by apply (H3 y)|done]. }
  destruct (IH _ _ _ H1 Hk1 Hrest) as (G1 & G2 & G3). split; [done|]. split; [by etrans|].
  intros [|e l1] c' x l2 Hlog; cbn in Hlog.
  - injection Hlog as -> -> _. destruct (H3 x eq_refl) as [Hc Hr]. rewrite app_nil_r. split; [done|].
    by eapply remembers_grows.
  - injection Hlog as <- Hl. destruct (G3 _ _ _ _ Hl) as [Hc Hr]. split; [by rewrite <- app_assoc in Hc|done].
Qed.

Lemma calls_ok cs s log s' : provider_sound -> cache_ok s -> run_calls cs s = (log, s') ->
  cache_ok s' /\ grows s s' /\
  forall l1 c x l2, log = l1 ++ (c, Ok x) :: l2 -> correct l1 c x /\ remembers c x s'.
Proof. intros Hp Hs. apply (calls_ok_from cs s []); [done..|]. by intros c y a ?%elem_of_nil. Qed.

Lemma calls_remembered cs s log s' c x : provider_sound -> cache_ok s -> run_calls cs s = (log, s') -> (c, Ok x) ∈ log ->
  cache_ok s' /\ exists before, correct before c x /\ remembers c x s'.
Proof.
  intros Hp Hs Hrun (l1 & l2 & Hlog)%list_elem_of_split. destruct (calls_ok _ _ _ _ Hp Hs Hrun) as (Hs' & _ & H).
  split; [done|]. exists l1. by eapply H.
Qed.

Lemma new_cache_ok : cache_ok RpcStorage_new.
Proof. by split; cbn. Qed.

(** C31: the RPC storage is a faithful view of the chain at its block.  Whatever calls
    are made of a new storage, in whatever order, and whichever requests fail, each
    call that answers gives the answer of the chain: the caches never change an
    answer, and an error never spoils them.  Codes are the exception that the trait
    allows for: a code by its hash comes from the cache alone, so a code that is on
    the chain is answered with nothing at first; but from the moment that an account
    with this code has been answered, in any way, the code is answered, and what is
    answered is always the code with that hash. *)
Theorem rpc_answers_are_the_chain cs log s (Hp : provider_sound)
  (Hrun : run_calls cs RpcStorage_new = (log, s)) before c x after (Hlog : log = before ++ (c, Ok x) :: after) :
  correct before c x.
Proof. destruct (calls_ok _ _ _ _ Hp new_cache_ok Hrun) as (_ & _ & H). by apply (H before c x after). Qed.

(** C32: the snapshot of the caches replays a session.  The in-memory storage that
    [into_snapshot] leaves behind gives every account, code hash, code, slot and
    block hash that was answered, with the code for every code hash; a slot of an
    absent account only if it is zero, since the caches leave absent accounts out. *)
Theorem snapshot_replays cs log s (Hp : provider_sound)
  (Hrun : run_calls cs RpcStorage_new = (log, s)) c x (Hin : (c, Ok x) ∈ log) : replays (into_snapshot s) c x.
Proof.
  destruct (calls_remembered _ _ _ _ _ _ Hp new_cache_ok Hrun Hin) as (Hs & before & Hc & Hr).
  by eapply remembers_replays; [apply snapshot_holds_caches|..].
Qed.
End World.

(** ** Witnesses and examples

    Account 7 has code and a slot; every request fails twice before it answers. *)
Section Demo.
#[local] Existing Instance demo.

Definition demo_world : world := mkWorld
  (fun a => if decide (a = 7) then 1 else 0) (fun a => if decide (a = 7) then 500 else 0)
  (fun a => if decide (a = 7) then [96; 0] else []) (fun a => if decide (a = 7) then 1 else 0)
  (fun a i => if decide (a = 7 /\ i = 2) then 42 else 0) (fun n => Some (n + 1000)).

Definition flaky {A} (i : nat) (x : A) : outcome unit A := if (i <? 2)%nat then Err tt else Ok x.

Definition demo_provider : Provider (E := unit) := mkProvider
  (fun _ i a => flaky i (w_nonce demo_world a)) (fun _ i a => flaky i (w_balance demo_world a))
  (fun _ i a => flaky i (w_code demo_world a)) (fun _ i a => flaky i (w_storage_hash demo_world a))
  (fun _ i a j => flaky i (w_slot demo_world a j)) (fun _ i n => flaky i (w_block_hash demo_world n)).

Definition demo_raw (l : list Z) : Bytecode := ViewLegacyAnalyzed l (length l) [].
Definition demo_raw_empty (c : Bytecode) : bool :=
  match c : bytecode_view with ViewLegacyAnalyzed [] _ _ => true | _ => false end.
Definition demo_hash (c : Bytecode) : B256 :=
  match c : bytecode_view with ViewLegacyAnalyzed l _ _ => Zpos (encode l) | _ => 0 end.

Lemma demo_sound : provider_sound demo_raw demo_hash demo_provider demo_world.
Proof.
  assert (forall A i (x y : A), flaky i x = Ok y -> y = x) as Hf.
  { intros A i x y. unfold flaky. destruct (i <? 2)%nat; [done|]. by intros [= ->]. }
  split; cbn; intros; try (by eapply Hf).
  match goal with H : Zpos _ = Zpos _ |- _ => injection H as H; by apply (inj encode) in H end.
Qed.

Definition session : list call :=
  [CallStorage 7 2; CallBasic 7; CallCodeHash 7; CallBasic 8; CallBlockHash 5; CallHasStorage 7].
Abbreviation demo_calls := (run_calls demo_raw demo_raw_empty demo_hash 0 demo_provider []).

Lemma fetch_retries_witness : exists k, fetch_run (fun i => flaky i 5) = (flaky k 5, S k, 125 * (2 ^ Z.of_nat k - 1)).
Proof. destruct (fetch_retries (fun i => flaky i 5)) as (k & _ & H & _). exists k. exact H. Defined.

(** The code of account 7, before and after the account is asked for. *)
Definition code_session : list call :=
  [CallCodeByHash (demo_hash (demo_raw [96; 0])); CallBasic 7; CallCodeByHash (demo_hash (demo_raw [96; 0]))].

Lemma rpc_answers_are_the_chain_witness :
  (demo_calls code_session RpcStorage_new).1 = [(CallCodeByHash (demo_hash (demo_raw [96; 0])), Ok (ACode None));
    (CallBasic 7, Ok (ABasic (Some (mkAccountBasic 500 1))));
    (CallCodeByHash (demo_hash (demo_raw [96; 0])), Ok (ACode (Some (Legacy (mkLegacyCode [96; 0] 2 [])))))] /\
  Some (mkAccountBasic 500 1) = w_basic [] demo_world 7.
Proof.
  split; [vm_compute; reflexivity|].
  refine (rpc_answers_are_the_chain demo_raw demo_raw_empty demo_hash 0 demo_provider [] demo_world code_session
    (demo_calls code_session RpcStorage_new).1 (demo_calls code_session RpcStorage_new).2 demo_sound
    (surjective_pairing _) [_] (CallBasic 7) (ABasic (Some (mkAccountBasic 500 1))) [_] _).
  vm_compute. reflexivity.
Defined.

Lemma snapshot_replays_witness :
  st_storage (InMemory_storage (into_snapshot (demo_calls session RpcStorage_new).2)) 7 2 = Ok 42.
Proof.
  apply (snapshot_replays demo_raw demo_raw_empty demo_hash 0 demo_provider [] demo_world session
    (demo_calls session RpcStorage_new).1 (demo_calls session RpcStorage_new).2 demo_sound
    (surjective_pairing _) (CallStorage 7 2) (ASlot 42)).
  - vm_compute. set_solver.
  - by intros (_ & H & _).
Defined.

(** Whether an account has storage is not replayed: the snapshot knows the slots that
    were read, be they zero. *)
Lemma has_storage_not_replayed :
  let s := (demo_calls [CallHasStorage 7; CallBasic 7] RpcStorage_new).2 in
  (CallHasStorage 7, Ok (AHasStorage true)) ∈ (demo_calls [CallHasStorage 7; CallBasic 7] RpcStorage_new).1 /\
  st_has_storage (InMemory_storage (into_snapshot s)) 7 = Ok false.
Proof. split; vm_compute; [set_solver|done]. Qed.
End Demo.
