(* ===== verification/Fetch.v ===== *)
(** * Fetch: keeping a block on disk (bins/fetch/src/main.rs)

    The tool fetches a block, executes it on an [RpcStorage] and saves the block,
    the accounts that the execution read, and the bytecodes and block hashes of all
    blocks fetched so far.  [load_block] reads them back as the tests and benches do
    (crates/pevm/tests/common/mod.rs).

    The files are maps; that a file cannot be created or written is left out.  The
    provider, the fork of a block and its execution are parameters. *)

From S2P Require Import Prelude Types Platform Storage.
#[local] Open Scope Z_scope.

Section Fetch.
Context {P : Platform} {Block : Type} (number : Block -> Z).

Inductive FetchError :=
| BlockNotFetched
| NoBlockFound
| NoBlockSpec
| ExecutionFailed
| BytecodesNotRead
| NoCodeHash (a : Address)
| BlockHashesNotRead.

(** The directory data/.  The last two files may be missing; [Some None] is one
    that does not decode. *)
Record Disk := mkDisk {
  block_files : gmap Z Block;
  pre_states : gmap Z (gmap Address EvmAccount);
  bytecodes_file : option (option (gmap B256 EvmCode));
  block_hashes_file : option (option (gmap Z B256));
}.
Abbreviation fetchM := (stateM Disk FetchError).

Definition write_block (b : Block) : fetchM unit := fun d =>
  (Ok tt, mkDisk (<[number b := b]> (block_files d)) (pre_states d) (bytecodes_file d) (block_hashes_file d)).
Definition write_pre_state (n : Z) (st : gmap Address EvmAccount) : fetchM unit := fun d =>
  (Ok tt, mkDisk (block_files d) (<[n := st]> (pre_states d)) (bytecodes_file d) (block_hashes_file d)).
Definition write_bytecodes (codes : gmap B256 EvmCode) : fetchM unit := fun d =>
  (Ok tt, mkDisk (block_files d) (pre_states d) (Some (Some codes)) (block_hashes_file d)).
Definition write_block_hashes (hashes : gmap Z B256) : fetchM unit := fun d =>
  (Ok tt, mkDisk (block_files d) (pre_states d) (bytecodes_file d) (Some (Some hashes))).

(** A file that is missing counts as empty. *)
Definition read_map {M} (e : FetchError) (empty : M) (file : Disk -> option (option M)) : fetchM M := fun d =>
  (match file d with
   | None => Ok empty
   | Some None => Err e
   | Some (Some m) => Ok m
   end, d).

(** [account.code.take()]. *)
Definition without_code (acc : EvmAccount) : EvmAccount :=
  mkEvmAccount (ea_balance acc) (ea_nonce acc) (ea_code_hash acc) None (ea_storage acc).

(** The loop over the accounts: codes move to the bytecodes. *)
Fixpoint split_codes (l : list (Address * EvmAccount)) (codes : gmap B256 EvmCode)
    (st : gmap Address EvmAccount) : outcome FetchError (gmap B256 EvmCode * gmap Address EvmAccount) :=
  match l with
  | [] => Ok (codes, st)
  | (a, acc) :: l =>
      codes ← match ea_code acc with
        | None => Ok codes
        | Some code =>
            match ea_code_hash acc with
            | None => Err (NoCodeHash a)
            | Some h => if decide (h = KECCAK_EMPTY) then Panic else Ok (<[h := code]> codes)
            end
        end;
      split_codes l codes (<[a := without_code acc]> st)
  end.

(** Saving the snapshot of the storage ([BTreeMap::extend] replaces). *)
Definition save (n : Z) (snapshot : InMemoryStorage) : fetchM unit :=
  codes ← read_map BytecodesNotRead ∅ bytecodes_file;
  '(codes, st) ← pure_of (split_codes (map_to_list (accounts snapshot)) (bytecodes snapshot ∪ codes) ∅);
  _ ← write_bytecodes codes;
  _ ← write_pre_state n st;
  hashes ← read_map BlockHashesNotRead ∅ block_hashes_file;
  let hashes := block_hashes snapshot ∪ hashes in
  if decide (hashes = ∅) then mret tt else write_block_hashes hashes.

(** The parent of a block, a u64. *)
Definition parent_number (b : Block) : Z := u64_sub (number b) 1.

(** [main]: what the provider answers, whether the block has a fork, and what its
    execution on the state of block [parent] leaves in the storage. *)
Definition fetch_block (provided : outcome unit (option Block)) (get_block_spec : Block -> outcome unit unit)
    (execute : Block -> Z -> outcome unit InMemoryStorage) : fetchM unit :=
  block ← pure_of (map_err (fun _ => BlockNotFetched) provided);
  block ← pure_of (match block with Some b => Ok b | None => Err NoBlockFound end);
  _ ← pure_of (map_err (fun _ => NoBlockSpec) (get_block_spec block));
  snapshot ← pure_of (map_err (fun _ => ExecutionFailed) (execute block (parent_number block)));
  _ ← write_block block;
  save (number block) snapshot.

(** [for_each_block_from_disk], one block. *)
Definition load_block (d : Disk) (n : Z) : option (Block * InMemoryStorage) :=
  codes ← bytecodes_file d ≫= id;
  hashes ← block_hashes_file d ≫= id;
  b ← block_files d !! n;
  st ← pre_states d !! n;
  Some (b, mkInMemoryStorage st codes hashes).
End Fetch.
