(* ===== verification/FetchSpec.v ===== *)
(** * FetchSpec: a fetched block can be replayed (bins/fetch/src/main.rs)

    What the tool leaves on disk answers as the node did while the block was
    executed; the files of other blocks stay. *)

From S2P Require Import Prelude Types Platform Storage Rpc RpcSpec Fetch.
#[local] Open Scope Z_scope.

Section Spec.
Context {P : Platform} {Block : Type} (number : Block -> Z).

(** Accounts without code are saved as they are. *)
Lemma split_codes_bare l codes st : NoDup l.*1 -> Forall (fun e => ea_code e.2 = None) l ->
  split_codes l codes st = Ok (codes, list_to_map l ∪ st).
Proof.
  revert st. induction l as [|[a acc] l IH]; intros st; cbn; [by rewrite (left_id_L ∅ (∪))|].
  intros [Ha Hnd]%NoDup_cons [Hc Hl]%Forall_cons. cbn in Hc. rewrite Hc. cbn. rewrite IH by done.
  replace (without_code acc) with acc by (by destruct acc; cbn in Hc; subst).
  by rewrite <- insert_union_r, insert_union_l by (by apply not_elem_of_list_to_map_1).
Qed.

(** The map in a file, empty if there is none. *)
Definition contents {K A} `{Countable K} (file : option (option (gmap K A))) : gmap K A := default ∅ (file ≫= id).

Lemma read_map_ok {K A} `{Countable K} e (file : Disk (Block := Block) -> option (option (gmap K A))) d m d' :
  read_map e ∅ file d = (Ok m, d') -> d' = d /\ m = contents (file d).
Proof. unfold read_map, contents. destruct (file d) as [[x|]|]; cbn; by intros [= <- <-]. Qed.

(** Saving a snapshot whose accounts hold no code. *)
Lemma save_bare n m (d d' : Disk (Block := Block)) : (forall a acc, accounts m !! a = Some acc -> ea_code acc = None) ->
  save n m d = (Ok tt, d') ->
  block_files d' = block_files d /\
  pre_states d' = <[n := accounts m]> (pre_states d) /\
  bytecodes_file d' = Some (Some (bytecodes m ∪ contents (bytecodes_file d))) /\
  block_hashes_file d' <> Some None /\
  contents (block_hashes_file d') = block_hashes m ∪ contents (block_hashes_file d) /\
  (block_hashes_file d' = None <-> block_hashes_file d = None /\ block_hashes m = ∅).
Proof.
  intros Hbare (codes & d1 & [-> ->]%read_map_ok & H)%state_bind_ok.
  rewrite split_codes_bare in H; [|apply NoDup_fst_map_to_list|].
  2: { apply Forall_forall. intros [a acc] Hin%elem_of_map_to_list. by eapply Hbare. }
  rewrite list_to_map_to_list, (right_id_L ∅ (∪)) in H.
  apply state_bind_ok in H as (x & d1 & [= <- <-] & (u1 & d2 & [= _ <-] & (u2 & d3 & [= _ <-] & H)%state_bind_ok)%state_bind_ok).
  apply state_bind_ok in H as (hashes & d4 & Hh & H). pose proof Hh as [-> ->]%read_map_ok. cbn in H.
  assert (block_hashes_file d <> Some None) as Hok by (intros He; unfold read_map in Hh; cbn in Hh; by rewrite He in Hh).
  assert (block_hashes m ∪ contents (block_hashes_file d) = ∅ <-> block_hashes m = ∅ /\ contents (block_hashes_file d) = ∅) as Hempty.
  { split; [|by intros [-> ->]]. intros He. pose proof (map_positive_l _ _ He) as Hz. split; [done|].
    by rewrite Hz, (left_id_L ∅ (∪)) in He. }
  case_decide as He; injection H as <-; cbn; cbn in He; rewrite Hempty in He; repeat (split; [done|]).
  - destruct He as [Hz _]. rewrite Hz, (left_id_L ∅ (∪)). split; [done|]. split; [by intros ->|by intros []].
  - intros [Hf Hz]. exfalso. apply He. by rewrite Hf.
Qed.

(** ** Replaying a fetched block *)

Context {E : Type} (new_raw : list Z -> Bytecode) (code_is_empty : Bytecode -> bool) (hash_slow : Bytecode -> B256)
  (EMPTY_ROOT_HASH : B256) (provider : Provider (E := E)) (precompiles : list Address) (w : world).
Context (get_block_spec : Block -> outcome unit unit).

(** C39: a fetched block can be replayed from disk.  Suppose that the tool succeeds on
    a block whose execution made the calls [cs] to the RPC storage.  If the disk had
    a file of block hashes or the execution read one, then the block loads again,
    with a storage that gives the execution every account, code, slot and block
    hash that the node gave it.  If there was no such file and nothing to put into
    one, the block does not load at all: the loader insists on a file that the tool
    did not write.  In both cases the bytecodes, the block hashes other than those
    replaced, and the files of the blocks fetched earlier are still there. *)
Theorem fetched_block_replays block cs log s execute d d'
  (Hp : provider_sound new_raw hash_slow provider w)
  (Hrun : run_calls new_raw code_is_empty hash_slow EMPTY_ROOT_HASH provider precompiles cs RpcStorage_new = (log, s))
  (Hexec : execute block (parent_number number block) = Ok (into_snapshot s))
  (Hfetch : fetch_block number (Ok (Some block)) get_block_spec execute d = (Ok tt, d')) :
  (is_Some (block_hashes_file d) \/ cache_block_hashes s <> ∅ -> exists st, load_block d' (number block) = Some (block, st) /\
     forall c x, (c, Ok x) ∈ log -> replays new_raw precompiles w st c x) /\
  (block_hashes_file d = None -> cache_block_hashes s = ∅ -> load_block d' (number block) = None) /\
  (forall n, n <> number block -> block_files d' !! n = block_files d !! n /\ pre_states d' !! n = pre_states d !! n) /\
  (forall h, is_Some (contents (bytecodes_file d) !! h) -> is_Some (contents (bytecodes_file d') !! h)) /\
  forall n, is_Some (contents (block_hashes_file d) !! n) -> is_Some (contents (block_hashes_file d') !! n).
Proof.
  destruct (calls_ok new_raw code_is_empty hash_slow EMPTY_ROOT_HASH provider precompiles w cs RpcStorage_new log s Hp
    (new_cache_ok _ _ _ _ _) Hrun) as (Hs & _).
  apply state_bind_ok in Hfetch as (b1 & d1 & [= <- <-] & (b2 & d2 & [= <- <-] & H)%state_bind_ok).
  apply state_bind_ok in H as (u & d3 & [= _ <-] & (m & d4 & Hm & H)%state_bind_ok).
  rewrite Hexec in Hm. injection Hm as <- <-.
  apply state_bind_ok in H as (u2 & d5 & [= _ <-] & H). apply save_bare in H as (Hb & Hst & Hc & Hok & Hh & Hnone).
  2: { intros a acc Ha. eapply ao_bare, (co_accounts _ _ _ _ _ _ Hs _ _ Ha). }
  cbn in *. split; [|split; [|split; [|split]]].
  - intros Hfile. assert (block_hashes_file d' <> None) as Hsome.
    { intros [Hd Hs0]%Hnone. rewrite Hd in Hfile. by destruct Hfile as [[]|]. }
    unfold load_block. rewrite Hc, Hb, Hst, !lookup_insert_eq.
    destruct (block_hashes_file d') as [[hashes|]|] eqn:Hf; [|done..].
    eexists. split; [cbn; reflexivity|]. intros c x Hin.
    destruct (calls_remembered _ _ _ _ _ _ _ _ _ _ _ _ _ Hp (new_cache_ok _ _ _ _ _) Hrun Hin) as (_ & before & Hcor & Hrem).
    eapply remembers_replays; [|done|done|done]. cbn in Hh. subst hashes.
    split; cbn; [done|apply map_union_subseteq_l..].
  - intros Hd Hs0. unfold load_block. rewrite (proj2 Hnone (conj Hd Hs0)). cbn. by destruct (bytecodes_file d' ≫= id).
  - intros n Hn. by rewrite Hb, Hst, !lookup_insert_ne by done.
  - intros h [c Hx]. rewrite Hc. cbn. apply lookup_union_is_Some. right. by exists c.
  - intros n [h Hn]. rewrite Hh. cbn. apply lookup_union_is_Some. right. by exists h.
Qed.
End Spec.

(** ** Witness and examples

    Block 5, whose execution is the session of RpcSpec.v; the disk already has the
    bytecodes of earlier blocks. *)
Section Demo.
#[local] Existing Instance demo.

Definition any_spec (_ : Z) : outcome unit unit := Ok tt.
Definition session_snapshot : InMemoryStorage :=
  into_snapshot (run_calls demo_raw demo_raw_empty demo_hash 0 demo_provider [] session RpcStorage_new).2.
Definition run_session (_ : Z) (_ : Z) : outcome unit InMemoryStorage := Ok session_snapshot.
Definition used_disk : Disk (Block := Z) := mkDisk {[ 4 := 4 ]} ∅ (Some (Some {[ 99 := Eof [1] ]})) None.
Definition demo_fetch : outcome FetchError unit * Disk :=
  fetch_block id (Ok (Some 5)) any_spec run_session used_disk.

Lemma fetched_block_replays_witness :
  exists st, load_block demo_fetch.2 5 = Some (5, st) /\ st_storage (InMemory_storage st) 7 2 = Ok 42 /\
    is_Some (contents (bytecodes_file demo_fetch.2) !! 99).
Proof.
  assert ((CallStorage 7 2, Ok (ASlot 42)) ∈
    (run_calls demo_raw demo_raw_empty demo_hash 0 demo_provider [] session RpcStorage_new).1) as Hin
    by (vm_compute; set_solver).
  destruct (fetched_block_replays id demo_raw demo_raw_empty demo_hash 0 demo_provider [] demo_world any_spec 5 session
    (run_calls demo_raw demo_raw_empty demo_hash 0 demo_provider [] session RpcStorage_new).1
    (run_calls demo_raw demo_raw_empty demo_hash 0 demo_provider [] session RpcStorage_new).2
    run_session used_disk demo_fetch.2 demo_sound (surjective_pairing _) eq_refl ltac:(vm_compute; reflexivity))
    as (Hload & _ & _ & Hold & _).
  destruct Hload as (st & Hst & Hlog); [by right; vm_compute|].
  exists st. split; [exact Hst|]. split.
  - refine (Hlog _ _ Hin _). by intros (_ & H & _).
  - apply Hold. vm_compute. by eexists.
Defined.

(** The parent of the genesis block is not looked for: its number wraps around. *)
Lemma genesis_parent_wraps : parent_number id 0 = 2 ^ 64 - 1.
Proof. by vm_compute. Qed.

(** The file of block hashes is only written when there is one to write, but the
    block does not load without it. *)
Lemma no_hashes_no_load :
  let d := (fetch_block id (Ok (Some 5)) any_spec (fun _ _ => Ok (mkInMemoryStorage ∅ ∅ ∅)) (mkDisk ∅ ∅ None None)) in
  d.1 = Ok tt /\ load_block d.2 5 = None.
Proof. split; by vm_compute. Qed.
End Demo.
