(* ===== verification/ParallelCodes.v ===== *)
(** * ParallelCodes: new bytecodes along a block (vm.rs, mv_memory.rs)

    [MvMemory::new_bytecodes] only grows, and the code of every hash in the memory
    is in it.  With content-addressed storage a code hash therefore stands for the
    same bytecode from the moment it is read to the end of the block. *)

From S2P Require Import Prelude Types Platform Storage MvMemory MvMemorySpec.
From S2P Require Import VmDb VmDbLemmas VmDbReplay Vm VmSpec.
#[local] Open Scope nat_scope.

(** ** What one execution adds *)

Section Writes.
Context {P : Platform} {E : Type} (display : E -> string) {SpecId : Type}.
Implicit Types vm : Vm (P := P) (E := E) SpecId.

(** Every code hash of a write set has its bytecode in [codes]. *)
Definition hashes_in (ws : WriteSet) (codes : gmap B256 Bytecode) : Prop :=
  forall loc h, (loc, VCodeHash h) ∈ ws -> is_Some (codes !! h).

Lemma hashes_in_app ws1 ws2 codes : hashes_in (ws1 ++ ws2) codes <-> hashes_in ws1 codes /\ hashes_in ws2 codes.
Proof. unfold hashes_in. setoid_rewrite elem_of_app. naive_solver. Qed.

Lemma hashes_in_mono ws codes codes' : codes ⊆ codes' -> hashes_in ws codes -> hashes_in ws codes'.
Proof. intros Hs Hw loc h Hin. destruct (Hw _ _ Hin) as [b Hb]. exists b. by eapply lookup_weaken. Qed.

Lemma hashes_in_none ws codes : (forall loc h, (loc, VCodeHash h) ∉ ws) -> hashes_in ws codes.
Proof. intros H loc h Hin. by apply H in Hin. Qed.

(** The storage writes of an account hold no code hash. *)
Lemma slot_writes_none a (slots : list (U256 * U256)) codes :
  hashes_in ((fun '(slot, v) => (hash_deterministic (StorageLoc a slot), VStorage v)) <$> slots) codes.
Proof. apply hashes_in_none. intros loc h ([slot v] & [=] & _)%list_elem_of_fmap. Qed.

Lemma account_writes_codes eip db tx a acc codes ws codes' :
  account_writes eip db tx a acc codes = Ok (ws, codes') -> codes ⊆ codes' /\ hashes_in ws codes'.
Proof.
  unfold account_writes. destruct (is_selfdestructed acc).
  { intros [= <- <-]. split; [done|]. by intros loc h ?%list_elem_of_singleton. }
  intros ([ws1 codes1] & H & [= <- <-])%outcome_bind_ok. rewrite hashes_in_app.
  assert (codes ⊆ codes1 /\ hashes_in ws1 codes1) as [? ?];
    [|by split; [|split; [|apply slot_writes_none]]].
  destruct (is_touched acc); [|injection H as <- <-; split; [done|by intros loc h ?%elem_of_nil]].
  cbv zeta in H. match type of H with context [Ok (?bw, codes)] => set (basic_write := bw) in H end.
  assert (forall c, hashes_in basic_write c) as Hbw.
  { intros c. apply hashes_in_none. intros loc h. subst basic_write.
    repeat case_match; rewrite ?list_elem_of_singleton, ?elem_of_nil; (by intros [=]) || by intros []. }
  clearbody basic_write. destruct (negb _ && _); [|by injection H as <- <-].
  apply outcome_bind_ok in H as (codes2 & H2 & [= <- <-]). rewrite hashes_in_app.
  assert (codes ⊆ codes2 /\ is_Some (codes2 !! ai_code_hash (info acc))) as [Hs Hin].
  { destruct (codes !! ai_code_hash (info acc)) as [b|] eqn:Hb; [injection H2 as <-; by split|].
    destruct (ai_code (info acc)) as [c|]; [|done]. injection H2 as <-.
    split; [by apply insert_subseteq|]. by rewrite lookup_insert_eq. }
  split; [done|]. split; [done|]. by intros loc h [= -> ->]%list_elem_of_singleton.
Qed.

Lemma state_writes_codes eip db tx l codes ws codes' :
  state_writes eip db tx l codes = Ok (ws, codes') -> codes ⊆ codes' /\ hashes_in ws codes'.
Proof.
  revert codes ws. induction l as [|[a acc] l IH]; intros codes ws; cbn.
  { intros [= <- <-]. split; [done|]. by intros loc h ?%elem_of_nil. }
  intros ([ws1 codes1] & H1 & ([ws2 codes2] & H2 & [= <- <-])%outcome_bind_ok)%outcome_bind_ok.
  apply account_writes_codes in H1 as [Hs1 Hw1]. apply IH in H2 as [Hs2 Hw2].
  split; [by etrans|]. apply hashes_in_app. split; [by eapply hashes_in_mono|done].
Qed.

Lemma add_reward_hashes ws r amount ws' codes :
  add_reward ws r amount = Ok ws' -> hashes_in ws codes -> hashes_in ws' codes.
Proof.
  revert ws'. induction ws as [|[loc v] ws IH]; intros ws'; cbn.
  { intros [= <-] _. by intros l h ?%list_elem_of_singleton. }
  intros H Hw. assert (hashes_in ws codes) as Hw' by (intros l h Hin; apply (Hw l); by right).
  assert (forall v', (forall h, v' <> VCodeHash h) -> hashes_in ((loc, v') :: ws) codes) as Hcons.
  { intros v' Hv' l h [[= <- <-]|Hin]%elem_of_cons; [by destruct (Hv' h)|by eapply Hw']. }
  case_decide.
  - destruct v; try done; injection H as <-; by apply Hcons.
  - apply outcome_bind_ok in H as (ws1 & H1 & [= <-]).
    intros l h [[= <- <-]|Hin]%elem_of_cons; [apply (Hw l); by left|by eapply (IH ws1 H1 Hw')].
Qed.

Lemma apply_rewards_hashes vm ws tx gas l1 ws' codes :
  apply_rewards vm ws tx gas l1 = Ok ws' -> hashes_in ws codes -> hashes_in ws' codes.
Proof.
  intros (rs & _ & H)%outcome_bind_ok. revert ws H.
  induction rs as [|[r amount] rs IH]; intros ws; cbn; [by intros [= <-]|].
  intros (ws1 & H1 & H2)%outcome_bind_ok Hw. eapply IH; [exact H2|]. by eapply add_reward_hashes.
Qed.

(** ** Along a history *)

Implicit Types mv : MvMemory Bytecode.

Definition op_ok mv (o : mv_op Bytecode) : Prop :=
  match o with
  | OpBytecodes codes => new_bytecodes mv ⊆ codes
  | OpRecord _ _ ws => hashes_in ws (new_bytecodes mv)
  | _ => True
  end.

Fixpoint ops_ok mv (ops : list (mv_op Bytecode)) : Prop :=
  match ops with
  | [] => True
  | o :: ops => op_ok mv o /\ forall mv', apply_op mv o = Some mv' -> ops_ok mv' ops
  end.

Lemma ops_ok_app mv ops1 ops2 mv1 : apply_ops mv ops1 = Some mv1 ->
  ops_ok mv (ops1 ++ ops2) <-> ops_ok mv ops1 /\ ops_ok mv1 ops2.
Proof.
  revert mv. induction ops1 as [|o ops1 IH]; intros mv; cbn; [intros [= ->]; tauto|].
  destruct (apply_op mv o) as [mv2|]; cbn; [|done]. intros H. specialize (IH _ H). split.
  - intros [Ho Hr]. destruct (proj1 IH (Hr _ eq_refl)) as [H1 H2]. split; [|done]. split; [done|].
    by intros ? [= <-].
  - intros [[Ho Hr] H2]. split; [done|]. intros ? [= <-]. apply IH. split; [by apply Hr|done].
Qed.

(** The memory knows the bytecode of every code hash in it. *)
Definition codes_known mv : Prop :=
  forall loc k inc h, entry (data mv) loc k = Some (Data inc (VCodeHash h)) -> is_Some (new_bytecodes mv !! h).

Lemma last_write_elem loc ws x : last_write loc ws = Some x -> (loc, x) ∈ ws.
Proof.
  induction ws as [|[l y] ws IH]; cbn; [done|]. destruct (last_write loc ws) as [z|].
  - intros [= ->]. right. by apply IH.
  - case_decide as H; [|done]. subst l. intros [= ->]. by left.
Qed.

Lemma apply_op_codes mv o mv' : codes_known mv -> op_ok mv o -> apply_op mv o = Some mv' ->
  codes_known mv' /\ new_bytecodes mv ⊆ new_bytecodes mv'.
Proof.
  intros Hk Ho Ha. destruct o as [v rs ws|i|addrs|codes]; cbn in Ha.
  - destruct (last_locations mv !! tx_idx v) as [ll|] eqn:Hll.
    2: { unfold record in Ha. by rewrite Hll in Ha. }
    destruct (record_full mv v rs ws ll Hll) as (b & locs & d & E' & _ & _ & _ & Hent).
    rewrite E' in Ha. injection Ha as <-. cbn. split; [|done]. intros loc k inc h. cbn. rewrite Hent.
    case_decide; [|by apply Hk]. destruct (last_write loc ws) as [y|] eqn:Hy.
    + intros [= _ ->]. apply last_write_elem in Hy. exact (Ho _ _ Hy).
    + case_decide; [done|by apply Hk].
  - destruct (last_locations mv !! i) as [ll|] eqn:Hll.
    2: { unfold convert_writes_to_estimates in Ha. by rewrite Hll in Ha. }
    destruct (convert_full mv i ll Hll) as (d & E' & Hent). rewrite E' in Ha. injection Ha as <-.
    cbn. split; [|done]. intros loc k inc h. cbn. rewrite Hent. case_decide; [done|by apply Hk].
  - injection Ha as <-. by split.
  - injection Ha as <-. cbn in *. split; [|done]. intros loc k inc h Hh.
    destruct (Hk _ _ _ _ Hh) as [b Hb]. exists b. by eapply lookup_weaken.
Qed.

Lemma apply_ops_codes mv ops mv' : codes_known mv -> ops_ok mv ops -> apply_ops mv ops = Some mv' ->
  codes_known mv' /\ new_bytecodes mv ⊆ new_bytecodes mv'.
Proof.
  revert mv. induction ops as [|o ops IH]; intros mv Hk Ho; cbn; [intros [= <-]; by split|].
  destruct (apply_op mv o) as [mv1|] eqn:Ha; cbn; [|done]. intros H. destruct Ho as [Ho Hr].
  destruct (apply_op_codes _ _ _ Hk Ho Ha) as [Hk1 Hs1].
  destruct (IH mv1 Hk1 (Hr _ Ha) H) as [Hk2 Hs2]. split; [done|by etrans].
Qed.

(** The bytecodes that an operation installs stay. *)
Lemma installed_codes_stay mv h mv' codes : codes_known mv -> ops_ok mv h -> apply_ops mv h = Some mv' ->
  OpBytecodes codes ∈ h -> codes ⊆ new_bytecodes mv'.
Proof.
  intros Hk Hok Hmv (h1 & h2 & ->)%list_elem_of_split. rewrite apply_ops_app in Hmv.
  destruct (apply_ops mv h1) as [mv1|] eqn:H1; cbn -[apply_op] in Hmv; [|done].
  apply (ops_ok_app _ _ _ _ H1) in Hok as [Hok1 [Ho Hok2]].
  destruct (apply_ops_codes _ _ _ Hk Hok1 H1) as [Hk1 _].
  destruct (apply_op mv1 (OpBytecodes codes)) as [mv2|] eqn:H2; cbn in Hmv; [|done].
  destruct (apply_op_codes _ _ _ Hk1 Ho H2) as [Hk2 _].
  destruct (apply_ops_codes _ _ _ Hk2 (Hok2 _ eq_refl) Hmv) as [_ Hs].
  cbn in H2. injection H2 as <-. exact Hs.
Qed.

Lemma apply_ops_split mv h n m mv1 mv2 : n <= m -> apply_ops mv (take n h) = Some mv1 ->
  apply_ops mv (take m h) = Some mv2 -> exists ops, take m h = take n h ++ ops /\ apply_ops mv1 ops = Some mv2.
Proof.
  intros Hn H1 H2. exists (drop n (take m h)).
  assert (take n h = take n (take m h)) as Ht by by rewrite take_take, Nat.min_l.
  assert (take m h = take n h ++ drop n (take m h)) as Hs by by rewrite Ht, take_drop.
  split; [done|]. rewrite Hs, apply_ops_app, H1 in H2. exact H2.
Qed.

(** [storage] serves the code of every code hash it has, and [codes] agrees with it. *)
Definition content_addressed (storage : Storage E) (codes : gmap B256 Bytecode) : Prop :=
  forall a h, st_code_hash storage a = Ok (Some h) -> exists c b,
    st_code_by_hash storage h = Ok (Some c) /\ Bytecode_try_from c = Ok b /\
    forall b', codes !! h = Some b' -> b' = b.

(** The memories of a run: after longer and longer parts of the history. *)
Definition moments mv0 (h : list (mv_op Bytecode)) (mvs : nat -> MvMemory Bytecode) : Prop :=
  exists n : nat -> nat, (forall k k', k <= k' -> n k <= n k') /\
    forall k, n k <= length h /\ apply_ops mv0 (take (n k) h) = Some (mvs k).

Lemma moments_codes_stable vm mv0 h mvs mv :
  codes_known mv0 -> ops_ok mv0 h -> apply_ops mv0 h = Some mv -> moments mv0 h mvs ->
  content_addressed (vm_storage vm) (new_bytecodes mv) -> codes_stable display vm mvs mv.
Proof.
  intros Hk0 Hok Hmv (n & Hn & Hat) Hca k k' db a hh db' Hle Hget.
  assert (forall j, codes_known (mvs j) /\ new_bytecodes (mvs j) ⊆ new_bytecodes mv) as Hfin.
  { intros j. destruct (Hat j) as [Hl Hj].
    assert (apply_ops mv0 (take (length h) h) = Some mv) as Hmv' by by rewrite firstn_all.
    destruct (apply_ops_split _ _ _ _ _ _ Hl Hj Hmv') as (ops & Hops & Hj').
    rewrite firstn_all in Hops. rewrite Hops in Hok. apply (ops_ok_app _ _ _ _ Hj) in Hok as [Hok1 Hok2].
    destruct (apply_ops_codes _ _ _ Hk0 Hok1 Hj) as [Hkj _]. split; [done|].
    by destruct (apply_ops_codes _ _ _ Hkj Hok2 Hj'). }
  assert (new_bytecodes (mvs k) ⊆ new_bytecodes (mvs k')) as Hmono.
  { destruct (Hat k) as [_ Hj], (Hat k') as [_ Hj'].
    destruct (apply_ops_split _ _ _ _ _ _ (Hn _ _ Hle) Hj Hj') as (ops & Hops & Hr).
    assert (ops_ok mv0 (take (n k') h)) as Hokt.
    { rewrite <- (take_drop (n k') h) in Hok. by apply (ops_ok_app _ _ _ _ Hj') in Hok as [? _]. }
    rewrite Hops in Hokt. apply (ops_ok_app _ _ _ _ Hj) in Hokt as [_ Hok2].
    by destruct (apply_ops_codes _ _ _ (proj1 (Hfin k)) Hok2 Hr). }
  destruct hh as [hh|]; [|done]. unfold same_code, load_code.
  apply get_code_hash_iff in Hget as (o & os & Hf & _).
  assert (is_Some (new_bytecodes (mvs k) !! hh) \/ st_code_hash (vm_storage vm) a = Ok (Some hh)) as [[b Hb]|Hst].
  { unfold code_found in Hf.
    destruct (entries_below (data (mvs k)) _ _) as [|[j [inc [| | | | |]|]] es] eqn:Hes; try done;
      try (right; destruct Hf as [_ Hf]; by destruct (st_code_hash (vm_storage vm) a); simplify_eq/=).
    left. destruct Hf as [_ [= ->]]. eapply (proj1 (Hfin k)).
    eapply entries_below_elem. rewrite Hes. by left. }
  - by rewrite (lookup_weaken _ _ _ _ Hb Hmono), (lookup_weaken _ _ _ _ Hb (proj2 (Hfin k))).
  - destruct (Hca _ _ Hst) as (c & b & Hc & Hb & Hag). rewrite Hc. cbn. rewrite Hb. cbn.
    destruct (new_bytecodes (mvs k') !! hh) as [b'|] eqn:Hb'.
    + rewrite (lookup_weaken _ _ _ _ Hb' (proj2 (Hfin k'))). done.
    + destruct (new_bytecodes mv !! hh) as [b'|]; [|done]. by rewrite (Hag b' eq_refl).
Qed.
End Writes.
