(* ===== verification/Sequential.v ===== *)
(** * Sequential: a reference execution of a block

    What the parallel execution is compared with: the transactions one after the
    other on a journal of the values written so far, with no versions, origins,
    estimates, validation or threads.  Only the writes are those of vm.rs
    ([account_writes], [apply_rewards]), so a balance may be a list of lazy
    additions and subtractions, and which transfers are lazy is an input.

    The lemmas below show that a database on a memory reads what the reference
    reads, whenever the journal holds the chains of that memory. *)

From S2P Require Import Prelude Types Platform Storage MvMemory MvMemorySpec.
From S2P Require Import VmDb VmDbLemmas VmDbReplay Vm VmSpec ParallelCodes.
#[local] Open Scope Z_scope.

(** ** The journal

    For every location the values written there, the latest first, down to the
    first one that is not a lazy update. *)
Abbreviation journal := (MemoryLocationHash -> list MemoryValue).

Definition journal_empty : journal := fun _ => [].

Definition journal_write (ws : WriteSet) (J : journal) : journal := fun loc =>
  match last_write loc ws with
  | None => J loc
  | Some v => if is_lazy_value v then v :: J loc else [v]
  end.

(** ** Running transactions one after the other

    On states of any kind: [exec] runs a transaction, [next] makes its writes. *)
Section Run.
Context {St Out Err : Type}.
Context (exec : St -> TxIdx -> TxEnv -> bool -> outcome Err (Out * WriteSet)) (next : WriteSet -> St -> St).

Fixpoint run_block (i : TxIdx) (txs : list TxEnv) (lazies : list bool) (st : St)
    : outcome Err (list (Out * WriteSet) * St) :=
  match txs with
  | [] => Ok ([], st)
  | tx :: txs =>
      '(out, ws) ← exec st i tx (default false (head lazies));
      '(outs, st) ← run_block (S i) txs (tail lazies) (next ws st);
      Ok ((out, ws) :: outs, st)
  end.

(** Every state that the run goes through is good. *)
Fixpoint run_safe (good : St -> Prop) (i : TxIdx) (txs : list TxEnv) (lazies : list bool) (st : St) : Prop :=
  good st /\
  match txs with
  | [] => True
  | tx :: txs => forall out ws, exec st i tx (default false (head lazies)) = Ok (out, ws) ->
      run_safe good (S i) txs (tail lazies) (next ws st)
  end.

(** The state after some write sets. *)
Definition after (st : St) (wss : list WriteSet) : St := foldl (fun st ws => next ws st) st wss.

Lemma run_block_after i txs lazies st outs st' : run_block i txs lazies st = Ok (outs, st') ->
  length outs = length txs /\ st' = after st outs.*2.
Proof.
  revert i lazies st outs. induction txs as [|tx txs IH]; intros i lazies st outs; cbn; [by intros [= <- <-]|].
  intros ([out ws] & _ & ([outs1 st1] & H & [= <- <-])%outcome_bind_ok)%outcome_bind_ok.
  destruct (IH _ _ _ _ H) as [Hl ->]. by rewrite <- Hl.
Qed.

Lemma run_block_nth i txs lazies st outs st' k tx : run_block i txs lazies st = Ok (outs, st') -> txs !! k = Some tx ->
  exists out ws, outs !! k = Some (out, ws) /\
    exec (after st (take k outs.*2)) (i + k)%nat tx (default false (lazies !! k)) = Ok (out, ws).
Proof.
  revert i lazies st outs k. induction txs as [|tx0 txs IH]; intros i lazies st outs k; cbn; [done|].
  intros ([out ws] & Hx & ([outs1 st1] & H & [= <- <-])%outcome_bind_ok)%outcome_bind_ok.
  destruct k as [|k]; cbn.
  - intros [= <-]. exists out, ws. rewrite Nat.add_0_r. split; [done|]. by destruct lazies.
  - intros Hk. destruct (IH _ _ _ _ _ H Hk) as (o & w & Ho & Hx'). exists o, w. split; [done|].
    rewrite <- Nat.add_succ_comm. by destruct lazies.
Qed.

(** A run without laziness, and its last transaction. *)
Lemma run_block_snoc i txs tx st outs st' : run_block i (txs ++ [tx]) [] st = Ok (outs, st') ->
  exists outs0 st0 out ws, run_block i txs [] st = Ok (outs0, st0) /\
    exec st0 (i + length txs)%nat tx false = Ok (out, ws) /\ outs = outs0 ++ [(out, ws)] /\ st' = next ws st0.
Proof.
  revert i st outs. induction txs as [|tx0 txs IH]; intros i st outs; cbn.
  - intros ([out ws] & Hx & [= <- <-])%outcome_bind_ok. exists [], st, out, ws. by rewrite Nat.add_0_r.
  - intros ([out ws] & Hx & ([outs1 st1] & H & [= <- <-])%outcome_bind_ok)%outcome_bind_ok.
    destruct (IH _ _ _ H) as (outs0 & st0 & o & w & H0 & Hx0 & -> & ->).
    exists ((out, ws) :: outs0), st0, o, w. rewrite Hx. cbn. rewrite H0. cbn. by rewrite <- Nat.add_succ_comm.
Qed.

Lemma run_block_app i txs1 txs2 lazies st outs st' : run_block i (txs1 ++ txs2) lazies st = Ok (outs, st') ->
  exists outs1 st1 outs2, run_block i txs1 lazies st = Ok (outs1, st1) /\
    run_block (i + length txs1)%nat txs2 (drop (length txs1) lazies) st1 = Ok (outs2, st').
Proof.
  revert i lazies st outs. induction txs1 as [|tx txs1 IH]; intros i lazies st outs; cbn.
  { rewrite Nat.add_0_r. by eexists _, _, _. }
  intros ([out ws] & Hx & ([outs0 st0] & H & [= _ <-])%outcome_bind_ok)%outcome_bind_ok.
  destruct (IH _ _ _ _ H) as (outs1 & st1 & outs2 & H1 & H2). exists ((out, ws) :: outs1), st1, outs2.
  rewrite Hx. cbn. rewrite H1, <- Nat.add_succ_comm. split; [done|]. rewrite <- H2. destruct lazies; cbn [tail]; by rewrite ?drop_nil.
Qed.

Lemma run_safe_after good i txs lazies st outs st' k : run_block i txs lazies st = Ok (outs, st') ->
  run_safe good i txs lazies st -> (k <= length txs)%nat -> good (after st (take k outs.*2)).
Proof.
  revert i lazies st outs k. induction txs as [|tx txs IH]; intros i lazies st outs k; cbn.
  { intros [= <- <-] [Hg _] Hk. by destruct k; [|lia]. }
  intros ([out ws] & Hx & ([outs1 st1] & H & [= <- <-])%outcome_bind_ok)%outcome_bind_ok [Hg Hs] Hk.
  destruct k as [|k]; [done|]. cbn. eapply IH; [exact H|by eapply Hs|lia].
Qed.
End Run.

(** Two ways of running that agree step by step, as long as the second is safe. *)
Lemma run_block_simulates {St1 St2 Out Err} exec1 (next1 : WriteSet -> St1 -> St1) exec2 (next2 : WriteSet -> St2 -> St2)
  (R : St1 -> St2 -> Prop) (good : St2 -> Prop) i txs lazies st1 st2 (outs : list (Out * WriteSet)) st1' :
  (forall st1 st2 i tx lazy out ws, R st1 st2 -> good st2 ->
     exec1 st1 i tx lazy = Ok (E := Err) (out, ws) -> exec2 st2 i tx lazy = Ok (E := Err) (out, ws) /\ R (next1 ws st1) (next2 ws st2)) ->
  R st1 st2 -> run_safe exec2 next2 good i txs lazies st2 ->
  run_block exec1 next1 i txs lazies st1 = Ok (outs, st1') ->
  exists st2', run_block exec2 next2 i txs lazies st2 = Ok (outs, st2') /\ R st1' st2'.
Proof.
  intros Hstep. revert i lazies st1 st2 outs. induction txs as [|tx txs IH]; intros i lazies st1 st2 outs HR [Hg Hs]; cbn.
  { intros [= <- <-]. by exists st2. }
  intros ([out ws] & Hx & ([outs1 st1''] & H & [= <- <-])%outcome_bind_ok)%outcome_bind_ok.
  destruct (Hstep _ _ _ _ _ _ _ HR Hg Hx) as [Hx2 HR'].
  destruct (IH _ _ _ _ _ HR' (Hs _ _ Hx2) H) as (st2' & H2 & HR2).
  exists st2'. split; [|done]. rewrite Hx2. cbn. by rewrite H2.
Qed.

Section Sequential.
Context {P : Platform} {E : Type} (display : E -> string) {SpecId : Type}.
Context (vm : Vm (P := P) (E := E) SpecId).

(** The bytecodes that the block creates, by their hash. *)
Context (codes : gmap B256 Bytecode).

Abbreviation storage := (vm_storage vm).
Abbreviation eip_161 := (is_eip_161_enabled (vm_chain vm) (vm_spec_id vm)).

(** ** Reads *)

Definition seq_code_hash (J : journal) (a : Address) : outcome ReadError (option B256) :=
  match head (J (hash_deterministic (CodeHash a))) with
  | Some (VCodeHash h) => Ok (Some h)
  | Some SelfDestructed => Err SelfDestructedAccount
  | _ => from_storage display (st_code_hash storage a)
  end.

Definition seq_storage (J : journal) (a : Address) (slot : U256) : outcome ReadError U256 :=
  match head (J (hash_deterministic (StorageLoc a slot))) with
  | Some (VStorage v) => Ok v
  | Some _ => Err InvalidMemoryValueType
  | None => from_storage display (st_storage storage a slot)
  end.

(** The lazy updates of an account on top of its absolute value or the storage. *)
Definition seq_account (J : journal) (a : Address) : outcome ReadError (option AccountBasic) :=
  let vs := J (hash_deterministic (Basic a)) in
  chain_account display storage a (replicate (length vs) FromStorage) vs.

Definition seq_load_code (code_hash : option B256) : outcome ReadError (option Bytecode) :=
  load_code display storage (mkMvMemory ∅ [] ∅ codes) code_hash.

(** The database of a transaction, without a read set.  A transfer to an address
    without code may be lazy. *)
Definition seq_new (J : journal) (i : TxIdx) (tx : TxEnv) (lazy : bool) : outcome ReadError VmDb :=
  match transact_to tx with
  | Create => Ok (mkVmDb i tx (tx_from_hash tx) (tx_to_hash tx) None false ∅ ∅)
  | Call to =>
      code_hash ← seq_code_hash J to;
      Ok (mkVmDb i tx (tx_from_hash tx) (tx_to_hash tx) code_hash
            (lazy && bool_decide (code_hash = None)) ∅ ∅)
  end.

Definition seq_basic (J : journal) (db : VmDb) (a : Address)
    : outcome ReadError (option AccountInfo * VmDb) :=
  let loc := hash_deterministic (Basic a) in
  if is_lazy db && bool_decide (loc = from_hash db) then Ok (Some (lazy_mock db), db)
  else if is_lazy db && bool_decide (Some loc = to_hash db) then Ok (None, db)
  else
    account ← seq_account J a;
    match account with
    | None => Ok (None, db)
    | Some account =>
        if bool_decide (loc = from_hash db) &&
           match tx_nonce (db_tx db) with Some n => negb (n =? nonce account) | None => false end
        then Err (InvalidNonce (db_tx_idx db))
        else
          code_hash ← (if decide (Some loc = to_hash db) then Ok (to_code_hash db)
                       else seq_code_hash J a);
          code ← seq_load_code code_hash;
          Ok (Some (mkAccountInfo (balance account) (nonce account) (default KECCAK_EMPTY code_hash) code),
              set_read_accounts (<[loc := (account, code_hash)]> (read_accounts db)) db)
    end.

Fixpoint seq_run {R} (J : journal) (t : evm_run R) (db : VmDb) : outcome ReadError (R * VmDb) :=
  match t with
  | EvmDone r => Ok (r, db)
  | EvmBasic a c => '(x, db) ← seq_basic J db a; seq_run J (c x) db
  | EvmCodeByHash h c => x ← code_by_hash display storage h; seq_run J (c x) db
  | EvmStorage a slot c => x ← seq_storage J a slot; seq_run J (c x) db
  | EvmBlockHash n c => x ← block_hash display storage n; seq_run J (c x) db
  end.

(** ** Transactions and blocks *)

(** The result of a transaction and its writes. *)
Definition seq_execute (J : journal) (i : TxIdx) (tx : TxEnv) (lazy : bool)
    : outcome VmExecutionError (PexeTxExecutionResult * WriteSet) :=
  '((out, l1), db) ← map_err VmExecutionError_from (
    db ← seq_new J i tx lazy;
    seq_run J (build_evm (vm_chain vm) (vm_spec_id vm) false (vm_block_env vm) tx) db);
  match out with
  | inl err => Err (transaction_error i err)
  | inr r =>
      '(ws, _) ← state_writes eip_161 db tx (state r) codes;
      ws ← apply_rewards vm ws tx (gas_used (result r)) l1;
      match from_revm (vm_chain vm) (vm_spec_id vm) r with
      | Ok res => Ok (res, ws)
      | Err e => match e with end
      | Panic => Panic
      end
  end.

(** The transactions from the [i]-th on, with their results and writes. *)
Definition seq_block : TxIdx -> list TxEnv -> list bool -> journal ->
    outcome VmExecutionError (list (PexeTxExecutionResult * WriteSet) * journal) :=
  run_block seq_execute journal_write.

(** ** Chains do not depend on their origins *)

Definition same_sum (acc acc' : lazy_acc) : Prop :=
  final_account acc = final_account acc' /\ balance_addition acc = balance_addition acc' /\
  positive_addition acc = positive_addition acc' /\ nonce_addition acc = nonce_addition acc'.

Lemma replay_values_origins_irrelevant acc acc' os os' vs r : same_sum acc acc' ->
  (length vs <= length os')%nat -> replay_values acc os vs = Ok r ->
  exists r', replay_values acc' os' vs = Ok r' /\ same_sum r r'.
Proof.
  revert acc acc' os os'. induction vs as [|v vs IH]; intros acc acc' os os' Hs Hl; cbn.
  { destruct os, os'; intros [= <-]; by exists acc'. }
  destruct os as [|o os], os' as [|o' os']; cbn in Hl |- *; try done; try lia.
  assert (match add_value acc o v, add_value acc' o' v with
    | Some x, Some x' => same_sum x x' | None, None => True | _, _ => False end) as Hv.
  { destruct Hs as (Hf & Hb & Hp & Hn). destruct v; cbn; try done; unfold same_sum;
      rewrite <- ?Hf, <- ?Hb, <- ?Hp, <- ?Hn; by try destruct (positive_addition acc). }
  destruct (add_value acc o v) as [x|], (add_value acc' o' v) as [x'|]; try done.
  destruct Hv as (Hf & Hv). rewrite <- Hf. destruct (final_account x) eqn:Hx.
  - intros [= <-]. exists x'. split; [done|]. by split; [congruence|].
  - apply IH; [|lia]. by split; [congruence|].
Qed.

Lemma chain_account_origins a os os' vs x : (length vs <= length os')%nat ->
  chain_account display storage a os vs = Ok x -> chain_account display storage a os' vs = Ok x.
Proof.
  intros Hl (acc & Hr & H)%outcome_bind_ok. unfold chain_account.
  destruct (replay_values_origins_irrelevant _ lazy_acc_0 _ os' _ _ ltac:(by repeat split) Hl Hr)
    as (acc' & -> & Hf & Hb & Hp & Hn). cbn.
  unfold evaluate in *. by rewrite Hf, Hb, Hp, Hn in H.
Qed.
(** ** A memory and a journal that read the same

    [J] holds the chains below [i]; where a chain ends in an estimate there is
    nothing to compare. *)
Definition journal_at (d : VersionedData) (i : TxIdx) (J : journal) : Prop :=
  forall loc os vs, read_chain d loc i = inr (os, vs) -> J loc = vs.

(** Every code location has a chain. *)
Definition code_chains (d : VersionedData) (i : TxIdx) : Prop :=
  forall a, exists os vs, read_chain d (hash_deterministic (CodeHash a)) i = inr (os, vs).

(** A database without its read set. *)
Definition erase (db : VmDb) : VmDb := set_read_set ∅ db.

Lemma erase_put loc os db : erase (put_origins loc os db) = erase db.
Proof. done. Qed.

Lemma chain_head es os vs : chain es = inr (os, vs) ->
  (length vs <= length os)%nat /\
  match es with
  | [] => vs = []
  | (_, Data _ v) :: _ => head vs = Some v
  | (_, Estimate) :: _ => False
  end.
Proof.
  revert os vs. induction es as [|[k [inc v|]] es IH]; intros os vs; cbn; [|destruct (is_lazy_value v)|done].
  - intros [= <- <-]. split; [cbn; lia|done].
  - destruct (chain es) as [|[os' vs']]; [done|]. destruct (IH os' vs' eq_refl) as [Hl _].
    intros [= <- <-]. cbn. split; [lia|done].
  - intros [= <- <-]. split; [cbn; lia|done].
Qed.

Section Reads.
Context (mv : MvMemory Bytecode) (J : journal) (i : TxIdx).
Context (Hcodes : new_bytecodes mv = codes) (HJ : journal_at (data mv) i J) (Hcc : code_chains (data mv) i).

Lemma load_code_seq h : load_code display storage mv h = seq_load_code h.
Proof. unfold seq_load_code, load_code. cbn. by rewrite Hcodes. Qed.

Lemma get_code_hash_seq db a h db' : db_tx_idx db = i ->
  get_code_hash display storage mv db a = Ok (h, db') -> seq_code_hash J a = Ok h /\ erase db' = erase db.
Proof.
  intros <- (o & os & Hf & _ & ->)%get_code_hash_iff. split; [|done].
  destruct (Hcc a) as (os' & vs & Hch). unfold seq_code_hash. rewrite (HJ _ _ _ Hch).
  destruct (chain_head _ _ _ Hch) as [_ Hh]. unfold code_found in Hf.
  destruct (entries_below (data mv) _ _) as [|[k [inc v|]] es]; [by subst; destruct Hf| |done].
  rewrite Hh. destruct v; try done; by destruct Hf as [_ ->].
Qed.

Lemma read_storage_seq db a slot v db' : db_tx_idx db = i ->
  read_storage display storage mv db a slot = Ok (v, db') -> seq_storage J a slot = Ok v /\ erase db' = erase db.
Proof.
  intros <- (o & os & Hf & _ & ->)%read_storage_iff. split; [|done].
  unfold seq_storage, slot_found in *.
  assert (exists os' vs, read_chain (data mv) (hash_deterministic (StorageLoc a slot)) (db_tx_idx db) = inr (os', vs))
    as (os' & vs & Hch).
  { unfold read_chain. destruct (entries_below _ _ _) as [|[k [inc [| |w| | |]|]] es]; try done; by eexists _, _. }
  rewrite (HJ _ _ _ Hch). destruct (chain_head _ _ _ Hch) as [_ Hh].
  destruct (entries_below (data mv) _ _) as [|[k [inc [| |w| | |]|]] es]; try done.
  - subst vs. by destruct Hf.
  - rewrite Hh. by destruct Hf as [_ ->].
Qed.
(** A successful read of an account evaluates its chain. *)
Lemma basic_read_account db a loc x db' :
  basic_read display storage mv db a loc = Ok (x, db') ->
  exists os vs os1 account, read_chain (data mv) loc (db_tx_idx db) = inr (os, vs) /\
    chain_account display storage a os vs = Ok account /\
    basic_from display storage mv db a loc os1 account = Ok (x, db').
Proof.
  unfold basic_read. intros (acc & He & (acc' & Hs & H)%outcome_bind_ok)%outcome_bind_ok.
  destruct (eval_entries_ok _ _ _ _ He eq_refl (or_intror (prefix_nil _))) as ((os & vs & Hc & Hr) & _).
  rewrite db_entries_below in Hc.
  exists os, vs, (if negb (length (origins_at loc db) =? 0)%nat then origins_at loc db else new_origins acc'),
    (option_map (evaluate acc') (final_account acc')).
  split; [done|]. split; [|by destruct (final_account acc')].
  unfold chain_account. rewrite Hr. cbn. unfold storage_fallback in Hs.
  destruct (final_account acc) as [b|] eqn:Hf; [by injection Hs as <-; rewrite Hf|].
  apply outcome_bind_ok in Hs as (os' & _ & (st & Hst & [= <-])%outcome_bind_ok). rewrite Hst. cbn.
  destruct st as [st|]; [done|]. by destruct (0 <? balance_addition acc).
Qed.

Lemma basic_seq db a x db' : db_tx_idx db = i -> db_hashes db ->
  basic display storage mv db a = Ok (x, db') -> seq_basic J (erase db) a = Ok (x, erase db').
Proof.
  intros Hi Hh. rewrite basic_unfold, (hash_basic_eq db a Hh). cbn. unfold seq_basic. cbn.
  destruct (_ && _); [by intros [= <- <-]|]. destruct (_ && _); [by intros [= <- <-]|].
  intros (os & vs & os1 & account & Hc & Ha & H)%basic_read_account. rewrite Hi in Hc.
  unfold seq_account. rewrite (HJ _ _ _ Hc).
  rewrite (chain_account_origins a os (replicate (length vs) FromStorage) vs account
    ltac:(by rewrite length_replicate) Ha).
  cbn. destruct account as [account|]; [|by injection H as <- <-].
  cbn in H. unfold finish_basic in H. cbn in H. destruct (_ && _); [by destruct (0 <? _)%nat|].
  apply outcome_bind_ok in H as ([h db1] & Hh1 & (code & Hcode & [= <- <-])%outcome_bind_ok).
  rewrite load_code_seq in Hcode.
  assert ((if decide (Some (hash_deterministic (Basic a)) = to_hash db) then Ok (to_code_hash db)
    else seq_code_hash J a) = Ok h /\ erase db1 = erase db) as [-> Hdb].
  { revert Hh1. case_decide; [by intros [= <- <-]|]. intros Hg. by apply get_code_hash_seq in Hg. }
  cbn. rewrite Hcode. cbn. f_equal. f_equal. unfold erase, set_read_accounts, set_read_set in *. cbn in *.
  injection Hdb as -> -> -> -> -> -> ->. done.
Qed.

Lemma run_seq {R} k (t : evm_run R) db r db' : db_tx_idx db = i -> db_hashes db ->
  run_evm display storage (fun _ => mv) k t db = Ok (r, db') -> seq_run J t (erase db) = Ok (r, erase db').
Proof.
  revert k db. induction t as [x|a c IH|h c IH|a slot c IH|n c IH]; intros k db Hi Hh; cbn.
  - by intros [= <- <-].
  - intros ([x db1] & H1 & H2)%outcome_bind_ok. pose proof (basic_extends _ _ _ _ _ _ _ Hh H1) as He.
    rewrite (basic_seq _ _ _ _ Hi Hh H1). cbn.
    eapply IH; [by rewrite (ext_idx _ _ He)|by eapply db_hashes_extends|exact H2].
  - intros (x & H1 & H2)%outcome_bind_ok. rewrite H1. by eapply IH.
  - intros ([x db1] & H1 & H2)%outcome_bind_ok. pose proof (read_storage_extends _ _ _ _ _ _ _ _ H1) as He.
    destruct (read_storage_seq _ _ _ _ _ Hi H1) as [-> <-]. cbn.
    eapply IH; [by rewrite (ext_idx _ _ He)|by eapply db_hashes_extends|exact H2].
  - intros (x & H1 & H2)%outcome_bind_ok. rewrite H1. by eapply IH.
Qed.

(** A run with the laziness given, on a memory that does not change. *)
Lemma execute_reads_seq tx lazy out db : (lazy = true -> to_code_hash db = None /\ transact_to tx <> Create) ->
  is_lazy db = lazy -> execute_reads_as display vm mv i tx lazy = Ok (out, db) ->
  map_err VmExecutionError_from (db0 ← seq_new J i tx lazy;
    seq_run J (build_evm (vm_chain vm) (vm_spec_id vm) false (vm_block_env vm) tx) db0) = Ok (out, erase db).
Proof.
  intros Hlz Hl (db0 & Hnew%map_err_ok & Hrun%map_err_ok)%outcome_bind_ok.
  destruct (tx_hashes _ _ _ _ _ _ Hnew) as (Hh & _ & Hi & _).
  pose proof (run_evm_extends _ _ _ _ _ _ _ _ (Hh : db_hashes (set_lazy _ _ db0)) Hrun) as He.
  assert (to_code_hash db = to_code_hash db0) as Hcode by exact (ext_code _ _ He).
  assert (seq_new J i tx lazy = Ok (erase (set_lazy (to_code_hash db0) lazy db0))) as ->.
  { unfold seq_new. pose proof Hnew as (h & l & db1 & -> & Hn)%VmDb_new_inv. cbn in *.
    destruct (transact_to tx) as [|to].
    - destruct Hn as (-> & -> & ->). destruct lazy; [by destruct (Hlz eq_refl)|done].
    - pose proof (get_code_hash_extends _ _ _ _ _ _ _ Hn) as He1.
      apply get_code_hash_seq in Hn as [-> Hdb]; [|done]. cbn.
      unfold erase, set_read_set, set_lazy in *. cbn in *. injection Hdb as -> -> -> -> _ _ ->.
      replace (lazy && bool_decide (h = None)) with lazy; [done|].
      destruct lazy; [|done]. destruct (Hlz eq_refl) as [Hnone _]. by rewrite bool_decide_eq_true_2 by congruence. }
  cbn. apply map_err_ok. by eapply run_seq.
Qed.
End Reads.
(** ** Writes *)

Section Writes.
Context (eip : bool) (db : VmDb) (tx : TxEnv).

(** With the bytecodes of the whole block at hand the writes are the same. *)
Lemma account_writes_seq a acc codes0 ws codes1 :
  account_writes eip db tx a acc codes0 = Ok (ws, codes1) -> codes1 ⊆ codes ->
  account_writes eip (erase db) tx a acc codes = Ok (ws, codes).
Proof.
  intros H Hs. pose proof (account_writes_codes _ _ _ _ _ _ _ _ H) as [Hs0 _].
  unfold account_writes in *. change (is_lazy (erase db)) with (is_lazy db).
  change (read_accounts (erase db)) with (read_accounts db).
  change (from_hash (erase db)) with (from_hash db). change (to_hash (erase db)) with (to_hash db).
  destruct (is_selfdestructed acc); [by injection H as <- _|].
  destruct (is_touched acc); [|by injection H as <- _]. cbv zeta in *.
  destruct (negb (is_empty_code_hash (info acc)) && _); [|by injection H as <- _].
  apply outcome_bind_ok in H as ([ws1 c1] & (c2 & Hc & [= <- <-])%outcome_bind_ok & [= <- <-]).
  assert (is_Some (codes !! ai_code_hash (info acc))) as [c ->]; [|done].
  destruct (codes0 !! ai_code_hash (info acc)) as [c|] eqn:Hc0.
  - exists c. injection Hc as <-. by eapply lookup_weaken.
  - destruct (ai_code (info acc)) as [c|]; [|done]. injection Hc as <-. exists c.
    eapply lookup_weaken; [|exact Hs]. apply lookup_insert_eq.
Qed.

Lemma state_writes_seq l codes0 ws codes1 :
  state_writes eip db tx l codes0 = Ok (ws, codes1) -> codes1 ⊆ codes ->
  state_writes eip (erase db) tx l codes = Ok (ws, codes).
Proof.
  revert codes0 ws. induction l as [|[a acc] l IH]; intros codes0 ws; cbn; [by intros [= <- <-]|].
  intros ([ws1 c1] & H1 & ([ws2 c2] & H2 & [= <- <-])%outcome_bind_ok)%outcome_bind_ok Hs.
  pose proof (state_writes_codes _ _ _ _ _ _ _ H2) as [Hs2 _].
  rewrite (account_writes_seq _ _ _ _ _ H1) by (by etrans). cbn. by rewrite (IH _ _ H2 Hs).
Qed.
End Writes.
End Sequential.

(** ** One transaction more *)

Lemma entries_below_S d loc i : entries_below d loc (S i) =
  match entry d loc i with Some e => (i, e) :: entries_below d loc i | None => entries_below d loc i end.
Proof. unfold entries_below, entry. destruct (d !! loc) as [m|]; [apply range_desc_S|done]. Qed.

Lemma journal_at_0 d : journal_at d 0 journal_empty.
Proof.
  intros loc os vs. unfold read_chain, entries_below. destruct (d !! loc); rewrite ?range_desc_0; by intros [= <- <-].
Qed.

Lemma journal_at_S d i inc ws J :
  (forall loc inc' x, entry d loc i = Some (Data inc' x) <-> inc' = inc /\ last_write loc ws = Some x) ->
  journal_at d i J -> journal_at d (S i) (journal_write ws J).
Proof.
  intros He HJ loc os vs. unfold read_chain, journal_write. rewrite entries_below_S.
  destruct (entry d loc i) as [[inc' x|]|] eqn:Hx; cbn; [|done|].
  - apply He in Hx as [-> ->]. destruct (is_lazy_value x); [|congruence].
    destruct (chain (entries_below d loc i)) as [|[os' vs']] eqn:Hc; [done|]. intros [= _ <-].
    f_equal. by eapply HJ.
  - intros Hc. destruct (last_write loc ws) as [x|] eqn:Hl; [|by eapply HJ].
    assert (entry d loc i = Some (Data inc x)) as Hx' by by apply He. congruence.
Qed.

(** Without estimates every location has a chain. *)
Lemma chain_total es : (forall k, (k, Estimate) ∉ es) -> exists os vs, chain es = inr (os, vs).
Proof.
  induction es as [|[k [inc v|]] es IH]; intros Hn; cbn; [by eexists _, _| |by destruct (Hn k); left].
  destruct (is_lazy_value v); [|by eexists _, _].
  destruct IH as (os & vs & ->); [|by eexists _, _]. intros k' Hk. apply (Hn k'). by right.
Qed.

Lemma read_chain_total d loc i : (forall k, entry d loc k <> Some Estimate) ->
  exists os vs, read_chain d loc i = inr (os, vs).
Proof. intros Hn. apply chain_total. intros k [_ Hk]%entries_below_elem. by apply (Hn k). Qed.
