(* ===== verification/ParallelSystem.v ===== *)
(** * ParallelSystem: workers, scheduler and memory together (pexe.rs)

    [Pexe::execute_revm_parallel] as a transition system: the configuration of
    SchedulerSystem.v with the shared multi-version memory, the execution results,
    the abort reason and what each worker is doing inside [Pexe::try_execute] or
    [try_validate].  A step is one scheduler call, the recording of an execution,
    the check of one location of a read set, or the conversion of an aborted
    write set; the reads of an execution happen at arbitrary earlier moments.

    [history] is a ghost: the memory operations so far. *)

From S2P Require Import Prelude Types Scheduler SchedulerSystem Platform Storage MvMemory MvMemorySpec.
From S2P Require Import VmDb VmDbLemmas VmDbReplay Vm VmSpec ParallelCodes.
#[local] Open Scope nat_scope.

Section Parallel.
Context {P : Platform} {E : Type} (display : E -> string) {SpecId : Type}.
Context (vm : Vm (P := P) (E := E) SpecId).
Context (kept : list (option PexeTxExecutionResult)).

(** ** State *)

(** Where a worker is inside its task. *)
Inductive phase :=
| Plain                                              (* at the start of it *)
| Recorded (flags : Z)                               (* executed, before [finish_execution] *)
| Validating (todo : list (MemoryLocationHash * ReadOrigins))  (* in the loop of the check *)
| Converted.                                         (* writes are estimates, before [finish_validation] *)

Inductive AbortReason :=
| AbortFallbackToSequential
| AbortExecutionError (e : ReadError + InvalidTransaction).

Record pstate := mkPstate {
  base : config;
  mem : MvMemory Bytecode;
  phases : list phase;
  execution_results : list (option PexeTxExecutionResult);
  abort_reason : option AbortReason;
  history : list (mv_op Bytecode);
}.

Definition mem0 : MvMemory Bytecode := build_mv_memory (vm_chain vm) (vm_block_env vm) (vm_txs vm).
Definition block_len : nat := length (vm_txs vm).

(** [self.execution_results] of the [Pexe] that runs the block, made long enough:
    the vector is kept from one block to the next. *)
Definition reserve_results (n : nat) (kept : list (option PexeTxExecutionResult))
    : list (option PexeTxExecutionResult) :=
  kept ++ replicate (n - length kept) None.

Definition pinit (level : nat) : pstate :=
  mkPstate (init block_len level) mem0 (replicate level Plain) (reserve_results block_len kept) None [].

(** The memories that the reads of an execution saw, one after the other. *)
Definition seen (h : list (mv_op Bytecode)) (mvs : nat -> MvMemory Bytecode) : Prop :=
  moments mem0 h mvs.

(** [scheduler.abort()] comes with the first abort reason. *)
Definition abort_reason_of (e : VmExecutionError) : option AbortReason :=
  match e with
  | FallbackToSequential => Some AbortFallbackToSequential
  | ExecutionError e => Some (AbortExecutionError e)
  | _ => None
  end.

Definition get_or_init (r : option AbortReason) (x : AbortReason) : option AbortReason :=
  match r with Some r => Some r | None => Some x end.

(** What a successful [execute] consists of: the EVM result [r] with the database
    [db], the write set [ws], and the memory operations [ops] of the writing half. *)
Record execution (mvs : nat -> MvMemory Bytecode) (mv : MvMemory Bytecode) (v : TxVersion)
    (res : VmExecutionResult) (mv' : MvMemory Bytecode)
    (r : ResultAndState) (l1 : option L1BlockInfo) (db : VmDb) (ws : WriteSet)
    (ops : list (mv_op Bytecode)) : Prop := {
  ex_reads : exists tx, vm_txs vm !! tx_idx v = Some tx /\
    execute_reads display vm mvs (tx_idx v) tx = Ok ((inr r, l1), db);
  ex_writes : exists tx ws0 codes, vm_txs vm !! tx_idx v = Some tx /\
    state_writes (is_eip_161_enabled (vm_chain vm) (vm_spec_id vm)) db tx (state r) (new_bytecodes mv)
      = Ok (ws0, codes) /\
    apply_rewards vm ws0 tx (gas_used (result r)) l1 = Ok ws /\
    exists addrs, ops = [OpBytecodes codes; OpLazy addrs; OpRecord v (read_set db) ws] /\
      record (add_lazy_addresses (put_bytecodes codes mv) addrs) v (read_set db) ws =
        Some (contains (flags res) WroteNewLocation, mv');
  ex_result : from_revm (vm_chain vm) (vm_spec_id vm) r = Ok (execution_result res);
  ex_lazy : is_lazy db = true -> exists tx to, vm_txs vm !! tx_idx v = Some tx /\
    TxKind_to (transact_to tx) = Some to /\ OpLazy [caller tx; to] ∈ ops;
}.

Lemma add_lazy_nothing (mv : MvMemory Bytecode) : add_lazy_addresses mv [] = mv.
Proof. destruct mv. unfold add_lazy_addresses. cbn. f_equal. apply union_empty_r_L. Qed.

Lemma unwrap_ok {X F A} (o : option A) (f : A -> outcome F X) y :
  (x ← unwrap o; f x) = Ok y -> exists x, o = Some x /\ f x = Ok y.
Proof. destruct o as [x|]; cbn; [by exists x|done]. Qed.

(** Every successful [execute] is one. *)
Lemma execute_execution mvs mv v res mv' : execute display vm mvs mv v = Ok (res, mv') ->
  exists r l1 db ws ops, execution mvs mv v res mv' r l1 db ws ops.
Proof.
  unfold execute. intros (tx & Htx & H)%unwrap_ok.
  apply outcome_bind_ok in H as ([[out l1] db] & Hx & H). destruct out as [err|r]; [done|].
  unfold execute_writes in H.
  apply outcome_bind_ok in H as ([ws0 codes] & Hws0 & H).
  apply outcome_bind_ok in H as (ws & Hws & H).
  apply outcome_bind_ok in H as (mv1 & Hmv1 & H).
  apply unwrap_ok in H as ([wrote mv2] & Hrec & H).
  apply outcome_bind_ok in H as (fin & Hfin & [= <- <-]).
  assert (exists addrs, mv1 = add_lazy_addresses (put_bytecodes codes mv) addrs /\ (is_lazy db = true ->
    exists to, TxKind_to (transact_to tx) = Some to /\ addrs = [caller tx; to])) as (addrs & -> & Hlz).
  { destruct (is_lazy db).
    - apply unwrap_ok in Hmv1 as (to & Hto & [= <-]). by eauto.
    - injection Hmv1 as <-. exists []. by rewrite add_lazy_nothing. }
  exists r, l1, db, ws, [OpBytecodes codes; OpLazy addrs; OpRecord v (read_set db) ws]. split.
  - by exists tx.
  - exists tx, ws0, codes. split; [done|]. split; [done|]. split; [done|]. exists addrs. split; [done|].
    cbn. rewrite Hrec. f_equal. f_equal. destruct (_ && _), wrote; reflexivity.
  - cbn. destruct (from_revm _ _ r) as [x|[]|]; congruence.
  - intros (to & Hto & ->)%Hlz. exists tx, to. split; [done|]. split; [done|]. right. by left.
Qed.

Definition with_base (b : config) (w : nat) (ph : phase) (s : pstate) : pstate :=
  mkPstate b (mem s) (<[w := ph]> (phases s)) (execution_results s) (abort_reason s) (history s).

(** ** Steps *)

Inductive pstep (s : pstate) : pstate -> Prop :=
| p_next w r sc :
    workers (base s) !! w = Some Idle ->
    next_task_iter (sched (base s)) = Some (r, sc) ->
    pstep s (with_base (moved (base s) sc w (after_iter r) (iter_task r) []) w Plain s)
| p_blocked w v mvs b ok sc :
    workers (base s) !! w = Some (HasTask (Execution v)) -> phases s !! w = Some Plain ->
    seen (history s) mvs ->
    execute display vm mvs (mem s) v = Err (BlockingTx b) ->
    add_dependency (sched (base s)) (tx_idx v) b = Some (ok, sc) ->
    pstep s (with_base (moved (base s) sc w (if ok then Idle else HasTask (Execution v)) None []) w Plain s)
| p_fatal w v mvs e reason :
    workers (base s) !! w = Some (HasTask (Execution v)) -> phases s !! w = Some Plain ->
    seen (history s) mvs ->
    execute display vm mvs (mem s) v = Err e -> abort_reason_of e = Some reason ->
    pstep s (mkPstate
      (moved (base s) (abort (sched (base s))) w (Exited (Some (Execution v))) None [])
      (mem s) (<[w := Plain]> (phases s)) (execution_results s)
      (get_or_init (abort_reason s) reason) (history s))
| p_record w v mvs res mv' r l1 db ws ops :
    workers (base s) !! w = Some (HasTask (Execution v)) -> phases s !! w = Some Plain ->
    seen (history s) mvs ->
    execute display vm mvs (mem s) v = Ok (res, mv') ->
    execution mvs (mem s) v res mv' r l1 db ws ops ->
    pstep s (mkPstate (base s) mv' (<[w := Recorded (flags res)]> (phases s))
      (<[tx_idx v := Some (execution_result res)]> (execution_results s))
      (abort_reason s) (history s ++ ops))
| p_finish w v flags t sc :
    workers (base s) !! w = Some (HasTask (Execution v)) -> phases s !! w = Some (Recorded flags) ->
    finish_execution (sched (base s)) v flags = Some (t, sc) ->
    pstep s (with_base (moved (base s) sc w (after_task t) t []) w Plain s)
| p_validate_start w v ll :
    workers (base s) !! w = Some (HasTask (Validation v)) -> phases s !! w = Some Plain ->
    last_locations (mem s) !! tx_idx v = Some ll ->
    pstep s (with_base (base s) w (Validating (map_to_list (read ll))) s)
| p_validate_location w v loc os todo :
    workers (base s) !! w = Some (HasTask (Validation v)) ->
    phases s !! w = Some (Validating ((loc, os) :: todo)) ->
    validate_location (mem s) (tx_idx v) loc os = true ->
    pstep s (with_base (base s) w (Validating todo) s)
| p_validate_pass w v :
    workers (base s) !! w = Some (HasTask (Validation v)) -> phases s !! w = Some (Validating []) ->
    pstep s (with_base (moved (base s) (sched (base s)) w (Checked v false) None []) w Plain s)
| p_validate_fail w v loc os todo tx won sc :
    workers (base s) !! w = Some (HasTask (Validation v)) ->
    phases s !! w = Some (Validating ((loc, os) :: todo)) ->
    validate_location (mem s) (tx_idx v) loc os = false ->
    transactions_status (sched (base s)) !! tx_idx v = Some tx ->
    try_validation_abort (sched (base s)) v = Some (won, sc) ->
    pstep s (with_base (moved (base s) sc w (Checked v won) None
      (if won then [version_of (tx_idx v) tx] else [])) w Plain s)
| p_convert w v mv' :
    workers (base s) !! w = Some (Checked v true) -> phases s !! w = Some Plain ->
    convert_writes_to_estimates (mem s) (tx_idx v) = Some mv' ->
    pstep s (mkPstate (base s) mv' (<[w := Converted]> (phases s)) (execution_results s)
      (abort_reason s) (history s ++ [OpEstimate (tx_idx v)]))
| p_finish_validation w v won t sc :
    workers (base s) !! w = Some (Checked v won) ->
    phases s !! w = Some (if won : bool then Converted else Plain) ->
    finish_validation (sched (base s)) v won = Some (t, sc) ->
    pstep s (with_base (moved (base s) sc w (after_task t) t []) w Plain s)
| p_leave w t :
    workers (base s) !! w = Some (HasTask t) -> phases s !! w = Some Plain ->
    abort_reason s <> None ->
    pstep s (with_base (moved (base s) (sched (base s)) w (Exited (Some t)) None []) w Plain s).

Definition preachable (level : nat) (s : pstate) : Prop := rtc pstep (pinit level) s.

(** Worker [w] panics inside [vm.execute].  There is no step after this: the release
    profile has [panic = "abort"] (Cargo.toml), so the process ends, the other
    workers with it.  (No other call of a worker panics, see [scheduler_asserts_hold]
    and [scheduler_indexes_in_bounds].) *)
Definition worker_panics (s : pstate) (w : nat) : Prop :=
  exists v mvs, workers (base s) !! w = Some (HasTask (Execution v)) /\ phases s !! w = Some Plain /\
    seen (history s) mvs /\ execute display vm mvs (mem s) v = Panic.

(** ** Projection to the scheduler system *)

Definition abort_ok (s : pstate) : Prop :=
  abort_reason s <> None -> aborted (sched (base s)) = true.

Lemma pstep_base s s' : abort_ok s -> pstep s s' -> step (base s) (base s') \/ base s' = base s.
Proof.
  intros Ha Hs. destruct Hs as [w r sc Hw E0|w v mvs b ok sc Hw Hph Hsn Hex E0|w v mvs e reason Hw Hph Hsn Hex Hr
    |w v mvs res mv' r l1 db ws ops Hw Hph Hsn Hex Hrec|w v fl t sc Hw Hph E0|w v ll Hw Hph Hll
    |w v loc os todo Hw Hph Hv|w v Hw Hph|w v loc os todo tx won sc Hw Hph Hv Htx E0|w v mv' Hw Hph E0
    |w v won t sc Hw Hph E0|w t Hw Hph Hr]; cbn; try (by right); left.
  - by apply step_next.
  - eapply step_exec_blocked; [done| |done]. by eapply execute_blocking.
  - by apply step_exec_fatal.
  - by eapply step_exec_finish.
  - by apply step_validate_pass.
  - by eapply step_validate_fail.
  - by eapply step_finish_validation.
  - apply step_leave; [done|]. by apply Ha.
Qed.
End Parallel.
