(* ===== verification/ParallelInv.v ===== *)
(** * ParallelInv: the invariants of the parallel execution (pexe.rs)

    Rule induction over [pstep].  [dirty]: a transaction has values in the memory
    only while its last execution stands or a worker is about to replace them
    with estimates.  [covers]: a read that would not validate now will be looked
    at again, because the validation counter is below its transaction or a worker
    is responsible for it.  The log of executions ties every result and read set
    to the execution they come from. *)

From S2P Require Import Prelude Types Scheduler SchedulerSystem SchedulerTheorems SchedulerProgress.
From S2P Require Import Platform Storage MvMemory MvMemorySpec VmDb VmDbLemmas VmDbReplay Vm VmSpec.
From S2P Require Import ParallelCodes ParallelSystem.
#[local] Open Scope nat_scope.

(** ** When a validation keeps its outcome *)

Section Stable.
Context {Bytecode : Type}.
Implicit Types mv : MvMemory Bytecode.

(** Seen from transaction [i], the entries of a location changed at most where
    there was an estimate. *)
Definition stable mv mv' (i : TxIdx) (loc : MemoryLocationHash) : Prop :=
  (is_Some (data mv !! loc) -> is_Some (data mv' !! loc)) /\
  forall k, k < i -> entry (data mv) loc k = entry (data mv') loc k \/
                     entry (data mv) loc k = Some Estimate.

Lemma validate_origins_stable (m m' : gmap TxIdx MemoryEntry) i os :
  (forall k, k < i -> m !! k = m' !! k \/ m !! k = Some Estimate) ->
  validate_origins (range_desc m i) os = true -> validate_origins (range_desc m' i) os = true.
Proof.
  revert os. induction i as [|i IH]; intros os Hm; [by rewrite !range_desc_0|].
  rewrite !range_desc_S. assert (forall k, k < i -> m !! k = m' !! k \/ m !! k = Some Estimate) as Hm'
    by (intros k Hk; apply Hm; lia).
  destruct (m !! i) as [[inc v|]|] eqn:He.
  - destruct (Hm i ltac:(lia)) as [Heq|Heq]; rewrite He in Heq; [|done]. rewrite <- Heq.
    destruct os as [|[p|] os]; [done| |done]. cbn. case_match; [done|]. by apply IH.
  - destruct os as [|[p|] os]; [|done..]. intros _. by destruct (m' !! i).
  - destruct (Hm i ltac:(lia)) as [Heq|Heq]; rewrite He in Heq; [|done]. rewrite <- Heq. by apply IH.
Qed.

Lemma validate_location_stable mv mv' i loc os : stable mv mv' i loc ->
  validate_location mv i loc os = true -> validate_location mv' i loc os = true.
Proof.
  intros [Hdom Hent]. unfold validate_location. unfold entry in Hent.
  destruct (data mv !! loc) as [m|], (data mv' !! loc) as [m'|]; cbn in Hent; [| | |done].
  - by apply validate_origins_stable.
  - by destruct Hdom as [? [=]].
  - intros Hos. rewrite range_desc_none.
    2: { intros j Hj. by destruct (Hent j Hj) as [<-|[=]]. }
    destruct os as [|o [|o2 os]]; try done. destruct o as [p|]; [|done]. cbn in Hos.
    by rewrite bool_decide_eq_false_2 in Hos.
Qed.

(** *** Locations do not disappear *)

Lemma remove_stale_dom fuel i locs idx old d loc :
  is_Some (d !! loc) -> is_Some ((remove_stale fuel i locs idx old d).2 !! loc).
Proof.
  revert idx old d. induction fuel as [|fuel IH]; intros idx old d Hd; cbn; [done|].
  destruct (old !! idx) as [prev|]; [|done]. case_decide; [|by apply IH]. apply IH.
  unfold remove_entry. destruct (d !! prev) eqn:Hp; [|done].
  destruct (decide (loc = prev)) as [->|]; [by rewrite lookup_insert_eq|by rewrite lookup_insert_ne].
Qed.

Lemma register_writes_dom v ws b old d loc :
  is_Some (d !! loc) -> is_Some ((register_writes v ws b old d).2 !! loc).
Proof.
  revert b old d. induction ws as [|[l x] ws IH]; intros b old d Hd; cbn; [done|].
  assert (is_Some (insert_entry l (tx_idx v) (Data (tx_incarnation v) x) d !! loc)) as H.
  { unfold insert_entry. destruct (decide (loc = l)) as [->|];
      [by rewrite lookup_insert_eq|by rewrite lookup_insert_ne]. }
  case_decide; by apply IH.
Qed.

Lemma record_dom mv v rs ws b mv' loc : record mv v rs ws = Some (b, mv') ->
  is_Some (data mv !! loc) -> is_Some (data mv' !! loc).
Proof.
  unfold record. destruct (last_locations mv !! tx_idx v) as [ll|]; cbn; [|done].
  intros E Hd. apply (remove_stale_dom (length (write ll)) (tx_idx v) ws.*1 0 (write ll)) in Hd.
  destruct (remove_stale _ _ _ _ _ _) as [old d]. cbn in Hd.
  apply (register_writes_dom v ws false old) in Hd.
  destruct (register_writes _ _ _ _ _) as [[b' locs] d']. by injection E as _ <-.
Qed.

Lemma convert_dom mv i mv' loc : convert_writes_to_estimates mv i = Some mv' ->
  is_Some (data mv !! loc) -> is_Some (data mv' !! loc).
Proof.
  unfold convert_writes_to_estimates. destruct (last_locations mv !! i) as [ll|]; cbn; [|done].
  intros [= <-]. cbn. generalize (data mv) as d. induction (write ll) as [|l ls IH]; intros d Hd; cbn; [done|].
  by apply IH, estimate_dom.
Qed.

(** *** What [record] and [convert_writes_to_estimates] leave stable *)

(** Transactions up to the recorded one see no change; those above neither,
    when the write set has no new location and the old entries were estimates. *)
Lemma record_stable mv v rs ws b mv' i loc : mv_wf mv ->
  record mv v rs ws = Some (b, mv') ->
  (forall l inc x, entry (data mv) l (tx_idx v) <> Some (Data inc x)) ->
  i <= tx_idx v \/ b = false -> stable mv mv' i loc.
Proof.
  intros Hwf E Hno Hib. split; [by eapply record_dom|]. intros k Hk.
  destruct (last_locations mv !! tx_idx v) as [ll|] eqn:Hll.
  2: { unfold record in E. by rewrite Hll in E. }
  destruct (record_full mv v rs ws ll Hll) as (b' & locs & d & E' & Hb & _ & _ & Hent).
  rewrite E in E'. injection E' as -> ->. cbn. rewrite Hent.
  destruct (decide (k = tx_idx v)) as [->|]; [|by left].
  destruct Hib as [|Hf]; [lia|]. subst b'.
  assert (loc ∈ write ll -> entry (data mv) loc (tx_idx v) = Some Estimate) as Hest.
  { intros Hin. destruct (wf_write _ Hwf _ _ _ Hll Hin) as [[inc x|] Hx]; [by apply Hno in Hx|done]. }
  destruct (last_write loc ws) as [x|] eqn:Hlw; [right|case_decide; [right; by apply Hest|by left]].
  apply Hest. destruct (decide (loc ∈ write ll)) as [|Hn]; [done|]. exfalso.
  assert (false = true) as [=]. apply Hb. exists loc. split; [|done]. apply last_write_Some. by eexists.
Qed.

Lemma convert_stable mv j mv' i loc :
  convert_writes_to_estimates mv j = Some mv' -> i <= j -> stable mv mv' i loc.
Proof.
  intros E Hi. split; [by eapply convert_dom|]. intros k Hk. left.
  destruct (last_locations mv !! j) as [ll|] eqn:Hll.
  2: { unfold convert_writes_to_estimates in E. by rewrite Hll in E. }
  destruct (convert_full mv j ll Hll) as (d & E' & Hent). rewrite E in E'. injection E' as ->. cbn.
  rewrite Hent, decide_False; [done|]. lia.
Qed.

(** The entries of the other transactions stay, and an aborted one has no value
    left. *)
Lemma record_entries mv v rs ws b mv' loc j :
  record mv v rs ws = Some (b, mv') -> j <> tx_idx v -> entry (data mv') loc j = entry (data mv) loc j.
Proof.
  intros E Hj. destruct (last_locations mv !! tx_idx v) as [ll|] eqn:Hll.
  2: { unfold record in E. by rewrite Hll in E. }
  destruct (record_full mv v rs ws ll Hll) as (b' & locs & d & E' & _ & _ & _ & Hent).
  rewrite E in E'. injection E' as -> ->. cbn. by rewrite Hent, decide_False.
Qed.

Lemma record_last_locations mv v rs ws b mv' :
  record mv v rs ws = Some (b, mv') ->
  exists ll', read ll' = rs /\ (forall loc, loc ∈ write ll' <-> loc ∈ ws.*1) /\
    last_locations mv' = <[tx_idx v := ll']> (last_locations mv) /\
    is_Some (last_locations mv !! tx_idx v).
Proof.
  intros E. destruct (last_locations mv !! tx_idx v) as [ll|] eqn:Hll.
  2: { unfold record in E. by rewrite Hll in E. }
  destruct (record_full mv v rs ws ll Hll) as (b' & locs & d & E' & _ & Hlocs & _).
  rewrite E in E'. injection E' as -> ->. cbn.
  exists {| read := rs; write := locs |}. split; [done|]. split; [exact Hlocs|]. split; [done|by eexists].
Qed.

Lemma convert_entries mv i mv' loc j inc x : mv_wf mv ->
  convert_writes_to_estimates mv i = Some mv' -> entry (data mv') loc j = Some (Data inc x) ->
  j <> i /\ entry (data mv) loc j = Some (Data inc x).
Proof.
  intros Hwf E. destruct (last_locations mv !! i) as [ll|] eqn:Hll.
  2: { unfold convert_writes_to_estimates in E. by rewrite Hll in E. }
  destruct (convert_full mv i ll Hll) as (d & E' & Hent). rewrite E in E'. injection E' as ->. cbn.
  rewrite Hent. case_decide as Hd; [done|]. intros H. split; [|done]. intros ->. apply Hd.
  split; [by eapply wf_data|]. split; [done|]. apply (entry_dom _ loc i). by eexists.
Qed.

Lemma convert_last_locations mv i mv' :
  convert_writes_to_estimates mv i = Some mv' -> last_locations mv' = last_locations mv.
Proof.
  unfold convert_writes_to_estimates. destruct (last_locations mv !! i); cbn; [|done].
  by intros [= <-].
Qed.
End Stable.

(** ** The scheduler calls, seen from the transactions that are done *)

Section Done.
Implicit Types sc : Scheduler.

Definition status_done (sc : Scheduler) (i : TxIdx) : Prop :=
  exists tx, transactions_status sc !! i = Some tx /\ done_status (status tx).

Lemma next_done sc r sc' : sized sc -> aborted sc = false -> next_task_iter sc = Some (r, sc') ->
  (forall j, status_done sc' j <-> status_done sc j) /\
  forall i, status_done sc i -> validation_idx sc <= i ->
    validation_idx sc' <= i \/ exists v, r = IterTask (Validation v) /\ tx_idx v = i.
Proof.
  intros Hs Ha E. apply next_task_iter_cases in E; [|done|done].
  destruct E as [r Hex Hva ->|i tx e va Htx Hst Hlt [He Hv]|i tx va Htx Hst Hlt [_ Hv]|e va [He Hv]].
  - split; [done|]. by left.
  - split.
    + intros j. split.
      * intros (tx' & [[-> ->]|[Hne Hj]]%put_status_lookup & Hd); [by destruct Hd|by exists tx'].
      * intros (tx' & Hj & Hd). exists tx'. split; [|done]. cbn.
        rewrite list_lookup_insert_ne; [done|]. intros ->. destruct Hd; congruence.
    + intros j (tx' & Hj & Hd) Hle. left. by destruct (Hv j tx' Hj Hd Hle).
  - split; [done|]. intros j (tx' & Hj & Hd) Hle.
    destruct (Hv j tx' Hj Hd Hle) as [?| ->]; [by left|right; by eexists].
  - split; [done|]. intros j (tx' & Hj & Hd) Hle. left. by destruct (Hv j tx' Hj Hd Hle).
Qed.

Lemma blocked_done sc i b ok sc' tx : transactions_status sc !! i = Some tx -> status tx = Executing ->
  add_dependency sc i b = Some (ok, sc') ->
  (forall j, status_done sc' j <-> status_done sc j) /\ validation_idx sc' = validation_idx sc.
Proof.
  intros Htx Hst. unfold add_dependency. destruct (transactions_status sc !! b) as [btx|]; cbn; [|done].
  case_decide; [by intros [= <- <-]|]. rewrite Htx; cbn.
  destruct (transactions_dependents sc !! b) as [deps|]; cbn; [|done]. intros [= <- <-]. split; [|done].
  intros j. split.
  - intros (tx' & [[-> ->]|[Hne Hj]]%put_status_lookup & Hd); [by destruct Hd|by exists tx'].
  - intros (tx' & Hj & Hd). exists tx'. split; [|done]. cbn.
    rewrite list_lookup_insert_ne; [done|]. intros ->. destruct Hd; congruence.
Qed.

Lemma finish_done c w v flags t sc' : inv c -> workers c !! w = Some (HasTask (Execution v)) ->
  finish_execution (sched c) v flags = Some (t, sc') ->
  (forall j, status_done sc' j <-> j = tx_idx v \/ status_done (sched c) j) /\
  (t = Some (Validation v) \/ t = None /\ validation_idx sc' <= tx_idx v) /\
  validation_idx sc' <= validation_idx (sched c) /\
  (contains flags WroteNewLocation = true -> validation_idx sc' <= S (tx_idx v)).
Proof.
  intros Hi Hw E. destruct (holder_executing _ _ _ Hi Hw) as (tx & Htx & Hst & Hinc & Hlt).
  destruct (sized_dependents _ _ (inv_sized _ Hi) Hlt) as [deps Hdeps].
  destruct (finish_execution_spec (sched c) v flags tx deps Htx Hdeps Hlt
    (dependents_nodup _ _ _ Hi Hdeps)) as (t0 & s0 & E0 & Hf).
  { intros j Hj. destruct (dependent_aborting _ _ _ _ Hi Hdeps Hj) as (? & ? & _). eauto. }
  rewrite E in E0. injection E0 as <- <-. split; [|split; [|split]].
  - intros j. split.
    + intros (tx' & Hj & Hd). destruct (finished_lookup _ _ _ _ _ _ _ _ _ Hf Hj)
        as [[-> _]|[(_ & _ & tx0 & _ & ->)|(_ & _ & ?)]]; [by left|by destruct Hd|right; by exists tx'].
    + destruct (fin_mid _ _ _ _ _ _ _ Hf) as (s1 & Hr & Hs & _). unfold status_done. rewrite Hs.
      assert (length (transactions_status s1) = length (transactions_status (sched c))) as Hlen
        by exact (sf_length _ _ (rs_frame _ _ _ Hr)).
      destruct (decide (j = tx_idx v)) as [->|Hne].
      * intros _. eexists. split; [apply list_lookup_insert_eq; rewrite Hlen; by eapply lookup_lt_Some|by left].
      * intros [->|(tx' & Hj & Hd)]; [done|]. exists tx'. split; [|done].
        rewrite list_lookup_insert_ne by done. rewrite (rs_status _ _ _ Hr); cbn.
        rewrite decide_False; [done|]. intros Hin.
        destruct (dependent_aborting _ _ _ _ Hi Hdeps Hin) as (? & ? & ? & _). destruct Hd; congruence.
  - destruct (fin_task _ _ _ _ _ _ _ Hf) as [(? & _)|(? & ? & ->)]; auto.
  - by eapply finished_validation_le.
  - intros Hwn. destruct (fin_task _ _ _ _ _ _ _ Hf) as [(_ & _ & ->)|(_ & ? & ->)]; [rewrite Hwn|]; lia.
Qed.

Lemma fail_done sc v tx won sc' : transactions_status sc !! tx_idx v = Some tx ->
  try_validation_abort sc v = Some (won, sc') -> validation_idx sc' = validation_idx sc /\
  if won then forall j, status_done sc' j <-> j <> tx_idx v /\ status_done sc j
  else (forall j, status_done sc' j <-> status_done sc j) /\ ~ status_done sc (tx_idx v).
Proof.
  intros Htx. unfold try_validation_abort. rewrite Htx; cbn.
  set (s1 := if decide (status tx = Validated) then _ else _).
  assert (transactions_status s1 = transactions_status sc /\ validation_idx s1 = validation_idx sc) as [H1 H2]
    by (subst s1; by case_decide).
  case_decide as Hd; intros [= <- <-]; (split; [done|]).
  - intros j. unfold status_done. cbn. rewrite H1. split.
    + intros (tx' & [(_ & <- & _)|[Hne Hj]]%list_lookup_insert_Some & Hd'); [by destruct Hd'|].
      split; [done|by exists tx'].
    + intros (Hne & tx' & Hj & Hd'). exists tx'. by rewrite list_lookup_insert_ne.
  - unfold status_done. rewrite H1. split; [done|]. intros (tx' & Hj & Hd'). by simplify_eq.
Qed.

Lemma finish_validation_done c w v won t sc' : inv c -> workers c !! w = Some (Checked v won) ->
  finish_validation (sched c) v won = Some (t, sc') ->
  (forall j, status_done sc' j <-> status_done (sched c) j) /\
  validation_idx sc' <= validation_idx (sched c) /\
  (won = true -> validation_idx sc' <= S (tx_idx v)).
Proof.
  intros Hi Hw. pose proof (inv_range _ Hi _ _ Hw) as Hlt. cbn in Hlt.
  destruct (sized_lookup _ _ (inv_sized _ Hi) Hlt) as [tx Htx].
  assert (won = true -> status tx = Aborting) as Hab.
  { intros ->. destruct (winner_aborting _ _ _ Hi Hw) as (? & ? & ?). by simplify_eq. }
  assert (forall (l : list TxStatus) tx' tx2 j, l !! tx_idx v = Some tx' ->
    (done_status (status tx') <-> done_status (status tx2)) ->
    (exists y, <[tx_idx v := tx2]> l !! j = Some y /\ done_status (status y)) <->
    (exists y, l !! j = Some y /\ done_status (status y))) as Hins.
  { intros l tx' tx2 j Hl Hiff. pose proof (lookup_lt_Some _ _ _ Hl) as Hll.
    destruct (decide (j = tx_idx v)) as [->|]; [|by rewrite list_lookup_insert_ne].
    rewrite list_lookup_insert_eq, Hl by done. split; intros (y & [= <-] & ?); eexists; (split; [done|tauto]). }
  assert (forall tx2, done_status (status tx2) -> status tx2 = Aborting -> False) as Hna
    by (intros tx2 [?|?]; congruence).
  unfold finish_validation, set_ready_status. rewrite Htx; cbn. destruct won; cbn.
  - specialize (Hab eq_refl). unfold try_execute; cbn.
    rewrite list_lookup_insert_eq by by eapply lookup_lt_Some. cbn.
    assert (forall j st, ~ done_status st -> status_done (put_status (tx_idx v) (readied tx) st (sched c)) j
       <-> status_done (sched c) j) as Hput.
    { intros j st Hst. unfold status_done. cbn. eapply Hins; [exact Htx|]. rewrite Hab.
      split; [by intros [?|?]|done]. }
    destruct (_ <? execution_idx _).
    + destruct (_ <? block_size _); intros [= <- <-]; (split; [|cbn; lia]); intros j; unfold status_done; cbn;
        rewrite ?list_insert_insert_eq; [apply (Hput j Executing)|apply (Hput j ReadyToExecute)];
        by intros [?|?].
    + intros [= <- <-]. split; [|cbn; lia]. intros j. apply (Hput j ReadyToExecute). by intros [?|?].
  - case_decide as Hd; intros [= <- <-]; (split; [|split; [cbn; lia|done]]); [|done].
    intros j. unfold status_done. cbn. eapply Hins; [exact Htx|]. rewrite Hd.
    split; intros _; [by right|by left].
Qed.
End Done.

(** ** Values and pending validations *)

Section Inv.
Context {P : Platform} {E : Type} (display : E -> string) {SpecId : Type}.
Context (vm : Vm (P := P) (E := E) SpecId).
Implicit Types s : pstate (P := P).

(** A worker whose transaction has values in the memory without being done. *)
Definition dirties (j : TxIdx) (x : worker) (ph : phase) : Prop :=
  match x, ph with
  | HasTask (Execution v), Recorded _ => tx_idx v = j
  | Checked v true, Plain => tx_idx v = j
  | _, _ => False
  end.

Definition dirty s (j : TxIdx) : Prop :=
  status_done (sched (base s)) j \/
  exists w x ph, workers (base s) !! w = Some x /\ phases s !! w = Some ph /\ dirties j x ph.

Definition values_dirty s : Prop :=
  forall loc j inc x, entry (data (mem s)) loc j = Some (Data inc x) -> dirty s j.

Definition reads s (i : TxIdx) (loc : MemoryLocationHash) (os : ReadOrigins) : Prop :=
  exists ll, last_locations (mem s) !! i = Some ll /\ read ll !! loc = Some os.

(** A worker that will look at the read [(loc, os)] of transaction [i] or lower
    the validation counter below [i]. *)
Definition covers (i : TxIdx) (loc : MemoryLocationHash) (os : ReadOrigins) (x : worker) (ph : phase) : Prop :=
  match x, ph with
  | HasTask (Validation v), Plain => tx_idx v = i
  | HasTask (Validation v), Validating todo => tx_idx v = i /\ (loc, os) ∈ todo
  | HasTask (Execution v), Recorded flags => tx_idx v < i /\ contains flags WroteNewLocation = true
  | Checked v true, _ => tx_idx v < i
  | _, _ => False
  end.

Definition covered s i loc os : Prop :=
  validate_location (mem s) i loc os = true \/ validation_idx (sched (base s)) <= i \/
  exists w x ph, workers (base s) !! w = Some x /\ phases s !! w = Some ph /\ covers i loc os x ph.

Definition reads_covered s : Prop :=
  forall i loc os, status_done (sched (base s)) i -> reads s i loc os -> covered s i loc os.

(** What a step that moves worker [w] from [x], [ph] to [x'], [ph'] owes to the two
    invariants. *)
Record pchange s (w : nat) (x : worker) (ph : phase) (x' : worker) (ph' : phase) s' : Prop := {
  pc_worker : workers (base s) !! w = Some x;
  pc_phase : phases s !! w = Some ph;
  pc_workers : workers (base s') = <[w := x']> (workers (base s));
  pc_phases : phases s' = <[w := ph']> (phases s);
  pc_done : forall j, status_done (sched (base s)) j ->
    status_done (sched (base s')) j \/ dirties j x' ph';
  pc_dirty : forall j, dirties j x ph -> status_done (sched (base s')) j \/ dirties j x' ph' \/
    forall loc inc v, entry (data (mem s')) loc j <> Some (Data inc v);
  pc_data : forall loc j inc v, entry (data (mem s')) loc j = Some (Data inc v) ->
    entry (data (mem s)) loc j = Some (Data inc v) \/ dirties j x' ph';
  pc_cover : forall i loc os, status_done (sched (base s')) i -> reads s' i loc os ->
    let target := validate_location (mem s') i loc os = true \/
      validation_idx (sched (base s')) <= i \/ covers i loc os x' ph' in
    target \/ (status_done (sched (base s)) i /\ reads s i loc os /\
      (validate_location (mem s) i loc os = true -> target) /\
      (validation_idx (sched (base s)) <= i -> target) /\
      (covers i loc os x ph -> target));
}.

(** The worker that moved, and the others. *)
Lemma pchange_moved s w x ph x' ph' s' : pchange s w x ph x' ph' s' ->
  workers (base s') !! w = Some x' /\ phases s' !! w = Some ph'.
Proof.
  intros Hc. rewrite (pc_workers _ _ _ _ _ _ _ Hc), (pc_phases _ _ _ _ _ _ _ Hc).
  pose proof (pc_worker _ _ _ _ _ _ _ Hc) as Hw. pose proof (pc_phase _ _ _ _ _ _ _ Hc) as Hph.
  apply lookup_lt_Some in Hw, Hph. by split; apply list_lookup_insert_eq.
Qed.

Lemma pchange_other s w x ph x' ph' s' w2 x2 ph2 : pchange s w x ph x' ph' s' ->
  workers (base s) !! w2 = Some x2 -> phases s !! w2 = Some ph2 ->
  (x2 = x /\ ph2 = ph) \/ (workers (base s') !! w2 = Some x2 /\ phases s' !! w2 = Some ph2).
Proof.
  intros Hc Hw2 Hph2. rewrite (pc_workers _ _ _ _ _ _ _ Hc), (pc_phases _ _ _ _ _ _ _ Hc).
  pose proof (pc_worker _ _ _ _ _ _ _ Hc). pose proof (pc_phase _ _ _ _ _ _ _ Hc).
  destruct (decide (w2 = w)) as [->|Hne]; [left; split; congruence|right].
  by rewrite !list_lookup_insert_ne.
Qed.

Lemma pchange_values s w x ph x' ph' s' :
  pchange s w x ph x' ph' s' -> values_dirty s -> values_dirty s'.
Proof.
  intros Hc Hv loc j inc y Hy. destruct (pchange_moved _ _ _ _ _ _ _ Hc) as [Hw' Hph'].
  assert (dirties j x' ph' -> dirty s' j) as Hnew by (intros ?; right; by eauto 6).
  destruct (pc_data _ _ _ _ _ _ _ Hc _ _ _ _ Hy) as [Hold|]; [|auto].
  destruct (Hv _ _ _ _ Hold) as [Hd|(w2 & x2 & ph2 & Hw2 & Hph2 & Hd)].
  - destruct (pc_done _ _ _ _ _ _ _ Hc _ Hd); [by left|auto].
  - destruct (pchange_other _ _ _ _ _ _ _ _ _ _ Hc Hw2 Hph2) as [[-> ->]|[? ?]]; [|right; by eauto 6].
    destruct (pc_dirty _ _ _ _ _ _ _ Hc _ Hd) as [?|[?|Hno]]; [by left|auto|].
    by apply Hno in Hy.
Qed.

Lemma pchange_covered s w x ph x' ph' s' :
  pchange s w x ph x' ph' s' -> reads_covered s -> reads_covered s'.
Proof.
  intros Hc Hr i loc os Hd Hos. destruct (pchange_moved _ _ _ _ _ _ _ Hc) as [Hw' Hph'].
  assert (validate_location (mem s') i loc os = true \/ validation_idx (sched (base s')) <= i \/
    covers i loc os x' ph' -> covered s' i loc os) as Hnew
    by (intros [?|[?|?]]; [by left|by right; left|right; right; by eauto 6]).
  destruct (pc_cover _ _ _ _ _ _ _ Hc _ _ _ Hd Hos) as [?|(Hd0 & Hos0 & H1 & H2 & H3)]; [auto|].
  destruct (Hr _ _ _ Hd0 Hos0) as [?|[?|(w2 & x2 & ph2 & Hw2 & Hph2 & Hcv)]]; [auto..|].
  destruct (pchange_other _ _ _ _ _ _ _ _ _ _ Hc Hw2 Hph2) as [[-> ->]|[? ?]]; [auto|].
  right; right; by eauto 6.
Qed.

(** A step that leaves the memory alone. *)
Lemma pchange_sched s w x ph x' ph' s' :
  workers (base s) !! w = Some x -> phases s !! w = Some ph ->
  workers (base s') = <[w := x']> (workers (base s)) -> phases s' = <[w := ph']> (phases s) ->
  mem s' = mem s ->
  (forall j, status_done (sched (base s)) j -> status_done (sched (base s')) j \/ dirties j x' ph') ->
  (forall j, dirties j x ph -> status_done (sched (base s')) j \/ dirties j x' ph' \/
    forall loc inc v, entry (data (mem s)) loc j <> Some (Data inc v)) ->
  (forall i loc os, status_done (sched (base s')) i -> reads s i loc os ->
    let target := validate_location (mem s) i loc os = true \/
      validation_idx (sched (base s')) <= i \/ covers i loc os x' ph' in
    target \/ (status_done (sched (base s)) i /\
      (validation_idx (sched (base s)) <= i -> target) /\ (covers i loc os x ph -> target))) ->
  pchange s w x ph x' ph' s'.
Proof.
  intros Hw Hph Hws Hphs Hm Hd Hdi Hc. split; try done; rewrite ?Hm; auto.
  intros i loc os Hd' Hr. cbn. unfold reads in Hr. rewrite Hm in Hr.
  destruct (Hc i loc os Hd' Hr) as [?|(H1 & H2 & H3)]; [by left|right].
  split; [done|]. split; [exact Hr|]. split; [by left|by split].
Qed.

(** *** The steps that record or estimate *)

Lemma holder_no_values s w v : inv (base s) -> values_dirty s ->
  workers (base s) !! w = Some (HasTask (Execution v)) -> phases s !! w = Some Plain ->
  forall loc inc x, entry (data (mem s)) loc (tx_idx v) <> Some (Data inc x).
Proof.
  intros Hi Hv Hw Hph loc inc x Hx. destruct (holder_executing _ _ _ Hi Hw) as (tx & Htx & Hst & _).
  destruct (Hv _ _ _ _ Hx) as [(tx' & Htx' & Hd)|(w2 & y & ph & Hw2 & Hph2 & Hd)].
  { simplify_eq. rewrite Hst in Hd. by destruct Hd. }
  destruct y as [|[v2|v2]|v2 [|]|]; try done.
  - destruct ph; try done. cbn in Hd. destruct (decide (w2 = w)) as [->|Hne]; [congruence|].
    pose proof (inv_exec _ Hi _ _ Htx) as Hsum. rewrite (is_st_self Executing tx Hst) in Hsum.
    pose proof (sum_map_insert (exec_tok (tx_idx v)) _ _ _ Idle Hw) as H1.
    assert (<[w:=Idle]> (workers (base s)) !! w2 = Some (HasTask (Execution v2))) as Hw2'
      by by rewrite list_lookup_insert_ne by done.
    pose proof (sum_map_lookup_le (exec_tok (tx_idx v)) _ _ _ Hw2') as H2.
    rewrite exec_tok_self in H1. rewrite <- Hd, exec_tok_self in H2. rewrite Hd in H2.
    change (exec_tok (tx_idx v) Idle) with 0 in H1. lia.
  - destruct ph; try done. cbn in Hd. destruct (winner_aborting _ _ _ Hi Hw2) as (tx2 & Htx2 & Hst2).
    rewrite Hd in Htx2. congruence.
Qed.

Lemma pchange_record s w v rs ws wrote flags mv0 mv' results ops :
  inv (base s) -> values_dirty s -> mv_wf mv0 -> data mv0 = data (mem s) ->
  last_locations mv0 = last_locations (mem s) ->
  workers (base s) !! w = Some (HasTask (Execution v)) -> phases s !! w = Some Plain ->
  record mv0 v rs ws = Some (wrote, mv') -> contains flags WroteNewLocation = wrote ->
  pchange s w (HasTask (Execution v)) Plain (HasTask (Execution v)) (Recorded flags)
    (mkPstate (base s) mv' (<[w := Recorded flags]> (phases s)) results (abort_reason s) (history s ++ ops)).
Proof.
  intros Hi Hv Hwf Hdata Hlast Hw Hph Er Hfl.
  pose proof (holder_no_values _ _ _ Hi Hv Hw Hph) as Hno. rewrite <- Hdata in Hno.
  destruct (record_last_locations _ _ _ _ _ _ Er) as (ll' & Hrs & _ & Hll' & _).
  destruct (holder_executing _ _ _ Hi Hw) as (tx & Htx & Hst & _).
  split; cbn; try done.
  - by rewrite list_insert_id.
  - auto.
  - intros loc j inc x Hx. destruct (decide (j = tx_idx v)) as [->|Hj]; [by right|left].
    rewrite <- Hdata. by rewrite <- (record_entries _ _ _ _ _ _ loc j Er Hj).
  - intros i loc os Hd Hr.
    assert (i <> tx_idx v) as Hne.
    { intros ->. destruct Hd as (tx' & Htx' & Hd). simplify_eq. rewrite Hst in Hd. by destruct Hd. }
    destruct (decide (tx_idx v < i /\ wrote = true)) as [[Hlt ->]|Hn]; [left; right; right; by split|].
    right. split; [done|]. split.
    { destruct Hr as (ll & Hll & Hos). cbn in Hll. rewrite Hll', list_lookup_insert_ne, Hlast in Hll by done.
      by exists ll. }
    split; [|by split; [right; left|]]. intros Hval. left.
    apply (validate_location_stable mv0).
    + eapply record_stable; try done. destruct wrote; [left|by right].
      destruct (decide (i <= tx_idx v)); [done|]. exfalso. apply Hn. split; [lia|done].
    + unfold validate_location in *. by rewrite Hdata.
Qed.

Lemma pchange_convert s w v mv' ops :
  inv (base s) -> mv_wf (mem s) ->
  workers (base s) !! w = Some (Checked v true) -> phases s !! w = Some Plain ->
  convert_writes_to_estimates (mem s) (tx_idx v) = Some mv' ->
  pchange s w (Checked v true) Plain (Checked v true) Converted
    (mkPstate (base s) mv' (<[w := Converted]> (phases s)) (execution_results s) (abort_reason s)
       (history s ++ ops)).
Proof.
  intros Hi Hwf Hw Hph Er. destruct (winner_aborting _ _ _ Hi Hw) as (tx & Htx & Hst). split; cbn; try done.
  - by rewrite list_insert_id.
  - auto.
  - intros j <-. right; right. intros loc inc x Hx.
    by destruct (convert_entries _ _ _ _ _ _ _ Hwf Er Hx).
  - intros loc j inc x Hx. left. by destruct (convert_entries _ _ _ _ _ _ _ Hwf Er Hx).
  - intros i loc os Hd Hr. destruct (decide (tx_idx v < i)) as [|Hle]; [auto|].
    right. split; [done|]. split.
    { destruct Hr as (ll & Hll & Hos). cbn in Hll. rewrite (convert_last_locations _ _ _ Er) in Hll. by exists ll. }
    split; [|by split; [right; left|]]. intros Hval. left.
    eapply validate_location_stable; [|exact Hval]. eapply convert_stable; [exact Er|lia].
Qed.

Lemma add_dependency_aborted sc i b ok sc' : add_dependency sc i b = Some (ok, sc') -> aborted sc' = aborted sc.
Proof.
  unfold add_dependency. destruct (_ !! b); cbn; [|done]. case_decide; [by intros [= _ <-]|].
  destruct (_ !! i); cbn; [|done]. destruct (_ !! b); cbn; [|done]. by intros [= _ <-].
Qed.

Lemma try_validation_abort_aborted sc v won sc' :
  try_validation_abort sc v = Some (won, sc') -> aborted sc' = aborted sc.
Proof.
  unfold try_validation_abort. destruct (_ !! _); cbn; [|done]. repeat case_decide; by intros [= _ <-].
Qed.

(** *** Every step *)

Definition not_stopped s : Prop := aborted (sched (base s)) = true -> abort_reason s <> None.

Lemma pstep_pchange s s' : inv (base s) -> values_dirty s -> mv_wf (mem s) -> not_stopped s ->
  length (phases s) = length (workers (base s)) ->
  pstep display vm s s' -> abort_reason s' = None ->
  not_stopped s' /\ exists w x ph x' ph', pchange s w x ph x' ph' s'.
Proof.
  intros Hi Hv Hwf Hns Hlen Hs Ha'. unfold not_stopped in *.
  assert (abort_reason s = None -> aborted (sched (base s)) = false) as Hna
    by (intros Ha; destruct (aborted _); [by destruct (Hns eq_refl)|done]).
  destruct Hs as [w r sc Hw E0|w v mvs b ok sc Hw Hph Hsn Hex E0|w v mvs e reason Hw Hph Hsn Hex Hr
    |w v mvs res mv' r l1 db ws ops Hw Hph Hsn Hex Hrec|w v fl t sc Hw Hph E0|w v ll Hw Hph Hll
    |w v loc os todo Hw Hph Hvl|w v Hw Hph|w v loc os todo tx won sc Hw Hph Hvl Htx E0|w v mv' Hw Hph E0
    |w v won t sc Hw Hph E0|w t Hw Hph Hr]; cbn in Ha' |- *.
  - rewrite (next_task_iter_aborted _ _ _ E0). split; [done|].
    destruct (next_done _ _ _ (inv_sized _ Hi) (Hna Ha') E0) as [Hd Hva].
    destruct (lookup_lt_is_Some_2 (phases s) w) as [ph Hph]; [rewrite Hlen; by eapply lookup_lt_Some|].
    exists w, Idle, ph, (after_iter r), Plain. apply pchange_sched; try done; cbn.
    + intros j Hj. left. by apply Hd.
    + intros i loc os Hi' _. right. apply Hd in Hi'. split; [done|]. split; [|done].
      intros Hle. destruct (Hva i Hi' Hle) as [?|(v & -> & <-)]; [auto|by right; right].
  - rewrite (add_dependency_aborted _ _ _ _ _ E0). split; [done|].
    destruct (holder_executing _ _ _ Hi Hw) as (tx & Htx & Hst & _).
    destruct (blocked_done _ _ _ _ _ _ Htx Hst E0) as [Hd Hva].
    eexists w, _, _, _, _. apply pchange_sched; try done; cbn.
    + intros j Hj. left. by apply Hd.
    + intros i loc os Hi' _. right. rewrite Hva. apply Hd in Hi'. split; [done|]. split; [auto|done].
  - by destruct (abort_reason s).
  - split; [done|]. destruct (ex_writes _ _ _ _ _ _ _ _ _ _ _ _ Hrec) as (tx & ws0 & codes & _ & _ & _ & addrs & _ & Er).
    eexists w, _, _, _, _.
    apply (pchange_record s w v (read_set db) ws (contains (flags res) WroteNewLocation) (flags res)
      (add_lazy_addresses (put_bytecodes codes (mem s)) addrs)); try done. by destruct Hwf.
  - rewrite (finish_execution_aborted _ _ _ _ _ E0). split; [done|].
    destruct (finish_done _ _ _ _ _ _ Hi Hw E0) as (Hd & Ht & Hle & Hwn).
    eexists w, _, _, _, _. apply pchange_sched; try done; cbn.
    + intros j Hj. left. apply Hd. by right.
    + intros j <-. left. apply Hd. by left.
    + intros i loc os Hi' _. apply Hd in Hi'. destruct (decide (i = tx_idx v)) as [->|Hne].
      { left. right. destruct Ht as [->|[-> ?]]; [by right|by left]. }
      destruct Hi' as [|Hi']; [done|]. right. split; [done|].
      split; [intros ?; right; left; lia|]. intros [Hlt Hc]. right; left. specialize (Hwn Hc). lia.
  - split; [done|]. eexists w, _, _, _, _. apply pchange_sched; try done; cbn.
    + by rewrite list_insert_id.
    + auto.
    + intros i loc os Hi' Hr. right. split; [done|]. split; [auto|]. intros <-. right; right.
      split; [done|]. destruct Hr as (ll' & Hll' & Hos). simplify_eq. by apply elem_of_map_to_list.
  - split; [done|]. eexists w, _, _, _, _. apply pchange_sched; try done; cbn.
    + by rewrite list_insert_id.
    + auto.
    + intros i loc' os' Hi' Hr. right. split; [done|]. split; [auto|]. intros [<- Hin].
      apply elem_of_cons in Hin as [[= -> ->]|Hin]; [by left|by right; right].
  - split; [done|]. eexists w, _, _, _, _. apply pchange_sched; try done; cbn.
    + auto.
    + intros i loc' os' Hi' Hr. right. split; [done|]. split; [auto|]. intros [_ Hin]. by apply elem_of_nil in Hin.
  - rewrite (try_validation_abort_aborted _ _ _ _ E0). split; [done|].
    destruct (fail_done _ _ _ _ _ Htx E0) as [Hva Hd].
    eexists w, _, _, _, _. apply pchange_sched; try done; cbn; rewrite ?Hva; destruct won.
    + intros j Hj. destruct (decide (j = tx_idx v)) as [->|]; [by right|left; by apply Hd].
    + intros j Hj. left. by apply Hd.
    + intros i loc' os' Hi' _. apply Hd in Hi' as [Hne Hi']. right. split; [done|]. split; [auto|].
      intros [<- _]. done.
    + destruct Hd as [Hd Hnd]. intros i loc' os' Hi' _. apply Hd in Hi'. right. split; [done|]. split; [auto|].
      intros [<- _]. done.
  - split; [done|]. eexists w, _, _, _, _. by eapply pchange_convert.
  - rewrite (finish_validation_aborted _ _ _ _ _ E0). split; [done|].
    destruct (finish_validation_done _ _ _ _ _ _ Hi Hw E0) as (Hd & Hle & Hwon).
    eexists w, _, _, _, _. apply pchange_sched; try done; cbn.
    + intros j Hj. left. by apply Hd.
    + destruct won; cbn; [|done]. done.
    + intros i loc os Hi' _. apply Hd in Hi'. right. split; [done|]. split; [intros; right; left; lia|].
      destruct won; [|done]. intros Hlt. right; left. specialize (Hwon eq_refl). lia.
  - congruence.
Qed.

(** ** The log of executions *)

(** Every version is recorded at most once, by the worker it was dispatched to. *)
Record recorded_once s : Prop := {
  ro_dispatched : forall w v, workers (base s) !! w = Some (HasTask (Execution v)) ->
    v ∈ dispatched (base s);
  ro_recorded : forall v, v ∈ recorded (history s) -> v ∈ dispatched (base s);
  ro_fresh : forall w v, workers (base s) !! w = Some (HasTask (Execution v)) ->
    phases s !! w = Some Plain -> v ∉ recorded (history s);
  ro_nodup : NoDup (recorded (history s));
}.

(** The worker that moved may only hold a version it held, or a new one. *)
Lemma recorded_once_moved s sc w x t aborts :
  inv (moved (base s) sc w x t aborts) -> recorded_once s ->
  (forall v, x = HasTask (Execution v) -> t = Some (Execution v) \/
     workers (base s) !! w = Some x /\ phases s !! w = Some Plain) ->
  recorded_once (with_base (moved (base s) sc w x t aborts) w Plain s).
Proof.
  intros Hi' [Hd Hr Hf Hn] Hx. pose proof (proj1 (inv_dispatched _ Hi')) as Hnd. cbn in Hnd.
  assert (forall v, v ∈ dispatched (base s) -> v ∈ log_exec t (dispatched (base s))) as Hgrow
    by (intros v Hv; destruct t as [[v'|v']|]; [by right|done..]).
  split; cbn; [| |intros w2 v Hw Hph|done].
  - intros w2 v [(-> & -> & _)|[_ Hw]]%list_lookup_insert_Some; [|by eapply Hgrow, Hd].
    destruct (Hx v eq_refl) as [->|[Hw _]]; [by left|by eapply Hgrow, Hd].
  - intros v Hv. by apply Hgrow, Hr.
  - apply list_lookup_insert_Some in Hw as [(-> & -> & _)|[Hne Hw]].
    + destruct (Hx v eq_refl) as [->|[Hw Hph']]; [|by eapply Hf].
      cbn in Hnd. apply NoDup_cons in Hnd as [Hnew _]. intros Hin. by apply Hnew, Hr.
    + rewrite list_lookup_insert_ne in Hph by done. by eapply Hf.
Qed.

Lemma recorded_app (h ops : list (mv_op Bytecode)) : recorded (h ++ ops) = recorded h ++ recorded ops.
Proof. apply omap_app. Qed.

(** No two workers hold the same execution task. *)
Lemma one_holder c w w2 v v2 : inv c -> workers c !! w = Some (HasTask (Execution v)) ->
  workers c !! w2 = Some (HasTask (Execution v2)) -> tx_idx v2 = tx_idx v -> w2 = w.
Proof.
  intros Hi Hw Hw2 Heq. destruct (decide (w2 = w)) as [|Hne]; [done|exfalso].
  destruct (holder_executing _ _ _ Hi Hw) as (tx & Htx & Hst & _).
  pose proof (inv_exec _ Hi _ _ Htx) as Hsum. rewrite (is_st_self Executing tx Hst) in Hsum.
  pose proof (sum_map_insert (exec_tok (tx_idx v)) _ _ _ Idle Hw) as H1.
  assert (<[w:=Idle]> (workers c) !! w2 = Some (HasTask (Execution v2))) as Hw2'
    by by rewrite list_lookup_insert_ne by done.
  pose proof (sum_map_lookup_le (exec_tok (tx_idx v)) _ _ _ Hw2') as H2.
  rewrite exec_tok_self in H1. rewrite <- Heq, exec_tok_self, Heq in H2.
  change (exec_tok (tx_idx v) Idle) with 0 in H1. lia.
Qed.

Lemma recorded_once_record s w v res results mv' ops codes addrs rs ws :
  inv (base s) -> recorded_once s ->
  workers (base s) !! w = Some (HasTask (Execution v)) -> phases s !! w = Some Plain ->
  ops = [OpBytecodes codes; OpLazy addrs; OpRecord v rs ws] ->
  recorded_once (mkPstate (base s) mv' (<[w := Recorded (flags res)]> (phases s)) results
    (abort_reason s) (history s ++ ops)).
Proof.
  intros Hi [Hd Hr Hf Hn] Hw Hph ->. split; cbn -[recorded]; rewrite ?recorded_app;
    try change (recorded (_ :: _)) with [v].
  - done.
  - intros v' [Hv|Hv%list_elem_of_singleton]%elem_of_app; [by apply Hr|]. subst v'. by eapply Hd.
  - intros w2 v2 Hw2 Hph2. apply list_lookup_insert_Some in Hph2 as [(_ & ? & _)|[Hne Hph2]]; [done|].
    intros [Hv|Hv%list_elem_of_singleton]%elem_of_app; [by eapply Hf|]. subst v2.
    apply Hne. symmetry. by eapply (one_holder (base s) w).
  - apply NoDup_app. split; [done|]. split; [|apply NoDup_singleton].
    intros v' Hv' ->%list_elem_of_singleton. by eapply Hf.
Qed.

(** *** Results and read sets *)

Definition settles (j : TxIdx) (x : worker) (ph : phase) : Prop :=
  match x, ph with HasTask (Execution v), Recorded _ => tx_idx v = j | _, _ => False end.

(** The last execution of transaction [j] stands. *)
Definition settled s (j : TxIdx) : Prop :=
  status_done (sched (base s)) j \/
  exists w x ph, workers (base s) !! w = Some x /\ phases s !! w = Some ph /\ settles j x ph.

(** What the memory and the results hold for [j] comes from one execution of the
    history, whose reads happened during it. *)
Definition logged s (j : TxIdx) : Prop :=
  exists mvs mv v res mv' r l1 db ws ops,
    seen vm (history s) mvs /\ tx_idx v = j /\
    execution display vm mvs mv v res mv' r l1 db ws ops /\
    (exists ll, last_locations (mem s) !! j = Some ll /\ read ll = read_set db /\
       forall loc, loc ∈ write ll <-> loc ∈ ws.*1) /\
    execution_results s !! j = Some (Some (execution_result res)) /\
    (forall loc inc x, entry (data (mem s)) loc j = Some (Data inc x) <->
       inc = tx_incarnation v /\ last_write loc ws = Some x) /\
    forall o, o ∈ ops -> o ∈ history s.

Definition settled_logged s : Prop := forall j, settled s j -> logged s j.

Lemma seen_app h ops mvs : seen vm h mvs -> seen vm (h ++ ops) mvs.
Proof.
  intros (n & Hn & Hk). exists n. split; [done|]. intros k. destruct (Hk k) as [Hl Ha].
  split; [rewrite length_app; lia|]. by rewrite take_app_le.
Qed.

Lemma logged_same s s' j ops : history s' = history s ++ ops ->
  last_locations (mem s') !! j = last_locations (mem s) !! j ->
  (forall loc, entry (data (mem s')) loc j = entry (data (mem s)) loc j) ->
  execution_results s' !! j = execution_results s !! j -> logged s j -> logged s' j.
Proof.
  intros Hh Hl He Hr (mvs & mv & v & res & mv' & r & l1 & db & ws & ops' & H1 & H2 & H3 & H4 & H5 & H6 & H7).
  exists mvs, mv, v, res, mv', r, l1, db, ws, ops'. rewrite Hh, Hl, Hr. setoid_rewrite He.
  split; [by apply seen_app|]. repeat (split; [done|]). intros o Ho. apply elem_of_app. left. by apply H7.
Qed.

(** Steps of the scheduler that settle nothing new. *)
Lemma settled_moved s sc w x ph x' ph' t aborts j :
  workers (base s) !! w = Some x -> phases s !! w = Some ph ->
  (status_done sc j -> status_done (sched (base s)) j \/ settles j x ph) ->
  (forall fl, ph' <> Recorded fl) ->
  settled (with_base (moved (base s) sc w x' t aborts) w ph' s) j -> settled s j.
Proof.
  intros Hw Hph Hd Hno [Hs|(w2 & y & ph2 & Hw2 & Hph2 & Hy)]; cbn in *.
  - destruct (Hd Hs) as [?|?]; [by left|right; by eauto 6].
  - apply list_lookup_insert_Some in Hph2 as [(-> & -> & _)|[Hne Hph2]].
    + exfalso. destruct y as [|[v|v]|v [|]|]; cbn in Hy; try done. destruct ph2; try done. by eapply Hno.
    + rewrite list_lookup_insert_ne in Hw2 by done. right. by eauto 6.
Qed.

Lemma settled_logged_moved s sc w x ph x' ph' t aborts :
  settled_logged s -> workers (base s) !! w = Some x -> phases s !! w = Some ph ->
  (forall j, status_done sc j -> status_done (sched (base s)) j \/ settles j x ph) ->
  (forall fl, ph' <> Recorded fl) ->
  settled_logged (with_base (moved (base s) sc w x' t aborts) w ph' s).
Proof.
  intros Hl Hw Hph Hd Hno j Hs.
  apply (logged_same s _ j []); try done; [by rewrite app_nil_r|]. apply Hl.
  exact (settled_moved _ _ _ _ _ _ _ _ _ _ Hw Hph (Hd j) Hno Hs).
Qed.

Lemma settled_logged_record s w v res mv' mvs r l1 db ws ops :
  inv (base s) -> values_dirty s -> settled_logged s ->
  tx_idx v < length (execution_results s) ->
  workers (base s) !! w = Some (HasTask (Execution v)) -> phases s !! w = Some Plain ->
  seen vm (history s) mvs -> execution display vm mvs (mem s) v res mv' r l1 db ws ops ->
  settled_logged (mkPstate (base s) mv' (<[w := Recorded (flags res)]> (phases s))
    (<[tx_idx v := Some (execution_result res)]> (execution_results s))
    (abort_reason s) (history s ++ ops)).
Proof.
  intros Hi Hv Hl Hlen Hw Hph Hsn Hex j Hs.
  destruct (ex_writes _ _ _ _ _ _ _ _ _ _ _ _ Hex) as (tx & ws0 & codes & _ & _ & _ & addrs & Hops & Er).
  destruct (record_last_locations _ _ _ _ _ _ Er) as (ll' & Hrs & Hwr & Hll' & Hll).
  destruct (decide (j = tx_idx v)) as [->|Hne].
  - exists mvs, (mem s), v, res, mv', r, l1, db, ws, ops.
    split; [by apply seen_app|]. split; [done|]. split; [done|]. cbn.
    split. { exists ll'. split; [|by split]. rewrite Hll'. apply list_lookup_insert_eq.
      by eapply lookup_lt_is_Some_1. }
    split; [by apply list_lookup_insert_eq|].
    split; [|intros o Ho; apply elem_of_app; by right].
    intros loc inc x. destruct Hll as [ll Hll].
    destruct (record_full _ _ (read_set db) ws _ Hll) as (b & locs & d & E' & _ & _ & _ & Hent).
    rewrite Er in E'. injection E' as Hb' ->. cbn. rewrite Hent, decide_True by done. cbn.
    destruct (last_write loc ws) as [y|]; [split; [intros [= <- <-]; by split|by intros [-> [= ->]]]|].
    split; [|by intros [_ ?]]. case_decide; [done|]. intros Hx. by apply (holder_no_values s w v) in Hx.
  - apply (logged_same s _ j ops); try done; cbn.
    + rewrite Hll'. by rewrite list_lookup_insert_ne.
    + intros loc. by rewrite (record_entries _ _ _ _ _ _ loc j Er Hne).
    + by rewrite list_lookup_insert_ne.
    + apply Hl. destruct Hs as [Hs|(w2 & y & ph2 & Hw2 & Hph2 & Hy)]; [by left|right]. cbn in *.
      exists w2, y, ph2. split; [done|]. split; [|done].
      apply list_lookup_insert_Some in Hph2 as [(<- & <- & _)|[_ ?]]; [|done].
      simplify_eq.
Qed.

Lemma settled_logged_convert s w v mv' ops :
  inv (base s) -> settled_logged s ->
  workers (base s) !! w = Some (Checked v true) -> phases s !! w = Some Plain ->
  convert_writes_to_estimates (mem s) (tx_idx v) = Some mv' ->
  settled_logged (mkPstate (base s) mv' (<[w := Converted]> (phases s)) (execution_results s)
    (abort_reason s) (history s ++ ops)).
Proof.
  intros Hi Hl Hw Hph Ec j Hs. destruct (winner_aborting _ _ _ Hi Hw) as (tx & Htx & Hst).
  assert (settled s j /\ j <> tx_idx v) as [Hs' Hne].
  { destruct Hs as [Hs|(w2 & y & ph2 & Hw2 & Hph2 & Hy)]; cbn in *.
    - split; [by left|]. intros ->. destruct Hs as (tx' & Htx' & Hd). simplify_eq.
      rewrite Hst in Hd. by destruct Hd.
    - apply list_lookup_insert_Some in Hph2 as [(_ & <- & _)|[_ Hph2]]; [by destruct y as [|[]| |]|].
      split; [right; by eauto 6|]. destruct y as [|[v2|v2]|v2 [|]|]; try done. destruct ph2; try done.
      cbn in Hy. destruct (holder_executing _ _ _ Hi Hw2) as (tx2 & Htx2 & Hst2 & _). intros ->.
      rewrite Hy in Htx2. congruence. }
  apply (logged_same s _ j ops); try done; cbn; [by rewrite (convert_last_locations _ _ _ Ec)| |by apply Hl].
  intros loc. unfold convert_writes_to_estimates in Ec.
  destruct (last_locations (mem s) !! tx_idx v) as [ll|]; cbn in Ec; [|done]. injection Ec as <-. cbn.
  rewrite estimates_fold_spec, decide_False; [done|]. by intros (_ & ? & _).
Qed.

(** ** The invariant of the running block *)

Record pinv s : Prop := {
  pi_base : inv (base s);
  pi_size : block_size (sched (base s)) = block_len vm;
  pi_phases : length (phases s) = length (workers (base s));
  pi_results : block_len vm <= length (execution_results s);
  pi_mem : apply_ops (mem0 vm) (history s) = Some (mem s);
  pi_codes : ops_ok (mem0 vm) (history s);
  pi_executed : forall v rs ws, OpRecord v rs ws ∈ history s -> exists mvs mv res mv' r l1 db ops,
    seen vm (history s) mvs /\ execution display vm mvs mv v res mv' r l1 db ws ops;
  pi_stopped : not_stopped s;
  pi_once : recorded_once s;
  pi_values : values_dirty s;
  pi_covered : reads_covered s;
  pi_logged : settled_logged s;
}.

Lemma mem0_new : exists estimated lazy, mem0 vm = MvMemory_new (block_len vm) estimated lazy.
Proof. unfold mem0, build_mv_memory. destruct (mv_estimates _ _ _) as [est lazy]. by exists est, lazy. Qed.

Lemma pinv_wf s : pinv s -> mv_wf (mem s).
Proof.
  intros Hp. destruct mem0_new as (est & lazy & Hm). pose proof (pi_mem _ Hp) as H.
  rewrite Hm in H. by eapply history_wf.
Qed.

Lemma pstep_same_size s s' : pinv s -> pstep display vm s s' -> abort_reason s' = None ->
  inv (base s') /\ block_size (sched (base s')) = block_len vm.
Proof.
  intros Hp Hs Ha'. assert (abort_ok s) as Hok.
  { intros Ha. destruct Hs; cbn in *; try done. unfold get_or_init in Ha'. by destruct (abort_reason s). }
  destruct (pstep_base display vm _ _ Hok Hs) as [Hst| ->]; [|split; apply Hp].
  split; [eapply step_inv; [done|apply Hp]|].
  destruct (step_change _ _ Hst (pi_base _ Hp)) as (w & x & x' & Hc).
  rewrite (ch_block_size _ _ _ _ _ Hc). apply Hp.
Qed.

Lemma phase_once_logged s w todo :
  recorded_once s -> settled_logged s ->
  recorded_once (with_base (base s) w (Validating todo) s) /\
  settled_logged (with_base (base s) w (Validating todo) s).
Proof.
  intros [H1 H2 H3 H4] Hl. split.
  - split; cbn; try done. intros w2 v2 Hw2 Hph2.
    apply list_lookup_insert_Some in Hph2 as [(_ & ? & _)|[_ ?]]; [done|by eapply H3].
  - intros j Hs. apply (logged_same s _ j []); try done; [by rewrite app_nil_r|]. apply Hl.
    destruct Hs as [Hs|(w2 & y & ph2 & Hw2 & Hph2 & Hy)]; [by left|right]. cbn in *.
    apply list_lookup_insert_Some in Hph2 as [(_ & <- & _)|[_ ?]]; [|by eauto 6].
    by destruct y as [|[]|v []|].
Qed.

Lemma pinv_once_logged s s' : pinv s -> pstep display vm s s' -> abort_reason s' = None ->
  inv (base s') -> recorded_once s' /\ settled_logged s'.
Proof.
  intros Hp Hs Ha' Hi'. pose proof (pi_base _ Hp) as Hi. pose proof (pi_once _ Hp) as Ho.
  pose proof (pi_logged _ Hp) as Hl.
  assert (abort_reason s = None -> aborted (sched (base s)) = false) as Hna
    by (intros Ha; pose proof (pi_stopped _ Hp) as Hn; unfold not_stopped in Hn;
        destruct (aborted _); [by destruct (Hn eq_refl)|done]).
  destruct Hs as [w r sc Hw E0|w v mvs b ok sc Hw Hph Hsn Hex E0|w v mvs e reason Hw Hph Hsn Hex Hr
    |w v mvs res mv' r l1 db ws ops Hw Hph Hsn Hex Hrec|w v fl t sc Hw Hph E0|w v ll Hw Hph Hll
    |w v loc os todo Hw Hph Hvl|w v Hw Hph|w v loc os todo tx won sc Hw Hph Hvl Htx E0|w v mv' Hw Hph E0
    |w v won t sc Hw Hph E0|w t Hw Hph Hr]; cbn in Ha', Hi'.
  - split; [apply recorded_once_moved; [done..|]; intros v; destruct r; by intros [= ->]; left|].
    destruct (next_done _ _ _ (inv_sized _ Hi) (Hna Ha') E0) as [Hd _].
    destruct (lookup_lt_is_Some_2 (phases s) w) as [ph Hph];
      [rewrite (pi_phases _ Hp); by eapply lookup_lt_Some|].
    eapply settled_logged_moved; [done..| |done]. intros j Hj. left. by apply Hd.
  - split; [apply recorded_once_moved; [done..|]; intros v'; destruct ok; [done|by intros [= <-]; right]|].
    destruct (holder_executing _ _ _ Hi Hw) as (tx & Htx & Hst & _).
    destruct (blocked_done _ _ _ _ _ _ Htx Hst E0) as [Hd _].
    eapply settled_logged_moved; [done..| |done]. intros j Hj. left. by apply Hd.
  - by destruct (abort_reason s).
  - split.
    + destruct (ex_writes _ _ _ _ _ _ _ _ _ _ _ _ Hrec) as (tx & ws0 & codes & _ & _ & _ & addrs & Hops & _).
      by eapply recorded_once_record.
    + eapply settled_logged_record; try done; [apply Hp|]. eapply Nat.lt_le_trans; [|exact (pi_results _ Hp)].
      rewrite <- (pi_size _ Hp). exact (inv_range _ Hi _ _ Hw).
  - destruct (finish_done _ _ _ _ _ _ Hi Hw E0) as (Hd & Ht & _). split.
    + apply recorded_once_moved; [done..|]. intros v'. destruct Ht as [->|[-> _]]; by intros [=].
    + eapply settled_logged_moved; [done..| |done]. intros j [->|Hj]%Hd; [by right|by left].
  - by apply phase_once_logged.
  - by apply phase_once_logged.
  - split; [by apply recorded_once_moved|]. eapply settled_logged_moved; [done..| |done]. by left.
  - destruct (fail_done _ _ _ _ _ Htx E0) as [_ Hd]. split; [by apply recorded_once_moved|].
    eapply settled_logged_moved; [done..| |done]. intros j Hj. left. destruct won; by apply Hd.
  - split; [|by eapply settled_logged_convert].
    destruct Ho as [H1 H2 H3 H4]. split; cbn -[recorded]; rewrite ?recorded_app, ?app_nil_r; try done.
    intros w2 v2 Hw2 Hph2. apply list_lookup_insert_Some in Hph2 as [(_ & ? & _)|[_ ?]]; [done|by eapply H3].
  - destruct (finish_validation_done _ _ _ _ _ _ Hi Hw E0) as (Hd & _ & _). split.
    + apply recorded_once_moved; [done..|]. intros v'. destruct t as [t|]; [|done]. by intros [= ->]; left.
    + eapply settled_logged_moved; [done..| |done]. intros j Hj. left. by apply Hd.
  - congruence.
Qed.

Lemma execution_ops_ok mvs mv v res mv' r l1 db ws ops :
  execution display vm mvs mv v res mv' r l1 db ws ops -> ops_ok mv ops.
Proof.
  intros Hex. destruct (ex_writes _ _ _ _ _ _ _ _ _ _ _ _ Hex) as (tx & ws0 & codes & _ & Hws & Hrw & addrs & -> & _).
  apply state_writes_codes in Hws as [Hs Hh]. cbn. split; [done|]. intros ? [= <-]. split; [done|].
  intros ? [= <-]. split; [|done]. cbn. by eapply apply_rewards_hashes.
Qed.

Lemma pstep_pinv s s' : pinv s -> pstep display vm s s' -> abort_reason s' = None -> pinv s'.
Proof.
  intros Hp Hs Ha'. destruct (pstep_same_size _ _ Hp Hs Ha') as [Hi' Hb'].
  destruct (pinv_once_logged _ _ Hp Hs Ha' Hi') as [Ho' Hl'].
  destruct (pstep_pchange _ _ (pi_base _ Hp) (pi_values _ Hp) (pinv_wf _ Hp) (pi_stopped _ Hp)
    (pi_phases _ Hp) Hs Ha') as (Hns & w & x & ph & x' & ph' & Hc).
  split; try done.
  - rewrite (pc_phases _ _ _ _ _ _ _ Hc), (pc_workers _ _ _ _ _ _ _ Hc), !length_insert. apply Hp.
  - pose proof (pi_results _ Hp). destruct Hs; cbn; by rewrite ?length_insert.
  - pose proof (pi_mem _ Hp) as Hm.
    destruct Hs as [| | |w1 v mvs res mv' r l1 db ws ops H1 H2 H3 H4 Hrec| | | | | |w1 v mv' H1 H2 Hcv| |];
      try done; cbn.
    + destruct (ex_writes _ _ _ _ _ _ _ _ _ _ _ _ Hrec) as (tx & ws0 & codes & _ & _ & _ & addrs & -> & Er).
      rewrite apply_ops_app, Hm. cbn. by rewrite Er.
    + rewrite apply_ops_app, Hm. cbn. by rewrite Hcv.
  - pose proof (pi_codes _ Hp) as Hok. pose proof (pi_mem _ Hp) as Hm.
    destruct Hs as [| | |w1 v mvs res mv' r l1 db ws ops H1 H2 H3 H4 Hrec| | | | | |w1 v mv' H1 H2 Hcv| |];
      try done; cbn; apply (ops_ok_app _ _ _ _ Hm); (split; [done|]); [|by split].
    by eapply execution_ops_ok.
  - pose proof (pi_executed _ Hp) as He.
    assert (forall ops, (forall v rs ws, OpRecord v rs ws ∈ ops -> exists mvs mv res mv' r l1 db ops',
        seen vm (history s ++ ops) mvs /\ execution display vm mvs mv v res mv' r l1 db ws ops') ->
      forall v rs ws, OpRecord v rs ws ∈ history s ++ ops -> exists mvs mv res mv' r l1 db ops',
        seen vm (history s ++ ops) mvs /\ execution display vm mvs mv v res mv' r l1 db ws ops') as Happ.
    { intros ops Hops v rs ws [Hin|Hin]%elem_of_app; [|by eapply Hops].
      destruct (He _ _ _ Hin) as (mvs & mv & res & mv' & r & l1 & db & ops' & Hsn & Hx).
      exists mvs, mv, res, mv', r, l1, db, ops'. split; [by apply seen_app|done]. }
    destruct Hs as [| | |w1 v mvs res mv' r l1 db ws ops H1 H2 H3 H4 Hrec| | | | | |w1 v mv' H1 H2 Hcv| |];
      try done; cbn; apply Happ; intros v1 rs1 ws1 Hin.
    + pose proof (ex_writes _ _ _ _ _ _ _ _ _ _ _ _ Hrec) as (tx & ws0 & codes & _ & _ & _ & addrs & Hops & _).
      rewrite Hops in Hin. apply elem_of_cons in Hin as [?|[?|Hin%list_elem_of_singleton]%elem_of_cons]; [done..|].
      injection Hin as -> -> ->. exists mvs, (mem s), res, mv', r, l1, db, ops. split; [by apply seen_app|done].
    + by apply list_elem_of_singleton in Hin.
  - eapply pchange_values; [done|apply Hp].
  - eapply pchange_covered; [done|apply Hp].
Qed.

Lemma pinit_pinv kept level : (Z.of_nat (block_len vm) < 2 ^ 64)%Z -> pinv (pinit (E := E) vm kept level).
Proof.
  intros Hn. destruct mem0_new as (est & lazy & Hm).
  assert (forall w x, workers (init (block_len vm) level) !! w = Some x -> x = Idle) as Hw
    by by intros w x [-> _]%lookup_replicate.
  assert (forall i, ~ status_done (new (block_len vm)) i) as Hnd
    by (intros i (tx & [-> _]%lookup_replicate & Hd); by destruct Hd).
  split; cbn; try done.
  - by apply init_inv.
  - by rewrite !length_replicate.
  - unfold reserve_results. rewrite length_app, length_replicate. lia.
  - by intros v rs ws ?%elem_of_nil.
  - split; cbn; [by intros w v ?%Hw|by intros v ?%elem_of_nil|by intros w v ?%Hw|constructor].
  - intros loc j inc x. cbn. rewrite Hm. by intros ?%new_no_data.
  - intros i loc os Hd. by apply Hnd in Hd.
  - intros j [Hd|(w & x & ph & ->%Hw & _ & Hs)]; [by apply Hnd in Hd|done].
Qed.

Lemma abort_reason_stays s s' : pstep display vm s s' -> abort_reason s' = None -> abort_reason s = None.
Proof. intros []; cbn; try done. unfold get_or_init. by destruct (abort_reason s). Qed.

Lemma preachable_pinv kept level s : (Z.of_nat (block_len vm) < 2 ^ 64)%Z -> 0 < level ->
  preachable display vm kept level s -> abort_reason s = None ->
  pinv s /\ exit_ok (base s).
Proof.
  intros Hn Hlv. unfold preachable. revert s.
  apply (rtc_ind_r (fun s => abort_reason s = None -> pinv s /\ exit_ok (base s)));
    [intros Ha|intros s1 s2 _ Hs IH Ha].
  - split; [by apply pinit_pinv|]. by apply (reachable_exit_ok (block_len vm) level); [..|apply rtc_refl].
  - pose proof (abort_reason_stays _ _ Hs Ha) as Ha1. destruct (IH Ha1) as [Hp He].
    split; [by eapply pstep_pinv|].
    destruct (pstep_base display vm s1 s2 (fun H => match H Ha1 with end) Hs) as [Hst| ->]; [|done].
    eapply step_exit_ok; [apply Hp|done|done].
Qed.
End Inv.
