(* ===== verification/ParallelSpec.v ===== *)
(** * ParallelSpec: what the parallel execution of a block guarantees (pexe.rs)

    The properties of [Pexe::execute_revm_parallel] up to the point where the
    worker threads have joined: no stale read is ever forgotten, values belong to
    standing executions, versions are recorded once, and, the main theorem, when
    all workers have left without an abort, the results and the memory are those
    of executing every transaction on the final memory: the execution is
    serialised in block order. *)

From S2P Require Import Prelude Types Scheduler SchedulerSystem SchedulerTheorems SchedulerProgress.
From S2P Require Import Platform Storage MvMemory MvMemorySpec VmDb VmDbLemmas VmDbReplay Vm VmSpec.
From S2P Require Import ParallelCodes ParallelSystem ParallelInv.
#[local] Open Scope nat_scope.

Section Spec.
Context {P : Platform} {E : Type} (display : E -> string) {SpecId : Type}.
Context (vm : Vm (P := P) (E := E) SpecId).
Context (kept : list (option PexeTxExecutionResult)).
Implicit Types s : pstate (P := P).

Definition all_exited s : Prop := forall w x, workers (base s) !! w = Some x -> exists left, x = Exited left.

Lemma codes_known_0 : codes_known (mem0 vm).
Proof.
  destruct (mem0_new vm) as (est & lazy & ->). intros loc k inc h H. by apply new_no_data in H.
Qed.

Lemma exited_all_valid s : pinv display vm s -> exit_ok (base s) -> abort_reason s = None -> all_exited s ->
  (forall i tx, transactions_status (sched (base s)) !! i = Some tx -> status tx = Validated) /\
  forall i ll, last_locations (mem s) !! i = Some ll -> i < block_len vm ->
    validate_read_locations (mem s) i = Some true.
Proof.
  intros Hp Hex Ha Hall.
  assert (aborted (sched (base s)) = false) as Hab
    by (pose proof (pi_stopped _ _ _ Hp) as Hn; unfold not_stopped in Hn;
        destruct (aborted _); [by destruct (Hn eq_refl)|done]).
  destruct (Hex Hab) as [_ [(w & x & Hw & Hx)|[_ Hv]]].
  { exfalso. destruct (Hall _ _ Hw) as [left ->]. by eapply Hx. }
  assert (forall i tx, transactions_status (sched (base s)) !! i = Some tx -> status tx = Validated) as Hst
    by (by apply exited_validated; [apply Hp|..]).
  split; [done|]. intros i ll Hll Hi. unfold validate_read_locations. rewrite Hll. cbn. f_equal.
  apply forallb_forall. intros [loc os] Hin%list_elem_of_In%elem_of_map_to_list. cbn.
  destruct (sized_lookup (sched (base s)) i) as [tx Htx]; [apply Hp|by rewrite (pi_size _ _ _ Hp)|].
  destruct (pi_covered _ _ _ Hp i loc os) as [?|[Hle|(w & x & ph & Hw & _ & Hcv)]]; [| |done| |].
  - exists tx. split; [done|]. right. by eapply Hst.
  - by exists ll.
  - pose proof (pi_size _ _ _ Hp). lia.
  - by destruct (Hall _ _ Hw) as [left ->].
Qed.

(** What the final state holds for the transaction [tx] at [i]: the result of
    executing it on the final memory, and the writes of that execution, whose new
    bytecodes the memory keeps.  Only a transfer to an address without code is
    updated lazily. *)
Definition serialised s (i : TxIdx) (tx : TxEnv) : Prop :=
  exists v r l1 db ws0 ws codes codes' res, tx_idx v = i /\
    execute_reads_as display vm (mem s) i tx (is_lazy db) = Ok ((inr r, l1), db) /\
    (is_lazy db = true -> to_code_hash db = None /\ transact_to tx <> Create) /\
    state_writes (is_eip_161_enabled (vm_chain vm) (vm_spec_id vm)) db tx (state r) codes = Ok (ws0, codes') /\
    codes' ⊆ new_bytecodes (mem s) /\
    apply_rewards vm ws0 tx (gas_used (result r)) l1 = Ok ws /\
    (forall loc inc x, entry (data (mem s)) loc i = Some (Data inc x) <->
       inc = tx_incarnation v /\ last_write loc ws = Some x) /\
    from_revm (vm_chain vm) (vm_spec_id vm) r = Ok res /\
    execution_results s !! i = Some (Some res).

Lemma lazy_transfer mvs i tx out db : execute_reads display vm mvs i tx = Ok (out, db) ->
  is_lazy db = true -> to_code_hash db = None /\ transact_to tx <> Create.
Proof.
  intros (db0 & Hnew%map_err_ok & Hrun%map_err_ok)%outcome_bind_ok.
  destruct (tx_hashes _ _ _ _ _ _ Hnew) as (Hh & _).
  pose proof (run_evm_extends _ _ _ _ _ _ _ _ Hh Hrun) as He.
  rewrite (ext_lazy _ _ He), (ext_code _ _ He). by eapply VmDb_new_lazy.
Qed.

Lemma valid_serialised s i tx : pinv display vm s -> hash_injective ->
  content_addressed (vm_storage vm) (new_bytecodes (mem s)) -> settled s i ->
  (forall ll, last_locations (mem s) !! i = Some ll -> validate_read_locations (mem s) i = Some true) ->
  vm_txs vm !! i = Some tx -> serialised s i tx.
Proof.
  intros Hp Hinj Hcodes Hset Hval Htx.
  destruct (pi_logged _ _ _ Hp i Hset)
    as (mvs & mv & v & res & mv' & r & l1 & db & ws & ops & Hsn & <- & Hx & (ll & Hll & Hrs & _) & Hres & Hent & Hops).
  destruct (ex_reads _ _ _ _ _ _ _ _ _ _ _ _ Hx) as (tx' & Htx' & Hreads). simplify_eq.
  destruct (ex_writes _ _ _ _ _ _ _ _ _ _ _ _ Hx) as (tx' & ws0 & codes & Htx'' & Hws & Hrw & addrs & -> & _).
  simplify_eq.
  destruct (mem0_new vm) as (est & lz & Hm0). pose proof (pi_mem _ _ _ Hp) as Hmem. rewrite Hm0 in Hmem.
  exists v, r, l1, db, ws0, ws, (new_bytecodes mv), codes, (execution_result res).
  split; [done|]. split; [|split; [|split; [done|split; [|split; [done|split; [done|split; [|done]]]]]]].
  - apply (execution_replays display vm (block_len vm) est lz (history s) mvs (mem s) (tx_idx v) tx _ db ll);
      try done.
    + apply (ro_nodup _ (pi_once _ _ _ Hp)).
    + destruct Hsn as (n & _ & Hn). intros k. destruct (Hn k) as [_ Hk]. rewrite Hm0 in Hk.
      exists (take (n k) (history s)), (drop (n k) (history s)). by rewrite take_drop.
    + apply (moments_codes_stable display vm (mem0 vm) (history s)); try done;
        [apply codes_known_0|apply Hp|apply Hp].
    + by eapply Hval.
  - by eapply lazy_transfer.
  - apply (installed_codes_stay (mem0 vm) (history s)); [apply codes_known_0|apply Hp|apply Hp|].
    apply Hops. by left.
  - exact (ex_result _ _ _ _ _ _ _ _ _ _ _ _ Hx).
Qed.

Lemma joined_serialised level s : (Z.of_nat (block_len vm) < 2 ^ 64)%Z -> 0 < level -> hash_injective ->
  preachable display vm kept level s -> content_addressed (vm_storage vm) (new_bytecodes (mem s)) ->
  abort_reason s = None -> all_exited s ->
  (forall i tx, transactions_status (sched (base s)) !! i = Some tx -> status tx = Validated) /\
  forall i tx, vm_txs vm !! i = Some tx -> serialised s i tx.
Proof.
  intros Hlen Hlevel Hinj Hr Hcodes Hna Hex.
  destruct (preachable_pinv display vm kept level s Hlen Hlevel Hr Hna) as [Hp He].
  destruct (exited_all_valid s Hp He Hna Hex) as [Hst Hval]. split; [done|]. intros i tx Htx.
  assert (i < block_len vm) as Hi by by eapply lookup_lt_Some.
  destruct (sized_lookup (sched (base s)) i) as [txs Htxs]; [apply Hp|by rewrite (pi_size _ _ _ Hp)|].
  apply valid_serialised; try done; [|by intros ll Hll; by eapply Hval].
  left. exists txs. split; [done|right; by eapply Hst].
Qed.

(** The parallel execution of a block is serialised in block order.  Whatever
    the interleaving of the workers, and whatever moments their reads saw, when
    all of them have left the loop and nothing aborted it, every transaction is
    validated and the state is a fixed point of sequential execution: executing
    transaction [i] on the final memory, where it reads the last writes of the
    transactions below it, gives exactly the recorded result, and the values the
    memory holds for [i] are exactly the writes of that execution. *)
Theorem parallel_serialised level s
  (Hlen : (Z.of_nat (block_len vm) < 2 ^ 64)%Z) (Hlevel : 0 < level)
  (Hinj : hash_injective)
  (Hr : preachable display vm kept level s)
  (Hcodes : content_addressed (vm_storage vm) (new_bytecodes (mem s)))
  (Hna : abort_reason s = None) (Hex : all_exited s) :
  (forall i tx, transactions_status (sched (base s)) !! i = Some tx -> status tx = Validated) /\
  forall i tx, vm_txs vm !! i = Some tx -> serialised s i tx.
Proof. by eapply joined_serialised. Qed.

(** C19: no stale read is forgotten.  At every moment of a running block, a read
    of an executed or validated transaction that would not validate any more is
    still going to be looked at: the validation counter is not past the
    transaction, a worker is about to check that read, or a worker that changed
    the memory below is about to lower the counter. *)
Theorem stale_reads_are_covered level s i tx ll loc os
  (Hlen : (Z.of_nat (block_len vm) < 2 ^ 64)%Z) (Hlevel : 0 < level)
  (Hr : preachable display vm kept level s) (Hna : abort_reason s = None)
  (Htx : transactions_status (sched (base s)) !! i = Some tx) (Hst : done_status (status tx))
  (Hll : last_locations (mem s) !! i = Some ll) (Hos : read ll !! loc = Some os)
  (Hstale : validate_location (mem s) i loc os = false) :
  validation_idx (sched (base s)) <= i \/
  exists w x ph, workers (base s) !! w = Some x /\ phases s !! w = Some ph /\ covers i loc os x ph.
Proof.
  destruct (preachable_pinv display vm kept level s Hlen Hlevel Hr Hna) as [Hp _].
  destruct (pi_covered _ _ _ Hp i loc os) as [?|?]; [by exists tx|by exists ll|congruence|done].
Qed.

(** The values in the memory belong to executions that stand.  At every
    moment a transaction that has a value in the memory is executed or validated,
    or its worker has just recorded it, or the worker that aborted it is about to
    turn its writes into estimates; so an aborted transaction that waits for its
    next incarnation has estimates only. *)
Theorem values_belong_to_executions level s loc i inc x
  (Hlen : (Z.of_nat (block_len vm) < 2 ^ 64)%Z) (Hlevel : 0 < level)
  (Hr : preachable display vm kept level s) (Hna : abort_reason s = None)
  (Hx : entry (data (mem s)) loc i = Some (Data inc x)) :
  (exists tx, transactions_status (sched (base s)) !! i = Some tx /\ done_status (status tx)) \/
  exists w y ph, workers (base s) !! w = Some y /\ phases s !! w = Some ph /\ dirties i y ph.
Proof.
  destruct (preachable_pinv display vm kept level s Hlen Hlevel Hr Hna) as [Hp _].
  by apply (pi_values _ _ _ Hp) in Hx.
Qed.

(** In every reachable state the versions recorded so far are distinct, and
    the memory is what recording them and estimating the aborted ones makes of
    the fresh one; so it is well formed. *)
Theorem versions_recorded_once level s
  (Hlen : (Z.of_nat (block_len vm) < 2 ^ 64)%Z) (Hlevel : 0 < level)
  (Hr : preachable display vm kept level s) (Hna : abort_reason s = None) :
  NoDup (recorded (history s)) /\ apply_ops (mem0 vm) (history s) = Some (mem s) /\ mv_wf (mem s) /\
  forall v, v ∈ recorded (history s) -> v ∈ dispatched (base s).
Proof.
  destruct (preachable_pinv display vm kept level s Hlen Hlevel Hr Hna) as [Hp _].
  pose proof (pinv_wf _ _ _ Hp). destruct Hp as [? ? ? ? ? ? ? ? [? ? ? ?] ? ? ?]. done.
Qed.
End Spec.

(** ** Witnesses

    A schedule: the worker that moves at each step, every read seeing the memory
    of the moment its execution is recorded. *)
Section Drive.
Context {P : Platform} {E : Type} (display : E -> string) {SpecId : Type}.
Context (vm : Vm (P := P) (E := E) SpecId).
Context (kept : list (option PexeTxExecutionResult)).
Implicit Types s t : pstate (P := P).

Definition drive_step s (w : nat) : option (pstate (P := P)) :=
  x ← workers (base s) !! w;
  ph ← phases s !! w;
  match x, ph with
  | Idle, _ =>
      '(r, sc) ← next_task_iter (sched (base s));
      Some (with_base (moved (base s) sc w (after_iter r) (iter_task r) []) w Plain s)
  | HasTask (Execution v), Plain =>
      match execute display vm (fun _ => mem s) (mem s) v with
      | Ok (res, mv') => Some (mkPstate (base s) mv' (<[w := Recorded (flags res)]> (phases s))
          (<[tx_idx v := Some (execution_result res)]> (execution_results s)) (abort_reason s) (history s))
      | _ => None
      end
  | HasTask (Execution v), Recorded flags =>
      '(t, sc) ← finish_execution (sched (base s)) v flags;
      Some (with_base (moved (base s) sc w (after_task t) t []) w Plain s)
  | HasTask (Validation v), Plain =>
      ll ← last_locations (mem s) !! tx_idx v;
      Some (with_base (base s) w (Validating (map_to_list (read ll))) s)
  | HasTask (Validation v), Validating [] =>
      Some (with_base (moved (base s) (sched (base s)) w (Checked v false) None []) w Plain s)
  | HasTask (Validation v), Validating ((loc, os) :: todo) =>
      if validate_location (mem s) (tx_idx v) loc os
      then Some (with_base (base s) w (Validating todo) s)
      else
        tx ← transactions_status (sched (base s)) !! tx_idx v;
        '(won, sc) ← try_validation_abort (sched (base s)) v;
        Some (with_base (moved (base s) sc w (Checked v won) None
          (if won : bool then [version_of (tx_idx v) tx] else [])) w Plain s)
  | Checked v true, Plain =>
      mv' ← convert_writes_to_estimates (mem s) (tx_idx v);
      Some (mkPstate (base s) mv' (<[w := Converted]> (phases s)) (execution_results s)
        (abort_reason s) (history s))
  | Checked v true, Converted | Checked v false, Plain =>
      let won := match x with Checked _ won => won | _ => false end in
      '(t, sc) ← finish_validation (sched (base s)) v won;
      Some (with_base (moved (base s) sc w (after_task t) t []) w Plain s)
  | _, _ => None
  end.

(** Everything but the ghost. *)
Definition same_state s t : Prop :=
  base s = base t /\ mem s = mem t /\ phases s = phases t /\
  execution_results s = execution_results t /\ abort_reason s = abort_reason t.

Lemma drive_step_pstep s0 s w t : pinv display vm s -> same_state s s0 -> drive_step s0 w = Some t ->
  exists s', pstep display vm s s' /\ same_state s' t /\ abort_reason s' = abort_reason s.
Proof.
  intros Hp (Hb & Hm & Hphs & Hres & Har). unfold drive_step. rewrite <- Hb, <- Hm, <- Hphs, <- Hres, <- Har.
  assert (seen vm (history s) (fun _ => mem s)) as Hseen.
  { exists (fun _ => length (history s)). split; [done|]. intros _. split; [done|].
    rewrite firstn_all. apply Hp. }
  assert (forall b b' ph, b = b' -> same_state (with_base b w ph s) (with_base b' w ph s0)) as Hsame
    by (intros b b' ph ->; repeat split; cbn; congruence).
  destruct (workers (base s) !! w) as [x|] eqn:Hw; cbn; [|done].
  destruct (phases s !! w) as [ph|] eqn:Hph; cbn; [|done]. destruct x as [|[v|v]|v [|]|left].
  - destruct (next_task_iter _) as [[r sc]|] eqn:Hn; cbn; [|done]. intros [= <-].
    eexists. split; [by eapply p_next|split; [by apply Hsame|done]].
  - destruct ph as [|fl| |]; try done.
    + destruct (execute display vm _ _ v) as [[res mv']|e|] eqn:Hx; try done. intros [= <-].
      destruct (execute_execution _ _ _ _ _ _ _ Hx) as (r & l1 & db & ws & ops & He).
      eexists. split; [by eapply p_record|]. by repeat split.
    + destruct (finish_execution _ _ _) as [[t' sc]|] eqn:Hn; cbn; [|done]. intros [= <-].
      eexists. split; [by eapply p_finish|split; [by apply Hsame|done]].
  - destruct ph as [| |[|[loc os] todo]|]; try done.
    + destruct (last_locations _ !! _) as [ll|] eqn:Hll; cbn; [|done]. intros [= <-].
      eexists. split; [by eapply p_validate_start|split; [by apply Hsame|done]].
    + intros [= <-]. eexists. split; [by eapply p_validate_pass|split; [by apply Hsame|done]].
    + destruct (validate_location _ _ _ _) eqn:Hv.
      { intros [= <-]. eexists. split; [by eapply p_validate_location|split; [by apply Hsame|done]]. }
      destruct (transactions_status _ !! _) as [tx|] eqn:Htx; cbn; [|done].
      destruct (try_validation_abort _ _) as [[won sc]|] eqn:Hn; cbn; [|done]. intros [= <-].
      eexists. split; [by eapply p_validate_fail|split; [by apply Hsame|done]].
  - destruct ph as [| | |]; try done.
    + destruct (convert_writes_to_estimates _ _) as [mv'|] eqn:Hn; cbn; [|done]. intros [= <-].
      eexists. split; [by eapply p_convert|]. by repeat split.
    + destruct (finish_validation _ _ _) as [[t' sc]|] eqn:Hn; cbn; [|done]. intros [= <-].
      eexists. split; [by eapply p_finish_validation|split; [by apply Hsame|done]].
  - destruct ph as [| | |]; try done.
    destruct (finish_validation _ _ _) as [[t' sc]|] eqn:Hn; cbn; [|done]. intros [= <-].
    eexists. split; [by eapply p_finish_validation|split; [by apply Hsame|done]].
  - by destruct ph.
Qed.

Fixpoint drive_all s (schedule : list nat) : option (pstate (P := P)) :=
  match schedule with
  | [] => Some s
  | w :: schedule => s' ← drive_step s w; drive_all s' schedule
  end.

Lemma drive_all_reachable level schedule s0 s t :
  (Z.of_nat (block_len vm) < 2 ^ 64)%Z -> 0 < level ->
  preachable display vm kept level s -> abort_reason s = None -> same_state s s0 ->
  drive_all s0 schedule = Some t ->
  exists s', preachable display vm kept level s' /\ abort_reason s' = None /\ same_state s' t.
Proof.
  intros Hlen Hlv. revert s0 s. induction schedule as [|w schedule IH]; intros s0 s Hr Ha Hs; cbn.
  { intros [= <-]. by exists s. }
  destruct (drive_step s0 w) as [s1|] eqn:Hd; cbn; [|done]. intros H.
  destruct (preachable_pinv display vm kept level s Hlen Hlv Hr Ha) as [Hp _].
  destruct (drive_step_pstep _ _ _ _ Hp Hs Hd) as (s' & Hstep & Hs' & Ha').
  eapply (IH s1 s'); [by eapply rtc_r|congruence|done|done].
Qed.

Definition scheduled level (schedule : list nat) : pstate (P := P) :=
  default (pinit (E := E) vm kept level) (drive_all (pinit (E := E) vm kept level) schedule).

Lemma scheduled_reachable level schedule :
  (Z.of_nat (block_len vm) < 2 ^ 64)%Z -> 0 < level ->
  is_Some (drive_all (pinit (E := E) vm kept level) schedule) ->
  exists s, preachable display vm kept level s /\ abort_reason s = None /\ same_state s (scheduled level schedule).
Proof.
  intros Hlen Hlv [t Ht]. unfold scheduled. rewrite Ht.
  by eapply (drive_all_reachable level schedule (pinit vm kept level) (pinit vm kept level)); [..|apply rtc_refl| | |].
Qed.
End Drive.

(** Two transactions that read slot 0 of account 9 and write back one more.
    Worker 1 executes transaction 1 too early, reading the storage; its
    validation fails after transaction 0 has written, and it runs again. *)
Section Demo.
#[local] Existing Instance demo.

Definition counter_result (v : U256) : ResultAndState :=
  mkResultAndState (mkExecutionResult true (21000 + v) [])
    [(9, mkAccount (mkAccountInfo 0 0 0 None) false true false [(0, (v, v + 1))])]%Z.

Definition counter_chain : PexeChain unit := {|
  is_eip_1559_enabled _ := true;
  is_eip_161_enabled _ := true;
  get_reward_policy := Ethereum;
  build_evm _ _ _ tx := EvmStorage 9 0 (fun v => EvmDone (inr (counter_result v), None));
  calculate_tx_l1_cost _ _ _ := 0%Z;
  mv_estimates b txs := ([(hash_deterministic (Basic (coinbase b)), seq 0 (length txs))], [coinbase b]);
|}.

Definition counter_vm : Vm unit :=
  Vm_new demo_storage counter_chain (demo_block_env 3 2) [demo_tx; demo_tx] tt.

Definition conflict_schedule : list nat := [0; 1; 1; 1; 0].
Definition full_schedule : list nat :=
  conflict_schedule ++ [0; 1; 1; 1; 1; 1; 1; 1; 1; 1; 1; 1; 1; 1; 1; 0; 0; 0; 0; 0; 1].

Lemma demo_reachable schedule :
  is_Some (drive_all no_error counter_vm (pinit (E := Empty_set) counter_vm [] 2) schedule) ->
  exists s, preachable no_error counter_vm [] 2 s /\ abort_reason s = None /\
    same_state s (scheduled no_error counter_vm [] 2 schedule).
Proof. intros H. by apply scheduled_reachable; [vm_compute|lia|]. Qed.

Lemma demo_content codes : content_addressed demo_storage codes.
Proof. intros a h. cbn. by rewrite lookup_empty. Qed.

Lemma parallel_serialised_witness :
  exists s, preachable no_error counter_vm [] 2 s /\ all_exited s /\ serialised no_error counter_vm s 1 demo_tx /\
    option_map (option_map (fun res => cumulative_gas_used (receipt res))) (execution_results s !! 1) =
      Some (Some 21001%Z).
Proof.
  destruct (demo_reachable full_schedule) as (s & Hr & Ha & Hb & Hm & _ & Hres & _).
  { eexists. vm_compute. reflexivity. }
  assert (all_exited s) as Hex.
  { unfold all_exited. rewrite Hb. intros w x Hw. vm_compute in Hw.
    destruct w as [|[|w]]; [injection Hw as <-; by eexists..|done]. }
  exists s. split; [exact Hr|]. split; [exact Hex|]. split.
  - refine (proj2 (parallel_serialised no_error counter_vm [] 2 s _ _ demo_hash_injective Hr
      (demo_content _) Ha Hex) 1 demo_tx _); [by vm_compute|lia|by vm_compute].
  - rewrite Hres. by vm_compute.
Defined.

(** Transaction 0 has just recorded its write; transaction 1 has read the storage. *)
Lemma stale_reads_are_covered_witness :
  exists s, preachable no_error counter_vm [] 2 s /\
    validate_location (mem s) 1 (hash_deterministic (StorageLoc 9 0)) [FromStorage] = false /\
    (validation_idx (sched (base s)) <= 1 \/
     exists w x ph, workers (base s) !! w = Some x /\ phases s !! w = Some ph /\
       covers 1 (hash_deterministic (StorageLoc 9 0)) [FromStorage] x ph).
Proof.
  destruct (demo_reachable conflict_schedule) as (s & Hr & Ha & Hb & Hm & _).
  { eexists. vm_compute. reflexivity. }
  assert (validate_location (mem s) 1 (hash_deterministic (StorageLoc 9 0)) [FromStorage] = false) as Hst
    by (rewrite Hm; by vm_compute).
  exists s. split; [exact Hr|]. split; [exact Hst|].
  refine (stale_reads_are_covered no_error counter_vm [] 2 s 1 {| incarnation := 0; status := Executed |} _ _ _
    _ _ Hr Ha _ _ _ _ Hst); [by vm_compute|lia|rewrite Hb; by vm_compute|by left|rewrite Hm; by vm_compute|].
  by vm_compute.
Defined.

Lemma values_belong_to_executions_witness :
  exists s, preachable no_error counter_vm [] 2 s /\
    entry (data (mem s)) (hash_deterministic (StorageLoc 9 0)) 0 = Some (Data 0 (VStorage 1)) /\
    ((exists tx, transactions_status (sched (base s)) !! 0 = Some tx /\ done_status (status tx)) \/
     exists w y ph, workers (base s) !! w = Some y /\ phases s !! w = Some ph /\ dirties 0 y ph).
Proof.
  destruct (demo_reachable conflict_schedule) as (s & Hr & Ha & Hb & Hm & _).
  { eexists. vm_compute. reflexivity. }
  assert (entry (data (mem s)) (hash_deterministic (StorageLoc 9 0)) 0 = Some (Data 0 (VStorage 1))) as He
    by (rewrite Hm; by vm_compute).
  exists s. split; [exact Hr|]. split; [exact He|].
  refine (values_belong_to_executions no_error counter_vm [] 2 s _ 0 0 _ _ _ Hr Ha He); [by vm_compute|lia].
Defined.

Lemma versions_recorded_once_witness :
  exists s, preachable no_error counter_vm [] 2 s /\ NoDup (recorded (history s)).
Proof.
  destruct (demo_reachable full_schedule) as (s & Hr & Ha & _).
  { eexists. vm_compute. reflexivity. }
  exists s. split; [exact Hr|].
  apply (versions_recorded_once no_error counter_vm [] 2 s); [by vm_compute|lia|exact Hr|exact Ha].
Defined.
End Demo.
