(* ===== verification/ParallelProgress.v ===== *)
(** * ParallelProgress: the block can always be finished (pexe.rs)

    From every reachable state of a running block the workers can still leave the
    loop without an abort, provided that a transaction executes once everything
    below it is settled.  In contrast to SchedulerProgress.v nothing is chosen here
    but the interleaving: what an execution answers depends on the memory, so a
    worker must not run an execution too early.  The schedule brings every worker
    to the start of its task and then settles the transactions from the first on:
    the lowest one that is not settled is executing, and then executed on the
    settled memory; or aborted, and then readied; or ready or stale, and then some
    worker can turn to it (SchedulerLow.v).  A lexicographic measure ends it. *)

From S2P Require Import Prelude Types Scheduler SchedulerSystem SchedulerTheorems SchedulerLow SchedulerProgress.
From S2P Require Import Platform Storage MvMemory MvMemorySpec VmDb VmDbLemmas VmDbReplay Vm VmSpec.
From S2P Require Import ParallelCodes ParallelSystem ParallelInv ParallelSpec.
#[local] Open Scope nat_scope.

Section Progress.
Context {P : Platform} {E : Type} (display : E -> string) {SpecId : Type}.
Context (vm : Vm (P := P) (E := E) SpecId).
Context (kept : list (option PexeTxExecutionResult)).
Context (level : nat) (Hlen : (Z.of_nat (block_len vm) < 2 ^ 64)%Z) (Hlevel : 0 < level).
Implicit Types s : pstate (P := P).

(** ** Phases fit their workers *)

Definition phase_fits (x : worker) (ph : phase) : Prop :=
  match x, ph with
  | _, Plain | HasTask (Execution _), Recorded _ | HasTask (Validation _), Validating _
  | Checked _ true, Converted => True
  | _, _ => False
  end.

Lemma plain_fits x : phase_fits x Plain.
Proof. by destruct x as [|[]|? []|]. Qed.

Definition phases_fit s : Prop :=
  forall w x ph, workers (base s) !! w = Some x -> phases s !! w = Some ph -> phase_fits x ph.

Lemma phases_fit_step s s' : phases_fit s -> pstep display vm s s' -> phases_fit s'.
Proof.
  intros Hf Hs.
  assert (forall w x ph (l : list worker), <[w := x]> (workers (base s)) = l -> phase_fits x ph ->
    forall w2 x2 ph2, l !! w2 = Some x2 -> <[w := ph]> (phases s) !! w2 = Some ph2 -> phase_fits x2 ph2) as Hupd.
  { intros w x ph l <- Hx w2 x2 ph2 H1 H2. apply list_lookup_insert_Some in H1, H2.
    destruct H1 as [(-> & -> & _)|[? H1]], H2 as [(Hw & -> & _)|[? H2]]; try done. by eapply Hf. }
  assert (forall w x (l : list worker), l !! w = Some x -> <[w := x]> l = l) as Hid by (intros; by apply list_insert_id).
  destruct Hs; unfold phases_fit; cbn; eapply Hupd; (reflexivity || (apply Hid; eassumption) || idtac);
    try apply plain_fits; done.
Qed.

(** ** A running block *)

Definition running s : Prop := preachable display vm kept level s /\ abort_reason s = None.

Record live s : Prop := mkLive {
  lv_pinv : pinv display vm s;
  lv_exit : exit_ok (base s);
  lv_fit : phases_fit s;
  lv_low : some_low (base s);
}.

Lemma pinv_not_aborted s : pinv display vm s -> abort_reason s = None -> aborted (sched (base s)) = false.
Proof.
  intros Hp Ha. pose proof (pi_stopped _ _ _ Hp) as Hn. unfold not_stopped in Hn.
  destruct (aborted _); [by destruct (Hn eq_refl)|done].
Qed.

Lemma running_live s : running s -> live s.
Proof.
  intros [Hr Ha]. destruct (preachable_pinv display vm kept level s Hlen Hlevel Hr Ha) as [Hp He].
  assert (phases_fit s /\ some_low (base s)) as [Hf Hl]; [|by split].
  clear Hp He. revert s Hr Ha.
  refine (rtc_ind_r (fun s => abort_reason s = None -> phases_fit s /\ some_low (base s)) _ _ _).
  - intros _. split; [|by apply init_low]. cbn. intros w x ph [-> _]%lookup_replicate [-> _]%lookup_replicate. done.
  - intros s1 s2 Hr Hs IH Ha. pose proof (abort_reason_stays _ _ _ _ Hs Ha) as Ha1. destruct (IH Ha1) as [Hf Hl].
    split; [by eapply phases_fit_step|].
    destruct (preachable_pinv display vm kept level s1 Hlen Hlevel Hr Ha1) as [Hp1 He1].
    destruct (preachable_pinv display vm kept level s2 Hlen Hlevel (rtc_r _ _ _ Hr Hs) Ha) as [Hp2 _].
    destruct (pstep_base display vm s1 s2 (fun H => match H Ha1 with end) Hs) as [Hst| ->]; [|done].
    eapply step_low; [apply Hp1|done|done|by apply pinv_not_aborted|done].
Qed.

Lemma running_step s s' : running s -> pstep display vm s s' -> abort_reason s' = abort_reason s -> running s'.
Proof. intros [Hr Ha] Hs Heq. split; [by eapply rtc_r|congruence]. Qed.

Lemma running_inv s : running s -> inv (base s) /\ aborted (sched (base s)) = false.
Proof.
  intros Hrun. pose proof (running_live _ Hrun) as Hl. split; [apply Hl|].
  apply pinv_not_aborted; [apply Hl|apply Hrun].
Qed.

(** [s'] is a running state that [s] can come to. *)
Definition comes s s' : Prop := rtc (pstep display vm) s s' /\ running s'.

Lemma comes_refl s : running s -> comes s s.
Proof. by split. Qed.

Lemma comes_step s s' s'' : running s -> pstep display vm s s' -> abort_reason s' = abort_reason s ->
  (running s' -> comes s' s'') -> comes s s''.
Proof.
  intros Hrun Hs Heq Hgo. destruct Hgo as [Hr Hrun']; [by eapply running_step|].
  split; [by eapply rtc_l|done].
Qed.

Lemma comes_once s s' : running s -> pstep display vm s s' -> abort_reason s' = abort_reason s -> comes s s'.
Proof. intros Hrun Hs Heq. by eapply comes_step; [..|apply comes_refl]. Qed.

Lemma comes_trans s s' s'' : comes s s' -> comes s' s'' -> comes s s''.
Proof. intros [H1 _] [H2 ?]. split; [by etrans|done]. Qed.

(** What the current memory gives is something an execution may see. *)
Lemma seen_now s : running s -> seen vm (history s) (fun _ => mem s).
Proof.
  intros Hrun. exists (fun _ => length (history s)). split; [done|]. intros _. split; [done|].
  rewrite firstn_all. apply running_live in Hrun as []. apply lv_pinv0.
Qed.

(** ** To the start of the tasks *)

Definition all_plain (l : list phase) : Prop := forall w ph, l !! w = Some ph -> ph = Plain.

Definition calm s : Prop := all_plain (phases s).

Definition phase_weight (ph : phase) : nat :=
  match ph with Plain => 0 | Recorded _ | Converted => 1 | Validating todo => S (length todo) end.

Lemma unfinished_step s w x ph : running s -> workers (base s) !! w = Some x -> phases s !! w = Some ph ->
  ph <> Plain -> exists s' ph', pstep display vm s s' /\ abort_reason s' = abort_reason s /\
    phases s' = <[w := ph']> (phases s) /\ phase_weight ph' < phase_weight ph.
Proof.
  intros Hrun Hw Hph Hne. destruct (running_inv _ Hrun) as [Hi _].
  pose proof (inv_call_defined _ _ _ Hi Hw) as Hd.
  pose proof (lv_fit _ (running_live _ Hrun) _ _ _ Hw Hph) as Hf.
  destruct x as [|[v|v]|v won|left], ph as [|fl|[|[loc os] todo]|]; try done; cbn in Hd; try by destruct won.
  - destruct Hd as [_ Hd]. destruct (Hd fl) as [[t sc] Hsc].
    eexists _, Plain. split; [by eapply p_finish|]. repeat split. cbn. lia.
  - eexists _, Plain. split; [by eapply p_validate_pass|]. repeat split. cbn. lia.
  - destruct (validate_location (mem s) (tx_idx v) loc os) eqn:Hv.
    + eexists _, (Validating todo). split; [by eapply p_validate_location|]. repeat split. cbn. lia.
    + destruct Hd as [[won sc] Hsc].
      destruct (sized_lookup _ (tx_idx v) (inv_sized _ Hi) (inv_range _ Hi _ _ Hw)) as [tx Htx].
      eexists _, Plain. split; [by eapply p_validate_fail|]. repeat split. cbn. lia.
  - destruct won; [|done]. destruct Hd as [[t sc] Hsc].
    eexists _, Plain. split; [by eapply p_finish_validation|]. repeat split. cbn. lia.
Qed.

Lemma find_unfinished (l : list phase) :
  (exists w ph, l !! w = Some ph /\ ph <> Plain) \/ all_plain l.
Proof.
  induction l as [|ph l IH]; [by right|]. destruct (decide (phase_weight ph = 0)) as [H|H].
  - destruct ph; try done. destruct IH as [(w & ph & Hw & Hph)|Hall]; [left; by exists (S w), ph|].
    right. intros [|w] ph; cbn; [by intros [= <-]|by apply Hall].
  - left. exists 0, ph. split; [done|]. by intros ->.
Qed.

Lemma calm_down s : running s -> exists s', comes s s' /\ calm s'.
Proof.
  remember (Prelude.sum_map phase_weight (phases s)) as k eqn:Hk. revert s Hk.
  induction k as [k IH] using lt_wf_ind. intros s -> Hrun.
  destruct (find_unfinished (phases s)) as [(w & ph & Hph & Hne)|Hcalm]; [|exists s; split; [by apply comes_refl|done]].
  destruct (lookup_lt_is_Some_2 (workers (base s)) w) as [x Hw].
  { rewrite <- (pi_phases _ _ _ (lv_pinv _ (running_live _ Hrun))). by eapply lookup_lt_Some. }
  destruct (unfinished_step _ _ _ _ Hrun Hw Hph Hne) as (s1 & ph1 & Hs & Ha & Hphs & Hlt).
  pose proof (sum_map_insert phase_weight _ w ph ph1 Hph) as Hsum.
  destruct (IH (Prelude.sum_map phase_weight (phases s1))) with (s := s1) as (s' & Hc & Hcalm);
    [rewrite Hphs; lia|done|by eapply running_step|].
  exists s'. split; [|done]. by eapply comes_step.
Qed.
(** ** Settled transactions *)

(** Transaction [i] is done and every read of it is still what it was. *)
Definition firm s (i : TxIdx) : Prop :=
  status_done (sched (base s)) i /\
  forall loc os, reads s i loc os -> validate_location (mem s) i loc os = true.

Definition firm_below s (p : TxIdx) : Prop := forall i, i < p -> firm s i.

(** How far a transaction is from being settled. *)
Definition stage (tx : TxStatus) : nat :=
  match status tx with
  | Executed | Validated => 4
  | Aborting => 3
  | ReadyToExecute => 2
  | Executing => 1
  end.

Definition rank s (p : TxIdx) : nat := from_option stage 0 (transactions_status (sched (base s)) !! p).

Lemma stage_done tx : stage tx = 4 <-> done_status (status tx).
Proof. unfold stage, done_status. destruct (status tx); split; intros; (lia || naive_solver). Qed.

(** A scheduler call that at most dispatches transactions. *)
Definition same_stages (sc sc' : Scheduler) : Prop :=
  forall j tx, transactions_status sc !! j = Some tx -> exists tx', transactions_status sc' !! j = Some tx' /\
    (stage tx' = stage tx \/ stage tx = 2 /\ stage tx' = 1).

(** A step that settles nothing and unsettles nothing, but leads on. *)
Definition quiet s s' : Prop :=
  mem s' = mem s /\ same_stages (sched (base s)) (sched (base s')) /\ measure (base s') < measure (base s).

(** Nearer to the end than [s], whose transactions below [p] are firm. *)
Definition closer (p : TxIdx) s s' : Prop :=
  firm_below s' (S p) \/
  firm_below s' p /\ (rank s' p < rank s p \/ rank s' p = rank s p /\ measure (base s') < measure (base s)).

Lemma firm_same_memory s s' i : mem s' = mem s ->
  (status_done (sched (base s)) i -> status_done (sched (base s')) i) -> firm s i -> firm s' i.
Proof.
  intros Hm Hd [H1 H2]. split; [by apply Hd|]. intros loc os. unfold reads. rewrite Hm. apply H2.
Qed.

Lemma same_stages_done sc sc' i : same_stages sc sc' -> status_done sc i -> status_done sc' i.
Proof.
  intros Hs (tx & Htx & Hd). destruct (Hs _ _ Htx) as (tx' & Htx' & H). exists tx'. split; [done|].
  apply stage_done in Hd. apply stage_done. lia.
Qed.

Lemma quiet_firm s s' p : quiet s s' -> firm_below s p -> firm_below s' p.
Proof.
  intros (Hm & Hs & _) Hf i Hi. apply (firm_same_memory s); [done| |by apply Hf]. by apply same_stages_done.
Qed.

Lemma quiet_closer s s' p : quiet s s' -> firm_below s p -> p < length (transactions_status (sched (base s))) ->
  closer p s s'.
Proof.
  intros Hq Hf Hp. right. split; [by eapply quiet_firm|]. destruct Hq as (_ & Hs & Hm).
  destruct (lookup_lt_is_Some_2 _ _ Hp) as [tx Htx]. destruct (Hs _ _ Htx) as (tx' & Htx' & H).
  unfold rank. rewrite Htx, Htx'. cbn. destruct H as [->|[-> ->]]; [by right|left; lia].
Qed.

Lemma next_stages sc r sc' : sized sc -> aborted sc = false -> next_task_iter sc = Some (r, sc') -> same_stages sc sc'.
Proof.
  intros Hs Ha Hn. apply next_task_iter_cases in Hn; [|done|done].
  destruct Hn as [r _ _ _|i tx e va Htx Hst Hlt _|i tx va _ _ _ _|e va _]; intros j tx0 Hj; cbn; [by eauto| |by eauto..].
  destruct (decide (j = i)) as [->|Hne].
  - rewrite list_lookup_insert_eq by by eapply lookup_lt_Some. eexists. split; [done|]. right.
    rewrite Htx in Hj. injection Hj as <-. unfold stage. by rewrite Hst.
  - rewrite list_lookup_insert_ne by done. by eauto.
Qed.

Lemma finish_lost_stages sc v t sc' : finish_validation sc v false = Some (t, sc') -> same_stages sc sc'.
Proof.
  unfold finish_validation. destruct (transactions_status sc !! tx_idx v) as [tx|] eqn:Htx; cbn; [|done].
  case_decide as Hst; intros [= _ <-] j tx0 Hj; cbn; [|by eauto].
  destruct (decide (j = tx_idx v)) as [->|Hne]; [|rewrite list_lookup_insert_ne by done; by eauto].
  rewrite list_lookup_insert_eq by by eapply lookup_lt_Some. eexists. split; [done|]. left.
  rewrite Htx in Hj. injection Hj as <-. unfold stage. by rewrite Hst.
Qed.

Lemma finish_won_stage sc v t sc' : finish_validation sc v true = Some (t, sc') ->
  exists tx, transactions_status sc' !! tx_idx v = Some tx /\ stage tx <= 2.
Proof.
  unfold finish_validation, set_ready_status. destruct (transactions_status sc !! tx_idx v) as [tx|] eqn:Htx; cbn; [|done].
  pose proof (lookup_lt_Some _ _ _ Htx) as Hlt.
  destruct (_ <? _); [|intros [= _ <-]; cbn; rewrite list_lookup_insert_eq by done; by eauto].
  destruct (try_execute _ _) as [[o s1]|] eqn:T; cbn; [|done]. intros [= _ <-].
  apply try_execute_inv in T as [(tx1 & _ & _ & _ & _ & ->)|(_ & -> & _)]; cbn;
    rewrite list_lookup_insert_eq by (by rewrite ?length_insert); eexists; (split; [done|cbn; lia]).
Qed.

(** ** Tasks from their start to their end *)

Lemma calm_insert (l : list phase) w :
  (forall w2 ph, l !! w2 = Some ph -> w2 <> w -> ph = Plain) -> all_plain (<[w := Plain]> l).
Proof.
  intros Hl w2 ph [(_ & <- & _)|[Hne Hw2]]%list_lookup_insert_Some; [done|]. by eapply Hl.
Qed.

Lemma calm_phase s w x : live s -> calm s -> workers (base s) !! w = Some x -> phases s !! w = Some Plain.
Proof.
  intros Hl Hc Hw. destruct (lookup_lt_is_Some_2 (phases s) w) as [ph Hph].
  { rewrite (pi_phases _ _ _ (lv_pinv _ Hl)). by eapply lookup_lt_Some. }
  by rewrite Hph, (Hc _ _ Hph).
Qed.

Lemma running_locations s i : running s -> i < block_len vm -> is_Some (last_locations (mem s) !! i).
Proof.
  intros Hrun Hi. apply lookup_lt_is_Some. pose proof (running_live _ Hrun) as [Hp _ _ _].
  rewrite (history_length _ _ _ (pi_mem _ _ _ Hp)). destruct (mem0_new vm) as (est & lz & ->). cbn.
  by rewrite length_replicate.
Qed.

Lemma task_in_block s w x : running s -> workers (base s) !! w = Some x -> in_range (block_len vm) x.
Proof.
  intros Hrun Hw. pose proof (running_live _ Hrun) as [Hp _ _ _]. rewrite <- (pi_size _ _ _ Hp).
  exact (inv_range _ (pi_base _ _ _ Hp) _ _ Hw).
Qed.

(** *** Idle: one iteration of [next_task] *)
Lemma next_turn s w : running s -> calm s -> workers (base s) !! w = Some Idle ->
  (forall sc, next_task_iter (sched (base s)) <> Some (IterYield, sc)) ->
  exists s', comes s s' /\ calm s' /\ quiet s s'.
Proof.
  intros Hrun Hcalm Hw Hy. destruct (running_inv _ Hrun) as [Hi Ha].
  pose proof (inv_call_defined _ _ _ Hi Hw) as [[r sc] Hsc].
  eexists. split; [apply comes_once; [done|by eapply p_next|done]|]. split; [|split; [done|split]].
  - apply calm_insert. intros w2 ph Hph _. by eapply Hcalm.
  - by eapply next_stages; [apply (inv_sized _ Hi)|..].
  - apply (drive_next _ _ _ _ Hi Ha Hw Hsc). intros ->. by eapply Hy.
Qed.

(** *** Validation *)
Lemma check_reads s w v todo : running s -> workers (base s) !! w = Some (HasTask (Validation v)) ->
  phases s !! w = Some (Validating todo) ->
  exists s' todo', comes s s' /\ base s' = base s /\ mem s' = mem s /\ phases s' = <[w := Validating todo']> (phases s) /\
    ((todo' = [] /\ forall loc os, (loc, os) ∈ todo -> validate_location (mem s) (tx_idx v) loc os = true) \/
     exists loc os rest, todo' = (loc, os) :: rest /\ (loc, os) ∈ todo /\ validate_location (mem s) (tx_idx v) loc os = false).
Proof.
  revert s. induction todo as [|[loc os] todo IH]; intros s Hrun Hw Hph.
  { exists s, []. split; [by apply comes_refl|]. repeat split; [by rewrite list_insert_id|]. left. split; [done|].
    by intros loc os ?%elem_of_nil. }
  destruct (validate_location (mem s) (tx_idx v) loc os) eqn:Hv.
  - pose proof (p_validate_location display vm s w v loc os todo Hw Hph Hv) as Hs.
    destruct (IH _ (running_step _ _ Hrun Hs eq_refl) Hw) as (s' & todo' & Hc & Hb & Hm & Hphs & Hout).
    { cbn. apply list_lookup_insert_eq. by eapply lookup_lt_Some. }
    exists s', todo'. split; [eapply comes_step; [done|exact Hs|done|done]|]. split; [done|]. split; [done|].
    split; [rewrite Hphs; cbn; by rewrite list_insert_insert_eq|].
    destruct Hout as [[-> Hall]|(l & o & rest & -> & Hin & Hf)]; [left|right].
    + split; [done|]. intros l o [[= -> ->]|Hin]%elem_of_cons; [done|by apply Hall].
    + exists l, o, rest. split; [done|]. split; [by right|done].
  - exists s, ((loc, os) :: todo). split; [by apply comes_refl|]. repeat split; [by rewrite list_insert_id|].
    right. exists loc, os, todo. split; [done|]. split; [by left|done].
Qed.

Lemma validate_turn s w v : running s -> calm s -> workers (base s) !! w = Some (HasTask (Validation v)) ->
  status_done (sched (base s)) (tx_idx v) ->
  exists s', comes s s' /\ calm s' /\ mem s' = mem s /\
    (quiet s s' \/ ~ firm s (tx_idx v) /\ try_validation_abort (sched (base s)) v = Some (true, sched (base s'))).
Proof.
  intros Hrun Hcalm Hw (tx & Htx & Hd). destruct (running_inv _ Hrun) as [Hi Ha].
  pose proof (calm_phase _ _ _ (running_live _ Hrun) Hcalm Hw) as Hph.
  destruct (running_locations s (tx_idx v) Hrun (task_in_block _ _ _ Hrun Hw)) as [ll Hll].
  pose proof (p_validate_start display vm s w v ll Hw Hph Hll) as Hs1.
  pose proof (lookup_lt_Some _ _ _ Hph) as Hlt.
  pose proof (running_step _ _ Hrun Hs1 eq_refl) as Hrun1.
  destruct (check_reads _ w v _ Hrun1 Hw ltac:(by apply list_lookup_insert_eq)) as (s2 & todo' & Hc2 & Hb & Hm & Hphs & Hout).
  pose proof (comes_step _ _ _ Hrun Hs1 eq_refl (fun _ => Hc2)) as Hc. pose proof (proj2 Hc2) as Hrun2.
  cbn in Hb, Hm. cbn in Hphs. rewrite list_insert_insert_eq in Hphs.
  assert (phases s2 !! w = Some (Validating todo')) as Hph2 by (rewrite Hphs; by apply list_lookup_insert_eq).
  rewrite <- Hb in Hw.
  assert (forall w2 ph, phases s2 !! w2 = Some ph -> w2 <> w -> ph = Plain) as Hcalm2.
  { intros w2 ph Hw2 Hne. rewrite Hphs, list_lookup_insert_ne in Hw2 by done. by eapply Hcalm. }
  destruct Hout as [[-> Hall]|(loc & os & rest & -> & Hin & Hf)].
  - eexists. split; [eapply comes_trans; [exact Hc|]; apply comes_once; [done|by apply p_validate_pass|done]|].
    split; [by apply calm_insert|]. split; [done|]. left. split; [done|]. cbn -[measure moved]. rewrite Hb in Hw |- *. split.
    + intros j tx0 Hj. cbn. by eauto.
    + apply (measure_local _ _ _ _ _ _ _ Hw); cbn -[idle_measure Nat.mul]; try done. lia.
  - destruct (try_validation_abort (sched (base s)) v) as [[won sc]|] eqn:Hab.
    2: { revert Hab. unfold try_validation_abort. rewrite Htx. cbn. by repeat case_decide. }
    assert (won = true) as ->.
    { pose proof (fail_done _ _ _ _ _ Htx Hab) as [_ H]. destruct won; [done|]. destruct H as [_ H].
      exfalso. apply H. by exists tx. }
    rewrite <- Hb in Htx, Hab. cbn in Hf. rewrite <- Hm in Hf.
    pose proof (p_validate_fail display vm s2 w v loc os rest tx true sc Hw Hph2 Hf Htx Hab) as Hs2.
    eexists. split; [eapply comes_trans; [exact Hc|]; by apply (comes_once s2 _ Hrun2 Hs2)|].
    split; [by apply calm_insert|]. split; [done|]. right. split; [|cbn; by rewrite Hb in Hab]. intros [_ Hfirm].
    apply elem_of_map_to_list in Hin. rewrite Hm, Hfirm in Hf; [done|]. by exists ll.
Qed.

(** *** A lost validation *)
Lemma lost_turn s w v : running s -> calm s -> workers (base s) !! w = Some (Checked v false) ->
  exists s', comes s s' /\ calm s' /\ quiet s s'.
Proof.
  intros Hrun Hcalm Hw. destruct (running_inv _ Hrun) as [Hi Ha].
  pose proof (inv_call_defined _ _ _ Hi Hw) as [[t sc] Hsc].
  pose proof (calm_phase _ _ _ (running_live _ Hrun) Hcalm Hw) as Hph.
  eexists. split; [apply comes_once; [done|by eapply p_finish_validation|done]|]. split; [|split; [done|split]].
  - apply calm_insert. intros w2 ph Hw2 _. by eapply Hcalm.
  - by eapply finish_lost_stages.
  - by eapply drive_validated.
Qed.

(** *** A won validation: the writes become estimates, and the next incarnation is ready *)
Lemma abort_turn s w v : running s -> calm s -> workers (base s) !! w = Some (Checked v true) ->
  firm_below s (tx_idx v) ->
  exists s', comes s s' /\ calm s' /\ firm_below s' (tx_idx v) /\ rank s' (tx_idx v) <= 2.
Proof.
  intros Hrun Hcalm Hw Hfirm. destruct (running_inv _ Hrun) as [Hi Ha].
  pose proof (calm_phase _ _ _ (running_live _ Hrun) Hcalm Hw) as Hph.
  destruct (running_locations s (tx_idx v) Hrun (task_in_block _ _ _ Hrun Hw)) as [ll Hll].
  destruct (convert_full (mem s) (tx_idx v) ll Hll) as (d & Hcv & _).
  pose proof (p_convert display vm s w v _ Hw Hph Hcv) as Hs1.
  pose proof (running_step _ _ Hrun Hs1 eq_refl) as Hrun1.
  pose proof (inv_call_defined _ _ _ Hi Hw) as [[t sc] Hsc].
  pose proof (lookup_lt_Some _ _ _ Hph) as Hlt.
  match type of Hs1 with pstep _ _ _ ?s1 => pose proof (p_finish_validation display vm s1 w v true t sc Hw
    (list_lookup_insert_eq _ _ _ Hlt) Hsc) as Hs2 end.
  eexists. split; [eapply comes_step; [done|exact Hs1|done|]; intros _; by apply (comes_once _ _ Hrun1 Hs2)|].
  split; [|split].
  - apply calm_insert. cbn. intros w2 ph Hw2 Hne. rewrite list_lookup_insert_ne in Hw2 by done. by eapply Hcalm.
  - intros i Hlow. destruct (Hfirm i Hlow) as [Hd Hreads]. split.
    + by apply (proj1 (finish_validation_done _ _ _ _ _ _ Hi Hw Hsc)).
    + intros loc os (ll' & Hll' & Hos). cbn. eapply validate_location_stable; [eapply convert_stable; [exact Hcv|lia]|].
      apply Hreads. by exists ll'.
  - destruct (finish_won_stage _ _ _ _ Hsc) as (tx & Htx & Hst). unfold rank. cbn. by rewrite Htx.
Qed.

(** *** An execution on settled reads *)

(** Executing [v] now succeeds, and what it reads is what the memory holds. *)
Definition executes_cleanly s (v : TxVersion) : Prop :=
  exists res mv' r l1 db ws ops,
    execute display vm (fun _ => mem s) (mem s) v = Ok (res, mv') /\
    execution display vm (fun _ => mem s) (mem s) v res mv' r l1 db ws ops /\
    forall loc os, read_set db !! loc = Some os -> validate_location (mem s) (tx_idx v) loc os = true.

(** What the recording of an execution changes: nothing for the transactions up to it. *)
Lemma execution_stable s w v mvs res mv' r l1 db ws ops : pinv display vm s ->
  workers (base s) !! w = Some (HasTask (Execution v)) -> phases s !! w = Some Plain ->
  execution display vm mvs (mem s) v res mv' r l1 db ws ops ->
  exists ll', read ll' = read_set db /\ last_locations mv' = <[tx_idx v := ll']> (last_locations (mem s)) /\
    tx_idx v < length (last_locations (mem s)) /\ forall i loc, i <= tx_idx v -> stable (mem s) mv' i loc.
Proof.
  intros Hp Hw Hph Hx. destruct (ex_writes _ _ _ _ _ _ _ _ _ _ _ _ Hx) as (tx & ws0 & codes & _ & _ & _ & addrs & _ & Er).
  destruct (record_last_locations _ _ _ _ _ _ Er) as (ll' & Hrs & _ & Hll' & [ll0 Hll0]).
  exists ll'. split; [done|]. split; [done|]. split; [by eapply (lookup_lt_Some (last_locations (mem s)))|]. intros i loc Hle.
  change (stable (add_lazy_addresses (put_bytecodes codes (mem s)) addrs) mv' i loc).
  eapply record_stable; [|exact Er| |by left].
  - pose proof (pinv_wf _ _ _ Hp) as Hwf. by destruct Hwf.
  - by apply (holder_no_values s w v (pi_base _ _ _ Hp) (pi_values _ _ _ Hp) Hw Hph).
Qed.

Lemma execute_turn s w v : running s -> calm s -> workers (base s) !! w = Some (HasTask (Execution v)) ->
  firm_below s (tx_idx v) -> executes_cleanly s v ->
  exists s', comes s s' /\ calm s' /\ firm_below s' (S (tx_idx v)).
Proof.
  intros Hrun Hcalm Hw Hfirm (res & mv' & r & l1 & db & ws & ops & Hexe & Hx & Hclean).
  destruct (running_inv _ Hrun) as [Hi Ha]. pose proof (running_live _ Hrun) as Hl. pose proof (lv_pinv _ Hl) as Hp.
  pose proof (calm_phase _ _ _ Hl Hcalm Hw) as Hph.
  pose proof (p_record display vm s w v _ res mv' r l1 db ws ops Hw Hph (seen_now _ Hrun) Hexe Hx) as Hs1.
  pose proof (running_step _ _ Hrun Hs1 eq_refl) as Hrun1.
  pose proof (inv_call_defined _ _ _ Hi Hw) as [_ Hfin]. destruct (Hfin (flags res)) as [[t sc] Hsc].
  pose proof (lookup_lt_Some _ _ _ Hph) as Hlt.
  match type of Hs1 with pstep _ _ _ ?s1 => pose proof (p_finish display vm s1 w v (flags res) t sc Hw
    (list_lookup_insert_eq _ _ _ Hlt) Hsc) as Hs2 end.
  eexists. split; [eapply comes_step; [done|exact Hs1|done|]; intros _; by apply (comes_once _ _ Hrun1 Hs2)|].
  split.
  { apply calm_insert. cbn. intros w2 ph Hw2 Hne. rewrite list_lookup_insert_ne in Hw2 by done. by eapply Hcalm. }
  destruct (execution_stable s w v _ res mv' r l1 db ws ops Hp Hw Hph Hx) as (ll' & Hrs & Hll' & Hll0 & Hstable).
  destruct (finish_done _ _ _ _ _ _ Hi Hw Hsc) as (Hd & _ & _).
  intros i Hle. split.
  - cbn. apply Hd. destruct (decide (i = tx_idx v)) as [->|]; [by left|right]. apply (Hfirm i). lia.
  - intros loc os (ll & Hll & Hos). cbn in Hll |- *. rewrite Hll' in Hll.
    eapply validate_location_stable; [apply Hstable; lia|].
    destruct (decide (i = tx_idx v)) as [->|Hne].
    + rewrite list_lookup_insert_eq in Hll by done. injection Hll as <-. apply Hclean. by rewrite <- Hrs.
    + rewrite list_lookup_insert_ne in Hll by done. apply (Hfirm i); [lia|]. by exists ll.
Qed.

(** ** The lowest transaction that is not settled *)

(** A worker that is not busy with anything above moves on, or finds that a
    transaction is stale. *)
Definition turns s w : Prop :=
  (exists s', comes s s' /\ calm s' /\ quiet s s') \/
  exists s' v, comes s s' /\ calm s' /\ mem s' = mem s /\ workers (base s) !! w = Some (HasTask (Validation v)) /\
    ~ firm s (tx_idx v) /\ try_validation_abort (sched (base s)) v = Some (true, sched (base s')).

Lemma worker_turn s w x : running s -> calm s -> workers (base s) !! w = Some x ->
  match x with
  | Idle => forall sc, next_task_iter (sched (base s)) <> Some (IterYield, sc)
  | HasTask t => status_done (sched (base s)) (tx_idx (task_version t))
  | Checked v _ => status_done (sched (base s)) (tx_idx v)
  | Exited _ => False
  end -> turns s w.
Proof.
  intros Hrun Hcalm Hw Hx. destruct (running_inv _ Hrun) as [Hi Ha]. destruct x as [|[v|v]|v [|]|left]; [| | | | |done].
  - left. by eapply next_turn.
  - exfalso. destruct (holder_executing _ _ _ Hi Hw) as (tx & Htx & Hst & _).
    destruct Hx as (tx' & Htx' & Hd). cbn in Htx'. rewrite Htx in Htx'. injection Htx' as <-. by destruct Hd; congruence.
  - destruct (validate_turn s w v Hrun Hcalm Hw Hx) as (s' & Hc & Hcalm' & Hm & [Hq|[Hf Hab]]); [left; eauto|].
    right. by exists s', v.
  - exfalso. destruct (winner_aborting _ _ _ Hi Hw) as (tx & Htx & Hst).
    destruct Hx as (tx' & Htx' & Hd). rewrite Htx in Htx'. injection Htx' as <-. by destruct Hd; congruence.
  - left. by eapply lost_turn.
Qed.

(** A stale transaction is aborted. *)
Lemma turns_closer s w p : running s -> turns s w -> firm_below s p -> p < block_len vm ->
  (forall v, workers (base s) !! w = Some (HasTask (Validation v)) -> tx_idx v <= p) ->
  exists s', comes s s' /\ calm s' /\ closer p s s'.
Proof.
  intros Hrun Ht Hfirm Hp Hv. pose proof (running_live _ Hrun) as [Hpi _ _ _].
  assert (p < length (transactions_status (sched (base s)))) as Hlt.
  { destruct (inv_sized _ (pi_base _ _ _ Hpi)) as [-> _]. by rewrite (pi_size _ _ _ Hpi). }
  destruct Ht as [(s' & Hc & Hcalm & Hq)|(s' & v & Hc & Hcalm & Hm & Hw & Hnf & Hab)].
  { exists s'. split; [done|]. split; [done|by apply quiet_closer]. }
  assert (tx_idx v = p) as Hvp.
  { destruct (decide (tx_idx v = p)); [done|]. exfalso. apply Hnf, Hfirm. specialize (Hv _ Hw). lia. }
  exists s'. split; [done|]. split; [done|]. right. destruct (lookup_lt_is_Some_2 _ _ Hlt) as [tx Htx].
  pose proof Htx as Htx0. rewrite <- Hvp in Htx0. destruct (fail_done _ _ _ _ _ Htx0 Hab) as [_ Hd]. split.
  - intros i Hi. apply (firm_same_memory s); [done| |by apply Hfirm]. intros Hi'. apply Hd. split; [lia|done].
  - left. unfold rank. rewrite Htx. cbn. revert Hab. unfold try_validation_abort. rewrite Htx0. cbn.
    set (s1 := if decide (status tx = Validated) then _ else _).
    assert (transactions_status s1 = transactions_status (sched (base s))) as Hs1 by (subst s1; by case_decide).
    case_decide as Hdone; [|done]. intros [= <-]. cbn. rewrite Hs1, Hvp, list_lookup_insert_eq by done. cbn.
    assert (stage tx = 4) as -> by by apply stage_done. lia.
Qed.

(** The counters are at [p] or below: a low worker turns to it. *)
Lemma low_turn s p : running s -> calm s -> firm_below s p -> p < block_len vm ->
  execution_idx (sched (base s)) <= p \/ validation_idx (sched (base s)) <= p /\ status_done (sched (base s)) p ->
  exists s', comes s s' /\ calm s' /\ closer p s s'.
Proof.
  intros Hrun Hcalm Hfirm Hp Hidx. pose proof (running_live _ Hrun) as [Hpi _ _ (w & x & Hw & Hlow)].
  assert (forall i, near (sched (base s)) i -> i <= p /\ status_done (sched (base s)) i) as Hnear.
  { intros i [H1 H2]. assert (i < p \/ i = p /\ status_done (sched (base s)) p) as [Hi|[-> Hd]]
      by (destruct Hidx as [?|[? ?]]; [left; lia|destruct (decide (i = p)); [by right|left; lia]]).
    - split; [lia|apply (Hfirm i Hi)].
    - by split. }
  pose proof (pi_size _ _ _ Hpi) as Hsize.
  apply (turns_closer s w); try done.
  - apply (worker_turn s w x Hrun Hcalm Hw). destruct x as [|t|v won|left]; cbn in Hlow.
    + intros sc Hy. apply next_task_iter_cases in Hy; [|apply Hpi|by apply (running_inv _ Hrun)].
      inversion Hy; subst. lia.
    + by apply Hnear.
    + by apply Hnear.
    + lia.
  - intros v Hw'. rewrite Hw in Hw'. injection Hw' as ->. by apply (Hnear (tx_idx v)).
Qed.

Lemma firm_or_stale s p : running s -> p < block_len vm -> status_done (sched (base s)) p ->
  firm s p \/ exists loc os, reads s p loc os /\ validate_location (mem s) p loc os = false.
Proof.
  intros Hrun Hp Hd. destruct (running_locations s p Hrun Hp) as [ll Hll].
  destruct (forallb (fun e => validate_location (mem s) p e.1 e.2) (map_to_list (read ll))) eqn:Hall.
  - left. split; [done|]. intros loc os (ll' & Hll' & Hos). rewrite Hll in Hll'. injection Hll' as <-.
    rewrite forallb_forall in Hall. by apply (Hall (loc, os)), list_elem_of_In, elem_of_map_to_list.
  - right. apply not_true_iff_false in Hall. rewrite forallb_forall in Hall.
    destruct (decide (Exists (fun e => validate_location (mem s) p e.1 e.2 = false) (map_to_list (read ll)))) as [Hex|Hno].
    + apply Exists_exists in Hex as ([loc os] & Hin%elem_of_map_to_list & Hv). exists loc, os. split; [by exists ll|done].
    + exfalso. apply Hall. intros e He. destruct (validate_location _ _ _ _) eqn:Hv; [done|]. exfalso. apply Hno.
      apply Exists_exists. exists e. split; [by apply list_elem_of_In|done].
Qed.

(** Who holds an executing transaction. *)
Lemma executing_holder s i tx : running s -> transactions_status (sched (base s)) !! i = Some tx -> status tx = Executing ->
  exists w v, workers (base s) !! w = Some (HasTask (Execution v)) /\ tx_idx v = i.
Proof.
  intros Hrun Htx Hst. destruct (running_inv _ Hrun) as [Hi Ha].
  pose proof (inv_exec _ Hi _ _ Htx) as Hsum. rewrite (is_st_self Executing tx Hst) in Hsum.
  destruct (sum_map_pos (exec_tok i) (workers (base s))) as (w & y & Hw & Hy); [lia|].
  unfold exec_tok in Hy. destruct y as [|t|v won|[t|]]; cbn in Hy; try lia.
  - destruct t as [v|v]; [|lia]. destruct (Nat.eqb_spec (tx_idx v) i); [eauto|cbn in Hy; lia].
  - by destruct (proj1 (lv_exit _ (running_live _ Hrun) Ha) w t).
Qed.

(** Who aborted a transaction whose blockers are all done. *)
Lemma aborting_winner s i tx : running s -> firm_below s i -> transactions_status (sched (base s)) !! i = Some tx ->
  status tx = Aborting -> exists w v, workers (base s) !! w = Some (Checked v true) /\ tx_idx v = i.
Proof.
  intros Hrun Hfirm Htx Hst. destruct (running_inv _ Hrun) as [Hi Ha].
  pose proof (inv_abort _ Hi _ _ Htx) as Hsum. rewrite (is_st_self Aborting tx Hst) in Hsum.
  destruct (decide (0 < Prelude.sum_map (abort_tok i) (workers (base s)))) as [Hpos|Hz].
  - destruct (sum_map_pos _ _ Hpos) as (w & y & Hw & Hy). exists w.
    destruct y as [|t|v [|]|left]; cbn in Hy; try lia. destruct (Nat.eqb_spec (tx_idx v) i); [eauto|cbn in Hy; lia].
  - exfalso. destruct (sum_map_pos (dep_tok i) (transactions_dependents (sched (base s)))) as (b & deps & Hb & Hd);
      [unfold deps_tok in Hsum; lia|].
    assert (i ∈ deps) as Hin by (destruct (decide (i ∈ deps)); [done|rewrite dep_tok_notin in Hd by done; lia]).
    destruct (inv_deps _ Hi _ _ _ Hb Hin) as [[Hlt _] Hnd]. destruct (Hfirm b Hlt) as [(btx & Hbtx & Hdone) _].
    by apply (Hnd _ Hbtx).
Qed.

(** The lowest transaction that is not firm is being executed, or something leads on. *)
Lemma advance_or_hold s p : running s -> calm s -> firm_below s p -> p < block_len vm ->
  (exists w v, workers (base s) !! w = Some (HasTask (Execution v)) /\ tx_idx v = p) \/
  exists s', comes s s' /\ calm s' /\ closer p s s'.
Proof.
  intros Hrun Hcalm Hfirm Hp. destruct (running_inv _ Hrun) as [Hi Ha]. pose proof (running_live _ Hrun) as Hl.
  destruct (sized_lookup (sched (base s)) p) as [tx Htx]; [apply Hi|by rewrite (pi_size _ _ _ (lv_pinv _ Hl))|].
  destruct (decide (done_status (status tx))) as [Hd|Hnd].
  { right. assert (status_done (sched (base s)) p) as Hdone by by exists tx.
    destruct (firm_or_stale s p Hrun Hp Hdone) as [Hf|(loc & os & Hr & Hv)].
    { exists s. split; [by apply comes_refl|]. split; [done|]. left. intros i Hle.
      destruct (decide (i = p)) as [->|]; [done|apply Hfirm; lia]. }
    destruct (pi_covered _ _ _ (lv_pinv _ Hl) p loc os Hdone Hr) as [?|[Hle|(w & x & ph & Hw & Hph & Hcv)]]; [congruence| |].
    { apply low_turn; [done..|]. by right. }
    rewrite (Hcalm _ _ Hph) in Hcv. destruct x as [|[v|v]|v [|]|left]; cbn in Hcv; try done.
    - apply (turns_closer s w); [done| |done|done|].
      + apply (worker_turn s w _ Hrun Hcalm Hw). cbn. by rewrite Hcv.
      + intros v' Hw'. rewrite Hw in Hw'. injection Hw' as <-. lia.
    - exfalso. destruct (winner_aborting _ _ _ Hi Hw) as (tx' & Htx' & Hst'). destruct (Hfirm _ Hcv) as [(tx2 & Htx2 & Hd2) _].
      rewrite Htx' in Htx2. injection Htx2 as <-. by destruct Hd2; congruence. }
  assert (rank s p = stage tx) as Hrank by (unfold rank; by rewrite Htx).
  destruct (status tx) eqn:Hst; try (exfalso; apply Hnd; by (left + right)).
  - right. apply low_turn; [done..|]. left. by apply (inv_ready _ Hi _ _ Htx).
  - left. by apply (executing_holder s p tx).
  - right. destruct (aborting_winner s p tx Hrun Hfirm Htx Hst) as (w & v & Hw & <-).
    destruct (abort_turn s w v Hrun Hcalm Hw Hfirm) as (s' & Hc & Hcalm' & Hf & Hr).
    exists s'. split; [done|]. split; [done|]. right. split; [done|]. left. rewrite Hrank. unfold stage. rewrite Hst. lia.
Qed.

(** ** Settling the block *)

(** Getting closer ends, when what does is closed under it. *)
Lemma closer_ind (p : TxIdx) (Q : pstate -> Prop) :
  (forall s, running s -> calm s -> firm_below s p -> Q s \/ exists s', comes s s' /\ calm s' /\ closer p s s') ->
  forall s, running s -> calm s -> firm_below s p ->
  exists s', comes s s' /\ calm s' /\ (firm_below s' (S p) \/ firm_below s' p /\ Q s').
Proof.
  intros Hstep s. remember (rank s p) as b eqn:Hb. revert s Hb. induction b as [b IHb] using lt_wf_ind. intros s Hb.
  remember (measure (base s)) as c eqn:Hc. revert s Hb Hc. induction c as [c IHc] using lt_wf_ind.
  intros s Hb Hc Hrun Hcalm Hfirm. destruct (Hstep s Hrun Hcalm Hfirm) as [HQ|(s1 & Hc1 & Hcalm1 & H1)].
  { exists s. split; [by apply comes_refl|]. split; [done|by right]. }
  pose proof (proj2 Hc1) as Hrun1. destruct H1 as [H1|[H1 H2]]; [exists s1; split; [done|split; [done|by left]]|].
  assert (exists s', comes s1 s' /\ calm s' /\ (firm_below s' (S p) \/ firm_below s' p /\ Q s')) as (s' & Hc' & Hrest).
  { destruct H2 as [Hr|[Hr Hm]].
    - apply (IHb (rank s1 p) ltac:(lia) s1); (done || lia).
    - apply (IHc (measure (base s1)) ltac:(lia) s1); (done || lia || congruence). }
  exists s'. split; [by eapply comes_trans|done].
Qed.

(** It comes to be executed, or is settled already. *)
Lemma reach_execution s p : running s -> calm s -> firm_below s p -> p < block_len vm ->
  exists s', comes s s' /\ calm s' /\ (firm_below s' (S p) \/ firm_below s' p /\
    exists w v, workers (base s') !! w = Some (HasTask (Execution v)) /\ tx_idx v = p).
Proof. intros Hrun Hcalm Hfirm Hp. apply closer_ind; [|done..]. intros s1 H1 H2 H3. by apply advance_or_hold. Qed.

(** Below [limit] a transaction executes, whenever it is its turn. *)
Context (limit : TxIdx) (Hlimit : limit <= block_len vm).
Context (Hclean : forall s w v, running s -> workers (base s) !! w = Some (HasTask (Execution v)) ->
  tx_idx v < limit -> firm_below s (tx_idx v) -> executes_cleanly s v).

Lemma settle_next s p : running s -> calm s -> firm_below s p -> p < limit ->
  exists s', comes s s' /\ calm s' /\ firm_below s' (S p).
Proof.
  intros Hrun Hcalm Hfirm Hp. destruct (reach_execution s p Hrun Hcalm Hfirm ltac:(lia)) as (s1 & Hc1 & Hcalm1 & [H1|H1]); [eauto|].
  destruct H1 as (Hfirm1 & w & v & Hw & <-). pose proof (proj2 Hc1) as Hrun1.
  destruct (execute_turn s1 w v Hrun1 Hcalm1 Hw Hfirm1 (Hclean _ _ _ Hrun1 Hw Hp Hfirm1)) as (s' & Hc & Hrest).
  exists s'. split; [by eapply comes_trans|done].
Qed.

Lemma settle_up_to s p : running s -> calm s -> p <= limit -> exists s', comes s s' /\ calm s' /\ firm_below s' p.
Proof.
  intros Hrun Hcalm. induction p as [|p IH]; intros Hp; [exists s; split; [by apply comes_refl|split; [done|intros i Hi; lia]]|].
  destruct (IH ltac:(lia)) as (s1 & Hc1 & Hcalm1 & Hfirm1).
  destruct (settle_next s1 p) as (s' & Hc & Hrest); [apply Hc1|done..|]. exists s'. split; [by eapply comes_trans|done].
Qed.

(** ** The whole block *)

Definition finished_block s : Prop :=
  firm_below s (block_len vm) /\ forall w x, workers (base s) !! w = Some x -> x = Exited None.

Lemma leave_block s : running s -> calm s -> firm_below s (block_len vm) ->
  exists s', comes s s' /\ finished_block s'.
Proof.
  remember (measure (base s)) as c eqn:Hc. revert s Hc. induction c as [c IH] using lt_wf_ind.
  intros s -> Hrun Hcalm Hfirm. destruct (running_inv _ Hrun) as [Hi Ha]. pose proof (running_live _ Hrun) as Hl.
  assert (forall w, turns s w -> exists s', comes s s' /\ finished_block s') as Hgo.
  { intros w [(s1 & Hc1 & Hcalm1 & Hq)|(s1 & v & _ & _ & _ & Hw & Hnf & _)].
    - destruct (IH (measure (base s1))) with (s := s1) as (s' & Hc' & Hrest);
        [apply Hq|done|apply Hc1|done|by eapply quiet_firm|]. exists s'. split; [by eapply comes_trans|done].
    - exfalso. apply Hnf, Hfirm. exact (task_in_block _ _ _ Hrun Hw). }
  destruct (find_busy (workers (base s))) as [(w & x & Hw & Hx)|Hrest].
  - apply (Hgo w), (worker_turn s w x Hrun Hcalm Hw). pose proof (task_in_block _ _ _ Hrun Hw) as Hin.
    destruct x as [|t|v won|[t|]]; cbn in Hin.
    + by destruct Hx; left.
    + by apply (Hfirm (tx_idx (task_version t))).
    + by apply (Hfirm (tx_idx v)).
    + by apply (proj1 (lv_exit _ Hl Ha) w t).
    + by destruct Hx; right.
  - destruct (find_idle _ Hrest) as [[w Hw]|Hall]; [|exists s; split; [by apply comes_refl|by split]].
    apply (Hgo w), (worker_turn s w Idle Hrun Hcalm Hw). intros sc. by apply rest_no_yield.
Qed.

Lemma can_finish s : limit = block_len vm -> running s -> exists s', comes s s' /\ finished_block s'.
Proof.
  intros Heq Hrun. destruct (calm_down s Hrun) as (s1 & Hc1 & Hcalm1).
  destruct (settle_up_to s1 limit) as (s2 & Hc2 & Hcalm2 & Hfirm2); [apply Hc1|done..|]. rewrite Heq in Hfirm2.
  destruct (leave_block s2) as (s3 & Hc3 & Hall); [apply Hc2|done..|].
  exists s3. split; [|done]. eapply comes_trans; [exact Hc1|by eapply comes_trans].
Qed.
End Progress.
