(* ===== verification/Kinds.v ===== *)
(** * Kinds: every location holds values of its kind (lib.rs, vm.rs)

    A [MemoryLocationHash] does not say what it is a hash of; the database
    answers [InvalidMemoryValueType] when the value it finds is of another kind
    than the location it asked for.  Here: executions only write values of the
    kind of the location, so with injective hashes that error never occurs. *)

From S2P Require Import Prelude Types Scheduler SchedulerSystem Platform Storage MvMemory MvMemorySpec.
From S2P Require Import VmDb VmDbLemmas VmDbReplay Vm VmSpec ParallelCodes ParallelSystem ParallelInv.
#[local] Open Scope nat_scope.

Section Kinds.
Context {P : Platform} {E : Type} (display : E -> string) {SpecId : Type}.
Implicit Types vm : Vm (P := P) (E := E) SpecId.

Definition basic_location (loc : MemoryLocationHash) : Prop := exists a, loc = hash_deterministic (Basic a).

Definition kind_ok (loc : MemoryLocationHash) (x : MemoryValue) : Prop :=
  match x with
  | VBasic _ | LazyRecipient _ | LazySender _ => basic_location loc
  | VCodeHash _ | SelfDestructed => exists a, loc = hash_deterministic (CodeHash a)
  | VStorage _ => exists a slot, loc = hash_deterministic (StorageLoc a slot)
  end.

Definition well_kinded (d : VersionedData) : Prop :=
  forall loc k inc x, entry d loc k = Some (Data inc x) -> kind_ok loc x.

(** ** Writes *)

Definition writes_kinded (ws : WriteSet) : Prop := Forall (fun w => kind_ok w.1 w.2) ws.

Lemma account_writes_kinded eip db tx a acc codes ws codes' :
  account_writes eip db tx a acc codes = Ok (ws, codes') -> writes_kinded ws.
Proof.
  unfold account_writes. destruct (is_selfdestructed acc).
  { intros [= <- <-]. repeat constructor. cbn. by eexists. }
  intros ([ws1 codes1] & H & [= <- <-])%outcome_bind_ok. apply Forall_app. split.
  2: { apply Forall_forall. intros w ([slot v] & -> & _)%list_elem_of_fmap. cbn. eauto. }
  destruct (is_touched acc); [|injection H as <- <-; constructor].
  cbv zeta in H. match type of H with context [Ok (?bw, codes)] => set (basic_write := bw) in H end.
  assert (writes_kinded basic_write) as Hbw.
  { subst basic_write. repeat case_match; repeat constructor; cbn; by eexists. }
  clearbody basic_write. destruct (negb _ && _); [|by injection H as <- <-].
  apply outcome_bind_ok in H as (codes2 & H2 & [= <- <-]). apply Forall_app. split; [done|].
  repeat constructor. cbn. by eexists.
Qed.

Lemma state_writes_kinded eip db tx l codes ws codes' :
  state_writes eip db tx l codes = Ok (ws, codes') -> writes_kinded ws.
Proof.
  revert codes ws. induction l as [|[a acc] l IH]; intros codes ws; cbn.
  { intros [= <- <-]. constructor. }
  intros ([ws1 codes1] & H1 & ([ws2 codes2] & H2 & [= <- <-])%outcome_bind_ok)%outcome_bind_ok.
  apply Forall_app. split; [by eapply account_writes_kinded|by eapply IH].
Qed.

Lemma add_reward_kinded ws r amount ws' : basic_location r ->
  add_reward ws r amount = Ok ws' -> writes_kinded ws -> writes_kinded ws'.
Proof.
  intros Hr. revert ws'. induction ws as [|[loc v] ws IH]; intros ws'; cbn.
  { intros [= <-] _. repeat constructor. done. }
  intros H [Hv Hw]%Forall_cons. case_decide as Hl.
  - cbn in Hl. subst loc. destruct v; try done; injection H as <-; constructor; done.
  - apply outcome_bind_ok in H as (ws1 & H1 & [= <-]). constructor; [done|by eapply IH].
Qed.

(** The recipients of rewards are accounts. *)
Definition rewards_to_accounts vm : Prop :=
  basic_location (beneficiary_location_hash vm) /\
  match reward_policy vm with
  | Ethereum => True
  | Optimism l1 base => basic_location l1 /\ basic_location base
  end.

Lemma rewards_recipients vm tx gas l1 rs : rewards_to_accounts vm ->
  rewards vm tx gas l1 = Ok rs -> Forall (fun r => basic_location r.1) rs.
Proof.
  intros [Hb Hp]. unfold rewards. destruct (reward_policy vm) as [|l1l basel]; cbn in *.
  - intros [= <-]. by repeat constructor.
  - destruct (source_hash tx); [intros [= <-]; constructor|].
    intros (env & _ & (inf & _ & [= <-])%outcome_bind_ok)%outcome_bind_ok. destruct Hp. by repeat constructor.
Qed.

Lemma add_reward_mono ws r amount ws' loc : add_reward ws r amount = Ok ws' ->
  loc ∈ ws.*1 \/ loc = r -> loc ∈ ws'.*1.
Proof.
  revert ws'. induction ws as [|[l v] ws IH]; intros ws'; cbn.
  - intros [= <-] [H|H]; [by apply elem_of_nil in H|subst; by left].
  - case_decide as Hl.
    + cbn in Hl. subst l. intros H Hin. assert (ws'.*1 = r :: ws.*1) as -> by (by destruct v; simplify_eq/=).
      destruct Hin as [Hin|Hin]; [done|subst; by left].
    + intros (ws1 & H1 & [= <-])%outcome_bind_ok. cbn. rewrite !elem_of_cons. intros [[Hin|Hin]|Hin]; [by left|..];
        right; apply (IH ws1); tauto.
Qed.

(** Every recipient is written. *)
Lemma apply_rewards_elem vm ws tx gas l1 ws' rs loc : apply_rewards vm ws tx gas l1 = Ok ws' ->
  rewards vm tx gas l1 = Ok rs -> loc ∈ rs.*1 -> loc ∈ ws'.*1.
Proof.
  intros H Hr. unfold apply_rewards in H. rewrite Hr in H. cbn in H. clear Hr.
  assert (loc ∈ ws.*1 \/ loc ∈ rs.*1 -> loc ∈ ws'.*1) as Hgo; [|by intros; apply Hgo; right].
  revert ws H. induction rs as [|[r amount] rs IH]; intros ws; cbn.
  - intros [= <-] [Hin|Hin]; [done|by apply elem_of_nil in Hin].
  - intros (ws1 & H1 & H2)%outcome_bind_ok Hin. apply (IH ws1 H2). rewrite elem_of_cons in Hin.
    destruct Hin as [Hin|[Hin|Hin]]; [left|left|by right]; eapply add_reward_mono; eauto.
Qed.

Lemma apply_rewards_kinded vm ws tx gas l1 ws' : rewards_to_accounts vm ->
  apply_rewards vm ws tx gas l1 = Ok ws' -> writes_kinded ws -> writes_kinded ws'.
Proof.
  intros Hb (rs & Hrs & H)%outcome_bind_ok. apply rewards_recipients in Hrs; [|done].
  revert ws H. induction rs as [|[r amount] rs IH]; intros ws; cbn; [by intros [= <-]|].
  intros (ws1 & H1 & H2)%outcome_bind_ok Hw. apply Forall_cons in Hrs as [Hr Hrs].
  eapply IH; [done|exact H2|]. by eapply add_reward_kinded.
Qed.

Lemma execution_kinded vm mvs mv v res mv' r l1 db ws ops : rewards_to_accounts vm ->
  execution display vm mvs mv v res mv' r l1 db ws ops -> writes_kinded ws.
Proof.
  intros Hb Hx. destruct (ex_writes _ _ _ _ _ _ _ _ _ _ _ _ Hx) as (tx & ws0 & codes & _ & Hws & Hrw & _).
  eapply apply_rewards_kinded; [done|exact Hrw|]. by eapply state_writes_kinded.
Qed.

(** The values of the memory come from executions. *)
Lemma memory_executed vm (s : pstate (P := P)) h mv : pinv display vm s -> h `prefix_of` history s ->
  apply_ops (mem0 vm) h = Some mv ->
  forall loc k inc x, entry (data mv) loc k = Some (Data inc x) ->
  exists mvs mv1 v res mv' r l1 db ws ops, tx_idx v = k /\ tx_incarnation v = inc /\
    execution display vm mvs mv1 v res mv' r l1 db ws ops /\ last_write loc ws = Some x.
Proof.
  intros Hp [h2 Hh] Hm loc k inc x Hx.
  assert (data_from (Bytecode := Bytecode) [] (data (mem0 vm))) as H0.
  { destruct (mem0_new vm) as (est & lz & ->). intros l j i0 y Hy. by apply new_no_data in Hy. }
  pose proof (apply_ops_data_from _ _ _ _ H0 Hm) as Hd. cbn in Hd.
  destruct (Hd _ _ _ _ Hx) as (rs & ws & Hin & Hlw).
  destruct (pi_executed _ _ _ Hp {| tx_idx := k; tx_incarnation := inc |} rs ws)
    as (mvs & mv1 & res & mv' & r & l1 & db & ops & _ & Hex); [rewrite Hh; apply elem_of_app; by left|].
  by exists mvs, mv1, {| tx_idx := k; tx_incarnation := inc |}, res, mv', r, l1, db, ws, ops.
Qed.

Lemma memory_kinded vm (s : pstate (P := P)) h mv : pinv display vm s -> rewards_to_accounts vm ->
  h `prefix_of` history s -> apply_ops (mem0 vm) h = Some mv -> well_kinded (data mv).
Proof.
  intros Hp Hb Hh Hm loc k inc x Hx.
  destruct (memory_executed vm s h mv Hp Hh Hm loc k inc x Hx)
    as (mvs & mv1 & v & res & mv' & r & l1 & db & ws & ops & _ & _ & Hex & Hlw).
  apply execution_kinded in Hex; [|done]. apply last_write_elem in Hlw.
  unfold writes_kinded in Hex. rewrite Forall_forall in Hex. exact (Hex _ Hlw).
Qed.

(** ** Reads *)

Definition no_type_error {A} (m : outcome ReadError A) : Prop := m <> Err InvalidMemoryValueType.

Lemma no_type_error_bind {A B} (m : outcome ReadError A) (f : A -> outcome ReadError B) :
  no_type_error m -> (forall a, m = Ok a -> no_type_error (f a)) -> no_type_error (m ≫= f).
Proof. unfold no_type_error. destruct m as [a|e|]; cbn; [by auto|congruence|done]. Qed.

Lemma no_type_error_storage {A} (m : outcome E A) : no_type_error (from_storage display m).
Proof. by destruct m. Qed.

Lemma no_type_error_origin os o : no_type_error (push_origin os o).
Proof. unfold push_origin. destruct (last os); [case_decide|]; done. Qed.

Context (storage : Storage E).
Implicit Types mv : MvMemory Bytecode.

Lemma get_code_hash_kinds mv db a : no_type_error (get_code_hash display storage mv db a).
Proof.
  unfold get_code_hash. set (fallback := os ← push_origin _ FromStorage; _).
  assert (no_type_error fallback) as Hf.
  { subst fallback. apply no_type_error_bind; [apply no_type_error_origin|]. intros os _.
    apply no_type_error_bind; [apply no_type_error_storage|done]. }
  destruct (entries_below _ _ _) as [|[k [inc [| | | | |]|]] es]; try done.
  apply no_type_error_bind; [apply no_type_error_origin|done].
Qed.

Lemma load_code_kinds mv h : no_type_error (load_code display storage mv h).
Proof.
  unfold load_code. destruct h as [h|]; [|done]. destruct (new_bytecodes mv !! h); [done|].
  apply no_type_error_bind; [apply no_type_error_storage|]. intros [c|] _; [|done].
  apply no_type_error_bind; [by destruct (Bytecode_try_from c)|done].
Qed.

Lemma eval_entries_kinds prev es acc :
  Forall (fun e => forall inc x, e.2 = Data inc x -> is_Some (add_value lazy_acc_0 FromStorage x)) es ->
  no_type_error (eval_entries prev es acc).
Proof.
  revert acc. induction es as [|[k [inc v|]] es IH]; intros acc; cbn; [done| |done].
  intros [Hv Hes]%Forall_cons. destruct (_ && _); [done|].
  assert (no_type_error (match add_value acc (mv_origin k inc) v with
    | None => Err InvalidMemoryValueType
    | Some acc' => match final_account acc' with Some _ => Ok acc' | None => eval_entries prev es acc' end
    end)) as Hgo.
  { destruct (add_value acc (mv_origin k inc) v) as [acc'|] eqn:Ha.
    - destruct (final_account acc'); [done|by apply IH].
    - destruct (Hv inc v eq_refl) as [y Hy]. by destruct v. }
  destruct (negb _); [|done]. destruct (prev !! _); [|done]. by case_decide.
Qed.

Lemma basic_kinds mv db a : hash_injective -> well_kinded (data mv) -> db_hashes db ->
  no_type_error (basic display storage mv db a).
Proof.
  intros Hinj Hk Hh. rewrite basic_unfold, (hash_basic_eq db a Hh). cbn.
  destruct (_ && _); [done|]. destruct (_ && _); [done|]. unfold basic_read. rewrite db_entries_below.
  apply no_type_error_bind.
  { apply eval_entries_kinds, Forall_forall. intros [k e] Hin inc x He. cbn in He. subst e.
    apply entries_below_elem in Hin as [_ Hx]. apply Hk in Hx.
    destruct x; try (by eexists); [destruct Hx as (a' & H)|destruct Hx as (a' & slot & H)|destruct Hx as (a' & H)];
      by apply Hinj in H. }
  intros acc _. apply no_type_error_bind.
  { unfold storage_fallback. destruct (final_account acc); [done|].
    apply no_type_error_bind; [by repeat case_match|]. intros os _.
    apply no_type_error_bind; [apply no_type_error_storage|done]. }
  intros acc' _. destruct (final_account acc') as [account|]; [|done]. unfold finish_basic.
  destruct (_ && _); [by case_match|].
  apply no_type_error_bind; [case_decide; [done|apply get_code_hash_kinds]|]. intros [h db1] _.
  apply no_type_error_bind; [apply load_code_kinds|done].
Qed.

Lemma read_storage_kinds mv db a slot : hash_injective -> well_kinded (data mv) ->
  no_type_error (read_storage display storage mv db a slot).
Proof.
  intros Hinj Hk. unfold read_storage. set (loc := hash_deterministic _).
  change (if (0 <? db_tx_idx db)%nat then entries_below (data mv) loc (db_tx_idx db) else [])
    with (db_entries mv db loc). rewrite db_entries_below.
  destruct (entries_below _ _ _) as [|[k [inc v|]] es] eqn:Hes; [| |done].
  - apply no_type_error_bind; [apply no_type_error_origin|]. intros os _.
    apply no_type_error_bind; [apply no_type_error_storage|done].
  - assert (kind_ok loc v) as Hv.
    { apply (Hk loc k inc). eapply entries_below_elem. rewrite Hes. by left. }
    destruct v; try (destruct Hv as [a' Hv]; subst loc; by apply Hinj in Hv).
    apply no_type_error_bind; [apply no_type_error_origin|done].
Qed.

Lemma run_evm_kinds {R} mvs k (t : evm_run R) db : hash_injective ->
  (forall k, well_kinded (data (mvs k))) -> db_hashes db ->
  no_type_error (run_evm display storage mvs k t db).
Proof.
  intros Hinj Hk. revert k db. induction t as [x|a c IH|h c IH|a slot c IH|n c IH]; intros k db Hh; cbn; [done| | | |].
  - apply no_type_error_bind; [by apply basic_kinds|]. intros [x db1] H1. apply IH.
    eapply db_hashes_extends; [|exact Hh]. by eapply basic_extends.
  - apply no_type_error_bind; [|intros x _; by apply IH]. unfold code_by_hash.
    apply no_type_error_bind; [apply no_type_error_storage|]. intros [c0|] _; [|done].
    by destruct (Bytecode_try_from c0).
  - apply no_type_error_bind; [by apply read_storage_kinds|]. intros [x db1] H1. apply IH.
    eapply db_hashes_extends; [|exact Hh]. by eapply read_storage_extends.
  - apply no_type_error_bind; [|intros x _; by apply IH]. apply no_type_error_storage.
Qed.
End Kinds.

(** ** What a chain promises to the engine

    Rewards go to accounts; whatever is estimated for a transaction at an account
    is something that the transaction will be paid into; no code or slot is
    estimated; and every rewarded account is a lazy address of the block. *)
Class ChainLaws {P : Platform} {SpecId : Type} (chain : PexeChain (P := P) SpecId) : Prop := {
  rewards_are_basic : match get_reward_policy chain with
    | Ethereum => True
    | Optimism l1 base => basic_location l1 /\ basic_location base
    end;
  estimates_are_rewarded : forall E (storage : Storage E) block_env txs spec loc j,
    entry (data (build_mv_memory chain block_env txs)) loc j = Some Estimate ->
    exists tx, txs !! j = Some tx /\
      (basic_location loc -> forall gas l1 rs,
         rewards (Vm_new storage chain block_env txs spec) tx gas l1 = Ok rs -> loc ∈ rs.*1);
  estimates_at_accounts : forall block_env txs l j,
    entry (data (build_mv_memory chain block_env txs)) (hash_deterministic l) j = Some Estimate ->
    basic_location (hash_deterministic l);
  rewarded_are_lazy : forall E (storage : Storage E) block_env txs spec tx gas l1 rs,
    rewards (Vm_new storage chain block_env txs spec) tx gas l1 = Ok rs ->
    Forall (fun r => exists a, r.1 = hash_deterministic (Basic a) /\ a ∈ (mv_estimates chain block_env txs).2) rs;
}.

Lemma new_estimate {Bytecode} n estimated lazy loc j :
  entry (data (MvMemory_new (Bytecode := Bytecode) n estimated lazy)) loc j = Some Estimate ->
  exists idxs, (loc, idxs) ∈ estimated /\ j ∈ idxs.
Proof.
  unfold entry, MvMemory_new. cbn. induction estimated as [|[l idxs] estimated IH] using rev_ind; cbn; [by rewrite lookup_empty|].
  rewrite foldl_snoc. cbn. destruct (decide (loc = l)) as [->|Hne].
  - rewrite lookup_insert_eq. cbn. unfold estimates. intros (k & [= <-] & Hk)%elem_of_list_to_map_2%list_elem_of_fmap.
    exists idxs. split; [|done]. apply elem_of_app. right. by left.
  - rewrite lookup_insert_ne by done. intros (i & Hin & Hj)%IH. exists i. split; [|done]. apply elem_of_app. by left.
Qed.

(** A chain that rewards the beneficiary only, and estimates it. *)
Lemma beneficiary_laws {P : Platform} {SpecId} (chain : PexeChain SpecId) : get_reward_policy chain = Ethereum ->
  (forall block_env txs, mv_estimates chain block_env txs =
     ([(hash_deterministic (Basic (coinbase block_env)), seq 0 (length txs))], [coinbase block_env])) ->
  ChainLaws chain.
Proof.
  intros Hp He.
  assert (forall E (storage : Storage E) block_env txs spec tx gas l1 rs,
    rewards (Vm_new storage chain block_env txs spec) tx gas l1 = Ok rs ->
    rs.*1 = [hash_deterministic (Basic (coinbase block_env))]) as Hrs.
  { intros E storage block_env txs spec tx gas l1 rs. unfold rewards. cbn. rewrite Hp. by intros [= <-]. }
  split; [by rewrite Hp|..]; unfold build_mv_memory.
  - intros E storage block_env txs spec loc j. rewrite He. intros (idxs & Hin & Hj)%new_estimate.
    apply list_elem_of_singleton in Hin as [= -> ->]. apply elem_of_seq in Hj as [_ Hj].
    destruct (lookup_lt_is_Some_2 txs j Hj) as [tx Htx]. exists tx. split; [done|].
    intros _ gas l1 rs ->%Hrs. by left.
  - intros block_env txs l j. rewrite He. intros (idxs & Hin & _)%new_estimate.
    apply list_elem_of_singleton in Hin as [= -> ->]. by eexists.
  - intros E storage block_env txs spec tx gas l1 rs H%Hrs. rewrite He. apply Forall_forall. intros r Hin.
    assert (r.1 ∈ rs.*1) as Hr by (apply list_elem_of_fmap; by exists r). rewrite H in Hr.
    apply list_elem_of_singleton in Hr as ->. eexists. split; [done|]. by left.
Qed.

Lemma chain_rewards_accounts {P : Platform} {E SpecId} (chain : PexeChain SpecId) `{!ChainLaws chain}
  (storage : Storage E) block_env txs spec :
  rewards_to_accounts (Vm_new storage chain block_env txs spec).
Proof. split; [by eexists|]. apply rewards_are_basic. Qed.
