(* ===== verification/Pexe.v ===== *)
(** * Pexe: executing a block (crates/pevm/src/pexe.rs)

    What surrounds the worker threads of ParallelSystem.v: the choice between
    sequential and parallel execution, the full evaluation of the results after
    the threads have joined (cumulative gas, lazily updated accounts, nonce
    checks), and the sequential execution that small and difficult blocks fall
    back to.  revm's [CacheDB] is a parameter. *)

From S2P Require Import Prelude Types Scheduler SchedulerSystem Platform Compat Storage MvMemory.
From S2P Require Import VmDb Vm ParallelSystem.
#[local] Open Scope Z_scope.

Section Pexe.
Context {P : Platform} {E : Type} (display : E -> string).

(** ** Errors *)

Inductive PexeError (BlockSpecErr TxErr : Type) :=
| BlockSpecError (e : BlockSpecErr)
| MissingTransactionData
| InvalidTransactionError (e : TxErr)
| NonceMismatch (tx_idx : TxIdx) (tx_nonce executed_nonce : Z)
| PexeStorageError (msg : string)
| PexeExecutionError (e : ReadError + InvalidTransaction)
| PexeCustomError (msg : string)          (* [ExecutionError::Custom] of the sequential path *)
| UnreachableError.
Context {BSE TE : Type}.
Abbreviation pexe_outcome := (outcome (PexeError BSE TE)).

(** ** Receipts *)

Definition with_cumulative_gas (total : Z) (r : PexeTxExecutionResult) : PexeTxExecutionResult :=
  mkPexeTxExecutionResult
    (mkReceipt (receipt_status (receipt r)) total (receipt_logs (receipt r))) (tx_state r).

(** [cumulative_gas_used.saturating_add] along the block. *)
Fixpoint accumulate_gas (total : Z) (rs : list PexeTxExecutionResult) : list PexeTxExecutionResult :=
  match rs with
  | [] => []
  | r :: rs =>
      let total := sat_add64 total (cumulative_gas_used (receipt r)) in
      with_cumulative_gas total r :: accumulate_gas total rs
  end.

(** [index_mutex!(self.execution_results, i).take().unwrap()] for every
    transaction: the results and what stays in the vector. *)
Fixpoint take_results (n : nat) (slots : list (option PexeTxExecutionResult))
    : pexe_outcome (list PexeTxExecutionResult * list (option PexeTxExecutionResult)) :=
  match n with
  | O => Ok ([], slots)
  | S n =>
      match slots with
      | Some r :: slots => '(rs, rest) ← take_results n slots; Ok (r :: rs, None :: rest)
      | _ => Panic
      end
  end.

(** ** Lazy evaluation *)

(** The maximum fee that a sender must afford. *)
Definition max_fee (tx : TxEnv) : U256 :=
  let fee := sat_add (sat_mul (gas_limit tx) (gas_price tx)) (value tx) in
  match max_fee_per_blob_gas tx with
  | Some blob_fee => sat_add fee (sat_mul (total_blob_gas tx) blob_fee)
  | None => fee
  end.

(** What one entry makes of balance and nonce.  The [debug_assert!] that an absolute
    value is not an empty account is not part of the release profile and is left out:
    with debug assertions the process would end there. *)
Definition evaluate_value (tx : TxEnv) (e : MemoryEntry) (bal : U256) (n : Z) : pexe_outcome (U256 * Z) :=
  match e with
  | Data _ (VBasic b) => Ok (balance b, nonce b)
  | Data _ (LazyRecipient addition) => Ok (sat_add bal addition, n)
  | Data _ (LazySender subtraction) =>
      if bal <? max_fee tx
      then Err (PexeExecutionError _ _ (inr (LackOfFundForMaxFee (max_fee tx) bal)))
      else Ok (sat_sub bal subtraction, u64_add n 1)
  | _ => Panic
  end.

(** "Assert that evaluated nonce is correct when address is caller." *)
Definition check_nonce (i : TxIdx) (tx : TxEnv) (a : Address) (n : Z) : pexe_outcome unit :=
  if decide (caller tx = a) then
    match tx_nonce tx with
    | Some expected =>
        if n =? 0 then Err (UnreachableError _ _)
        else if negb (expected =? n - 1) then Err (NonceMismatch _ _ i expected (n - 1))
        else Ok tt
    | None => Ok tt
    end
  else Ok tt.

(** The account that the evaluation leaves in the transitions of a transaction. *)
Definition evaluated_account (eip_161 : bool) (code_hash : option B256) (code : option EvmCode)
    (bal : U256) (n : Z) (old : option EvmAccount) : option EvmAccount :=
  if eip_161 && bool_decide (code_hash = None) && (n =? 0) && (bal =? 0) then None
  else match old with
    | Some acc => Some (mkEvmAccount bal n (ea_code_hash acc) (ea_code acc) (ea_storage acc))
    | None => Some (mkEvmAccount bal n code_hash code ∅)
    end.

Definition update_state (a : Address) (f : option EvmAccount -> option EvmAccount)
    (r : PexeTxExecutionResult) : PexeTxExecutionResult :=
  mkPexeTxExecutionResult (receipt r) (<[a := f (default None (tx_state r !! a))]> (tx_state r)).

(** The loop over the write history of an address; an index without transaction
    or result is the undefined behaviour of [get_unchecked], here a panic. *)
Fixpoint evaluate_history (eip_161 : bool) (txs : list TxEnv) (a : Address) (code_hash : option B256)
    (code : option EvmCode) (history : list (TxIdx * MemoryEntry)) (bal : U256) (n : Z)
    (rs : list PexeTxExecutionResult) : pexe_outcome (list PexeTxExecutionResult) :=
  match history with
  | [] => Ok rs
  | (i, e) :: history =>
      tx ← unwrap (txs !! i);
      '(bal, n) ← evaluate_value tx e bal n;
      _ ← check_nonce i tx a n;
      r ← unwrap (rs !! i);
      evaluate_history eip_161 txs a code_hash code history bal n
        (<[i := update_state a (evaluated_account eip_161 code_hash code bal n) r]> rs)
  end.

(** [write_history.iter()]: every entry, in ascending order of the index. *)
Definition range_asc {X} (m : gmap TxIdx X) (n : nat) : list (TxIdx * X) := rev (range_desc m n).
Definition index_bound {X} (m : gmap TxIdx X) : nat := S (max_list (map_to_list m).*1).
Definition iter_history {X} (m : gmap TxIdx X) : list (TxIdx * X) := range_asc m (index_bound m).

(** The account below the write history: storage, unless the first entry is absolute;
    an error of the storage is ignored. *)
Definition base_of_history (storage : Storage E) (a : Address) (history : list (TxIdx * MemoryEntry))
    : U256 * Z :=
  match history with
  | (_, Data _ (VBasic _)) :: _ => (0, 0)
  | _ => match st_basic storage a with
         | Ok (Some account) => (balance account, nonce account)
         | _ => (0, 0)
         end
  end.

Definition pexe_storage {A} (m : outcome E A) : pexe_outcome A :=
  map_err (fun e => PexeStorageError _ _ (display e)) m.

Definition evaluate_address {SpecId} (chain : PexeChain SpecId) (storage : Storage E) (spec : SpecId)
    (txs : list TxEnv) (mv : MvMemory Bytecode) (rs : list PexeTxExecutionResult) (a : Address)
    : pexe_outcome (list PexeTxExecutionResult) :=
  match data mv !! hash_deterministic (Basic a) with
  | None => Ok rs
  | Some written =>
      let history := iter_history written in
      let '(bal, n) := base_of_history storage a history in
      code_hash ← pexe_storage (st_code_hash storage a);
      code ← (match code_hash with
              | Some h => pexe_storage (st_code_by_hash storage h)
              | None => Ok None
              end);
      evaluate_history (is_eip_161_enabled chain spec) txs a code_hash code history bal n rs
  end.

(** The loop over the lazy addresses, in the order [addrs] that the set gives. *)
Fixpoint evaluate_addresses {SpecId} (chain : PexeChain SpecId) (storage : Storage E) (spec : SpecId)
    (txs : list TxEnv) (mv : MvMemory Bytecode) (addrs : list Address) (rs : list PexeTxExecutionResult)
    : pexe_outcome (list PexeTxExecutionResult) :=
  match addrs with
  | [] => Ok rs
  | a :: addrs =>
      rs ← evaluate_address chain storage spec txs mv rs a;
      evaluate_addresses chain storage spec txs mv addrs rs
  end.

(** Everything after the threads joined without an abort. *)
Definition finalise {SpecId} (chain : PexeChain SpecId) (storage : Storage E) (spec : SpecId)
    (txs : list TxEnv) (mv : MvMemory Bytecode) (addrs : list Address)
    (slots : list (option PexeTxExecutionResult)) : pexe_outcome (list PexeTxExecutionResult) :=
  '(rs, _) ← take_results (length txs) slots;
  evaluate_addresses chain storage spec txs mv addrs (accumulate_gas 0 rs).

(** ** Sequential execution

    [cache] is revm's [CacheDB] over the storage: a transaction runs on it, and
    commits its state. *)
Record CacheDB (SpecId : Type) := mkCacheDB {
  cache : Type;
  cache_new : Storage E -> cache;
  transact : SpecId -> BlockEnv -> cache -> TxEnv -> outcome string (ResultAndState * cache);
  commit : cache -> list (Address * Account) -> cache;
}.
Arguments cache {SpecId}.
Arguments cache_new {SpecId}.
Arguments transact {SpecId}.
Arguments commit {SpecId}.

Fixpoint sequential_loop {SpecId} (chain : PexeChain SpecId) (D : CacheDB SpecId) (spec : SpecId)
    (block_env : BlockEnv) (db : cache D) (total : Z) (txs : list TxEnv)
    : pexe_outcome (list PexeTxExecutionResult) :=
  match txs with
  | [] => Ok []
  | tx :: txs =>
      '(out, db) ← map_err (PexeCustomError _ _) (transact D spec block_env db tx);
      let db := commit D db (state out) in
      r ← (match from_revm chain spec out with Ok r => Ok r | Err e => match e with end | Panic => Panic end);
      let total := sat_add64 total (cumulative_gas_used (receipt r)) in
      rs ← sequential_loop chain D spec block_env db total txs;
      Ok (with_cumulative_gas total r :: rs)
  end.

Definition execute_revm_sequential {SpecId} (chain : PexeChain SpecId) (D : CacheDB SpecId)
    (storage : Storage E) (spec : SpecId) (block_env : BlockEnv) (txs : list TxEnv)
    : pexe_outcome (list PexeTxExecutionResult) :=
  sequential_loop chain D spec block_env (cache_new D storage) 0 txs.

(** ** [execute_revm_parallel]

    A relation, as the interleaving is open: [self.execution_results] before and
    after, and the result.  A panic of a worker is the end of the process. *)
Inductive execute_revm_parallel {SpecId} (chain : PexeChain SpecId) (D : CacheDB SpecId)
    (storage : Storage E) (spec : SpecId) (block_env : BlockEnv) (txs : list TxEnv) (level : nat)
    (kept : list (option PexeTxExecutionResult))
    : list (option PexeTxExecutionResult) -> pexe_outcome (list PexeTxExecutionResult) -> Prop :=
| parallel_empty :
    txs = [] -> execute_revm_parallel chain D storage spec block_env txs level kept kept (Ok [])
| parallel_run s addrs rs rest :
    txs <> [] ->
    preachable display (Vm_new storage chain block_env txs spec) kept level s ->
    (forall w x, workers (base s) !! w = Some x -> exists left, x = Exited left) ->
    abort_reason s = None ->
    addrs ≡ₚ elements (consume_lazy_addresses (mem s)).1 ->
    take_results (length txs) (execution_results s) = Ok (rs, rest) ->
    execute_revm_parallel chain D storage spec block_env txs level kept rest
      (finalise chain storage spec txs (mem s) addrs (execution_results s))
| parallel_panic s w :
    txs <> [] ->
    preachable display (Vm_new storage chain block_env txs spec) kept level s ->
    worker_panics display (Vm_new storage chain block_env txs spec) s w ->
    execute_revm_parallel chain D storage spec block_env txs level kept (execution_results s) Panic
| parallel_lost_result s :
    txs <> [] ->
    preachable display (Vm_new storage chain block_env txs spec) kept level s ->
    (forall w x, workers (base s) !! w = Some x -> exists left, x = Exited left) ->
    abort_reason s = None ->
    take_results (length txs) (execution_results s) = Panic ->
    execute_revm_parallel chain D storage spec block_env txs level kept (execution_results s) Panic
| parallel_fallback s :
    txs <> [] ->
    preachable display (Vm_new storage chain block_env txs spec) kept level s ->
    (forall w x, workers (base s) !! w = Some x -> exists left, x = Exited left) ->
    abort_reason s = Some AbortFallbackToSequential ->
    execute_revm_parallel chain D storage spec block_env txs level kept (execution_results s)
      (execute_revm_sequential chain D storage spec block_env txs)
| parallel_error s e :
    txs <> [] ->
    preachable display (Vm_new storage chain block_env txs spec) kept level s ->
    (forall w x, workers (base s) !! w = Some x -> exists left, x = Exited left) ->
    abort_reason s = Some (AbortExecutionError e) ->
    execute_revm_parallel chain D storage spec block_env txs level kept (execution_results s)
      (Err (PexeExecutionError _ _ e)).

(** ** [execute] *)

(** A block; [block_transactions] are those of [BlockTransactions::Full]. *)
Record Block (Transaction : Type) := mkBlock {
  block_header : Header;
  block_transactions : option (list Transaction);
}.
Arguments block_header {Transaction}.
Arguments block_transactions {Transaction}.

Fixpoint collect {T A Err} (f : T -> outcome Err A) (l : list T) : outcome Err (list A) :=
  match l with
  | [] => Ok []
  | x :: l => y ← f x; ys ← collect f l; Ok (y :: ys)
  end.

(** The condition for sequential execution. *)
Definition runs_sequentially {Transaction} (b : Block Transaction) (ntxs level : nat) (force : bool) : bool :=
  force || (ntxs <? level)%nat || (hd_gas_used (block_header b) <? 4000000).

Inductive execute_block {R : Revm} {Transaction} (chain : PexeChain SpecId) (D : CacheDB SpecId)
    (get_block_spec : Header -> outcome BSE SpecId) (get_tx_env : Transaction -> outcome TE TxEnv)
    (storage : Storage E) (b : Block Transaction) (level : nat) (force : bool)
    (kept : list (option PexeTxExecutionResult))
    : list (option PexeTxExecutionResult) -> pexe_outcome (list PexeTxExecutionResult) -> Prop :=
| block_bad_spec e :
    get_block_spec (block_header b) = Err e ->
    execute_block chain D get_block_spec get_tx_env storage b level force kept kept
      (Err (BlockSpecError _ _ e))
| block_no_transactions spec :
    get_block_spec (block_header b) = Ok spec -> block_transactions b = None ->
    execute_block chain D get_block_spec get_tx_env storage b level force kept kept
      (Err (MissingTransactionData _ _))
| block_bad_transaction spec txs e :
    get_block_spec (block_header b) = Ok spec -> block_transactions b = Some txs -> collect get_tx_env txs = Err e ->
    execute_block chain D get_block_spec get_tx_env storage b level force kept kept
      (Err (InvalidTransactionError _ _ e))
| block_sequential spec txs envs :
    get_block_spec (block_header b) = Ok spec -> block_transactions b = Some txs -> collect get_tx_env txs = Ok envs ->
    runs_sequentially b (length envs) level force = true ->
    execute_block chain D get_block_spec get_tx_env storage b level force kept kept
      (execute_revm_sequential chain D storage spec (get_block_env (block_header b) spec) envs)
| block_parallel spec txs envs kept' res :
    get_block_spec (block_header b) = Ok spec -> block_transactions b = Some txs -> collect get_tx_env txs = Ok envs ->
    runs_sequentially b (length envs) level force = false ->
    execute_revm_parallel chain D storage spec (get_block_env (block_header b) spec) envs level kept kept' res ->
    execute_block chain D get_block_spec get_tx_env storage b level force kept kept' res.
End Pexe.
Arguments block_header {Transaction}.
Arguments block_transactions {Transaction}.
Arguments mkBlock {Transaction}.
