(* ===== verification/PexeLemmas.v ===== *)
(** * PexeLemmas: lemmas about the evaluation of results (pexe.rs)

    The loop over a write history as a list of running balances, which does not
    depend on the results it is applied to; updates at different addresses
    commute. *)

From S2P Require Import Prelude Types Scheduler SchedulerSystem Platform Storage MvMemory MvMemorySpec.
From S2P Require Import VmDb VmDbLemmas VmDbReplay Vm VmSpec ParallelCodes ParallelSystem ParallelInv Kinds Pexe.
#[local] Open Scope Z_scope.

Section Lemmas.
Context {P : Platform} {E : Type} (display : E -> string) {BSE TE : Type}.
Abbreviation pexe_outcome := (outcome (PexeError BSE TE)).

(** ** Gas *)

Lemma accumulate_gas_length total rs : length (accumulate_gas total rs) = length rs.
Proof. revert total. induction rs as [|r rs IH]; intros total; cbn; [done|]. by rewrite IH. Qed.

(** The gas of the first [k] results. *)
Definition gas_sum (rs : list PexeTxExecutionResult) : Z :=
  foldr (fun r acc => cumulative_gas_used (receipt r) + acc) 0 rs.

Lemma gas_sum_nonneg rs : Forall (fun r => 0 <= cumulative_gas_used (receipt r)) rs -> 0 <= gas_sum rs.
Proof. induction 1; cbn; [done|]. unfold gas_sum in *. lia. Qed.

Lemma accumulate_gas_lookup total rs i r :
  0 <= total -> Forall (fun r => 0 <= cumulative_gas_used (receipt r)) rs ->
  rs !! i = Some r ->
  accumulate_gas total rs !! i =
    Some (with_cumulative_gas (Z.min (total + gas_sum (take (S i) rs)) U64_MAX) r).
Proof.
  revert total i. induction rs as [|r' rs IH]; intros total i Ht Hrs Hi; [done|].
  apply Forall_cons in Hrs as [Hr Hrs]. destruct i as [|i]; cbn in *.
  - injection Hi as <-. unfold sat_add64. by rewrite Z.add_0_r.
  - assert (0 <= sat_add64 total (cumulative_gas_used (receipt r'))) as Ht' by (unfold sat_add64, U64_MAX; lia).
    etrans; [exact (IH _ _ Ht' Hrs Hi)|]. f_equal. f_equal.
    unfold sat_add64. pose proof (gas_sum_nonneg (take (S i) rs) ltac:(by apply Forall_take)).
    cbn in *. unfold gas_sum in *. lia.
Qed.

Lemma take_results_length n (slots : list (option PexeTxExecutionResult)) rs rest :
  take_results (BSE := BSE) (TE := TE) n slots = Ok (rs, rest) -> length rs = n.
Proof.
  revert slots rs rest. induction n as [|n IH]; intros slots rs rest; cbn; [by intros [= <- _]|].
  destruct slots as [|[r|] slots]; try done.
  intros ([rs1 rest1] & Ht & [= <- _])%outcome_bind_ok. cbn. f_equal. by eapply IH.
Qed.

Lemma take_results_ok n (slots : list (option PexeTxExecutionResult)) :
  (forall i, (i < n)%nat -> exists r, slots !! i = Some (Some r)) ->
  exists rs rest, take_results (BSE := BSE) (TE := TE) n slots = Ok (rs, rest) /\ length rs = n /\
    length rest = length slots /\
    (forall i r, rs !! i = Some r <-> (i < n)%nat /\ slots !! i = Some (Some r)) /\
    forall i, (i < n)%nat -> rest !! i = Some None.
Proof.
  revert slots. induction n as [|n IH]; intros slots Hs; cbn.
  { exists [], slots. split; [done|]. split; [done|]. split; [done|]. split; [|lia].
    intros i r. rewrite lookup_nil. split; [done|lia]. }
  destruct (Hs 0%nat ltac:(lia)) as [r0 H0]. destruct slots as [|[r|] slots]; try done.
  destruct (IH slots) as (rs & rest & E1 & Hl & Hrl & Hlk & Hnone).
  { intros i Hi. apply (Hs (S i)). lia. }
  exists (r :: rs), (None :: rest). rewrite E1. cbn.
  split; [done|]. split; [by rewrite Hl|]. split; [by rewrite Hrl|]. split.
  - intros [|i] r'; cbn; [split; [intros [= ->]; split; [lia|done]|by intros [_ [= ->]]]|].
    rewrite Hlk. split; intros [? ?]; (split; [lia|done]).
  - intros [|i] Hi; cbn; [done|]. apply Hnone. lia.
Qed.

(** ** The running balances of an address *)

Abbreviation running := (list (TxIdx * (U256 * Z))).

Fixpoint running_values (txs : list TxEnv) (a : Address) (history : list (TxIdx * MemoryEntry))
    (bal : U256) (n : Z) : pexe_outcome running :=
  match history with
  | [] => Ok []
  | (i, e) :: history =>
      tx ← unwrap (txs !! i);
      '(bal, n) ← evaluate_value tx e bal n;
      _ ← check_nonce i tx a n;
      rest ← running_values txs a history bal n;
      Ok ((i, (bal, n)) :: rest)
  end.

Definition apply_running (eip : bool) (ch : option B256) (code : option EvmCode) (a : Address)
    (run : running) (rs : list PexeTxExecutionResult) : list PexeTxExecutionResult :=
  foldl (fun rs e => alter (update_state a (evaluated_account eip ch code e.2.1 e.2.2)) e.1 rs) rs run.

Lemma apply_running_length eip ch code a run rs : length (apply_running eip ch code a run rs) = length rs.
Proof.
  revert rs. induction run as [|e run IH]; intros rs; cbn; [done|]. etrans; [apply IH|apply length_alter].
Qed.

Lemma running_values_indexes txs a history bal n run :
  running_values txs a history bal n = Ok run -> run.*1 = history.*1.
Proof.
  revert bal n run. induction history as [|[i e] history IH]; intros bal n run; cbn; [by intros [= <-]|].
  intros (tx & _ & ([bal1 n1] & _ & (u & _ & (rest & H & [= <-])%outcome_bind_ok)%outcome_bind_ok)%outcome_bind_ok)%outcome_bind_ok.
  cbn. f_equal. by eapply IH.
Qed.

Lemma evaluate_history_running eip txs a ch code history bal n rs :
  length rs = length txs ->
  evaluate_history (BSE := BSE) (TE := TE) eip txs a ch code history bal n rs =
  (run ← running_values txs a history bal n; Ok (apply_running eip ch code a run rs)).
Proof.
  revert bal n rs. induction history as [|[i e] history IH]; intros bal n rs Hl; cbn; [done|].
  destruct (txs !! i) as [tx|] eqn:Htx; cbn; [|done].
  destruct (evaluate_value tx e bal n) as [[bal1 n1]|?|]; cbn; [|done|done].
  destruct (check_nonce i tx a n1) as [u|?|]; cbn; [|done|done].
  destruct (lookup_lt_is_Some_2 rs i) as [r Hr]; [rewrite Hl; by eapply lookup_lt_Some|].
  rewrite Hr. cbn. rewrite IH by by rewrite length_insert.
  destruct (running_values txs a history bal1 n1) as [run|?|]; cbn; [|done|done].
  f_equal. unfold apply_running. cbn. f_equal.
  apply list_eq. intros j. destruct (decide (j = i)) as [->|Hne].
  - rewrite list_lookup_insert_eq by by eapply lookup_lt_Some. by rewrite list_lookup_alter_eq, Hr.
  - by rewrite list_lookup_insert_ne, list_lookup_alter_ne by done.
Qed.

(** ** One address, and the order of addresses *)

Context {SpecId : Type} (chain : PexeChain SpecId) (storage : Storage E)
  (spec : SpecId) (txs : list TxEnv) (mv : MvMemory Bytecode).

Abbreviation evaluate_one := (evaluate_address (BSE := BSE) (TE := TE) display chain storage spec txs mv).
Abbreviation evaluate_all := (evaluate_addresses (BSE := BSE) (TE := TE) display chain storage spec txs mv).

(** What the evaluation of an address will write, with code hash and code. *)
Definition plan (a : Address) : pexe_outcome (option (running * (option B256 * option EvmCode))) :=
  match data mv !! hash_deterministic (Basic a) with
  | None => Ok None
  | Some written =>
      let history := iter_history written in
      let '(bal, n) := base_of_history storage a history in
      code_hash ← pexe_storage display (st_code_hash storage a);
      code ← (match code_hash with
              | Some h => pexe_storage display (st_code_by_hash storage h)
              | None => Ok None
              end);
      run ← running_values txs a history bal n;
      Ok (Some (run, (code_hash, code)))
  end.

Definition apply_plan (a : Address) (p : option (running * (option B256 * option EvmCode)))
    (rs : list PexeTxExecutionResult) : list PexeTxExecutionResult :=
  match p with
  | Some (run, (ch, code)) => apply_running (is_eip_161_enabled chain spec) ch code a run rs
  | None => rs
  end.

Lemma apply_plan_length a p rs : length (apply_plan a p rs) = length rs.
Proof. destruct p as [[run [ch code]]|]; [apply apply_running_length|done]. Qed.

Lemma evaluate_address_plan rs a : length rs = length txs ->
  evaluate_one rs a = (p ← plan a; Ok (apply_plan a p rs)).
Proof.
  intros Hl. unfold evaluate_address, plan. destruct (data mv !! _) as [written|]; [|done].
  destruct (base_of_history _ _ _) as [bal n].
  destruct (pexe_storage display (st_code_hash storage a)) as [ch|?|]; cbn; [|done|done].
  destruct (match ch with Some h => _ | None => _ end) as [code|?|]; cbn; [|done|done].
  rewrite evaluate_history_running by done.
  by destruct (running_values _ _ _ _ _).
Qed.

Lemma evaluate_addresses_length addrs rs rs' : length rs = length txs ->
  evaluate_all addrs rs = Ok rs' -> length rs' = length txs.
Proof.
  revert rs. induction addrs as [|a addrs IH]; intros rs Hl; cbn; [by intros [= <-]|].
  intros (rs1 & H1 & H2)%outcome_bind_ok. apply (IH rs1); [|done].
  rewrite evaluate_address_plan in H1 by done. apply outcome_bind_ok in H1 as (p & _ & [= <-]).
  by rewrite apply_plan_length.
Qed.

Lemma evaluate_addresses_plans addrs rs rs' : length rs = length txs ->
  evaluate_all addrs rs = Ok rs' <->
  exists plans, Forall2 (fun a p => plan a = Ok p) addrs plans /\
    rs' = foldl (fun rs e => apply_plan e.1 e.2 rs) rs (zip addrs plans).
Proof.
  revert rs. induction addrs as [|a addrs IH]; intros rs Hl; cbn.
  { split; [intros [= <-]; exists []; by split; [constructor|]|].
    by intros (plans & ->%Forall2_nil_inv_l & ->). }
  rewrite evaluate_address_plan by done. destruct (plan a) as [p|e|] eqn:Hp; cbn.
  - rewrite IH by by rewrite apply_plan_length. split.
    + intros (plans & Hf & ->). exists (p :: plans). by split; [constructor|].
    + intros (plans & Hf & ->). apply Forall2_cons_inv_l in Hf as (q & plans' & Hq & Hf & ->).
      rewrite Hp in Hq. injection Hq as <-. by exists plans'.
  - split; [done|]. intros (plans & Hf & _). apply Forall2_cons_inv_l in Hf as (q & plans' & Hq & _).
    congruence.
  - split; [done|]. intros (plans & Hf & _). apply Forall2_cons_inv_l in Hf as (q & plans' & Hq & _).
    congruence.
Qed.

Lemma update_state_commute a b f g r : a <> b ->
  update_state a f (update_state b g r) = update_state b g (update_state a f r).
Proof.
  intros Hab. unfold update_state. cbn. f_equal.
  rewrite !lookup_insert_ne by done. by apply insert_insert_ne.
Qed.

Lemma alter_commute {A} (f g : A -> A) i j (l : list A) : (forall x, f (g x) = g (f x)) ->
  alter f i (alter g j l) = alter g j (alter f i l).
Proof.
  intros Hfg. apply list_eq. intros k.
  destruct (decide (k = i)) as [->|Hi], (decide (i = j)) as [->|Hij].
  - rewrite !list_lookup_alter_eq. destruct (l !! j); cbn; [by rewrite Hfg|done].
  - by rewrite list_lookup_alter_eq, !list_lookup_alter_ne, list_lookup_alter_eq by done.
  - by rewrite !list_lookup_alter_ne by done.
  - destruct (decide (k = j)) as [->|Hj].
    + by rewrite list_lookup_alter_ne, !list_lookup_alter_eq, list_lookup_alter_ne by done.
    + by rewrite !list_lookup_alter_ne by done.
Qed.

Lemma apply_running_alter eip ch code a run (f : PexeTxExecutionResult -> PexeTxExecutionResult) j rs :
  (forall r g, update_state a g (f r) = f (update_state a g r)) ->
  apply_running eip ch code a run (alter f j rs) = alter f j (apply_running eip ch code a run rs).
Proof.
  intros Hf. revert rs. unfold apply_running. induction run as [|e run IH]; intros rs; cbn; [done|].
  rewrite <- IH. f_equal. apply alter_commute. intros r. apply Hf.
Qed.

Lemma apply_plan_commute a b p q rs : a <> b ->
  apply_plan a p (apply_plan b q rs) = apply_plan b q (apply_plan a p rs).
Proof.
  intros Hab. destruct q as [[run [ch code]]|]; [|done]. cbn.
  unfold apply_running. revert rs. induction run as [|e run IH]; intros rs; cbn; [done|].
  rewrite IH. f_equal. destruct p as [[run' [ch' code']]|]; [|done]. cbn.
  apply apply_running_alter. intros r g. by apply update_state_commute.
Qed.

(** The order in which the set of lazy addresses is traversed does not matter. *)
Lemma evaluate_addresses_perm addrs addrs' rs rs' : length rs = length txs ->
  NoDup addrs -> addrs ≡ₚ addrs' ->
  evaluate_all addrs rs = Ok rs' ->
  evaluate_all addrs' rs = Ok rs'.
Proof.
  intros Hl Hnd Hp. revert rs Hl. induction Hp as [|a l l' Hp IH|a b l|l1 l2 l3 H1 IH1 H2 IH2]; intros rs Hl; cbn.
  - done.
  - apply NoDup_cons in Hnd as [_ Hnd]. rewrite evaluate_address_plan by done.
    destruct (plan a) as [p|?|]; cbn; [|done|done]. apply IH; [done|]. by rewrite apply_plan_length.
  - apply NoDup_cons in Hnd as [Hn _]. assert (b <> a) as Hne by (intros ->; apply Hn; by left).
    rewrite (evaluate_address_plan rs a), (evaluate_address_plan rs b) by done.
    destruct (plan b) as [q|?|] eqn:Hb; cbn; [|done|done].
    rewrite (evaluate_address_plan _ a) by by rewrite apply_plan_length.
    destruct (plan a) as [p|?|] eqn:Ha; cbn; [|done|done].
    rewrite (evaluate_address_plan _ b), Hb by by rewrite apply_plan_length. cbn.
    by rewrite apply_plan_commute.
  - intros H. apply IH2; [by rewrite <- H1|done|]. by apply IH1.
Qed.
End Lemmas.
