(* ===== verification/PexeSpec.v ===== *)
(** * PexeSpec: what executing a block returns (pexe.rs)

    The values in the memory have the kind of their location, so reads never
    fail on a value of the wrong kind; when the workers have joined every
    transaction has a result, no estimate is left and the lazy evaluation never
    reaches its [unreachable!()]; what the evaluation does to receipts and
    accounts, whatever the order of the addresses. *)

From S2P Require Import Prelude Types Scheduler SchedulerSystem SchedulerTheorems Platform Storage.
From S2P Require Import MvMemory MvMemorySpec VmDb VmDbLemmas VmDbReplay Vm VmSpec.
From S2P Require Import ParallelCodes ParallelSystem ParallelInv ParallelSpec Kinds Pexe PexeLemmas.
#[local] Open Scope nat_scope.

Section Running.
Context {P : Platform} {E : Type} (display : E -> string) {SpecId : Type}.
Context (vm : Vm (P := P) (E := E) SpecId).
Context (kept : list (option PexeTxExecutionResult)).
Implicit Types s : pstate (P := P).

(** The memory is well typed.  In every state of a running block each value
    of the multi-version memory is of the kind of its location: balances and lazy
    updates at accounts, code hashes and self-destructions at code locations,
    words at storage slots. *)
Theorem memory_well_kinded level s
  (Hlen : (Z.of_nat (block_len vm) < 2 ^ 64)%Z) (Hlevel : 0 < level)
  (Hr : preachable display vm kept level s) (Hna : abort_reason s = None)
  (Hb : rewards_to_accounts vm) : well_kinded (data (mem s)).
Proof.
  destruct (preachable_pinv display vm kept level s Hlen Hlevel Hr Hna) as [Hp _].
  eapply (memory_kinded display vm s (history s)); [done|done|done|apply Hp].
Qed.

Lemma seen_kinded s mvs : pinv display vm s -> rewards_to_accounts vm -> seen vm (history s) mvs ->
  forall k, well_kinded (data (mvs k)).
Proof.
  intros Hp Hb (n & _ & Hn) k. destruct (Hn k) as [_ Hk].
  eapply (memory_kinded display vm s (take (n k) (history s))); [done|done| |exact Hk].
  exists (drop (n k) (history s)). by rewrite take_drop.
Qed.

(** The conversion of read errors keeps the type error apart. *)
Lemma map_err_type_error {A} (m : outcome ReadError A) :
  map_err VmExecutionError_from m = Err (ExecutionError (inl InvalidMemoryValueType)) ->
  m = Err InvalidMemoryValueType.
Proof. destruct m as [a|e|]; cbn; try done. intros [= H]. by destruct e. Qed.

Lemma bind_err {F A B} (m : outcome F A) (f : A -> outcome F B) e :
  (m ≫= f) = Err e -> m = Err e \/ exists a, m = Ok a /\ f a = Err e.
Proof. destruct m as [a|e'|]; cbn; [right; by exists a|left; congruence|done]. Qed.

Lemma unwrap_not_err {F A} (o : option A) (e : F) : unwrap o <> Err e.
Proof. by destruct o. Qed.

Abbreviation type_error := (ExecutionError (inl InvalidMemoryValueType)).

Lemma account_writes_no_error eip db tx a acc codes e : account_writes eip db tx a acc codes <> Err e.
Proof.
  unfold account_writes. destruct (is_selfdestructed acc); [done|]. intros H.
  apply bind_err in H as [H|([ws c] & _ & H)]; [|done]. destruct (is_touched acc); [|done].
  destruct (negb _ && _); [|done]. apply bind_err in H as [H|(c & _ & H)]; [|done].
  destruct (codes !! _); [done|]. by apply bind_err in H as [H%unwrap_not_err|(c & _ & H)].
Qed.

Lemma state_writes_no_error eip db tx l codes e : state_writes eip db tx l codes <> Err e.
Proof.
  revert codes. induction l as [|[a acc] l IH]; intros codes; cbn; [done|]. intros H.
  apply bind_err in H as [H%account_writes_no_error|([ws c] & _ & H)]; [done|].
  apply bind_err in H as [H%IH|([ws' c'] & _ & H)]; done.
Qed.

Lemma add_reward_no_type_error ws r amount e : hash_injective -> basic_location r -> writes_kinded ws ->
  add_reward ws r amount <> Err e.
Proof.
  intros Hinj Hr. induction ws as [|[loc v] ws IH]; cbn; [done|]. intros [Hv Hw]%Forall_cons.
  case_decide as Hl.
  - cbn in Hv. subst loc. destruct Hr as [a ->].
    destruct v; try done; exfalso; [destruct Hv as (? & H)|destruct Hv as (? & ? & H)|destruct Hv as (? & H)];
      by apply Hinj in H.
  - intros H. by apply bind_err in H as [H%IH|(ws' & _ & H)].
Qed.

Lemma apply_rewards_no_type_error ws tx gas l1 e : hash_injective -> rewards_to_accounts vm ->
  writes_kinded ws -> apply_rewards vm ws tx gas l1 <> Err e.
Proof.
  intros Hinj Hb Hw H. unfold apply_rewards in H. apply bind_err in H as [H|(rs & Hrs & H)].
  - unfold rewards in H. destruct (reward_policy vm); [done|]. destruct (source_hash tx); [done|].
    apply bind_err in H as [H%unwrap_not_err|(env & _ & H)]; [done|].
    apply bind_err in H as [H%unwrap_not_err|(inf & _ & H)]; done.
  - apply rewards_recipients in Hrs; [|done]. revert ws Hw H.
    induction rs as [|[r amount] rs IH]; intros ws Hw H; cbn in H; [done|].
    apply Forall_cons in Hrs as [Hr Hrs]. apply bind_err in H as [H|(ws1 & H1 & H)].
    + by apply add_reward_no_type_error in H.
    + eapply (IH Hrs); [|exact H]. by eapply add_reward_kinded.
Qed.

(** C17: [ReadError::InvalidMemoryValueType] never occurs.  Whatever an execution
    in a running block reads, and whenever, it never finds a value of another
    kind than it asked for, neither in the EVM nor when it adds the rewards. *)
Theorem reads_well_typed level s mvs v
  (Hlen : (Z.of_nat (block_len vm) < 2 ^ 64)%Z) (Hlevel : 0 < level)
  (Hinj : hash_injective) (Hb : rewards_to_accounts vm)
  (Hr : preachable display vm kept level s) (Hna : abort_reason s = None)
  (Hsn : seen vm (history s) mvs) :
  execute display vm mvs (mem s) v <> Err type_error.
Proof.
  destruct (preachable_pinv display vm kept level s Hlen Hlevel Hr Hna) as [Hp _].
  pose proof (seen_kinded s mvs Hp Hb Hsn) as Hk. intros H. unfold execute in H.
  apply bind_err in H as [H%unwrap_not_err|(tx & Htx & H)]; [done|].
  apply bind_err in H as [H|([[out l1] db] & Hx & H)].
  - unfold execute_reads in H. apply bind_err in H as [H%map_err_type_error|(db & Hn & H%map_err_type_error)].
    + unfold VmDb_new in H. destruct (transact_to tx) as [|addr]; [done|].
      apply bind_err in H as [H%get_code_hash_kinds|([h db1] & _ & H)]; [done|].
      apply bind_err in H as [H|(lz & _ & H)]; [|done]. repeat case_bool_decide; try done.
      by apply bind_err in H as [H%unwrap_not_err|(to & _ & H)].
    + apply map_err_ok in Hn. destruct (tx_hashes _ _ _ _ _ _ Hn) as (Hh & _).
      by eapply (run_evm_kinds display (vm_storage vm) mvs 1).
  - destruct out as [err|r].
    + destruct err; cbn in H; try done; by destruct (0 <? tx_idx v).
    + unfold execute_writes in H. apply bind_err in H as [H%state_writes_no_error|([ws c] & Hws & H)]; [done|].
      apply state_writes_kinded in Hws.
      apply bind_err in H as [H%apply_rewards_no_type_error|(ws' & _ & H)]; [done..|].
      apply bind_err in H as [H|(mv' & _ & H)].
      { destruct (is_lazy db); [|done]. by apply bind_err in H as [H%unwrap_not_err|(to & _ & H)]. }
      apply bind_err in H as [H%unwrap_not_err|([wrote mv2] & _ & H)]; [done|].
      apply bind_err in H as [H|(res & _ & H)]; [|done]. by destruct (from_revm _ _ _) as [|[]|].
Qed.

(** ** Joined workers *)

Lemma joined_settled level s : (Z.of_nat (block_len vm) < 2 ^ 64)%Z -> 0 < level ->
  preachable display vm kept level s -> abort_reason s = None -> all_exited s ->
  pinv display vm s /\ forall i, i < block_len vm -> logged display vm s i.
Proof.
  intros Hlen Hlv Hr Hna Hex.
  destruct (preachable_pinv display vm kept level s Hlen Hlv Hr Hna) as [Hp He]. split; [done|]. intros i Hi.
  destruct (exited_all_valid display vm s Hp He Hna Hex) as [Hst _].
  destruct (sized_lookup (sched (base s)) i) as [tx Htx]; [apply Hp|by rewrite (pi_size _ _ _ Hp)|].
  apply (pi_logged _ _ _ Hp). left. exists tx. split; [done|]. right. by eapply Hst.
Qed.

(** C14: when the workers have joined without an abort, every transaction has a
    result, so the [unwrap] of [execute_revm_parallel] never panics and the
    vector of results is left empty for the next block. *)
Theorem every_transaction_has_a_result level s
  (Hlen : (Z.of_nat (block_len vm) < 2 ^ 64)%Z) (Hlevel : 0 < level)
  (Hr : preachable display vm kept level s) (Hna : abort_reason s = None) (Hex : all_exited s) :
  exists rs rest, take_results (BSE := unit) (TE := unit) (block_len vm) (execution_results s) = Ok (rs, rest) /\
    length rs = block_len vm /\ length rest = length (execution_results s) /\
    (forall i r, rs !! i = Some r <-> i < block_len vm /\ execution_results s !! i = Some (Some r)) /\
    forall i, i < block_len vm -> rest !! i = Some None.
Proof.
  destruct (joined_settled level s Hlen Hlevel Hr Hna Hex) as [Hp Hl]. apply take_results_ok. intros i Hi.
  destruct (Hl i Hi) as (mvs & mv & v & res & mv' & r & l1 & db & ws & ops & _ & _ & _ & _ & Hres & _). eauto.
Qed.

(** An estimate that is left is an initial one at a location that the
    transaction did not write. *)
Lemma estimates_left s i loc : pinv display vm s -> logged display vm s i ->
  entry (data (mem s)) loc i = Some Estimate ->
  entry (data (mem0 vm)) loc i = Some Estimate /\
  exists mvs mv v res mv' r l1 db ws ops, tx_idx v = i /\
    execution display vm mvs mv v res mv' r l1 db ws ops /\ loc ∉ ws.*1.
Proof.
  intros Hp (mvs & mv & v & res & mv' & r & l1 & db & ws & ops & _ & Hv & Hx & (ll & Hll & _ & Hw) & _ & Hent & _) He.
  assert (loc ∉ ws.*1) as Hn.
  { intros [x Hlw]%last_write_Some. assert (entry (data (mem s)) loc i = Some (Data (tx_incarnation v) x)) as H.
    { apply Hent. by split. } congruence. }
  split; [|by exists mvs, mv, v, res, mv', r, l1, db, ws, ops].
  apply (history_estimates _ _ _ (pi_mem _ _ _ Hp) i ll loc Hll); [|done]. by rewrite Hw.
Qed.

End Running.

(** ** The evaluation of the results *)

Section Finalise.
Context {P : Platform} {E : Type} (display : E -> string) {BSE TE SpecId : Type}.
Context (chain : PexeChain SpecId) (storage : Storage E) (spec : SpecId) (txs : list TxEnv).
Abbreviation finalise := (finalise (BSE := BSE) (TE := TE) display chain storage spec txs).
Abbreviation evaluate_all mv := (evaluate_addresses (BSE := BSE) (TE := TE) display chain storage spec txs mv).
Abbreviation take_results := (take_results (BSE := BSE) (TE := TE)).

(** C18: the results do not depend on the order in which the hash set yields the
    lazy addresses. *)
Theorem evaluation_order_irrelevant mv addrs addrs' slots results
  (Hnd : NoDup addrs) (Hperm : addrs ≡ₚ addrs')
  (H : finalise mv addrs slots = Ok results) : finalise mv addrs' slots = Ok results.
Proof.
  unfold Pexe.finalise in *. apply outcome_bind_ok in H as ([rs rest] & Ht & H). rewrite Ht. cbn.
  pose proof (take_results_length _ _ _ _ Ht) as Hl.
  eapply evaluate_addresses_perm; [by rewrite accumulate_gas_length|done|done|done].
Qed.

(** The [k]-th cumulative gas is the sum of the gas of the first [k]
    transactions, saturated at [u64::MAX]; statuses and logs are as executed. *)
Theorem cumulative_gas_is_prefix_sum (rs : list PexeTxExecutionResult) i r
  (Hgas : Forall (fun r => 0 <= cumulative_gas_used (receipt r))%Z rs)
  (Hi : rs !! i = Some r) :
  exists r', accumulate_gas 0 rs !! i = Some r' /\ tx_state r' = tx_state r /\
    receipt_status (receipt r') = receipt_status (receipt r) /\
    receipt_logs (receipt r') = receipt_logs (receipt r) /\
    cumulative_gas_used (receipt r') = Z.min (gas_sum (take (S i) rs)) U64_MAX.
Proof. eexists. split; [by apply accumulate_gas_lookup|]. by repeat split. Qed.

(** *** No panic *)

Lemma running_values_no_panic a history bal n :
  Forall (fun e => e.1 < length txs /\ exists inc x, e.2 = Data inc x /\ is_Some (add_value lazy_acc_0 FromStorage x))
    history ->
  running_values (BSE := BSE) (TE := TE) txs a history bal n <> Panic.
Proof.
  revert bal n. induction history as [|[i e] history IH]; intros bal n; cbn; [done|].
  intros [(Hi & inc & x & He & Hx) Hh]%Forall_cons. cbn in Hi, He. subst e.
  destruct (lookup_lt_is_Some_2 txs i Hi) as [tx ->]. cbn -[evaluate_value].
  destruct (evaluate_value (BSE := BSE) (TE := TE) tx (Data inc x) bal n) as [[bal1 n1]|err|] eqn:Hv; cbn; [|done|].
  - destruct (check_nonce (BSE := BSE) (TE := TE) i tx a n1) as [u|err|] eqn:Hc; cbn; [|done|].
    + specialize (IH bal1 n1 Hh). by destruct (running_values (BSE := BSE) (TE := TE) txs a history bal1 n1).
    + unfold check_nonce in Hc. by repeat case_match.
  - destruct x; cbn in *; try (by destruct Hx); try done. by case_match.
Qed.

(** The storage answers. *)
Definition storage_answers : Prop :=
  (forall a, st_code_hash storage a <> Panic) /\ forall h, st_code_by_hash storage h <> Panic.

Lemma plan_no_panic mv a : hash_injective -> storage_answers -> well_kinded (data mv) ->
  (forall i e, entry (data mv) (hash_deterministic (Basic a)) i = Some e -> i < length txs /\ e <> Estimate) ->
  plan (BSE := BSE) (TE := TE) display storage txs mv a <> Panic.
Proof.
  intros Hinj [Hs1 Hs2] Hk He. unfold plan. destruct (data mv !! _) as [written|] eqn:Hw; [|done].
  destruct (base_of_history _ _ _) as [bal n].
  specialize (Hs1 a). destruct (st_code_hash storage a) as [ch|err|]; cbn; [|done|done].
  assert (match ch with Some h => pexe_storage (BSE := BSE) (TE := TE) display (st_code_by_hash storage h)
    | None => Ok None end <> Panic) as Hc.
  { destruct ch as [h|]; [|done]. specialize (Hs2 h). by destruct (st_code_by_hash storage h). }
  destruct (match ch with Some h => _ | None => _ end) as [code|err|]; cbn; [|done|done].
  assert (running_values (BSE := BSE) (TE := TE) txs a (iter_history written) bal n <> Panic) as Hr;
    [|by destruct (running_values (BSE := BSE) (TE := TE) txs a _ bal n)].
  apply running_values_no_panic, Forall_forall. intros [i e] Hin. cbn.
  unfold iter_history, range_asc in Hin. apply list_elem_of_In, in_rev, list_elem_of_In, range_desc_elem in Hin as [_ Hlk].
  assert (entry (data mv) (hash_deterministic (Basic a)) i = Some e) as Hent by (unfold entry; by rewrite Hw).
  destruct (He _ _ Hent) as [Hi Hne]. split; [done|]. destruct e as [inc x|]; [|done].
  exists inc, x. split; [done|]. apply Hk in Hent.
  destruct x; try (by eexists); exfalso;
    [destruct Hent as (a' & H)|destruct Hent as (a' & slot & H)|destruct Hent as (a' & H)]; by apply Hinj in H.
Qed.

Lemma evaluate_addresses_no_panic mv addrs rs : length rs = length txs ->
  (forall a, plan (BSE := BSE) (TE := TE) display storage txs mv a <> Panic) ->
  evaluate_all mv addrs rs <> Panic.
Proof.
  intros Hl Hp. revert rs Hl. induction addrs as [|a addrs IH]; intros rs Hl; cbn; [done|].
  rewrite evaluate_address_plan by done. specialize (Hp a).
  destruct (plan (BSE := BSE) (TE := TE) display storage txs mv a) as [p|err|]; cbn; [|done|done].
  apply IH. by rewrite apply_plan_length.
Qed.
End Finalise.

Section Estimates.
Context {P : Platform} {E : Type} (display : E -> string) {BSE TE SpecId : Type}.
Context (chain : PexeChain SpecId) `{Hlaws : !ChainLaws chain} (storage : Storage E) (spec : SpecId).
Context (block_env : BlockEnv) (txs : list TxEnv) (kept : list (option PexeTxExecutionResult)).
Abbreviation vm := (Vm_new storage chain block_env txs spec).

(** A transaction whose last execution stands has no estimate at an account. *)
Lemma logged_no_estimate s loc i : pinv display vm s -> logged display vm s i -> basic_location loc ->
  entry (data (mem s)) loc i <> Some Estimate.
Proof.
  intros Hp Hl Hbl He.
  destruct (estimates_left display vm s i loc Hp Hl He)
    as (H0 & mvs & mv & v & res & mv' & r & l1 & db & ws & ops & <- & Hx & Hn). apply Hn.
  destruct (estimates_are_rewarded E storage block_env txs spec _ _ H0) as (tx & Htx & Hrewarded).
  destruct (ex_writes _ _ _ _ _ _ _ _ _ _ _ _ Hx) as (tx' & ws0 & codes & Htx' & _ & Hrw & _).
  cbn in Htx'. rewrite Htx in Htx'. injection Htx' as <-.
  destruct (rewards vm tx (gas_used (result r)) l1) as [rs|e|] eqn:Hrs;
    [|unfold apply_rewards in Hrw; by rewrite Hrs in Hrw..].
  eapply apply_rewards_elem; [exact Hrw|exact Hrs|]. by eapply Hrewarded.
Qed.

(** Nor at any other location. *)
Lemma logged_no_estimates s l i : pinv display vm s -> logged display vm s i ->
  entry (data (mem s)) (hash_deterministic l) i <> Some Estimate.
Proof.
  intros Hp Hl He. destruct (estimates_left display vm s i _ Hp Hl He) as [H0 _].
  apply estimates_at_accounts in H0. by apply (logged_no_estimate s _ i Hp Hl H0).
Qed.

Lemma outside_entries s loc i : pinv display vm s -> ~ i < length txs ->
  entry (data (mem s)) loc i = entry (data (mem0 vm)) loc i.
Proof.
  intros Hp Hi. apply (history_outside _ _ _ i (pi_mem _ _ _ Hp)).
  destruct (mem0_new vm) as (est & lazy & ->). apply lookup_replicate_None. cbn. unfold block_len. cbn. lia.
Qed.

Lemma joined_no_estimate level s loc i : (Z.of_nat (length txs) < 2 ^ 64)%Z -> 0 < level ->
  preachable display vm kept level s -> abort_reason s = None -> all_exited s ->
  basic_location loc -> entry (data (mem s)) loc i <> Some Estimate.
Proof.
  intros Hlen Hlevel Hr Hna Hex Hbl.
  destruct (joined_settled display vm kept level s Hlen Hlevel Hr Hna Hex) as [Hp Hl].
  destruct (decide (i < length txs)) as [Hi|Hi]; [by apply logged_no_estimate; [|apply Hl|]|].
  rewrite (outside_entries s loc i Hp Hi). intros He.
  destruct (estimates_are_rewarded E storage block_env txs spec _ _ He) as (tx & Htx & _).
  apply lookup_lt_Some in Htx. lia.
Qed.

(** No estimate survives the block.  On a chain whose estimates are rewarded,
    when the workers have joined the accounts in the memory hold values only:
    whatever a transaction was once expected to write, it wrote or the entry is
    gone. *)
Theorem no_estimate_survives level s a i
  (Hlen : (Z.of_nat (length txs) < 2 ^ 64)%Z) (Hlevel : 0 < level)
  (Hr : preachable display vm kept level s) (Hna : abort_reason s = None) (Hex : all_exited s) :
  entry (data (mem s)) (hash_deterministic (Basic a)) i <> Some Estimate.
Proof. eapply joined_no_estimate; eauto. by eexists. Qed.

(** Nor at any other location. *)
Lemma joined_no_estimates level s l i : (Z.of_nat (length txs) < 2 ^ 64)%Z -> 0 < level ->
  preachable display vm kept level s -> abort_reason s = None -> all_exited s ->
  entry (data (mem s)) (hash_deterministic l) i <> Some Estimate.
Proof.
  intros Hlen Hlevel Hr Hna Hex.
  destruct (joined_settled display vm kept level s Hlen Hlevel Hr Hna Hex) as [Hp Hl].
  destruct (decide (i < length txs)) as [Hi|Hi]; [by apply logged_no_estimates; [|apply Hl]|].
  intros He. pose proof He as H0. rewrite (outside_entries s _ i Hp Hi) in H0. revert He.
  eapply joined_no_estimate; eauto. by eapply estimates_at_accounts.
Qed.

(** The entries lie within the block. *)
Lemma joined_in_block level s loc i : (Z.of_nat (length txs) < 2 ^ 64)%Z -> 0 < level ->
  preachable display vm kept level s -> abort_reason s = None -> all_exited s ->
  is_Some (entry (data (mem s)) loc i) -> i < length txs.
Proof.
  intros Hlen Hlevel Hr Hna Hex [e He].
  destruct (joined_settled display vm kept level s Hlen Hlevel Hr Hna Hex) as [Hp _].
  destruct (decide (i < length txs)) as [|Hi]; [done|]. exfalso. rewrite (outside_entries s loc i Hp Hi) in He.
  destruct e as [inc x|].
  - destruct (mem0_new vm) as (est & lazy & H0). rewrite H0 in He. by eapply new_no_data.
  - destruct (estimates_are_rewarded E storage block_env txs spec _ _ He) as (tx & Htx & _).
    apply lookup_lt_Some in Htx. lia.
Qed.

(** C12: on a chain whose estimates are rewarded the evaluation after the workers
    have joined never panics: not on a missing result, not on an estimate or a
    value of another kind ([unreachable!()]), and not on an index past the
    block. *)
Theorem finalise_never_panics level s addrs
  (Hlen : (Z.of_nat (length txs) < 2 ^ 64)%Z) (Hlevel : 0 < level)
  (Hinj : hash_injective) (Hst : storage_answers storage)
  (Hr : preachable display vm kept level s)
  (Hna : abort_reason s = None) (Hex : all_exited s) :
  finalise (BSE := BSE) (TE := TE) display chain storage spec txs (mem s) addrs (execution_results s) <> Panic.
Proof.
  destruct (joined_settled display vm kept level s Hlen Hlevel Hr Hna Hex) as [Hp Hl].
  unfold Pexe.finalise.
  destruct (take_results_ok (BSE := BSE) (TE := TE) (length txs) (execution_results s))
    as (rs & rest & -> & Hlr & _).
  { intros i Hi. destruct (Hl i Hi) as (mvs & mv & v & res & mv' & r & l1 & db & ws & ops & _ & _ & _ & _ & Hres & _).
    eauto. }
  cbn. apply evaluate_addresses_no_panic; [by rewrite accumulate_gas_length|]. intros a.
  apply plan_no_panic; [done|done| |].
  - eapply (memory_kinded display vm s (history s)); [done|by apply chain_rewards_accounts|done|apply Hp].
  - intros i e He. split.
    + by eapply joined_in_block, mk_is_Some.
    + intros ->. revert He. eapply joined_no_estimate; eauto. by eexists.
Qed.
End Estimates.

(** ** Witnesses

    The counter block of ParallelSpec.v, in the middle of its run and at the end. *)
Section Demo.
#[local] Existing Instance demo.

Lemma counter_rewards : rewards_to_accounts counter_vm.
Proof. split; [by eexists|done]. Qed.

Lemma counter_seen s : preachable no_error counter_vm [] 2 s -> abort_reason s = None ->
  seen counter_vm (history s) (fun _ => mem s).
Proof.
  intros Hr Ha. destruct (preachable_pinv no_error counter_vm [] 2 s ltac:(by vm_compute) ltac:(lia) Hr Ha) as [Hp _].
  exists (fun _ => length (history s)). split; [done|]. intros _. split; [done|].
  rewrite firstn_all. apply Hp.
Qed.

(** The estimates of the counter chain are at the beneficiary. *)
#[local] Instance counter_laws : ChainLaws counter_chain.
Proof. by apply beneficiary_laws. Qed.

(** The state in which the workers of the counter block have joined. *)
Lemma counter_joined : exists s, preachable no_error counter_vm [] 2 s /\ abort_reason s = None /\ all_exited s /\
  mem s = mem (scheduled no_error counter_vm [] 2 full_schedule) /\
  execution_results s = execution_results (scheduled no_error counter_vm [] 2 full_schedule).
Proof.
  destruct (demo_reachable full_schedule) as (s & Hr & Ha & Hb & Hm & _ & Hres & _).
  { eexists. vm_compute. reflexivity. }
  exists s. split; [done|]. split; [done|]. split; [|by split].
  unfold all_exited. rewrite Hb. intros w x Hw. vm_compute in Hw.
  destruct w as [|[|w]]; [injection Hw as <-; by eexists..|done].
Qed.

Lemma memory_well_kinded_witness :
  exists s, preachable no_error counter_vm [] 2 s /\ well_kinded (data (mem s)).
Proof.
  destruct (demo_reachable conflict_schedule) as (s & Hr & Ha & _).
  { eexists. vm_compute. reflexivity. }
  exists s. split; [exact Hr|].
  exact (memory_well_kinded no_error counter_vm [] 2 s ltac:(by vm_compute) ltac:(lia) Hr Ha counter_rewards).
Defined.

Lemma reads_well_typed_witness :
  exists s, preachable no_error counter_vm [] 2 s /\
    execute no_error counter_vm (fun _ => mem s) (mem s) {| tx_idx := 1; tx_incarnation := 1 |}
      <> Err (ExecutionError (inl InvalidMemoryValueType)).
Proof.
  destruct (demo_reachable conflict_schedule) as (s & Hr & Ha & _).
  { eexists. vm_compute. reflexivity. }
  exists s. split; [exact Hr|].
  exact (reads_well_typed no_error counter_vm [] 2 s _ _ ltac:(by vm_compute) ltac:(lia) demo_hash_injective
    counter_rewards Hr Ha (counter_seen s Hr Ha)).
Defined.

Lemma every_transaction_has_a_result_witness :
  exists s rs rest, preachable no_error counter_vm [] 2 s /\
    take_results (BSE := unit) (TE := unit) 2 (execution_results s) = Ok (rs, rest) /\ length rs = 2.
Proof.
  destruct counter_joined as (s & Hr & Ha & Hex & _).
  destruct (every_transaction_has_a_result no_error counter_vm [] 2 s ltac:(by vm_compute) ltac:(lia) Hr Ha Hex)
    as (rs & rest & H1 & H2 & _).
  exists s, rs, rest. split; [exact Hr|]. split; [exact H1|exact H2].
Defined.

Lemma no_estimate_survives_witness :
  exists s, preachable no_error counter_vm [] 2 s /\
    entry (data (mem s)) (hash_deterministic (Basic 3%Z)) 1 <> Some Estimate.
Proof.
  destruct counter_joined as (s & Hr & Ha & Hex & _). exists s. split; [exact Hr|].
  exact (no_estimate_survives no_error counter_chain demo_storage tt (demo_block_env 3 2) [demo_tx; demo_tx] [] 2 s 3%Z 1
    ltac:(by vm_compute) ltac:(lia) Hr Ha Hex).
Defined.

Lemma counter_storage_answers : storage_answers demo_storage.
Proof. split; by intros x. Qed.

Lemma finalise_never_panics_witness :
  exists s, preachable no_error counter_vm [] 2 s /\
    finalise (BSE := unit) (TE := unit) no_error counter_chain demo_storage tt [demo_tx; demo_tx] (mem s) [3%Z]
      (execution_results s) <> Panic.
Proof.
  destruct counter_joined as (s & Hr & Ha & Hex & _). exists s. split; [exact Hr|].
  exact (finalise_never_panics no_error counter_chain demo_storage tt (demo_block_env 3 2) [demo_tx; demo_tx] [] 2 s [3%Z]
    ltac:(by vm_compute) ltac:(lia) demo_hash_injective counter_storage_answers Hr Ha Hex).
Defined.

Definition receipt_of (gas : Z) : PexeTxExecutionResult := mkPexeTxExecutionResult (mkReceipt true gas []) ∅.

(** Two lazy addresses: transaction 0 credits accounts 3 and 4. *)
Definition credited_mv : MvMemory Bytecode :=
  default (MvMemory_new 1 [] []) (apply_ops (MvMemory_new 1 [] [])
    [OpRecord {| tx_idx := 0; tx_incarnation := 0 |} ∅
       [(hash_deterministic (Basic 3), LazyRecipient 10%Z); (hash_deterministic (Basic 4), LazyRecipient 20%Z)]]).

Lemma evaluation_order_irrelevant_witness :
  exists results,
    finalise (BSE := unit) (TE := unit) no_error counter_chain demo_storage tt [demo_tx] credited_mv [3; 4]%Z
      [Some (receipt_of 21000)] = Ok results /\
    finalise (BSE := unit) (TE := unit) no_error counter_chain demo_storage tt [demo_tx] credited_mv [4; 3]%Z
      [Some (receipt_of 21000)] = Ok results /\
    (ea_balance <$> (r ← results !! 0; default None (tx_state r !! 4%Z))) = Some 20%Z.
Proof.
  eexists. split; [vm_compute; reflexivity|]. split; [|by vm_compute].
  apply (evaluation_order_irrelevant no_error counter_chain demo_storage tt [demo_tx] credited_mv [3; 4]%Z [4; 3]%Z);
    [|apply Permutation_swap|by vm_compute].
  apply (bool_decide_unpack _). by vm_compute.
Defined.

Lemma cumulative_gas_is_prefix_sum_witness :
  exists r', accumulate_gas 0 [receipt_of 21000; receipt_of 30000] !! 1 = Some r' /\
    cumulative_gas_used (receipt r') = 51000%Z.
Proof.
  destruct (cumulative_gas_is_prefix_sum [receipt_of 21000; receipt_of 30000] 1 (receipt_of 30000))
    as (r' & H & _ & _ & _ & Hg); [by repeat constructor|done|].
  exists r'. split; [exact H|]. rewrite Hg. by vm_compute.
Defined.
End Demo.
