(* ===== verification/SequentialRuns.v ===== *)
(** * SequentialRuns: what the reference runs, the engine runs (vm.rs)

    The other direction of Sequential.v.  On a memory whose chains are those of the
    journal, every read that the reference answers is answered by the database, and
    a transaction that the reference executes, lazily or not, is executed by
    [Vm::execute].  The read set that this leaves is current: it validates on that
    memory. *)

From S2P Require Import Prelude Types Platform Storage MvMemory MvMemorySpec.
From S2P Require Import VmDb VmDbLemmas VmDbReplay Vm VmSpec ParallelCodes ParallelSystem ParallelInv Kinds Sequential.
#[local] Open Scope Z_scope.

Section Runs.
Context {P : Platform} {E : Type} (display : E -> string) {SpecId : Type}.
Context (vm : Vm (P := P) (E := E) SpecId).
Context (mv : MvMemory Bytecode) (J : journal) (i : TxIdx).
Abbreviation storage := (vm_storage vm).
Abbreviation codes := (new_bytecodes mv).

(** The journal holds the chains below [i], and there is one at every location. *)
Context (HJ : forall l, exists os, read_chain (data mv) (hash_deterministic l) i = inr (os, J (hash_deterministic l))).
Context (Hinj : hash_injective) (Hkinds : well_kinded (data mv)).

(** ** Read sets that are current *)

Definition reads_current (db : VmDb) : Prop :=
  forall loc os, read_set db !! loc = Some os -> exists vs, read_chain (data mv) loc i = inr (os, vs).

Lemma reads_current_put db loc os vs : reads_current db -> read_chain (data mv) loc i = inr (os, vs) ->
  reads_current (put_origins loc os db).
Proof.
  intros Hc Hr loc' os'. cbn. intros [[<- <-]|[_ Hl]]%lookup_insert_Some; [by exists vs|by apply Hc].
Qed.

Lemma reads_current_origins db loc os vs : reads_current db -> read_chain (data mv) loc i = inr (os, vs) ->
  origins_at loc db = [] \/ origins_at loc db = os.
Proof.
  intros Hc Hr. unfold origins_at. destruct (read_set db !! loc) as [os'|] eqn:Hl; cbn; [right|by left].
  destruct (Hc _ _ Hl) as [vs' Hr']. congruence.
Qed.

Lemma reads_current_push db loc o vs : reads_current db -> read_chain (data mv) loc i = inr ([o], vs) ->
  push_origin (origins_at loc db) o = Ok [o].
Proof.
  intros Hc Hr. destruct (reads_current_origins _ _ _ _ Hc Hr) as [->| ->]; [done|]. cbn.
  unfold push_origin. cbn. by rewrite decide_True.
Qed.

Lemma reads_current_validate db loc os : reads_current db -> read_set db !! loc = Some os ->
  validate_location mv i loc os = true.
Proof.
  intros Hc Hl. destruct (Hc _ _ Hl) as [vs Hr]. apply (validate_location_chain (data mv) mv i loc os vs); [|done..].
  intros k inc v v'. congruence.
Qed.

(** ** Reads *)

Lemma code_hash_runs db a h : db_tx_idx db = i -> reads_current db -> seq_code_hash display vm J a = Ok h ->
  exists db', get_code_hash display storage mv db a = Ok (h, db') /\ erase db' = erase db /\ reads_current db'.
Proof.
  intros Hi Hc H. destruct (HJ (CodeHash a)) as [os Hr]. pose proof Hr as Hch. unfold read_chain in Hch.
  assert (forall o, os = [o] -> code_found display storage (entries_below (data mv) (hash_deterministic (CodeHash a)) i) a o h ->
    exists db', get_code_hash display storage mv db a = Ok (h, db') /\ erase db' = erase db /\ reads_current db') as Hgo.
  { intros o -> Hf. exists (put_origins (hash_deterministic (CodeHash a)) [o] db).
    split; [|split; [done|by eapply reads_current_put]]. apply get_code_hash_iff. exists o, [o]. rewrite Hi.
    split; [done|]. split; [by eapply reads_current_push|done]. }
  pose proof (chain_head _ _ _ Hch) as [_ Hhead]. unfold seq_code_hash in H.
  destruct (entries_below (data mv) _ i) as [|[k [inc v|]] es] eqn:Hes; [| |done].
  - rewrite Hhead in H. injection Hch as <- _. by apply (Hgo FromStorage).
  - rewrite Hhead in H. assert (kind_ok (hash_deterministic (CodeHash a)) v) as Hv.
    { apply (Hkinds _ k inc). eapply entries_below_elem. rewrite Hes. by left. }
    destruct v as [b|h'|slot|b|b|]; try done; try (destruct Hv as (? & Hv); by apply Hinj in Hv).
    + injection H as <-. cbn in Hch. injection Hch as <- _. by apply (Hgo (mv_origin k inc)).
    + destruct Hv as (? & ? & Hv). by apply Hinj in Hv.
Qed.

Lemma storage_runs db a slot v : db_tx_idx db = i -> reads_current db -> seq_storage display vm J a slot = Ok v ->
  exists db', read_storage display storage mv db a slot = Ok (v, db') /\ erase db' = erase db /\ reads_current db'.
Proof.
  intros Hi Hc H. destruct (HJ (StorageLoc a slot)) as [os Hr]. pose proof Hr as Hch. unfold read_chain in Hch.
  assert (forall o, os = [o] -> slot_found display storage (entries_below (data mv) (hash_deterministic (StorageLoc a slot)) i) a slot o v ->
    exists db', read_storage display storage mv db a slot = Ok (v, db') /\ erase db' = erase db /\ reads_current db') as Hgo.
  { intros o -> Hf. exists (put_origins (hash_deterministic (StorageLoc a slot)) [o] db).
    split; [|split; [done|by eapply reads_current_put]]. apply read_storage_iff. exists o, [o]. rewrite Hi.
    split; [done|]. split; [by eapply reads_current_push|done]. }
  pose proof (chain_head _ _ _ Hch) as [_ Hhead]. unfold seq_storage in H.
  destruct (entries_below (data mv) _ i) as [|[k [inc w|]] es] eqn:Hes; [| |done].
  - rewrite Hhead in H. injection Hch as <- _. by apply (Hgo FromStorage).
  - rewrite Hhead in H. destruct w; try done. injection H as <-. cbn in Hch. injection Hch as <- _.
    by apply (Hgo (mv_origin k inc)).
Qed.

Lemma basic_runs db a x edb : db_tx_idx db = i -> db_hashes db -> reads_current db ->
  seq_basic display vm codes J (erase db) a = Ok (x, edb) ->
  exists db', basic display storage mv db a = Ok (x, db') /\ erase db' = edb /\ reads_current db'.
Proof.
  intros Hi Hh Hc. rewrite basic_unfold, (hash_basic_eq db a Hh). unfold seq_basic. cbn.
  destruct (_ && _); [intros [= <- <-]; by exists db|]. destruct (_ && _); [intros [= <- <-]; by exists db|].
  intros (account & Ha & H)%outcome_bind_ok. destruct (HJ (Basic a)) as [os Hr].
  set (loc := hash_deterministic (Basic a)) in *.
  assert (chain_account display storage a os (J loc) = Ok account) as Hacc.
  { unfold seq_account in Ha. eapply chain_account_origins; [|exact Ha]. by apply (chain_head _ _ _ Hr). }
  pose proof (reads_current_put db loc os (J loc) Hc Hr) as Hc1. set (db1 := put_origins loc os db) in *.
  rewrite (basic_read_chain display storage mv db a loc os (J loc)); [|by rewrite Hi|by eapply reads_current_origins].
  rewrite Hacc. cbn [outcome_bind mbind]. destruct account as [account|]; [|injection H as <- <-; by exists db1].
  unfold finish_basic. cbn -[loc]. destruct (_ && _); [done|]. fold db1.
  apply outcome_bind_ok in H as (h & Hh1 & (code & Hcode & [= <- <-])%outcome_bind_ok).
  assert (exists db2, (if decide (Some loc = to_hash db) then Ok (to_code_hash db, db1)
    else get_code_hash display storage mv db1 a) = Ok (h, db2) /\ erase db2 = erase db /\ reads_current db2) as (db2 & -> & He & Hc2).
  { revert Hh1. case_decide; [intros [= <-]; by exists db1|]. intros Hh1.
    by destruct (code_hash_runs db1 a h Hi Hc1 Hh1) as (db2 & ? & ? & ?); exists db2. }
  cbn. assert (load_code display storage mv h = Ok code) as -> by exact Hcode. cbn.
  eexists. split; [done|]. split; [|exact Hc2]. unfold erase, set_read_accounts, set_read_set in *. cbn in *.
  injection He as -> -> -> -> -> -> ->. done.
Qed.

Lemma evm_runs {R} k (t : evm_run R) db r edb : db_tx_idx db = i -> db_hashes db -> reads_current db ->
  seq_run display vm codes J t (erase db) = Ok (r, edb) ->
  exists db', run_evm display storage (fun _ => mv) k t db = Ok (r, db') /\ erase db' = edb /\ reads_current db'.
Proof.
  revert k db. induction t as [x|a c IH|h c IH|a slot c IH|n c IH]; intros k db Hi Hh Hc; cbn.
  - intros [= <- <-]. by exists db.
  - intros ([x edb1] & H1 & H2)%outcome_bind_ok.
    destruct (basic_runs db a x edb1 Hi Hh Hc H1) as (db1 & Hb & <- & Hc1).
    pose proof (basic_extends _ _ _ _ _ _ _ Hh Hb) as He. rewrite Hb. cbn.
    apply (IH x (S k) db1); [by rewrite (ext_idx _ _ He)|by eapply db_hashes_extends|done|done].
  - intros (x & H1 & H2)%outcome_bind_ok. rewrite H1. by apply IH.
  - intros (x & H1 & H2)%outcome_bind_ok.
    destruct (storage_runs db a slot x Hi Hc H1) as (db1 & Hb & Heq & Hc1).
    pose proof (read_storage_extends _ _ _ _ _ _ _ _ Hb) as He. rewrite Hb. cbn. rewrite <- Heq in H2.
    apply (IH x (S k) db1); [by rewrite (ext_idx _ _ He)|by eapply db_hashes_extends|done|done].
  - intros (x & H1 & H2)%outcome_bind_ok. rewrite H1. by apply IH.
Qed.

(** ** Refusals

    Of all that a reference transaction does, only the check of the sender's nonce
    fails with [InvalidNonce]; the engine waits for the transaction before. *)

Lemma from_storage_nonce {A} (m : outcome E A) j : from_storage display m <> Err (InvalidNonce j).
Proof. by destruct m. Qed.

Lemma seq_code_hash_nonce a j : seq_code_hash display vm J a <> Err (InvalidNonce j).
Proof. unfold seq_code_hash. destruct (head _) as [[]|]; (done || apply from_storage_nonce). Qed.

Lemma seq_storage_nonce a slot j : seq_storage display vm J a slot <> Err (InvalidNonce j).
Proof. unfold seq_storage. destruct (head _) as [[]|]; (done || apply from_storage_nonce). Qed.

Lemma load_code_nonce m h j : load_code display storage m h <> Err (InvalidNonce j).
Proof.
  unfold load_code. destruct h as [h|]; [|done]. destruct (_ !! h); [done|].
  intros [He|(c & _ & He)]%outcome_bind_err; [by apply from_storage_nonce in He|].
  destruct c as [c|]; [|done]. apply outcome_bind_err in He as [He|(b & _ & [=])]. by destruct (Bytecode_try_from c).
Qed.

Lemma code_by_hash_nonce h j : code_by_hash display storage h <> Err (InvalidNonce j).
Proof.
  intros [He|(c & _ & He)]%outcome_bind_err; [by apply from_storage_nonce in He|].
  destruct c as [c|]; [|done]. by destruct (Bytecode_try_from c).
Qed.

Lemma seq_account_nonce a j : seq_account display vm J a <> Err (InvalidNonce j).
Proof.
  intros [He|(acc & _ & He)]%outcome_bind_err.
  - revert He. generalize lazy_acc_0 as acc. generalize (replicate (length (J (hash_deterministic (Basic a)))) FromStorage) as os.
    induction (J (hash_deterministic (Basic a))) as [|v vs IH]; intros [|o os] acc; cbn; try done.
    destruct (add_value acc o v) as [acc'|]; [|done]. destruct (final_account acc'); [done|apply IH].
  - destruct (final_account acc); [done|]. apply outcome_bind_err in He as [He|(st & _ & [=])].
    by apply from_storage_nonce in He.
Qed.

Lemma basic_refuses db a : 0 < Z.of_nat i -> db_tx_idx db = i -> db_hashes db -> reads_current db ->
  seq_basic display vm codes J (erase db) a = Err (InvalidNonce i) ->
  basic display storage mv db a = Err (Blocking (i - 1)).
Proof.
  intros Hpos Hi Hh Hc. rewrite basic_unfold, (hash_basic_eq db a Hh). unfold seq_basic. cbn.
  destruct (_ && _); [done|]. destruct (_ && _); [done|].
  intros [H|(account & Ha & H)]%outcome_bind_err; [by apply seq_account_nonce in H|].
  destruct (HJ (Basic a)) as [os Hr]. set (loc := hash_deterministic (Basic a)) in *.
  assert (chain_account display storage a os (J loc) = Ok account) as Hacc.
  { unfold seq_account in Ha. eapply chain_account_origins; [|exact Ha]. by apply (chain_head _ _ _ Hr). }
  rewrite (basic_read_chain display storage mv db a loc os (J loc)); [|by rewrite Hi|by eapply reads_current_origins].
  rewrite Hacc. cbn [outcome_bind mbind]. destruct account as [account|]; [|done].
  unfold finish_basic. cbn -[loc]. destruct (_ && _).
  - rewrite Hi. destruct (Nat.ltb_spec 0 i); [done|lia].
  - exfalso. apply outcome_bind_err in H as [H|(h & _ & H)].
    + revert H. case_decide; [done|]. apply seq_code_hash_nonce.
    + apply outcome_bind_err in H as [H|(c & _ & [=])]. by apply load_code_nonce in H.
Qed.

Lemma evm_refuses {R} k (t : evm_run R) db : 0 < Z.of_nat i -> db_tx_idx db = i -> db_hashes db -> reads_current db ->
  seq_run display vm codes J t (erase db) = Err (InvalidNonce i) ->
  run_evm display storage (fun _ => mv) k t db = Err (Blocking (i - 1)).
Proof.
  intros Hpos. revert k db. induction t as [x|a c IH|h c IH|a slot c IH|n c IH]; intros k db Hi Hh Hc; cbn; [done|..];
    intros [He|(x & H1 & H2)]%outcome_bind_err.
  - by rewrite (basic_refuses db a Hpos Hi Hh Hc He).
  - destruct x as [x edb1]. destruct (basic_runs db a x edb1 Hi Hh Hc H1) as (db1 & Hb & <- & Hc1).
    pose proof (basic_extends _ _ _ _ _ _ _ Hh Hb) as He. rewrite Hb. cbn.
    apply (IH x (S k) db1); [by rewrite (ext_idx _ _ He)|by eapply db_hashes_extends|done|done].
  - by apply code_by_hash_nonce in He.
  - rewrite H1. by apply IH.
  - by apply seq_storage_nonce in He.
  - destruct (storage_runs db a slot x Hi Hc H1) as (db1 & Hb & Heq & Hc1).
    pose proof (read_storage_extends _ _ _ _ _ _ _ _ Hb) as He. rewrite Hb. cbn. rewrite <- Heq in H2.
    apply (IH x (S k) db1); [by rewrite (ext_idx _ _ He)|by eapply db_hashes_extends|done|done].
  - by apply from_storage_nonce in He.
  - rewrite H1. by apply IH.
Qed.

(** ** Transactions *)

(** The database of a transaction; how lazy it is the memory decides. *)
Lemma new_runs tx edb : seq_new display vm J i tx false = Ok edb ->
  exists db, VmDb_new display storage mv i tx (tx_from_hash tx) (tx_to_hash tx) = Ok db /\ reads_current db /\
    seq_new display vm J i tx (is_lazy db) = Ok (erase db).
Proof.
  unfold seq_new. destruct (transact_to tx) as [|to] eqn:Ht.
  - intros _. exists (mkVmDb i tx (tx_from_hash tx) (tx_to_hash tx) None false ∅ ∅).
    unfold VmDb_new. rewrite Ht. split; [done|]. split; [|done]. intros loc os. cbn. by rewrite lookup_empty.
  - intros (h & Hh & _)%outcome_bind_ok. set (db0 := mkVmDb i tx (tx_from_hash tx) (tx_to_hash tx) None false ∅ ∅).
    destruct (code_hash_runs db0 to h eq_refl) as (db1 & H1 & He & Hc); [|done|].
    { intros loc os. cbn. by rewrite lookup_empty. }
    destruct (VmDb_new_call display storage mv i tx (tx_from_hash tx) (hash_deterministic (Basic to)) to h db1 Ht)
      as [lazy Hn]; [revert H1; unfold db0, tx_to_hash; by rewrite Ht|].
    assert (tx_to_hash tx = Some (hash_deterministic (Basic to))) as Hto by (unfold tx_to_hash; by rewrite Ht).
    exists (set_lazy h lazy db1). rewrite Hto. split; [done|]. split; [exact Hc|]. rewrite Hh. cbn.
    assert (lazy = true -> h = None) as Hlz.
    { intros ->. by apply (VmDb_new_lazy _ _ _ _ _ _ _ _ Hn). }
    assert (lazy && bool_decide (h = None) = lazy) as ->
      by (destruct lazy; [by rewrite bool_decide_eq_true_2 by auto|done]).
    unfold erase, set_read_set, set_lazy in *. cbn in *. rewrite <- Hto. injection He as -> -> -> -> _ _ ->. done.
Qed.

(** A transaction that the reference executes, lazily and not, is executed. *)
Lemma execute_runs v tx : tx_idx v = i -> vm_txs vm !! i = Some tx -> is_Some (last_locations mv !! i) ->
  (forall lazy, exists out, seq_execute display vm codes J i tx lazy = Ok out) ->
  exists res mv', execute display vm (fun _ => mv) mv v = Ok (res, mv') /\
    forall out db, execute_reads display vm (fun _ => mv) i tx = Ok (out, db) -> reads_current db.
Proof.
  intros Hv Htx [ll Hll] Hseq.
  assert (exists edb, seq_new display vm J i tx false = Ok edb) as [edb0 H0].
  { destruct (Hseq false) as [out H]. unfold seq_execute in H.
    apply outcome_bind_ok in H as (? & (edb & ? & _)%map_err_ok%outcome_bind_ok & _). by exists edb. }
  destruct (new_runs tx edb0 H0) as (db0 & Hnew & Hc0 & Hsn).
  destruct (tx_hashes _ _ _ _ _ _ Hnew) as (Hh & _ & Hi & _).
  destruct (Hseq (is_lazy db0)) as [[res0 ws] H]. unfold seq_execute in H. rewrite Hsn in H. cbn [outcome_bind mbind] in H.
  apply outcome_bind_ok in H as ([[out l1] edb] & Hrun%map_err_ok & H).
  destruct (evm_runs 1 _ db0 _ _ Hi Hh Hc0 Hrun) as (db & Hex & <- & Hc).
  destruct out as [err|r]; [done|].
  apply outcome_bind_ok in H as ([ws0 codes'] & Hws & (ws1 & Hrw & Hres)%outcome_bind_ok).
  assert (execute_reads display vm (fun _ => mv) i tx = Ok ((inr r, l1), db)) as Hreads.
  { unfold execute_reads. rewrite Hnew. cbn. by rewrite map_err_ok. }
  assert (forall l c, state_writes (is_eip_161_enabled (vm_chain vm) (vm_spec_id vm)) db tx l c =
    state_writes (is_eip_161_enabled (vm_chain vm) (vm_spec_id vm)) (erase db) tx l c) as Hsw.
  { induction l as [|[a acc] l IH]; intros c; cbn [state_writes]; [done|]. apply outcome_bind_ext. intros [w c']. by rewrite IH. }
  destruct (from_revm (vm_chain vm) (vm_spec_id vm) r) as [fin|[]|] eqn:Hfin; [|done].
  pose proof (run_evm_extends _ _ _ _ _ _ _ _ Hh Hex) as Hext.
  assert (exists mv1, (if is_lazy db then to ← unwrap (TxKind_to (transact_to tx));
      Ok (E := VmExecutionError) (add_lazy_addresses (mkMvMemory (data mv) (last_locations mv) (lazy_addresses mv) codes') [caller tx; to])
    else Ok (mkMvMemory (data mv) (last_locations mv) (lazy_addresses mv) codes')) = Ok mv1 /\
    last_locations mv1 = last_locations mv) as (mv1 & Hmv1 & Hl1).
  { destruct (is_lazy db) eqn:Hlz; [|eauto]. rewrite (ext_lazy _ _ Hext) in Hlz.
    destruct (VmDb_new_lazy _ _ _ _ _ _ _ _ Hnew Hlz) as [_ Hcr]. destruct (transact_to tx) as [|to]; [done|]. cbn. eauto. }
  destruct (record_full mv1 v (read_set db) ws1 ll) as (b & locs & d & Hrec & _); [by rewrite Hl1, Hv|].
  eexists _, _. split.
  - unfold execute. rewrite Hv, Htx. cbn [unwrap outcome_bind mbind]. rewrite Hreads. cbn [outcome_bind mbind].
    unfold execute_writes. rewrite Hsw, Hws. cbn [outcome_bind mbind]. rewrite Hrw. cbn [outcome_bind mbind]. cbv zeta.
    rewrite Hmv1. cbn [outcome_bind mbind]. rewrite Hrec. cbn. rewrite Hfin. done.
  - intros out db'. rewrite Hreads. by intros [= <- <-].
Qed.
End Runs.
