(* ===== verification/SequentialSpec.v ===== *)
(** * SequentialSpec: parallel execution is sequential execution (pexe.rs, vm.rs)

    The workers of [execute_revm_parallel] compute what the reference of
    Sequential.v computes, one transaction after the other. *)

From S2P Require Import Prelude Types Scheduler SchedulerSystem SchedulerTheorems Platform Storage.
From S2P Require Import MvMemory MvMemorySpec VmDb VmDbLemmas VmDbReplay Vm VmSpec.
From S2P Require Import ParallelCodes Sequential ParallelSystem ParallelInv ParallelSpec Kinds Pexe PexeLemmas PexeSpec.
#[local] Open Scope nat_scope.

Section Spec.
Context {P : Platform} {E : Type} (display : E -> string) {SpecId : Type}.
Context (chain : PexeChain SpecId) `{Hlaws : !ChainLaws chain} (storage : Storage E) (spec : SpecId).
Context (block_env : BlockEnv) (txs : list TxEnv) (kept : list (option PexeTxExecutionResult)).
Abbreviation vm := (Vm_new storage chain block_env txs spec).
Implicit Types s : pstate (P := P).

(** A serialised transaction is a step of the reference. *)
Lemma serialised_seq s i tx J : serialised display vm s i tx ->
  journal_at (data (mem s)) i J -> code_chains (data (mem s)) i ->
  exists lazy res ws inc, seq_execute display vm (new_bytecodes (mem s)) J i tx lazy = Ok (res, ws) /\
    execution_results s !! i = Some (Some res) /\
    forall loc inc' x, entry (data (mem s)) loc i = Some (Data inc' x) <-> inc' = inc /\ last_write loc ws = Some x.
Proof.
  intros (v & r & l1 & db & ws0 & ws & codes & codes' & res & <- & Hx & Hlz & Hws & Hcs & Hrw & Hent & Hres & Hslot) HJ Hcc.
  exists (is_lazy db), res, ws, (tx_incarnation v). split; [|done]. unfold seq_execute.
  apply outcome_bind_ok. exists ((inr r, l1), erase db).
  split; [by apply (execute_reads_seq display vm _ (mem s) J _ eq_refl HJ Hcc)|].
  apply outcome_bind_ok. exists (ws0, new_bytecodes (mem s)). split; [by eapply state_writes_seq|].
  apply outcome_bind_ok. exists ws. split; [done|]. by rewrite Hres.
Qed.

(** What the joined state holds for the transactions from the [i]-th on. *)
Definition holds_outputs s (i : TxIdx) (outs : list (PexeTxExecutionResult * WriteSet)) : Prop :=
  forall k res ws, outs !! k = Some (res, ws) ->
    execution_results s !! (i + k) = Some (Some res) /\
    exists inc, forall loc inc' x, entry (data (mem s)) loc (i + k) = Some (Data inc' x) <->
      inc' = inc /\ last_write loc ws = Some x.

Lemma seq_block_joined s suffix pre J : (pre ++ suffix) `prefix_of` txs ->
  (forall i tx, i < length (pre ++ suffix) -> txs !! i = Some tx -> serialised display vm s i tx) ->
  (forall i, i <= length (pre ++ suffix) -> code_chains (data (mem s)) i) ->
  journal_at (data (mem s)) (length pre) J ->
  exists lazies outs J', length lazies = length suffix /\
    seq_block display vm (new_bytecodes (mem s)) (length pre) suffix lazies J = Ok (outs, J') /\
    holds_outputs s (length pre) outs /\ journal_at (data (mem s)) (length (pre ++ suffix)) J'.
Proof.
  revert pre J. induction suffix as [|tx suffix IH]; intros pre J Htxs Hser Hcc HJ.
  { exists [], [], J. split; [done|]. split; [done|]. split; [done|]. by rewrite app_nil_r. }
  assert (length pre < length (pre ++ tx :: suffix)) as Hlt by (rewrite length_app; cbn; lia).
  assert (txs !! length pre = Some tx) as Htx.
  { eapply prefix_lookup_Some; [|exact Htxs]. by apply list_lookup_middle. }
  assert (S (length pre) = length (pre ++ [tx])) as Hlen by (rewrite length_app; cbn; lia).
  destruct (serialised_seq s _ tx J (Hser _ _ Hlt Htx) HJ (Hcc (length pre) ltac:(lia))) as (lazy & res & ws & inc & Hx & Hres & Hent).
  apply (journal_at_S _ _ _ _ _ Hent) in HJ. rewrite Hlen in HJ.
  assert (pre ++ tx :: suffix = (pre ++ [tx]) ++ suffix) as Happ by by rewrite <- app_assoc.
  rewrite Happ in Htxs, Hser, Hcc |- *.
  destruct (IH (pre ++ [tx]) _ Htxs Hser Hcc HJ) as (lazies & outs & J' & Hl & Hb & Ho & HJ').
  exists (lazy :: lazies), ((res, ws) :: outs), J'. split; [by cbn; rewrite Hl|]. split; [|split; [|done]].
  - unfold seq_block in *. cbn -[seq_execute]. rewrite Hx. cbn -[seq_execute]. rewrite Hlen. by rewrite Hb.
  - intros [|k] res' ws'; cbn; [intros [= <- <-]; rewrite Nat.add_0_r; by eauto|].
    rewrite <- Nat.add_succ_comm, Hlen. apply Ho.
Qed.

(** The joined state is that of a run of the reference. *)
Record joined_run s (lazies : list bool) (outs : list (PexeTxExecutionResult * WriteSet)) (J : journal) : Prop := {
  jr_lazies : length lazies = length txs;
  jr_block : seq_block display vm (new_bytecodes (mem s)) 0 txs lazies journal_empty = Ok (outs, J);
  jr_outputs : holds_outputs s 0 outs;
  jr_memory : forall l, exists os,
    read_chain (data (mem s)) (hash_deterministic l) (length txs) = inr (os, J (hash_deterministic l));
}.

Lemma joined_is_run level s : (Z.of_nat (length txs) < 2 ^ 64)%Z -> 0 < level -> hash_injective ->
  preachable display vm kept level s -> content_addressed storage (new_bytecodes (mem s)) ->
  abort_reason s = None -> all_exited s -> exists lazies outs J, joined_run s lazies outs J.
Proof.
  intros Hlen Hlevel Hinj Hr Hcodes Hna Hex.
  pose proof (joined_serialised display vm kept level s Hlen Hlevel Hinj Hr Hcodes Hna Hex) as [_ Hser].
  assert (forall l i, exists os vs, read_chain (data (mem s)) (hash_deterministic l) i = inr (os, vs)) as Hch
    by (intros l i; apply read_chain_total; intros k; by eapply joined_no_estimates).
  destruct (seq_block_joined s txs [] journal_empty (reflexivity txs : [] ++ txs `prefix_of` txs) (fun i tx _ => Hser i tx) (fun i _ a => Hch _ i) (journal_at_0 _))
    as (lazies & outs & J & Hl & Hb & Ho & HJ).
  exists lazies, outs, J. split; [done..|].
  intros l. destruct (Hch l (length txs)) as (os & vs & Hc). exists os. by rewrite (HJ _ _ _ Hc).
Qed.

Lemma joined_run_results s lazies outs J : joined_run s lazies outs J ->
  take (length txs) (execution_results s) = Some <$> outs.*1.
Proof.
  intros [_ Hb Ho _]. apply run_block_after in Hb as [Hl _]. apply list_eq. intros k.
  rewrite !list_lookup_fmap. destruct (decide (k < length txs)) as [Hk|Hk].
  - rewrite lookup_take_lt by done. rewrite <- Hl in Hk. apply lookup_lt_is_Some in Hk as [[res ws] Hk].
    pose proof (proj1 (Ho _ _ _ Hk)) as Hres. cbn in Hres. by rewrite Hres, Hk.
  - rewrite lookup_take_ge by lia. by rewrite lookup_ge_None_2 by lia.
Qed.

(** C2: parallel execution is sequential execution.  When the workers have joined
    without an abort, whatever their interleaving and whatever their reads saw,
    the results are those of the reference, which executes the transactions one
    after the other on a journal of the values written so far, for some choice of
    the lazy transfers; and at every location the memory holds what the journal
    holds after the last transaction. *)
Theorem parallel_is_sequential level s
  (Hlen : (Z.of_nat (length txs) < 2 ^ 64)%Z) (Hlevel : 0 < level)
  (Hinj : hash_injective)
  (Hr : preachable display vm kept level s)
  (Hcodes : content_addressed storage (new_bytecodes (mem s)))
  (Hna : abort_reason s = None) (Hex : all_exited s) :
  exists lazies outs J, length lazies = length txs /\
    seq_block display vm (new_bytecodes (mem s)) 0 txs lazies journal_empty = Ok (outs, J) /\
    take (length txs) (execution_results s) = Some <$> outs.*1 /\
    forall l, exists os, read_chain (data (mem s)) (hash_deterministic l) (length txs) = inr (os, J (hash_deterministic l)).
Proof.
  destruct (joined_is_run level s Hlen Hlevel Hinj Hr Hcodes Hna Hex) as (lazies & outs & J & Hrun).
  exists lazies, outs, J. pose proof (joined_run_results _ _ _ _ Hrun). by destruct Hrun.
Qed.
End Spec.

(** ** Witness

    The counter block of ParallelSpec.v: transaction 1 was executed too early and
    again after transaction 0; the reference gives the same gas and counts to 2. *)
Section Demo.
#[local] Existing Instance demo.
#[local] Existing Instance counter_laws.

Lemma parallel_is_sequential_witness :
  exists s lazies outs J, preachable no_error counter_vm [] 2 s /\
    seq_block no_error counter_vm (new_bytecodes (mem s)) 0 [demo_tx; demo_tx] lazies journal_empty = Ok (outs, J) /\
    take 2 (execution_results s) = Some <$> outs.*1 /\
    (fun res => cumulative_gas_used (receipt res)) <$> outs.*1 = [21000; 21001]%Z.
Proof.
  destruct counter_joined as (s & Hr & Ha & Hex & _ & Hres).
  destruct (parallel_is_sequential no_error counter_chain demo_storage tt (demo_block_env 3 2) [demo_tx; demo_tx] [] 2 s
    ltac:(by vm_compute) ltac:(lia) demo_hash_injective Hr (demo_content _) Ha Hex)
    as (lazies & outs & J & _ & Hb & Hrs & _).
  exists s, lazies, outs, J. split; [exact Hr|]. split; [exact Hb|]. split; [exact Hrs|].
  clear Hb. rewrite Hres in Hrs. destruct outs as [|[r0 w0] [|[r1 w1] [|? ?]]]; vm_compute in Hrs;
    [discriminate Hrs..| |discriminate Hrs]. by injection Hrs as <- <-.
Defined.
End Demo.
