(* ===== verification/Settled.v ===== *)
(** * Settled: the transactions below the first that is not settled (pexe.rs)

    In a running block the transactions below some index may all be done, each with
    reads that still hold (ParallelProgress.v, [firm_below]).  They are a run of the
    reference on a prefix of the block.  And once no validation of them looks at
    older reads, no step touches them again: the memory below that index stays as it
    is for the rest of the block. *)

From S2P Require Import Prelude Types Scheduler SchedulerSystem SchedulerTheorems Platform Storage.
From S2P Require Import MvMemory MvMemorySpec VmDb VmDbLemmas VmDbReplay Vm VmSpec.
From S2P Require Import ParallelCodes Sequential ParallelSystem ParallelInv ParallelSpec ParallelProgress.
From S2P Require Import Kinds Pexe PexeLemmas PexeSpec SequentialRuns SequentialSpec.
#[local] Open Scope nat_scope.

Section Settled.
Context {P : Platform} {E : Type} (display : E -> string) {SpecId : Type}.
Context (chain : PexeChain SpecId) `{Hlaws : !ChainLaws chain} (storage : Storage E) (spec : SpecId).
Context (block_env : BlockEnv) (txs : list TxEnv) (kept : list (option PexeTxExecutionResult)).
Abbreviation vm := (Vm_new storage chain block_env txs spec).
Context (level : nat) (Hlen : (Z.of_nat (length txs) < 2 ^ 64)%Z) (Hlevel : 0 < level) (Hinj : hash_injective).
Abbreviation running := (running display vm kept level).
Implicit Types s : pstate (P := P).

(** ** What they left in the memory *)

Lemma firm_logged s i : running s -> firm s i -> logged display vm s i.
Proof.
  intros Hrun [Hd _]. pose proof (running_live display vm kept level Hlen Hlevel s Hrun) as Hl.
  apply (pi_logged _ _ _ (lv_pinv _ _ _ Hl)). by left.
Qed.

Lemma firm_serialised s i tx : running s -> firm s i -> content_addressed storage (new_bytecodes (mem s)) ->
  txs !! i = Some tx -> serialised display vm s i tx.
Proof.
  intros Hrun [Hd Hreads] Hc Htx. pose proof (running_live display vm kept level Hlen Hlevel s Hrun) as Hl.
  apply valid_serialised; [apply Hl|done|done|by left| |done].
  intros ll Hll. unfold validate_read_locations. rewrite Hll. cbn. f_equal. apply forallb_forall.
  intros [loc os] Hin%list_elem_of_In%elem_of_map_to_list. apply Hreads. by exists ll.
Qed.

Lemma firm_chains s p l i : running s -> firm_below s p -> i <= p ->
  exists os vs, read_chain (data (mem s)) (hash_deterministic l) i = inr (os, vs).
Proof.
  intros Hrun Hfirm Hi. apply chain_total. intros k [Hk He]%entries_below_elem. revert He.
  apply (logged_no_estimates display chain storage spec block_env txs s l k);
    [apply (running_live display vm kept level Hlen Hlevel s Hrun)|].
  apply firm_logged; [done|]. apply Hfirm. lia.
Qed.

(** The settled transactions are a run of the reference. *)
Lemma firm_run s p : running s -> firm_below s p -> p <= length txs -> content_addressed storage (new_bytecodes (mem s)) ->
  exists lazies outs J,
    seq_block display vm (new_bytecodes (mem s)) 0 (take p txs) lazies journal_empty = Ok (outs, J) /\
    forall l, exists os, read_chain (data (mem s)) (hash_deterministic l) p = inr (os, J (hash_deterministic l)).
Proof.
  intros Hrun Hfirm Hp Hc. assert (length ([] ++ take p txs) = p) as Hl by (cbn; rewrite length_take; lia).
  destruct (seq_block_joined display chain storage spec block_env txs s (take p txs) [] journal_empty)
    as (lazies & outs & J & _ & Hb & _ & HJ); rewrite ?Hl.
  - cbn. by exists (drop p txs); rewrite take_drop.
  - intros i tx Hi Htx. apply firm_serialised; [done|by apply Hfirm|done..].
  - intros i Hi a. by eapply firm_chains.
  - apply journal_at_0.
  - rewrite Hl in HJ. exists lazies, outs, J. split; [done|]. intros l.
    destruct (firm_chains s p l p Hrun Hfirm (Nat.le_refl _)) as (os & vs & Hch). exists os. by rewrite (HJ _ _ _ Hch).
Qed.
(** What the reference executes there, lazily or not, the engine executes. *)
Lemma reference_clean s v tx J : running s -> txs !! tx_idx v = Some tx ->
  (forall l, exists os, read_chain (data (mem s)) (hash_deterministic l) (tx_idx v) = inr (os, J (hash_deterministic l))) ->
  (forall lazy, exists out, seq_execute display vm (new_bytecodes (mem s)) J (tx_idx v) tx lazy = Ok out) ->
  executes_cleanly display vm s v.
Proof.
  intros Hrun Htx HJ Hseq. pose proof (lookup_lt_Some _ _ _ Htx) as Hlt.
  pose proof (running_live display vm kept level Hlen Hlevel s Hrun) as Hl.
  assert (well_kinded (data (mem s))) as Hk.
  { apply (memory_kinded display vm s (history s) (mem s)); [apply Hl|apply chain_rewards_accounts; done|reflexivity|].
    apply (pi_mem _ _ _ (lv_pinv _ _ _ Hl)). }
  destruct (execute_runs display vm (mem s) J (tx_idx v) HJ Hinj Hk v tx eq_refl Htx) as (res & mv' & Hx & Hreads); [|done|].
  { by apply (running_locations display vm kept level). }
  destruct (execute_execution _ _ _ _ _ _ _ Hx) as (r & l1 & db & ws & ops & He).
  exists res, mv', r, l1, db, ws, ops. split; [done|]. split; [done|]. intros loc os Hos.
  destruct (ex_reads _ _ _ _ _ _ _ _ _ _ _ _ He) as (tx' & Htx' & Hr). cbn in Htx'. rewrite Htx in Htx'. injection Htx' as <-.
  eapply reads_current_validate; [by eapply Hreads|done].
Qed.

(** ** Nothing touches them again *)

(** The transactions below [p] are firm, and every validation of one that is under
    way looks at reads that it still has. *)
Record frozen s (p : TxIdx) : Prop := mkFrozen {
  fz_firm : firm_below s p;
  fz_todo : forall w v todo, workers (base s) !! w = Some (HasTask (Validation v)) ->
    phases s !! w = Some (Validating todo) -> tx_idx v < p ->
    forall loc os, (loc, os) ∈ todo -> reads s (tx_idx v) loc os;
}.

Lemma calm_frozen s p : calm s -> firm_below s p -> frozen s p.
Proof. intros Hc Hf. split; [done|]. intros w v todo _ Hph. by apply Hc in Hph. Qed.

(** An operation for the transactions from [p] on. *)
Definition above (p : TxIdx) (o : mv_op Bytecode) : Prop :=
  match o with
  | OpRecord v _ _ => p <= tx_idx v
  | OpEstimate i => p <= i
  | OpLazy _ | OpBytecodes _ => True
  end.

(** A worker that moves while the memory stays. *)
Lemma frozen_moved s s' w x' ph' p : frozen s p -> mem s' = mem s ->
  workers (base s') = <[w := x']> (workers (base s)) -> phases s' = <[w := ph']> (phases s) ->
  (forall i, i < p -> status_done (sched (base s)) i -> status_done (sched (base s')) i) ->
  (forall v todo, x' = HasTask (Validation v) -> ph' = Validating todo -> tx_idx v < p ->
    forall loc os, (loc, os) ∈ todo -> reads s (tx_idx v) loc os) -> frozen s' p.
Proof.
  intros [Hf Ht] Hm Hws Hphs Hd Hnew. assert (forall i loc os, reads s i loc os -> reads s' i loc os) as Hreads
    by (intros i loc os; unfold reads; by rewrite Hm).
  split.
  - intros i Hi. apply (firm_same_memory s); [done|by apply Hd|by apply Hf].
  - intros w2 v todo Hw2 Hph2 Hlt loc os Hin. apply Hreads. rewrite Hws in Hw2. rewrite Hphs in Hph2.
    apply list_lookup_insert_Some in Hw2 as [(<- & -> & _)|[Hne Hw2]].
    + apply list_lookup_insert_Some in Hph2 as [(_ & -> & _)|[Hne _]]; [|done]. by eapply Hnew.
    + rewrite list_lookup_insert_ne in Hph2 by done. by eapply Ht.
Qed.

Lemma firm_not_executing s p w v : running s -> firm_below s p ->
  workers (base s) !! w = Some (HasTask (Execution v)) -> p <= tx_idx v.
Proof.
  intros Hrun Hf Hw. destruct (decide (p <= tx_idx v)) as [|Hlt]; [done|exfalso].
  destruct (Hf (tx_idx v) ltac:(lia)) as [(tx & Htx & Hd) _].
  destruct (running_inv display vm kept level Hlen Hlevel s Hrun) as [Hi _].
  destruct (holder_executing _ _ _ Hi Hw) as (tx' & Htx' & Hst & _). destruct Hd; congruence.
Qed.

Lemma firm_not_aborting s p w v : running s -> firm_below s p ->
  workers (base s) !! w = Some (Checked v true) -> p <= tx_idx v.
Proof.
  intros Hrun Hf Hw. destruct (decide (p <= tx_idx v)) as [|Hlt]; [done|exfalso].
  destruct (Hf (tx_idx v) ltac:(lia)) as [(tx & Htx & Hd) _].
  destruct (running_inv display vm kept level Hlen Hlevel s Hrun) as [Hi _].
  destruct (winner_aborting _ _ _ Hi Hw) as (tx' & Htx' & Hst). destruct Hd; congruence.
Qed.

(** Recordings and estimates from [p] on. *)
Lemma frozen_written s s' w ph' p (j : TxIdx) : frozen s p -> p <= j -> base s' = base s ->
  phases s' = <[w := ph']> (phases s) -> (forall todo, ph' <> Validating todo) ->
  (forall i, i < p -> last_locations (mem s') !! i = last_locations (mem s) !! i) ->
  (forall i loc, i <= j -> stable (mem s) (mem s') i loc) -> frozen s' p.
Proof.
  intros [Hf Ht] Hj Hb Hphs Hno Hl Hstable.
  assert (forall i loc os, i < p -> reads s i loc os <-> reads s' i loc os) as Hreads
    by (intros i loc os Hi; unfold reads; by rewrite Hl).
  split.
  - intros i Hi. destruct (Hf i Hi) as [Hd Hr]. split; [by rewrite Hb|]. intros loc os Hos%Hreads; [|done].
    eapply validate_location_stable; [apply Hstable; lia|by apply Hr].
  - intros w2 v todo Hw2 Hph2 Hlt loc os Hin. rewrite Hb in Hw2. rewrite Hphs in Hph2. apply Hreads; [done|].
    apply list_lookup_insert_Some in Hph2 as [(_ & Hph2 & _)|[_ Hph2]]; [by destruct (Hno todo)|by eapply Ht].
Qed.

Lemma frozen_step s s' p : running s -> frozen s p -> pstep display vm s s' -> abort_reason s' = None ->
  frozen s' p /\ exists ops, history s' = history s ++ ops /\ Forall (above p) ops.
Proof.
  intros Hrun Hfz Hs Ha'. destruct (running_inv display vm kept level Hlen Hlevel s Hrun) as [Hi Hna].
  pose proof (running_live display vm kept level Hlen Hlevel s Hrun) as Hl.
  pose proof (lv_pinv _ _ _ Hl) as Hp. pose proof (fz_firm _ _ Hfz) as Hf.
  assert (exists ops, history s = history s ++ ops /\ Forall (above p) ops) as Hnone by (exists []; by rewrite app_nil_r).
  destruct Hs as [w r sc Hw E0|w v mvs b ok sc Hw Hph Hsn Hex E0|w v mvs e reason Hw Hph Hsn Hex Hr
    |w v mvs res mv' r l1 db ws ops Hw Hph Hsn Hex Hrec|w v fl t sc Hw Hph E0|w v ll Hw Hph Hll
    |w v loc os todo Hw Hph Hvl|w v Hw Hph|w v loc os todo tx won sc Hw Hph Hvl Htx E0|w v mv' Hw Hph E0
    |w v won t sc Hw Hph E0|w t Hw Hph Hr]; cbn in Ha'.
  - split; [|done]. eapply (frozen_moved s); try done. cbn. intros i _ Hd.
    by apply (next_done _ _ _ (inv_sized _ Hi) Hna E0).
  - split; [|done]. destruct (holder_executing _ _ _ Hi Hw) as (tx & Htx & Hst & _).
    eapply (frozen_moved s); try done. cbn. intros i _ Hd. by apply (blocked_done _ _ _ _ _ _ Htx Hst E0).
  - by destruct (abort_reason s).
  - pose proof (firm_not_executing s p w v Hrun Hf Hw) as Hle.
    destruct (execution_stable display vm s w v _ res mv' r l1 db ws ops Hp Hw Hph Hrec) as (ll' & _ & Hll' & _ & Hstable).
    split.
    + eapply (frozen_written s _ w _ p (tx_idx v)); try done. cbn. intros i Hlt. rewrite Hll', list_lookup_insert_ne; [done|lia].
    + destruct (ex_writes _ _ _ _ _ _ _ _ _ _ _ _ Hrec) as (tx & ws0 & codes & _ & _ & _ & addrs & -> & _).
      eexists. split; [done|]. by repeat constructor.
  - split; [|done]. eapply (frozen_moved s); try done; cbn.
    + intros i _ Hd. apply (finish_done _ _ _ _ _ _ Hi Hw E0). by right.
  - split; [|done]. eapply (frozen_moved s _ w (HasTask (Validation v))); try done; cbn.
    + by rewrite list_insert_id.
    + intros v' todo [= <-] [= <-] _ loc os Hin%elem_of_map_to_list. by exists ll.
  - split; [|done]. eapply (frozen_moved s _ w (HasTask (Validation v))); try done; cbn.
    + by rewrite list_insert_id.
    + intros v' todo' [= <-] [= <-] Hlt loc' os' Hin. eapply (fz_todo _ _ Hfz); [done..|]. by right.
  - split; [|done]. by eapply (frozen_moved s).
  - split; [|done]. eapply (frozen_moved s); try done. cbn. intros i Hlt Hd.
    assert (tx_idx v <> i) as Hne.
    { intros <-. assert (validate_location (mem s) (tx_idx v) loc os = true) as Hv; [|congruence].
      apply (Hf _ Hlt). eapply (fz_todo _ _ Hfz); [done..|by left]. }
    destruct (fail_done _ _ _ _ _ Htx E0) as [_ Hdone]. destruct won; [apply Hdone; done|by apply Hdone].
  - pose proof (firm_not_aborting s p w v Hrun Hf Hw) as Hle. split.
    + eapply (frozen_written s _ w _ p (tx_idx v)); try done; cbn.
      * intros i _. by rewrite (convert_last_locations _ _ _ E0).
      * intros i loc Hi'. by eapply convert_stable.
    + eexists. split; [done|]. by repeat constructor.
  - split; [|done]. eapply (frozen_moved s); try done. cbn. intros i _ Hd.
    by apply (finish_validation_done _ _ _ _ _ _ Hi Hw E0).
  - destruct Hrun. congruence.
Qed.

Lemma frozen_stays s s' p : running s -> frozen s p -> rtc (pstep display vm) s s' -> abort_reason s' = None ->
  frozen s' p /\ exists ops, history s' = history s ++ ops /\ Forall (above p) ops.
Proof.
  intros Hrun Hfz Hs Ha. revert s' Hs Ha.
  refine (rtc_ind_r (fun s' => abort_reason s' = None -> frozen s' p /\ exists ops, history s' = history s ++ ops /\
    Forall (above p) ops) _ _ _).
  - intros _. split; [done|]. exists []. by rewrite app_nil_r.
  - intros s1 s2 Hr Hs IH Ha. pose proof (abort_reason_stays _ _ _ _ Hs Ha) as Ha1.
    destruct (IH Ha1) as (Hfz1 & ops1 & Hh1 & Ho1).
    destruct (frozen_step s1 s2 p) as (Hfz2 & ops2 & Hh2 & Ho2); [|done..|].
    { split; [|done]. exact (transitivity (R := rtc _) (proj1 Hrun) Hr). }
    split; [done|]. exists (ops1 ++ ops2). split; [by rewrite Hh2, Hh1, app_assoc|by apply Forall_app].
Qed.
End Settled.

(** ** What operations from [p] on leave *)

Section Above.
Context {P : Platform}.
Implicit Types mv : MvMemory Bytecode.

Definition same_below (mv mv' : MvMemory Bytecode) (p : TxIdx) : Prop :=
  forall loc, entries_below (data mv) loc p = entries_below (data mv') loc p.

Lemma range_desc_ext {X} (m m' : gmap nat X) i : (forall k, k < i -> m !! k = m' !! k) -> range_desc m i = range_desc m' i.
Proof.
  induction i as [|i IH]; intros H; [by rewrite !range_desc_0|]. rewrite !range_desc_S, (H i) by lia.
  rewrite IH; [done|]. intros k Hk. apply H. lia.
Qed.

Lemma same_entries_below mv mv' p : (forall loc k, k < p -> entry (data mv) loc k = entry (data mv') loc k) ->
  same_below mv mv' p.
Proof.
  intros H loc. specialize (H loc). unfold entries_below, entry in *.
  destruct (data mv !! loc) as [m|], (data mv' !! loc) as [m'|]; cbn in H; [by apply range_desc_ext| | |done].
  - apply range_desc_none. intros k Hk. by rewrite H.
  - symmetry. apply range_desc_none. intros k Hk. by rewrite <- H.
Qed.

Lemma above_same_below mv ops mv' p : Forall (above p) ops -> apply_ops mv ops = Some mv' -> same_below mv mv' p.
Proof.
  revert mv. induction ops as [|o ops IH]; intros mv Ho; cbn; [by intros [= <-]|].
  inversion_clear Ho as [|? ? Hab Hos]. destruct (apply_op mv o) as [mv1|] eqn:E; cbn; [|done]. intros H.
  assert (same_below mv mv1 p) as H1; [|intros loc; by rewrite (H1 loc), (IH _ Hos H loc)].
  apply same_entries_below. intros loc k Hk. destruct o as [v rs ws|i|addrs|codes]; cbn in E, Hab.
  - destruct (record mv v rs ws) as [[b mv2]|] eqn:Er; [|done]. injection E as <-. cbn. symmetry.
    eapply record_entries; [done|lia].
  - destruct (last_locations mv !! i) as [ll|] eqn:Hll.
    2: { unfold convert_writes_to_estimates in E. by rewrite Hll in E. }
    destruct (convert_full mv i ll Hll) as (d & E' & Hent). rewrite E in E'. injection E' as ->. cbn.
    rewrite Hent, decide_False; [done|]. lia.
  - by injection E as <-.
  - by injection E as <-.
Qed.
End Above.
