(* ===== verification/Rejected.v ===== *)
(** * Rejected: blocks with a transaction that cannot be executed (pexe.rs, vm.rs)

    [Vm::execute] takes a wrong nonce and a lack of funds for a sign that an earlier
    transaction has not been executed yet, and waits for the one just before.  When
    that one is executed already, [Pexe::try_execute] tries again at once.  Here: if
    the reference refuses a transaction after the first, the workers can always get
    to where the earlier ones are settled, and from there on every try of that
    transaction changes nothing and is followed by the next one. *)

From S2P Require Import Prelude Types Scheduler SchedulerSystem SchedulerTheorems Platform Storage.
From S2P Require Import MvMemory MvMemorySpec VmDb VmDbLemmas VmDbReplay Vm VmSpec.
From S2P Require Import ParallelCodes Sequential ParallelSystem ParallelInv ParallelSpec ParallelProgress.
From S2P Require Import Kinds Pexe PexeLemmas PexeSpec SequentialRuns SequentialSpec Settled.
#[local] Open Scope nat_scope.

(** ** Reads of memories that are the same below a transaction *)

Section Same.
Context {P : Platform} {E : Type} (display : E -> string) (storage : Storage E).
Context (mvs : nat -> MvMemory Bytecode) (mv : MvMemory Bytecode) (i : TxIdx).
Context (Hbelow : forall k, same_below (mvs k) mv i).
Context (Hcodes : forall k db a h db', get_code_hash display storage (mvs k) db a = Ok (h, db') ->
  same_code display storage (mvs k) mv h).

Lemma get_code_hash_same k db a : db_tx_idx db = i ->
  get_code_hash display storage (mvs k) db a = get_code_hash display storage mv db a.
Proof. intros Hi. unfold get_code_hash. by rewrite Hi, Hbelow. Qed.

Lemma read_storage_same k db a slot : db_tx_idx db = i ->
  read_storage display storage (mvs k) db a slot = read_storage display storage mv db a slot.
Proof. intros Hi. unfold read_storage. by rewrite Hi, Hbelow. Qed.

Lemma finish_basic_same k db a loc account : db_tx_idx db = i -> same_code display storage (mvs k) mv (to_code_hash db) ->
  finish_basic display storage (mvs k) db a loc account = finish_basic display storage mv db a loc account.
Proof.
  intros Hi Hto. unfold finish_basic. destruct (_ && _); [done|]. case_decide; cbn.
  - by rewrite Hto.
  - pose proof (get_code_hash_same k db a Hi) as Heq. pose proof (Hcodes k db a) as Hc. rewrite <- Heq.
    destruct (get_code_hash display storage (mvs k) db a) as [[h db']|e|]; cbn; [|done..].
    by rewrite (Hc h db' eq_refl).
Qed.

Lemma basic_same k db a : db_tx_idx db = i -> same_code display storage (mvs k) mv (to_code_hash db) ->
  basic display storage (mvs k) db a = basic display storage mv db a.
Proof.
  intros Hi Hto. unfold basic. apply outcome_bind_ext. intros loc.
  destruct (_ && _); [done|]. destruct (_ && _); [done|]. cbv zeta. rewrite Hi, Hbelow.
  apply outcome_bind_ext. intros acc. apply outcome_bind_ext. intros acc'. destruct (final_account acc'); [|done].
  by apply finish_basic_same.
Qed.

Lemma run_evm_same {R} k (t : evm_run R) db : db_tx_idx db = i -> db_hashes db ->
  (forall k, same_code display storage (mvs k) mv (to_code_hash db)) ->
  run_evm display storage mvs k t db = run_evm display storage (fun _ => mv) k t db.
Proof.
  revert k db. induction t as [x|a c IH|h c IH|a slot c IH|n c IH]; intros k db Hi Hh Hto; cbn; [done|..].
  - rewrite (basic_same k db a Hi (Hto k)). destruct (basic display storage mv db a) as [[x db1]|e|] eqn:Hb; cbn; [|done..].
    pose proof (basic_extends _ _ _ _ _ _ _ Hh Hb) as He.
    apply IH; [by rewrite (ext_idx _ _ He)|by eapply db_hashes_extends|by rewrite (ext_code _ _ He)].
  - apply outcome_bind_ext. intros x. by apply IH.
  - rewrite (read_storage_same k db a slot Hi).
    destruct (read_storage display storage mv db a slot) as [[x db1]|e|] eqn:Hb; cbn; [|done..].
    pose proof (read_storage_extends _ _ _ _ _ _ _ _ Hb) as He.
    apply IH; [by rewrite (ext_idx _ _ He)|by eapply db_hashes_extends|by rewrite (ext_code _ _ He)].
  - apply outcome_bind_ext. intros x. by apply IH.
Qed.
End Same.

Section Rejected.
Context {P : Platform} {E : Type} (display : E -> string) {SpecId : Type}.
Context (chain : PexeChain SpecId) `{Hlaws : !ChainLaws chain} (storage : Storage E) (spec : SpecId).
Context (block_env : BlockEnv) (txs : list TxEnv) (kept : list (option PexeTxExecutionResult)).
Abbreviation vm := (Vm_new storage chain block_env txs spec).
Implicit Types s : pstate (P := P).

(** ** What the reference refuses *)

(** The reading half of a reference transaction. *)
Definition reference_run codes (J : journal) (i : TxIdx) (tx : TxEnv) (lazy : bool) :=
  db ← seq_new display vm J i tx lazy;
  seq_run display vm codes J (build_evm chain spec false block_env tx) db.

(** It finds the nonce of the sender wrong, or revm finds it too high or the funds
    too low. *)
Definition refused codes (J : journal) (i : TxIdx) (tx : TxEnv) : Prop := forall lazy,
  reference_run codes J i tx lazy = Err (InvalidNonce i) \/
  exists err l1 db, reference_run codes J i tx lazy = Ok ((inl err, l1), db) /\
    (err = NonceTooHigh \/ exists fee balance, err = LackOfFundForMaxFee fee balance).

(** The reference executes the transactions before [p], lazily or not, and then
    refuses [p]. *)
Record rejected_at codes (p : TxIdx) (tx : TxEnv) : Prop := {
  rj_below : forall q tx' lazies outs J lazy, q < p -> txs !! q = Some tx' ->
    seq_block display vm codes 0 (take q txs) lazies journal_empty = Ok (outs, J) ->
    exists out, seq_execute display vm codes J q tx' lazy = Ok out;
  rj_refused : forall lazies outs J,
    seq_block display vm codes 0 (take p txs) lazies journal_empty = Ok (outs, J) -> refused codes J p tx;
}.

(** The memories that an execution saw whose reads happened between [s0] and [s]. *)
Definition seen_since s0 s (mvs : nat -> MvMemory Bytecode) : Prop :=
  exists ops, history s = history s0 ++ ops /\ moments (mem s0) ops mvs.

Lemma refused_fails codes J i tx lazy out : refused codes J i tx -> seq_execute display vm codes J i tx lazy <> Ok out.
Proof.
  intros Hr H. unfold seq_execute in H. change (db ← seq_new _ _ _ _ _ _; _) with (reference_run codes J i tx lazy) in H.
  destruct (Hr lazy) as [He|(err & l1 & db & He & _)]; rewrite He in H; done.
Qed.

(** A run of the reference up to [p] ends there. *)
Lemma rejected_fails codes p tx lazies outs J : rejected_at codes p tx -> txs !! p = Some tx ->
  seq_block display vm codes 0 (take (S p) txs) lazies journal_empty <> Ok (outs, J).
Proof.
  intros [_ Hr] Htx H. rewrite (take_S_r _ _ _ Htx) in H.
  apply run_block_app in H as (outs1 & J1 & outs2 & H1 & H2).
  revert H2. rewrite length_take_le by (apply lookup_lt_Some in Htx; lia). cbn -[seq_execute].
  intros ([out ws] & Hx & _)%outcome_bind_ok. by apply (refused_fails _ _ _ _ _ _ (Hr _ _ _ H1)) in Hx.
Qed.

(** ** What the engine makes of it *)

Lemma refused_waits mvs mv (J : journal) v tx : 0 < tx_idx v -> txs !! tx_idx v = Some tx -> hash_injective ->
  (forall k, same_below (mvs k) mv (tx_idx v)) -> codes_stable display vm mvs mv ->
  well_kinded (data mv) -> well_kinded (data (mvs 0)) ->
  (forall l, exists os, read_chain (data mv) (hash_deterministic l) (tx_idx v) = inr (os, J (hash_deterministic l))) ->
  refused (new_bytecodes mv) J (tx_idx v) tx ->
  forall mv', execute display vm mvs mv' v = Err (BlockingTx (tx_idx v - 1)).
Proof.
  intros Hpos Htx Hinj Hbelow Hcs Hk Hk0 HJ Hr mv'. set (i := tx_idx v) in *.
  assert (forall l, exists os, read_chain (data (mvs 0)) (hash_deterministic l) i = inr (os, J (hash_deterministic l))) as HJ0.
  { intros l. unfold read_chain. rewrite (Hbelow 0). apply HJ. }
  assert (exists edb, seq_new display vm J i tx false = Ok edb) as [edb Hedb].
  { destruct (Hr false) as [He|(err & l1 & db & He & _)].
    - apply outcome_bind_err in He as [He|(db & ? & _)]; [exfalso|by exists db]. revert He. unfold seq_new.
      destruct (transact_to tx); [done|]. intros [He|(h & _ & [=])]%outcome_bind_err. by apply seq_code_hash_nonce in He.
    - apply outcome_bind_ok in He as (edb & ? & _). by exists edb. }
  destruct (new_runs display vm (mvs 0) J i HJ0 Hinj Hk0 tx edb Hedb) as (db0 & Hnew & Hc0 & Hsn).
  destruct (tx_hashes _ _ _ _ _ _ Hnew) as (Hh & _ & Hi & _).
  assert (reads_current mv i db0) as Hc.
  { intros loc os Hos. destruct (Hc0 _ _ Hos) as [vs Hvs]. exists vs. unfold read_chain in *. by rewrite <- (Hbelow 0). }
  assert (forall k, same_code display storage (mvs k) mv (to_code_hash db0)) as Hto.
  { intros k. pose proof Hnew as (h & l & db2 & -> & Hn)%VmDb_new_inv. cbn.
    destruct (transact_to tx); [destruct Hn as (-> & _); done|]. eapply Hcs; [|exact Hn]. lia. }
  pose proof (run_evm_same display storage mvs mv i Hbelow (fun k db a h db' => Hcs k k db a h db' (le_n k)) 1
    (build_evm chain spec false block_env tx) db0 Hi Hh Hto) as Hrun.
  unfold execute. fold i. cbn [vm_txs Vm_new]. rewrite Htx. cbn [unwrap outcome_bind mbind].
  unfold execute_reads. rewrite Hnew. cbn -[seq_run run_evm]. rewrite Hrun.
  specialize (Hr (is_lazy db0)). unfold reference_run in Hr. rewrite Hsn in Hr. cbn in Hr.
  destruct Hr as [He|(err & l1 & edb' & He & Herr)].
  - pose proof (evm_refuses display vm mv J i HJ Hinj Hk 1 _ db0 ltac:(lia) Hi Hh Hc He) as Hx.
    cbn in Hx. by rewrite Hx.
  - destruct (evm_runs display vm mv J i HJ Hinj Hk 1 _ db0 _ _ Hi Hh Hc He) as (db & Hx & _).
    cbn in Hx. rewrite Hx. cbn. destruct Herr as [->|(fee & balance & ->)]; cbn; destruct (Nat.ltb_spec 0 i); (done || lia).
Qed.
(** ** The workers and the refused transaction *)

Context (level : nat) (Hlen : (Z.of_nat (length txs) < 2 ^ 64)%Z) (Hlevel : 0 < level) (Hinj : hash_injective).
Context (p : TxIdx) (tx : TxEnv) (Hpos : 0 < p) (Htx : txs !! p = Some tx).
Context (Hcontent : forall s, preachable display vm kept level s -> abort_reason s = None ->
  content_addressed storage (new_bytecodes (mem s))).
Context (Hrej : forall s, preachable display vm kept level s -> abort_reason s = None ->
  rejected_at (new_bytecodes (mem s)) p tx).
Abbreviation running := (running display vm kept level).

Lemma refused_not_firm s : running s -> ~ firm_below s (S p).
Proof.
  intros Hrun Hf. pose proof (lookup_lt_Some _ _ _ Htx) as Hp. destruct Hrun as [Hr Ha].
  destruct (firm_run display chain storage spec block_env txs kept level Hlen Hlevel Hinj s (S p) (conj Hr Ha) Hf ltac:(lia)
    (Hcontent _ Hr Ha)) as (lazies & outs & J & H & _).
  by eapply rejected_fails; [by apply Hrej|..].
Qed.

Lemma refused_never_joins s : running s -> ~ all_exited s.
Proof.
  intros [Hr Ha] Hex.
  destruct (joined_is_run display chain storage spec block_env txs kept level s Hlen Hlevel Hinj Hr (Hcontent _ Hr Ha) Ha Hex)
    as (lazies & outs & J & Hrun). pose proof (jr_block _ _ _ _ _ _ _ _ _ _ Hrun) as H.
  assert (seq_block display vm (new_bytecodes (mem s)) 0 (take (S p) txs ++ drop (S p) txs) lazies journal_empty = Ok (outs, J))
    as Hb by by rewrite take_drop.
  apply run_block_app in Hb as (outs1 & J1 & outs2 & Hb & _).
  by eapply rejected_fails; [by apply Hrej|..].
Qed.

(** What the reference makes of the transactions before it. *)
Lemma settled_reference s q : running s -> firm_below s q -> q <= p -> exists lazies outs J,
  seq_block display vm (new_bytecodes (mem s)) 0 (take q txs) lazies journal_empty = Ok (outs, J) /\
  forall l, exists os, read_chain (data (mem s)) (hash_deterministic l) q = inr (os, J (hash_deterministic l)).
Proof.
  intros [Hr Ha] Hf Hq. pose proof (lookup_lt_Some _ _ _ Htx) as Hp.
  apply (firm_run display chain storage spec block_env txs kept level Hlen Hlevel Hinj); try done; [lia|by apply Hcontent].
Qed.

(** The workers can get to where it is being executed on settled ground. *)
Lemma reach_refused s : running s -> exists s0, comes display vm kept level s s0 /\ calm s0 /\ firm_below s0 p /\
  exists w v, workers (base s0) !! w = Some (HasTask (Execution v)) /\ tx_idx v = p.
Proof.
  intros Hrun. pose proof (lookup_lt_Some _ _ _ Htx) as Hp.
  destruct (calm_down display vm kept level Hlen Hlevel s Hrun) as (s1 & Hc1 & Hcalm1).
  destruct (settle_up_to display vm kept level Hlen Hlevel p (Nat.lt_le_incl _ _ Hp)) with (s := s1) (p := p)
    as (s2 & Hc2 & Hcalm2 & Hf2); [|apply Hc1|done..|].
  { intros s' w v Hrun' Hw Hlt Hf. destruct (lookup_lt_is_Some_2 txs (tx_idx v)) as [tx' Htx']; [lia|].
    destruct (settled_reference s' (tx_idx v) Hrun' Hf ltac:(lia)) as (lazies & outs & J & Hb & HJ).
    apply (reference_clean display chain storage spec block_env txs kept level Hlen Hlevel Hinj s' v tx' J Hrun' Htx' HJ).
    intros lazy. by eapply rj_below; [apply Hrej; apply Hrun'|..]. }
  destruct (reach_execution display vm kept level Hlen Hlevel s2 p) as (s3 & Hc3 & Hcalm3 & Hf3); [apply Hc2|done..|].
  exists s3. split; [eapply comes_trans; [exact Hc1|by eapply comes_trans]|]. split; [done|].
  destruct Hf3 as [Hf3|[Hf3 Hw]]; [by apply refused_not_firm in Hf3; [|apply Hc3]|done].
Qed.

(** From there on its blocker is done. *)
Lemma dependency_refused s : frozen s p ->
  add_dependency (sched (base s)) p (p - 1) = Some (false, sched (base s)).
Proof.
  intros [Hf _]. destruct (Hf (p - 1) ltac:(lia)) as [(tx' & Htx' & Hd) _]. unfold add_dependency. rewrite Htx'. cbn.
  by rewrite decide_True.
Qed.

Lemma try_in_vain s0 s v mvs mv' : running s0 -> frozen s0 p -> rtc (pstep display vm) s0 s -> abort_reason s = None ->
  seen_since s0 s mvs -> tx_idx v = p -> execute display vm mvs mv' v = Err (BlockingTx (p - 1)).
Proof.
  intros Hrun0 Hfz0 Hs Ha (ops & Hh & Hmo) Hv.
  destruct (frozen_stays display chain storage spec block_env txs kept level Hlen Hlevel s0 s p Hrun0 Hfz0 Hs Ha)
    as (Hfz & ops' & Hh' & Hops). rewrite Hh in Hh'. apply app_inv_head in Hh' as <-.
  assert (running s) as Hrun by (split; [exact (transitivity (R := rtc _) (proj1 Hrun0) Hs)|done]).
  pose proof (lv_pinv _ _ _ (running_live display vm kept level Hlen Hlevel s0 Hrun0)) as Hp0.
  pose proof (lv_pinv _ _ _ (running_live display vm kept level Hlen Hlevel s Hrun)) as Hp.
  pose proof (pi_mem _ _ _ Hp0) as Hm0. pose proof (pi_mem _ _ _ Hp) as Hm. pose proof (pi_codes _ _ _ Hp) as Hok.
  rewrite Hh, apply_ops_app, Hm0 in Hm. cbn in Hm. rewrite Hh in Hok. apply (ops_ok_app _ _ _ _ Hm0) in Hok as [Hok0 Hok].
  destruct (apply_ops_codes _ _ _ (codes_known_0 vm) Hok0 Hm0) as [Hk0 _].
  assert (forall k, same_below (mvs k) (mem s) p) as Hbelow.
  { destruct Hmo as (n & _ & Hat). intros k loc. destruct (Hat k) as [_ Hmk].
    rewrite <- (above_same_below _ _ _ _ (Forall_take _ (n k) _ Hops) Hmk loc).
    by rewrite (above_same_below _ _ _ _ Hops Hm loc). }
  pose proof (moments_codes_stable display vm _ _ _ _ Hk0 Hok Hm Hmo (Hcontent _ (proj1 Hrun) Ha)) as Hcs.
  destruct (settled_reference s p Hrun (fz_firm _ _ Hfz) (le_n _)) as (lazies & outs & J & Hb & HJ).
  pose proof (refused_waits mvs (mem s) J v tx) as Hwait. rewrite Hv in Hwait. apply (Hwait Hpos Htx Hinj Hbelow Hcs).
  - apply (memory_kinded display vm s (history s) (mem s) Hp); [by apply chain_rewards_accounts|done|by apply Hp].
  - destruct Hmo as (n & _ & Hat). destruct (Hat 0) as [_ Hm1].
    apply (memory_kinded display vm s (history s0 ++ take (n 0) ops) (mvs 0) Hp); [by apply chain_rewards_accounts| |].
    + rewrite Hh. apply prefix_app, prefix_take.
    + by rewrite apply_ops_app, Hm0.
  - exact HJ.
  - by eapply rj_refused; [apply Hrej; apply Hrun|].
Qed.

(** A try on the memory as it is leads back to the same state. *)
Lemma retry_step s0 s w v : running s0 -> frozen s0 p -> rtc (pstep display vm) s0 s -> abort_reason s = None ->
  workers (base s) !! w = Some (HasTask (Execution v)) -> phases s !! w = Some Plain -> tx_idx v = p ->
  pstep display vm s s.
Proof.
  intros Hrun0 Hfz0 Hs Ha Hw Hph Hv.
  destruct (frozen_stays display chain storage spec block_env txs kept level Hlen Hlevel s0 s p Hrun0 Hfz0 Hs Ha)
    as (Hfz & ops & Hh & _).
  assert (running s) as Hrun by (split; [exact (transitivity (R := rtc _) (proj1 Hrun0) Hs)|done]).
  pose proof (lv_pinv _ _ _ (running_live display vm kept level Hlen Hlevel s0 Hrun0)) as Hp0.
  pose proof (lv_pinv _ _ _ (running_live display vm kept level Hlen Hlevel s Hrun)) as Hp.
  assert (seen_since s0 s (fun _ => mem s)) as Hseen.
  { exists ops. split; [done|]. exists (fun _ => length ops). split; [done|]. intros _. split; [done|]. rewrite firstn_all.
    pose proof (pi_mem _ _ _ Hp) as Hm. by rewrite Hh, apply_ops_app, (pi_mem _ _ _ Hp0) in Hm. }
  pose proof (try_in_vain s0 s v _ (mem s) Hrun0 Hfz0 Hs Ha Hseen Hv) as Hx.
  pose proof (dependency_refused s Hfz) as Hd. rewrite <- Hv in Hd, Hx.
  pose proof (p_blocked display vm s w v _ _ _ _ Hw Hph (seen_now display vm kept level Hlen Hlevel s Hrun) Hx Hd) as Hst.
  unfold with_base, moved in Hst. cbn in Hst. rewrite !list_insert_id in Hst by done.
  by destruct s as [[] ? ? ? ? ?].
Qed.
End Rejected.

Section Block.
Context {P : Platform} {E : Type} (display : E -> string) {SpecId : Type}.
Context (chain : PexeChain SpecId) `{Hlaws : !ChainLaws chain} (storage : Storage E) (spec : SpecId).
Context (block_env : BlockEnv) (txs : list TxEnv) (kept : list (option PexeTxExecutionResult)).
Abbreviation vm := (Vm_new storage chain block_env txs spec).

End Block.

(** ** Witness

    Two transactions; revm finds the nonce of the second too high. *)
Section Demo.
#[local] Existing Instance demo.

Definition gap_tx : TxEnv := mkTxEnv 7 100000 10 None Create 0 [] (Some 5%Z) None [] [] None None None None None None.
Definition gap_chain : PexeChain unit := {|
  is_eip_1559_enabled _ := true;
  is_eip_161_enabled _ := true;
  get_reward_policy := Ethereum;
  build_evm _ _ _ tx :=
    EvmDone (match tx_nonce tx with Some _ => inl NonceTooHigh | None => inr (demo_result 21000) end, None);
  calculate_tx_l1_cost _ _ _ := 0%Z;
  mv_estimates b txs := ([(hash_deterministic (Basic (coinbase b)), seq 0 (length txs))], [coinbase b]);
|}.
Abbreviation gap_vm := (Vm_new demo_storage gap_chain (demo_block_env 3 2) [demo_tx; gap_tx] tt).

#[local] Instance gap_laws : ChainLaws gap_chain.
Proof. by apply beneficiary_laws. Qed.

Definition gap_db : CacheDB (E := Empty_set) unit := {|
  cache := unit;
  cache_new _ := tt;
  transact _ _ _ tx := match tx_nonce tx with Some _ => Err "nonce too high"%string | None => Ok (demo_result 21000, tt) end;
  commit _ _ := tt;
|}.

Lemma gap_rejected codes : rejected_at no_error gap_chain demo_storage tt (demo_block_env 3 2) [demo_tx; gap_tx] codes 1 gap_tx.
Proof.
  split.
  - intros [|q] tx lazies outs J lazy Hq Htx H; [|lia]. injection Htx as <-. injection H as <- <-.
    destruct lazy; eexists; reflexivity.
  - intros lazies outs J _ lazy. right. exists NonceTooHigh, None. destruct lazy; eexists; (split; [reflexivity|by left]).
Qed.

End Demo.
