(* ===== verification/Plain.v ===== *)
(** * Plain: the reference on plain accounts

    A coarser reference than the journal of Sequential.v: every transaction runs
    alone on a storage, and its writes make the next storage.  A lazy update is
    made at once, on the balance and nonce that the account has.

    The journal evaluates the same updates when an account is read, adding them up
    from the last one down with a sign and a magnitude that saturate.  Both agree as
    long as every update is possible on the plain account: no balance leaves a word,
    and nobody spends lazily all that the account holds.  (An account that the
    storage does not know and that has spent all it received is absent for the
    journal, but has a nonce.) *)

From S2P Require Import Prelude Types Platform Storage MvMemory MvMemorySpec.
From S2P Require Import VmDb VmDbLemmas VmDbReplay Vm VmSpec ParallelCodes Kinds Sequential.
#[local] Open Scope Z_scope.

(** ** Plain updates *)

Definition word_account (b : AccountBasic) : Prop := is_u 256 (balance b) /\ is_u 64 (nonce b).
#[export] Instance word_account_dec b : Decision (word_account b) := ltac:(unfold word_account; apply _).

(** An account after a lazy update; [None] when it is not possible. *)
Definition apply_lazy (old : option AccountBasic) (v : MemoryValue) : option (option AccountBasic) :=
  match v, old with
  | LazyRecipient x, Some b =>
      let b' := mkAccountBasic (balance b + x) (nonce b) in
      if decide (0 <= x /\ word_account b') then Some (Some b') else None
  | LazyRecipient x, None =>
      if decide (x = 0) then Some None
      else if decide (is_u 256 x) then Some (Some (mkAccountBasic x 0)) else None
  | LazySender x, Some b =>
      if decide (0 <= x < balance b) then Some (Some (mkAccountBasic (balance b - x) (u64_add (nonce b) 1))) else None
  | _, _ => None
  end.

(** The account after a value is written, [old] being that before; [Panic] when the
    update is not possible. *)
Definition write_account {E} (v : MemoryValue) (old : outcome E (option AccountBasic))
    : outcome E (option AccountBasic) :=
  match v with
  | VBasic b => if decide (word_account b) then Ok (Some b) else Panic
  | _ => old ← old; unwrap (apply_lazy old v)
  end.

(** ** Adding up and updating at once

    [bal] and [cnt] are the balance and the nonce of an account, zero if there is
    none. *)
Definition bal (x : option AccountBasic) : Z := from_option balance 0 x.
Definition cnt (x : option AccountBasic) : Z := from_option nonce 0 x.

Lemma write_account_lazy {E} v (old : outcome E (option AccountBasic)) x : is_lazy_value v = true ->
  write_account v old = Ok x <-> exists y, old = Ok y /\ apply_lazy y v = Some x.
Proof.
  intros Hl. assert (write_account v old = (old ← old; unwrap (apply_lazy old v))) as -> by by destruct v.
  rewrite outcome_bind_ok. split; intros (y & -> & H); exists y; (split; [done|]).
  - destruct (apply_lazy y v); cbn in H; congruence.
  - by rewrite H.
Qed.

(** What a lazy update does to balance and nonce. *)
Lemma apply_lazy_spec y v x : apply_lazy y v = Some x ->
  bal x = bal y + delta v /\ cnt x = (if decide (spends v = 0) then cnt y else wrap 64 (cnt y + 1)) /\
  match v with LazyRecipient z | LazySender z => 0 <= z | _ => False end /\
  (forall b, y = Some b -> exists b', x = Some b' /\ (word_account b -> word_account b')) /\
  (forall b, x = Some b -> (y = None -> 0 < balance b /\ word_account b) /\ ((forall c, y = Some c -> 0 < balance c) -> 0 < balance b)).
Proof.
  unfold apply_lazy, word_account, is_u. destruct v as [|?|?|z|z|], y as [b|]; try done.
  - case_decide as H; [|done]. intros [= <-]. cbn in *. split; [done|]. split; [done|]. split; [lia|].
    split; [intros c [= <-]; eexists; split; [done|cbn; lia]|]. intros c [= <-]. cbn. split; [done|].
    intros Hc. specialize (Hc b eq_refl). lia.
  - case_decide as H0; [subst; intros [= <-]; cbn; by repeat split|].
    case_decide as H; [|done]. intros [= <-]. unfold is_u in H. cbn. split; [lia|]. split; [done|]. split; [lia|].
    split; [done|]. intros c [= <-]. cbn. split; [split; [lia|split; [lia|]]|lia]. lia.
  - case_decide as H; [|done]. intros [= <-]. cbn in *. split; [lia|]. split; [done|]. split; [lia|].
    split; [intros c [= <-]; eexists; split; [done|]; cbn; intros [? ?]; split; [lia|]; apply wrap_is_u; lia|].
    intros c [= <-]. cbn. split; [done|]. lia.
Qed.

Section Plain.
Context {P : Platform} {E : Type} (display : E -> string) {SpecId : Type}.
Context (vm : Vm (P := P) (E := E) SpecId) (codes : gmap B256 Bytecode).

Definition with_storage (st : Storage E) : Vm SpecId :=
  mkVm st (vm_chain vm) (vm_block_env vm) (vm_txs vm) (vm_spec_id vm) (beneficiary_location_hash vm) (reward_policy vm).

(** The storage after the writes of a transaction.  Reading the code of a contract
    that was destroyed is not possible. *)
Definition storage_after (ws : WriteSet) (st : Storage E) : Storage E := mkStorage
  (fun a => match last_write (hash_deterministic (Basic a)) ws with
            | Some v => write_account v (st_basic st a)
            | None => st_basic st a
            end)
  (fun a => match last_write (hash_deterministic (CodeHash a)) ws with
            | Some (VCodeHash h) => Ok (Some h)
            | Some _ => Panic
            | None => st_code_hash st a
            end)
  (st_code_by_hash st)
  (st_has_storage st)
  (fun a slot => match last_write (hash_deterministic (StorageLoc a slot)) ws with
                 | Some (VStorage v) => Ok v
                 | Some _ => Panic
                 | None => st_storage st a slot
                 end)
  (st_block_hash st).

(** A transaction on a storage, with nothing written before it. *)
Definition plain_execute (st : Storage E) (i : TxIdx) (tx : TxEnv) (lazy : bool)
    : outcome VmExecutionError (PexeTxExecutionResult * WriteSet) :=
  seq_execute display (with_storage st) codes journal_empty i tx lazy.

Definition plain_block : TxIdx -> list TxEnv -> list bool -> Storage E ->
    outcome VmExecutionError (list (PexeTxExecutionResult * WriteSet) * Storage E) :=
  run_block plain_execute storage_after.

(** Every lazy update so far was possible. *)
Definition solvent (st : Storage E) : Prop := forall a, st_basic st a <> Panic.

Definition solvent_block : TxIdx -> list TxEnv -> list bool -> Storage E -> Prop :=
  run_safe plain_execute storage_after solvent.
Section Sums.
Context (storage : Storage E) (a : Address).

Abbreviation plain_values := (foldr write_account (st_basic storage a)).

Definition word_storage : Prop := forall b, st_basic storage a = Ok (Some b) -> word_account b.

Lemma plain_values_word vs b : word_storage -> plain_values vs = Ok (Some b) -> word_account b.
Proof.
  intros Hw. revert b. induction vs as [|v vs IH]; intros b; [apply Hw|]. cbn.
  destruct (is_lazy_value v) eqn:Hl.
  - intros (y & Hy & (_ & _ & _ & Hs & Hn)%apply_lazy_spec)%write_account_lazy; [|done].
    destruct y as [c|]; [|by apply (Hn b)]. destruct (Hs c eq_refl) as (b' & [= <-] & Hb). by apply Hb, IH.
  - destruct v; try done; cbn; [case_decide; [by intros [= <-]|done]|..];
      intros (y & _ & H)%outcome_bind_ok; by destruct y.
Qed.

(** An account that only lazy updates have made holds something. *)
Lemma plain_values_positive vs b : st_basic storage a = Ok None -> Forall (fun v => is_lazy_value v = true) vs ->
  plain_values vs = Ok (Some b) -> 0 < balance b.
Proof.
  intros H0 Hv. revert b. induction Hv as [|v vs Hl Hv IH]; intros b; cbn; [by rewrite H0|].
  intros (y & Hy & (_ & _ & _ & _ & Hn)%apply_lazy_spec)%write_account_lazy; [|done].
  apply Hn; [done|]. intros c ->. by apply IH.
Qed.

(** The top of [basic]'s loop: [t] is the account that the values make, [x] that of
    the values still to be added up. *)
Record sum_ok (t x : option AccountBasic) (acc : lazy_acc) : Prop := mkSumOk {
  so_final : final_account acc = None;
  so_size : 0 <= balance_addition acc;
  so_balance : bal t = bal x + signed acc;
  so_nonce : cnt t = wrap 64 (cnt x + nonce_addition acc);
  so_exists : t = None -> x = None;
}.

Lemma sum_ok_step t x y acc o v : sum_ok t x acc -> is_lazy_value v = true ->
  0 <= bal t <= U256_MAX -> 0 <= bal y <= U256_MAX -> 0 <= bal x <= U256_MAX ->
  apply_lazy y v = Some x -> exists acc', add_value acc o v = Some acc' /\ sum_ok t y acc'.
Proof.
  intros [Hf Hs Hb Hn He] Hl Ht Hy Hx (Hbx & Hcx & Hz & Hsome & _)%apply_lazy_spec.
  destruct v as [|?|?|z|z|]; try done; cbn in Hbx, Hcx; eexists; (split; [reflexivity|]); unfold signed in *.
  - destruct (positive_addition acc); split; cbn; try done.
    + unfold sat_add, signed. cbn. lia.
    + unfold sat_add, signed. cbn. lia.
    + by rewrite Hn, Hcx.
    + intros Hnone. destruct y as [c|]; [|done]. destruct (Hsome c eq_refl) as (? & -> & _). by specialize (He Hnone).
    + unfold abs_diff. lia.
    + unfold abs_diff, signed. cbn. destruct (Z.leb_spec (balance_addition acc) z); lia.
    + by rewrite Hn, Hcx.
    + intros Hnone. destruct y as [c|]; [|done]. destruct (Hsome c eq_refl) as (? & -> & _). by specialize (He Hnone).
  - assert (cnt t = wrap 64 (cnt y + u64_add (nonce_addition acc) 1)) as Hn'.
    { rewrite Hn, Hcx, decide_False by done. unfold u64_add, wrap. rewrite Zplus_mod_idemp_l, Zplus_mod_idemp_r. f_equal. lia. }
    assert (t = None -> y = None) as He'.
    { intros Hnone. destruct y as [c|]; [|done]. destruct (Hsome c eq_refl) as (? & -> & _). by specialize (He Hnone). }
    destruct (positive_addition acc); split; cbn; try done.
    + unfold abs_diff. lia.
    + unfold abs_diff, signed. cbn. destruct (Z.leb_spec z (balance_addition acc)); lia.
    + unfold sat_add, signed. cbn. lia.
    + unfold sat_add, signed. cbn. lia.
Qed.
(** The account at the end of the loop. *)
Definition sum_account (acc : lazy_acc) : outcome ReadError (option AccountBasic) :=
  match final_account acc with
  | Some account => Ok (Some (evaluate acc account))
  | None =>
      stored ← from_storage display (st_basic storage a);
      Ok (match stored with
          | Some account => Some (evaluate acc account)
          | None => if 0 <? balance_addition acc then Some (evaluate acc AccountBasic_default) else None
          end)
  end.

(** What [t] has in excess of [b] is what the accumulator has added up. *)
Lemma evaluate_excess t b acc : 0 <= balance t <= U256_MAX -> 0 <= balance_addition acc ->
  balance t = balance b + signed acc -> nonce t = wrap 64 (nonce b + nonce_addition acc) -> evaluate acc b = t.
Proof.
  intros Ht Hs Hb Hn. destruct t as [bt nt]. unfold evaluate, signed, u64_add in *. cbn in *. f_equal; [|congruence].
  destruct (positive_addition acc); unfold sat_add, sat_sub; lia.
Qed.

Lemma bal_range t : (forall b, t = Some b -> word_account b) -> 0 <= bal t <= U256_MAX.
Proof.
  intros H. destruct t as [b|]; cbn; [|done]. destruct (H b eq_refl) as [Hb _]. unfold is_u, U256_MAX in *. lia.
Qed.

Lemma replay_plain vs t x acc os : word_storage -> plain_values vs = Ok x -> (length vs <= length os)%nat ->
  sum_ok t x acc -> (forall b, t = Some b -> word_account b) ->
  (st_basic storage a = Ok None -> Forall (fun v => is_lazy_value v = true) vs -> forall b, t = Some b -> 0 < balance b) ->
  (replay_values acc os vs ≫= sum_account) = Ok t.
Proof.
  intros Hw. revert x acc os. induction vs as [|v vs IH]; intros x acc os Hv Hl Hs Ht Hpos; cbn in Hv.
  { assert (replay_values acc os [] = Ok acc) as -> by by destruct os. destruct Hs as [Hf Hs Hb Hn He].
    cbn. unfold sum_account. rewrite Hf, Hv. cbn. f_equal. pose proof (bal_range t Ht) as Hr.
    destruct x as [b|], t as [b'|]; try (by specialize (He eq_refl)); cbn in *.
    - by rewrite (evaluate_excess b' b).
    - specialize (Hpos Hv ltac:(constructor) b' eq_refl). assert (0 < balance_addition acc) as Hlt.
      { unfold signed in Hb. destruct (positive_addition acc); lia. }
      apply Z.ltb_lt in Hlt. rewrite Hlt. by rewrite (evaluate_excess b').
    - assert (balance_addition acc = 0) as -> by (unfold signed in Hb; destruct (positive_addition acc); lia). done. }
  destruct os as [|o os]; cbn in Hl; [lia|].
  assert (forall b, x = Some b -> word_account b) as Hxw by (intros b ->; by eapply (plain_values_word (v :: vs))).
  destruct (is_lazy_value v) eqn:Hlz.
  - apply write_account_lazy in Hv as (y & Hy & Ha); [|done].
    destruct (sum_ok_step t x y acc o v Hs Hlz) as (acc' & Hadd & Hs'); try done; try by apply bal_range.
    { apply bal_range. intros b ->. by eapply plain_values_word. }
    cbn. rewrite Hadd, (so_final _ _ _ Hs'). eapply IH; [done|lia|done|done|].
    intros H0 Hall. apply Hpos; [done|]. by constructor.
  - destruct v as [b| | | | |]; try done; [|by destruct (foldr _ _ _) as [[]| |]..].
    cbn in Hv. case_decide as Hb; [|done]. injection Hv as <-. cbn. unfold sum_account. cbn.
    destruct Hs as [Hf Hs Hbal Hn He]. destruct t as [b'|]; [|by specialize (He eq_refl)].
    rewrite (evaluate_excess b'); [done| |done..]. by apply (bal_range (Some b')).
Qed.

Lemma chain_account_plain vs t : word_storage -> plain_values vs = Ok t ->
  chain_account display storage a (replicate (length vs) FromStorage) vs = Ok t.
Proof.
  intros Hw Hv. change (chain_account display storage a (replicate (length vs) FromStorage) vs)
    with (replay_values lazy_acc_0 (replicate (length vs) FromStorage) vs ≫= sum_account).
  assert (forall b, t = Some b -> word_account b) as Ht by (intros b ->; by eapply plain_values_word).
  apply (replay_plain vs t t); try done.
  - by rewrite length_replicate.
  - split; cbn; try done; [lia|]. rewrite Z.add_0_r. symmetry. apply wrap_small.
    destruct t as [b|]; [by apply Ht|done].
  - intros H0 Hall b ->. by eapply plain_values_positive.
Qed.

(** Where the journal and plain accounts part: an account that the storage does not
    know, received [x] and spent it all lazily, is absent for a reader, so that its
    next transaction finds nonce zero again. *)
Lemma emptied_account_vanishes x : st_basic storage a = Ok None -> 0 < x <= U256_MAX ->
  chain_account display storage a [FromStorage; FromStorage] [LazySender x; LazyRecipient x] = Ok None.
Proof.
  intros H0 Hx. unfold chain_account. cbn. unfold abs_diff.
  replace (x <=? 0) with false by (symmetry; apply Z.leb_gt; lia).
  cbn. rewrite H0. cbn. replace (Z.abs (0 - x)) with x by lia. by rewrite Z.sub_diag.
Qed.
End Sums.
End Plain.
