(* ===== verification/Results.v ===== *)
(** * Results: what the writes and the results of a transaction say (vm.rs, pexe.rs)

    A transaction writes balances in three ways: as the account that the EVM leaves,
    lazily as the sender or recipient of a transfer, or as a reward.  Here: the
    first are those that [PexeTxExecutionResult::from_revm] reports, the others are
    at the lazy addresses of the memory, so the evaluation after the block finds
    them; and what the evaluation does to the results, address by address. *)

From S2P Require Import Prelude Types Scheduler SchedulerSystem SchedulerTheorems Platform Storage.
From S2P Require Import MvMemory MvMemorySpec VmDb VmDbLemmas VmDbReplay Vm VmSpec.
From S2P Require Import ParallelCodes ParallelSystem ParallelInv ParallelSpec Kinds Pexe PexeLemmas PexeSpec Sequential.
#[local] Open Scope nat_scope.

(** ** Rewards *)

Lemma add_reward_write {P : Platform} loc ws r amount ws' : add_reward (P := P) ws r amount = Ok ws' -> loc <> r ->
  last_write loc ws' = last_write loc ws.
Proof.
  intros H Hne. revert ws' H. induction ws as [|[l v] ws IH]; intros ws'; cbn; [intros [= <-]; cbn; by rewrite decide_False|].
  case_decide as Hl.
  - subst l. destruct v; try done; intros [= <-]; cbn; by rewrite !(decide_False (P := r = loc)).
  - intros (ws1 & H1 & [= <-])%outcome_bind_ok. cbn. by rewrite (IH _ H1).
Qed.

Lemma apply_rewards_write {P : Platform} {E SpecId} (vm : Vm (P := P) (E := E) SpecId) ws tx gas l1 ws' rs loc :
  apply_rewards vm ws tx gas l1 = Ok ws' -> rewards vm tx gas l1 = Ok rs -> loc ∉ rs.*1 ->
  last_write loc ws' = last_write loc ws.
Proof.
  intros H Hr. unfold apply_rewards in H. rewrite Hr in H. cbn in H. clear Hr. revert ws H.
  induction rs as [|[r amount] rs IH]; intros ws; cbn; [by intros [= <-]|].
  intros (ws1 & H1 & H2)%outcome_bind_ok [Hne Hn]%not_elem_of_cons. rewrite (IH _ H2 Hn). by eapply add_reward_write.
Qed.

(** A reward makes nobody a sender. *)
Lemma add_reward_sender {P : Platform} loc ws r amount ws' x : add_reward (P := P) ws r amount = Ok ws' ->
  (loc, LazySender x) ∈ ws' -> exists y, (loc, LazySender y) ∈ ws.
Proof.
  revert ws'. induction ws as [|[l v] ws IH]; intros ws'; cbn; [by intros [= <-] [=]%list_elem_of_singleton|].
  setoid_rewrite elem_of_cons. case_decide as Hl.
  - destruct v; try done; intros [= <-] [[=]|Hin]%elem_of_cons; subst; eauto.
  - intros (ws1 & H1 & [= <-])%outcome_bind_ok [[= <- <-]|Hin]%elem_of_cons; [eauto|].
    destruct (IH _ H1 Hin) as [y Hy]. eauto.
Qed.

Lemma apply_rewards_sender {P : Platform} {E SpecId} (vm : Vm (P := P) (E := E) SpecId) ws tx gas l1 ws' loc x :
  apply_rewards vm ws tx gas l1 = Ok ws' -> (loc, LazySender x) ∈ ws' -> exists y, (loc, LazySender y) ∈ ws.
Proof.
  intros (rs & _ & H)%outcome_bind_ok. revert ws H. induction rs as [|[r amount] rs IH]; intros ws; cbn.
  { intros [= <-] Hin. by exists x. }
  intros (ws1 & H1 & H2)%outcome_bind_ok Hin. destruct (IH _ H2 Hin) as [y Hy]. by eapply add_reward_sender.
Qed.

(** ** The accounts of the state *)

Section Accounts.
Context {P : Platform}.

(** Where a write of a balance comes from. *)
Definition balance_write (eip : bool) (db : VmDb) (a : Address) (acc : Account)
    (loc : MemoryLocationHash) (v : MemoryValue) : Prop :=
  match v with
  | VBasic b => loc = hash_deterministic (Basic a) /\ is_selfdestructed acc = false /\ is_touched acc = true /\
      eip && is_empty acc = false /\ b = mkAccountBasic (ai_balance (info acc)) (ai_nonce (info acc))
  | LazySender _ => is_lazy db = true /\ loc = from_hash db
  | LazyRecipient _ => is_lazy db = true /\ Some loc = to_hash db
  | _ => True
  end.

Lemma account_writes_balance eip db tx a acc codes ws codes' loc v :
  account_writes eip db tx a acc codes = Ok (ws, codes') -> (loc, v) ∈ ws -> balance_write eip db a acc loc v.
Proof.
  unfold account_writes. destruct (is_selfdestructed acc) eqn:Hsd.
  { intros [= <- _] [= -> ->]%list_elem_of_singleton. done. }
  intros ([ws1 codes1] & H & [= <- _])%outcome_bind_ok [Hin|Hin]%elem_of_app.
  2: { apply list_elem_of_fmap in Hin as ([slot x] & [= -> ->] & _). done. }
  destruct (is_touched acc) eqn:Ht; [|injection H as <- _; by apply elem_of_nil in Hin].
  cbv zeta in H. match type of H with context [Ok (?bw, codes)] => set (basic_write := bw) in H end.
  assert ((loc, v) ∈ basic_write -> balance_write eip db a acc loc v) as Hbw.
  { subst basic_write. intros Hbw. repeat case_match; try (by apply elem_of_nil in Hbw);
      apply list_elem_of_singleton in Hbw as [= -> ->]; cbn; try by split.
    all: repeat split; try done; by destruct eip, (is_empty acc). }
  clearbody basic_write. destruct (negb _ && _); [|injection H as <- _; by apply Hbw].
  apply outcome_bind_ok in H as (codes2 & _ & [= <- _]). apply elem_of_app in Hin as [Hin|Hin]; [by apply Hbw|].
  by apply list_elem_of_singleton in Hin as [= -> ->].
Qed.

Lemma state_writes_balance eip db tx l codes ws codes' loc v :
  state_writes eip db tx l codes = Ok (ws, codes') -> (loc, v) ∈ ws ->
  exists a acc, (a, acc) ∈ l /\ balance_write eip db a acc loc v.
Proof.
  revert codes ws codes'. induction l as [|[a acc] l IH]; intros codes ws codes'; cbn.
  { by intros [= <- _] ?%elem_of_nil. }
  intros ([ws1 c1] & H1 & ([ws2 c2] & H2 & [= <- _])%outcome_bind_ok)%outcome_bind_ok [Hin|Hin]%elem_of_app.
  - exists a, acc. split; [by left|]. by eapply account_writes_balance.
  - destruct (IH _ _ _ H2 Hin) as (a' & acc' & ? & ?). exists a', acc'. by split; [right|].
Qed.

(** The state transitions report every account that was touched. *)
Lemma transitions_report eip l st a acc : NoDup l.*1 -> transitions eip l = Ok st -> (a, acc) ∈ l ->
  is_touched acc = true -> exists x, transition eip acc = Ok x /\ st !! a = Some x.
Proof.
  intros Hnd. revert st. induction l as [|[a' acc'] l IH]; intros st; cbn; [by intros _ ?%elem_of_nil|].
  apply NoDup_cons in Hnd as [Hn Hnd]. intros H [[= -> ->]|Hin]%elem_of_cons Ht.
  - rewrite Ht in H. apply outcome_bind_ok in H as (x & Hx & (rest & Hr & [= <-])%outcome_bind_ok).
    exists x. split; [done|]. assert (rest !! a' = None) as Hnone; [|rewrite Hnone; apply lookup_insert_eq].
    clear -Hn Hr. revert rest Hr. induction l as [|[b accb] l IHl]; intros rest; cbn; [by intros [= <-]|].
    apply not_elem_of_cons in Hn as [Hne Hn]. destruct (is_touched accb); [|by apply IHl].
    intros (y & _ & (rest1 & Hr1 & [= <-])%outcome_bind_ok)%outcome_bind_ok. specialize (IHl Hn _ Hr1).
    destruct (rest1 !! b); [done|]. by rewrite lookup_insert_ne.
  - assert (a <> a') as Hne by (intros ->; apply Hn, list_elem_of_fmap; by exists (a', acc)).
    destruct (is_touched acc'); [|by apply IH].
    apply outcome_bind_ok in H as (x & Hx & (rest & Hr & [= <-])%outcome_bind_ok).
    destruct (IH Hnd _ Hr Hin Ht) as (y & Hy & Hl). exists y. split; [done|].
    destruct (rest !! a'); [done|]. by rewrite lookup_insert_ne.
Qed.

(** Not a self-destructed nor an empty one: its balance and nonce. *)
Lemma transition_account eip acc x : is_selfdestructed acc = false -> eip && is_empty acc = false ->
  transition eip acc = Ok x ->
  exists e, x = Some e /\ ea_balance e = ai_balance (info acc) /\ ea_nonce e = ai_nonce (info acc).
Proof.
  unfold transition. rewrite andb_comm. intros -> ->. cbn. intros (e & (code & _ & [= <-])%outcome_bind_ok & [= <-])%outcome_bind_ok.
  by eexists.
Qed.
End Accounts.

(** ** Lazy addresses *)

Lemma execute_reads_hashes {P : Platform} {E SpecId} (display : E -> string) (vm : Vm (P := P) (E := E) SpecId) mvs i tx out db :
  execute_reads display vm mvs i tx = Ok (out, db) -> from_hash db = tx_from_hash tx /\ to_hash db = tx_to_hash tx.
Proof.
  intros (db0 & Hnew%map_err_ok & Hrun%map_err_ok)%outcome_bind_ok.
  destruct (tx_hashes _ _ _ _ _ _ Hnew) as (Hh & _). pose proof (run_evm_extends _ _ _ _ _ _ _ _ Hh Hrun) as He.
  rewrite (ext_from _ _ He), (ext_to _ _ He). apply VmDb_new_inv in Hnew as (h & lz & db1 & -> & Hn). cbn.
  destruct (transact_to tx); [by destruct Hn as (_ & _ & ->)|].
  apply get_code_hash_extends in Hn as He1. by rewrite (ext_from _ _ He1), (ext_to _ _ He1).
Qed.

Section Listed.
Context {P : Platform} {E : Type} (display : E -> string) {SpecId : Type}.
Context (chain : PexeChain SpecId) `{Hlaws : !ChainLaws chain} (storage : Storage E) (spec : SpecId).
Context (block_env : BlockEnv) (txs : list TxEnv) (kept : list (option PexeTxExecutionResult)).
Abbreviation vm := (Vm_new storage chain block_env txs spec).
Implicit Types s : pstate (P := P).

Lemma apply_op_lazy (mv mv' : MvMemory Bytecode) o : apply_op mv o = Some mv' ->
  lazy_addresses mv' = lazy_addresses mv ∪ match o with OpLazy addrs => list_to_set addrs | _ => ∅ end.
Proof.
  destruct o as [v rs ws|i|addrs|codes]; cbn; rewrite ?union_empty_r_L.
  - intros ([b mv1] & H & [= <-])%bind_Some. unfold record in H. apply bind_Some in H as (ll & _ & H).
    destruct (remove_stale _ _ _ _ _ _) as [old d]. destruct (register_writes _ _ _ _ _) as [[wn locs] d'].
    by injection H as _ <-.
  - unfold convert_writes_to_estimates. by intros (ll & _ & [= <-])%bind_Some.
  - by intros [= <-].
  - by intros [= <-].
Qed.

(** What was once made lazy stays so until the block is evaluated. *)
Lemma apply_ops_lazy (mv mv' : MvMemory Bytecode) ops a : apply_ops mv ops = Some mv' ->
  a ∈ lazy_addresses mv' <-> a ∈ lazy_addresses mv \/ exists addrs, OpLazy addrs ∈ ops /\ a ∈ addrs.
Proof.
  revert mv. induction ops as [|o ops IH]; intros mv; cbn.
  { intros [= <-]. split; [by left|]. intros [H|(addrs & ?%elem_of_nil & _)]; done. }
  intros (mv1 & H1 & H2)%bind_Some. rewrite (IH _ H2), (apply_op_lazy _ _ _ H1), elem_of_union.
  setoid_rewrite elem_of_cons. split.
  - intros [[H|H]|(addrs & Hin & Ha)]; [by left| |right; by eauto].
    destruct o as [| |addrs|]; try by apply elem_of_empty in H. right. exists addrs.
    by rewrite elem_of_list_to_set in H; split; [left|].
  - intros [H|(addrs & [<-|Hin] & Ha)]; [by left; left| |right; by eauto].
    left. right. by apply elem_of_list_to_set.
Qed.

(** Whoever is paid a reward is a lazy address from the start. *)
Lemma rewarded_listed s tx gas l1 rs a : pinv display vm s -> hash_injective ->
  rewards vm tx gas l1 = Ok rs -> hash_deterministic (Basic a) ∈ rs.*1 -> a ∈ lazy_addresses (mem s).
Proof.
  intros Hp Hinj Hr Hin. rewrite (apply_ops_lazy _ _ _ a (pi_mem _ _ _ Hp)). left.
  apply rewarded_are_lazy in Hr. rewrite Forall_forall in Hr.
  apply list_elem_of_fmap in Hin as (r & Hl & Hin). destruct (Hr r Hin) as (a' & Ha' & Hin').
  rewrite Ha' in Hl. apply Hinj in Hl as [= <-]. unfold mem0, build_mv_memory. cbn.
  destruct (mv_estimates chain block_env txs) as [est lz]. cbn. by apply elem_of_list_to_set.
Qed.

(** The lazy updates in the memory of a joined block are at lazy addresses. *)
Lemma lazy_values_listed level s a k inc v : (Z.of_nat (length txs) < 2 ^ 64)%Z -> 0 < level -> hash_injective ->
  preachable display vm kept level s -> abort_reason s = None -> all_exited s ->
  entry (data (mem s)) (hash_deterministic (Basic a)) k = Some (Data inc v) -> is_lazy_value v = true ->
  a ∈ lazy_addresses (mem s).
Proof.
  intros Hlen Hlevel Hinj Hr Hna Hex He Hv.
  pose proof (joined_in_block display chain storage spec block_env txs kept level s _ k Hlen Hlevel Hr Hna Hex
    (mk_is_Some _ _ He)) as Hk.
  destruct (joined_settled display vm kept level s Hlen Hlevel Hr Hna Hex) as [Hp Hl].
  destruct (Hl k Hk) as (mvs & mv & ver & res & mv' & r & l1 & db & ws & ops & _ & Hver & Hx & _ & _ & Hent & Hops).
  apply Hent in He as [-> Hlw].
  destruct (ex_writes _ _ _ _ _ _ _ _ _ _ _ _ Hx) as (tx & ws0 & codes & Htx & Hws & Hrw & _).
  destruct (rewards vm tx (gas_used (result r)) l1) as [rs|e|] eqn:Hrs; [|by unfold apply_rewards in Hrw; rewrite Hrs in Hrw..].
  destruct (decide (hash_deterministic (Basic a) ∈ rs.*1)) as [Hin|Hn]; [by eapply rewarded_listed|].
  rewrite (apply_rewards_write _ _ _ _ _ _ _ _ Hrw Hrs Hn) in Hlw. apply last_write_elem in Hlw.
  destruct (state_writes_balance _ _ _ _ _ _ _ _ _ Hws Hlw) as (a' & acc & _ & Hb).
  assert (is_lazy db = true /\ (hash_deterministic (Basic a) = from_hash db \/ Some (hash_deterministic (Basic a)) = to_hash db))
    as [Hlz Hloc] by (destruct v; naive_solver).
  destruct (ex_lazy _ _ _ _ _ _ _ _ _ _ _ _ Hx Hlz) as (tx' & to & Htx' & Hto & Hin).
  rewrite Htx in Htx'. injection Htx' as <-.
  destruct (ex_reads _ _ _ _ _ _ _ _ _ _ _ _ Hx) as (tx' & Htx' & Hread). rewrite Htx in Htx'. injection Htx' as <-.
  destruct (execute_reads_hashes display vm _ _ _ _ _ Hread) as (Hf & Ht).
  rewrite (apply_ops_lazy _ _ _ a (pi_mem _ _ _ Hp)). right. exists [caller tx; to]. split; [by apply Hops|].
  rewrite Hf, Ht in Hloc. unfold tx_from_hash, tx_to_hash in Hloc. rewrite Hto in Hloc. cbn in Hloc.
  destruct Hloc as [[= ->]%Hinj|[= [= ->]%Hinj]]; [by left|by right; left].
Qed.

(** Who lazily spends is the caller of the transaction. *)
Lemma sender_is_caller level s a k inc x : (Z.of_nat (length txs) < 2 ^ 64)%Z -> 0 < level -> hash_injective ->
  preachable display vm kept level s -> abort_reason s = None -> all_exited s ->
  entry (data (mem s)) (hash_deterministic (Basic a)) k = Some (Data inc (LazySender x)) ->
  exists tx, txs !! k = Some tx /\ caller tx = a.
Proof.
  intros Hlen Hlevel Hinj Hr Hna Hex He.
  pose proof (joined_in_block display chain storage spec block_env txs kept level s _ k Hlen Hlevel Hr Hna Hex
    (mk_is_Some _ _ He)) as Hk.
  destruct (joined_settled display vm kept level s Hlen Hlevel Hr Hna Hex) as [Hp Hl].
  destruct (Hl k Hk) as (mvs & mv & ver & res & mv' & r & l1 & db & ws & ops & _ & Hver & Hx & _ & _ & Hent & _).
  apply Hent in He as [-> Hlw%last_write_elem].
  destruct (ex_writes _ _ _ _ _ _ _ _ _ _ _ _ Hx) as (tx & ws0 & codes & Htx & Hws & Hrw & _).
  destruct (apply_rewards_sender _ _ _ _ _ _ _ _ Hrw Hlw) as [y Hy].
  destruct (state_writes_balance _ _ _ _ _ _ _ _ _ Hws Hy) as (a' & acc & _ & _ & Hloc).
  destruct (ex_reads _ _ _ _ _ _ _ _ _ _ _ _ Hx) as (tx' & Htx' & Hread). rewrite Htx in Htx'. injection Htx' as <-.
  destruct (execute_reads_hashes display vm _ _ _ _ _ Hread) as (Hf & _). rewrite Hf in Hloc.
  apply Hinj in Hloc as [= ->]. rewrite Hver in Htx. by exists tx.
Qed.
End Listed.

(** ** What a transaction reports *)

(** Every result that an EVM run can give. *)
Fixpoint all_results {P : Platform} {R} (Q : R -> Prop) (t : evm_run R) : Prop :=
  match t with
  | EvmDone r => Q r
  | EvmBasic _ k => forall x, all_results Q (k x)
  | EvmCodeByHash _ k => forall x, all_results Q (k x)
  | EvmStorage _ _ k => forall x, all_results Q (k x)
  | EvmBlockHash _ k => forall x, all_results Q (k x)
  end.

Section Reports.
Context {P : Platform} {E : Type} (display : E -> string) {SpecId : Type}.
Context (vm : Vm (P := P) (E := E) SpecId) (codes : gmap B256 Bytecode).

(** The state that the EVM leaves is a map from addresses to accounts. *)
Definition states_are_maps : Prop := forall tx,
  all_results (fun out => match out.1 with inr r => NoDup (state r).*1 | inl _ => True end)
    (build_evm (vm_chain vm) (vm_spec_id vm) false (vm_block_env vm) tx).

Lemma seq_run_result {R} Q J (t : evm_run R) db r db' : all_results Q t ->
  seq_run display vm codes J t db = Ok (r, db') -> Q r.
Proof.
  revert db. induction t as [x|a c IH|h c IH|a slot c IH|n c IH]; intros db HQ; cbn; [by intros [= <- _]|..].
  - intros ([x db1] & _ & H)%outcome_bind_ok. by eapply IH.
  - intros (x & _ & H)%outcome_bind_ok. by eapply IH.
  - intros (x & _ & H)%outcome_bind_ok. by eapply IH.
  - intros (x & _ & H)%outcome_bind_ok. by eapply IH.
Qed.

(** A transition shows the balance and nonce of an account. *)
Definition shows (x : option EvmAccount) (b : option AccountBasic) : Prop :=
  from_option ea_balance 0%Z x = from_option balance 0%Z b /\ from_option ea_nonce 0%Z x = from_option nonce 0%Z b.

Lemma seq_execute_reports J i tx lazy res ws a v : hash_injective -> states_are_maps ->
  seq_execute display vm codes J i tx lazy = Ok (res, ws) -> last_write (hash_deterministic (Basic a)) ws = Some v ->
  is_lazy_value v = true \/
  (exists gas l1 rs, rewards vm tx gas l1 = Ok rs /\ hash_deterministic (Basic a) ∈ rs.*1) \/
  exists b x, v = VBasic b /\ tx_state res !! a = Some x /\ shows x (Some b).
Proof.
  intros Hinj Hmaps H Hv. apply outcome_bind_ok in H as ([[[err|r] l1] db] & Hx%map_err_ok & H); [done|].
  apply outcome_bind_ok in Hx as (db0 & _ & Hx%(seq_run_result _ _ _ _ _ _ (Hmaps tx))). cbn in Hx.
  apply outcome_bind_ok in H as ([ws0 c] & Hws & (ws1 & Hrw & H)%outcome_bind_ok).
  destruct (from_revm _ _ r) as [res1|[]|] eqn:Hres; [|done]. injection H as -> ->.
  destruct (rewards vm tx (gas_used (result r)) l1) as [rs|e|] eqn:Hrs; [|by unfold apply_rewards in Hrw; rewrite Hrs in Hrw..].
  destruct (decide (hash_deterministic (Basic a) ∈ rs.*1)) as [Hin|Hn]; [right; left; by eauto|].
  rewrite (apply_rewards_write _ _ _ _ _ _ _ _ Hrw Hrs Hn) in Hv. apply last_write_elem in Hv.
  pose proof (state_writes_kinded _ _ _ _ _ _ _ Hws) as Hk. unfold writes_kinded in Hk. rewrite Forall_forall in Hk.
  specialize (Hk _ Hv). cbn in Hk.
  destruct (state_writes_balance _ _ _ _ _ _ _ _ _ Hws Hv) as (a' & acc & Hin & Hb).
  destruct v as [b|h|x|x|x|]; try (by left);
    [|exfalso; first [destruct Hk as (? & ? & Hk)|destruct Hk as (? & Hk)]; by apply Hinj in Hk..].
  right. right. destruct Hb as ([= <-]%Hinj & Hsd & Ht & Hem & ->).
  unfold from_revm in Hres. apply outcome_bind_ok in Hres as (st & Hst & [= <-]).
  destruct (transitions_report _ _ _ _ _ Hx Hst Hin Ht) as (x & Htr & Hx').
  destruct (transition_account _ _ _ Hsd Hem Htr) as (e & -> & He1 & He2).
  eexists _, _. split; [reflexivity|]. split; [exact Hx'|]. by split.
Qed.
End Reports.

(** ** What the evaluation of the lazy addresses does *)

Section Evaluated.
Context {P : Platform} {E : Type} (display : E -> string) {BSE TE SpecId : Type}.
Context (chain : PexeChain SpecId) (storage : Storage E) (spec : SpecId) (txs : list TxEnv) (mv : MvMemory Bytecode).
Abbreviation eip_161 := (is_eip_161_enabled chain spec).
Abbreviation evaluate_all := (evaluate_addresses (BSE := BSE) (TE := TE) display chain storage spec txs mv).
Abbreviation plan := (plan (BSE := BSE) (TE := TE) display storage txs mv).

(** The running balances [run] at address [a], where [r] was the [i]-th result and
    [r'] is after the evaluation of the address. *)
Definition run_applied (ch : option B256) (code : option EvmCode) (a : Address) (run : list (TxIdx * (U256 * Z)))
    (i : TxIdx) (r r' : PexeTxExecutionResult) : Prop :=
  (forall bal n, (i, (bal, n)) ∈ run ->
     tx_state r' !! a = Some (evaluated_account eip_161 ch code bal n (default None (tx_state r !! a)))) /\
  (i ∉ run.*1 -> tx_state r' !! a = tx_state r !! a).

Lemma apply_running_result ch code a run rs i r : NoDup run.*1 -> rs !! i = Some r ->
  exists r', apply_running eip_161 ch code a run rs !! i = Some r' /\ receipt r' = receipt r /\
    (forall b, b <> a -> tx_state r' !! b = tx_state r !! b) /\ run_applied ch code a run i r r'.
Proof.
  unfold apply_running. revert rs r. induction run as [|[j [bal n]] run IH]; intros rs r Hnd Hr.
  { exists r. repeat split; try done. by intros bal n ?%elem_of_nil. }
  apply NoDup_cons in Hnd as [Hj Hnd]. cbn [foldl fst snd].
  destruct (decide (j = i)) as [->|Hne].
  - destruct (IH (alter (update_state a (evaluated_account eip_161 ch code bal n)) i rs)
      (update_state a (evaluated_account eip_161 ch code bal n) r) Hnd) as (r' & Hr' & Hrec & Hb & H1 & H2).
    { by rewrite list_lookup_alter_eq, Hr. }
    exists r'. split; [done|]. split; [done|]. split.
    + intros b Hb'. rewrite (Hb _ Hb'). cbn. by rewrite lookup_insert_ne.
    + split; [|intros Hn; destruct Hn; by left]. intros bal' n' [[= -> ->]|Hin]%elem_of_cons.
      * rewrite (H2 Hj). cbn. by rewrite lookup_insert_eq.
      * destruct Hj. apply list_elem_of_fmap. by exists (i, (bal', n')).
  - destruct (IH (alter (update_state a (evaluated_account eip_161 ch code bal n)) j rs) r Hnd)
      as (r' & Hr' & Hrec & Hb & H1 & H2); [by rewrite list_lookup_alter_ne|].
    exists r'. split; [done|]. split; [done|]. split; [done|]. split.
    + intros bal' n' [[= -> -> ->]|Hin]%elem_of_cons; [done|by apply H1].
    + cbn. intros [_ Hn]%not_elem_of_cons. by apply H2.
Qed.

Lemma iter_history_nodup {X} (m : gmap TxIdx X) : NoDup (iter_history m).*1.
Proof.
  unfold iter_history, range_asc. rewrite <- Permutation_rev.
  generalize (index_bound m). intros N. induction N as [|N IH]; [constructor|].
  rewrite range_desc_S. destruct (m !! N) as [e|]; [|done]. cbn. constructor; [|done].
  intros ([k e'] & Hk & Hin)%list_elem_of_fmap. apply range_desc_elem in Hin as [Hin _]. cbn in Hk. lia.
Qed.

Lemma lookup_index_bound {X} (m : gmap TxIdx X) k e : m !! k = Some e -> k < index_bound m.
Proof.
  intros Hk. unfold index_bound. apply Nat.lt_succ_r, max_list_elem_of_le, list_elem_of_fmap.
  exists (k, e). split; [done|]. by apply elem_of_map_to_list.
Qed.

Lemma iter_history_elem {X} (m : gmap TxIdx X) k e : (k, e) ∈ iter_history m <-> m !! k = Some e.
Proof.
  unfold iter_history, range_asc. rewrite <- Permutation_rev, range_desc_elem.
  split; [by intros [_ ?]|]. intros H. split; [by eapply lookup_index_bound|done].
Qed.

Lemma plan_nodup a run ch code : plan a = Ok (Some (run, (ch, code))) -> NoDup run.*1.
Proof.
  unfold PexeLemmas.plan. destruct (data mv !! _) as [written|]; [|done]. destruct (base_of_history _ _ _) as [bal n].
  intros (ch' & _ & (code' & _ & (run' & Hrun & [= <- <- <-])%outcome_bind_ok)%outcome_bind_ok)%outcome_bind_ok.
  rewrite (running_values_indexes _ _ _ _ _ _ Hrun). apply iter_history_nodup.
Qed.

(** Each result after the evaluation of the addresses, address by address. *)
Lemma evaluated_result addrs rs rs' i r : length rs = length txs -> NoDup addrs -> evaluate_all addrs rs = Ok rs' ->
  rs !! i = Some r ->
  exists r', rs' !! i = Some r' /\ receipt r' = receipt r /\
    (forall a, a ∉ addrs -> tx_state r' !! a = tx_state r !! a) /\
    forall a, a ∈ addrs -> exists p, plan a = Ok p /\
      match p with
      | None => tx_state r' !! a = tx_state r !! a
      | Some (run, (ch, code)) => run_applied ch code a run i r r'
      end.
Proof.
  revert rs r. induction addrs as [|a addrs IH]; intros rs r Hl Hnd; cbn.
  { intros [= <-] Hr. exists r. repeat split; try done. by intros a ?%elem_of_nil. }
  apply NoDup_cons in Hnd as [Hn Hnd]. intros (rs1 & H1 & H2)%outcome_bind_ok Hr.
  rewrite evaluate_address_plan in H1 by done. apply outcome_bind_ok in H1 as (p & Hp & [= <-]).
  assert (exists r1, apply_plan chain spec a p rs !! i = Some r1 /\ receipt r1 = receipt r /\
    (forall b, b <> a -> tx_state r1 !! b = tx_state r !! b) /\
    match p with None => tx_state r1 !! a = tx_state r !! a
    | Some (run, (ch, code)) => run_applied ch code a run i r r1 end) as (r1 & Hr1 & Hrec1 & Hb1 & Ha1).
  { destruct p as [[run [ch code]]|]; [|by exists r]. apply apply_running_result; [by eapply plan_nodup|done]. }
  destruct (IH (apply_plan chain spec a p rs) r1 ltac:(by rewrite apply_plan_length) Hnd H2 Hr1) as (r' & Hr' & Hrec & Hout & Hin).
  exists r'. split; [done|]. split; [by rewrite Hrec|]. split.
  - intros b [Hne Hb]%not_elem_of_cons. by rewrite (Hout _ Hb), Hb1.
  - intros b [->|Hb]%elem_of_cons.
    + exists p. split; [done|]. unfold run_applied in *. rewrite (Hout _ Hn). exact Ha1.
    + assert (b <> a) as Hne by (by intros ->). destruct (Hin _ Hb) as (q & Hq & H). exists q. split; [done|].
      unfold run_applied in *. by rewrite (Hb1 _ Hne) in H.
Qed.
End Evaluated.
