(* ===== verification/PlainSpec.v ===== *)
(** * PlainSpec: parallel execution is execution on plain accounts (pexe.rs, vm.rs)

    The journal of the reference and the plain storage of Plain.v read the same as
    long as every lazy update is possible, so the results of the workers are those
    of the transactions one after the other on plain accounts. *)

From S2P Require Import Prelude Types Scheduler SchedulerSystem SchedulerTheorems Platform Storage.
From S2P Require Import MvMemory MvMemorySpec VmDb VmDbLemmas VmDbReplay Vm VmSpec.
From S2P Require Import ParallelCodes Sequential ParallelSystem ParallelInv ParallelSpec Kinds Pexe PexeLemmas PexeSpec.
From S2P Require Import SequentialSpec Plain.
#[local] Open Scope nat_scope.

Section Views.
Context {P : Platform} {E : Type} (display : E -> string) {SpecId : Type}.
Context (vm : Vm (P := P) (E := E) SpecId) (codes : gmap B256 Bytecode).
Abbreviation storage := (vm_storage vm).
Implicit Types (st : Storage E) (J : journal).

(** The plain storage [st] holds what the journal [J] holds on top of the storage of
    the block. *)
Record plain_view st J : Prop := mkPlainView {
  pv_basic : forall a, st_basic st a = foldr write_account (st_basic storage a) (J (hash_deterministic (Basic a)));
  pv_code_hash : forall a h, seq_code_hash display vm J a = Ok h <-> st_code_hash st a = Ok h;
  pv_slot : forall a slot v, seq_storage display vm J a slot = Ok v <-> st_storage st a slot = Ok v;
  pv_code : forall h, st_code_by_hash st h = st_code_by_hash storage h;
  pv_block_hash : forall n, st_block_hash st n = st_block_hash storage n;
}.

Lemma from_storage_ok {A} (m : outcome E A) x : from_storage display m = Ok x <-> m = Ok x.
Proof. destruct m; cbn; split; congruence. Qed.

Lemma plain_view_empty : plain_view storage journal_empty.
Proof. split; [done|intros a h; apply from_storage_ok|intros a slot v; apply from_storage_ok|done..]. Qed.

(** ** Reads *)

Definition word_accounts : Prop := forall a, word_storage storage a.

Lemma write_account_err v (old : outcome E (option AccountBasic)) e : write_account v old = Err e ->
  old = Err e /\ forall b, v <> VBasic b.
Proof.
  intros H. assert (forall b, v <> VBasic b) as Hn by (intros b ->; cbn in H; by case_decide).
  split; [|done]. destruct old as [y|e'|].
  - assert (unwrap (apply_lazy y v) = Err e) as Hu by (destruct v as [b| | | | |]; [by destruct (Hn b)|done..]). by destruct (apply_lazy y v).
  - destruct v as [b| | | | |]; [by destruct (Hn b)|..]; cbn in H; congruence.
  - destruct v as [b| | | | |]; [by destruct (Hn b)|..]; done.
Qed.

(** A failure of the storage is under lazy updates only. *)
Lemma plain_values_err a vs e : foldr write_account (st_basic storage a) vs = Err e ->
  st_basic storage a = Err e /\ Forall (fun v => forall b, v <> VBasic b) vs.
Proof.
  induction vs as [|v vs IH]; cbn; [done|]. intros [H Hn]%write_account_err.
  destruct (IH H) as [He Hl]. split; [done|]. by constructor.
Qed.

Lemma replay_no_value acc os vs r : Forall (fun v => forall b, v <> VBasic b) vs -> final_account acc = None ->
  replay_values acc os vs = Ok r -> final_account r = None.
Proof.
  intros Hv. revert acc os. induction Hv as [|v vs Hn Hv IH]; intros acc os Hf; cbn.
  - destruct os; by intros [= <-].
  - destruct os as [|o os]; cbn; [done|]. destruct (add_value acc o v) as [acc'|] eqn:Ha; [|done].
    assert (final_account acc' = None) as Hf'.
    { destruct v as [b| | | | |]; cbn in Ha; try done; [by destruct (Hn b)|..]; injection Ha as <-;
        by destruct (positive_addition acc). }
    rewrite Hf'. by apply IH.
Qed.

Section Reads.
Context (Hw : word_accounts) (st : Storage E) (J : journal) (Hv : plain_view st J) (Hs : solvent st).
Abbreviation plain_vm := (with_storage vm st).

Lemma seq_account_plain a x : seq_account display vm J a = Ok x <->
  seq_account display plain_vm journal_empty a = Ok x.
Proof.
  unfold seq_account. pose proof (pv_basic _ _ Hv a) as Hb.
  assert (word_storage st a) as Hws.
  { intros b. rewrite Hb. by apply plain_values_word. }
  destruct (st_basic st a) as [t|e|] eqn:Ht; [| |by destruct (Hs a)]; symmetry in Hb.
  - rewrite (chain_account_plain display storage a _ t (Hw a) Hb).
    by rewrite (chain_account_plain display st a [] t Hws Ht).
  - unfold chain_account. cbn. rewrite Ht. cbn. split; [|done].
    apply plain_values_err in Hb as [He Hl]. intros (acc & Hr & H)%outcome_bind_ok.
    by rewrite (replay_no_value lazy_acc_0 _ _ acc Hl eq_refl Hr), He in H.
Qed.

Lemma seq_code_hash_plain a h : seq_code_hash display vm J a = Ok h <->
  seq_code_hash display plain_vm journal_empty a = Ok h.
Proof. rewrite (pv_code_hash _ _ Hv). symmetry. apply from_storage_ok. Qed.

Lemma seq_load_code_plain h : seq_load_code display plain_vm codes h = seq_load_code display vm codes h.
Proof.
  unfold seq_load_code, load_code. cbn. destruct h as [h|]; [|done]. by rewrite (pv_code _ _ Hv).
Qed.

Lemma seq_basic_plain db a x : seq_basic display vm codes J db a = Ok x <->
  seq_basic display plain_vm codes journal_empty db a = Ok x.
Proof.
  unfold seq_basic. destruct (_ && _); [done|]. destruct (_ && _); [done|].
  apply outcome_bind_iff; [intros account; apply seq_account_plain|]. intros [account|]; [|done].
  destruct (_ && _); [done|]. apply outcome_bind_iff.
  - intros h. case_decide; [done|apply seq_code_hash_plain].
  - intros h. by rewrite seq_load_code_plain.
Qed.

Lemma seq_run_plain {R} (t : evm_run R) db x : seq_run display vm codes J t db = Ok x <->
  seq_run display plain_vm codes journal_empty t db = Ok x.
Proof.
  revert db. induction t as [r|a c IH|h c IH|a slot c IH|n c IH]; intros db; cbn [seq_run]; [done|..].
  - apply outcome_bind_iff; [intros y; apply seq_basic_plain|]. intros [y db1]. apply IH.
  - unfold code_by_hash. cbn. rewrite (pv_code _ _ Hv). apply outcome_bind_iff; [done|]. intros y. apply IH.
  - apply outcome_bind_iff; [|intros y; apply IH]. intros y. rewrite (pv_slot _ _ Hv). symmetry. apply from_storage_ok.
  - unfold block_hash. cbn. rewrite (pv_block_hash _ _ Hv). apply outcome_bind_iff; [done|]. intros y. apply IH.
Qed.

Lemma seq_new_plain i tx lazy x : seq_new display vm J i tx lazy = Ok x <->
  seq_new display plain_vm journal_empty i tx lazy = Ok x.
Proof.
  unfold seq_new. destruct (transact_to tx) as [|to]; [done|].
  apply outcome_bind_iff; [intros h; apply seq_code_hash_plain|done].
Qed.

(** A transaction of the reference is one on the plain storage. *)
Lemma seq_execute_plain i tx lazy out : seq_execute display vm codes J i tx lazy = Ok out <->
  plain_execute display vm codes st i tx lazy = Ok out.
Proof.
  unfold plain_execute, seq_execute. apply outcome_bind_iff; [|done]. intros x. rewrite !map_err_ok.
  apply outcome_bind_iff; [intros db; apply seq_new_plain|]. intros db. apply seq_run_plain.
Qed.
End Reads.
(** ** Writes *)

Lemma plain_view_write st J ws : hash_injective -> writes_kinded ws -> plain_view st J ->
  plain_view (storage_after ws st) (journal_write ws J).
Proof.
  intros Hinj Hk [Hb Hc Hs Hcode Hbh]. unfold writes_kinded in Hk. rewrite Forall_forall in Hk.
  assert (forall loc v, last_write loc ws = Some v -> kind_ok loc v) as Hkind
    by (intros loc v H%last_write_elem; exact (Hk _ H)).
  split; [| | |done..].
  - intros a. cbn. unfold journal_write. destruct (last_write _ ws) as [v|] eqn:Hl; [|apply Hb].
    destruct (is_lazy_value v) eqn:Hlz; cbn; [by rewrite Hb|].
    apply Hkind in Hl. destruct v; try done; exfalso;
      [destruct Hl as (? & H)|destruct Hl as (? & ? & H)|destruct Hl as (? & H)]; by apply Hinj in H.
  - intros a h. unfold seq_code_hash, journal_write. cbn. destruct (last_write _ ws) as [v|] eqn:Hl; [|apply Hc].
    apply Hkind in Hl. destruct v as [|h'|?|?|?|]; cbn; try (by split); try (split; by intros [= <-]).
    all: exfalso; try (destruct Hl as (? & H); by apply Hinj in H). destruct Hl as (? & ? & H). by apply Hinj in H.
  - intros a slot v. unfold seq_storage, journal_write. cbn. destruct (last_write _ ws) as [v'|] eqn:Hl; [|apply Hs].
    by destruct v'; cbn; split; intros; simplify_eq.
Qed.

Lemma seq_execute_kinded J i tx lazy res ws : rewards_to_accounts vm ->
  seq_execute display vm codes J i tx lazy = Ok (res, ws) -> writes_kinded ws.
Proof.
  intros Hb ([[[err|r] l1] db] & _ & H)%outcome_bind_ok; [done|].
  apply outcome_bind_ok in H as ([ws0 c] & Hws & (ws1 & Hrw & H)%outcome_bind_ok).
  assert (ws1 = ws) as -> by (destruct (from_revm _ _ _) as [?|[]|]; congruence).
  eapply apply_rewards_kinded; [done|exact Hrw|]. by eapply state_writes_kinded.
Qed.

(** A block of the reference is one on plain accounts. *)
Lemma seq_block_plain i txs lazies st J outs J' : hash_injective -> rewards_to_accounts vm -> word_accounts ->
  plain_view st J -> solvent_block display vm codes i txs lazies st ->
  seq_block display vm codes i txs lazies J = Ok (outs, J') ->
  exists st', plain_block display vm codes i txs lazies st = Ok (outs, st') /\ plain_view st' J'.
Proof.
  intros Hinj Hb Hw Hv Hs H.
  destruct (run_block_simulates _ _ (plain_execute display vm codes) storage_after (fun J st => plain_view st J) solvent
    _ _ _ _ _ _ _ (fun J st i tx lazy out ws Hv Hg Hx => conj (proj1 (seq_execute_plain Hw st J Hv Hg i tx lazy _) Hx)
      (plain_view_write _ _ _ Hinj (seq_execute_kinded _ _ _ _ _ _ Hb Hx) Hv)) Hv Hs H) as (st' & ? & ?).
  by exists st'.
Qed.
End Views.
