(* ===== verification/ChainSpec.v ===== *)
(** * ChainSpec: what Ethereum and Optimism promise to the engine

    Hard forks, transaction environments, estimates, rewards and receipt roots of
    the two chains.  [eth_laws] and [op_laws] discharge the interface [ChainLaws]
    under which the evaluation after the block was proved not to panic. *)

From stdpp Require Import sorting.
From S2P Require Import Prelude Types Platform Compat Storage MvMemory MvMemorySpec Vm Kinds Chain.
#[local] Open Scope Z_scope.

(** ** Hard forks *)

Section Specs.
Context {R : Revm} `{!RevmLaws R}.

(** Splits the cascade of comparisons of a hard-fork function. *)
Ltac split_forks := repeat match goal with
  | |- context [if ?a <=? ?b then _ else _] => destruct (Z.leb_spec a b)
  | H : context [if ?a <=? ?b then _ else _] |- _ => destruct (Z.leb_spec a b)
  end.

(** The chain never falls back behind a hard fork, and London and Spurious Dragon
    begin where they should.  A later block, by number and timestamp, has the same
    or a later spec on either chain; a block that Optimism supports is followed by
    supported blocks only, and pre-Bedrock blocks alone are unsupported; Ethereum
    has its fee market from block 12965000 on and cleans up empty accounts from
    block 2675000 on (or by the time of Shanghai). *)
Theorem forks_never_go_back h1 h2
  (Hn : hd_number h1 <= hd_number h2) (Ht : hd_timestamp h1 <= hd_timestamp h2) :
  (forall s1 s2, eth_get_block_spec h1 = Ok s1 -> eth_get_block_spec h2 = Ok s2 -> spec_index s1 <= spec_index s2) /\
  (forall s1, op_get_block_spec h1 = Ok s1 ->
     exists s2, op_get_block_spec h2 = Ok s2 /\ spec_index s1 <= spec_index s2) /\
  (op_get_block_spec h1 = Err UnsupportedSpec <-> hd_number h1 < 105235063 /\ hd_timestamp h1 < 1704992401) /\
  (op_get_block_spec h1 <> Ok BEDROCK) /\
  (forall s1, eth_get_block_spec h1 = Ok s1 ->
     eth_is_eip_1559_enabled s1 = (12965000 <=? hd_number h1) || (1681338455 <=? hd_timestamp h1) /\
     eth_is_eip_161_enabled s1 = (2675000 <=? hd_number h1) || (1681338455 <=? hd_timestamp h1)).
Proof.
  pose proof forks_in_order as Ho.
  split; [|split; [|split; [|split]]].
  - unfold eth_get_block_spec. intros s1 s2 [= <-] [= <-]. split_forks; lia.
  - unfold op_get_block_spec. intros s1 H1. split_forks; try discriminate H1; injection H1 as <-;
      first [exfalso; lia | eexists; split; [done|lia]].
  - unfold op_get_block_spec. split_forks; split; try done; lia.
  - unfold op_get_block_spec. split_forks; try done; intros [= Hb%(f_equal spec_index)]; lia.
  - unfold eth_get_block_spec, eth_is_eip_1559_enabled, eth_is_eip_161_enabled, spec_ge. intros s1 [= <-].
    split_forks; split; apply eq_true_iff_eq; rewrite orb_true_iff, !Z.leb_le; split; lia.
Qed.
End Specs.

(** ** Estimates *)

Section Estimates.
Context {P : Platform}.

Context {R : Revm} (L1_FEE_RECIPIENT BASE_FEE_RECIPIENT : Address).
Abbreviation op_locations := (op_estimated_locations L1_FEE_RECIPIENT BASE_FEE_RECIPIENT).

(** Where Optimism estimates a transaction. *)
Definition op_estimated_at (block_env : BlockEnv) (tx : TxEnv) (loc : MemoryLocationHash) : Prop :=
  match source_hash tx with
  | None => loc = hash_deterministic (Basic (coinbase block_env))
  | Some _ => loc = hash_address L1_FEE_RECIPIENT \/ loc = hash_address BASE_FEE_RECIPIENT
  end.

Lemma push_estimate_elem (m : gmap MemoryLocationHash (list TxIdx)) loc index l j idxs :
  push_estimate m loc index !! l = Some idxs -> j ∈ idxs ->
  (l = loc /\ j = index) \/ exists idxs', m !! l = Some idxs' /\ j ∈ idxs'.
Proof.
  unfold push_estimate. destruct (decide (l = loc)) as [->|Hne].
  - rewrite lookup_insert_eq. intros [= <-] [Hj|Hj]%elem_of_app; [|left; split; [done|set_solver]].
    destruct (m !! loc) as [idxs'|] eqn:E; cbn in Hj; [right; by exists idxs'|by apply elem_of_nil in Hj].
  - rewrite lookup_insert_ne by done. intros. right. by exists idxs.
Qed.

Lemma op_locations_elem block_env txs loc idxs j : op_locations block_env txs !! loc = Some idxs -> j ∈ idxs ->
  exists tx, txs !! j = Some tx /\ op_estimated_at block_env tx loc.
Proof.
  intros H Hj. assert (exists tx, (j, tx) ∈ zip (seq 0 (length txs)) txs /\ op_estimated_at block_env tx loc)
    as (tx & Hin & Hat).
  { unfold op_estimated_locations in H. revert idxs H Hj.
    induction (zip (seq 0 (length txs)) txs) as [|[i tx] l IH] using rev_ind; intros idxs; cbn; [by rewrite lookup_empty|].
    rewrite foldl_snoc. unfold op_estimated_at. intros H Hj.
    assert ((exists tx', (j, tx') ∈ l /\ op_estimated_at block_env tx' loc) \/ (j = i /\ op_estimated_at block_env tx loc))
      as [(tx' & Hin & Hat)|[-> Hat]]; [|exists tx'; rewrite elem_of_app; by split; [left|]|
        exists tx; rewrite elem_of_app; by split; [right; left|]].
    unfold op_estimated_at at 2. destruct (source_hash tx).
    - apply (push_estimate_elem _ _ _ _ _ _ H) in Hj as [[-> ->]|(idxs1 & H1 & Hj)]; [right; by split; [|right]|].
      apply (push_estimate_elem _ _ _ _ _ _ H1) in Hj as [[-> ->]|(idxs2 & H2 & Hj)]; [right; by split; [|left]|].
      left. by eapply IH.
    - apply (push_estimate_elem _ _ _ _ _ _ H) in Hj as [[-> ->]|(idxs2 & H2 & Hj)]; [by right|].
      left. by eapply IH. }
  exists tx. split; [|done]. apply elem_of_lookup_zip_with in Hin as (k & i & tx' & [= <- <-] & Hi & Htx).
  apply lookup_seq in Hi as [-> _]. exact Htx.
Qed.

(** ** The interface of the engine *)

Context {Handler : Type} (mainnet_with_spec optimism_with_spec : SpecId -> Handler) (skip_reward : Handler -> Handler).
Context (run : Handler -> BlockEnv -> TxEnv -> evm_run ((InvalidTransaction + ResultAndState) * option L1BlockInfo)).
Context (l1_cost : L1BlockInfo -> list Z -> SpecId -> U256).
Abbreviation ethereum := (PevmEthereum mainnet_with_spec skip_reward run l1_cost).
Abbreviation optimism := (PevmOptimism L1_FEE_RECIPIENT BASE_FEE_RECIPIENT optimism_with_spec skip_reward run l1_cost).

#[export] Instance eth_laws : ChainLaws ethereum.
Proof. by apply beneficiary_laws. Qed.

(** The hash of a bare address is not the hash of a location. *)
Definition address_hashes_apart : Prop := forall a l, hash_address a <> hash_deterministic l.

Lemma op_rewards_beneficiary {E} (storage : Storage E) block_env txs spec tx gas l1 rs : source_hash tx = None ->
  rewards (Vm_new storage optimism block_env txs spec) tx gas l1 = Ok rs ->
  hash_deterministic (Basic (coinbase block_env)) ∈ rs.*1.
Proof.
  intros Hs. unfold rewards. cbn. rewrite Hs.
  intros (enveloped & _ & (info & _ & [= <-])%outcome_bind_ok)%outcome_bind_ok. by left.
Qed.

Lemma op_laws : address_hashes_apart -> ChainLaws optimism.
Proof.
  intros Hap.
  assert (forall tx block_env l, op_estimated_at block_env tx (hash_deterministic l) ->
    source_hash tx = None /\ hash_deterministic l = hash_deterministic (Basic (coinbase block_env))) as Hcoin.
  { unfold op_estimated_at. intros tx block_env l. destruct (source_hash tx); [|done].
    by intros [Hl|Hl]; destruct (Hap _ _ (eq_sym Hl)). }
  split; [split; by eexists| | |].
  - intros E0 storage block_env txs spec loc j (idxs & Hin & Hj)%new_estimate.
    apply elem_of_map_to_list in Hin. destruct (op_locations_elem _ _ _ _ _ Hin Hj) as (tx & Htx & Hat).
    exists tx. split; [done|]. intros [a ->] gas l1 rs Hr. destruct (Hcoin _ _ _ Hat) as [Hs ->].
    by eapply op_rewards_beneficiary.
  - intros block_env txs l j (idxs & Hin & Hj)%new_estimate. apply elem_of_map_to_list in Hin.
    destruct (op_locations_elem _ _ _ _ _ Hin Hj) as (tx & _ & Hat).
    destruct (Hcoin _ _ _ Hat) as [_ ->]. by eexists.
  - intros E0 storage block_env txs spec tx gas l1 rs. unfold rewards. cbn.
    destruct (source_hash tx); [intros [= <-]; constructor|].
    intros (enveloped & _ & (info & _ & [= <-])%outcome_bind_ok)%outcome_bind_ok.
    repeat constructor; eexists; (split; [reflexivity|set_solver]).
Qed.

(** C34: both chains keep what the engine relies on.  Rewards go to accounts that
    are lazy addresses of the block, and a transaction that is estimated at an
    account will be paid into it, so an estimate never outlives the first execution
    of its transaction.  For Optimism this needs that a bare address does not hash
    like a location: the locations that it estimates for deposits, which pay no
    reward, are such hashes. *)
Theorem chains_keep_laws (Hap : address_hashes_apart) : ChainLaws ethereum /\ ChainLaws optimism.
Proof. split; [apply eth_laws|by apply op_laws]. Qed.

(** ** Transactions *)

(** alloy answers a gas price for the transactions that carry one. *)
Definition carries_gas_price {T} (legacy : T -> bool) (tx : AlloyTx T) : Prop :=
  legacy (tx_type tx) = true -> is_Some (at_gas_price tx).
Definition op_legacy (t : OpTxType) : bool := match t with OpLegacy | OpEip2930 => true | _ => false end.

(** An Optimism transaction always becomes an environment that can be rewarded.
    With a gas price where its type carries one the environment exists, it has the
    encoded transaction, so the rewards never panic once the L1 block info is
    there; a deposit with a source hash pays nobody, any other transaction the
    beneficiary, the L1 fee recipient with the L1 cost of its own encoding, and the
    base fee recipient. *)
Theorem op_rewards_defined {E} (storage : Storage E) block_env txs spec tx gas info
  (Hp : carries_gas_price op_legacy (op_inner tx)) :
  exists env, op_get_tx_env tx = Ok env /\ caller env = signer (op_inner tx) /\
    enveloped_tx env = Some (op_encoded tx) /\
    rewards (Vm_new storage optimism block_env txs spec) env gas (Some info) =
      Ok (match op_deposit tx with
          | Some (Some _, _) => []
          | _ =>
              [(hash_deterministic (Basic (coinbase block_env)),
                sat_mul (reward_gas_price (Vm_new storage optimism block_env txs spec) env) gas);
               (hash_deterministic (Basic L1_FEE_RECIPIENT), l1_cost info (op_encoded tx) spec);
               (hash_deterministic (Basic BASE_FEE_RECIPIENT), sat_mul (basefee block_env) gas)]
          end).
Proof.
  unfold op_get_tx_env, get_optimism_fields. assert (exists p, get_optimism_gas_price (op_inner tx) = Ok p) as [p ->].
  { unfold get_optimism_gas_price, carries_gas_price in *. destruct (tx_type (op_inner tx)); try by eexists.
    all: destruct (Hp eq_refl) as [x ->]; by eexists. }
  destruct (op_deposit tx) as [[[h|] mint0]|]; cbn; eexists; repeat (split; [done|]); done.
Qed.
End Estimates.

(** ** Receipt roots *)

Section Receipts.
Context {P : Platform} {R : Revm} `{!RevmLaws R} (rlp_index : nat -> list Z) (trie_root : list (list Z * list Z) -> B256).

Lemma bytes_le_refl a : bytes_le a a = true.
Proof. induction a as [|x a IH]; cbn; [done|]. rewrite Z.eqb_refl, IH. by rewrite orb_true_r. Qed.

Lemma bytes_le_total a b : bytes_le a b = true \/ bytes_le b a = true.
Proof.
  revert b. induction a as [|x a IH]; intros [|y b]; cbn; auto.
  destruct (Z.lt_trichotomy x y) as [H|[->|H]].
  - left. by rewrite (proj2 (Z.ltb_lt _ _)).
  - rewrite Z.eqb_refl, Z.ltb_irrefl. apply IH.
  - right. by rewrite (proj2 (Z.ltb_lt _ _)).
Qed.

Lemma bytes_le_trans a b c : bytes_le a b = true -> bytes_le b c = true -> bytes_le a c = true.
Proof.
  revert b c. induction a as [|x a IH]; intros [|y b] [|z c]; cbn; try done.
  rewrite !orb_true_iff, !andb_true_iff, !Z.ltb_lt, !Z.eqb_eq.
  intros [H1|[-> H1]] [H2|[-> H2]]; [left; lia|by left|by left|right; split; [done|by eapply IH]].
Qed.

Lemma bytes_le_antisym a b : bytes_le a b = true -> bytes_le b a = true -> a = b.
Proof.
  revert b. induction a as [|x a IH]; intros [|y b]; cbn; try done.
  rewrite !orb_true_iff, !andb_true_iff, !Z.ltb_lt, !Z.eqb_eq.
  intros [H1|[-> H1]] [H2|[? H2]]; [lia..|]. f_equal. by apply IH.
Qed.

#[export] Instance entry_le_total : Total entry_le.
Proof.
  intros a b. unfold entry_le. destruct (decide (a.1 = b.1)) as [E|E].
  - rewrite (decide_True _ _ (eq_sym E)). apply bytes_le_total.
  - rewrite (decide_False (P := b.1 = a.1)) by congruence. apply bytes_le_total.
Qed.

#[export] Instance entry_le_trans : Transitive entry_le.
Proof.
  intros [k1 v1] [k2 v2] [k3 v3]. unfold entry_le. cbn.
  destruct (decide (k1 = k2)) as [->|Hne], (decide (k2 = k3)) as [->|Hne']; rewrite ?decide_True by done;
    rewrite ?(decide_False (P := k2 = k3)), ?(decide_False (P := k1 = k3)) by done; try done.
  - apply bytes_le_trans.
  - intros H1 H2. case_decide as E; [|by eapply bytes_le_trans]. subst k3.
    by destruct Hne; apply bytes_le_antisym.
Qed.

(** The key of a leaf is below another one when it is no larger and different. *)
Definition key_lt (a b : list Z * list Z) : Prop := bytes_le a.1 b.1 = true /\ a.1 <> b.1.

Lemma trie_entries_elem receipts k v : (k, v) ∈ trie_entries rlp_index receipts <->
  exists i, receipts !! i = Some v /\ k = rlp_index i.
Proof.
  unfold trie_entries. rewrite merge_sort_Permutation. rewrite elem_of_lookup_imap. split.
  - intros (i & x & [= -> ->] & Hx). by exists i.
  - intros (i & Hx & ->). by exists i, v.
Qed.

Lemma trie_keys_nodup receipts : (forall i j, rlp_index i = rlp_index j -> i = j) ->
  NoDup (trie_entries rlp_index receipts).*1.
Proof.
  intros Hinj. unfold trie_entries. rewrite merge_sort_Permutation.
  assert ((imap (fun i r => (rlp_index i, r)) receipts).*1 = rlp_index <$> seq 0 (length receipts)) as ->.
  { apply list_eq. intros i. rewrite list_lookup_fmap, list_lookup_imap, list_lookup_fmap.
    destruct (receipts !! i) as [r|] eqn:E; cbn.
    - by rewrite lookup_seq_lt by (by eapply lookup_lt_Some).
    - by rewrite lookup_seq_ge by (by apply lookup_ge_None). }
  apply NoDup_fmap_2; [|apply NoDup_seq]. intros i j. apply Hinj.
Qed.

(** The first deposit whose sender has no account in the state of its result. *)
Definition missing_sender (l : list (OpTx * PexeTxExecutionResult)) : Prop :=
  exists tx r, (tx, r) ∈ l /\ tx_type (op_inner tx) = OpDeposit /\
    default None (tx_state r !! signer (op_inner tx)) = None.

Lemma op_receipts_length spec l rs : op_receipts spec l = Ok rs -> length rs = length l.
Proof.
  revert rs. induction l as [|[tx r] l IH]; intros rs; cbn; [by intros [= <-]|].
  intros (x & _ & (xs & Hxs & [= <-])%outcome_bind_ok)%outcome_bind_ok. cbn. by rewrite (IH xs).
Qed.

Lemma op_receipts_error spec l : (missing_sender l /\ op_receipts spec l = Err OpDepositMissingSender) \/
  (~ missing_sender l /\ exists rs, op_receipts spec l = Ok rs).
Proof.
  induction l as [|[tx r] l IH]; cbn.
  { right. split; [|by eexists]. intros (? & ? & []%elem_of_nil & _). }
  assert (op_receipt spec tx r = Err OpDepositMissingSender /\ tx_type (op_inner tx) = OpDeposit /\
      default None (tx_state r !! signer (op_inner tx)) = None \/
    exists x, op_receipt spec tx r = Ok x /\
      ~ (tx_type (op_inner tx) = OpDeposit /\ default None (tx_state r !! signer (op_inner tx)) = None))
    as [(Hx & Ht & Hs)|(x & Hx & Hn)].
  { unfold op_receipt. destruct (tx_type (op_inner tx)); try (right; eexists; split; [done|by intros []]).
    destruct (default None _); [right; eexists; split; [done|by intros []]|by left]. }
  - left. split; [exists tx, r; split; [by left|done]|]. by rewrite Hx.
  - rewrite Hx. cbn. destruct IH as [((tx' & r' & Hin & H') & ->)|(Hm & rs & ->)].
    + left. split; [|done]. exists tx', r'. split; [by right|done].
    + right. split; [|by eexists]. intros (tx' & r' & [[= -> ->]|Hin]%elem_of_cons & H'); [done|].
      apply Hm. by exists tx', r'.
Qed.

(** *** What the trie is built from

    A trie is determined by the leaf under each key.  [leaf i v] says that [v] belongs
    under the index [i]. *)
Definition trie_of (leaf : nat -> list Z -> Prop) (root : B256) : Prop :=
  exists l, root = trie_root l /\ StronglySorted key_lt l /\
    forall k v, (k, v) ∈ l <-> exists i, leaf i v /\ k = rlp_index i.

Lemma trie_entries_sorted receipts : (forall i j, rlp_index i = rlp_index j -> i = j) ->
  StronglySorted key_lt (trie_entries rlp_index receipts).
Proof.
  intros Hinj. pose proof (StronglySorted_merge_sort entry_le (imap (fun i r => (rlp_index i, r)) receipts)) as Hs.
  pose proof (trie_keys_nodup receipts Hinj) as Hnd. unfold trie_entries in *.
  induction Hs as [|[k v] l Hl IH Hall]; [constructor|]. apply NoDup_cons in Hnd as [Hk Hnd]. constructor; [by apply IH|].
  apply Forall_forall. intros [k' v'] Hin. rewrite Forall_forall in Hall. specialize (Hall _ Hin).
  assert (k <> k') as Hne. { intros ->. apply Hk. apply list_elem_of_fmap. by exists (k', v'). }
  unfold entry_le in Hall. cbn in Hall. rewrite decide_False in Hall by done. by split.
Qed.

Lemma trie_of_entries (leaf : nat -> list Z -> Prop) receipts : (forall i j, rlp_index i = rlp_index j -> i = j) ->
  (forall i v, receipts !! i = Some v <-> leaf i v) -> trie_of leaf (trie_root (trie_entries rlp_index receipts)).
Proof.
  intros Hinj Hleaf. exists (trie_entries rlp_index receipts). split; [done|]. split; [by apply trie_entries_sorted|].
  intros k v. rewrite trie_entries_elem. by setoid_rewrite Hleaf.
Qed.

(** The receipt that belongs under the index of a transaction. *)
Definition eth_leaf (enc : TxType -> Receipt -> list Z) (txs : list (AlloyTx TxType)) (results : list PexeTxExecutionResult)
    (i : nat) (v : list Z) : Prop :=
  exists tx r, txs !! i = Some tx /\ results !! i = Some r /\ v = enc (tx_type tx) (receipt r).

(** On Optimism the receipt of a deposit also has, from Canyon on, the nonce that its
    sender had before it, which is one less than in the state of the result. *)
Definition op_encoded (enc : OpReceipt -> list Z) (spec : SpecId) (tx : OpTx) (r : PexeTxExecutionResult) (v : list Z) : Prop :=
  (tx_type (op_inner tx) <> OpDeposit -> v = enc (PlainReceipt (tx_type (op_inner tx)) (receipt r))) /\
  (tx_type (op_inner tx) = OpDeposit -> exists account, tx_state r !! signer (op_inner tx) = Some (Some account) /\
     (spec_index spec < spec_index CANYON -> v = enc (DepositReceipt (receipt r) None None)) /\
     (spec_index CANYON <= spec_index spec -> exists before, is_u 64 before /\
        wrap 64 (before + 1) = wrap 64 (ea_nonce account) /\ v = enc (DepositReceipt (receipt r) (Some before) (Some 1)))).

Definition op_leaf (enc : OpReceipt -> list Z) (spec : SpecId) (txs : list OpTx) (results : list PexeTxExecutionResult)
    (i : nat) (v : list Z) : Prop :=
  exists tx r, txs !! i = Some tx /\ results !! i = Some r /\ op_encoded enc spec tx r v.

Lemma u64_before n before : is_u 64 before -> wrap 64 (before + 1) = wrap 64 n <-> before = u64_sub n 1.
Proof.
  intros Hb. unfold u64_sub, wrap. split.
  - intros H. rewrite <- (wrap_small 64 before Hb). unfold wrap. rewrite Zminus_mod, <- H, <- Zminus_mod. f_equal. lia.
  - intros ->. rewrite Zplus_mod_idemp_l. f_equal. lia.
Qed.

Lemma op_receipt_encoded enc spec tx r x v : op_receipt spec tx r = Ok x -> op_encoded enc spec tx r v <-> v = enc x.
Proof.
  unfold op_receipt, op_encoded. destruct (decide (tx_type (op_inner tx) = OpDeposit)) as [Ht|Ht].
  - rewrite Ht. destruct (tx_state r !! signer (op_inner tx)) as [[account|]|]; cbn; [|done..]. unfold spec_ge.
    destruct (Z.leb_spec (spec_index CANYON) (spec_index spec)) as [Hle|Hlt]; intros [= <-].
    + assert (is_u 64 (u64_sub (ea_nonce account) 1)) as Hu by by apply wrap_is_u. split.
      * intros [_ H]. destruct (H eq_refl) as (? & [= <-] & _ & Hv). destruct (Hv Hle) as (b & Hb & Hw & ->).
        by apply u64_before in Hw as ->.
      * intros ->. split; [done|]. intros _. exists account. split; [done|]. split; [lia|]. intros _.
        eexists. split; [exact Hu|]. split; [by apply u64_before|done].
    + split.
      * intros [_ H]. destruct (H eq_refl) as (? & [= <-] & Hv & _). by apply Hv.
      * intros ->. split; [done|]. intros _. exists account. split; [done|]. split; [done|lia].
  - intros Hx. assert (x = PlainReceipt (tx_type (op_inner tx)) (receipt r)) as -> by (destruct (tx_type (op_inner tx)); congruence).
    split; [intros [H _]; by apply H|]. by intros ->.
Qed.

Lemma op_receipts_lookup spec l rs i x : op_receipts spec l = Ok rs ->
  rs !! i = Some x <-> exists tx r, l !! i = Some (tx, r) /\ op_receipt spec tx r = Ok x.
Proof.
  revert rs i. induction l as [|[tx r] l IH]; intros rs i; cbn [op_receipts].
  { intros [= <-]. rewrite !lookup_nil. split; [done|by intros (? & ? & ? & _)]. }
  intros (y & Hy & (ys & Hys & [= <-])%outcome_bind_ok)%outcome_bind_ok. destruct i as [|i]; cbn; [|by apply IH].
  split; [intros [= <-]; by exists tx, r|]. intros (? & ? & [= <- <-] & ?). congruence.
Qed.

Lemma op_receipts_total spec l rs i tx r : op_receipts spec l = Ok rs -> l !! i = Some (tx, r) ->
  exists x, op_receipt spec tx r = Ok x.
Proof.
  revert rs i. induction l as [|[tx' r'] l IH]; intros rs i; cbn [op_receipts]; [by rewrite lookup_nil|].
  intros (y & Hy & (ys & Hys & _)%outcome_bind_ok)%outcome_bind_ok. destruct i as [|i]; cbn; [intros [= -> ->]; by exists y|].
  by eapply IH.
Qed.

(** C35: the receipt root is that of the right receipts, or refused.  Ethereum refuses
    the blocks before Byzantium, Optimism those with a deposit whose sender the
    result does not hold.  Otherwise the trie has, under the encoding of each index,
    the receipt of the transaction at that index, encoded with the type of that
    transaction, and nothing else; a deposit has the nonce of its sender before the
    transaction; and the keys ascend strictly as the trie builder demands. *)
Theorem receipt_root_leaves (Hinj : forall i j, rlp_index i = rlp_index j -> i = j)
  enc_eth enc_op spec txs op_txs (results : list (PexeTxExecutionResult)) :
  (if decide (spec_index spec < spec_index BYZANTIUM)
   then eth_calculate_receipt_root rlp_index trie_root enc_eth spec txs results = Err Unsupported
   else exists root, eth_calculate_receipt_root rlp_index trie_root enc_eth spec txs results = Ok root /\
     trie_of (eth_leaf enc_eth txs results) root) /\
  ((missing_sender (zip op_txs results) /\
      op_calculate_receipt_root rlp_index trie_root enc_op spec op_txs results = Err OpDepositMissingSender) \/
   (~ missing_sender (zip op_txs results) /\ exists root,
      op_calculate_receipt_root rlp_index trie_root enc_op spec op_txs results = Ok root /\
      trie_of (op_leaf enc_op spec op_txs results) root)).
Proof.
  split.
  - unfold eth_calculate_receipt_root. case_decide as Hs; [by rewrite (proj2 (Z.ltb_lt _ _))|].
    rewrite (proj2 (Z.ltb_ge _ _)) by lia. eexists. split; [done|]. apply trie_of_entries; [done|].
    intros i v. rewrite lookup_zip_with_Some. unfold eth_leaf. naive_solver.
  - unfold op_calculate_receipt_root. destruct (op_receipts_error spec (zip op_txs results)) as [[Hm ->]|(Hm & rs & Hrs)]; [by left|].
    right. split; [done|]. rewrite Hrs. eexists. split; [done|]. apply trie_of_entries; [done|].
    intros i v. rewrite list_lookup_fmap, fmap_Some. unfold op_leaf. setoid_rewrite (op_receipts_lookup _ _ _ _ _ Hrs).
    split.
    + intros (x & (tx & r & (t & r' & [= <- <-] & Htx & Hr)%lookup_zip_with_Some & Hx) & ->). exists tx, r.
      split; [done|]. split; [done|]. by apply (op_receipt_encoded _ _ _ _ _ _ Hx).
    + intros (tx & r & Htx & Hr & Hv). assert (zip op_txs results !! i = Some (tx, r)) as Hz
        by (apply lookup_zip_with_Some; by exists tx, r).
      destruct (op_receipts_total spec (zip op_txs results) rs i tx r Hrs Hz) as [x Hx].
      exists x. split; [by exists tx, r|by apply (op_receipt_encoded _ _ _ _ _ _ Hx)].
Qed.

(** Where roots are collision-free, blocks with the same root have the same leaves. *)
Lemma trie_of_commits (leaf leaf' : nat -> list Z -> Prop) root :
  (forall i j, rlp_index i = rlp_index j -> i = j) -> (forall l l', trie_root l = trie_root l' -> l = l') ->
  trie_of leaf root -> trie_of leaf' root -> forall i v, leaf i v <-> leaf' i v.
Proof.
  intros Hinj Hroot (l & -> & _ & Hl) (l' & <-%Hroot & _ & Hl') i v. specialize (Hl (rlp_index i) v).
  rewrite Hl' in Hl. split; intros H.
  - destruct (proj2 Hl (ex_intro _ i (conj H eq_refl))) as (j & Hj & ->%Hinj). done.
  - destruct (proj1 Hl (ex_intro _ i (conj H eq_refl))) as (j & Hj & ->%Hinj). done.
Qed.
End Receipts.

(** ** Witnesses and examples *)

Section Demo.
#[local] Existing Instance demo.
#[local] Existing Instance demo_revm.

Definition header_at (number timestamp : Z) : Header := mkHeader number 3 timestamp 30000000 21000 None 0 0 None.

Lemma forks_never_go_back_witness :
  exists s2, op_get_block_spec (header_at 110000000 1710374401) = Ok s2 /\ spec_index REGOLITH <= spec_index s2.
Proof.
  destruct (forks_never_go_back (header_at 105235063 1690000000) (header_at 110000000 1710374401)
    ltac:(by vm_compute) ltac:(by vm_compute)) as (_ & H & _).
  exact (H REGOLITH eq_refl).
Defined.

Lemma demo_hashes_apart : address_hashes_apart.
Proof. intros a l. cbn -[encode]. lia. Qed.

Definition same_spec (s : SpecId) : SpecId := s.
Definition demo_run (_ : SpecId) (_ : BlockEnv) (_ : TxEnv)
  : evm_run ((InvalidTransaction + ResultAndState) * option L1BlockInfo) := EvmDone (inl OtherInvalid, None).

(** From Fjord on the L1 cost doubles. *)
Definition demo_l1_cost (cost : L1BlockInfo) (_ : list Z) (spec : SpecId) : U256 :=
  if spec_ge spec FJORD then 2 * (cost : Z) else cost.

Lemma chains_keep_laws_witness :
  ChainLaws (PevmEthereum same_spec same_spec demo_run demo_l1_cost) /\
  ChainLaws (PevmOptimism 420 421 same_spec same_spec demo_run demo_l1_cost).
Proof. apply (chains_keep_laws 420 421 same_spec same_spec same_spec demo_run demo_l1_cost demo_hashes_apart). Defined.

Definition op_tx (t : OpTxType) (deposit : option (option B256 * option Z)) : OpTx :=
  mkOpTx (mkAlloyTx t 7 100000 (Some 10) 10 None Create 5 [] 0 (Some 10) None None None None) deposit false [1; 2; 3].

Lemma op_rewards_defined_witness :
  exists env, op_get_tx_env (op_tx OpLegacy None) = Ok env /\
    rewards (Vm_new (InMemory_storage (mkInMemoryStorage ∅ ∅ ∅)) (PevmOptimism 420 421 same_spec same_spec demo_run demo_l1_cost)
      (demo_block_env 3 2) [env] FJORD) env 100 (Some 9) =
      Ok [(hash_deterministic (Basic 3), 800); (hash_deterministic (Basic 420), 18); (hash_deterministic (Basic 421), 200)].
Proof.
  edestruct (op_rewards_defined 420 421 same_spec same_spec demo_run demo_l1_cost
    (InMemory_storage (mkInMemoryStorage ∅ ∅ ∅)) (demo_block_env 3 2)
    [match op_get_tx_env (op_tx OpLegacy None) with Ok env => env | _ => env_of (op_inner (op_tx OpLegacy None)) 0 OptimismFields_default end]
    FJORD (op_tx OpLegacy None) 100 9) as (env & Henv & _ & _ & Hr); [by intros _; eexists|].
  exists env. split; [exact Henv|]. injection Henv as <-. exact Hr.
Defined.

Definition one_byte_index (i : nat) : list Z := [Z.of_nat i].
Definition plain_result (gas : Z) : PexeTxExecutionResult := mkPexeTxExecutionResult (mkReceipt true gas []) ∅.

(** The root of these tries is their first encoded receipt; transactions and receipts
    are encoded by type and gas. *)
Definition first_leaf (l : list (list Z * list Z)) : B256 := default 0 (x ← head l; head x.2).
Definition gas_encoded (_ : TxType) (r : Receipt) : list Z := [cumulative_gas_used r].
Definition eth_tx (t : TxType) : AlloyTx TxType := mkAlloyTx t 7 100000 (Some 10) 10 None Create 5 [] 0 (Some 10) None None None None.

Lemma receipt_root_leaves_witness :
  op_calculate_receipt_root one_byte_index first_leaf (fun _ => []) FJORD [op_tx OpDeposit None]
    [plain_result 21000] = Err OpDepositMissingSender /\
  exists root, eth_calculate_receipt_root one_byte_index first_leaf gas_encoded CANCUN [eth_tx TxLegacy] [plain_result 21000] = Ok root /\
    trie_of one_byte_index first_leaf (eth_leaf gas_encoded [eth_tx TxLegacy] [plain_result 21000]) root.
Proof.
  assert (forall i j, one_byte_index i = one_byte_index j -> i = j) as Hinj by (intros i j [= H%Nat2Z.inj]; exact H).
  destruct (receipt_root_leaves one_byte_index first_leaf Hinj gas_encoded (fun _ => []) FJORD []
    [op_tx OpDeposit None] [plain_result 21000]) as (_ & [[_ H]|[Hm _]]).
  - split; [exact H|]. exact (proj1 (receipt_root_leaves one_byte_index first_leaf Hinj gas_encoded
      (fun _ => []) CANCUN [eth_tx TxLegacy] [] [plain_result 21000])).
  - exfalso. apply Hm. exists (op_tx OpDeposit None), (plain_result 21000). split; [by left|by split].
Defined.

(** The nonce of a deposit is one less than that of the account, modulo 2^64. *)
Lemma deposit_nonce_wraps :
  op_receipt FJORD (op_tx OpDeposit None)
    (mkPexeTxExecutionResult (mkReceipt true 0 []) {[7 := Some (mkEvmAccount 0 0 None None ∅)]}) =
  Ok (DepositReceipt (mkReceipt true 0 []) (Some (2 ^ 64 - 1)) (Some 1)).
Proof. by vm_compute. Qed.

(** The estimates that Optimism makes for a deposit are at the hashes of two bare
    addresses; nothing is estimated where the fees are paid. *)
Lemma deposit_estimates_misplaced :
  let env := env_of (op_inner (op_tx OpDeposit None)) 0 (Some 1, None, None, None) in
  op_estimated_locations 420 421 (demo_block_env 3 2) [env] !! hash_address 420 = Some [0%nat] /\
  op_estimated_locations 420 421 (demo_block_env 3 2) [env] !! hash_deterministic (Basic 420) = None.
Proof. by vm_compute. Qed.
End Demo.
