(* ===== verification/BlockSpec.v ===== *)
(** * BlockSpec: the outcomes of executing a block (pexe.rs)

    [Pexe::execute] as its caller sees it: which error a bad block gives, which
    path a good one takes, and that every path answers each transaction. *)

From S2P Require Import Prelude Types Scheduler SchedulerSystem Platform Compat Storage MvMemory.
From S2P Require Import VmDb Vm VmSpec ParallelSystem Pexe PexeLemmas Chain.
#[local] Open Scope Z_scope.

Section Block.
Context {P : Platform} {R : Revm} {E BSE TE Transaction : Type} (display : E -> string).
Context (chain : PexeChain SpecId) (D : CacheDB (E := E) SpecId).
Context (get_block_spec : Header -> outcome BSE SpecId) (get_tx_env : Transaction -> outcome TE TxEnv).
Context (storage : Storage E).
Abbreviation sequential := (execute_revm_sequential (BSE := BSE) (TE := TE) chain D storage).
Abbreviation parallel := (execute_revm_parallel (BSE := BSE) (TE := TE) display chain D storage).

(** ** The length of the results *)

Lemma sequential_loop_length spec block_env db total txs rs :
  sequential_loop (BSE := BSE) (TE := TE) chain D spec block_env db total txs = Ok rs -> length rs = length txs.
Proof.
  revert db total rs. induction txs as [|tx txs IH]; intros db total rs; cbn; [by intros [= <-]|].
  intros ([out db1] & _ & (r & _ & (rs1 & H1 & [= <-])%outcome_bind_ok)%outcome_bind_ok)%outcome_bind_ok.
  cbn. f_equal. by eapply IH.
Qed.

Lemma parallel_length spec block_env txs level kept kept' rs :
  parallel spec block_env txs level kept kept' (Ok rs) -> length rs = length txs.
Proof.
  intros H. remember (Ok rs) as res eqn:Hres. destruct H; try done.
  - by subst; injection Hres as <-.
  - apply outcome_bind_ok in Hres as ([rs1 rest1] & Ht & Hev).
    eapply evaluate_addresses_length; [|exact Hev]. rewrite accumulate_gas_length. by eapply take_results_length.
  - by eapply sequential_loop_length.
Qed.

(** ** Collecting the environments *)

Lemma collect_ok {A B F} (f : A -> outcome F B) l ys : collect f l = Ok ys -> length ys = length l.
Proof.
  revert ys. induction l as [|x l IH]; intros ys; cbn; [by intros [= <-]|].
  intros (y & _ & (zs & H & [= <-])%outcome_bind_ok)%outcome_bind_ok. cbn. f_equal. by apply IH.
Qed.

Lemma collect_err {A B F} (f : A -> outcome F B) l e : collect f l = Err e <->
  exists i x, l !! i = Some x /\ f x = Err e /\ forall j y, (j < i)%nat -> l !! j = Some y -> exists z, f y = Ok z.
Proof.
  induction l as [|x l IH]; cbn; [split; [done|by intros (i & ? & ? & _)]|].
  destruct (f x) as [y|e'|] eqn:Hx; cbn.
  - split.
    + intros H. destruct (collect f l) as [ys|e1|] eqn:Hc; try done. injection H as ->.
      destruct (proj1 IH eq_refl) as (i & z & Hi & Hz & Hj). exists (Datatypes.S i), z. split; [done|]. split; [done|].
      intros [|j] w Hlt; cbn; [intros [= <-]; by exists y|]. apply Hj. lia.
    + intros ([|i] & z & Hi & Hz & Hj); [cbn in Hi; congruence|]. rewrite (proj2 IH); [done|].
      exists i, z. split; [done|]. split; [done|]. intros j w Hlt. apply (Hj (Datatypes.S j)). lia.
  - split; [intros [= ->]; exists 0%nat, x; split; [done|]; split; [done|]; intros; lia|]. intros ([|i] & z & Hi & Hz & Hj); [cbn in Hi; congruence|].
    destruct (Hj 0%nat x ltac:(lia) eq_refl). congruence.
  - split; [done|]. intros ([|i] & z & Hi & Hz & Hj); [cbn in Hi; congruence|].
    destruct (Hj 0%nat x ltac:(lia) eq_refl). congruence.
Qed.

(** C33: what executing a block can answer.  An unsupported block, a block without its
    transactions and a transaction that is no environment are refused with their own
    errors, the last at the first such transaction, before anything runs: the
    results that the engine keeps are untouched.  Otherwise the block is executed,
    sequentially if forced, small or cheap, and whichever path it takes, also when
    the threads fall back, an answer has one result per transaction. *)
Theorem block_outcomes b level force kept kept' res
  (Hx : execute_block display chain D get_block_spec get_tx_env storage b level force kept kept' res) :
  match get_block_spec (block_header b), block_transactions b with
  | Err e, _ => res = Err (BlockSpecError _ _ e) /\ kept' = kept
  | Panic, _ => False
  | Ok _, None => res = Err (MissingTransactionData _ _) /\ kept' = kept
  | Ok spec, Some txs =>
      (forall i tx e, txs !! i = Some tx -> get_tx_env tx = Err e ->
         (forall j y, (j < i)%nat -> txs !! j = Some y -> exists env, get_tx_env y = Ok env) ->
         res = Err (InvalidTransactionError _ _ e) /\ kept' = kept) /\
      (force = true \/ (length txs < level)%nat \/ hd_gas_used (block_header b) < 4000000 ->
         kept' = kept /\ forall envs, collect get_tx_env txs = Ok envs ->
           res = sequential spec (get_block_env (block_header b) spec) envs) /\
      (forall rs, res = Ok rs -> length rs = length txs)
  end.
Proof.
  destruct Hx as [e He|spec Hs Hn|spec txs e Hs Ht He|spec txs envs Hs Ht Henv Hseq|spec txs envs kept' res Hs Ht Henv Hpar Hrun].
  - by rewrite He.
  - by rewrite Hs, Hn.
  - rewrite Hs, Ht. split; [|split; [|done]].
    + intros i tx e' Hi Htx Hj. assert (collect get_tx_env txs = Err e') as He' by (apply collect_err; by exists i, tx).
      by assert (e = e') as -> by congruence.
    + intros _. split; [done|]. intros envs Henv. congruence.
  - rewrite Hs, Ht. pose proof (collect_ok _ _ _ Henv) as Hl. split; [|split].
    + intros i tx e' Hi Htx Hj. assert (collect get_tx_env txs = Err e') as He' by (apply collect_err; by exists i, tx). congruence.
    + intros _. split; [done|]. intros envs' Henv'. by assert (envs' = envs) as -> by congruence.
    + intros rs Hrs. rewrite <- Hl. by eapply sequential_loop_length.
  - rewrite Hs, Ht. pose proof (collect_ok _ _ _ Henv) as Hl. split; [|split].
    + intros i tx e' Hi Htx Hj. assert (collect get_tx_env txs = Err e') as He' by (apply collect_err; by exists i, tx). congruence.
    + unfold runs_sequentially in Hpar. rewrite Hl in Hpar. apply orb_false_iff in Hpar as [[-> H1]%orb_false_iff H2].
      apply Nat.ltb_ge in H1. apply Z.ltb_ge in H2. intros [H|[H|H]]; [done|lia..].
    + intros rs ->. rewrite <- Hl. by eapply parallel_length.
Qed.
End Block.

(** ** Witness

    A block of two Ethereum transactions, forced to run sequentially on a database
    that answers every transaction with 21000 gas. *)
Section Demo.
#[local] Existing Instance demo.
#[local] Existing Instance demo_revm.

Definition flat_db : CacheDB (E := Empty_set) SpecId := {|
  cache := unit;
  cache_new _ := tt;
  transact _ _ _ _ := Ok (mkResultAndState (mkExecutionResult true 21000 []) [], tt);
  commit _ _ := tt;
|}.
Definition same_fork (s : SpecId) : SpecId := s.
Definition flat_ethereum : PexeChain SpecId :=
  PevmEthereum same_fork same_fork (fun _ _ _ => EvmDone (inl OtherInvalid, None)) (fun _ _ _ => 0).

Definition eth_tx (t : TxType) : AlloyTx TxType :=
  mkAlloyTx t 7 100000 (Some 10) 10 None Create 5 [] 0 (Some 1) None None None None.
Definition eth_block (txs : list (AlloyTx TxType)) : Block (AlloyTx TxType) :=
  mkBlock (mkHeader 20000000 3 1720000000 30000000 42000 (Some 7) 0 0 (Some 0)) (Some txs).

Lemma block_outcomes_witness : exists rs,
  execute_block (fun e : Empty_set => match e with end) flat_ethereum flat_db eth_get_block_spec eth_get_tx_env
    (InMemory_storage (mkInMemoryStorage ∅ ∅ ∅)) (eth_block [eth_tx TxLegacy; eth_tx TxEip1559]) 2 true [] [] (Ok rs) /\
  length rs = 2%nat /\ (cumulative_gas_used ∘ receipt) <$> rs = [21000; 42000].
Proof.
  eexists. assert (execute_block (fun e : Empty_set => match e with end) flat_ethereum flat_db eth_get_block_spec eth_get_tx_env
    (InMemory_storage (mkInMemoryStorage ∅ ∅ ∅)) (eth_block [eth_tx TxLegacy; eth_tx TxEip1559]) 2 true [] []
    (Ok [with_cumulative_gas 21000 (mkPexeTxExecutionResult (mkReceipt true 21000 []) ∅);
         with_cumulative_gas 42000 (mkPexeTxExecutionResult (mkReceipt true 21000 []) ∅)])) as Hx.
  { match goal with |- execute_block _ _ _ _ _ _ _ _ _ _ _ ?r =>
      replace r with (execute_revm_sequential (BSE := Empty_set) (TE := EthereumTransactionParsingError) flat_ethereum flat_db
        (InMemory_storage (mkInMemoryStorage ∅ ∅ ∅)) CANCUN
        (get_block_env (block_header (eth_block [eth_tx TxLegacy; eth_tx TxEip1559])) CANCUN)
        [env_of (eth_tx TxLegacy) 10 OptimismFields_default; env_of (eth_tx TxEip1559) 10 OptimismFields_default])
        by (vm_compute; reflexivity) end.
    by eapply block_sequential. }
  split; [exact Hx|]. split; [|reflexivity].
  apply block_outcomes in Hx. cbn in Hx. destruct Hx as (_ & _ & Hl). exact (Hl _ eq_refl).
Defined.
End Demo.
