(* ===== verification/LazyAgree.v ===== *)
(** * LazyAgree: the two evaluations of lazy balances agree (vm.rs, pexe.rs)

    [VmDb::basic] evaluates the lazy updates of an account from the reader down,
    with a sign and a magnitude; [execute_revm_parallel] evaluates them again
    after the block, from the storage up, with saturating steps.  Here: a reader
    just above an entry sees the balance and the nonce that the second evaluation
    reports for it. *)

From S2P Require Import Prelude Types Platform Storage MvMemory MvMemorySpec.
From S2P Require Import VmDb VmDbLemmas VmDbReplay Vm VmSpec ParallelSystem Pexe PexeLemmas.
#[local] Open Scope Z_scope.

Section Agree.
Context {P : Platform} {E : Type} (display : E -> string) {BSE TE : Type} (storage : Storage E).
Context (txs : list TxEnv) (a : Address).
Abbreviation pexe_outcome := (outcome (PexeError BSE TE)).
Abbreviation running_values := (running_values (BSE := BSE) (TE := TE) txs a).

(** The loop over the history, seen from its last entry. *)
Definition value_step (e : TxIdx * MemoryEntry) (acc : pexe_outcome (U256 * Z)) : pexe_outcome (U256 * Z) :=
  '(bal, n) ← acc;
  tx ← unwrap (txs !! e.1);
  '(bal, n) ← evaluate_value tx e.2 bal n;
  _ ← check_nonce e.1 tx a n;
  Ok (bal, n).

Definition values_below (base : U256 * Z) (es : list (TxIdx * MemoryEntry)) : pexe_outcome (U256 * Z) :=
  foldr value_step (Ok base) es.

Lemma running_values_snoc history i e bal n run :
  running_values (history ++ [(i, e)]) bal n = Ok run ->
  exists run0 b m, running_values history bal n = Ok run0 /\ run = run0 ++ [(i, (b, m))] /\
    value_step (i, e) (Ok (default (bal, n) (snd <$> last run0))) = Ok (b, m).
Proof.
  revert bal n run. induction history as [|[k x] history IH]; intros bal n run.
  - intros (tx & Htx & ([b m] & He & (u & Hc & [= <-])%outcome_bind_ok)%outcome_bind_ok)%outcome_bind_ok.
    exists [], b, m. split; [done|]. split; [done|].
    unfold value_step. cbn -[evaluate_value]. rewrite Htx. cbn -[evaluate_value]. rewrite He. cbn. by rewrite Hc.
  - intros (tx & Htx & ([b m] & He & (u & Hc & (rest & Hr & [= <-])%outcome_bind_ok)%outcome_bind_ok)%outcome_bind_ok)%outcome_bind_ok.
    destruct (IH _ _ _ Hr) as (run0 & b' & m' & Hr0 & -> & Hs).
    exists ((k, (b, m)) :: run0), b', m'. split; [|split; [done|]].
    + cbn -[evaluate_value]. rewrite Htx. cbn -[evaluate_value]. rewrite He. cbn. rewrite Hc. cbn. by rewrite Hr0.
    + rewrite <- Hs. f_equal. f_equal. destruct run0 as [|y run0]; [done|].
      rewrite !last_cons. by destruct (last run0).
Qed.

Lemma running_values_below (m : gmap TxIdx MemoryEntry) N bal n run :
  running_values (range_asc m N) bal n = Ok run ->
  values_below (bal, n) (range_desc m N) = Ok (default (bal, n) (snd <$> last run)) /\
  forall i x, (i, x) ∈ run -> values_below (bal, n) (range_desc m (S i)) = Ok x.
Proof.
  revert run. unfold range_asc. induction N as [|N IH]; intros run.
  { rewrite range_desc_0. cbn. intros [= <-]. split; [done|]. by intros i x ?%elem_of_nil. }
  rewrite range_desc_S. destruct (m !! N) as [e|] eqn:He; [|apply IH]. cbn [rev].
  intros (run0 & b & k & Hr & -> & Hs)%running_values_snoc. destruct (IH _ Hr) as [H1 H2].
  assert (values_below (bal, n) ((N, e) :: range_desc m N) = Ok (b, k)) as Hv
    by (cbn [values_below foldr]; fold (values_below (bal, n) (range_desc m N)); by rewrite H1).
  rewrite last_snoc. cbn [option_map fmap]. split; [exact Hv|].
  intros i x [Hin|Hin%list_elem_of_singleton]%elem_of_app; [by apply H2|]. injection Hin as -> ->.
  by rewrite range_desc_S, He.
Qed.

(** No lazy sender pays more than the maximum fee that the evaluation checks. *)
Definition affordable (es : list (TxIdx * MemoryEntry)) : Prop :=
  Forall (fun e => forall inc x, e.2 = Data inc (LazySender x) ->
    exists tx, txs !! e.1 = Some tx /\ x <= max_fee tx) es.

(** The account below the lazy values of a chain, [base] if they reach the storage. *)
Definition below (base : U256 * Z) (vs : list MemoryValue) : U256 * Z :=
  match last vs with Some (VBasic b) => (balance b, nonce b) | _ => base end.

Lemma below_lazy base v vs : is_lazy_value v = true -> below base (v :: vs) = below base vs.
Proof. intros Hv. unfold below. destruct vs as [|w vs]; [by destruct v|done]. Qed.

Lemma delta_size_nonneg vs : 0 <= delta_size vs.
Proof. unfold delta_size. induction vs as [|v vs IH]; cbn; lia. Qed.

Lemma delta_sum_size vs : delta_sum vs <= delta_size vs.
Proof. unfold delta_sum, delta_size. induction vs as [|v vs IH]; cbn; lia. Qed.

Lemma values_below_sum es base os vs b n :
  chain es = inr (os, vs) -> values_below base es = Ok (b, n) -> affordable es -> amounts_ok vs ->
  0 <= (below base vs).1 -> (below base vs).1 + delta_size vs <= U256_MAX ->
  is_u 64 (below base vs).2 ->
  b = (below base vs).1 + delta_sum vs /\ n = wrap 64 ((below base vs).2 + spend_count vs) /\ 0 <= b.
Proof.
  revert os vs b n. induction es as [|[k [inc v|]] es IH]; intros os vs b n Hc Hv Ha Hok H0 Hmax Hu; cbn in Hc; [| |done].
  { injection Hc as <- <-. cbn in *. injection Hv as ->. cbn in *. rewrite !Z.add_0_r. by rewrite wrap_small. }
  apply Forall_cons in Ha as [Ha1 Ha]. cbn [values_below foldr] in Hv.
  fold (values_below base es) in Hv. unfold value_step in Hv. cbn -[evaluate_value] in Hv.
  apply outcome_bind_ok in Hv as ([b1 n1] & Hv1 & (tx & Htx & ([b2 n2] & He & (u & _ & [= -> ->])%outcome_bind_ok)%outcome_bind_ok)%outcome_bind_ok).
  destruct (is_lazy_value v) eqn:Hl.
  - destruct (chain es) as [?|[os' vs']] eqn:Hes; [done|]. injection Hc as <- <-.
    rewrite (below_lazy base v vs' Hl) in *. apply Forall_cons in Hok as [Hx Hok].
    assert (delta_size (v :: vs') = Z.abs (delta v) + delta_size vs') as Hds by done.
    assert (delta_sum (v :: vs') = delta v + delta_sum vs') as -> by done.
    assert (spend_count (v :: vs') = spends v + spend_count vs') as -> by done.
    rewrite Hds in Hmax.
    destruct (IH os' vs' b1 n1 eq_refl Hv1 Ha Hok H0 ltac:(lia) Hu) as (-> & -> & Hb1).
    pose proof (delta_sum_size vs') as Hss.
    destruct v as [bb|h|s|x|x|]; cbn in Hl; try done; cbn in He, Hx, Hmax; cbn [delta spends].
    + injection He as <- <-. unfold sat_add. split; [lia|]. split; [by rewrite Z.add_0_l|lia].
    + destruct (_ <? max_fee tx) eqn:Hfee; [done|]. injection He as <- <-. apply Z.ltb_ge in Hfee.
      destruct (Ha1 inc x eq_refl) as (tx' & Htx' & Hle). cbn in Htx'.
      assert (tx' = tx) as -> by (rewrite Htx' in Htx; by injection Htx).
      unfold sat_sub. split; [lia|]. split; [|lia]. unfold u64_add, wrap. rewrite Zplus_mod_idemp_l. f_equal. lia.
  - injection Hc as <- <-. destruct v; try done. cbn in *. injection He as <- <-.
    rewrite !Z.add_0_r. by rewrite wrap_small.
Qed.

(** A chain without an absolute value has lazy values only, down to the storage. *)
Lemma chain_all_lazy es base os vs x : chain es = inr (os, vs) -> values_below base es = Ok x ->
  (forall b, last vs <> Some (VBasic b)) ->
  Forall (fun e => exists inc v, e.2 = Data inc v /\ is_lazy_value v = true) es.
Proof.
  revert os vs x. induction es as [|[k [inc v|]] es IH]; intros os vs x Hc Hv Hn; cbn in Hc; [constructor| |done].
  cbn [values_below foldr] in Hv. fold (values_below base es) in Hv. unfold value_step in Hv.
  apply outcome_bind_ok in Hv as (y & Hv1 & Hv).
  destruct (is_lazy_value v) eqn:Hl.
  - destruct (chain es) as [?|[os' vs']] eqn:Hes; [done|]. injection Hc as <- <-.
    constructor; [by exists inc, v|]. eapply (IH os' vs' y eq_refl Hv1). intros b Hb. apply (Hn b).
    by rewrite last_cons, Hb.
  - exfalso. injection Hc as <- <-. cbn -[evaluate_value] in Hv. destruct y as [b1 n1].
    apply outcome_bind_ok in Hv as (tx & _ & ([b2 n2] & He & _)%outcome_bind_ok).
    destruct v as [b0| | | | |]; try done. by apply (Hn b0).
Qed.

Lemma range_desc_split {X} (m : gmap TxIdx X) j N : (j <= N)%nat ->
  exists pre, range_desc m N = pre ++ range_desc m j.
Proof.
  induction 1 as [|N _ [pre IH]]; [by exists []|]. rewrite range_desc_S, IH.
  destruct (m !! N) as [e|]; [by exists ((N, e) :: pre)|by exists pre].
Qed.

(** Then the evaluation starts from the storage too. *)
Lemma base_below written i e os vs x bal n base : written !! i = Some e -> (i < index_bound written)%nat ->
  base_of_history storage a (iter_history written) = (bal, n) ->
  chain (range_desc written (S i)) = inr (os, vs) ->
  values_below (bal, n) (range_desc written (S i)) = Ok x ->
  base_account storage a vs base -> below (bal, n) vs = (balance base, nonce base).
Proof.
  intros He Hlt Hb Hc Hv Hba. unfold below, base_account in *.
  assert ((exists b, last vs = Some (VBasic b)) \/ ~ exists b, last vs = Some (VBasic b)) as [[b Hl]|Hn]
    by (destruct (last vs) as [[b0| | | | |]|]; ((by left; exists b0) || by right; intros [? [=]])).
  { rewrite Hl in *. by subst base. }
  assert (forall b, last vs <> Some (VBasic b)) as Hn' by (intros b Hb'; apply Hn; by exists b).
  assert (st_basic storage a = Ok (Some base) \/ st_basic storage a = Ok None /\ base = AccountBasic_default) as Hst
    by (destruct (last vs) as [[b0| | | | |]|]; try done; by destruct (Hn' b0)).
  replace (match last vs with Some (VBasic b) => (balance b, nonce b) | _ => (bal, n) end) with (bal, n)
    by (destruct (last vs) as [[b0| | | | |]|]; try done; by destruct (Hn' b0)).
  pose proof (chain_all_lazy _ _ _ _ _ Hc Hv Hn') as Hall.
  destruct (range_desc_split written (S i) (index_bound written) Hlt) as [pre Hpre].
  unfold iter_history, range_asc in Hb. rewrite Hpre, rev_app_distr in Hb.
  assert (exists k inc v rest, rev (range_desc written (S i)) = (k, Data inc v) :: rest /\ is_lazy_value v = true)
    as (k & inc & v & rest & Hr & Hlz).
  { destruct (rev (range_desc written (S i))) as [|[k y] rest] eqn:Hr.
    - apply (f_equal (@length _)) in Hr. rewrite length_rev, range_desc_S, He in Hr. done.
    - rewrite Forall_forall in Hall. destruct (Hall (k, y)) as (inc & v & Hy & Hv').
      { apply list_elem_of_In. rewrite in_rev, Hr. by left. }
      cbn in Hy. subst y. by exists k, inc, v, rest. }
  rewrite Hr in Hb. cbn in Hb. unfold base_of_history in Hb.
  assert ((match st_basic storage a with Ok (Some acc) => (balance acc, nonce acc) | _ => (0, 0) end) = (bal, n)) as <-
    by by destruct v.
  by destruct Hst as [->|[-> ->]].
Qed.

(** C7: the evaluation after the block agrees with the reads during it.  If the
    evaluation gives account [a] balance [b] and nonce [m] at entry [i], then a
    transaction above [i] with no entry in between reads exactly [b] and [m]
    from the same memory, as long as the amounts fit a word and no lazy sender
    pays more than its maximum fee. *)
Theorem lazy_evaluation_agrees_with_reads mv written bal n run i b m db info db'
  (Hw : data mv !! hash_deterministic (Basic a) = Some written)
  (Hbase : base_of_history storage a (iter_history written) = (bal, n))
  (Hrun : running_values (iter_history written) bal n = Ok run)
  (Hin : (i, (b, m)) ∈ run)
  (Hi : (i < db_tx_idx db)%nat) (Hgap : forall k, (i < k < db_tx_idx db)%nat -> written !! k = None)
  (Hh : db_hashes db) (Hlazy : is_lazy db = false)
  (H : basic display storage mv db a = Ok (Some info, db'))
  (Hafford : affordable (range_desc written (S i)))
  (Hfit : forall os vs base, chain (range_desc written (S i)) = inr (os, vs) -> base_account storage a vs base ->
     amounts_ok vs /\ 0 <= balance base /\ balance base + delta_size vs <= U256_MAX /\ is_u 64 (nonce base)) :
  ai_balance info = b /\ ai_nonce info = m.
Proof.
  destruct (running_values_below written _ _ _ _ Hrun) as [_ Hbelow]. specialize (Hbelow _ _ Hin).
  assert (exists e, written !! i = Some e /\ (i < index_bound written)%nat) as (e & He & Hlt).
  { apply running_values_indexes in Hrun. assert (i ∈ run.*1) as Hi1 by (apply list_elem_of_fmap; by exists (i, (b, m))).
    rewrite Hrun in Hi1. apply list_elem_of_fmap in Hi1 as ([i' e] & -> & Hin').
    unfold iter_history, range_asc in Hin'. apply list_elem_of_In, in_rev, list_elem_of_In, range_desc_elem in Hin' as [? ?].
    by exists e. }
  assert (entries_below (data mv) (hash_deterministic (Basic a)) (db_tx_idx db) = range_desc written (S i)) as Hes.
  { unfold entries_below. rewrite Hw, (range_desc_first written _ i e Hi He Hgap), range_desc_S. by rewrite He. }
  destruct (basic_sum display storage mv db a info db' Hh Hlazy H) as (os & vs & base & Hc & Hb & Hsum).
  unfold read_chain in Hc. rewrite Hes in Hc. destruct (Hfit os vs base Hc Hb) as (Hok & H0 & Hmax & Hu).
  pose proof (delta_size_nonneg vs) as Hds.
  destruct (Hsum Hok ltac:(lia) ltac:(lia)) as [Hbal Hnon].
  assert (below (bal, n) vs = (balance base, nonce base)) as Hbel by by eapply base_below.
  destruct (values_below_sum _ (bal, n) os vs b m Hc Hbelow Hafford Hok) as (-> & -> & Hpos);
    rewrite ?Hbel in *; cbn; try done.
  split; [|done]. pose proof (delta_sum_size vs). cbn in Hpos. lia.
Qed.
End Agree.

(** ** Witness

    Account 4 holds 100; transaction 0 credits it 20, transaction 1 reads it. *)
Section Demo.
#[local] Existing Instance demo.

Definition rich_storage : Storage Empty_set :=
  InMemory_storage (mkInMemoryStorage {[ 4 := mkEvmAccount 100 7 None None ∅ ]} ∅ ∅).

Definition rich_mv : MvMemory Bytecode :=
  default (MvMemory_new 2 [] []) (apply_ops (MvMemory_new 2 [] [])
    [OpRecord {| tx_idx := 0; tx_incarnation := 0 |} ∅ [(hash_deterministic (Basic 4), LazyRecipient 20)]]).

Lemma lazy_evaluation_agrees_with_reads_witness :
  exists info db', basic no_error rich_storage rich_mv demo_db 4 = Ok (Some info, db') /\
    running_values (BSE := unit) (TE := unit) [demo_tx; demo_tx] 4
      (iter_history {[ 0%nat := Data 0 (LazyRecipient 20) ]}) 100 7 = Ok [(0%nat, (120, 7))] /\
    ai_balance info = 120 /\ ai_nonce info = 7.
Proof.
  eexists _, _. split; [vm_compute; reflexivity|]. split; [by vm_compute|].
  refine (lazy_evaluation_agrees_with_reads (BSE := unit) (TE := unit) no_error rich_storage [demo_tx; demo_tx] 4
    rich_mv {[ 0%nat := Data 0 (LazyRecipient 20) ]} 100 7 _ 0 120 7 demo_db _ _ _ _ _ _ _ _ _ _ _ _ _).
  - by vm_compute.
  - by vm_compute.
  - by vm_compute.
  - by left.
  - cbn. lia.
  - cbn. lia.
  - by split.
  - done.
  - by vm_compute.
  - repeat constructor. intros inc x [=].
  - intros os vs base Hc Hb. vm_compute in Hc. injection Hc as <- <-. cbn in Hb.
    destruct Hb as [Hb|[Hb _]]; vm_compute in Hb; [|done]. injection Hb as <-.
    repeat split; try done; by repeat constructor.
Defined.
End Demo.
