(* ===== verification/PlainResults.v ===== *)
(** * PlainResults: a block reports what happens on plain accounts (pexe.rs, vm.rs)

    From the workers to the answer: when they have joined and the lazy accounts are
    evaluated, receipts and state transitions are those of executing the
    transactions one after the other on plain accounts. *)

From S2P Require Import Prelude Types Scheduler SchedulerSystem SchedulerTheorems Platform Storage.
From S2P Require Import MvMemory MvMemorySpec VmDb VmDbLemmas VmDbReplay Vm VmSpec.
From S2P Require Import ParallelCodes Sequential ParallelSystem ParallelInv ParallelSpec Kinds Pexe PexeLemmas PexeSpec.
From S2P Require Import SequentialSpec Plain Results PlainSpec LazyAgree.
#[local] Open Scope nat_scope.

(** ** One account *)

Section Account.
Context {P : Platform} {E : Type} {BSE TE : Type} (storage : Storage E) (txs : list TxEnv) (a : Address).
Abbreviation loc := (hash_deterministic (Basic a)).
Abbreviation values_below := (values_below (BSE := BSE) (TE := TE) txs a).

Lemma write_account_word (old : Storage E) v b : word_storage old a ->
  write_account v (st_basic old a) = Ok (Some b) -> word_account b.
Proof. intros Hw H. by apply (plain_values_word old a [v]). Qed.

(** The entries [written] of the memory are the writes of the transactions. *)
Definition writes_of (written : gmap TxIdx MemoryEntry) (wss : list WriteSet) : Prop :=
  forall k ws, wss !! k = Some ws ->
    written !! k <> Some Estimate /\
    exists inc, forall inc' x, written !! k = Some (Data inc' x) <-> inc' = inc /\ last_write loc ws = Some x.

(** The plain account after each transaction. *)
Abbreviation plain_at wss k := (after storage_after storage (take k wss)).

Lemma plain_at_S wss k ws : wss !! k = Some ws -> plain_at wss (S k) = storage_after ws (plain_at wss k).
Proof. intros H. unfold after. by rewrite (take_S_r _ _ _ H), foldl_snoc. Qed.

(** A step of the evaluation is a plain update. *)
Lemma evaluate_value_plain tx inc v b0 n0 t b n : evaluate_value (BSE := BSE) (TE := TE) tx (Data inc v) b0 n0 = Ok (b, n) ->
  forall y : outcome E (option AccountBasic), write_account v y = Ok t ->
  (forall u, y = Ok u -> is_lazy_value v = true -> (b0, n0) = (bal u, cnt u)) ->
  (forall b, t = Some b -> word_account b) -> (b, n) = (bal t, cnt t).
Proof.
  intros He y Hy Hold Ht. assert (0 <= bal t <= U256_MAX)%Z as Hr by by apply bal_range.
  destruct (is_lazy_value v) eqn:Hl.
  - apply write_account_lazy in Hy as (x & -> & Ha); [|done]. specialize (Hold x eq_refl eq_refl). injection Hold as -> ->.
    apply apply_lazy_spec in Ha as (Hb & Hc & Hz & _). destruct v; try done; cbn -[max_fee] in *.
    + injection He as <- <-. rewrite Hc. f_equal. unfold sat_add. lia.
    + destruct (_ <? max_fee tx)%Z; [done|]. injection He as <- <-. rewrite Hc. f_equal; unfold sat_sub, u64_add; lia.
  - destruct v as [b'| | | | |]; try done; cbn in Hy.
    case_decide; [|done]. injection Hy as <-. by injection He as <- <-.
Qed.

Lemma value_step_plain k inc v old t b n : value_step (BSE := BSE) (TE := TE) txs a (k, Data inc v) old = Ok (b, n) ->
  forall y : outcome E (option AccountBasic), write_account v y = Ok t ->
  (forall u, y = Ok u -> is_lazy_value v = true -> old = Ok (bal u, cnt u)) ->
  (forall b, t = Some b -> word_account b) -> (b, n) = (bal t, cnt t).
Proof.
  intros ([b0 n0] & -> & (tx & _ & ([b1 n1] & He & (u & _ & [= <- <-])%outcome_bind_ok)%outcome_bind_ok)%outcome_bind_ok)%outcome_bind_ok.
  intros y Hy Hold. eapply evaluate_value_plain; [exact He|exact Hy|]. intros u' Hu Hl. by injection (Hold u' Hu Hl) as -> ->.
Qed.

(** Before its first write an account is that of the storage. *)
Lemma unwritten_plain written wss k : writes_of written wss -> k <= length wss -> range_desc written k = [] ->
  st_basic (plain_at wss k) a = st_basic storage a.
Proof.
  intros Hw. induction k as [|k IH]; [done|]. intros Hk Hes.
  destruct (lookup_lt_is_Some_2 wss k ltac:(lia)) as [ws Hws]. destruct (Hw k ws Hws) as (_ & inc & Hent).
  rewrite range_desc_S in Hes. rewrite (plain_at_S _ _ _ Hws). cbn. destruct (written !! k) eqn:Hwk; [done|].
  destruct (last_write _ ws) as [x|]; [|by apply IH; [lia|]].
  pose proof (proj2 (Hent inc x) (conj eq_refl eq_refl)). congruence.
Qed.

(** The first write of an account, when it is lazy, starts from the storage. *)
Lemma first_lazy_base written wss base k inc v t : writes_of written wss -> k <= length wss -> range_desc written k = [] ->
  written !! k = Some (Data inc v) -> is_lazy_value v = true -> st_basic (plain_at wss k) a = Ok t ->
  base_of_history storage a (iter_history written) = base -> base = (bal t, cnt t).
Proof.
  intros Hw Hk Hes Hwk Hl Ht <-.
  destruct (range_desc_split written (S k) (index_bound written)) as [pre Hpre]; [by apply lookup_index_bound in Hwk|].
  unfold iter_history, range_asc. rewrite Hpre, range_desc_S, Hwk, Hes, rev_app_distr. cbn.
  rewrite (unwritten_plain written wss k Hw Hk Hes) in Ht. rewrite Ht. destruct v; try done; by destruct t.
Qed.

(** The evaluation below a transaction is the plain account that it starts from. *)
Lemma evaluation_is_plain written wss base k x : writes_of written wss -> k <= length wss ->
  (exists t, st_basic storage a = Ok t) -> word_storage storage a ->
  (forall j, j <= length wss -> st_basic (plain_at wss j) a <> Panic) ->
  base_of_history storage a (iter_history written) = base ->
  values_below base (range_desc written k) = Ok x ->
  exists t, st_basic (plain_at wss k) a = Ok t /\ word_storage (plain_at wss k) a /\
    (range_desc written k <> [] -> x = (bal t, cnt t)).
Proof.
  intros Hw Hk [t0 Ht0] Hwd Hs Hbase. revert x. induction k as [|k IH]; intros x Hx.
  { exists t0. split; [done|]. split; [done|]. by rewrite range_desc_0. }
  destruct (lookup_lt_is_Some_2 wss k ltac:(lia)) as [ws Hws]. destruct (Hw k ws Hws) as (Hne & inc & Hent).
  rewrite range_desc_S in Hx |- *. specialize (Hs (S k) Hk) as Hsk. rewrite (plain_at_S _ _ _ Hws) in Hsk |- *. cbn in Hsk |- *.
  unfold word_storage. cbn. destruct (written !! k) as [[inc' v|]|] eqn:Hwk; [| |].
  - destruct (proj1 (Hent inc' v) eq_refl) as [-> Hl]. rewrite Hl in *.
    cbn [LazyAgree.values_below foldr] in Hx. fold (values_below base (range_desc written k)) in Hx.
    destruct x as [b n]. pose proof Hx as (y & Hy & _)%outcome_bind_ok.
    destruct (IH ltac:(lia) y Hy) as (t & Ht & Hwt & Heq).
    assert (exists t', write_account v (st_basic (plain_at wss k) a) = Ok t') as [t' Ht'].
    { rewrite Ht in *. destruct (write_account v (Ok t)) as [t'|e|] eqn:Hwr; [by exists t'| |done].
      by apply write_account_err in Hwr as [? _]. }
    assert (forall b, t' = Some b -> word_account b) as Hword by (intros b' ->; by eapply write_account_word).
    exists t'. split; [done|]. split; [intros b'; rewrite Ht'; intros [= ->]; by apply Hword|]. intros _.
    eapply value_step_plain; [exact Hx|exact Ht'| |done]. intros u Hu Hlz. rewrite Ht in Hu. injection Hu as <-.
    rewrite Hy. f_equal. destruct (range_desc written k) as [|e es] eqn:Hes; [|by apply Heq].
    cbn in Hy. injection Hy as <-. eapply (first_lazy_base written wss base k); eauto; lia.
  - done.
  - destruct (last_write _ ws) as [v|] eqn:Hl; [pose proof (proj2 (Hent inc v) (conj eq_refl eq_refl)); congruence|].
    destruct (IH ltac:(lia) x Hx) as (t & Ht & Hwt & Heq). by exists t.
Qed.
End Account.

(** ** The block *)

Section Block.
Context {P : Platform} {E : Type} (display : E -> string) {BSE TE SpecId : Type}.
Context (chain : PexeChain SpecId) `{Hlaws : !ChainLaws chain} (storage : Storage E) (spec : SpecId).
Context (block_env : BlockEnv) (txs : list TxEnv) (kept : list (option PexeTxExecutionResult)).
Abbreviation vm := (Vm_new storage chain block_env txs spec).
Implicit Types s : pstate (P := P).

(** The storage answers for every account, with words. *)
Definition storage_of_words : Prop :=
  forall a, (exists t, st_basic storage a = Ok t) /\ word_storage storage a.

Lemma evaluated_account_shows eip ch code t old :
  shows (evaluated_account eip ch code (bal t) (cnt t) old) t.
Proof.
  unfold evaluated_account, shows. destruct (_ && _) eqn:H; [|by destruct old].
  apply andb_true_iff in H as [[_ Hn%Z.eqb_eq]%andb_true_iff Hb%Z.eqb_eq]. cbn. fold (bal t) (cnt t). lia.
Qed.

(** The entries of a joined memory at an account. *)
Lemma joined_writes_of level s lazies outs J a written : (Z.of_nat (length txs) < 2 ^ 64)%Z -> 0 < level ->
  preachable display vm kept level s -> abort_reason s = None -> all_exited s ->
  joined_run display chain storage spec block_env txs s lazies outs J ->
  data (mem s) !! hash_deterministic (Basic a) = Some written -> writes_of a written outs.*2.
Proof.
  intros Hlen Hlevel Hr Hna Hex Hrun Hw k ws Hk. rewrite list_lookup_fmap in Hk.
  destruct (outs !! k) as [[res ws']|] eqn:Ho; [|done]. injection Hk as ->.
  assert (forall e, written !! k = e <-> entry (data (mem s)) (hash_deterministic (Basic a)) k = e) as He
    by (intros e; unfold entry; by rewrite Hw).
  split; [rewrite He; by eapply joined_no_estimates|].
  destruct (jr_outputs _ _ _ _ _ _ _ _ _ _ Hrun k res ws Ho) as (_ & inc & Hent). exists inc. intros inc' x.
  rewrite He. apply Hent.
Qed.

Abbreviation plan mv := (plan (BSE := BSE) (TE := TE) display storage txs mv).

Lemma plan_inv mv a p : plan mv a = Ok p ->
  match data mv !! hash_deterministic (Basic a) with
  | None => p = None
  | Some written => exists run ch code b n, p = Some (run, (ch, code)) /\
      base_of_history storage a (iter_history written) = (b, n) /\
      running_values (BSE := BSE) (TE := TE) txs a (iter_history written) b n = Ok run
  end.
Proof.
  unfold PexeLemmas.plan. destruct (data mv !! _) as [written|]; [|by intros [= <-]].
  destruct (base_of_history _ _ _) as [b n] eqn:Hb.
  intros (ch & _ & (code & _ & (run & Hrun & [= <-])%outcome_bind_ok)%outcome_bind_ok)%outcome_bind_ok. eauto 10.
Qed.

Lemma take_results_take n slots rs rest : take_results (BSE := BSE) (TE := TE) n slots = Ok (rs, rest) ->
  take n slots = Some <$> rs.
Proof.
  revert slots rs rest. induction n as [|n IH]; intros slots rs rest; cbn; [by intros [= <- _]|].
  destruct slots as [|[r|] slots]; try done. intros ([rs1 rest1] & H & [= <- _])%outcome_bind_ok.
  cbn. by rewrite (IH _ _ _ H).
Qed.

Lemma accumulate_gas_state total rs i r : rs !! i = Some r ->
  exists r1, accumulate_gas total rs !! i = Some r1 /\ tx_state r1 = tx_state r.
Proof.
  revert total i. induction rs as [|r' rs IH]; intros total [|i]; cbn; try done; [|apply IH].
  intros [= ->]. by eexists.
Qed.

(** *** The accounts in the results *)

Section Joined.
Context (level : nat) s (lazies : list bool) (outs : list (PexeTxExecutionResult * WriteSet)) (J : journal).
Context (Hlen : (Z.of_nat (length txs) < 2 ^ 64)%Z) (Hlevel : 0 < level) (Hinj : hash_injective).
Context (Hr : preachable display vm kept level s) (Hna : abort_reason s = None) (Hex : all_exited s).
Context (Hrun : joined_run display chain storage spec block_env txs s lazies outs J).
Context (Hst : storage_of_words).
Abbreviation plain_after k := (after storage_after storage (take k outs.*2)).
Context (Hsolv : forall k, k <= length outs -> solvent (plain_after k)).

(** The transition of [a] that transaction [i] reports, [old] being that of the EVM:
    the plain account where the transaction wrote one. *)
Definition reports a (i : TxIdx) (ws : WriteSet) (old new : gmap Address (option EvmAccount)) : Prop :=
  match last_write (hash_deterministic (Basic a)) ws with
  | None => new !! a = old !! a
  | Some _ => exists x t, new !! a = Some x /\ st_basic (plain_after (S i)) a = Ok t /\ shows x t
  end.

(** An evaluated account. *)
Lemma evaluated_reported a i res ws p old new : outs !! i = Some (res, ws) -> plan (mem s) a = Ok p ->
  match p with
  | None => tx_state new !! a = tx_state old !! a
  | Some (run, (ch, code)) => run_applied chain spec ch code a run i old new
  end -> reports a i ws (tx_state old) (tx_state new).
Proof.
  intros Ho Hp%plan_inv Happ. unfold reports.
  assert (outs.*2 !! i = Some ws) as Hws by by rewrite list_lookup_fmap, Ho.
  assert (S i <= length outs.*2) as Hi by by eapply lookup_lt_Some.
  destruct (data (mem s) !! hash_deterministic (Basic a)) as [written|] eqn:Hw.
  2: { subst p. destruct (jr_outputs _ _ _ _ _ _ _ _ _ _ Hrun i res ws Ho) as (_ & inc & Hent).
    destruct (last_write _ ws) as [v|] eqn:Hl; [|done]. exfalso.
    pose proof (proj2 (Hent _ inc v) (conj eq_refl Hl)) as He. unfold entry in He. by rewrite Hw in He. }
  destruct Hp as (run & ch & code & b & n & -> & Hbase & Hvals). destruct Happ as [Hrun1 Hrun2].
  pose proof (joined_writes_of level s lazies outs J a written Hlen Hlevel Hr Hna Hex Hrun Hw) as Hwo.
  destruct (Hwo i ws Hws) as (Hne & inc & Hent). pose proof (running_values_indexes _ _ _ _ _ _ Hvals) as Hidx.
  destruct (last_write _ ws) as [v|] eqn:Hl.
  - assert (written !! i = Some (Data inc v)) as Hwi by by apply Hent.
    assert (exists b' m', (i, (b', m')) ∈ run) as (b' & m' & Hx).
    { assert (i ∈ run.*1) as ([k [b' m']] & -> & ?)%list_elem_of_fmap; [|by eauto].
      rewrite Hidx. apply list_elem_of_fmap. exists (i, Data inc v). split; [done|]. by apply iter_history_elem. }
    destruct (running_values_below _ _ written _ _ _ _ Hvals) as [_ Hbelow]. specialize (Hbelow _ _ Hx).
    destruct (Hst a) as [Ht0 Hwd].
    destruct (evaluation_is_plain (BSE := BSE) (TE := TE) storage txs a written outs.*2 (b, n) (S i) (b', m') Hwo Hi Ht0 Hwd) as (t & Ht & _ & Heq);
      [intros k Hk; apply Hsolv; by rewrite length_fmap in Hk|done|done|].
    eexists _, t. split; [by apply Hrun1|]. split; [done|].
    rewrite range_desc_S, Hwi in Heq. injection (Heq ltac:(done)) as -> ->. apply evaluated_account_shows.
  - apply Hrun2. rewrite Hidx. intros ([k e] & Hk & Hke)%list_elem_of_fmap. cbn in Hk. subst k.
    apply iter_history_elem in Hke. destruct e as [inc' x|]; [|done]. by apply Hent in Hke as [_ [=]].
Qed.

(** An account that is not evaluated. *)
Lemma executed_reported a i res ws : states_are_maps vm -> a ∉ lazy_addresses (mem s) -> outs !! i = Some (res, ws) ->
  reports a i ws (tx_state res) (tx_state res).
Proof.
  intros Hmaps Ha Ho. unfold reports. destruct (last_write _ ws) as [v|] eqn:Hl; [|done].
  destruct (joined_settled display vm kept level s Hlen Hlevel Hr Hna Hex) as [Hp _].
  destruct (lookup_lt_is_Some_2 txs i) as [tx Htx].
  { destruct (run_block_after _ _ _ _ _ _ _ _ (jr_block _ _ _ _ _ _ _ _ _ _ Hrun)) as [<- _]. by eapply lookup_lt_Some. }
  destruct (run_block_nth _ _ _ _ _ _ _ _ i tx (jr_block _ _ _ _ _ _ _ _ _ _ Hrun) Htx) as (res' & ws' & Ho' & Hx).
  rewrite Ho in Ho'. injection Ho' as <- <-.
  destruct (seq_execute_reports _ _ _ _ _ _ _ _ _ a v Hinj Hmaps Hx Hl) as [Hlz|[(gas & l1 & rs & Hrs & Hin)|(b & x & -> & Hx' & Hsh)]].
  - destruct (jr_outputs _ _ _ _ _ _ _ _ _ _ Hrun i res ws Ho) as (_ & inc & Hent).
    destruct Ha. eapply lazy_values_listed; [done..| |exact Hlz]. apply Hent. by split.
  - destruct Ha. by eapply rewarded_listed.
  - assert (outs.*2 !! i = Some ws) as Hws by by rewrite list_lookup_fmap, Ho.
    exists x, (Some b). split; [done|]. split; [|done].
    specialize (Hsolv (S i)) as Hs. specialize (Hs ltac:(by eapply lookup_lt_Some) a).
    rewrite (plain_at_S _ _ _ _ Hws) in Hs |- *. cbn in Hs |- *. rewrite Hl in *. cbn in *. by case_decide.
Qed.
End Joined.

Abbreviation finalise mv addrs slots := (finalise (BSE := BSE) (TE := TE) display chain storage spec txs mv addrs slots).

Lemma finalise_joined s lazies outs J addrs results : joined_run display chain storage spec block_env txs s lazies outs J ->
  finalise (mem s) addrs (execution_results s) = Ok results ->
  length outs = length txs /\ length results = length txs /\
  evaluate_addresses (BSE := BSE) (TE := TE) display chain storage spec txs (mem s) addrs (accumulate_gas 0 outs.*1) = Ok results.
Proof.
  intros Hrun. unfold Pexe.finalise. intros ([rs rest] & Ht & Hev)%outcome_bind_ok.
  destruct (run_block_after _ _ _ _ _ _ _ _ (jr_block _ _ _ _ _ _ _ _ _ _ Hrun)) as [Hl _].
  pose proof (take_results_length _ _ _ _ Ht) as Hlr.
  apply take_results_take in Ht. rewrite (joined_run_results _ _ _ _ _ _ _ _ _ _ Hrun) in Ht.
  assert (rs = outs.*1) as -> by (apply (inj (fmap Some)); by symmetry).
  split; [done|]. split; [|done]. eapply evaluate_addresses_length; [|exact Hev].
  by rewrite accumulate_gas_length, length_fmap.
Qed.

Lemma joined_reports level s addrs results :
  (Z.of_nat (length txs) < 2 ^ 64)%Z -> 0 < level -> hash_injective -> states_are_maps vm -> storage_of_words ->
  preachable display vm kept level s -> content_addressed storage (new_bytecodes (mem s)) ->
  abort_reason s = None -> all_exited s -> addrs ≡ₚ elements (consume_lazy_addresses (mem s)).1 ->
  finalise (mem s) addrs (execution_results s) = Ok results ->
  exists lazies outs, length lazies = length txs /\ length outs = length txs /\
    receipt <$> results = receipt <$> accumulate_gas 0 outs.*1 /\
    (solvent_block display vm (new_bytecodes (mem s)) 0 txs lazies storage ->
     (exists st, plain_block display vm (new_bytecodes (mem s)) 0 txs lazies storage = Ok (outs, st)) /\
     forall i res ws r, outs !! i = Some (res, ws) -> results !! i = Some r ->
       forall a, reports outs a i ws (tx_state res) (tx_state r)).
Proof.
  intros Hlen Hlevel Hinj Hmaps Hst Hr Hcodes Hna Hex Haddrs Hfin.
  destruct (joined_is_run display chain storage spec block_env txs kept level s Hlen Hlevel Hinj Hr Hcodes Hna Hex)
    as (lazies & outs & J & Hrun).
  destruct (finalise_joined _ _ _ _ _ _ Hrun Hfin) as (Hlo & Hlr & Hev).
  assert (NoDup addrs) as Hnd by (rewrite Haddrs; apply NoDup_elements).
  assert (length (accumulate_gas 0 outs.*1) = length txs) as Hla by by rewrite accumulate_gas_length, length_fmap.
  exists lazies, outs. split; [by eapply jr_lazies|]. split; [done|]. split.
  - apply list_eq. intros i. rewrite !list_lookup_fmap.
    destruct (accumulate_gas 0 outs.*1 !! i) as [r1|] eqn:H1.
    + destruct (evaluated_result display chain storage spec txs (mem s) addrs _ results i r1 Hla Hnd Hev H1) as (r & -> & Hrec & _).
      cbn. by rewrite Hrec.
    + apply lookup_ge_None in H1. by rewrite lookup_ge_None_2 by lia.
  - intros Hsolv. pose proof (jr_block _ _ _ _ _ _ _ _ _ _ Hrun) as Hb.
    destruct (seq_block_plain display vm _ _ _ _ _ _ _ _ Hinj (chain_rewards_accounts chain storage block_env txs spec)
      (fun a => proj2 (Hst a)) (plain_view_empty display vm) Hsolv Hb) as (st & Hplain & _).
    split; [by exists st|]. intros i res ws r Ho Hri a.
    assert (forall k, k <= length outs -> solvent (after storage_after storage (take k outs.*2))) as Hgood
      by (intros k Hk; eapply run_safe_after; [exact Hplain|exact Hsolv|lia]).
    destruct (accumulate_gas_state 0 outs.*1 i res) as (r1 & H1 & Hs1); [by rewrite list_lookup_fmap, Ho|].
    destruct (evaluated_result display chain storage spec txs (mem s) addrs _ results i r1 Hla Hnd Hev H1)
      as (r' & Hr' & _ & Hout & Hin). rewrite Hri in Hr'. injection Hr' as <-.
    destruct (decide (a ∈ addrs)) as [Ha|Ha].
    + destruct (Hin a Ha) as (p & Hp & Happ). rewrite <- Hs1. by eapply evaluated_reported.
    + unfold reports. rewrite (Hout _ Ha), Hs1. eapply executed_reported; try done.
      intros Hl. apply Ha. rewrite Haddrs. by apply elem_of_elements.
Qed.

(** C4: a block reports what happens on plain accounts.  When the workers have joined
    without an abort and the lazy accounts are evaluated, there is one output per
    transaction, for some choice of the lazy transfers, such that the receipts are
    those outputs' with the gas added up; and if the transactions can be executed
    one after the other on plain accounts with that choice, every update at once,
    then this gives the same outputs, and for every transaction and every account
    the reported transition is the plain account after that transaction, balance
    and nonce, if the transaction wrote it, and that of the EVM otherwise. *)
Theorem block_reports_plain_accounts level s addrs results
  (Hlen : (Z.of_nat (length txs) < 2 ^ 64)%Z) (Hlevel : 0 < level)
  (Hinj : hash_injective) (Hmaps : states_are_maps vm) (Hst : storage_of_words)
  (Hr : preachable display vm kept level s)
  (Hcodes : content_addressed storage (new_bytecodes (mem s)))
  (Hna : abort_reason s = None) (Hex : all_exited s)
  (Haddrs : addrs ≡ₚ elements (consume_lazy_addresses (mem s)).1)
  (Hfin : finalise (mem s) addrs (execution_results s) = Ok results) :
  exists lazies outs, length lazies = length txs /\ length outs = length txs /\
    receipt <$> results = receipt <$> accumulate_gas 0 outs.*1 /\
    (solvent_block display vm (new_bytecodes (mem s)) 0 txs lazies storage ->
     (exists st, plain_block display vm (new_bytecodes (mem s)) 0 txs lazies storage = Ok (outs, st)) /\
     forall i res ws r, outs !! i = Some (res, ws) -> results !! i = Some r ->
       forall a, reports outs a i ws (tx_state res) (tx_state r)).
Proof. by eapply joined_reports. Qed.
End Block.

(** ** Witness

    The counter block again: each transaction writes account 9 itself and is
    charged in favour of account 3, which is evaluated after the block and reported
    with what a plain execution gives it. *)
Section Demo.
#[local] Existing Instance demo.
#[local] Existing Instance counter_laws.
#[local] Open Scope Z_scope.

(** The writes of a counter transaction. *)
Definition counter_writes (v reward : U256) : WriteSet :=
  [(hash_deterministic (Basic 9), VBasic (mkAccountBasic 0 0)); (hash_deterministic (StorageLoc 9 0), VStorage v);
   (hash_deterministic (Basic 3), LazyRecipient reward)].

Lemma counter_solvent v reward (st : Storage Empty_set) : solvent st ->
  write_account (LazyRecipient reward) (st_basic st 3) <> Panic -> solvent (storage_after (counter_writes v reward) st).
Proof.
  intros Hs H3 a. unfold storage_after, counter_writes. cbn [st_basic last_write].
  destruct (decide (a = 3)) as [->|Ha3]; [by rewrite decide_True|].
  rewrite (decide_False (P := hash_deterministic (Basic 3) = _)) by (intros H%demo_hash_injective; congruence).
  rewrite (decide_False (P := hash_deterministic (StorageLoc 9 0) = _)) by (by intros H%demo_hash_injective).
  destruct (decide (a = 9)) as [->|Ha9]; [by rewrite decide_True|].
  rewrite decide_False by (intros H%demo_hash_injective; congruence). apply Hs.
Qed.

Lemma counter_solvent_block l1 l2 :
  solvent_block no_error counter_vm ∅ 0 [demo_tx; demo_tx] [l1; l2] demo_storage.
Proof.
  assert (solvent demo_storage) as H0 by done.
  assert (solvent (storage_after (counter_writes 1 168000) demo_storage)) as H1 by by apply counter_solvent.
  split; [done|]. intros out ws Hx.
  assert (ws = counter_writes 1 168000) as -> by (vm_compute in Hx; by injection Hx as _ <-).
  split; [done|]. intros out' ws' Hx'.
  assert (ws' = counter_writes 2 168008) as -> by (vm_compute in Hx'; by injection Hx' as _ <-).
  split; [|done]. by apply counter_solvent.
Qed.

Lemma counter_outputs l1 l2 outs st :
  plain_block no_error counter_vm ∅ 0 [demo_tx; demo_tx] [l1; l2] demo_storage = Ok (outs, st) ->
  outs.*2 = [counter_writes 1 168000; counter_writes 2 168008].
Proof.
  intros H. destruct (run_block_after _ _ _ _ _ _ _ _ H) as [Hl _].
  destruct (run_block_nth _ _ _ _ _ _ _ _ 0 demo_tx H eq_refl) as (o0 & w0 & H0 & Hx0).
  destruct (run_block_nth _ _ _ _ _ _ _ _ 1 demo_tx H eq_refl) as (o1 & w1 & H1 & Hx1).
  destruct outs as [|[? ?] [|[? ?] [|? ?]]]; [done..| |done]. injection H0 as -> ->. injection H1 as -> ->.
  assert (w0 = counter_writes 1 168000) as -> by (vm_compute in Hx0; by injection Hx0 as _ <-).
  assert (w1 = counter_writes 2 168008) as -> by (vm_compute in Hx1; by injection Hx1 as _ <-). done.
Qed.

Lemma block_reports_plain_accounts_witness :
  exists s addrs results outs st r,
    preachable no_error counter_vm [] 2 s /\
    finalise (BSE := unit) (TE := unit) no_error counter_chain demo_storage tt [demo_tx; demo_tx] (mem s) addrs
      (execution_results s) = Ok results /\
    (exists lazies, plain_block no_error counter_vm ∅ 0 [demo_tx; demo_tx] lazies demo_storage = Ok (outs, st)) /\
    results !! 1%nat = Some r /\ cumulative_gas_used (receipt r) = 42001 /\
    exists x t, tx_state r !! 3 = Some x /\ shows x t /\
      st_basic (after storage_after demo_storage (take 2 outs.*2)) 3 = Ok t /\ bal t = 336008.
Proof.
  destruct counter_joined as (s & Hr & Ha & Hex & Hm & Hres).
  assert (new_bytecodes (mem s) = ∅) as Hc by (rewrite Hm; vm_compute; reflexivity).
  assert (exists results, finalise (BSE := unit) (TE := unit) no_error counter_chain demo_storage tt [demo_tx; demo_tx]
    (mem s) [3] (execution_results s) = Ok results) as [results Hfin].
  { rewrite Hm, Hres. eexists. vm_compute. reflexivity. }
  destruct (block_reports_plain_accounts (BSE := unit) (TE := unit) no_error counter_chain demo_storage tt
    (demo_block_env 3 2) [demo_tx; demo_tx] [] 2 s [3] results) as (lazies & outs & Hl & Hlo & Hrec & Hgo);
    [by vm_compute|lia|exact demo_hash_injective| | |exact Hr|apply demo_content|exact Ha|exact Hex| |exact Hfin|].
  - intros tx. cbn. intros v. cbn. repeat constructor. by intros ?%elem_of_nil.
  - intros a. split; [by exists None|]. intros b. by cbn.
  - rewrite Hm. vm_compute. reflexivity.
  - destruct lazies as [|l1 [|l2 [|? ?]]]; [discriminate Hl..| |discriminate Hl].
    rewrite Hc in Hgo. destruct (Hgo (counter_solvent_block l1 l2)) as ([st Hst] & Hrep). clear Hgo Hl.
    pose proof (counter_outputs _ _ _ _ Hst) as Hws.
    destruct outs as [|[r0 w0] [|[r1 w1] [|? ?]]]; [discriminate Hlo..| |discriminate Hlo].
    injection Hws as -> ->.
    destruct results as [|x0 [|x1 [|? ?]]]; [discriminate Hrec..| |discriminate Hrec].
    destruct (Hrep 1%nat r1 _ x1 eq_refl eq_refl 3) as (x & t & Hx & Ht & Hsh).
    exists s, [3], [x0; x1], [(r0, counter_writes 1 168000); (r1, counter_writes 2 168008)], st, x1. split; [exact Hr|]. split; [exact Hfin|]. split; [by exists [l1; l2]|].
    split; [done|]. split.
    + rewrite Hm, Hres in Hfin. vm_compute in Hfin. by injection Hfin as _ <-.
    + exists x, t. split; [exact Hx|]. split; [exact Hsh|]. split; [exact Ht|].
      vm_compute in Ht. by injection Ht as <-.
Defined.
End Demo.
