(* ===== verification/LazyChoice.v ===== *)
(** * LazyChoice: which transfers are lazy does not matter (vm.rs, pexe.rs)

    [VmDb::new] makes a transfer lazy when its sender or recipient is already in the
    memory of that moment, so which transfers are lazy depends on the interleaving.
    The EVM then sees a mock sender with all the money there is and no recipient.
    What the engine relies on is the interface [LazyTransfers]: on plain accounts a
    lazy transfer does what the transfer does.  Here: then two executions of a block
    on plain accounts, one of them without any laziness, go in lockstep. *)

From S2P Require Import Prelude Types Scheduler SchedulerSystem SchedulerTheorems Platform Storage.
From S2P Require Import MvMemory MvMemorySpec VmDb VmDbLemmas VmDbReplay Vm VmSpec.
From S2P Require Import ParallelCodes Sequential ParallelSystem ParallelInv ParallelSpec Kinds Pexe PexeLemmas PexeSpec.
From S2P Require Import SequentialSpec Plain Results PlainSpec LazyAgree PlainResults.
#[local] Open Scope nat_scope.

(** ** Storages that answer the same *)

#[export] Instance storage_equiv {E} : Equiv (Storage E) := fun s1 s2 =>
  (forall a, st_basic s1 a = st_basic s2 a) /\ (forall a, st_code_hash s1 a = st_code_hash s2 a) /\
  (forall h, st_code_by_hash s1 h = st_code_by_hash s2 h) /\ (forall a, st_has_storage s1 a = st_has_storage s2 a) /\
  (forall a slot, st_storage s1 a slot = st_storage s2 a slot) /\ (forall n, st_block_hash s1 n = st_block_hash s2 n).

#[export] Instance storage_equivalence {E} : Equivalence (≡@{Storage E}).
Proof.
  unfold equiv, storage_equiv. split.
  - intros s. hnf. by split_and!.
  - intros s1 s2 (H1 & H2 & H3 & H4 & H5 & H6). hnf. split_and!; intros; by symmetry.
  - intros s1 s2 s3 (H1 & H2 & H3 & H4 & H5 & H6) (G1 & G2 & G3 & G4 & G5 & G6).
    hnf. split_and!; intros; by rewrite ?H1, ?H2, ?H3, ?H4, ?H5, ?H6.
Qed.

#[export] Instance st_basic_proper {E} : Proper ((≡) ==> eq ==> eq) (st_basic (E := E)).
Proof. intros s1 s2 H a _ <-. apply H. Qed.
#[export] Instance st_code_hash_proper {E} : Proper ((≡) ==> eq ==> eq) (st_code_hash (E := E)).
Proof. intros s1 s2 H a _ <-. apply H. Qed.
#[export] Instance st_code_by_hash_proper {E} : Proper ((≡) ==> eq ==> eq) (st_code_by_hash (E := E)).
Proof. intros s1 s2 H a _ <-. apply H. Qed.
#[export] Instance st_storage_proper {E} : Proper ((≡) ==> eq ==> eq ==> eq) (st_storage (E := E)).
Proof. intros s1 s2 H a _ <- slot _ <-. apply H. Qed.
#[export] Instance st_block_hash_proper {E} : Proper ((≡) ==> eq ==> eq) (st_block_hash (E := E)).
Proof. intros s1 s2 H n _ <-. apply H. Qed.

Section Proper.
Context {P : Platform} {E : Type} (display : E -> string) {SpecId : Type}.
Context (vm : Vm (P := P) (E := E) SpecId) (codes : gmap B256 Bytecode).

#[export] Instance storage_after_proper ws : Proper ((≡) ==> (≡)) (storage_after (P := P) (E := E) ws).
Proof.
  intros s1 s2 H. pose proof H as (H1 & H2 & H3 & H4 & H5 & H6).
  repeat split; cbn; try done; intros; by case_match; rewrite ?H1, ?H2, ?H5.
Qed.

#[export] Instance solvent_proper : Proper ((≡) ==> iff) (solvent (E := E)).
Proof. intros s1 s2 (H & _). unfold solvent. split; intros Hs a; [rewrite <- H|rewrite H]; apply Hs. Qed.

Section Reads.
Context (st1 st2 : Storage E) (Heq : st1 ≡ st2) (J : journal).
Abbreviation vm_at st := (with_storage vm st).

Lemma seq_code_hash_equiv a : seq_code_hash display (vm_at st1) J a = seq_code_hash display (vm_at st2) J a.
Proof. destruct Heq as (_ & H & _). unfold seq_code_hash. cbn. by rewrite H. Qed.

Lemma seq_load_code_equiv h : seq_load_code display (vm_at st1) codes h = seq_load_code display (vm_at st2) codes h.
Proof. destruct Heq as (_ & _ & H & _). unfold seq_load_code, load_code. cbn. destruct h as [h|]; [|done]. by rewrite H. Qed.

Lemma seq_account_equiv a : seq_account display (vm_at st1) J a = seq_account display (vm_at st2) J a.
Proof. destruct Heq as (H & _). unfold seq_account, chain_account. cbn. by rewrite H. Qed.

Lemma seq_basic_equiv db a : seq_basic display (vm_at st1) codes J db a = seq_basic display (vm_at st2) codes J db a.
Proof.
  unfold seq_basic. rewrite seq_account_equiv. do 2 (destruct (_ && _); [done|]).
  apply outcome_bind_ext. intros [account|]; [|done]. destruct (_ && _); [done|].
  rewrite seq_code_hash_equiv. apply outcome_bind_ext. intros h. by rewrite seq_load_code_equiv.
Qed.

Lemma seq_run_equiv {R} (t : evm_run R) db :
  seq_run display (vm_at st1) codes J t db = seq_run display (vm_at st2) codes J t db.
Proof.
  destruct Heq as (_ & _ & Hc & _ & Hs & Hb).
  revert db. induction t as [r|a c IH|h c IH|a slot c IH|n c IH]; intros db; cbn [seq_run].
  - done.
  - rewrite seq_basic_equiv. apply outcome_bind_ext. intros [x db']. apply IH.
  - unfold code_by_hash. cbn. rewrite Hc. apply outcome_bind_ext. intros x. apply IH.
  - unfold seq_storage. cbn. rewrite Hs. apply outcome_bind_ext. intros x. apply IH.
  - unfold block_hash. cbn. rewrite Hb. apply outcome_bind_ext. intros x. apply IH.
Qed.

Lemma seq_new_equiv i tx lazy : seq_new display (vm_at st1) J i tx lazy = seq_new display (vm_at st2) J i tx lazy.
Proof. unfold seq_new. destruct (transact_to tx); [done|]. by rewrite seq_code_hash_equiv. Qed.
End Reads.

#[export] Instance plain_execute_proper :
  Proper ((≡) ==> eq ==> eq ==> eq ==> eq) (plain_execute display vm codes).
Proof.
  intros s1 s2 H i _ <- tx _ <- lazy _ <-. unfold plain_execute, seq_execute. rewrite (seq_new_equiv s1 s2 H).
  assert (forall db, seq_run display (with_storage vm s1) codes journal_empty
      (build_evm (vm_chain vm) (vm_spec_id vm) false (vm_block_env vm) tx) db =
    seq_run display (with_storage vm s2) codes journal_empty
      (build_evm (vm_chain vm) (vm_spec_id vm) false (vm_block_env vm) tx) db) as Hrun by (intros db; by apply seq_run_equiv).
  cbn. f_equal. f_equal. by apply outcome_bind_ext.
Qed.
End Proper.

(** ** The interface

    Every balance fits, none has reached the maximum at which additions saturate,
    and the caller has something left. *)
Record sound {E} (st : Storage E) (caller : Address) : Prop := mkSound {
  sound_solvent : solvent st;
  sound_below_max : forall a b, st_basic st a = Ok (Some b) -> (balance b < U256_MAX)%Z;
  sound_caller : exists b, st_basic st caller = Ok (Some b) /\ (0 < balance b)%Z;
}.

Section Choice.
Context {P : Platform} {E : Type} (display : E -> string) {SpecId : Type}.
Context (vm : Vm (P := P) (E := E) SpecId) (codes : gmap B256 Bytecode).
Abbreviation execute_plain := (plain_execute display vm codes).
Abbreviation block_plain := (plain_block display vm codes).

(** A lazy output [out] and that of the same transfer [out'] on the storage [st]. *)
Definition same_transfer (st : Storage E) (out out' : PexeTxExecutionResult * WriteSet) : Prop :=
  receipt out.1 = receipt out'.1 /\ storage_after out.2 st ≡ storage_after out'.2 st /\
  forall a, is_Some (last_write (hash_deterministic (Basic a)) out'.2) ->
    is_Some (last_write (hash_deterministic (Basic a)) out.2).

(** What the EVM promises for the transactions of the block. *)
Class LazyTransfers : Prop := {
  lazy_is_transfer : forall st i tx out out', vm_txs vm !! i = Some tx -> solvent st ->
    (forall a, word_storage st a) ->
    execute_plain st i tx true = Ok out -> execute_plain st i tx false = Ok out' ->
    sound (storage_after out'.2 st) (caller tx) -> same_transfer st out out';
}.

(** Nor does a lazy transfer fail where the transfer does not. *)
Class LazySucceeds : Prop := {
  lazy_succeeds : forall st i tx out', vm_txs vm !! i = Some tx -> solvent st -> (forall a, word_storage st a) ->
    execute_plain st i tx false = Ok out' -> sound (storage_after out'.2 st) (caller tx) ->
    exists out, execute_plain st i tx true = Ok out;
}.

(** What the EVM checks of the sender: it can pay the maximum fee, and its nonce is
    that of the transaction. *)
Class CheckedSenders : Prop := {
  sender_checked : forall st i tx out, vm_txs vm !! i = Some tx -> solvent st -> (forall a, word_storage st a) ->
    execute_plain st i tx false = Ok out ->
    (forall t, st_basic st (caller tx) = Ok t -> (max_fee tx <= bal t)%Z) /\
    (forall expected t, tx_nonce tx = Some expected -> st_basic (storage_after out.2 st) (caller tx) = Ok t ->
      cnt t <> 0%Z /\ expected = (cnt t - 1)%Z);
}.
Context `{Hlazy : !LazyTransfers}.

Lemma same_transfer_refl st out : same_transfer st out out.
Proof. by split_and!. Qed.

Lemma any_is_transfer st i tx lazy out out' : vm_txs vm !! i = Some tx -> solvent st -> (forall a, word_storage st a) ->
  execute_plain st i tx lazy = Ok out -> execute_plain st i tx false = Ok out' ->
  sound (storage_after out'.2 st) (caller tx) -> same_transfer st out out'.
Proof.
  intros Htx Hs Hw H H' Hsound. destruct lazy; [by eapply lazy_is_transfer|].
  assert (out = out') as -> by congruence. apply same_transfer_refl.
Qed.

Lemma word_storage_after ws (st : Storage E) a : word_storage st a -> word_storage (storage_after ws st) a.
Proof.
  unfold word_storage. cbn. intros Hw b. destruct (last_write _ ws) as [v|]; [|apply Hw].
  by apply (write_account_word a st v b Hw).
Qed.

Lemma word_storage_equiv (st1 st2 : Storage E) a : st1 ≡ st2 -> word_storage st2 a -> word_storage st1 a.
Proof. intros (H & _) Hw b. unfold word_storage in Hw. rewrite H. apply Hw. Qed.

(** The block without laziness is sound. *)
Definition sound_run (st : Storage E) (txs : list TxEnv) (outs : list (PexeTxExecutionResult * WriteSet)) : Prop :=
  forall k tx, txs !! k = Some tx -> sound (after storage_after st (take (S k) outs.*2)) (caller tx).

Lemma sound_run_end st txs outs : length outs = length txs -> solvent st -> sound_run st txs outs ->
  solvent (after storage_after st outs.*2).
Proof.
  intros Hl Hs Hsound. destruct txs as [|tx txs] using rev_ind; [by destruct outs|].
  rewrite length_app in Hl. cbn in Hl. destruct (Hsound (length txs) tx (list_lookup_middle txs [] tx _ eq_refl)) as [H _].
  by rewrite take_ge in H by (rewrite length_fmap; lia).
Qed.

Lemma sound_run_snoc st txs tx outs out ws : length outs = length txs ->
  sound_run st (txs ++ [tx]) (outs ++ [(out, ws)]) ->
  sound_run st txs outs /\ sound (storage_after ws (after storage_after st outs.*2)) (caller tx).
Proof.
  intros Hl Hsound. split.
  - intros k t Hk. pose proof (lookup_lt_Some _ _ _ Hk).
    specialize (Hsound k t (lookup_app_l_Some _ _ _ _ Hk)).
    by rewrite fmap_app, take_app_le in Hsound by (rewrite length_fmap; lia).
  - specialize (Hsound (length txs) tx (list_lookup_middle txs [] tx _ eq_refl)).
    rewrite take_ge in Hsound by (rewrite length_fmap, length_app; cbn; lia).
    rewrite fmap_app in Hsound. unfold after in Hsound. by rewrite foldl_app in Hsound.
Qed.

(** ** Lockstep

    Two runs of the block, the second without laziness. *)
Lemma lazy_lockstep i txs lazies st1 st2 outs' st' :
  (forall k tx, txs !! k = Some tx -> vm_txs vm !! (i + k) = Some tx) ->
  st1 ≡ st2 -> solvent st2 -> (forall a, word_storage st2 a) ->
  block_plain i txs [] st2 = Ok (outs', st') -> sound_run st2 txs outs' ->
  solvent_block display vm codes i txs lazies st1 /\
  forall outs st, block_plain i txs lazies st1 = Ok (outs, st) ->
    receipt <$> outs.*1 = receipt <$> outs'.*1 /\
    forall k res ws res' ws', outs !! k = Some (res, ws) -> outs' !! k = Some (res', ws') ->
      after storage_after st1 (take (S k) outs.*2) ≡ after storage_after st2 (take (S k) outs'.*2) /\
      forall a, is_Some (last_write (hash_deterministic (Basic a)) ws') -> is_Some (last_write (hash_deterministic (Basic a)) ws).
Proof.
  revert i lazies st1 st2 outs'. induction txs as [|tx txs IH]; intros i lazies st1 st2 outs' Htxs Heq Hs Hw; cbn.
  { intros [= <- <-] _. split; [split; [by rewrite Heq|done]|]. intros outs st [= <- <-]. by split. }
  intros ([res' ws'] & Hx' & ([outs1' st1'] & Hb' & [= <- <-])%outcome_bind_ok)%outcome_bind_ok Hsound.
  pose proof (Hsound 0 tx eq_refl) as Hsound0. cbn in Hsound0.
  assert (forall out, execute_plain st1 i tx (default false (head lazies)) = Ok out -> same_transfer st2 out (res', ws')) as Hstep.
  { intros out Hx. rewrite Heq in Hx. eapply any_is_transfer; [|done..]. rewrite <- (Nat.add_0_r i). by apply Htxs. }
  assert (forall out, execute_plain st1 i tx (default false (head lazies)) = Ok out ->
    solvent_block display vm codes (S i) txs (tail lazies) (storage_after out.2 st1) /\
    forall outs st, block_plain (S i) txs (tail lazies) (storage_after out.2 st1) = Ok (outs, st) ->
    receipt <$> outs.*1 = receipt <$> outs1'.*1 /\
    forall k res ws res' ws1', outs !! k = Some (res, ws) -> outs1' !! k = Some (res', ws1') ->
      after storage_after (storage_after out.2 st1) (take (S k) outs.*2) ≡ after storage_after (storage_after ws' st2) (take (S k) outs1'.*2) /\
      forall a, is_Some (last_write (hash_deterministic (Basic a)) ws1') -> is_Some (last_write (hash_deterministic (Basic a)) ws)) as Hnext.
  { intros out Hx. destruct (Hstep _ Hx) as (_ & Hst & _). apply IH; try done.
    - intros k tx' Hk. rewrite Nat.add_succ_comm. by apply Htxs.
    - by rewrite Heq.
    - apply Hsound0.
    - intros a. by apply word_storage_after.
    - intros k tx' Hk. by apply (Hsound (S k)). }
  split.
  - split; [by rewrite Heq|]. intros out ws Hx. by apply (Hnext (out, ws)).
  - intros outs st ([res ws] & Hx & ([outs1 st1''] & Hb & [= <- <-])%outcome_bind_ok)%outcome_bind_ok.
    destruct (Hstep _ Hx) as (Hrec & Hst & Hdom). destruct (proj2 (Hnext _ Hx) _ _ Hb) as [Hr Hk].
    split; [cbn in *; by rewrite Hrec, Hr|]. intros [|k] r w r' w'; cbn.
    + intros [= <- <-] [= <- <-]. split; [|exact Hdom].
      transitivity (storage_after ws st2); [by apply storage_after_proper|exact Hst].
    + apply Hk.
Qed.

(** They end in storages that answer the same. *)
Lemma lockstep_end i txs lazies st outs st1 outs' st2 :
  (forall k tx, txs !! k = Some tx -> vm_txs vm !! (i + k) = Some tx) ->
  solvent st -> (forall a, word_storage st a) ->
  block_plain i txs [] st = Ok (outs', st2) -> sound_run st txs outs' ->
  block_plain i txs lazies st = Ok (outs, st1) -> st1 ≡ st2.
Proof.
  intros Htxs Hs Hw H2 Hsound H1.
  destruct (lazy_lockstep i txs lazies st st outs' st2 Htxs ltac:(done) Hs Hw H2 Hsound) as [_ Hlock].
  destruct (Hlock _ _ H1) as [_ Hk].
  destruct (run_block_after _ _ _ _ _ _ _ _ H1) as [Hl1 ->]. destruct (run_block_after _ _ _ _ _ _ _ _ H2) as [Hl2 ->].
  destruct (length txs) as [|n] eqn:Hn.
  { apply length_zero_iff_nil in Hl1 as ->. by apply length_zero_iff_nil in Hl2 as ->. }
  destruct (lookup_lt_is_Some_2 outs n ltac:(lia)) as [[r w] Hr].
  destruct (lookup_lt_is_Some_2 outs' n ltac:(lia)) as [[r' w'] Hr'].
  destruct (Hk _ _ _ _ _ Hr Hr') as [Heq _]. rewrite !take_ge in Heq by (rewrite length_fmap; lia). exact Heq.
Qed.
End Choice.
