(* ===== verification/ValidBlock.v ===== *)
(** * ValidBlock: a valid block is answered, with the right results (pexe.rs)

    The evaluation of the lazy accounts refuses a sender that cannot pay the maximum
    fee and a nonce that is not the one after the transaction's.  Here: for a block
    that can be executed one transaction after the other, on an EVM that checks the
    senders, it refuses nothing; so the block is answered, and with the results of
    that execution. *)

From S2P Require Import Prelude Types Scheduler SchedulerSystem SchedulerTheorems Platform Storage.
From S2P Require Import MvMemory MvMemorySpec VmDb VmDbLemmas VmDbReplay Vm VmSpec.
From S2P Require Import ParallelCodes Sequential ParallelSystem ParallelInv ParallelSpec Kinds Pexe PexeLemmas PexeSpec.
From S2P Require Import SequentialSpec Plain Results PlainSpec LazyAgree PlainResults LazyChoice.
#[local] Open Scope nat_scope.

(** ** One account *)

Section Account.
Context {P : Platform} {E : Type} {BSE TE : Type} (storage : Storage E) (txs : list TxEnv) (a : Address).
Abbreviation values_below := (values_below (BSE := BSE) (TE := TE) txs a).
Abbreviation value_step := (value_step (BSE := BSE) (TE := TE) txs a).
Abbreviation running_values := (running_values (BSE := BSE) (TE := TE) txs a).
Abbreviation plain_at wss k := (after storage_after storage (take k wss)).

Lemma running_values_extend history i e bal n run x : running_values history bal n = Ok run ->
  value_step (i, e) (Ok (default (bal, n) (snd <$> last run))) = Ok x ->
  running_values (history ++ [(i, e)]) bal n = Ok (run ++ [(i, x)]).
Proof.
  revert bal n run. induction history as [|[k y] history IH]; intros bal n run.
  - intros [= <-]. cbn -[evaluate_value].
    intros (tx & -> & ([b m] & He & (u & Hc & [= <-])%outcome_bind_ok)%outcome_bind_ok)%outcome_bind_ok.
    cbn -[evaluate_value]. rewrite He. cbn. by rewrite Hc.
  - intros (tx & Htx & ([b m] & He & (u & Hc & (rest & Hr & [= <-])%outcome_bind_ok)%outcome_bind_ok)%outcome_bind_ok)%outcome_bind_ok Hs.
    cbn -[evaluate_value]. rewrite Htx. cbn -[evaluate_value]. rewrite He. cbn. rewrite Hc. cbn.
    rewrite (IH _ _ _ Hr); [done|]. rewrite <- Hs. do 2 f_equal. rewrite last_cons. by destruct (last rest).
Qed.

Lemma values_below_running (m : gmap TxIdx MemoryEntry) N bal n x :
  values_below (bal, n) (range_desc m N) = Ok x -> exists run, running_values (range_asc m N) bal n = Ok run.
Proof.
  unfold range_asc. revert x. induction N as [|N IH]; intros x.
  { rewrite range_desc_0. by exists []. }
  rewrite range_desc_S. destruct (m !! N) as [e|] eqn:He; [|apply IH]. cbn [LazyAgree.values_below foldr rev].
  fold (values_below (bal, n) (range_desc m N)). intros Hv. pose proof Hv as (y & Hy & _)%outcome_bind_ok.
  destruct (IH y Hy) as [run Hrun]. pose proof (running_values_below _ _ _ _ _ _ _ Hrun) as [Hb _].
  rewrite Hb in Hv. eexists. by eapply running_values_extend.
Qed.

(** What the evaluation of the history [written] asks of the transactions [wss]. *)
Record evaluable (written : gmap TxIdx MemoryEntry) (wss : list WriteSet) : Prop := {
  ev_writes : writes_of a written wss;
  ev_length : length wss = length txs;
  ev_within : forall i, is_Some (written !! i) -> i < length wss;
  ev_base : exists t, st_basic storage a = Ok t;
  ev_words : word_storage storage a;
  ev_solvent : forall j, j <= length wss -> st_basic (plain_at wss j) a <> Panic;
  ev_afford : forall i inc x t, written !! i = Some (Data inc (LazySender x)) -> st_basic (plain_at wss i) a = Ok t ->
    exists tx, txs !! i = Some tx /\ (max_fee tx <= bal t)%Z;
  ev_nonce : forall i tx expected t, txs !! i = Some tx -> caller tx = a -> tx_nonce tx = Some expected ->
    st_basic (plain_at wss (S i)) a = Ok t -> cnt t <> 0%Z /\ expected = (cnt t - 1)%Z;
}.

(** A value can be evaluated on the account on which it is written. *)
Lemma evaluate_value_ok tx inc v b n t t' : write_account v (Ok (E := E) t) = Ok t' ->
  (forall x, v = LazySender x -> (max_fee tx <= b)%Z) ->
  exists b' n', evaluate_value (BSE := BSE) (TE := TE) tx (Data inc v) b n = Ok (b', n').
Proof.
  intros Hw Ha. destruct v as [acc|?|?|x|x|]; cbn -[max_fee] in *;
    [by eexists _, _|by destruct t|by destruct t|by eexists _, _| |by destruct t].
  destruct (Z.ltb_spec b (max_fee tx)); [|by eexists _, _]. specialize (Ha x eq_refl). lia.
Qed.

Lemma evaluation_succeeds written wss base k : evaluable written wss ->
  base_of_history storage a (iter_history written) = base -> exists x, values_below base (range_desc written k) = Ok x.
Proof.
  intros [Hw Hlen Hin Hbase0 Hwd Hs Hafford Hnonce] Hbase. induction k as [|k [[b n] IH]].
  { exists base. by rewrite range_desc_0. }
  rewrite range_desc_S. destruct (written !! k) as [e|] eqn:Hwk; [|by eexists].
  assert (k < length wss) as Hk by (apply Hin; by eexists).
  destruct (lookup_lt_is_Some_2 wss k Hk) as [ws Hws]. destruct (lookup_lt_is_Some_2 txs k ltac:(lia)) as [tx Htx].
  destruct (Hw k ws Hws) as (Hne & inc & Hent). rewrite Hwk in Hne, Hent. destruct e as [inc' v|]; [|done].
  destruct (proj1 (Hent inc' v) eq_refl) as [-> Hl].
  destruct (evaluation_is_plain storage txs a written wss base k (b, n) Hw ltac:(lia) Hbase0 Hwd Hs Hbase IH)
    as (t & Ht & Hwt & Heq).
  assert (is_lazy_value v = true -> (b, n) = (bal t, cnt t)) as Hbn.
  { intros Hlz. destruct (range_desc written k) as [|? ?] eqn:Hes; [|by apply Heq]. injection IH as <-.
    eapply (first_lazy_base storage a written wss base k); eauto; lia. }
  specialize (Hs (S k) Hk). assert (st_basic (plain_at wss (S k)) a = write_account v (Ok t)) as Hk1.
  { rewrite (plain_at_S _ _ _ _ Hws). cbn. by rewrite Hl, Ht. }
  assert (exists t', write_account v (Ok (E := E) t) = Ok t') as [t' Ht'].
  { rewrite Hk1 in Hs. destruct (write_account v (Ok t)) as [t'|e|] eqn:Hwr; [by exists t'| |done].
    by apply write_account_err in Hwr as [? _]. }
  destruct (evaluate_value_ok tx inc v b n t t' Ht') as (b' & n' & He).
  { intros x ->. injection (Hbn eq_refl) as -> _. destruct (Hafford k inc x t Hwk Ht) as (tx' & Htx' & ?).
    rewrite Htx in Htx'. by injection Htx' as <-. }
  assert (forall acc, t' = Some acc -> word_account acc) as Hword.
  { intros acc ->. rewrite <- Ht in Ht'. eapply write_account_word; [exact Hwt|exact Ht']. }
  assert ((b', n') = (bal t', cnt t')) as [= -> ->].
  { eapply (evaluate_value_plain tx inc v b n t'); [exact He|exact Ht'| |exact Hword]. intros u [= <-]. exact Hbn. }
  eexists. cbn [LazyAgree.values_below foldr]. fold (values_below base (range_desc written k)). rewrite IH.
  unfold LazyAgree.value_step. cbn -[evaluate_value]. rewrite Htx. cbn -[evaluate_value]. rewrite He. cbn.
  assert (check_nonce (BSE := BSE) (TE := TE) k tx a (cnt t') = Ok tt) as ->; [|done].
  unfold check_nonce. case_decide as Hc; [|done]. destruct (tx_nonce tx) as [expected|] eqn:Hx; [|done].
  destruct (Hnonce k tx expected t' Htx Hc Hx) as [Hn0 ->]; [by rewrite Hk1|].
  apply Z.eqb_neq in Hn0. by rewrite Hn0, Z.eqb_refl.
Qed.
End Account.

(** ** The block *)

Section Block.
Context {P : Platform} {E : Type} (display : E -> string) {BSE TE SpecId : Type}.
Context (chain : PexeChain SpecId) `{Hlaws : !ChainLaws chain} (storage : Storage E) (spec : SpecId).
Context (block_env : BlockEnv) (txs : list TxEnv) (kept : list (option PexeTxExecutionResult)).
Abbreviation vm := (Vm_new storage chain block_env txs spec).
Abbreviation plan mv := (plan (BSE := BSE) (TE := TE) display storage txs mv).
Abbreviation plain_at wss k := (after storage_after storage (take k wss)).
Implicit Types s : pstate (P := P).

(** The storage has the code hash of every account, and the codes of these hashes. *)
Definition storage_serves : Prop := forall a, exists ch, st_code_hash storage a = Ok ch /\
  forall h, ch = Some h -> exists c, st_code_by_hash storage h = Ok c.

Lemma plan_succeeds (mv : MvMemory Bytecode) wss a : storage_serves ->
  (forall written, data mv !! hash_deterministic (Basic a) = Some written -> evaluable storage txs a written wss) ->
  exists p, plan mv a = Ok p.
Proof.
  intros Hs He. unfold PexeLemmas.plan. destruct (data mv !! _) as [written|]; [|by eexists]. specialize (He written eq_refl).
  destruct (base_of_history storage a (iter_history written)) as [bal n] eqn:Hb.
  destruct (evaluation_succeeds (BSE := BSE) (TE := TE) storage txs a written wss _ (index_bound written) He Hb) as [x Hx].
  destruct (values_below_running txs a written _ bal n x Hx) as [run Hrun].
  change (range_asc written (index_bound written)) with (iter_history written) in Hrun.
  destruct (Hs a) as (ch & -> & Hcode). cbn -[iter_history].
  destruct ch as [h|]; cbn -[iter_history]; [destruct (Hcode h eq_refl) as [c ->]; cbn -[iter_history]|];
    rewrite Hrun; by eexists.
Qed.

Lemma evaluate_addresses_succeed (mv : MvMemory Bytecode) addrs rs : length rs = length txs ->
  (forall a, exists p, plan mv a = Ok p) ->
  exists rs', evaluate_addresses (BSE := BSE) (TE := TE) display chain storage spec txs mv addrs rs = Ok rs'.
Proof.
  intros Hl Hp. revert rs Hl. induction addrs as [|a addrs IH]; intros rs Hl; cbn; [by eexists|].
  rewrite evaluate_address_plan by done. destruct (Hp a) as [p ->]. cbn. apply IH. by rewrite apply_plan_length.
Qed.

Lemma words_after wss : (forall a, word_storage storage a) -> forall a, word_storage (after storage_after storage wss) a.
Proof.
  intros Hw. unfold after. revert Hw. generalize storage as st. induction wss as [|ws wss IH]; intros st Hw; [done|].
  apply IH. intros a. by apply word_storage_after.
Qed.

(** *** The two executions on plain accounts

    [outs] are those of the workers, with the laziness that happened, [eager] those
    without. *)
Section Both.
Context (level : nat) s (lazies : list bool) (outs : list (PexeTxExecutionResult * WriteSet)) (J : journal) (st : Storage E).
Context (eager : list (PexeTxExecutionResult * WriteSet)) (st' : Storage E).
Abbreviation codes := (new_bytecodes (mem s)).
Context (Hlen : (Z.of_nat (length txs) < 2 ^ 64)%Z) (Hlevel : 0 < level) (Hinj : hash_injective).
Context (Hst : storage_of_words storage) (Hchecked : CheckedSenders display vm codes).
Context (Hr : preachable display vm kept level s) (Hna : abort_reason s = None) (Hex : all_exited s).
Context (Hrun : joined_run display chain storage spec block_env txs s lazies outs J).
Context (Hsolv : solvent_block display vm codes 0 txs lazies storage).
Context (Houts : plain_block display vm codes 0 txs lazies storage = Ok (outs, st)).
Context (Heager : plain_block display vm codes 0 txs [] storage = Ok (eager, st')) (Hsound : sound_run storage txs eager).
Context (Hagree : forall k res ws res' ws', outs !! k = Some (res, ws) -> eager !! k = Some (res', ws') ->
  plain_at outs.*2 (S k) ≡ plain_at eager.*2 (S k)).

Lemma eager_checked k tx : txs !! k = Some tx ->
  (forall t, st_basic (plain_at eager.*2 k) (caller tx) = Ok t -> (max_fee tx <= bal t)%Z) /\
  (forall expected t, tx_nonce tx = Some expected -> st_basic (plain_at eager.*2 (S k)) (caller tx) = Ok t ->
    cnt t <> 0%Z /\ expected = (cnt t - 1)%Z).
Proof.
  intros Htx. destruct (run_block_nth _ _ _ _ _ _ _ _ k tx Heager Htx) as (res & ws & Ho & Hx).
  rewrite (plain_at_S storage _ _ ws) by by rewrite list_lookup_fmap, Ho.
  eapply (sender_checked _ _ _ _ _ _ (res, ws)); [exact Htx| |apply words_after; intros a; apply Hst|exact Hx].
  destruct k as [|k]; [intros a; change (st_basic storage a <> Panic); destruct (Hst a) as [[t ->] _]; done|].
  destruct (lookup_lt_is_Some_2 txs k) as [tx' Htx']; [apply lookup_lt_Some in Htx; lia|].
  apply (Hsound k tx' Htx').
Qed.

Lemma plain_agree k a : k <= length txs -> st_basic (plain_at outs.*2 k) a = st_basic (plain_at eager.*2 k) a.
Proof.
  destruct (run_block_after _ _ _ _ _ _ _ _ Houts) as [Hl _]. destruct (run_block_after _ _ _ _ _ _ _ _ Heager) as [Hl' _].
  destruct k as [|k]; [done|]. intros Hk.
  destruct (lookup_lt_is_Some_2 outs k ltac:(lia)) as [[res ws] Ho].
  destruct (lookup_lt_is_Some_2 eager k ltac:(lia)) as [[res' ws'] Ho'].
  apply (Hagree k res ws res' ws' Ho Ho').
Qed.

Lemma joined_evaluable a written : data (mem s) !! hash_deterministic (Basic a) = Some written ->
  evaluable storage txs a written outs.*2.
Proof.
  intros Hw. destruct (run_block_after _ _ _ _ _ _ _ _ Houts) as [Hl _].
  assert (forall i e, written !! i = Some e -> entry (data (mem s)) (hash_deterministic (Basic a)) i = Some e) as He
    by (intros i e; unfold entry; by rewrite Hw).
  assert (forall i, is_Some (written !! i) -> i < length txs) as Hin.
  { intros i [e Hi%He]. eapply (joined_in_block display chain storage spec block_env txs kept level s); [done..|by eexists]. }
  split.
  - by eapply joined_writes_of.
  - by rewrite length_fmap.
  - intros i Hi%Hin. by rewrite length_fmap, Hl.
  - apply Hst.
  - apply Hst.
  - intros j Hj. rewrite length_fmap, Hl in Hj. apply (run_safe_after _ _ solvent _ _ _ _ _ _ _ Houts Hsolv Hj).
  - intros i inc x t Hi%He Ht.
    destruct (sender_is_caller display chain storage spec block_env txs kept level s a i inc x) as (tx & Htx & <-); [done..|].
    exists tx. split; [done|]. apply (eager_checked i tx Htx). rewrite <- plain_agree; [done|].
    apply lookup_lt_Some in Htx. lia.
  - intros i tx expected t Htx <- Hn Ht. apply (proj2 (eager_checked i tx Htx) expected t Hn). rewrite <- plain_agree; [done|].
    apply lookup_lt_Some in Htx. lia.
Qed.
End Both.

Abbreviation finalise mv addrs slots := (finalise (BSE := BSE) (TE := TE) display chain storage spec txs mv addrs slots).

(** What the workers did, next to the execution without laziness. *)
Lemma workers_in_lockstep level s eager st' :
  (Z.of_nat (length txs) < 2 ^ 64)%Z -> 0 < level -> hash_injective -> storage_of_words storage ->
  preachable display vm kept level s -> content_addressed storage (new_bytecodes (mem s)) ->
  LazyTransfers display vm (new_bytecodes (mem s)) -> abort_reason s = None -> all_exited s ->
  plain_block display vm (new_bytecodes (mem s)) 0 txs [] storage = Ok (eager, st') -> sound_run storage txs eager ->
  exists lazies outs J st, joined_run display chain storage spec block_env txs s lazies outs J /\
    solvent_block display vm (new_bytecodes (mem s)) 0 txs lazies storage /\
    plain_block display vm (new_bytecodes (mem s)) 0 txs lazies storage = Ok (outs, st) /\
    forall k res ws res' ws', outs !! k = Some (res, ws) -> eager !! k = Some (res', ws') ->
      plain_at outs.*2 (S k) ≡ plain_at eager.*2 (S k).
Proof.
  intros Hlen Hlevel Hinj Hst Hr Hcodes Hlazy Hna Hex Heager Hsound.
  destruct (joined_is_run display chain storage spec block_env txs kept level s Hlen Hlevel Hinj Hr Hcodes Hna Hex)
    as (lazies & outs & J & Hrun).
  destruct (lazy_lockstep display vm (new_bytecodes (mem s)) 0 txs lazies storage storage eager st') as [Hsolv Hlock];
    [done|done|intros a; destruct (Hst a) as [[t ->] _]; done|intros a; apply Hst|exact Heager|exact Hsound|].
  destruct (seq_block_plain display vm _ _ _ _ _ _ _ _ Hinj (chain_rewards_accounts chain storage block_env txs spec)
    (fun a => proj2 (Hst a)) (plain_view_empty display vm) Hsolv (jr_block _ _ _ _ _ _ _ _ _ _ Hrun)) as (st & Hplain & _).
  exists lazies, outs, J, st. split_and!; [done..|]. intros k res ws res' ws' Ho Ho'.
  by apply (proj2 (Hlock _ _ Hplain) k res ws res' ws').
Qed.

Lemma finalise_succeeds level s addrs eager st' :
  (Z.of_nat (length txs) < 2 ^ 64)%Z -> 0 < level -> hash_injective -> storage_of_words storage -> storage_serves ->
  preachable display vm kept level s -> content_addressed storage (new_bytecodes (mem s)) ->
  LazyTransfers display vm (new_bytecodes (mem s)) -> CheckedSenders display vm (new_bytecodes (mem s)) ->
  abort_reason s = None -> all_exited s ->
  plain_block display vm (new_bytecodes (mem s)) 0 txs [] storage = Ok (eager, st') -> sound_run storage txs eager ->
  exists results, finalise (mem s) addrs (execution_results s) = Ok results.
Proof.
  intros Hlen Hlevel Hinj Hst Hserves Hr Hcodes Hlazy Hchecked Hna Hex Heager Hsound.
  destruct (workers_in_lockstep level s eager st') as (lazies & outs & J & st & Hrun & Hsolv & Houts & Hagree); [done..|].
  destruct (joined_settled display vm kept level s Hlen Hlevel Hr Hna Hex) as [_ Hl]. unfold Pexe.finalise.
  destruct (take_results_ok (BSE := BSE) (TE := TE) (length txs) (execution_results s)) as (rs & rest & -> & Hlr & _).
  { intros i Hi. destruct (Hl i Hi) as (mvs & mv & v & res & mv' & r & l1 & db & ws & ops & _ & _ & _ & _ & Hres & _). eauto. }
  cbn. apply evaluate_addresses_succeed; [by rewrite accumulate_gas_length|]. intros a.
  apply (plan_succeeds _ outs.*2); [done|]. intros written Hw. by eapply joined_evaluable.
Qed.

Lemma accumulate_gas_receipts total rs rs' : receipt <$> rs = receipt <$> rs' ->
  receipt <$> accumulate_gas total rs = receipt <$> accumulate_gas total rs'.
Proof.
  revert total rs'. induction rs as [|r rs IH]; intros total [|r' rs']; cbn; try done.
  intros [= Hr Hrs]. rewrite Hr. f_equal. by apply IH.
Qed.

Lemma finalised_valid level s addrs results outs st
  (Hlen : (Z.of_nat (length txs) < 2 ^ 64)%Z) (Hlevel : 0 < level)
  (Hinj : hash_injective) (Hmaps : states_are_maps vm) (Hst : storage_of_words storage)
  (Hr : preachable display vm kept level s)
  (Hcodes : content_addressed storage (new_bytecodes (mem s)))
  (Hlazy : LazyTransfers display vm (new_bytecodes (mem s)))
  (Hna : abort_reason s = None) (Hex : all_exited s)
  (Haddrs : addrs ≡ₚ elements (consume_lazy_addresses (mem s)).1)
  (Hfin : finalise (mem s) addrs (execution_results s) = Ok results)
  (Hplain : plain_block display vm (new_bytecodes (mem s)) 0 txs [] storage = Ok (outs, st))
  (Hsound : sound_run storage txs outs) :
  receipt <$> results = receipt <$> accumulate_gas 0 outs.*1 /\
  forall i res ws r a, outs !! i = Some (res, ws) -> results !! i = Some r ->
    is_Some (last_write (hash_deterministic (Basic a)) ws) ->
    exists x t, tx_state r !! a = Some x /\
      st_basic (after storage_after storage (take (S i) outs.*2)) a = Ok t /\ shows x t.
Proof.
  destruct (joined_reports (BSE := BSE) (TE := TE) display chain storage spec block_env txs kept level s addrs results)
    as (lazies & louts & _ & Hlo & Hrec & Hgo); try done.
  assert (solvent storage) as Hsol by (intros a; destruct (Hst a) as [[t ->] _]; done).
  destruct (lazy_lockstep display vm (new_bytecodes (mem s)) 0 txs lazies storage storage outs st) as [Hsolv Hlock];
    [done|done|done|intros a; apply Hst|exact Hplain|exact Hsound|].
  destruct (Hgo Hsolv) as [[lst Hl] Hrep]. destruct (Hlock _ _ Hl) as [Hrecs Hk]. split.
  - rewrite Hrec. by apply accumulate_gas_receipts.
  - intros i res ws r a Ho Hri Hwrote.
    destruct (run_block_after _ _ _ _ _ _ _ _ Hplain) as [Hlen' _].
    destruct (lookup_lt_is_Some_2 louts i) as [[lres lws] Hlo']; [rewrite Hlo, <- Hlen'; by eapply lookup_lt_Some|].
    destruct (Hk _ _ _ _ _ Hlo' Ho) as [Heq Hdom]. specialize (Hrep _ _ _ _ Hlo' Hri a). unfold reports in Hrep.
    destruct (Hdom a Hwrote) as [v Hv]. rewrite Hv in Hrep. destruct Hrep as (x & t & Hx & Ht & Hsh).
    exists x, t. split; [done|]. split; [|done]. by rewrite <- Heq.
Qed.
(** C1: a valid block is answered with the results of its transactions one after the
    other.  If the block can be executed on plain accounts, without laziness, by an
    EVM that checks the senders, and no balance comes near the end of its range and
    no sender is left with nothing, then whenever the workers join without an abort,
    whatever was lazy and whatever the interleaving, the evaluation succeeds; the
    answer has these receipts, with the gas added up, and at every account that a
    transaction writes it has the balance and the nonce that the account has after
    that transaction. *)
Theorem valid_block_reported level s addrs outs st
  (Hlen : (Z.of_nat (length txs) < 2 ^ 64)%Z) (Hlevel : 0 < level)
  (Hinj : hash_injective) (Hmaps : states_are_maps vm) (Hst : storage_of_words storage) (Hserves : storage_serves)
  (Hr : preachable display vm kept level s)
  (Hcodes : content_addressed storage (new_bytecodes (mem s)))
  (Hlazy : LazyTransfers display vm (new_bytecodes (mem s)))
  (Hchecked : CheckedSenders display vm (new_bytecodes (mem s)))
  (Hna : abort_reason s = None) (Hex : all_exited s)
  (Haddrs : addrs ≡ₚ elements (consume_lazy_addresses (mem s)).1)
  (Hplain : plain_block display vm (new_bytecodes (mem s)) 0 txs [] storage = Ok (outs, st))
  (Hsound : sound_run storage txs outs) :
  exists results, finalise (mem s) addrs (execution_results s) = Ok results /\
    receipt <$> results = receipt <$> accumulate_gas 0 outs.*1 /\
    forall i res ws r a, outs !! i = Some (res, ws) -> results !! i = Some r ->
      is_Some (last_write (hash_deterministic (Basic a)) ws) ->
      exists x t, tx_state r !! a = Some x /\
        st_basic (after storage_after storage (take (S i) outs.*2)) a = Ok t /\ shows x t.
Proof.
  assert (exists results, finalise (mem s) addrs (execution_results s) = Ok results) as [results Hfin] by by eapply finalise_succeeds.
  exists results. split; [done|]. by eapply finalised_valid.
Qed.
End Block.
