(* ===== verification/ValidProgress.v ===== *)
(** * ValidProgress: a valid block is answered (pexe.rs)

    The other half of ValidBlock.v.  There: whenever the workers join without an
    abort, the answer is right.  Here: they can always join.  While a block is
    valid, every state that it can be in has a continuation in which all workers
    leave the loop without an abort and the evaluation succeeds.  A transaction
    whose turn it is executes, because the memory below it is that of the reference
    (SequentialSpec.v), the reference is a run on plain accounts (PlainSpec.v), no
    laziness changes what happens there (LazyChoice.v), and what the reference runs
    the engine runs (SequentialRuns.v); ParallelProgress.v does the rest. *)

From S2P Require Import Prelude Types Scheduler SchedulerSystem SchedulerTheorems Platform Storage.
From S2P Require Import MvMemory MvMemorySpec VmDb VmDbLemmas VmDbReplay Vm VmSpec.
From S2P Require Import ParallelCodes Sequential ParallelSystem ParallelInv ParallelSpec ParallelProgress.
From S2P Require Import Kinds Pexe PexeLemmas PexeSpec.
From S2P Require Import SequentialRuns SequentialSpec Settled Plain Results PlainSpec LazyAgree PlainResults LazyChoice ValidBlock.
#[local] Open Scope nat_scope.

Section Progress.
Context {P : Platform} {E : Type} (display : E -> string) {BSE TE SpecId : Type}.
Context (chain : PexeChain SpecId) `{Hlaws : !ChainLaws chain} (storage : Storage E) (spec : SpecId).
Context (block_env : BlockEnv) (txs : list TxEnv) (kept : list (option PexeTxExecutionResult)).
Abbreviation vm := (Vm_new storage chain block_env txs spec).
Implicit Types s : pstate (P := P).

(** The block is valid as far as [s] has settled it: with the bytecodes that the
    memory has, the transactions up to the first that is not settled can be executed
    one after the other on plain accounts, without laziness. *)
Record valid_at s : Prop := mkValidAt {
  va_content : content_addressed storage (new_bytecodes (mem s));
  va_lazy : LazyTransfers display vm (new_bytecodes (mem s));
  va_succeeds : LazySucceeds display vm (new_bytecodes (mem s));
  va_checked : CheckedSenders display vm (new_bytecodes (mem s));
  va_plain : forall p, firm_below s p -> exists outs st,
    plain_block display vm (new_bytecodes (mem s)) 0 (take (S p) txs) [] storage = Ok (outs, st) /\
    sound_run storage (take (S p) txs) outs;
}.

Context (level : nat) (Hlen : (Z.of_nat (length txs) < 2 ^ 64)%Z) (Hlevel : 0 < level).
Context (Hinj : hash_injective) (Hst : storage_of_words storage).
Abbreviation running := (running display vm kept level).

(** ** The next transaction *)

(** The reference executes it, lazily or not. *)
Lemma next_executes s p tx : running s -> valid_at s -> firm_below s p -> txs !! p = Some tx ->
  exists J, (forall l, exists os, read_chain (data (mem s)) (hash_deterministic l) p = inr (os, J (hash_deterministic l))) /\
    forall lazy, exists out, seq_execute display vm (new_bytecodes (mem s)) J p tx lazy = Ok out.
Proof.
  intros Hrun [Hc Hlazy Hsucc _ Hplain] Hfirm Htx. pose proof (lookup_lt_Some _ _ _ Htx) as Hp.
  destruct (firm_run display chain storage spec block_env txs kept level Hlen Hlevel Hinj s p Hrun Hfirm ltac:(lia) Hc) as (lazies & outs & J & Hrun1 & Hch).
  destruct (Hplain p Hfirm) as (outs' & st' & Hb & Hsound). rewrite (take_S_r _ _ _ Htx) in Hb, Hsound.
  apply run_block_snoc in Hb as (outs0 & st0 & out & ws & Hb0 & Hx & -> & ->).
  destruct (run_block_after _ _ _ _ _ _ _ _ Hb0) as [Hl0 Hst0].
  rewrite (length_take_le _ p) in Hx by lia. cbn in Hx.
  destruct (sound_run_snoc storage (take p txs) tx outs0 out ws Hl0 Hsound) as [Hsound0 Hlast]. rewrite <- Hst0 in Hlast.
  assert (solvent storage) as Hs by (intros a; destruct (Hst a) as [[t ->] _]; done).
  assert (forall k tx, take p txs !! k = Some tx -> txs !! (0 + k) = Some tx) as Htxs
    by (intros k tx' [Hk _]%lookup_take_Some; done).
  destruct (lazy_lockstep display vm (new_bytecodes (mem s)) 0 (take p txs) lazies storage storage outs0 st0 Htxs
    ltac:(done) Hs (fun a => proj2 (Hst a)) Hb0 Hsound0) as [Hsolv _].
  destruct (seq_block_plain display vm _ _ _ _ _ _ _ _ Hinj (chain_rewards_accounts chain storage block_env txs spec)
    (fun a => proj2 (Hst a)) (plain_view_empty display vm) Hsolv Hrun1) as (st1 & Hb1 & Hview).
  pose proof (lockstep_end display vm (new_bytecodes (mem s)) 0 (take p txs) lazies storage outs st1 outs0 st0 Htxs Hs
    (fun a => proj2 (Hst a)) Hb0 Hsound0 Hb1) as Heq.
  assert (solvent st0) as Hs0 by (rewrite Hst0; by eapply sound_run_end).
  assert (forall a, word_storage st0 a) as Hw0 by (rewrite Hst0; apply words_after; intros a; apply Hst).
  exists J. split; [done|]. intros lazy.
  assert (exists out, plain_execute display vm (new_bytecodes (mem s)) st0 p tx lazy = Ok out) as [o Ho].
  { destruct lazy; [|by eexists]. by eapply lazy_succeeds. }
  exists o. apply (seq_execute_plain display vm (new_bytecodes (mem s)) (fun a => proj2 (Hst a)) st1 J Hview); [by rewrite Heq|].
  by rewrite Heq.
Qed.

(** So the engine executes it. *)
Lemma next_clean s v : running s -> valid_at s -> firm_below s (tx_idx v) -> tx_idx v < length txs ->
  executes_cleanly display vm s v.
Proof.
  intros Hrun Hv Hfirm Hlt. destruct (lookup_lt_is_Some_2 txs (tx_idx v) Hlt) as [tx Htx].
  destruct (next_executes s (tx_idx v) tx Hrun Hv Hfirm Htx) as (J & HJ & Hseq).
  by apply (reference_clean display chain storage spec block_env txs kept level Hlen Hlevel Hinj s v tx J).
Qed.

(** ** The block *)

Context (D : CacheDB (E := E) SpecId).
Abbreviation parallel := (execute_revm_parallel (BSE := BSE) (TE := TE) display chain D storage spec block_env txs level kept).

Lemma finished_answer s addrs : running s -> valid_at s -> storage_serves storage -> finished_block vm s ->
  txs <> [] -> addrs ≡ₚ elements (consume_lazy_addresses (mem s)).1 ->
  exists kept' results, finalise (BSE := BSE) (TE := TE) display chain storage spec txs (mem s) addrs (execution_results s) = Ok results /\
    parallel kept' (Ok results).
Proof.
  intros [Hr Hna] [Hc Hlazy _ Hchecked Hplain] Hserves [Hfirm Hexit] Hne Haddrs.
  assert (all_exited s) as Hex by (intros w x Hw; apply Hexit in Hw as ->; by eexists).
  assert (S (length txs - 1) = length txs) as Hn by (destruct txs; [done|cbn; lia]).
  destruct (Hplain (length txs - 1)) as (outs & st & Hb & Hsound).
  { intros i Hi. apply Hfirm. change (block_len vm) with (length txs). lia. }
  rewrite Hn, firstn_all in Hb, Hsound.
  destruct (finalise_succeeds (BSE := BSE) (TE := TE) display chain storage spec block_env txs kept level s
    addrs outs st) as [results Hfin]; [done..|].
  destruct (joined_settled display vm kept level s Hlen Hlevel Hr Hna Hex) as [_ Hl].
  destruct (take_results_ok (BSE := BSE) (TE := TE) (length txs) (execution_results s)) as (rs & rest & Htake & _).
  { intros i Hi. destruct (Hl i Hi) as (mvs & mv & v & res & mv' & r & l1 & db & ws & ops & _ & _ & _ & _ & Hres & _). eauto. }
  exists rest, results. split; [exact Hfin|]. rewrite <- Hfin.
  eapply parallel_run; [exact Hne|exact Hr|exact Hex|exact Hna|exact Haddrs|exact Htake].
Qed.
End Progress.

Section Block.
Context {P : Platform} {E : Type} (display : E -> string) {BSE TE SpecId : Type}.
Context (chain : PexeChain SpecId) `{Hlaws : !ChainLaws chain} (D : CacheDB (E := E) SpecId) (storage : Storage E) (spec : SpecId).
Context (block_env : BlockEnv) (txs : list TxEnv) (kept : list (option PexeTxExecutionResult)).
Abbreviation vm := (Vm_new storage chain block_env txs spec).
Abbreviation parallel level := (execute_revm_parallel (BSE := BSE) (TE := TE) display chain D storage spec block_env txs level kept).

(** C3: a valid block can always be answered.  While the block is valid, no state
    that the workers can be in is a dead end: whatever was executed too early,
    aborted or blocked so far, there is a continuation in which every worker leaves
    the loop, nobody aborts the block, the evaluation of the lazy accounts succeeds,
    in whatever order, and [execute_revm_parallel] returns its results.  (A block
    that is not valid may have no outcome at all, see [rejected_transaction_retried].) *)
Theorem valid_block_answered level s
  (Hlen : (Z.of_nat (length txs) < 2 ^ 64)%Z) (Hlevel : 0 < level) (Hne : txs <> [])
  (Hinj : hash_injective) (Hst : storage_of_words storage) (Hserves : storage_serves storage)
  (Hvalid : forall s', preachable display vm kept level s' -> abort_reason s' = None ->
     valid_at display chain storage spec block_env txs s')
  (Hr : preachable display vm kept level s) (Hna : abort_reason s = None) :
  exists s', rtc (pstep display vm) s s' /\ abort_reason s' = None /\
    (forall w x, workers (base s') !! w = Some x -> x = Exited None) /\
    forall addrs, addrs ≡ₚ elements (consume_lazy_addresses (mem s')).1 ->
      exists kept' results, finalise (BSE := BSE) (TE := TE) display chain storage spec txs (mem s') addrs
          (execution_results s') = Ok results /\ parallel level kept' (Ok results).
Proof.
  destruct (can_finish display vm kept level Hlen Hlevel (length txs) (le_n _)) with (s := s)
    as (s' & [Hrtc Hrun] & Hfin); [|done..|].
  - intros s1 w v [Hr1 Hna1] Hw _ Hfirm. apply (next_clean display chain storage spec block_env txs kept level); try done.
    + by apply Hvalid.
    + exact (task_in_block display vm kept level Hlen Hlevel s1 w _ (conj Hr1 Hna1) Hw).
  - exists s'. split; [done|]. split; [apply Hrun|]. split; [apply Hfin|]. intros addrs Haddrs.
    apply (finished_answer display chain storage spec block_env txs kept level); try done.
    apply Hvalid; apply Hrun.
Qed.
End Block.
