(* ===== verification/Transfers.v ===== *)
(** * Transfers: blocks of plain transfers

    The interfaces of LazyChoice.v discharged for an EVM that only transfers, and the
    headline theorem applied to a block in which a transfer is lazy. *)

From S2P Require Import Prelude Types Scheduler SchedulerSystem SchedulerTheorems Platform Storage.
From S2P Require Import MvMemory MvMemorySpec VmDb VmDbLemmas VmDbReplay Vm VmSpec.
From S2P Require Import ParallelCodes Sequential ParallelSystem ParallelInv ParallelSpec Kinds Pexe PexeLemmas PexeSpec.
From S2P Require Import SequentialSpec Rejected Plain Results PlainSpec LazyAgree PlainResults LazyChoice ValidBlock ValidProgress.
#[local] Open Scope Z_scope.

Section Transfers.
#[local] Existing Instance demo.

(** What a transfer costs its sender. *)
Definition transfer_cost (tx : TxEnv) : U256 := 21000 * gas_price tx + value tx.

Definition plain_info (bal : U256) (n : Z) : AccountInfo := mkAccountInfo bal n KECCAK_EMPTY None.
Definition touched_account (i : AccountInfo) : Account :=
  mkAccount i false true ((ai_balance i =? 0) && (ai_nonce i =? 0)) [].

Definition transfer_state (tx : TxEnv) (to : Address) (f : AccountInfo) (t : option AccountInfo) : list (Address * Account) :=
  [(caller tx, touched_account (plain_info (ai_balance f - transfer_cost tx) (u64_add (ai_nonce f) 1)));
   (to, touched_account (plain_info (from_option ai_balance 0 t + value tx) (from_option ai_nonce 0 t)))].

(** The EVM: the sender must have the maximum fee and pays, the recipient receives; contracts are not created and
    nobody pays himself. *)
Definition transfer_evm (tx : TxEnv) : evm_run ((InvalidTransaction + ResultAndState) * option L1BlockInfo) :=
  match transact_to tx with
  | Create => EvmDone (inl OtherInvalid, None)
  | Call to =>
      if decide (to = caller tx) then EvmDone (inl OtherInvalid, None)
      else EvmBasic (caller tx) (fun f => EvmBasic to (fun t => EvmDone (
        match f with
        | Some f =>
            if ai_balance f <? max_fee tx then inl (LackOfFundForMaxFee (max_fee tx) (ai_balance f))
            else if ai_nonce f =? U64_MAX then inl OtherInvalid
            else inr (mkResultAndState (mkExecutionResult true 21000 []) (transfer_state tx to f t))
        | None => inl (LackOfFundForMaxFee (max_fee tx) 0)
        end, None)))
  end.

Definition transfer_chain : PexeChain unit := {|
  is_eip_1559_enabled _ := true;
  is_eip_161_enabled _ := true;
  get_reward_policy := Ethereum;
  build_evm _ _ _ tx := transfer_evm tx;
  calculate_tx_l1_cost _ _ _ := 0%Z;
  mv_estimates b txs := ([(hash_deterministic (Basic (coinbase b)), seq 0 (length txs))], [coinbase b]);
|}.

(** A transfer between two accounts, neither of them the beneficiary. *)
Record transfer_ok (beneficiary : Address) (tx : TxEnv) (to : Address) : Prop := {
  tr_to : transact_to tx = Call to;
  tr_distinct : to <> caller tx;
  tr_beneficiary : beneficiary <> caller tx /\ beneficiary <> to;
  tr_price : 0 <= gas_price tx;
  tr_value : is_u 256 (value tx);
  tr_cost : transfer_cost tx <= U256_MAX;
  tr_gas : 21000 <= gas_limit tx;
  tr_blob : max_fee_per_blob_gas tx = None;
}.

Context (storage : Storage Empty_set) (block_env : BlockEnv) (txs : list TxEnv) (codes : gmap B256 Bytecode).
Context (Htxs : forall tx, tx ∈ txs -> exists to, transfer_ok (coinbase block_env) tx to).
Abbreviation vm := (Vm_new storage transfer_chain block_env txs tt).
Abbreviation execute_plain := (plain_execute no_error vm codes).
Abbreviation h a := (hash_deterministic (Basic a)).

Definition transfer_reward (tx : TxEnv) : U256 := sat_mul (reward_gas_price vm tx) 21000.

Lemma basic_neq a b : a <> b -> h a <> h b.
Proof. intros Hne H. apply demo_hash_injective in H. congruence. Qed.

Lemma add_reward_fresh (ws : WriteSet) r amount : r ∉ ws.*1 -> add_reward ws r amount = Ok (ws ++ [(r, LazyRecipient amount)]).
Proof.
  induction ws as [|[l v] ws IH]; cbn; [done|]. intros [Hne Hn]%not_elem_of_cons.
  rewrite decide_False by (intros ->; by apply Hne). by rewrite (IH Hn).
Qed.

(** After the EVM: the writes [ws], the reward and the receipt. *)
Lemma transfer_done st tx to f t ws out : h (coinbase block_env) ∉ ws.*1 ->
  (ws0 ← apply_rewards (with_storage vm st) ws tx 21000 None;
   match from_revm transfer_chain tt (mkResultAndState (mkExecutionResult true 21000 []) (transfer_state tx to f t)) with
   | Ok res => Ok (res, ws0)
   | Err e => match e with end
   | Panic => Panic
   end) = Ok (E := VmExecutionError) out ->
  receipt out.1 = mkReceipt true 21000 [] /\ out.2 = ws ++ [(h (coinbase block_env), LazyRecipient (transfer_reward tx))].
Proof.
  intros Hn. unfold apply_rewards, rewards. cbn -[hash_deterministic from_revm transfer_state sat_mul reward_gas_price].
  rewrite (add_reward_fresh _ _ _ Hn). cbn -[hash_deterministic from_revm transfer_state sat_mul reward_gas_price].
  destruct (from_revm _ _ _) as [res|[]|] eqn:Hres; [|done]. intros [= <-].
  apply outcome_bind_ok in Hres as (x & _ & [= <-]). by split.
Qed.

(** The write of a touched account without code. *)
Definition touched_write (db : VmDb) (tx : TxEnv) (a : Address) (bal : U256) (n : Z) : WriteSet :=
  if match read_accounts db !! h a with
     | None => true
     | Some (b, _) => negb (nonce b =? n) || negb (balance b =? bal)
     end
  then if is_lazy db then
         if decide (h a = from_hash db) then [(h a, LazySender (u256_sub U256_MAX bal))]
         else if decide (Some (h a) = to_hash db) then [(h a, LazyRecipient (value tx))] else []
       else if negb ((bal =? 0) && (n =? 0)) then [(h a, VBasic (mkAccountBasic bal n))] else []
  else [].

Lemma transfer_writes db tx to f t : state_writes true db tx (transfer_state tx to f t) codes =
  Ok (touched_write db tx (caller tx) (ai_balance f - transfer_cost tx) (u64_add (ai_nonce f) 1) ++
      touched_write db tx to (from_option ai_balance 0 t + value tx) (from_option ai_nonce 0 t), codes).
Proof.
  assert (forall a bal n, account_writes true db tx a (touched_account (plain_info bal n)) codes =
    Ok (touched_write db tx a bal n, codes)) as Hone.
  { intros a bal n. unfold account_writes, touched_write. cbn -[hash_deterministic is_empty_code_hash decide Z.eqb].
    change (is_empty_code_hash (plain_info bal n)) with true. cbn -[hash_deterministic decide Z.eqb].
    by rewrite app_nil_r. }
  unfold transfer_state. cbn [state_writes]. apply outcome_bind_ok. eexists (_, _). split; [apply Hone|].
  apply outcome_bind_ok. exists (touched_write db tx to (from_option ai_balance 0 t + value tx) (from_option ai_nonce 0 t), codes).
  split; [|done]. apply outcome_bind_ok. eexists (_, _). split; [apply Hone|]. cbn -[touched_write]. by rewrite app_nil_r.
Qed.

(** A run of the transfer EVM asks for the sender and then for the recipient. *)
Lemma transfer_run st J tx to db out : transact_to tx = Call to -> to <> caller tx ->
  seq_run no_error (with_storage vm st) codes J (transfer_evm tx) db = Ok out ->
  exists f db1 t db2, seq_basic no_error (with_storage vm st) codes J db (caller tx) = Ok (f, db1) /\
    seq_basic no_error (with_storage vm st) codes J db1 to = Ok (t, db2) /\ out.2 = db2 /\ out.1.2 = None /\
    forall r, out.1.1 = inr r -> exists f', f = Some f' /\ max_fee tx <= ai_balance f' /\ ai_nonce f' <> U64_MAX /\
      r = mkResultAndState (mkExecutionResult true 21000 []) (transfer_state tx to f' t).
Proof.
  intros Hto Hne. unfold transfer_evm. rewrite Hto, decide_False by done. cbn [seq_run].
  intros ([f db1] & H1 & ([t db2] & H2 & [= <-])%outcome_bind_ok)%outcome_bind_ok.
  exists f, db1, t, db2. split; [done|]. split; [done|]. split; [done|]. split; [done|]. cbn [fst snd].
  intros r. destruct f as [f|]; [|done]. destruct (Z.ltb_spec (ai_balance f) (max_fee tx)); [done|].
  destruct (Z.eqb_spec (ai_nonce f) U64_MAX); [done|]. intros [= <-]. by exists f.
Qed.

(** An execution of a transfer, up to what the database answers. *)
Lemma transfer_execution st i tx to lazy out : transact_to tx = Call to -> to <> caller tx -> execute_plain st i tx lazy = Ok out ->
  exists code_hash f db1 t db2 ws, st_code_hash st to = Ok code_hash /\
    let db0 := mkVmDb i tx (tx_from_hash tx) (tx_to_hash tx) code_hash (lazy && bool_decide (code_hash = None)) ∅ ∅ in
    seq_basic no_error (with_storage vm st) codes journal_empty db0 (caller tx) = Ok (Some f, db1) /\
    seq_basic no_error (with_storage vm st) codes journal_empty db1 to = Ok (t, db2) /\ max_fee tx <= ai_balance f /\ ai_nonce f <> U64_MAX /\
    ws = touched_write db2 tx (caller tx) (ai_balance f - transfer_cost tx) (u64_add (ai_nonce f) 1) ++
         touched_write db2 tx to (from_option ai_balance 0 t + value tx) (from_option ai_nonce 0 t) /\
    (h (coinbase block_env) ∉ ws.*1 -> receipt out.1 = mkReceipt true 21000 [] /\
       out.2 = ws ++ [(h (coinbase block_env), LazyRecipient (transfer_reward tx))]).
Proof.
  intros Hto Hne H. unfold plain_execute, seq_execute in H.
  apply outcome_bind_ok in H as ([[r l1] db] & Hx%map_err_ok & H).
  apply outcome_bind_ok in Hx as (db0 & Hn & Hr). unfold seq_new in Hn. rewrite Hto in Hn.
  apply outcome_bind_ok in Hn as (code_hash & Hc%from_storage_ok & [= <-]).
  destruct (transfer_run _ _ _ _ _ _ Hto Hne Hr) as (f & db1 & t & db2 & H1 & H2 & Hdb & Hl1 & Hres). cbn in Hdb, Hl1, Hres. subst db l1.
  destruct r as [err|r]; [done|]. destruct (Hres r eq_refl) as (f' & -> & Hcost & Hnm & ->).
  eexists code_hash, f', db1, t, db2, _. do 5 (split; [done|]). split; [reflexivity|].
  intros Hcb. cbn [state result gas_used is_eip_161_enabled vm_chain with_storage Vm_new transfer_chain] in H.
  rewrite transfer_writes in H. exact (transfer_done _ _ _ _ _ _ _ Hcb H).
Qed.

(** *** The lazy transfer *)

Lemma lazy_reads st J db tx to : is_lazy db = true -> from_hash db = h (caller tx) -> to_hash db = Some (h to) -> to <> caller tx ->
  seq_basic no_error (with_storage vm st) codes J db (caller tx) = Ok (Some (lazy_mock db), db) /\
  seq_basic no_error (with_storage vm st) codes J db to = Ok (None, db).
Proof.
  intros Hl Hf Ht Hne. unfold seq_basic. rewrite Hl, Hf, Ht. cbn [andb].
  rewrite (bool_decide_eq_true_2 (h (caller tx) = h (caller tx))) by done.
  rewrite (bool_decide_eq_false_2 (h to = h (caller tx))) by by apply basic_neq.
  by rewrite (bool_decide_eq_true_2 (Some (h to) = Some (h to))).
Qed.

Lemma lazy_output st i tx to out : transfer_ok (coinbase block_env) tx to -> st_code_hash st to = Ok None ->
  execute_plain st i tx true = Ok out ->
  receipt out.1 = mkReceipt true 21000 [] /\
  out.2 = [(h (caller tx), LazySender (transfer_cost tx)); (h to, LazyRecipient (value tx));
           (h (coinbase block_env), LazyRecipient (transfer_reward tx))].
Proof.
  intros [Hto Hne [Hb1 Hb2] Hp Hv Hc Hgas Hblob] Hcode H.
  destruct (transfer_execution _ _ _ _ _ _ Hto Hne H) as (ch & f & db1 & t & db2 & ws & Hch & H1 & H2 & Hcost & _ & Hws & Hdone).
  assert (ch = None) as -> by congruence. clear Hch.
  match type of H1 with seq_basic _ _ _ _ ?db _ = _ => remember db as db0 eqn:Hdb end.
  assert (is_lazy db0 = true /\ from_hash db0 = h (caller tx) /\ to_hash db0 = Some (h to) /\ read_accounts db0 = ∅)
    as (Hl & Hf & Ht & Hra) by (subst db0; unfold tx_to_hash; cbn -[hash_deterministic]; by rewrite Hto).
  clear Hdb. destruct (lazy_reads st journal_empty db0 tx to Hl Hf Ht Hne) as [E1 E2].
  rewrite E1 in H1. injection H1 as <- <-. rewrite E2 in H2. injection H2 as <- <-.
  assert (0 <= transfer_cost tx) as H0 by (unfold transfer_cost, is_u in *; lia).
  assert (ws = [(h (caller tx), LazySender (transfer_cost tx)); (h to, LazyRecipient (value tx))]) as ->.
  { rewrite Hws. unfold touched_write. rewrite Hl, Hf, Ht, Hra, !lookup_empty.
    rewrite decide_True by done. rewrite decide_False by by apply basic_neq. rewrite decide_True by done.
    cbn [app]. do 3 f_equal.
    unfold lazy_mock, u256_sub. cbn [ai_balance]. rewrite wrap_small; [lia|]. unfold is_u, U256_MAX in *. lia. }
  apply Hdone. cbn [fmap list_fmap fst]. rewrite !not_elem_of_cons. split_and!; [by apply basic_neq..|apply not_elem_of_nil].
Qed.

(** *** The transfer itself *)

Lemma eager_read st db a x db' : is_lazy db = false -> word_storage st a ->
  seq_basic no_error (with_storage vm st) codes journal_empty db a = Ok (x, db') ->
  exists acc, st_basic st a = Ok acc /\ is_lazy db' = false /\
    match acc with
    | None => x = None /\ db' = db
    | Some b => exists i ch, x = Some i /\ ai_balance i = balance b /\ ai_nonce i = nonce b /\
        read_accounts db' = <[h a := (b, ch)]> (read_accounts db) /\
        (h a = from_hash db -> forall n, tx_nonce (db_tx db) = Some n -> n = nonce b)
    end.
Proof.
  intros Hl Hw H. unfold seq_basic in H. rewrite Hl in H. cbn [andb] in H.
  apply outcome_bind_ok in H as (acc & Ha & H). unfold seq_account in Ha.
  assert (st_basic st a = Ok acc) as Hacc.
  { destruct (st_basic st a) as [acc'|e|] eqn:Hst; [|by destruct e|].
    - pose proof (chain_account_plain no_error st a [] acc' Hw Hst) as Hc. cbn in Hc, Ha. congruence.
    - unfold chain_account in Ha. cbn in Ha. by rewrite Hst in Ha. }
  exists acc. split; [done|]. destruct acc as [b|]; [|injection H as <- <-; by split_and!].
  destruct (_ && _) eqn:Hn; [done|]. apply outcome_bind_ok in H as (ch & _ & (code & _ & [= <- <-])%outcome_bind_ok).
  split; [done|]. eexists _, ch. split_and!; [done..|]. intros Hf n Hx. rewrite Hx, bool_decide_eq_true_2 in Hn by done.
  by apply negb_false_iff, Z.eqb_eq in Hn.
Qed.

(** What was checked of the sender [f]. *)
Definition sender_ok (tx : TxEnv) (f : AccountBasic) : Prop :=
  max_fee tx <= balance f /\ nonce f <> U64_MAX /\ forall n, tx_nonce tx = Some n -> n = nonce f.

(** What the writes of the eager transfer make of the two accounts. *)
Lemma eager_output st i tx to out : transfer_ok (coinbase block_env) tx to -> (forall a, word_storage st a) ->
  execute_plain st i tx false = Ok out ->
  exists f acc, st_basic st (caller tx) = Ok (Some f) /\ sender_ok tx f /\ st_basic st to = Ok acc /\
    receipt out.1 = mkReceipt true 21000 [] /\
    out.2 = [(h (caller tx), VBasic (mkAccountBasic (balance f - transfer_cost tx) (u64_add (nonce f) 1)))] ++
      (if decide (value tx = 0) then [] else [(h to, VBasic (mkAccountBasic (bal acc + value tx) (cnt acc)))]) ++
      [(h (coinbase block_env), LazyRecipient (transfer_reward tx))].
Proof.
  intros [Hto Hne [Hb1 Hb2] Hp Hv Hc Hgas Hblob] Hw H.
  destruct (transfer_execution _ _ _ _ _ _ Hto Hne H) as (ch & f & db1 & t & db2 & ws & _ & H1 & H2 & Hcost & Hnm & Hws & Hdone).
  apply eager_read in H1 as (facc & Hfa & Hl1 & Hfacc); [|done|apply Hw].
  apply eager_read in H2 as (acc & Hacc & Hl2 & Hto2); [|done|apply Hw].
  destruct facc as [fb|]; [|by destruct Hfacc]. destruct Hfacc as (fi & fch & [= <-] & Hfb & Hfn & Hr1 & Hnonce). cbn [read_accounts] in Hr1.
  exists fb, acc. split; [done|].
  split; [split; [lia|]; split; [congruence|exact (Hnonce eq_refl)]|]. split; [done|].
  assert (is_u 256 (balance fb) /\ is_u 64 (nonce fb)) as [Hwb Hwn] by by apply (Hw (caller tx)).
  assert (u64_add (nonce fb) 1 = nonce fb + 1) as Hn1.
  { unfold u64_add. apply wrap_small. rewrite Hfn in Hnm. unfold is_u, U64_MAX in *. lia. }
  assert (read_accounts db2 !! h (caller tx) = Some (fb, fch)) as Hrc.
  { destruct acc as [b|]; [destruct Hto2 as (i' & ch' & _ & _ & _ & -> & _); rewrite lookup_insert_ne by by apply basic_neq|
      destruct Hto2 as [_ ->]]; rewrite Hr1; apply lookup_insert_eq. }
  assert (touched_write db2 tx (caller tx) (ai_balance f - transfer_cost tx) (u64_add (ai_nonce f) 1) =
    [(h (caller tx), VBasic (mkAccountBasic (balance fb - transfer_cost tx) (u64_add (nonce fb) 1)))]) as Hwc.
  { unfold touched_write. rewrite Hrc, Hl2, Hfb, Hfn, Hn1.
    replace (nonce fb =? nonce fb + 1) with false by (symmetry; apply Z.eqb_neq; lia). cbn [negb orb].
    replace (nonce fb + 1 =? 0) with false by (symmetry; apply Z.eqb_neq; unfold is_u in Hwn; lia). by rewrite andb_false_r. }
  assert (touched_write db2 tx to (from_option ai_balance 0 t + value tx) (from_option ai_nonce 0 t) =
    if decide (value tx = 0) then [] else [(h to, VBasic (mkAccountBasic (bal acc + value tx) (cnt acc)))]) as Hwt.
  { unfold touched_write. rewrite Hl2. destruct acc as [b|].
    - destruct Hto2 as (ti & tch & -> & Hb & Hn & -> & _). rewrite lookup_insert_eq. cbn [from_option bal cnt]. rewrite Hb, Hn, Z.eqb_refl.
      cbn [negb orb]. assert (is_u 256 (balance b)) as Hbw by by apply (Hw to). unfold is_u in *.
      destruct (Z.eqb_spec (balance b) (balance b + value tx)); cbn [negb]; case_decide; try lia; [done|].
      destruct (Z.eqb_spec (balance b + value tx) 0); [lia|]. done.
    - destruct Hto2 as [-> ->]. rewrite Hr1, lookup_insert_ne, lookup_empty by by apply basic_neq. cbn [from_option bal cnt].
      rewrite Z.add_0_l. destruct (Z.eqb_spec (value tx) 0); case_decide; try lia; done. }
  rewrite Hwc, Hwt in Hws. subst ws. destruct Hdone as [Hrec ->].
  { rewrite fmap_app. cbn [fmap list_fmap fst]. intros [Hin|Hin]%elem_of_app.
    - apply list_elem_of_singleton in Hin. by apply basic_neq in Hin.
    - case_decide; [by apply elem_of_nil in Hin|]. apply list_elem_of_singleton in Hin. by apply basic_neq in Hin. }
  split; [done|]. by rewrite app_assoc.
Qed.

(** *** The interface *)

Lemma code_not_lazy st i tx to ch : transact_to tx = Call to -> st_code_hash st to = Ok (Some ch) ->
  execute_plain st i tx true = execute_plain st i tx false.
Proof.
  intros Hto Hc. unfold plain_execute, seq_execute, seq_new. rewrite Hto.
  assert (seq_code_hash no_error (with_storage vm st) journal_empty to = Ok (Some ch)) as -> by by apply from_storage_ok.
  done.
Qed.

(** Where the writes of an output are, for one of its accounts or no account. *)
Lemma not_basic l a v ws : (forall b, l <> Basic b) -> last_write (hash_deterministic l) ((h a, v) :: ws) = last_write (hash_deterministic l) ws.
Proof.
  intros Hl. cbn [last_write]. rewrite decide_False by (intros H%demo_hash_injective; by apply (Hl a)). by destruct (last_write _ ws).
Qed.

Lemma other_basic a b v ws : a <> b -> last_write (h b) ((h a, v) :: ws) = last_write (h b) ws.
Proof. intros Hne. cbn [last_write]. rewrite decide_False by by apply basic_neq. by destruct (last_write _ ws). Qed.

Lemma this_basic a v ws : last_write (h a) ws = None -> last_write (h a) ((h a, v) :: ws) = Some v.
Proof. intros H. cbn [last_write]. rewrite H. by rewrite decide_True. Qed.

Lemma sender_after (f b : AccountBasic) cost n : n = u64_add (nonce f) 1 -> 0 <= cost ->
  write_account (VBasic (mkAccountBasic (balance f - cost) n)) (Ok (E := Empty_set) (Some f)) = Ok (Some b) -> 0 < balance b ->
  write_account (LazySender cost) (Ok (E := Empty_set) (Some f)) = write_account (VBasic (mkAccountBasic (balance f - cost) n)) (Ok (Some f)).
Proof.
  intros -> H0. cbn. destruct (decide (word_account _)) as [Hwd|]; [|done]. intros [= <-]. cbn. intros Hpos.
  by rewrite decide_True by lia.
Qed.

Lemma recipient_unchanged (acc : option AccountBasic) : (forall b, acc = Some b -> word_account b) ->
  write_account (LazyRecipient 0) (Ok (E := Empty_set) acc) = Ok acc.
Proof.
  intros Hw. destruct acc as [b|]; [|done]. cbn. rewrite Z.add_0_r. specialize (Hw b eq_refl). destruct b as [bb bn].
  by rewrite decide_True.
Qed.

Lemma recipient_after (acc old : option AccountBasic) v : is_u 256 v -> v <> 0 ->
  write_account (LazyRecipient v) (Ok (E := Empty_set) acc) =
  write_account (VBasic (mkAccountBasic (bal acc + v) (cnt acc))) (Ok (E := Empty_set) old).
Proof.
  intros Hv H0. destruct acc as [b|]; cbn.
  - destruct (decide (word_account _)) as [Hwd|Hwd]; [by rewrite decide_True by (unfold is_u in Hv; naive_solver lia)|].
    rewrite decide_False; [done|]. by intros [_ ?].
  - rewrite decide_False by done. by rewrite !decide_True by (done || (split; [cbn; by rewrite Z.add_0_l|done])).
Qed.

#[export] Instance transfers_lazy : LazyTransfers no_error vm codes.
Proof.
  split. intros st i tx out out' Htx Hs Hw H H' Hsound.
  destruct (Htxs tx) as [to Hok]; [by eapply list_elem_of_lookup_2|].
  pose proof Hok as [Hto Hne [Hb1 Hb2] Hp Hv Hc Hgas Hblob].
  destruct (transfer_execution _ _ _ _ _ _ Hto Hne H') as ([ch|] & _ & _ & _ & _ & _ & Hch & _).
  { rewrite (code_not_lazy _ _ _ _ _ Hto Hch) in H. assert (out = out') as -> by congruence. apply same_transfer_refl. }
  destruct (lazy_output _ _ _ _ _ Hok Hch H) as [Hr Hws].
  destruct (eager_output _ _ _ _ _ Hok Hw H') as (f & acc & Hf & _ & Hacc & Hr' & Hws').
  destruct Hsound as [_ _ (b & Hb & Hpos)]. unfold storage_after in Hb. cbn [st_basic] in Hb.
  split; [by rewrite Hr, Hr'|]. rewrite Hws, Hws' in *. cbn [app] in *.
  split.
  - split_and!; cbn [storage_after st_basic st_code_hash st_code_by_hash st_has_storage st_storage st_block_hash]; try done.
    + intros a. destruct (decide (a = caller tx)) as [->|Hac]; [|destruct (decide (a = to)) as [->|Hat]].
      * rewrite !this_basic, Hf by (case_decide; cbn [app]; by rewrite ?other_basic by done).
        rewrite this_basic in Hb by (case_decide; cbn [app]; by rewrite ?other_basic by done).
        eapply sender_after; [done|unfold transfer_cost, is_u in *; lia|exact Hb|exact Hpos].
      * rewrite !(other_basic (caller tx)) by done. rewrite this_basic by by rewrite other_basic.
        case_decide as Hv0; cbn [app]; [rewrite other_basic by done|rewrite this_basic by by rewrite other_basic].
        -- rewrite Hacc, Hv0. apply recipient_unchanged. intros b' ->. by apply (Hw to).
        -- rewrite Hacc. by apply recipient_after.
      * rewrite !(other_basic (caller tx)), !(other_basic to) by done.
        assert (forall l, last_write (h a) ((if decide (value tx = 0) then [] else [(h to, VBasic (mkAccountBasic (bal acc + value tx) (cnt acc)))]) ++ l)
          = last_write (h a) l) as -> by (intros l; case_decide; cbn [app]; by rewrite ?other_basic by done). done.
    + intros a. rewrite !not_basic by done. case_decide; cbn [app]; rewrite ?not_basic by done; done.
    + intros a slot. rewrite !not_basic by done. case_decide; cbn [app]; rewrite ?not_basic by done; done.
  - cbn [snd]. intros a. rewrite !last_write_Some. cbn [fmap list_fmap fst]. rewrite !elem_of_cons.
    case_decide; cbn [app fmap list_fmap fst]; rewrite ?elem_of_cons; tauto.
Qed.

(** The writes of an account are at that account. *)
Lemma touched_write_at db tx a bal n l : l ∈ (touched_write db tx a bal n).*1 -> l = h a.
Proof.
  unfold touched_write. destruct (match read_accounts db !! h a with Some _ => _ | None => _ end);
    [|by intros ?%elem_of_nil]. destruct (is_lazy db); [repeat case_decide|destruct (negb _)];
    try (by intros ?%elem_of_nil); by intros ?%list_elem_of_singleton.
Qed.

Lemma transfer_reported tx to f t r : exists res, from_revm transfer_chain tt (mkResultAndState r (transfer_state tx to f t)) = Ok res.
Proof.
  assert (forall i, is_empty_code_hash i = true -> exists x, transition true (touched_account i) = Ok x) as Hone.
  { intros i Hi. unfold transition. destruct (_ || _); [by eexists|]. unfold EvmAccount_from. cbn [info touched_account].
    rewrite Hi. cbn. by eexists. }
  unfold from_revm, transfer_state. cbn [is_eip_161_enabled transfer_chain state transitions].
  change (is_touched (touched_account ?i)) with true. cbv iota.
  destruct (Hone (plain_info (ai_balance f - transfer_cost tx) (u64_add (ai_nonce f) 1)) eq_refl) as [x ->].
  destruct (Hone (plain_info (from_option ai_balance 0 t + value tx) (from_option ai_nonce 0 t)) eq_refl) as [y ->].
  cbn. by eexists.
Qed.

(** With a sender who has all the money there is, nothing is left to check. *)
#[export] Instance transfers_succeed : LazySucceeds no_error vm codes.
Proof.
  split. intros st i tx out' Htx Hs Hw H' Hsound.
  destruct (Htxs tx) as [to Hok]; [by eapply list_elem_of_lookup_2|].
  pose proof Hok as [Hto Hne [Hb1 Hb2] Hp Hv Hc Hgas Hblob].
  destruct (transfer_execution _ _ _ _ _ _ Hto Hne H') as ([ch|] & _ & _ & _ & _ & _ & Hch & _).
  { exists out'. by rewrite (code_not_lazy _ _ _ _ _ Hto Hch). }
  destruct (eager_output _ _ _ _ _ Hok Hw H') as (f & acc & Hf & (Hfee & Hmax & Hn) & _).
  destruct (Hw (caller tx) f Hf) as [Hwf _].
  set (db0 := mkVmDb i tx (tx_from_hash tx) (tx_to_hash tx) None true ∅ ∅).
  assert (to_hash db0 = Some (h to)) as Hth by (subst db0; unfold tx_to_hash; cbn -[hash_deterministic]; by rewrite Hto).
  destruct (lazy_reads st journal_empty db0 tx to eq_refl eq_refl Hth Hne) as [E1 E2].
  assert (seq_run no_error (with_storage vm st) codes journal_empty (transfer_evm tx) db0 =
    Ok ((inr (mkResultAndState (mkExecutionResult true 21000 []) (transfer_state tx to (lazy_mock db0) None)), None), db0)) as Hrun.
  { unfold transfer_evm. rewrite Hto, decide_False by done. cbn [seq_run]. rewrite E1. cbn [mbind outcome_bind]. rewrite E2.
    cbn [mbind outcome_bind]. destruct (Z.ltb_spec (ai_balance (lazy_mock db0)) (max_fee tx)) as [Hlt|_].
    { exfalso. unfold lazy_mock, is_u, U256_MAX in *. cbn in Hlt. lia. }
    destruct (Z.eqb_spec (ai_nonce (lazy_mock db0)) U64_MAX) as [He|_]; [|done].
    exfalso. unfold lazy_mock in He. cbn in He. destruct (tx_nonce tx) as [n|] eqn:Hx; [|done].
    cbn in He. specialize (Hn n eq_refl). congruence. }
  destruct (transfer_reported tx to (lazy_mock db0) None (mkExecutionResult true 21000 [])) as [res Hres].
  eexists. unfold plain_execute, seq_execute, seq_new. rewrite Hto.
  assert (seq_code_hash no_error (with_storage vm st) journal_empty to = Ok None) as -> by by apply from_storage_ok.
  cbn [mbind outcome_bind]. change (true && bool_decide (None = None)) with true. fold db0.
  cbn [build_evm vm_chain vm_spec_id vm_block_env with_storage Vm_new transfer_chain]. rewrite Hrun. cbn [map_err mbind outcome_bind].
  cbn [state result gas_used is_eip_161_enabled]. rewrite transfer_writes. cbn [mbind outcome_bind].
  rewrite Hres.
  unfold apply_rewards, rewards. cbn -[hash_deterministic touched_write sat_mul reward_gas_price lazy_mock].
  rewrite add_reward_fresh; [reflexivity|].
  rewrite fmap_app. intros [Hin%touched_write_at|Hin%touched_write_at]%elem_of_app; by apply basic_neq in Hin.
Qed.

(** The EVM checks the funds, the database the nonce. *)
#[export] Instance transfers_checked : CheckedSenders no_error vm codes.
Proof.
  split. intros st i tx out Htx Hs Hw H. destruct (Htxs tx) as [to Hok]; [by eapply list_elem_of_lookup_2|].
  destruct (eager_output _ _ _ _ _ Hok Hw H) as (f & acc & Hf & (Hfee & Hmax & Hn) & _ & _ & Hws).
  destruct Hok as [Hto Hne [Hb1 Hb2] _ _ _ _ _]. split; [by rewrite Hf; intros t [= <-]|].
  intros expected t Hx. apply Hn in Hx as ->. rewrite Hws. cbn [storage_after st_basic app].
  rewrite this_basic by (case_decide; cbn [app]; by rewrite ?other_basic by done). clear Hws. cbn. case_decide; [|done]. intros [= <-].
  destruct (Hw (caller tx) f Hf) as [_ Hwn]. unfold u64_add. cbn. rewrite wrap_small by (unfold is_u, U64_MAX in *; lia).
  unfold is_u in Hwn. lia.
Qed.

Lemma transfer_states : states_are_maps vm.
Proof.
  intros tx. cbn [vm_chain vm_spec_id vm_block_env Vm_new transfer_chain build_evm]. unfold transfer_evm.
  destruct (transact_to tx) as [|to]; [done|]. case_decide as Hne; [done|]. cbn [all_results fst]. intros f t.
  destruct f as [f|]; [|done]. destruct (_ <? _); [done|]. destruct (_ =? _); [done|].
  cbn [state]. unfold transfer_state. cbn [fmap list_fmap fst].
  apply NoDup_cons. split; [by intros <-%list_elem_of_singleton|apply NoDup_singleton].
Qed.

#[export] Instance transfer_laws : ChainLaws transfer_chain.
Proof. by apply beneficiary_laws. Qed.
End Transfers.

(** ** Witness

    Account 7 pays account 8 twice.  The first payment is an ordinary one; for the
    second both accounts are in the memory, so it is lazy. *)
Section Demo.
#[local] Existing Instance demo.

Definition purse : Storage Empty_set :=
  InMemory_storage (mkInMemoryStorage {[ 7 := mkEvmAccount 1000000000 0 None None ∅ ]} ∅ ∅).
Definition pay (n amount : Z) : TxEnv :=
  mkTxEnv 7 100000 10 None (Call 8) amount [] (Some n) None [] [] None None None None None None.
Definition payments : list TxEnv := [pay 0 100; pay 1 200].
Abbreviation pay_vm := (Vm_new purse transfer_chain (demo_block_env 3 2) payments tt).
Abbreviation h a := (hash_deterministic (Basic a)).

(** Worker 0 does all the work. *)
Definition pay_schedule : list nat := replicate 19 0%nat ++ [1%nat].

Lemma payments_ok tx : tx ∈ payments -> exists to, transfer_ok (coinbase (demo_block_env 3 2)) tx to.
Proof.
  intros Htx. exists 8. unfold payments in Htx. rewrite !elem_of_cons, elem_of_nil in Htx.
  destruct Htx as [->|[->|[]]]; split; by vm_compute.
Qed.

Definition calm_at (st : Storage Empty_set) (a : Address) : bool :=
  match st_basic st a with Ok (Some b) => balance b <? U256_MAX | Ok None => true | _ => false end.

Lemma pay_calm st v7 v8 v3 : (forall a, calm_at st a) ->
  let st' := storage_after [(h 7, v7); (h 8, v8); (h 3, v3)] st in
  calm_at st' 7 -> calm_at st' 8 -> calm_at st' 3 -> forall a, calm_at st' a.
Proof.
  intros Hst st' H7 H8 H3 a. destruct (decide (a = 7)) as [->|]; [done|]. destruct (decide (a = 8)) as [->|]; [done|].
  destruct (decide (a = 3)) as [->|]; [done|]. subst st'. unfold calm_at, storage_after. cbn [st_basic].
  rewrite !other_basic by done. apply Hst.
Qed.

Lemma calm_sound st caller b : (forall a, calm_at st a) -> st_basic st caller = Ok (Some b) -> 0 < balance b -> sound st caller.
Proof.
  intros Hc Hb Hp. split.
  - intros a Hp'. specialize (Hc a). unfold calm_at in Hc. by rewrite Hp' in Hc.
  - intros a b' Hb'. specialize (Hc a). unfold calm_at in Hc. rewrite Hb' in Hc. by apply Z.ltb_lt, Is_true_true.
  - by exists b.
Qed.

Definition pay_writes (b7 n7 b8 : Z) : WriteSet :=
  [(h 7, VBasic (mkAccountBasic b7 n7)); (h 8, VBasic (mkAccountBasic b8 0)); (h 3, LazyRecipient 168000)].

Lemma payments_plain codes : exists o0 o1,
  plain_block no_error pay_vm codes 0 [pay 0 100] [] purse =
    Ok ([(o0, pay_writes 999789900 1 100)], storage_after (pay_writes 999789900 1 100) purse) /\
  plain_block no_error pay_vm codes 0 payments [] purse =
    Ok ([(o0, pay_writes 999789900 1 100); (o1, pay_writes 999579700 2 300)],
        storage_after (pay_writes 999579700 2 300) (storage_after (pay_writes 999789900 1 100) purse)) /\
  receipt o0 = mkReceipt true 21000 [] /\ receipt o1 = mkReceipt true 21000 [].
Proof.
  assert (exists o, plain_execute no_error pay_vm codes purse 0 (pay 0 100) false = Ok (o, pay_writes 999789900 1 100) /\
    receipt o = mkReceipt true 21000 []) as (o0 & H0 & Hr0) by (eexists; split; [vm_compute; reflexivity|done]).
  assert (exists o, plain_execute no_error pay_vm codes (storage_after (pay_writes 999789900 1 100) purse) 1 (pay 1 200) false =
      Ok (o, pay_writes 999579700 2 300) /\
    receipt o = mkReceipt true 21000 []) as (o1 & H1 & Hr1) by (eexists; split; [vm_compute; reflexivity|done]).
  exists o0, o1. split; [|split; [|by split]]; unfold plain_block, payments; cbn [run_block];
    (apply outcome_bind_ok; eexists (_, _); split; [exact H0|]); [done|].
  apply outcome_bind_ok. eexists (_, _). split; [apply outcome_bind_ok; eexists (_, _); split; [exact H1|reflexivity]|done].
Qed.

Lemma purse_basic a : st_basic purse a = Ok (if decide (a = 7) then Some (mkAccountBasic 1000000000 0) else None).
Proof.
  destruct (decide (a = 7)) as [->|Hne]; [done|]. unfold purse. cbn [st_basic InMemory_storage].
  cbn. by rewrite lookup_singleton_ne.
Qed.

Lemma purse_code_hash a : st_code_hash purse a = Ok None.
Proof.
  destruct (decide (a = 7)) as [->|Hne]; [done|]. unfold purse. cbn [st_code_hash InMemory_storage].
  cbn. by rewrite lookup_singleton_ne.
Qed.

Lemma payments_sound outs n : outs.*2 = take n [pay_writes 999789900 1 100; pay_writes 999579700 2 300] ->
  sound_run purse (take n payments) outs.
Proof.
  intros Hw. assert (forall a, calm_at purse a) as H0.
  { intros a. unfold calm_at. rewrite purse_basic. by case_decide. }
  assert (forall a, calm_at (storage_after (pay_writes 999789900 1 100) purse) a) as H1
    by (apply pay_calm; [done|by vm_compute..]).
  assert (forall a, calm_at (storage_after (pay_writes 999579700 2 300) (storage_after (pay_writes 999789900 1 100) purse)) a) as H2
    by (apply pay_calm; [done|by vm_compute..]).
  intros k tx [Hk Hkn]%lookup_take_Some. rewrite Hw, take_take, Nat.min_l by lia.
  destruct k as [|[|k]]; [| |done]; injection Hk as <-; cbn [take].
  - eapply calm_sound; [exact H1|by vm_compute|done].
  - eapply calm_sound; [exact H2|by vm_compute|done].
Qed.

Lemma purse_words : storage_of_words purse.
Proof.
  intros a. unfold word_storage. rewrite purse_basic. split; [by eexists|].
  case_decide; [by intros b [= <-]|by intros b].
Qed.

Lemma payments_joined : exists s, preachable no_error pay_vm [] 2 s /\ abort_reason s = None /\ all_exited s /\
  mem s = mem (scheduled no_error pay_vm [] 2 pay_schedule) /\
  execution_results s = execution_results (scheduled no_error pay_vm [] 2 pay_schedule).
Proof.
  destruct (scheduled_reachable no_error pay_vm [] 2 pay_schedule) as (s & Hr & Ha & Hb & Hm & _ & Hres & _);
    [by vm_compute|lia|eexists; vm_compute; reflexivity|].
  exists s. split; [done|]. split; [done|]. split; [|by split].
  unfold all_exited. rewrite Hb. intros w x Hw. vm_compute in Hw.
  destruct w as [|[|w]]; [injection Hw as <-; by eexists..|done].
Qed.

Lemma purse_serves : storage_serves purse.
Proof. intros a. rewrite purse_code_hash. by exists None. Qed.

(** The second payment is lazy, and reported with what it leaves: 999579700 and 300. *)
Lemma valid_block_reported_witness : exists s results,
  preachable no_error pay_vm [] 2 s /\
  entry (data (mem s)) (h 7) 1%nat = Some (Data 0 (LazySender 210200)) /\
  finalise (BSE := unit) (TE := unit) no_error transfer_chain purse tt payments (mem s) [7; 3; 8] (execution_results s) = Ok results /\
  (cumulative_gas_used ∘ receipt) <$> results = [21000; 42000] /\
  (forall r, results !! 1%nat = Some r -> exists x y, tx_state r !! 7 = Some x /\ tx_state r !! 8 = Some y /\
     from_option ea_balance 0 x = 999579700 /\ from_option ea_nonce 0 x = 2 /\ from_option ea_balance 0 y = 300).
Proof.
  destruct payments_joined as (s & Hr & Ha & Hex & Hm & Hres).
  destruct (payments_plain ∅) as (o0 & o1 & _ & Hplain & Hr0 & Hr1).
  assert (new_bytecodes (mem s) = ∅) as Hc by (rewrite Hm; vm_compute; reflexivity).
  destruct (valid_block_reported (BSE := unit) (TE := unit) no_error transfer_chain purse tt (demo_block_env 3 2) payments [] 2
    s [7; 3; 8] [(o0, pay_writes 999789900 1 100); (o1, pay_writes 999579700 2 300)]
    (storage_after (pay_writes 999579700 2 300) (storage_after (pay_writes 999789900 1 100) purse)))
    as (results & Hfin & Hreceipts & Hrep).
  - by vm_compute.
  - lia.
  - exact demo_hash_injective.
  - apply transfer_states.
  - exact purse_words.
  - exact purse_serves.
  - exact Hr.
  - intros b code Hb. by rewrite purse_code_hash in Hb.
  - apply transfers_lazy. exact payments_ok.
  - apply transfers_checked. exact payments_ok.
  - exact Ha.
  - exact Hex.
  - rewrite Hm. vm_compute. reflexivity.
  - rewrite Hc. exact Hplain.
  - by apply (payments_sound _ 2%nat).
  - exists s, results. split; [exact Hr|]. split; [rewrite Hm; vm_compute; reflexivity|]. split; [exact Hfin|]. split.
    + assert (receipt <$> [o0; o1] = receipt <$> [mkPexeTxExecutionResult (mkReceipt true 21000 []) ∅;
        mkPexeTxExecutionResult (mkReceipt true 21000 []) ∅]) as Hrec by (cbn [fmap list_fmap]; by rewrite Hr0, Hr1).
      rewrite list_fmap_compose, Hreceipts. transitivity (cumulative_gas_used <$> (receipt <$> accumulate_gas 0
        [mkPexeTxExecutionResult (mkReceipt true 21000 []) ∅; mkPexeTxExecutionResult (mkReceipt true 21000 []) ∅])); [|done].
      apply f_equal. exact (accumulate_gas_receipts 0 _ _ Hrec).
    + intros r Hri.
      destruct (Hrep 1%nat o1 _ r 7 eq_refl Hri) as (x & t & Hx & Ht & Hb & Hn); [by eexists; vm_compute|].
      destruct (Hrep 1%nat o1 _ r 8 eq_refl Hri) as (y & u & Hy & Hu & Hb' & _); [by eexists; vm_compute|].
      exists x, y. vm_compute in Ht. injection Ht as <-. vm_compute in Hu. injection Hu as <-.
      split; [exact Hx|]. split; [exact Hy|]. split; [exact Hb|]. split; [exact Hn|exact Hb'].
Defined.

Lemma payments_valid (s : pstate) : valid_at no_error transfer_chain purse tt (demo_block_env 3 2) payments s.
Proof.
  split.
  - intros b code Hb. by rewrite purse_code_hash in Hb.
  - apply transfers_lazy. exact payments_ok.
  - apply transfers_succeed. exact payments_ok.
  - apply transfers_checked. exact payments_ok.
  - intros p _. destruct (payments_plain (new_bytecodes (mem s))) as (o0 & o1 & H1 & H2 & _). destruct p as [|p].
    + eexists _, _. split; [exact H1|]. by apply (payments_sound _ 1%nat).
    + assert (take (S (S p)) payments = payments) as -> by (apply take_ge; cbn; lia).
      eexists _, _. split; [exact H2|]. by apply (payments_sound _ 2%nat).
Qed.

(** Both workers hold a payment; the second cannot be executed before the first. *)
Lemma valid_block_answered_witness : exists s, preachable no_error pay_vm [] 2 s /\ abort_reason s = None /\
  workers (base s) = [HasTask (Execution (mkTxVersion 0 0)); HasTask (Execution (mkTxVersion 1 0))] /\
  exists s' kept' results, rtc (pstep no_error pay_vm) s s' /\
    (forall w x, workers (base s') !! w = Some x -> x = Exited None) /\
    execute_revm_parallel (BSE := unit) (TE := unit) no_error transfer_chain gap_db purse tt (demo_block_env 3 2) payments 2 [] kept' (Ok results).
Proof.
  destruct (scheduled_reachable no_error pay_vm [] 2 [0%nat; 1%nat]) as (s & Hr & Ha & Hb & _);
    [by vm_compute|lia|eexists; vm_compute; reflexivity|].
  exists s. split; [exact Hr|]. split; [exact Ha|]. split; [rewrite Hb; vm_compute; reflexivity|].
  destruct (valid_block_answered (BSE := unit) (TE := unit) no_error transfer_chain gap_db purse tt (demo_block_env 3 2) payments [] 2 s
    ltac:(by vm_compute) ltac:(lia) ltac:(done) demo_hash_injective purse_words purse_serves (fun s' _ _ => payments_valid s') Hr Ha)
    as (s' & Hrtc & _ & Hex & Hans).
  destruct (Hans _ (reflexivity _)) as (kept' & results & _ & Hp).
  exists s', kept', results. split; [exact Hrtc|]. split; [exact Hex|exact Hp].
Defined.
End Demo.
