(* ===== verification/PerpTypes.v ===== *)
(** * PerpTypes: the data of the PerpDex module (perpdex/types.rs)

    Transactions, operations, orders and results as the sources declare them. *)

From S2P Require Import Prelude Types.
#[local] Open Scope Z_scope.

Inductive OrderType :=
| Limit
| Market
| StopLimit
| StopMarket.

Inductive Side :=
| Long
| Short.

Inductive OrderStatus :=
| Open
| PartiallyFilled
| Filled
| Cancelled
| Expired.

#[export] Instance OrderType_eq_dec : EqDecision OrderType.
Proof. solve_decision. Defined.
#[export] Instance Side_eq_dec : EqDecision Side.
Proof. solve_decision. Defined.
#[export] Instance OrderStatus_eq_dec : EqDecision OrderStatus.
Proof. solve_decision. Defined.

Inductive Operation :=
| PlaceOrder (market_id : Z) (order_type : OrderType) (side : Side) (price size : U256) (leverage : Z)
    (post_only reduce_only : bool) (expires_at : option Z)
| CancelOrder (market_id : Z) (order_ids : list Z)
| CancelAll (market_id : option Z)
| SetLeverage (market_id : Z) (leverage : Z)
| AdjustMargin (market_id : Z) (amount : U256).

#[export] Instance Operation_eq_dec : EqDecision Operation.
Proof. solve_decision. Defined.

Definition is_place_order (op : Operation) : bool := match op with PlaceOrder _ _ _ _ _ _ _ _ _ => true | _ => false end.

Record PerpDexTx := mkPerpDexTx {
  user : Address;
  operations : list Operation;
  tx_gas_limit : Z;
  tx_gas_price : U256;
  perp_nonce : Z;
  signature : option (list Z);
}.

Inductive OperationResult :=
| OrderPlaced (order_id : Z) (filled_size : U256)
| OrdersCancelled (order_ids : list Z)
| LeverageUpdated (market_id : Z) (leverage : Z)
| MarginAdjusted (market_id : Z) (amount : U256).

Record PerpDexResult := mkPerpDexResult {
  perp_gas_used : Z;
  operations_executed : list OperationResult;
}.
