(* ===== verification/PerpTraits.v ===== *)
(** * PerpTraits: the interface of a VM of the multi-VM framework

    Models perpdex/state_traits.rs (partitions, [VmMetadata], the traits
    [StateLocation] and [StateValue]) and perpdex/executor_traits.rs (read and write
    sets over any location and value, execution results, the trait [VmExecutor]).  A
    trait is a class; its default bodies are the definitions that end in
    [_default].  The laws that the doc comments of the traits state are the classes
    [PartitionedLocation] and [VmExecutorLaws]. *)

From S2P Require Import Prelude Types.
#[local] Open Scope Z_scope.

(** ** Partitions *)

Abbreviation PartitionId := Z (only parsing).
Definition EVM : PartitionId := 0.
Definition WASM : PartitionId := 1.
Definition PERPDEX : PartitionId := 2.

Definition mix_hash (p : PartitionId) (base_hash : Z) : Z :=
  Z.lor (wrap 64 (Z.shiftl p 56)) (Z.land base_hash 0x00FFFFFFFFFFFFFF).

Definition from_hash (mixed_hash : Z) : PartitionId := wrap 8 (Z.shiftr mixed_hash 56).

(** ** [VmMetadata]

    [TypeId]s are keys, [Val t] are the values of the type with id [t].  An
    [Arc<dyn Any>] is an allocation with the type it was created at. *)
Section Metadata.
Context {TypeId : Type} `{Countable TypeId} (Val : TypeId -> Type) (default_of : forall t, Val t).

Record any := mkAny { arc : nat; any_type : TypeId; any_value : Val any_type }.

Record VmMetadata := mkVmMetadata {
  inner : gmap TypeId any;
  allocated : nat;                (* allocations made so far *)
}.

Definition VmMetadata_new : VmMetadata := mkVmMetadata ∅ 0.

(** [Arc::downcast::<T>]: the allocation at type [t]. *)
Definition downcast (a : any) (t : TypeId) : option (nat * Val t) :=
  match decide (any_type a = t) with
  | left e => Some (arc a, eq_rect _ Val (any_value a) _ e)
  | right _ => None
  end.

(** [get_or_insert::<T>]; [expect] panics on a failed downcast. *)
Definition get_or_insert (m : VmMetadata) (t : TypeId) : outcome Empty_set ((nat * Val t) * VmMetadata) :=
  let '(a, m) := match inner m !! t with
    | Some a => (a, m)
    | None =>
        let a := mkAny (allocated m) t (default_of t) in
        (a, mkVmMetadata (<[t := a]> (inner m)) (S (allocated m)))
    end in
  match downcast a t with Some r => Ok (r, m) | None => Panic end.

Definition metadata_get (m : VmMetadata) (t : TypeId) : option (nat * Val t) :=
  a ← inner m !! t; downcast a t.

Definition metadata_insert (m : VmMetadata) (t : TypeId) (v : Val t) : VmMetadata :=
  mkVmMetadata (<[t := mkAny (allocated m) t v]> (inner m)) (S (allocated m)).
End Metadata.

(** ** The traits of locations and values

    The derived traits ([Clone], [Debug], [Hash], [Send], ...) carry nothing here. *)

Class StateLocation (L : Type) := {
  location_hash : L -> Z;
  partition_id : L -> PartitionId;
}.

Class StateValue (V : Type) := {
  is_lazy : V -> bool;
  is_deleted : V -> bool;
}.

(** The default bodies. *)
Definition is_lazy_default {V} (_ : V) : bool := false.
Definition is_deleted_default {V} (_ : V) : bool := false.

(** "This hash is mixed with the partition ID". *)
Class PartitionedLocation (L : Type) `{StateLocation L} : Prop := {
  partition_is_byte l : is_u 8 (partition_id l);
  location_hash_mixed l : exists base, location_hash l = mix_hash (partition_id l) base;
}.

(** ** Read and write sets *)

Section Sets.
Context {L : Type} `{StateLocation L}.

Record PerpReadSet := mkPerpReadSet {
  rs_data : gmap Z ReadOrigins;
  rs_locations : list L;
}.
Definition ReadSet_new : PerpReadSet := mkPerpReadSet ∅ [].

Definition ReadSet_insert (rs : PerpReadSet) (l : L) (origin : ReadOrigin) : PerpReadSet :=
  let hash := location_hash l in
  mkPerpReadSet (<[hash := default [] (rs_data rs !! hash) ++ [origin]]> (rs_data rs))
    (if existsb (fun l' => location_hash l' =? hash) (rs_locations rs)
     then rs_locations rs else rs_locations rs ++ [l]).

Definition ReadSet_is_empty (rs : PerpReadSet) : bool := bool_decide (rs_data rs = ∅).

Definition WriteSet_push {V} (ws : list (Z * L * V)) (l : L) (v : V) : list (Z * L * V) :=
  ws ++ [(location_hash l, l, v)].
End Sets.
#[global] Arguments PerpReadSet L : clear implicits.
Abbreviation PerpWriteSet L V := (list (Z * L * V)).

(** [VmExecutionResult] of executor_traits.rs; [E] are the boxed errors. *)
Inductive PerpExecutionResult (L V R E : Type) :=
| Success (read_set : PerpReadSet L) (write_set : PerpWriteSet L V) (result : R) (flags : Z)
| Blocked (tx : TxIdx)
| PerpRetry
| PerpFallbackToSequential
| Error (e : E).
Arguments Success {L V R E}.
Arguments Blocked {L V R E}.
Arguments PerpRetry {L V R E}.
Arguments PerpFallbackToSequential {L V R E}.
Arguments Error {L V R E}.

(** The placeholder of the multi-version memory: a struct without fields. *)
Inductive PerpMvMemory := MkPerpMvMemory.

(** ** The trait [VmExecutor]

    The associated types are parameters.  An executor is shared by the workers and
    may hold atomics, so [vm_execute] also gives the executor afterwards. *)

Class VmExecutor (X L V Tx R St E : Type) `{StateLocation L} `{StateValue V} := {
  vm_execute : X -> TxVersion -> Tx -> St -> PerpMvMemory -> outcome Empty_set (PerpExecutionResult L V R E) * X;
  vm_lazy_locations : X -> Tx -> list L;
}.

(** The default body of [get_lazy_locations]. *)
Definition lazy_locations_default {X Tx L} (_ : X) (_ : Tx) : list L := [].

(** The read set files every origin under the hash of a location that it lists, and
    lists one location for each hash. *)
Record read_set_ok {L} `{StateLocation L} (rs : PerpReadSet L) : Prop := {
  read_listed h : is_Some (rs_data rs !! h) <-> exists l, l ∈ rs_locations rs /\ location_hash l = h;
  read_once : NoDup (location_hash <$> rs_locations rs);
  read_origins h os : rs_data rs !! h = Some os -> os <> [];
}.

(** "Implementations must track all state reads in the read set": what a successful
    execution hands to the validation is filed under the hashes of locations. *)
Class VmExecutorLaws (X L V Tx R St E : Type) `{VmExecutor X L V Tx R St E} : Prop := {
  reads_filed x v tx st mv x' rs ws r flags :
    vm_execute x v tx st mv = (Ok (Success rs ws r flags), x') -> read_set_ok rs;
  writes_filed x v tx st mv x' rs ws r flags :
    vm_execute x v tx st mv = (Ok (Success rs ws r flags), x') ->
    Forall (fun w => w.1.1 = location_hash w.1.2) ws;
}.
