(* ===== verification/Hybrid.v ===== *)
(** * Hybrid: telling EVM and PerpDex transactions apart, and the codec (hybrid.rs)

    [identify_vm_type], [encode_perpdex_tx] and [decode_perpdex_tx].  The decoder
    keeps an offset into the input as the sources do; a slice or an index past the
    end of the input panics, and so does [Vec::with_capacity] beyond [isize::MAX]
    bytes. *)

From S2P Require Import Prelude Types Platform PerpTypes.
#[local] Open Scope Z_scope.

Definition PERPDEX_CONTRACT_ADDRESS : Address := from_be (replicate 20 255).

Inductive ParsedTransaction :=
| ParsedEvm (tx : TxEnv)
| ParsedPerpDex (tx : PerpDexTx).

Inductive VmType :=
| VmEvm
| VmPerpDex.

(** What hybrid.rs asks of an [alloy_consensus::Transaction]. *)
Record ConsensusTx := mkConsensusTx {
  ctx_to : option Address;
  ctx_input : list Z;
  ctx_max_fee_per_gas : Z;
}.

Definition identify_vm_type (tx : ConsensusTx) : VmType :=
  match ctx_to tx with
  | Some to => if decide (to = PERPDEX_CONTRACT_ADDRESS) then VmPerpDex else VmEvm
  | None => VmEvm
  end.

(** [InvalidSignature] is declared, nothing returns it. *)
Inductive DecodeError :=
| InvalidLength
| InvalidFormat
| InvalidSignature.

Abbreviation decoded := (outcome DecodeError).

(** ** Encoding *)

Definition encode_order_type (t : OrderType) : Z :=
  match t with Limit => 0 | Market => 1 | StopLimit => 2 | StopMarket => 3 end.
Definition encode_bool (b : bool) : Z := if b then 1 else 0.

Definition encode_operation (op : Operation) : list Z :=
  match op with
  | PlaceOrder market_id order_type side price size leverage post_only reduce_only expires_at =>
      [0] ++ to_be 8 market_id ++ [encode_order_type order_type]
        ++ [match side with Long => 0 | Short => 1 end]
        ++ to_be 32 price ++ to_be 32 size ++ [leverage]
        ++ [encode_bool post_only] ++ [encode_bool reduce_only] ++ to_be 8 (default 0 expires_at)
  | CancelOrder market_id order_ids =>
      [1] ++ to_be 8 market_id ++ to_be 8 (Z.of_nat (length order_ids)) ++ flat_map (to_be 8) order_ids
  | CancelAll market_id => [2] ++ to_be 8 (default 0 market_id)
  | SetLeverage market_id leverage => [3] ++ to_be 8 market_id ++ [leverage]
  | AdjustMargin market_id amount => [4] ++ to_be 8 market_id ++ to_be 32 amount
  end.

Definition encode_perpdex_tx (tx : PerpDexTx) : list Z :=
  to_be 20 (user tx) ++ to_be 8 (perp_nonce tx) ++ to_be 8 (tx_gas_limit tx)
    ++ drop 24 (to_be 32 (tx_gas_price tx)) ++ flat_map encode_operation (operations tx).

(** ** Decoding *)

(** [data[offset]] and [data[offset..offset + n]]. *)
Definition byte_at (data : list Z) (offset : nat) : decoded Z :=
  match data !! offset with Some b => Ok b | None => Panic end.
Definition slice (data : list Z) (offset n : nat) : decoded (list Z) :=
  if decide (offset + n <= length data)%nat then Ok (take n (drop offset data)) else Panic.

(** [u64::from_be_bytes] of 8 bytes, [U256::from_be_slice] of 32. *)
Definition word_at (data : list Z) (offset n : nat) : decoded Z :=
  bs ← slice data offset n; Ok (from_be bs).

Definition decode_order_type (b : Z) : decoded OrderType :=
  match b with
  | 0 => Ok Limit
  | 1 => Ok Market
  | 2 => Ok StopLimit
  | 3 => Ok StopMarket
  | _ => Err InvalidFormat
  end.

(** [if offset + n > data.len() { return Err(InvalidFormat) }]. *)
Definition need (data : list Z) (offset n : nat) : decoded unit :=
  if (length data <? offset + n)%nat then Err InvalidFormat else Ok tt.

(** Zero stands for [None]. *)
Definition nonzero (z : Z) : option Z := if z =? 0 then None else Some z.

Definition decode_place_order (data : list Z) (offset : nat) : decoded (Operation * nat) :=
  _ ← need data offset 89;
  market_id ← word_at data offset 8;
  type_byte ← byte_at data (offset + 8);
  order_type ← decode_order_type type_byte;
  side_byte ← byte_at data (offset + 9);
  let side := if side_byte =? 0 then Long else Short in
  price ← word_at data (offset + 10) 32;
  size ← word_at data (offset + 42) 32;
  leverage ← byte_at data (offset + 74);
  post_only ← byte_at data (offset + 75);
  reduce_only ← byte_at data (offset + 76);
  expires_at ← word_at data (offset + 77) 8;
  Ok (PlaceOrder market_id order_type side price size leverage (negb (post_only =? 0))
        (negb (reduce_only =? 0)) (nonzero expires_at), (offset + 85)%nat).

(** The loop [for _ in 0..count]. *)
Fixpoint decode_order_ids (data : list Z) (count : nat) (offset : nat) : decoded (list Z * nat) :=
  match count with
  | O => Ok ([], offset)
  | S count =>
      id ← word_at data offset 8;
      '(ids, offset) ← decode_order_ids data count (offset + 8);
      Ok (id :: ids, offset)
  end.

(** [Vec::<u64>::with_capacity]. *)
Definition with_capacity (count : Z) : decoded unit :=
  if 2 ^ 63 - 1 <? count * 8 then Panic else Ok tt.

(** [offset + count * 8 > data.len()] wraps around. *)
Definition decode_cancel_order (data : list Z) (offset : nat) : decoded (Operation * nat) :=
  _ ← need data offset 16;
  market_id ← word_at data offset 8;
  count ← word_at data (offset + 8) 8;
  let offset := (offset + 16)%nat in
  if Z.of_nat (length data) <? wrap 64 (Z.of_nat offset + wrap 64 (count * 8)) then Err InvalidFormat
  else
    _ ← with_capacity count;
    '(ids, offset) ← decode_order_ids data (Z.to_nat count) offset;
    Ok (CancelOrder market_id ids, offset).

Definition decode_cancel_all (data : list Z) (offset : nat) : decoded (Operation * nat) :=
  _ ← need data offset 8;
  market_id ← word_at data offset 8;
  Ok (CancelAll (nonzero market_id), (offset + 8)%nat).

Definition decode_set_leverage (data : list Z) (offset : nat) : decoded (Operation * nat) :=
  _ ← need data offset 9;
  market_id ← word_at data offset 8;
  leverage ← byte_at data (offset + 8);
  Ok (SetLeverage market_id leverage, (offset + 9)%nat).

Definition decode_adjust_margin (data : list Z) (offset : nat) : decoded (Operation * nat) :=
  _ ← need data offset 40;
  market_id ← word_at data offset 8;
  amount ← word_at data (offset + 8) 32;
  Ok (AdjustMargin market_id amount, (offset + 40)%nat).

(** One iteration: the operation at [offset] and the offset behind it. *)
Definition decode_operation (data : list Z) (offset : nat) : decoded (Operation * nat) :=
  op_type ← byte_at data offset;
  let offset := S offset in
  match op_type with
  | 0 => decode_place_order data offset
  | 1 => decode_cancel_order data offset
  | 2 => decode_cancel_all data offset
  | 3 => decode_set_leverage data offset
  | 4 => decode_adjust_margin data offset
  | _ => Err InvalidFormat
  end.

(** [while offset < data.len()].  Every iteration consumes a byte, so the length
    of the input bounds their number. *)
Fixpoint decode_loop (fuel : nat) (data : list Z) (offset : nat) : decoded (list Operation) :=
  if decide (offset < length data)%nat then
    match fuel with
    | O => Panic
    | S fuel =>
        '(op, offset) ← decode_operation data offset;
        ops ← decode_loop fuel data offset;
        Ok (op :: ops)
    end
  else Ok [].

Definition decode_operations (data : list Z) : decoded (list Operation) :=
  decode_loop (length data) data 0.

Definition decode_perpdex_tx (tx : ConsensusTx) : decoded PerpDexTx :=
  let input := ctx_input tx in
  if (length input <? 44)%nat then Err InvalidLength
  else
    user ← word_at input 0 20;
    nonce ← word_at input 20 8;
    gas_limit ← word_at input 28 8;
    let gas_price := ctx_max_fee_per_gas tx in
    operations ← decode_operations (drop 44 input);
    Ok (mkPerpDexTx user operations gas_limit gas_price nonce None).
