(* ===== verification/HybridSpec.v ===== *)
(** * HybridSpec: the PerpDex codec (hybrid.rs)

    What decoding makes of an encoded transaction, and which inputs make the
    decoder panic. *)

From S2P Require Import Prelude Types Platform PerpTypes Hybrid.
#[local] Open Scope Z_scope.

(** ** Reading at an offset

    [rest_at data off rest]: the input continues with [rest] at [off]. *)
Definition rest_at (data : list Z) (off : nat) (rest : list Z) : Prop :=
  (off <= length data)%nat /\ drop off data = rest.

Lemma rest_at_length data off rest : rest_at data off rest -> length data = (off + length rest)%nat.
Proof. intros [Ho <-]. rewrite length_drop. lia. Qed.

Lemma rest_at_app data off x rest : rest_at data off (x ++ rest) -> rest_at data (off + length x) rest.
Proof.
  intros H. pose proof (rest_at_length _ _ _ H) as Hl. rewrite length_app in Hl. split; [lia|].
  destruct H as [_ H]. by rewrite <- drop_drop, H, drop_app_length.
Qed.

Lemma rest_at_skip data off x rest n : rest_at data off (x ++ rest) -> length x = n -> rest_at data (off + n) rest.
Proof. intros H <-. by apply rest_at_app. Qed.

Lemma slice_at data off x rest n : rest_at data off (x ++ rest) -> length x = n -> slice data off n = Ok x.
Proof.
  intros H <-. pose proof (rest_at_length _ _ _ H) as Hl. rewrite length_app in Hl. unfold slice.
  rewrite decide_True by lia. destruct H as [_ ->]. by rewrite take_app_length.
Qed.

Lemma word_at_be data off n z rest : rest_at data off (to_be n z ++ rest) -> is_u (8 * Z.of_nat n) z ->
  word_at data off n = Ok z.
Proof.
  intros H Hz. unfold word_at. rewrite (slice_at _ _ (to_be n z) rest) by (done || apply length_to_be).
  cbn. f_equal. by apply from_be_to_be_u.
Qed.

Lemma byte_at_cons data off b rest : rest_at data off (b :: rest) -> byte_at data off = Ok b.
Proof.
  intros [Ho H]. unfold byte_at. replace off with (off + 0)%nat by lia. rewrite <- lookup_drop, H. done.
Qed.

Lemma need_ok data off n rest : rest_at data off rest -> (n <= length rest)%nat -> need data off n = Ok tt.
Proof.
  intros H Hn. apply rest_at_length in H. unfold need. by rewrite (proj2 (Nat.ltb_ge _ _)) by lia.
Qed.

Lemma need_short data off n rest : rest_at data off rest -> (length rest < n)%nat ->
  need data off n = Err InvalidFormat.
Proof.
  intros H Hn. apply rest_at_length in H. unfold need. by rewrite (proj2 (Nat.ltb_lt _ _)) by lia.
Qed.

(** ** Operations the encoding can represent *)

Definition representable (op : Operation) : Prop :=
  match op with
  | PlaceOrder market_id _ _ price size leverage _ _ expires_at =>
      is_u 64 market_id /\ is_u 256 price /\ is_u 256 size /\ is_u 8 leverage /\
      is_u 64 (default 0 expires_at) /\ expires_at <> Some 0
  | CancelOrder market_id order_ids => is_u 64 market_id /\ Forall (is_u 64) order_ids
  | CancelAll market_id => is_u 64 (default 0 market_id) /\ market_id <> Some 0
  | SetLeverage market_id leverage => is_u 64 market_id /\ is_u 8 leverage
  | AdjustMargin market_id amount => is_u 64 market_id /\ is_u 256 amount
  end.

Lemma nonzero_default o : o <> Some 0 -> nonzero (default 0 o) = o.
Proof. intros H. unfold nonzero. destruct o as [z|]; cbn; [|done]. destruct (Z.eqb_spec z 0); congruence. Qed.

Lemma bool_round_trip b : negb (encode_bool b =? 0) = b.
Proof. by destruct b. Qed.

Lemma order_type_round_trip t : decode_order_type (encode_order_type t) = Ok t.
Proof. by destruct t. Qed.

Lemma order_ids_round_trip data off ids rest : Forall (is_u 64) ids ->
  rest_at data off (flat_map (to_be 8) ids ++ rest) ->
  decode_order_ids data (length ids) off = Ok (ids, (off + length (flat_map (to_be 8) ids))%nat).
Proof.
  revert off. induction ids as [|id ids IH]; intros off; cbn [flat_map decode_order_ids length].
  { intros _ _. by rewrite Nat.add_0_r. }
  intros [Hid Hids]%Forall_cons H. rewrite <- app_assoc in H.
  rewrite (word_at_be _ _ _ _ _ H) by exact Hid. cbn [mbind outcome_bind].
  rewrite (IH (off + 8)%nat Hids) by (eapply rest_at_skip; [exact H|apply length_to_be]).
  cbn [mbind outcome_bind]. rewrite length_app, length_to_be. f_equal. f_equal. lia.
Qed.

Lemma flat_map_length ids : length (flat_map (to_be 8) ids) = (8 * length ids)%nat.
Proof. induction ids as [|id ids IH]; [done|]. cbn [flat_map]. rewrite length_app, length_to_be, IH. cbn. lia. Qed.

Lemma encode_operation_length op : (9 <= length (encode_operation op))%nat.
Proof. destruct op; cbn [encode_operation]; rewrite !length_app, !length_to_be; cbn; lia. Qed.

(** Read one more field off the input [H]. *)
Ltac field H :=
  rewrite <- ?app_assoc in H; cbn [app] in H;
  first
  [ rewrite (word_at_be _ _ _ _ _ H) by assumption
  | rewrite (byte_at_cons _ _ _ _ H) ];
  cbn [mbind outcome_bind];
  first
  [ eapply rest_at_skip in H; [|apply length_to_be]
  | eapply (rest_at_skip _ _ [_]) in H; [|reflexivity] ];
  rewrite <- ?Nat.add_assoc in H; cbn [Nat.add length] in H.

Ltac encoded_length :=
  repeat progress (cbn [encode_operation tail app length]; rewrite ?length_app, ?length_to_be, ?flat_map_length); lia.

Lemma place_order_decodes data off market_id t side price size leverage po ro ex rest :
  representable (PlaceOrder market_id t side price size leverage po ro ex) -> (4 <= length rest)%nat ->
  rest_at data off (tail (encode_operation (PlaceOrder market_id t side price size leverage po ro ex)) ++ rest) ->
  decode_place_order data off = Ok (PlaceOrder market_id t side price size leverage po ro ex, (off + 85)%nat).
Proof.
  intros (Hm & Hp & Hs & Hlv & Hex & Hne) Hr H. unfold decode_place_order.
  rewrite (need_ok _ _ _ _ H) by encoded_length.
  cbn [encode_operation tail app mbind outcome_bind] in *.
  do 2 field H. rewrite order_type_round_trip. cbn [mbind outcome_bind]. do 7 field H.
  rewrite !bool_round_trip, nonzero_default by done. by destruct side.
Qed.

Lemma decode_operation_type data off b rest : rest_at data off (b :: rest) ->
  byte_at data off = Ok b /\ rest_at data (S off) rest.
Proof.
  intros H. split; [by eapply byte_at_cons|]. replace (S off) with (off + 1)%nat by lia.
  by eapply (rest_at_skip _ _ [b]).
Qed.

(** Any operation decodes, except a placed order with less than four bytes behind
    it. *)
Lemma operation_round_trip data off op rest : (Z.of_nat (length data) < 2 ^ 63) ->
  representable op -> (is_place_order op = true -> (4 <= length rest)%nat) ->
  rest_at data off (encode_operation op ++ rest) ->
  decode_operation data off = Ok (op, (off + length (encode_operation op))%nat).
Proof.
  intros Hlen Hrep Hplace H.
  assert (exists b, encode_operation op = b :: tail (encode_operation op)) as [b Hb] by (destruct op; by eexists).
  pose proof (rest_at_length _ _ _ H) as Hl.
  rewrite Hb in H. cbn [app] in H. destruct (decode_operation_type _ _ _ _ H) as [Hbyte Hrest]. clear H.
  unfold decode_operation. rewrite Hbyte. cbn [mbind outcome_bind]. remember (S off) as o eqn:Ho.
  destruct op as [market_id t side price size leverage po ro ex|market_id ids|market_id|market_id leverage|market_id amount];
    injection Hb as <-.
  - rewrite (place_order_decodes _ _ _ _ _ _ _ _ _ _ _ rest) by (done || by apply Hplace).
    f_equal. f_equal. encoded_length.
  - destruct Hrep as [Hm Hids]. unfold decode_cancel_order.
    rewrite (need_ok _ _ _ _ Hrest) by encoded_length.
    assert (length data = off + (17 + 8 * length ids + length rest))%nat as Hl' by (rewrite Hl; encoded_length).
    cbn [encode_operation tail app mbind outcome_bind] in *.
    field Hrest. rewrite <- ?app_assoc in Hrest.
    rewrite (word_at_be _ _ _ _ _ Hrest) by (unfold is_u; lia). cbn [mbind outcome_bind].
    eapply rest_at_skip in Hrest; [|apply length_to_be]. rewrite <- Nat.add_assoc in Hrest. cbn [Nat.add] in Hrest.
    rewrite (wrap_small 64 (_ * 8)) by (unfold is_u; lia). rewrite wrap_small by (unfold is_u; lia).
    rewrite (proj2 (Z.ltb_ge _ _)) by lia. unfold with_capacity. rewrite (proj2 (Z.ltb_ge _ _)) by lia.
    cbn [mbind outcome_bind]. rewrite Nat2Z.id, (order_ids_round_trip _ _ _ rest) by done. cbn [mbind outcome_bind].
    f_equal. f_equal. encoded_length.
  - destruct Hrep as [Hm Hne]. unfold decode_cancel_all. rewrite (need_ok _ _ _ _ Hrest) by encoded_length.
    cbn [encode_operation tail app mbind outcome_bind] in *.
    rewrite (word_at_be _ _ _ _ _ Hrest) by done. cbn [mbind outcome_bind]. rewrite nonzero_default by done.
    f_equal. f_equal. encoded_length.
  - destruct Hrep as [Hm Hlv]. unfold decode_set_leverage. rewrite (need_ok _ _ _ _ Hrest) by encoded_length.
    cbn [encode_operation tail app mbind outcome_bind] in *. do 2 field Hrest. f_equal. f_equal. encoded_length.
  - destruct Hrep as [Hm Hlv]. unfold decode_adjust_margin. rewrite (need_ok _ _ _ _ Hrest) by encoded_length.
    cbn [encode_operation tail app mbind outcome_bind] in *. field Hrest.
    rewrite (word_at_be _ _ _ _ _ Hrest) by done. cbn [mbind outcome_bind]. f_equal. f_equal. encoded_length.
Qed.

Lemma short_place_order data off op rest : is_place_order op = true -> (length rest < 4)%nat ->
  rest_at data off (encode_operation op ++ rest) -> decode_operation data off = Err InvalidFormat.
Proof.
  intros Hop Hr H. destruct op; try done. cbn [encode_operation app] in H.
  destruct (decode_operation_type _ _ _ _ H) as [Hbyte Hrest]. unfold decode_operation. rewrite Hbyte.
  cbn [mbind outcome_bind]. unfold decode_place_order. by rewrite (need_short _ _ _ _ Hrest) by encoded_length.
Qed.

(** ** Whole transactions *)

Definition ends_in_place_order (ops : list Operation) : bool :=
  match last ops with Some op => is_place_order op | None => false end.

Lemma loop_round_trip data ops : (Z.of_nat (length data) < 2 ^ 63) -> Forall representable ops ->
  forall fuel off, rest_at data off (flat_map encode_operation ops) ->
  (length (flat_map encode_operation ops) <= fuel)%nat ->
  decode_loop fuel data off = if ends_in_place_order ops then Err InvalidFormat else Ok ops.
Proof.
  intros Hlen. induction 1 as [|op ops Hop Hops IH]; intros fuel off H Hfuel.
  { apply rest_at_length in H. cbn in H. destruct fuel; cbn [decode_loop]; by rewrite decide_False by lia. }
  cbn [flat_map] in *. rewrite length_app in Hfuel. pose proof (encode_operation_length op).
  pose proof (rest_at_length _ _ _ H) as Hl. rewrite length_app in Hl.
  destruct fuel as [|fuel]; [lia|]. cbn [decode_loop]. rewrite decide_True by lia.
  destruct ops as [|op2 ops].
  - cbn [ends_in_place_order last]. destruct (is_place_order op) eqn:Hplace.
    + by rewrite (short_place_order _ _ _ [] Hplace ltac:(cbn; lia) H).
    + rewrite (operation_round_trip _ _ _ [] Hlen Hop ltac:(congruence) H). cbn [mbind outcome_bind].
      rewrite (IH fuel) by (lia || by eapply rest_at_app). done.
  - pose proof (encode_operation_length op2).
    rewrite (operation_round_trip _ _ _ (flat_map encode_operation (op2 :: ops)) Hlen Hop
      ltac:(cbn [flat_map]; rewrite length_app; lia) H).
    cbn [mbind outcome_bind]. rewrite (IH fuel) by (lia || by eapply rest_at_app).
    change (ends_in_place_order (op :: op2 :: ops)) with (ends_in_place_order (op2 :: ops)).
    by destruct (ends_in_place_order (op2 :: ops)).
Qed.

(** C30: decoding an encoded transaction gives its user, nonce, gas limit and
    operations back, with the gas price of the carrying transaction, unless its
    last operation places an order: that one is rejected, since the decoder asks
    for four bytes more than the encoder writes. *)
Theorem codec_round_trip (tx : PerpDexTx) (c : ConsensusTx)
  (Hops : Forall representable (operations tx)) (Huser : is_u 160 (user tx))
  (Hnonce : is_u 64 (perp_nonce tx)) (Hgas : is_u 64 (tx_gas_limit tx))
  (Hinput : ctx_input c = encode_perpdex_tx tx) (Hlen : Z.of_nat (length (ctx_input c)) < 2 ^ 63) :
  decode_perpdex_tx c =
    if ends_in_place_order (operations tx) then Err InvalidFormat
    else Ok (mkPerpDexTx (user tx) (operations tx) (tx_gas_limit tx) (ctx_max_fee_per_gas c) (perp_nonce tx) None).
Proof.
  unfold decode_perpdex_tx. rewrite Hinput in *. unfold encode_perpdex_tx in *.
  set (price := drop 24 (to_be 32 (tx_gas_price tx))) in *.
  assert (length price = 8%nat) as Hprice by (unfold price; by rewrite length_drop, length_to_be).
  set (data := to_be 20 _ ++ _) in *.
  assert (rest_at data 0 data) as H by (split; [lia|done]). unfold data in H at 2.
  rewrite (proj2 (Nat.ltb_ge _ _)).
  2: { unfold data. rewrite !length_app, !length_to_be, Hprice. lia. }
  do 3 field H.
  eapply rest_at_skip in H; [|exact Hprice]. cbn [Nat.add] in H.
  destruct H as [_ ->]. unfold decode_operations.
  erewrite (loop_round_trip _ (operations tx)); [by case_match| |done|by split; [lia|]|done].
  unfold data in Hlen. rewrite !length_app in Hlen. lia.
Qed.

(** ** Panics *)

Lemma word_at_ok data off n : (off + n <= length data)%nat -> exists z, word_at data off n = Ok z.
Proof. intros H. unfold word_at, slice. rewrite decide_True by done. by eexists. Qed.

Lemma byte_at_ok data off : (off < length data)%nat -> exists z, byte_at data off = Ok z.
Proof. intros [b H]%lookup_lt_is_Some_2. unfold byte_at. rewrite H. by eexists. Qed.

Lemma need_bound data off n u : need data off n = Ok u -> (off + n <= length data)%nat.
Proof. unfold need. destruct (Nat.ltb_spec (length data) (off + n)); [done|]. lia. Qed.

(** Read a field that lies within the input, or give up on an error. *)
Ltac fields :=
  repeat match goal with
  | |- context [word_at ?d ?o ?n] =>
      let H := fresh in destruct (word_at_ok d o n) as [? H]; [lia|rewrite H; cbn [mbind outcome_bind]]
  | |- context [byte_at ?d ?o] =>
      let H := fresh in destruct (byte_at_ok d o) as [? H]; [lia|rewrite H; cbn [mbind outcome_bind]]
  end.

Lemma decode_order_ids_ok data count off : (off + 8 * count <= length data)%nat ->
  exists ids, decode_order_ids data count off = Ok (ids, (off + 8 * count)%nat).
Proof.
  revert off. induction count as [|count IH]; intros off H; cbn [decode_order_ids].
  { exists []. f_equal. f_equal. lia. }
  fields. destruct (IH (off + 8)%nat) as [ids ->]; [lia|]. cbn [mbind outcome_bind]. eexists. f_equal. f_equal. lia.
Qed.

(** A count of order ids that no vector can hold. *)
Definition huge_count (data : list Z) : Prop :=
  exists off count, word_at data off 8 = Ok count /\ 2 ^ 60 <= count.

Lemma decode_operation_progress data off op off' :
  decode_operation data off = Ok (op, off') -> (off < off')%nat.
Proof.
  unfold decode_operation. intros (b & _ & H)%outcome_bind_ok.
  assert (forall count o ids o', decode_order_ids data count o = Ok (ids, o') -> (o <= o')%nat) as Hids.
  { induction count as [|count IH]; intros o ids o'; cbn; [intros [= _ <-]; lia|].
    intros (id & _ & ([ids1 o1] & H1%IH & [= _ <-])%outcome_bind_ok)%outcome_bind_ok. lia. }
  destruct b as [|p|p]; [|repeat (destruct p as [p|p|]; try done)|done];
    repeat (apply outcome_bind_ok in H as (? & _ & H)); try (injection H as _ <-; lia).
  cbv zeta in H. case_match; [done|]. apply outcome_bind_ok in H as (? & _ & H).
  apply outcome_bind_ok in H as ([ids o] & H1%Hids & [= _ <-]). lia.
Qed.

Lemma decode_operation_panic data off : (Z.of_nat (length data) < 2 ^ 63) -> (off < length data)%nat ->
  decode_operation data off = Panic -> huge_count data.
Proof.
  intros Hlen Ho. unfold decode_operation. fields.
  match goal with |- context [match ?b with 0 => _ | _ => _ end] => destruct b as [|p|p] end;
    [|repeat (destruct p as [p|p|]; try done)|done];
    match goal with |- ?f data (S off) = Panic -> _ => unfold f end;
    match goal with |- context [need ?d ?o ?n] => destruct (need d o n) as [u|e|] eqn:Hneed end; try done;
    try (unfold need in Hneed; by case_match); apply need_bound in Hneed; cbn [mbind outcome_bind].
  - fields. destruct (decode_order_type _) as [t|e|] eqn:Ht; cbn [mbind outcome_bind]; [|done|].
    + fields. done.
    + exfalso. revert Ht. clear. unfold decode_order_type. repeat case_match; done.
  - fields. done.
  - fields. done.
  - fields. done.
  - destruct (word_at_ok data (S off) 8) as [m Hm]; [lia|]. rewrite Hm. cbn [mbind outcome_bind].
    destruct (word_at_ok data (S off + 8) 8) as [count Hc]; [lia|]. rewrite Hc. cbn [mbind outcome_bind].
    destruct (Z.ltb_spec (Z.of_nat (length data)) (wrap 64 (Z.of_nat (S off + 16) + wrap 64 (count * 8)))) as [|Hb];
      [done|]. unfold with_capacity. destruct (Z.ltb_spec (2 ^ 63 - 1) (count * 8)) as [Hbig|Hsmall].
    { intros _. exists (S off + 8)%nat, count. split; [done|]. lia. }
    cbn [mbind outcome_bind]. intros Hp. exfalso. revert Hp.
    destruct (decide (0 <= count)) as [Hpos|Hneg].
    + rewrite (wrap_small 64 (count * 8)) in Hb by (unfold is_u; lia).
      rewrite wrap_small in Hb by (unfold is_u; lia).
      destruct (decode_order_ids_ok data (Z.to_nat count) (S off + 16)) as [ids ->]; [lia|]. done.
    + replace (Z.to_nat count) with 0%nat by lia. done.
Qed.

(** The decoder panics on nothing but a count of order ids that no vector can
    hold (at least 2^60): not on a short input, not on an unknown operation, and
    its loop ends. *)
Theorem decode_panics_on_huge_count (c : ConsensusTx)
  (Hlen : Z.of_nat (length (ctx_input c)) < 2 ^ 63) (Hpanic : decode_perpdex_tx c = Panic) :
  huge_count (drop 44 (ctx_input c)).
Proof.
  unfold decode_perpdex_tx in Hpanic. destruct (Nat.ltb_spec (length (ctx_input c)) 44) as [|Hn]; [done|].
  revert Hpanic. fields. set (data := drop 44 _). intros Hpanic.
  destruct (decode_operations data) as [ops|e|] eqn:Hd; cbn in Hpanic; [done..|]. clear Hpanic.
  assert (Z.of_nat (length data) < 2 ^ 63) as Hl by (unfold data; rewrite length_drop; lia).
  unfold decode_operations in Hd.
  assert (forall fuel off, (length data <= off + fuel)%nat -> decode_loop fuel data off = Panic -> huge_count data)
    as Hloop; [|eapply Hloop; [|exact Hd]; lia].
  clear Hd. induction fuel as [|fuel IH]; intros off Hf; cbn [decode_loop]; case_decide as Ho; try done; [lia|].
  destruct (decode_operation data off) as [[op off']|e|] eqn:Hop; cbn [mbind outcome_bind]; [|done|].
  - apply decode_operation_progress in Hop. destruct (decode_loop fuel data off') as [ops|e|] eqn:Hd; cbn; try done.
    intros _. by apply (IH off'); [lia|].
  - intros _. by eapply decode_operation_panic.
Qed.

(** Such a count exists: 33 bytes of payload crash the decoder. *)
Lemma huge_count_panics :
  decode_perpdex_tx (mkConsensusTx (Some PERPDEX_CONTRACT_ADDRESS)
    (replicate 44 0 ++ [1] ++ to_be 8 7 ++ to_be 8 (2 ^ 61)) 0) = Panic.
Proof. by vm_compute. Qed.

(** ** Witnesses *)

Definition codec_tx (ops : list Operation) : PerpDexTx := mkPerpDexTx 17 ops 100000 1000 5 None.
Definition codec_order : Operation := PlaceOrder 1 Limit Short (1000 * 10 ^ 18) (10 ^ 18) 10 false true (Some 77).
Definition codec_ctx (ops : list Operation) : ConsensusTx :=
  mkConsensusTx (Some PERPDEX_CONTRACT_ADDRESS) (encode_perpdex_tx (codec_tx ops)) 1000.

Lemma codec_round_trip_witness :
  decode_perpdex_tx (codec_ctx [codec_order; CancelOrder 1 [3; 4]]) =
    Ok (codec_tx [codec_order; CancelOrder 1 [3; 4]]) /\
  decode_perpdex_tx (codec_ctx [codec_order]) = Err InvalidFormat.
Proof.
  assert (representable codec_order /\ representable (CancelOrder 1 [3; 4])) as [H1 H2].
  { split; [by repeat split|]. split; [done|]. by repeat constructor. }
  split.
  - exact (codec_round_trip (codec_tx [codec_order; CancelOrder 1 [3; 4]])
      (codec_ctx [codec_order; CancelOrder 1 [3; 4]]) ltac:(by repeat constructor) ltac:(done) ltac:(done) ltac:(done)
      eq_refl ltac:(by vm_compute)).
  - exact (codec_round_trip (codec_tx [codec_order]) (codec_ctx [codec_order]) ltac:(by repeat constructor)
      ltac:(done) ltac:(done) ltac:(done) eq_refl ltac:(by vm_compute)).
Defined.

Lemma decode_panics_on_huge_count_witness :
  huge_count ([1] ++ to_be 8 7 ++ to_be 8 (2 ^ 61)).
Proof.
  exact (decode_panics_on_huge_count (mkConsensusTx (Some PERPDEX_CONTRACT_ADDRESS)
    (replicate 44 0 ++ [1] ++ to_be 8 7 ++ to_be 8 (2 ^ 61)) 0) ltac:(by vm_compute) huge_count_panics).
Defined.
