(* ===== verification/PerpState.v ===== *)
(** * PerpState: locations and values of the PerpDex VM

    Models perpdex/state.rs, with the instances of the traits of PerpTraits.  The
    base hash of a location is rustc-hash's [FxHasher] on the derived [Hash]; it
    stays a parameter, the class [FxHash]. *)

From S2P Require Import Prelude Types PerpTypes PerpTraits.
#[local] Open Scope Z_scope.

(** ** Locations *)

Inductive PerpDexLocation :=
| BalanceLoc (user : Address) (asset_id : Z)
| PositionLoc (user : Address) (market_id : Z)
| OrderLoc (user : Address) (market_id order_id : Z)
| MarketStateLoc (market_id : Z)
| UserNonce (user : Address).

#[export] Instance PerpDexLocation_eq_dec : EqDecision PerpDexLocation.
Proof. solve_decision. Defined.

#[export] Instance PerpDexLocation_countable : Countable PerpDexLocation.
Proof.
  refine (inj_countable'
    (fun l => match l with
     | BalanceLoc u a => inl (u, a) | PositionLoc u m => inr (inl (u, m))
     | OrderLoc u m o => inr (inr (inl (u, m, o))) | MarketStateLoc m => inr (inr (inr (inl m)))
     | UserNonce u => inr (inr (inr (inr u))) end)
    (fun x => match x with
     | inl (u, a) => BalanceLoc u a | inr (inl (u, m)) => PositionLoc u m
     | inr (inr (inl (u, m, o))) => OrderLoc u m o | inr (inr (inr (inl m))) => MarketStateLoc m
     | inr (inr (inr (inr u))) => UserNonce u end) _).
  by intros [].
Defined.

(** The derived [Hash] through [FxHasher]. *)
Class FxHash (L : Type) := fx_hash : L -> Z.

(** [impl StateLocation for PerpDexLocation]. *)
#[export] Instance PerpDexLocation_location `{!FxHash PerpDexLocation} : StateLocation PerpDexLocation := {
  location_hash l := mix_hash PERPDEX (fx_hash l);
  partition_id _ := PERPDEX;
}.

(** ** Values *)

Inductive PerpDexValue :=
| VBalance (b : U256)
| VPosition (size : Z) (entry_price : U256) (leverage : Z) (margin : U256) (unrealized_pnl : Z)
    (last_funding_index : U256)
| VOrder (order_type : OrderType) (side : Side) (price size filled : U256) (status : OrderStatus)
    (post_only reduce_only : bool) (created_at : Z) (expires_at : option Z)
| VMarketState (index_price mark_price : U256) (funding_rate : Z)
    (funding_index open_interest_long open_interest_short : U256) (last_update : Z)
| VNonce (n : Z)
| LazyFunding (market_id : Z) (position_size : Z)
| Deleted.

#[export] Instance PerpDexValue_eq_dec : EqDecision PerpDexValue.
Proof. solve_decision. Defined.

(** [impl StateValue for PerpDexValue]. *)
#[export] Instance PerpDexValue_value : StateValue PerpDexValue := {
  is_lazy v := match v with LazyFunding _ _ => true | _ => false end;
  is_deleted v := match v with Deleted => true | _ => false end;
}.

Definition empty_position : PerpDexValue := VPosition 0 0 1 0 0 0.
Definition default_market_state (timestamp : Z) : PerpDexValue := VMarketState 0 0 0 0 0 0 timestamp.
