(* ===== verification/PerpStorage.v ===== *)
(** * PerpStorage: the PerpDex storage (perpdex/storage.rs)

    The [PerpDexStorage] trait as a class, and [InMemoryStorage]: the data with an
    index of the orders of each user and market.  [set] and [delete] take the lock
    of the index and the lock of the data one after the other, so each of them is
    two steps that other threads can come between. *)

From stdpp Require Export strings.
From S2P Require Import Prelude Types PerpTypes PerpTraits PerpState.
#[local] Open Scope Z_scope.

Inductive StorageError :=
| NotFound (l : PerpDexLocation)
| InvalidState (msg : string).

Class PerpDexStorage (S : Type) := {
  get : S -> PerpDexLocation -> outcome StorageError (option PerpDexValue);
  set : S -> PerpDexLocation -> PerpDexValue -> outcome StorageError S;
  delete : S -> PerpDexLocation -> outcome StorageError S;
  get_user_orders : S -> Address -> Z -> outcome StorageError (list Z);
  get_all_user_orders : S -> Address -> outcome StorageError (list Z);
}.

(** ** [InMemoryStorage] *)

Record InMemoryPerp := mkInMemoryPerp {
  perp_data : gmap PerpDexLocation PerpDexValue;
  user_orders : gmap (Address * Z) (list Z);
}.

Definition InMemoryPerp_new : InMemoryPerp := mkInMemoryPerp ∅ ∅.

Definition with_balances (balances : list (Address * Z * U256)) : InMemoryPerp :=
  mkInMemoryPerp
    (foldl (fun d '(user, asset_id, b) => <[BalanceLoc user asset_id := VBalance b]> d) ∅ balances) ∅.

Definition add_order_index (s : InMemoryPerp) (user : Address) (market_id order_id : Z) : InMemoryPerp :=
  mkInMemoryPerp (perp_data s)
    (<[(user, market_id) := default [] (user_orders s !! (user, market_id)) ++ [order_id]]> (user_orders s)).

Definition remove_order_index (s : InMemoryPerp) (user : Address) (market_id order_id : Z) : InMemoryPerp :=
  mkInMemoryPerp (perp_data s)
    (match user_orders s !! (user, market_id) with
     | Some order_list => <[(user, market_id) := filter (fun id => id <> order_id) order_list]> (user_orders s)
     | None => user_orders s
     end).

(** The two locked sections of [set] and of [delete]. *)
Definition set_index (s : InMemoryPerp) (l : PerpDexLocation) (v : PerpDexValue) : InMemoryPerp :=
  match l with
  | OrderLoc user market_id order_id =>
      if is_deleted v then s else add_order_index s user market_id order_id
  | _ => s
  end.
Definition set_data (s : InMemoryPerp) (l : PerpDexLocation) (v : PerpDexValue) : InMemoryPerp :=
  mkInMemoryPerp (<[l := v]> (perp_data s)) (user_orders s).

Definition delete_index (s : InMemoryPerp) (l : PerpDexLocation) : InMemoryPerp :=
  match l with
  | OrderLoc user market_id order_id => remove_order_index s user market_id order_id
  | _ => s
  end.
Definition delete_data (s : InMemoryPerp) (l : PerpDexLocation) : InMemoryPerp :=
  mkInMemoryPerp (base.delete l (perp_data s)) (user_orders s).

(** The hash map yields its entries in an unspecified order; here it is that of
    [map_to_list]. *)
Definition all_orders (s : InMemoryPerp) (user : Address) : list Z :=
  flat_map (fun '((addr, _), order_ids) => if decide (addr = user) then order_ids else [])
    (map_to_list (user_orders s)).

#[export] Instance InMemoryPerp_storage : PerpDexStorage InMemoryPerp := {
  get s l := Ok (perp_data s !! l);
  set s l v := Ok (set_data (set_index s l v) l v);
  delete s l := Ok (delete_data (delete_index s l) l);
  get_user_orders s user market_id := Ok (default [] (user_orders s !! (user, market_id)));
  get_all_user_orders s user := Ok (all_orders s user);
}.
