(* ===== verification/PerpExecutor.v ===== *)
(** * PerpExecutor: executing a PerpDex transaction (perpdex/executor.rs)

    An operation runs in a state monad over the read set, the write set and the
    executor's counter of order ids.  The counter is an atomic that the executions
    of all workers share: it keeps what a failed transaction has taken, and other
    executions take ids from it between two of ours.  How many, before each of
    ours, is an input of the execution.  Arithmetic
    on [U256], [i128] and [u64] wraps around as it does in a release build;
    division by zero panics. *)

From S2P Require Import Prelude Types PerpTypes PerpTraits PerpState PerpStorage.
#[local] Open Scope Z_scope.

Record BlockConfig := mkBlockConfig {
  timestamp : Z;
  block_number : Z;
}.

Inductive ExecutionError :=
| NonceMismatch (expected actual : Z)
| InsufficientBalance (required available : U256)
| InvalidLeverage (leverage : Z)
| ReduceOnlyViolation
| InvalidPosition (msg : string)
| StorageFailure (e : StorageError)
| OrderNotFound (id : Z).

Record PositionData := mkPositionData {
  pos_size : Z;
  entry_price : U256;
  pos_leverage : Z;
  margin : U256;
  unrealized_pnl : Z;
  last_funding_index : U256;
}.

Record MarketData := mkMarketData {
  index_price : U256;
  mark_price : U256;
  funding_rate : Z;
  funding_index : U256;
  open_interest_long : U256;
  open_interest_short : U256;
  last_update : Z;
}.

Definition USDC_ASSET_ID : Z := 0.
Definition PRICE_PRECISION : Z := 10 ^ 18.

(** ** The monad *)

(** The counter as one execution meets it: its value when the execution last saw it,
    and how many ids the other executions take before each of those that this one
    still takes (none, where the list ends). *)
Record OrderIds := mkOrderIds {
  next_order_id : Z;
  meanwhile : list nat;
}.

Record xstate := mkXstate {
  read_set : PerpReadSet PerpDexLocation;
  write_set : PerpWriteSet PerpDexLocation PerpDexValue;
  order_ids : OrderIds;
}.

Abbreviation exec := (stateM xstate ExecutionError).

Definition lift {A} (m : outcome StorageError A) : exec A := fun s => (map_err StorageFailure m, s).

(** ** Arithmetic *)

Definition is_zero_div {A} (d : Z) (k : outcome ExecutionError A) : outcome ExecutionError A :=
  if d =? 0 then Panic else k.

(** [try_into().unwrap_or(i128::MAX)]. *)
Definition to_i128 (u : U256) : Z := if u <=? I128_MAX then u else I128_MAX.
Definition direction (s : Side) : Z := match s with Long => 1 | Short => -1 end.
Definition i128_abs (z : Z) : Z := swrap 128 (Z.abs z).

(** [calculate_required_margin]. *)
Definition required_margin (price size : U256) (leverage : Z) : outcome ExecutionError U256 :=
  let notional := u256_mul price size / PRICE_PRECISION in
  is_zero_div leverage (Ok (notional / leverage)).

Definition is_reducing (order_size_signed position_size : Z) : bool :=
  if position_size =? 0 then false
  else
    let same_sign := Bool.eqb (0 <? order_size_signed) (0 <? position_size) in
    if same_sign then false else true.

(** The check that both kinds of order make of [reduce_only]. *)
Definition check_reduce_only (side : Side) (size : U256) (position : option PositionData)
    (reduce_only : bool) : outcome ExecutionError unit :=
  if reduce_only then
    let size_signed := i128_mul (to_i128 size) (direction side) in
    match position with
    | Some pos => if negb (is_reducing size_signed (pos_size pos)) then Err ReduceOnlyViolation else Ok tt
    | None => Err ReduceOnlyViolation
    end
  else Ok tt.

Definition execute_market_order (side : Side) (size : U256) (market : MarketData)
    (position : option PositionData) (reduce_only : bool) : outcome ExecutionError (U256 * U256) :=
  _ ← check_reduce_only side size position reduce_only;
  Ok (size, mark_price market).

Definition execute_limit_order (side : Side) (price size : U256) (market : MarketData)
    (position : option PositionData) (reduce_only : bool) : outcome ExecutionError (U256 * U256) :=
  let can_fill := match side with
    | Long => mark_price market <=? price
    | Short => price <=? mark_price market
    end in
  if negb can_fill then Ok (0, 0)
  else
    _ ← check_reduce_only side size position reduce_only;
    Ok (size, price).

(** The new average entry price of a position that grows. *)
Definition average_entry_price (pos : PositionData) (size_delta new_size : Z) (fill_price : U256) : U256 :=
  let old_notional := u256_mul (Z.abs (pos_size pos)) (entry_price pos) / PRICE_PRECISION in
  let new_notional := u256_mul (Z.abs size_delta) fill_price / PRICE_PRECISION in
  let total_notional := u256_add old_notional new_notional in
  let total_size := Z.abs new_size in
  if 0 <? total_size then u256_mul total_notional PRICE_PRECISION / total_size else 0.

Definition update_position (current : option PositionData) (side : Side) (filled_size fill_price : U256)
    (leverage : Z) : outcome ExecutionError PositionData :=
  let size_delta := i128_mul (to_i128 filled_size) (direction side) in
  match current with
  | Some pos =>
      let new_size := i128_add (pos_size pos) size_delta in
      let new_entry_price :=
        if Z.sgn (pos_size pos) =? Z.sgn size_delta
        then average_entry_price pos size_delta new_size fill_price
        else if i128_abs new_size <? i128_abs (pos_size pos) then entry_price pos
        else fill_price in
      new_margin ← required_margin new_entry_price (Z.abs new_size) leverage;
      Ok (mkPositionData new_size new_entry_price leverage new_margin 0 (last_funding_index pos))
  | None =>
      m ← required_margin fill_price filled_size leverage;
      Ok (mkPositionData size_delta fill_price leverage m 0 0)
  end.

Definition calculate_unrealized_pnl (position : PositionData) (mark : U256) : Z :=
  if pos_size position =? 0 then 0
  else
    let size_abs := Z.abs (pos_size position) in
    let is_long := 0 <? pos_size position in
    let scaled diff := to_i128 (u256_mul size_abs diff / PRICE_PRECISION) in
    if entry_price position <? mark then
      let diff := u256_sub mark (entry_price position) in
      if is_long then scaled diff else i128_neg (scaled diff)
    else
      let diff := u256_sub (entry_price position) mark in
      if is_long then i128_neg (scaled diff) else scaled diff.

(** ** The executor *)

Section Executor.
Context {S : Type} `{PerpDexStorage S} `{!FxHash PerpDexLocation}.

Record PerpDexExecutor := mkPerpDexExecutor {
  storage : S;
  block_config : BlockConfig;
}.

(** The counter of a new executor. *)
Definition first_order_id (others : list nat) : OrderIds := mkOrderIds 1 others.

(** [fetch_add(1)], after the others have done theirs. *)
Definition fetch_add (ids : OrderIds) : Z * OrderIds :=
  let id := u64_add (next_order_id ids) (Z.of_nat (default 0%nat (head (meanwhile ids)))) in
  (id, mkOrderIds (u64_add id 1) (tail (meanwhile ids))).

Definition generate_order_id : exec Z := fun s =>
  let '(id, ids) := fetch_add (order_ids s) in (Ok id, mkXstate (read_set s) (write_set s) ids).

Definition push (l : PerpDexLocation) (v : PerpDexValue) : exec unit := fun s =>
  (Ok tt, mkXstate (read_set s) (WriteSet_push (write_set s) l v) (order_ids s)).

Context (x : PerpDexExecutor).

(** The read set is passed along and not touched. *)
Definition read_location (l : PerpDexLocation) : exec (option PerpDexValue) := lift (get (storage x) l).

Definition read_nonce (u : Address) : exec Z :=
  v ← read_location (UserNonce u);
  match v with
  | Some (VNonce n) => mret n
  | None => mret 0
  | _ => throw (InvalidPosition "Invalid nonce value")
  end.

Definition read_balance (u : Address) (asset_id : Z) : exec U256 :=
  v ← read_location (BalanceLoc u asset_id);
  match v with
  | Some (VBalance b) => mret b
  | None => mret 0
  | _ => throw (InvalidPosition "Invalid balance value")
  end.

Definition read_position (u : Address) (market_id : Z) : exec (option PositionData) :=
  v ← read_location (PositionLoc u market_id);
  match v with
  | Some (VPosition size price leverage m pnl funding) =>
      mret (Some (mkPositionData size price leverage m pnl funding))
  | None => mret None
  | _ => throw (InvalidPosition "Invalid position value")
  end.

Definition default_price : U256 := u256_mul 1000 (10 ^ 18).

Definition read_market (market_id : Z) : exec MarketData :=
  v ← read_location (MarketStateLoc market_id);
  match v with
  | Some (VMarketState index mark rate funding long short update) =>
      mret (mkMarketData index mark rate funding long short update)
  | None => mret (mkMarketData default_price default_price 0 0 0 0 (timestamp (block_config x)))
  | _ => throw (InvalidPosition "Invalid market state")
  end.

Definition position_value (p : PositionData) : PerpDexValue :=
  VPosition (pos_size p) (entry_price p) (pos_leverage p) (margin p) (unrealized_pnl p) (last_funding_index p).

Definition leverage_valid (leverage : Z) : bool := (1 <=? leverage) && (leverage <=? 100).

(** ** Operations *)

Definition estimate_gas (_ : Operation) : Z := 21000.

Definition execute_set_leverage (market_id leverage : Z) : exec OperationResult :=
  if negb (leverage_valid leverage) then throw (InvalidLeverage leverage)
  else mret (LeverageUpdated market_id leverage).

Definition execute_adjust_margin (tx : PerpDexTx) (market_id : Z) (amount : U256) : exec OperationResult :=
  balance ← read_balance (user tx) USDC_ASSET_ID;
  if balance <? amount then throw (InsufficientBalance amount balance)
  else
    position ← read_position (user tx) market_id;
    match position with
    | Some pos =>
        let pos := mkPositionData (pos_size pos) (entry_price pos) (pos_leverage pos)
          (u256_add (margin pos) amount) (unrealized_pnl pos) (last_funding_index pos) in
        _ ← push (PositionLoc (user tx) market_id) (position_value pos);
        _ ← push (BalanceLoc (user tx) USDC_ASSET_ID) (VBalance (u256_sub balance amount));
        mret (MarginAdjusted market_id amount)
    | None => throw (InvalidPosition "No position to adjust margin")
    end.

(** Delete orders of a market, one write each. *)
Fixpoint push_deletions (u : Address) (market_id : Z) (order_ids : list Z) : exec unit :=
  match order_ids with
  | [] => mret tt
  | id :: order_ids => _ ← push (OrderLoc u market_id id) Deleted; push_deletions u market_id order_ids
  end.

Definition execute_cancel_order (tx : PerpDexTx) (market_id : Z) (order_ids : list Z) : exec OperationResult :=
  _ ← push_deletions (user tx) market_id order_ids;
  mret (OrdersCancelled order_ids).

Definition execute_cancel_all (tx : PerpDexTx) (market_id : option Z) : exec OperationResult :=
  order_ids ← lift (match market_id with
    | Some m => get_user_orders (storage x) (user tx) m
    | None => get_all_user_orders (storage x) (user tx)
    end);
  _ ← push_deletions (user tx) (default 0 market_id) order_ids;
  mret (OrdersCancelled order_ids).

(** Match the order: filled size and average fill price. *)
Definition match_order (order_type : OrderType) (side : Side) (price size : U256) (post_only reduce_only : bool)
    (market : MarketData) (position : option PositionData) : outcome ExecutionError (U256 * U256) :=
  match order_type with
  | Market => execute_market_order side size market position reduce_only
  | Limit =>
      if post_only then Ok (0, 0) else execute_limit_order side price size market position reduce_only
  | StopLimit | StopMarket => Ok (0, 0)
  end.

Definition execute_place_order (tx : PerpDexTx) (market_id : Z) (order_type : OrderType) (side : Side)
    (price size : U256) (leverage : Z) (post_only reduce_only : bool) (expires_at : option Z)
    : exec OperationResult :=
  if negb (leverage_valid leverage) then throw (InvalidLeverage leverage)
  else
    balance ← read_balance (user tx) USDC_ASSET_ID;
    position ← read_position (user tx) market_id;
    market ← read_market market_id;
    required ← pure_of (required_margin price size leverage);
    if balance <? required then throw (InsufficientBalance required balance)
    else
      '(filled_size, avg_fill_price) ←
        pure_of (match_order order_type side price size post_only reduce_only market position);
      order_id ← generate_order_id;
      let remaining := u256_sub size filled_size in
      _ ← (if 0 <? remaining then
             push (OrderLoc (user tx) market_id order_id)
               (VOrder order_type side price remaining filled_size
                  (if 0 <? filled_size then PartiallyFilled else Open)
                  post_only reduce_only (timestamp (block_config x)) expires_at)
           else mret tt);
      _ ← (if 0 <? filled_size then
             new_position ← pure_of (update_position position side filled_size avg_fill_price leverage);
             _ ← push (PositionLoc (user tx) market_id) (position_value new_position);
             push (BalanceLoc (user tx) USDC_ASSET_ID) (VBalance (u256_sub balance required))
           else mret tt);
      mret (OrderPlaced order_id filled_size).

Definition execute_operation (tx : PerpDexTx) (op : Operation) : exec OperationResult :=
  match op with
  | PlaceOrder market_id order_type side price size leverage post_only reduce_only expires_at =>
      execute_place_order tx market_id order_type side price size leverage post_only reduce_only expires_at
  | CancelOrder market_id order_ids => execute_cancel_order tx market_id order_ids
  | CancelAll market_id => execute_cancel_all tx market_id
  | SetLeverage market_id leverage => execute_set_leverage market_id leverage
  | AdjustMargin market_id amount => execute_adjust_margin tx market_id amount
  end.

(** The loop over the operations: gas and results. *)
Fixpoint execute_operations (tx : PerpDexTx) (gas : Z) (ops : list Operation)
    : exec (Z * list OperationResult) :=
  match ops with
  | [] => mret (gas, [])
  | op :: ops =>
      r ← execute_operation tx op;
      '(gas, rs) ← execute_operations tx (u64_add gas (estimate_gas op)) ops;
      mret (gas, r :: rs)
  end.

(** The body of [execute] up to the flags. *)
Definition execute_body (tx : PerpDexTx) : exec PerpDexResult :=
  current_nonce ← read_nonce (user tx);
  if negb (current_nonce =? perp_nonce tx) then throw (NonceMismatch current_nonce (perp_nonce tx))
  else
    '(gas, rs) ← execute_operations tx 0 (operations tx);
    _ ← push (UserNonce (user tx)) (VNonce (u64_add current_nonce 1));
    mret (mkPerpDexResult gas rs).

(** [VmExecutor::execute], with the counter before and after. *)
Definition execute (tx : PerpDexTx) (ids : OrderIds)
    : outcome Empty_set (PerpExecutionResult PerpDexLocation PerpDexValue PerpDexResult ExecutionError) * OrderIds :=
  match execute_body tx (mkXstate ReadSet_new [] ids) with
  | (Ok r, s) =>
      let flags := if ReadSet_is_empty (read_set s) then flags_empty else NeedValidation in
      (Ok (Success (read_set s) (write_set s) r flags), order_ids s)
  | (Err e, s) => (Ok (Error e), order_ids s)
  | (Panic, s) => (Panic, order_ids s)
  end.

Definition get_lazy_locations (tx : PerpDexTx) : list PerpDexLocation :=
  omap (fun op => match op with
    | PlaceOrder market_id _ _ _ _ _ _ _ _ => Some (PositionLoc (user tx) market_id)
    | _ => None
    end) (operations tx).
End Executor.
#[global] Arguments PerpDexExecutor : clear implicits.

(** [impl VmExecutor for PerpDexExecutor]: the executor with its counter of order
    ids.  It reads its own storage, not the one it is given. *)
#[export] Instance PerpDexExecutor_vm {S} `{PerpDexStorage S} `{!FxHash PerpDexLocation} :
    VmExecutor (PerpDexExecutor S * OrderIds) PerpDexLocation PerpDexValue PerpDexTx PerpDexResult S ExecutionError := {
  vm_execute xn _ tx _ _ := let '(res, next) := execute xn.1 tx xn.2 in (res, (xn.1, next));
  vm_lazy_locations _ tx := get_lazy_locations tx;
}.
