(* ===== verification/PerpStateSpec.v ===== *)
(** * PerpStateSpec: partitions, metadata and the order index

    The partition of a location can be read off its hash, so locations of two
    partitions never meet; [VmMetadata] hands out one allocation per type; the
    order index of [InMemoryStorage] is the record of the calls, as long as they do
    not overlap. *)

From S2P Require Import Prelude Types PerpTypes PerpTraits PerpState PerpStorage.
#[local] Open Scope Z_scope.

(** ** Partitions *)

Lemma mix_hash_sum p base : is_u 8 p -> mix_hash p base = p * 2 ^ 56 + base mod 2 ^ 56.
Proof.
  intros Hp. unfold mix_hash. change 0x00FFFFFFFFFFFFFF with (Z.ones 56). rewrite Z.land_ones by lia.
  rewrite Z.shiftl_mul_pow2 by lia. rewrite wrap_small by (unfold is_u in *; lia).
  symmetry. rewrite <- Z.lxor_lor, <- Z.add_nocarry_lxor; [done|..];
    (apply Z.bits_inj'; intros n Hn; rewrite Z.land_spec, Z.bits_0;
     destruct (Z.lt_ge_cases n 56); [by rewrite Z.mul_pow2_bits_low|by rewrite Z.mod_pow2_bits_high, andb_false_r by lia]).
Qed.

(** A mixed hash carries its partition in the high eight bits and the low 56
    bits of the base hash below them, so [from_hash] inverts [mix_hash] and two
    mixed hashes of different partitions differ, whatever the base hashes. *)
Theorem partitions_are_disjoint p q base base'
  (Hp : is_u 8 p) (Hq : is_u 8 q) :
  from_hash (mix_hash p base) = p /\ mix_hash p base mod 2 ^ 56 = base mod 2 ^ 56 /\
  is_u 64 (mix_hash p base) /\
  (mix_hash p base = mix_hash q base' <-> p = q /\ base mod 2 ^ 56 = base' mod 2 ^ 56).
Proof.
  rewrite !mix_hash_sum by done. unfold is_u, from_hash in *.
  pose proof (Z.mod_pos_bound base (2 ^ 56)). pose proof (Z.mod_pos_bound base' (2 ^ 56)).
  split; [|split; [|split]].
  - rewrite Z.shiftr_div_pow2 by lia. rewrite Z.div_add_l by lia. rewrite (Z.div_small (base mod _)), Z.add_0_r by lia.
    apply wrap_small. unfold is_u. lia.
  - rewrite Z.add_comm, Z_mod_plus_full. by rewrite Z.mod_mod by lia.
  - lia.
  - split; [|by intros [-> ->]]. intros H1. assert (p = q) as -> by lia. lia.
Qed.

Lemma partitioned_hash {L} `{PartitionedLocation L} (l : L) :
  from_hash (location_hash l) = partition_id l /\ is_u 64 (location_hash l).
Proof.
  destruct (location_hash_mixed l) as [base ->]. pose proof (partition_is_byte l).
  by destruct (partitions_are_disjoint (partition_id l) (partition_id l) base 0) as (? & _ & ? & _).
Qed.

#[export] Instance PerpDexLocation_partitioned `{!FxHash PerpDexLocation} : PartitionedLocation PerpDexLocation.
Proof. split; intros l; [by vm_compute|by eexists]. Qed.

(** Every PerpDex location hashes into the PerpDex partition. *)
Lemma location_hash_partition `{!FxHash PerpDexLocation} (l : PerpDexLocation) : from_hash (location_hash l) = PERPDEX.
Proof. exact (proj1 (partitioned_hash l)). Qed.

(** ** Metadata *)

Section Metadata.
Context {TypeId : Type} `{Countable TypeId} (Val : TypeId -> Type) (default_of : forall t, Val t).
Implicit Types m : VmMetadata Val.

(** Every entry was created at the type it is filed under, from an allocation made
    so far that no other type has. *)
Record metadata_ok m : Prop := {
  meta_typed : forall t a, inner Val m !! t = Some a -> any_type Val a = t;
  meta_allocated : forall t a, inner Val m !! t = Some a -> (arc Val a < allocated Val m)%nat;
  meta_unshared : forall t t' a a', inner Val m !! t = Some a -> inner Val m !! t' = Some a' ->
    arc Val a = arc Val a' -> t = t';
}.

Lemma metadata_new_ok : metadata_ok (VmMetadata_new Val).
Proof. by split; cbn; intros *; rewrite lookup_empty. Qed.

Lemma metadata_insert_ok m t v : metadata_ok m -> metadata_ok (metadata_insert Val m t v).
Proof.
  intros [Ht Ha Hu]. split; cbn.
  - intros t' a [[<- <-]|[_ Hl]]%lookup_insert_Some; [done|by eapply Ht].
  - intros t' a [[<- <-]|[_ Hl]]%lookup_insert_Some; cbn; [lia|]. apply Ha in Hl. lia.
  - intros t1 t2 a1 a2 [[<- <-]|[Hn1 Hl1]]%lookup_insert_Some [[<- <-]|[Hn2 Hl2]]%lookup_insert_Some; cbn.
    + done.
    + apply Ha in Hl2. lia.
    + apply Ha in Hl1. lia.
    + by eapply Hu.
Qed.

Lemma downcast_same (a : any Val) : downcast Val a (any_type Val a) = Some (arc Val a, any_value Val a).
Proof.
  unfold downcast. destruct (decide _) as [e|]; [|done]. f_equal. f_equal.
  by rewrite (Eqdep_dec.UIP_dec (A := TypeId) (fun x y => decide (x = y)) e eq_refl).
Qed.

Lemma downcast_iff (a : any Val) t : is_Some (downcast Val a t) <-> any_type Val a = t.
Proof. split; [|intros <-; by rewrite downcast_same]. unfold downcast. destruct (decide _); [done|by intros []]. Qed.

(** *** What the store holds, as a function of the type *)

Abbreviation contents := (forall t, option (nat * Val t)).

Definition file (t : TypeId) (r : nat * Val t) (c : contents) : contents := fun t' =>
  match decide (t = t') with
  | left e => Some (eq_rect t (fun t => (nat * Val t)%type) r t' e)
  | right _ => c t'
  end.

Lemma file_same t r c : file t r c t = Some r.
Proof.
  unfold file. destruct (decide (t = t)) as [e|]; [|done].
  by rewrite (Eqdep_dec.UIP_dec (A := TypeId) (fun x y => decide (x = y)) e eq_refl).
Qed.

Lemma file_other t r c t' : t <> t' -> file t r c t' = c t'.
Proof. intros Hne. unfold file. by destruct (decide (t = t')). Qed.

Lemma metadata_get_insert m t v t' :
  metadata_get Val (metadata_insert Val m t v) t' = file t (allocated Val m, v) (metadata_get Val m) t'.
Proof.
  unfold metadata_get, metadata_insert. cbn. destruct (decide (t = t')) as [<-|Hne].
  - rewrite lookup_insert_eq, file_same. cbn. exact (downcast_same (mkAny Val (allocated Val m) t v)).
  - by rewrite lookup_insert_ne, file_other.
Qed.

Lemma metadata_get_none m t : metadata_ok m -> metadata_get Val m t = None <-> inner Val m !! t = None.
Proof.
  intros Hm. unfold metadata_get. destruct (inner Val m !! t) as [a|] eqn:Ha; cbn; [|done]. split; [|done].
  apply (meta_typed _ Hm), downcast_iff in Ha as [r ->]. done.
Qed.

Lemma get_or_insert_cases m t : metadata_ok m -> get_or_insert Val default_of m t =
  match metadata_get Val m t with
  | Some r => Ok (r, m)
  | None => Ok ((allocated Val m, default_of t), metadata_insert Val m t (default_of t))
  end.
Proof.
  intros Hm. unfold get_or_insert. destruct (metadata_get Val m t) as [r|] eqn:Hg.
  - unfold metadata_get in Hg. apply bind_Some in Hg as (a & -> & Hd). by rewrite Hd.
  - apply metadata_get_none in Hg; [|done]. rewrite Hg.
    by rewrite (downcast_same (mkAny Val (allocated Val m) t (default_of t)) : downcast Val _ t = _).
Qed.

(** *** Sequences of calls *)

Inductive meta_op :=
| MetaInsert (t : TypeId) (v : Val t)
| MetaGetOrInsert (t : TypeId).

Abbreviation answers := (list { t & (nat * Val t)%type }).

Fixpoint meta_calls (ops : list meta_op) m : outcome Empty_set (answers * VmMetadata Val) :=
  match ops with
  | [] => Ok ([], m)
  | MetaInsert t v :: ops => meta_calls ops (metadata_insert Val m t v)
  | MetaGetOrInsert t :: ops =>
      '(r, m) ← get_or_insert Val default_of m t;
      '(rs, m) ← meta_calls ops m;
      Ok (existT t r :: rs, m)
  end.

(** The same calls on a plain function, allocation after allocation. *)
Fixpoint meta_spec (ops : list meta_op) (n : nat) (c : contents) : answers * contents :=
  match ops with
  | [] => ([], c)
  | MetaInsert t v :: ops => meta_spec ops (S n) (file t (n, v) c)
  | MetaGetOrInsert t :: ops =>
      match c t with
      | Some r => let '(rs, c') := meta_spec ops n c in (existT t r :: rs, c')
      | None =>
          let '(rs, c') := meta_spec ops (S n) (file t (n, default_of t) c) in
          (existT t (n, default_of t) :: rs, c')
      end
  end.

Lemma meta_calls_spec ops m c : metadata_ok m -> (forall t, metadata_get Val m t = c t) ->
  exists m', meta_calls ops m = Ok ((meta_spec ops (allocated Val m) c).1, m') /\ metadata_ok m' /\
    forall t, metadata_get Val m' t = (meta_spec ops (allocated Val m) c).2 t.
Proof.
  revert m c. induction ops as [|[t v|t] ops IH]; intros m c Hm Hc; cbn [meta_calls meta_spec].
  - by exists m.
  - apply (IH (metadata_insert Val m t v)); [by apply metadata_insert_ok|]. intros t'.
    rewrite metadata_get_insert. unfold file. by destruct (decide _).
  - rewrite (get_or_insert_cases _ _ Hm), Hc. destruct (c t) as [r|].
    + destruct (IH m c Hm Hc) as (m' & Hr & Hrest). exists m'. cbn. rewrite Hr. cbn.
      by destruct (meta_spec ops (allocated Val m) c).
    + destruct (IH (metadata_insert Val m t (default_of t)) (file t (allocated Val m, default_of t) c)) as (m' & Hr & Hrest).
      * by apply metadata_insert_ok.
      * intros t'. rewrite metadata_get_insert. unfold file. by destruct (decide _).
      * exists m'. cbn in *. rewrite Hr. cbn. by destruct (meta_spec ops (S (allocated Val m)) _).
Qed.

(** C37: the store of metadata is a function from types to values, whatever calls are
    made of a new one.  No downcast of [get_or_insert] ever panics; [insert]
    replaces the value of its type with a new allocation and leaves the other types
    alone; [get_or_insert] answers the allocation that is stored, or stores a new
    one with the default and answers that; [get] answers what is stored, at its
    type; and no allocation is ever shared by two types. *)
Theorem metadata_type_safe ops :
  exists m, meta_calls ops (VmMetadata_new Val) = Ok ((meta_spec ops 0 (fun _ => None)).1, m) /\
    (forall t, metadata_get Val m t = (meta_spec ops 0 (fun _ => None)).2 t) /\
    (forall t t' r r', metadata_get Val m t = Some r -> metadata_get Val m t' = Some r' -> r.1 = r'.1 -> t = t').
Proof.
  destruct (meta_calls_spec ops (VmMetadata_new Val) (fun _ => None) metadata_new_ok) as (m & Hr & Hm & Hc).
  { intros t. by apply metadata_get_none; [apply metadata_new_ok|apply lookup_empty]. }
  exists m. split; [exact Hr|]. split; [exact Hc|]. intros t t' r r' (a & Ha & Hd)%bind_Some (a' & Ha' & Hd')%bind_Some Harc.
  unfold downcast in Hd, Hd'. destruct (decide (any_type Val a = t)); [|done]. destruct (decide (any_type Val a' = t')); [|done].
  injection Hd as <-. injection Hd' as <-. by eapply (meta_unshared _ Hm t t').
Qed.
End Metadata.

(** ** The order index *)

Inductive perp_op :=
| OpSet (l : PerpDexLocation) (v : PerpDexValue)
| OpDelete (l : PerpDexLocation).
#[export] Instance perp_op_eq_dec : EqDecision perp_op.
Proof. solve_decision. Defined.

(** Calls of the trait, one after the other. *)
Fixpoint perp_calls (ops : list perp_op) (s : InMemoryPerp) : outcome StorageError InMemoryPerp :=
  match ops with
  | [] => Ok s
  | OpSet l v :: ops => s ← set s l v; perp_calls ops s
  | OpDelete l :: ops => s ← PerpStorage.delete s l; perp_calls ops s
  end.

Definition listed (s : InMemoryPerp) (u : Address) (m : Z) : list Z := default [] (user_orders s !! (u, m)).

(** What the calls should leave behind: every [set] of a live value lists its order
    once more, in order, unless a later [delete] of that order follows; the data is
    what the last call for the location left. *)
Fixpoint standing_orders (u : Address) (m : Z) (ops : list perp_op) : list Z :=
  match ops with
  | [] => []
  | OpSet (OrderLoc u' m' id) v :: ops =>
      if decide ((u', m') = (u, m) /\ v <> Deleted /\ OpDelete (OrderLoc u m id) ∉ ops)
      then id :: standing_orders u m ops else standing_orders u m ops
  | _ :: ops => standing_orders u m ops
  end.

Fixpoint last_value (l : PerpDexLocation) (ops : list perp_op) (v : option PerpDexValue) : option PerpDexValue :=
  match ops with
  | [] => v
  | OpSet l' v' :: ops => last_value l ops (if decide (l' = l) then Some v' else v)
  | OpDelete l' :: ops => last_value l ops (if decide (l' = l) then None else v)
  end.

#[local] Arguments is_deleted : simpl never.

Lemma is_deleted_true (v : PerpDexValue) : is_deleted v = true <-> v = Deleted.
Proof. by destruct v. Qed.

(** The two calls, on the lists and on the data. *)
Lemma set_listed s l v u m : listed (set_data (set_index s l v) l v) u m =
  listed s u m ++ match l with
    | OrderLoc u' m' id => if decide ((u', m') = (u, m) /\ v <> Deleted) then [id] else []
    | _ => []
    end.
Proof.
  unfold listed. destruct l as [| |u' m' id| |]; cbn; try by rewrite app_nil_r.
  pose proof (is_deleted_true v) as Hd. destruct (is_deleted v); cbn.
  { rewrite decide_False by (intros [_ Hv]; by apply Hv, Hd). by rewrite app_nil_r. }
  assert (v <> Deleted) by (intros ->; discriminate (proj2 Hd eq_refl)).
  destruct (decide ((u', m') = (u, m))) as [[= -> ->]|Hne].
  - by rewrite lookup_insert_eq, decide_True by done.
  - rewrite lookup_insert_ne, decide_False by naive_solver. by rewrite app_nil_r.
Qed.

Lemma delete_listed s l u m : listed (delete_data (delete_index s l) l) u m =
  match l with
  | OrderLoc u' m' id => if decide ((u', m') = (u, m)) then filter (fun i => i <> id) (listed s u m) else listed s u m
  | _ => listed s u m
  end.
Proof.
  unfold listed. destruct l as [| |u' m' id| |]; cbn; try done.
  destruct (user_orders s !! (u', m')) as [ids|] eqn:Hids; cbn; case_decide as Heq; try done.
  - injection Heq as -> ->. by rewrite lookup_insert_eq, Hids.
  - by rewrite lookup_insert_ne by done.
  - injection Heq as -> ->. by rewrite Hids.
Qed.

Lemma set_value s l v l' : perp_data (set_data (set_index s l v) l v) !! l' = if decide (l = l') then Some v else perp_data s !! l'.
Proof.
  assert (perp_data (set_index s l v) = perp_data s) as Hs by (destruct l; cbn; try done; by destruct (is_deleted v)).
  cbn. rewrite Hs. case_decide as Heq; [subst; apply lookup_insert_eq|by apply lookup_insert_ne].
Qed.

Lemma delete_value s l l' : perp_data (delete_data (delete_index s l) l) !! l' = if decide (l = l') then None else perp_data s !! l'.
Proof.
  assert (perp_data (delete_index s l) = perp_data s) as Hs by (by destruct l).
  cbn. rewrite Hs. case_decide as Heq; [subst; apply lookup_delete_eq|by apply lookup_delete_ne].
Qed.

(** Of the orders listed before, those remain that no call deletes. *)
Lemma calls_listed ops s s' u m : perp_calls ops s = Ok s' ->
  listed s' u m = filter (fun id => OpDelete (OrderLoc u m id) ∉ ops) (listed s u m) ++ standing_orders u m ops /\
  forall l, perp_data s' !! l = last_value l ops (perp_data s !! l).
Proof.
  revert s. induction ops as [|[l v|l] ops IH]; intros s; cbn [perp_calls].
  - intros [= <-]. split; [|done]. cbn. rewrite app_nil_r. symmetry. apply list_filter_all.
    apply Forall_forall. intros id _. apply not_elem_of_nil.
  - intros [-> Hd]%IH. split.
    + rewrite set_listed, filter_app.
      assert (forall id, OpDelete (OrderLoc u m id) ∉ OpSet l v :: ops <-> OpDelete (OrderLoc u m id) ∉ ops) as Hno
        by (intros id; rewrite not_elem_of_cons; naive_solver).
      rewrite (list_filter_iff _ _ (listed s u m) Hno), <- app_assoc. f_equal. cbn [standing_orders].
      destruct l as [| |u' m' id| |]; try done. destruct (decide (_ /\ _)) as [[[= -> ->] Hv]|Hn].
      * rewrite filter_cons. cbn. case_decide as Hin.
        -- by rewrite decide_True by done.
        -- by rewrite decide_False by naive_solver.
      * by rewrite decide_False by naive_solver.
    + intros l'. by rewrite Hd, set_value.
  - intros [-> Hd]%IH. split.
    + rewrite delete_listed. cbn [standing_orders].
      assert (forall id, OpDelete (OrderLoc u m id) ∉ OpDelete l :: ops <->
        OpDelete (OrderLoc u m id) ∉ ops /\ OrderLoc u m id <> l) as Hno
        by (intros id; rewrite not_elem_of_cons; naive_solver).
      f_equal. rewrite (list_filter_iff _ _ (listed s u m) Hno), <- list_filter_filter.
      assert (forall ids : list Z, (forall id, OrderLoc u m id <> l) -> filter (fun id => OrderLoc u m id <> l) ids = ids) as Hall
        by (intros ids Hne; apply list_filter_all, Forall_forall; intros id _; apply Hne).
      destruct l as [| |u' m' id'| |]; try by rewrite Hall.
      case_decide as Heq; [|by rewrite Hall by (intros id; congruence)]. injection Heq as -> ->. f_equal.
      apply list_filter_iff. intros id. split; [by intros Hne [= ->]|by intros Hne ->].
    + intros l'. by rewrite Hd, delete_value.
Qed.

Lemma with_balances_unlisted bs u m : listed (with_balances bs) u m = [].
Proof. unfold listed. cbn. by rewrite lookup_empty. Qed.

Lemma all_orders_elem s u id : id ∈ all_orders s u <-> exists m, id ∈ listed s u m.
Proof.
  unfold all_orders, listed. rewrite list_elem_of_In, in_flat_map. split.
  - intros ([[u' m] ids] & Hin & Hid). apply list_elem_of_In, elem_of_map_to_list in Hin.
    case_decide; [|done]. subst. exists m. rewrite Hin. by apply list_elem_of_In.
  - intros [m Hid]. destruct (user_orders s !! (u, m)) as [ids|] eqn:Hids; [|by apply elem_of_nil in Hid].
    exists ((u, m), ids). split; [by apply list_elem_of_In, elem_of_map_to_list|]. rewrite decide_True by done.
    by apply list_elem_of_In.
Qed.

(** C36: the order index is the record of the calls, as long as they do not overlap.
    After any sequence of [set] and [delete] on a fresh storage the orders of a user
    in a market are those of the [set]s with a live value that no [delete] of the
    order follows, one entry for each such call, in the order of the calls.  (So a
    [set] to [Deleted] lists nothing, and takes nothing off the list.)  Every
    location holds the value of the last call for it, and the orders of a user in
    all markets are those of each market. *)
Theorem order_index_exact balances ops s
  (Hrun : perp_calls ops (with_balances balances) = Ok s) :
  (forall u m, get_user_orders s u m = Ok (standing_orders u m ops)) /\
  (forall l, get s l = Ok (last_value l ops (perp_data (with_balances balances) !! l))) /\
  (forall u, exists all, get_all_user_orders s u = Ok all /\
     forall id, id ∈ all <-> exists m, id ∈ standing_orders u m ops).
Proof.
  assert (forall u m, listed s u m = standing_orders u m ops) as Hl.
  { intros u m. by rewrite (proj1 (calls_listed ops _ s u m Hrun)), with_balances_unlisted. }
  split; [|split].
  - intros u m. cbn. f_equal. apply Hl.
  - intros l. cbn. f_equal. by apply (calls_listed ops _ s 0 0 Hrun).
  - intros u. exists (all_orders s u). split; [done|]. intros id. rewrite all_orders_elem. by setoid_rewrite Hl.
Qed.

(** Every sequence of calls succeeds. *)
Lemma perp_calls_total ops s : exists s', perp_calls ops s = Ok s'.
Proof. revert s. induction ops as [|[l v|l] ops IH]; intros s; cbn; [by exists s|apply IH..]. Qed.

(** The two locked sections of a call are not one step: when a [delete] runs
    between those of a [set], the order stays in the data and is listed nowhere. *)
Lemma set_delete_race :
  let l := OrderLoc 7 1 5 in
  let v := VOrder Limit Long 10 3 0 Open false false 0 None in
  let s := set_data (delete_data (delete_index (set_index InMemoryPerp_new l v) l) l) l v in
  perp_data s !! l = Some v /\ listed s 7 1 = [].
Proof. split; by vm_compute. Qed.

(** Marking an order as deleted, as a cancelled order is written, leaves it on the
    list. *)
Lemma set_deleted_stays_listed :
  let l := OrderLoc 7 1 5 in
  let v := VOrder Limit Long 10 3 0 Open false false 0 None in
  (fun s => (get s l, get_user_orders s 7 1)) <$> perp_calls [OpSet l v; OpSet l Deleted] InMemoryPerp_new =
    Ok (Ok (Some Deleted), Ok [5]).
Proof. by vm_compute. Qed.

(** Setting an order again lists it twice. *)
Lemma set_twice_lists_twice :
  let l := OrderLoc 7 1 5 in
  (fun s => listed s 7 1) <$> perp_calls [OpSet l empty_position; OpSet l empty_position] InMemoryPerp_new = Ok [5; 5].
Proof. by vm_compute. Qed.

(** ** Witnesses *)

Lemma partitions_are_disjoint_witness :
  mix_hash PERPDEX 0x123456789ABCDEF0 <> mix_hash EVM 0x123456789ABCDEF0.
Proof.
  intros H. apply (partitions_are_disjoint PERPDEX EVM 0x123456789ABCDEF0 0x123456789ABCDEF0) in H; [|by vm_compute..].
  by destruct H.
Defined.

(** Two types: naturals and strings. *)
Definition demo_val (t : bool) : Type := if t then nat else string.
Definition demo_default (t : bool) : demo_val t := match t with true => 0%nat | false => EmptyString end.

(** Inserting again makes a new allocation, and the other type keeps its own. *)
Lemma metadata_demo :
  let ops := [MetaGetOrInsert demo_val true; MetaInsert demo_val false "old"%string; MetaInsert demo_val false "new"%string;
    MetaGetOrInsert demo_val false; MetaGetOrInsert demo_val true] in
  match meta_calls demo_val demo_default ops (VmMetadata_new demo_val) with
  | Ok (rs, _) => rs = [existT true (0%nat, 0%nat); existT false (2%nat, "new"%string); existT true (0%nat, 0%nat)]
  | _ => False
  end.
Proof. by vm_compute. Qed.

Lemma order_index_exact_witness :
  exists s, perp_calls [OpSet (OrderLoc 7 1 5) empty_position; OpSet (OrderLoc 7 1 6) empty_position;
      OpSet (OrderLoc 7 1 8) Deleted; OpDelete (OrderLoc 7 1 5)] (with_balances [(7, 0, 1000)]) = Ok s /\
    get_user_orders s 7 1 = Ok [6] /\ get s (OrderLoc 7 1 5) = Ok None.
Proof.
  eexists. destruct (order_index_exact [(7, 0, 1000)] [OpSet (OrderLoc 7 1 5) empty_position;
    OpSet (OrderLoc 7 1 6) empty_position; OpSet (OrderLoc 7 1 8) Deleted; OpDelete (OrderLoc 7 1 5)] _ eq_refl)
    as (Horders & Hdata & _).
  split; [reflexivity|]. split; [exact (Horders 7 1)|exact (Hdata (OrderLoc 7 1 5))].
Defined.
