(* ===== verification/PerpMath.v ===== *)
(** * PerpMath: margin, entry price, profit and loss, reduce-only

    The arithmetic of perpdex/executor.rs against what it means to compute, as
    long as no product overflows, and what it computes when one does. *)

From S2P Require Import Prelude Types PerpTypes PerpState PerpStorage PerpExecutor.
#[local] Open Scope Z_scope.

Lemma PRICE_PRECISION_pos : 0 < PRICE_PRECISION.
Proof. done. Qed.
#[local] Opaque PRICE_PRECISION.

Lemma u256_mul_exact a b : 0 <= a -> 0 <= b -> a * b < 2 ^ 256 -> u256_mul a b = a * b.
Proof. intros Ha Hb H. apply wrap_small. unfold is_u. nia. Qed.

Lemma to_i128_exact u : 0 <= u <= I128_MAX -> to_i128 u = u.
Proof. intros H. unfold to_i128. by rewrite (proj2 (Z.leb_le _ _)) by lia. Qed.

Lemma to_i128_bounds u : 0 <= u -> 0 <= to_i128 u <= I128_MAX.
Proof. intros H. unfold to_i128. destruct (Z.leb_spec u I128_MAX); [done|]. by vm_compute. Qed.

(** A signed size. *)
Lemma signed_size u side : 0 <= u -> i128_mul (to_i128 u) (direction side) = to_i128 u * direction side.
Proof.
  intros H%to_i128_bounds. apply swrap_small; [done|]. unfold is_s, I128_MAX in *. destruct side; cbn [direction]; lia.
Qed.

(** ** Margin *)

(** Without overflow the margin is the notional value over the leverage, rounded
    down at both divisions. *)
Lemma required_margin_exact price size leverage :
  is_u 256 price -> is_u 256 size -> 1 <= leverage -> price * size < 2 ^ 256 ->
  required_margin price size leverage = Ok (price * size / PRICE_PRECISION / leverage).
Proof.
  intros Hp Hs Hl H. unfold required_margin, is_zero_div. unfold is_u in *.
  rewrite u256_mul_exact by lia. by rewrite (proj2 (Z.eqb_neq _ _)) by lia.
Qed.

Lemma required_margin_ok price size leverage : 1 <= leverage ->
  exists m, required_margin price size leverage = Ok m /\ 0 <= m.
Proof.
  intros Hl. unfold required_margin, is_zero_div. rewrite (proj2 (Z.eqb_neq _ _)) by lia. eexists. split; [done|].
  pose proof PRICE_PRECISION_pos. pose proof (wrap_is_u 256 (price * size) ltac:(lia)) as [H0 _].
  apply Z.div_pos; [|lia]. by apply Z.div_pos.
Qed.

(** With overflow the product wraps: a notional value of 2^256 needs no margin. *)
Lemma margin_overflow : required_margin (2 ^ 255) 2 1 = Ok 0.
Proof. by vm_compute. Qed.

(** ** Entry price *)

Lemma div_bounds a d : 0 < d -> a / d * d <= a < (a / d + 1) * d.
Proof. intros Hd. pose proof (Z.div_mod a d ltac:(lia)). pose proof (Z.mod_pos_bound a d Hd). lia. Qed.

(** The entry price that [average_entry_price] computes for the sizes [s] and [f] at
    the prices [e] and [p]. *)
Lemma weighted_average s e f p : 0 <= s -> 0 < f -> 0 <= e -> 0 <= p -> s * e + f * p < 2 ^ 256 ->
  let q := u256_mul (u256_add (u256_mul s e / PRICE_PRECISION) (u256_mul f p / PRICE_PRECISION)) PRICE_PRECISION / (s + f) in
  0 <= q /\ s * e + f * p - 2 * PRICE_PRECISION - (s + f) < q * (s + f) <= s * e + f * p /\
  q * (s + f) < 2 ^ 256.
Proof.
  pose proof PRICE_PRECISION_pos as HP. intros Hs Hf He Hp Hfit. cbv zeta.
  assert (0 <= s * e) by nia. assert (0 <= f * p) by nia.
  rewrite (u256_mul_exact s e), (u256_mul_exact f p) by lia.
  set (A := s * e / PRICE_PRECISION). set (B := f * p / PRICE_PRECISION).
  pose proof (div_bounds (s * e) PRICE_PRECISION HP) as HA. fold A in HA.
  pose proof (div_bounds (f * p) PRICE_PRECISION HP) as HB. fold B in HB.
  assert (0 <= A) by (apply Z.div_pos; nia). assert (0 <= B) by (apply Z.div_pos; nia).
  assert (u256_add A B = A + B) as -> by (apply wrap_small; unfold is_u; nia).
  rewrite (u256_mul_exact (A + B) PRICE_PRECISION) by lia.
  pose proof (div_bounds ((A + B) * PRICE_PRECISION) (s + f) ltac:(lia)) as Hq.
  assert (0 <= (A + B) * PRICE_PRECISION / (s + f)) by (apply Z.div_pos; nia). split; [done|]. lia.
Qed.

(** C28: adding to a position averages the entry price, and the margin follows it.
    If nothing overflows, the new entry price times the new size is the notional
    value of the old position plus that of the fill, each at its own price: never
    more, and less by no more than the rounding of the three divisions.  The margin
    is the notional value of the whole position at that price over the leverage;
    size, leverage and funding index are the expected ones and no profit is booked. *)
Theorem entry_price_is_average pos side filled price leverage
  (Hsize : pos_size pos <> 0) (Hside : Z.sgn (pos_size pos) = direction side)
  (Hfilled : 0 < filled) (Hentry : 0 <= entry_price pos) (Hprice : 0 <= price)
  (Hlev : 1 <= leverage)
  (Hfit : Z.abs (pos_size pos) + filled <= I128_MAX)
  (Hnotional : Z.abs (pos_size pos) * entry_price pos + filled * price < 2 ^ 256) :
  let total := Z.abs (pos_size pos) * entry_price pos + filled * price in
  exists p', update_position (Some pos) side filled price leverage = Ok p' /\
    pos_size p' = pos_size pos + filled * direction side /\
    Z.abs (pos_size p') = Z.abs (pos_size pos) + filled /\
    total - 2 * PRICE_PRECISION - Z.abs (pos_size p') < entry_price p' * Z.abs (pos_size p') <= total /\
    margin p' = Z.abs (pos_size p') * entry_price p' / PRICE_PRECISION / leverage /\
    pos_leverage p' = leverage /\ last_funding_index p' = last_funding_index pos /\ unrealized_pnl p' = 0.
Proof.
  cbv zeta. pose proof PRICE_PRECISION_pos as HP.
  set (s := Z.abs (pos_size pos)) in *. set (e := entry_price pos) in *.
  unfold update_position. rewrite signed_size, to_i128_exact by (unfold I128_MAX in *; lia).
  assert (i128_add (pos_size pos) (filled * direction side) = pos_size pos + filled * direction side) as ->.
  { apply swrap_small; [done|]. unfold is_s, I128_MAX in *. destruct side; cbn [direction] in *; lia. }
  assert (Z.sgn (filled * direction side) = direction side) as -> by (destruct side; cbn [direction] in *; lia).
  rewrite Hside, Z.eqb_refl.
  assert (Z.abs (pos_size pos + filled * direction side) = s + filled) as Habs by (destruct side; cbn [direction] in *; lia).
  assert (Z.abs (filled * direction side) = filled) as Hfa by (destruct side; cbn [direction]; lia).
  unfold average_entry_price. rewrite Habs, Hfa. fold s e.
  rewrite (proj2 (Z.ltb_lt 0 (s + filled))) by lia.
  destruct (weighted_average s e filled price) as (Hq0 & Hq & Hmul); [lia..|]. set (q := _ / (s + filled)) in *.
  rewrite required_margin_exact; [|unfold is_u, I128_MAX in *; nia..]. cbn [mbind outcome_bind].
  eexists. split; [done|]. cbn [pos_size pos_leverage entry_price last_funding_index margin unrealized_pnl]. rewrite Habs.
  repeat (split; [done|]). by rewrite (Z.mul_comm q).
Qed.

(** ** Reduce-only *)

Lemma reduce_only_opposite side size pos : 0 < size ->
  check_reduce_only side size (Some pos) true = Ok tt ->
  pos_size pos <> 0 /\ Z.sgn (pos_size pos) <> direction side.
Proof.
  intros Hs. unfold check_reduce_only. rewrite signed_size by lia.
  pose proof (to_i128_bounds size ltac:(lia)) as Hb. assert (0 < to_i128 size) as Hpos.
  { unfold to_i128 in *. destruct (size <=? I128_MAX); [done|by vm_compute]. }
  unfold is_reducing. destruct (Z.eqb_spec (pos_size pos) 0); [done|].
  destruct (Z.ltb_spec 0 (to_i128 size * direction side)) as [H1|H1];
    destruct (Z.ltb_spec 0 (pos_size pos)); cbn [negb Bool.eqb]; try done; intros _;
    split; try done; destruct side; cbn [direction] in *; lia.
Qed.

(** C29: a reduce-only order that passes the check and is no larger than the
    position reduces it: the position shrinks by the filled size, never changes
    sides, and keeps its entry price. *)
Theorem reduce_only_reduces pos side size price leverage
  (Hsize : 0 < size <= Z.abs (pos_size pos)) (Hfit : Z.abs (pos_size pos) <= I128_MAX)
  (Hlev : 1 <= leverage)
  (Hcheck : check_reduce_only side size (Some pos) true = Ok tt) :
  exists p', update_position (Some pos) side size price leverage = Ok p' /\
    Z.abs (pos_size p') = Z.abs (pos_size pos) - size /\
    (pos_size p' = 0 \/ Z.sgn (pos_size p') = Z.sgn (pos_size pos)) /\
    entry_price p' = entry_price pos.
Proof.
  destruct (reduce_only_opposite _ _ _ (proj1 Hsize) Hcheck) as [Hne Hsgn].
  unfold update_position. rewrite signed_size, to_i128_exact by lia.
  assert (i128_add (pos_size pos) (size * direction side) = pos_size pos + size * direction side) as ->.
  { apply swrap_small; [done|]. unfold is_s, I128_MAX in *. destruct side; cbn [direction] in *; lia. }
  rewrite (proj2 (Z.eqb_neq _ _)) by (destruct side; cbn [direction] in *; lia).
  assert (Z.abs (pos_size pos + size * direction side) = Z.abs (pos_size pos) - size) as Habs
    by (destruct side; cbn [direction] in *; lia).
  assert (forall z, Z.abs z <= I128_MAX -> i128_abs z = Z.abs z) as Hab.
  { intros z Hz. apply swrap_small; [done|]. unfold is_s, I128_MAX in *. lia. }
  rewrite !Hab by lia. rewrite (proj2 (Z.ltb_lt _ _)) by lia.
  destruct (required_margin_ok (entry_price pos) (Z.abs (pos_size pos + size * direction side)) leverage Hlev)
    as (m & -> & _). cbn. eexists. split; [done|]. cbn. split; [done|]. split; [|done].
  destruct side; cbn [direction] in *; lia.
Qed.

(** A larger one passes the check too and turns the position around. *)
Lemma reduce_only_flips :
  let pos := mkPositionData 10 500 5 0 0 0 in
  check_reduce_only Short 30 (Some pos) true = Ok tt /\
  (pos_size <$> update_position (Some pos) Short 30 700 5) = Ok (-20).
Proof. by vm_compute. Qed.

(** Turning a position around to a smaller one keeps the old entry price. *)
Lemma flip_keeps_entry_price :
  let pos := mkPositionData 10 500 5 0 0 0 in
  ((fun p => (pos_size p, entry_price p)) <$> update_position (Some pos) Short 15 700 5) = Ok (-5, 500).
Proof. by vm_compute. Qed.

(** ** Profit and loss *)

Definition clamp_i128 (z : Z) : Z := Z.max (- I128_MAX) (Z.min z I128_MAX).

Lemma scaled_clamp n d : 0 <= n -> 0 <= d -> n * d < 2 ^ 256 ->
  to_i128 (u256_mul n d / PRICE_PRECISION) = clamp_i128 (n * d / PRICE_PRECISION) /\
  i128_neg (to_i128 (u256_mul n d / PRICE_PRECISION)) = clamp_i128 (- (n * d / PRICE_PRECISION)).
Proof.
  intros Hn Hd H. rewrite u256_mul_exact by done. pose proof PRICE_PRECISION_pos.
  assert (0 <= n * d / PRICE_PRECISION) as Hq by (apply Z.div_pos; nia).
  generalize dependent (n * d / PRICE_PRECISION). intros q Hq.
  pose proof (to_i128_bounds q Hq). assert (to_i128 q = Z.min q I128_MAX) as Heq.
  { unfold to_i128. destruct (Z.leb_spec q I128_MAX); lia. }
  unfold clamp_i128. assert (0 < I128_MAX) by done. split; [lia|].
  transitivity (- to_i128 q); [|lia]. apply swrap_small; [done|]. unfold is_s, I128_MAX in *. lia.
Qed.

(** The unrealized profit is the signed size times the price move over the
    price precision, rounded toward zero and clamped to 128 bits, as long as the
    product fits a word: gains and losses have their sign, and opposite positions
    have opposite results. *)
Theorem unrealized_pnl_exact pos mark
  (Hentry : is_u 256 (entry_price pos)) (Hmark : is_u 256 mark)
  (Hfit : Z.abs (pos_size pos) * Z.abs (mark - entry_price pos) < 2 ^ 256) :
  calculate_unrealized_pnl pos mark =
    clamp_i128 (Z.quot (pos_size pos * (mark - entry_price pos)) PRICE_PRECISION).
Proof.
  pose proof PRICE_PRECISION_pos as HP. unfold calculate_unrealized_pnl, is_u in *.
  destruct (Z.eqb_spec (pos_size pos) 0) as [->|Hne]; [by rewrite Z.mul_0_l, Z.quot_0_l by lia|].
  set (s := pos_size pos) in *. set (e := entry_price pos) in *.
  assert (forall d, 0 <= d -> Z.abs s * d < 2 ^ 256 ->
    (if 0 <? s then to_i128 (u256_mul (Z.abs s) d / PRICE_PRECISION)
     else i128_neg (to_i128 (u256_mul (Z.abs s) d / PRICE_PRECISION))) =
      clamp_i128 (Z.quot (s * d) PRICE_PRECISION) /\
    (if 0 <? s then i128_neg (to_i128 (u256_mul (Z.abs s) d / PRICE_PRECISION))
     else to_i128 (u256_mul (Z.abs s) d / PRICE_PRECISION)) =
      clamp_i128 (Z.quot (s * - d) PRICE_PRECISION)) as Hgo.
  { intros d Hd Hsd. destruct (scaled_clamp (Z.abs s) d ltac:(lia) Hd Hsd) as [H1 H2].
    rewrite H2, H1. replace (s * - d) with (- (s * d)) by lia. rewrite Z.quot_opp_l by lia.
    destruct (Z.ltb_spec 0 s) as [Hs|Hs].
    - rewrite Z.abs_eq by lia. by rewrite Z.quot_div_nonneg by nia.
    - assert (s * d = - (Z.abs s * d)) as -> by lia.
      rewrite Z.quot_opp_l, Z.opp_involutive by lia. by rewrite Z.quot_div_nonneg by nia. }
  destruct (Z.ltb_spec e mark) as [Hlt|Hge].
  - unfold u256_sub. rewrite wrap_small by (unfold is_u; lia). apply Hgo; [lia|].
    by rewrite <- (Z.abs_eq (mark - e)) by lia.
  - unfold u256_sub. rewrite wrap_small by (unfold is_u; lia).
    replace (mark - e) with (- (e - mark)) by lia. apply Hgo; [lia|].
    rewrite <- (Z.abs_eq (e - mark)) by lia. by replace (e - mark) with (- (mark - e)) by lia; rewrite Z.abs_opp.
Qed.

(** ** Witnesses *)

#[local] Transparent PRICE_PRECISION.

Definition long_position : PositionData := mkPositionData (2 * 10 ^ 18) (1000 * 10 ^ 18) 10 (200 * 10 ^ 18) 0 0.

(** Two units at 1000 and two at 2000 make four at 1500. *)
Lemma entry_price_is_average_witness :
  exists p', update_position (Some long_position) Long (2 * 10 ^ 18) (2000 * 10 ^ 18) 10 = Ok p' /\
    1500 * 10 ^ 18 - 2 < entry_price p' <= 1500 * 10 ^ 18 /\ margin p' = 600 * 10 ^ 18.
Proof.
  destruct (entry_price_is_average long_position Long (2 * 10 ^ 18) (2000 * 10 ^ 18) 10 ltac:(done) eq_refl
    ltac:(done) ltac:(done) ltac:(done) ltac:(done) ltac:(by vm_compute) ltac:(by vm_compute))
    as (p' & H & _ & Ha & Hq & Hm & _).
  exists p'. split; [exact H|]. rewrite Ha in *. cbn [long_position pos_size entry_price] in *.
  assert (entry_price p' = 1500 * 10 ^ 18) as He.
  { vm_compute in H. injection H as <-. reflexivity. }
  rewrite He in *. split; [split; [reflexivity|done]|]. rewrite Hm. by vm_compute.
Defined.

Lemma reduce_only_reduces_witness :
  exists p', update_position (Some long_position) Short (10 ^ 18) (900 * 10 ^ 18) 10 = Ok p' /\
    entry_price p' = 1000 * 10 ^ 18.
Proof.
  destruct (reduce_only_reduces long_position Short (10 ^ 18) (900 * 10 ^ 18) 10
    ltac:(by vm_compute) ltac:(by vm_compute) ltac:(done) ltac:(by vm_compute)) as (p' & H & _ & _ & He).
  exists p'. split; [exact H|exact He].
Defined.

Lemma unrealized_pnl_exact_witness :
  calculate_unrealized_pnl long_position (900 * 10 ^ 18) =
    clamp_i128 (Z.quot (2 * 10 ^ 18 * (900 * 10 ^ 18 - 1000 * 10 ^ 18)) PRICE_PRECISION).
Proof. apply (unrealized_pnl_exact long_position (900 * 10 ^ 18)); by vm_compute. Defined.
