(* ===== verification/PerpSpec.v ===== *)
(** * PerpSpec: what a PerpDex transaction may do (perpdex/executor.rs)

    Two relations on operations of the monad carry the proofs: [emits], what may be
    appended to the write set, and [clean], a failure leaves the state alone.  Both
    are closed under [bind], so the theorems follow the shape of the code. *)

From S2P Require Import Prelude Types PerpTypes PerpTraits PerpState PerpStorage PerpExecutor PerpStateSpec PerpMath.
#[local] Open Scope Z_scope.

(** ** Operations of the monad *)

Section Emits.
Context `{!FxHash PerpDexLocation} (Q : PerpDexLocation -> PerpDexValue -> Prop).

Definition written_ok (w : Z * PerpDexLocation * PerpDexValue) : Prop :=
  w.1.1 = location_hash w.1.2 /\ Q w.1.2 w.2.

(** Started in [s], the operation appends writes that satisfy [Q], and leaves the
    read set alone. *)
Definition emits_from {A} (s : xstate) (m : exec A) : Prop :=
  read_set (m s).2 = read_set s /\
  exists new, write_set (m s).2 = write_set s ++ new /\ Forall written_ok new.
Definition emits {A} (m : exec A) : Prop := forall s, emits_from s m.

Lemma emits_same {A} (m : exec A) : (forall s, (m s).2 = s) -> emits m.
Proof. intros H s. split; rewrite H; [done|]. exists []. by rewrite app_nil_r. Qed.

Lemma emits_ret {A} (a : A) : emits (mret a).
Proof. by apply emits_same. Qed.
Lemma emits_throw {A} e : emits (A := A) (throw e).
Proof. by apply emits_same. Qed.
Lemma emits_lift {A} (m : outcome StorageError A) : emits (lift m).
Proof. by apply emits_same. Qed.
Lemma emits_pure {A} (m : outcome ExecutionError A) : emits (pure_of m).
Proof. by apply emits_same. Qed.

Lemma emits_bind_with {A B} (m : exec A) (k : A -> exec B) : emits m ->
  (forall s a s', m s = (Ok a, s') -> emits_from s' (k a)) -> emits (m ≫= k).
Proof.
  intros Hm Hk s. specialize (Hm s). unfold emits_from, mbind, state_bind in *.
  destruct (m s) as [[a|e|] s1] eqn:E; cbn in *; [|done..].
  destruct Hm as (Hr & new & Hw & Hnew). destruct (Hk _ _ _ E) as (Hr' & new' & Hw' & Hnew').
  split; [congruence|]. exists (new ++ new'). by rewrite Hw', Hw, app_assoc, Forall_app.
Qed.

Lemma emits_bind {A B} (m : exec A) (k : A -> exec B) : emits m -> (forall a, emits (k a)) -> emits (m ≫= k).
Proof. intros Hm Hk. apply emits_bind_with; [done|]. intros s a s' _. apply Hk. Qed.

Lemma emits_push l v : Q l v -> emits (push l v).
Proof. intros Hq s. split; [done|]. exists [(location_hash l, l, v)]. split; [done|]. by repeat constructor. Qed.

Lemma emits_order_id : emits generate_order_id.
Proof. intros s. split; [done|]. exists []. by rewrite app_nil_r. Qed.
End Emits.

Create HintDb emits.
#[export] Hint Resolve emits_ret emits_throw emits_lift emits_pure emits_order_id : emits.

(** A failure leaves the state as it was. *)
Definition clean {A} (m : exec A) : Prop := forall s, (exists a s', m s = (Ok a, s')) \/ (m s).2 = s.

(** It does not fail at all, or does not touch the state. *)
Definition total {A} (m : exec A) : Prop := forall s, exists a s', m s = (Ok a, s').
Definition silent {A} (m : exec A) : Prop := forall s, (m s).2 = s.

Lemma silent_clean {A} (m : exec A) : silent m -> clean m.
Proof. intros H s. by right. Qed.
Lemma total_clean {A} (m : exec A) : total m -> clean m.
Proof. intros H s. by left. Qed.

Lemma clean_bind {A B} (m : exec A) (k : A -> exec B) : silent m -> (forall a, clean (k a)) -> clean (m ≫= k).
Proof.
  intros Hm Hk s. specialize (Hm s). unfold mbind, state_bind. destruct (m s) as [[a|e|] s1]; cbn in *; subst; auto.
  apply Hk.
Qed.

Lemma silent_bind {A B} (m : exec A) (k : A -> exec B) : silent m -> (forall a, silent (k a)) -> silent (m ≫= k).
Proof.
  intros Hm Hk s. specialize (Hm s). unfold mbind, state_bind. destruct (m s) as [[a|e|] s1]; cbn in *; subst; auto.
  apply Hk.
Qed.

Lemma total_bind {A B} (m : exec A) (k : A -> exec B) : total m -> (forall a, total (k a)) -> total (m ≫= k).
Proof. intros Hm Hk s. destruct (Hm s) as (a & s1 & E). unfold mbind, state_bind. rewrite E. apply Hk. Qed.

Create HintDb perp.
Lemma silent_ret {A} (a : A) : silent (mret a).
Proof. done. Qed.
Lemma silent_throw {A} e : silent (A := A) (throw e).
Proof. done. Qed.
Lemma silent_lift {A} (m : outcome StorageError A) : silent (lift m).
Proof. done. Qed.
Lemma silent_pure {A} (m : outcome ExecutionError A) : silent (pure_of m).
Proof. done. Qed.
Lemma total_ret {A} (a : A) : total (mret a).
Proof. intros s. by eexists _, _. Qed.
Lemma total_push `{!FxHash PerpDexLocation} l v : total (push l v).
Proof. intros s. by eexists _, _. Qed.
Lemma total_order_id : total generate_order_id.
Proof. intros s. by eexists _, _. Qed.
#[export] Hint Resolve silent_ret silent_throw silent_lift silent_pure silent_bind total_ret total_push total_order_id
  total_bind silent_clean : perp.

(** ** The executor *)

Section Executor.
Context {S : Type} `{PerpDexStorage S} `{!FxHash PerpDexLocation} (x : PerpDexExecutor S).

Lemma read_nonce_silent u : silent (read_nonce x u).
Proof. apply silent_bind; [done|]. intros [[]|]; eauto with perp. Qed.
Lemma read_balance_silent u a : silent (read_balance x u a).
Proof. apply silent_bind; [done|]. intros [[]|]; eauto with perp. Qed.
Lemma read_position_silent u m : silent (read_position x u m).
Proof. apply silent_bind; [done|]. intros [[]|]; eauto with perp. Qed.
Lemma read_market_silent m : silent (read_market x m).
Proof. apply silent_bind; [done|]. intros [[]|]; eauto with perp. Qed.

Lemma push_deletions_total u m ids : total (push_deletions u m ids).
Proof. induction ids as [|id ids IH]; cbn; eauto with perp. Qed.
#[local] Hint Resolve read_nonce_silent read_balance_silent read_position_silent read_market_silent
  push_deletions_total : perp.

Lemma leverage_valid_bounds leverage : leverage_valid leverage = true <-> 1 <= leverage <= 100.
Proof. unfold leverage_valid. rewrite andb_true_iff, !Z.leb_le. done. Qed.

(** The position after a fill always exists: the leverage was checked. *)
Lemma update_position_ok current side filled price leverage : 1 <= leverage ->
  exists p, update_position current side filled price leverage = Ok p.
Proof.
  intros Hl. unfold update_position. destruct current as [pos|].
  - set (e := if _ =? _ then _ else _). set (n := i128_add _ _).
    destruct (required_margin_ok e (Z.abs n) leverage Hl) as (m & -> & _). by eexists.
  - destruct (required_margin_ok price filled leverage Hl) as (m & -> & _). by eexists.
Qed.

Lemma place_order_clean tx m t side price size leverage po ro ex :
  clean (execute_place_order x tx m t side price size leverage po ro ex).
Proof.
  unfold execute_place_order. destruct (leverage_valid leverage) eqn:Hl; cbn [negb]; [|eauto with perp].
  apply leverage_valid_bounds in Hl. repeat (apply clean_bind; [by eauto with perp|]; intros ?).
  case_match; [eauto with perp|]. apply clean_bind; [eauto with perp|]. intros [filled avg].
  apply total_clean. repeat (apply total_bind; [|intros ?]); eauto with perp.
  - case_match; eauto with perp.
  - case_match; eauto with perp. apply total_bind; [|eauto with perp].
    match goal with |- total (pure_of (update_position ?c ?sd ?f ?p _)) =>
      destruct (update_position_ok c sd f p leverage) as [p0 Hp]; [lia|] end.
    intros s. eexists _, _. unfold pure_of. by rewrite Hp.
Qed.

(** C26: a failing operation leaves no trace.  Whatever operation fails, and in
    whatever state, the writes made so far and the counter of order ids are as
    they were: the errors all come before the first write. *)
Theorem failed_operation_leaves_no_trace tx op s :
  (exists r s', execute_operation x tx op s = (Ok r, s')) \/
  (execute_operation x tx op s).2 = s.
Proof.
  revert s. change (clean (execute_operation x tx op)). destruct op as [m t side price size lev po ro ex|m ids|m|m lev|m amount]; cbn [execute_operation].
  - apply place_order_clean.
  - apply total_clean. unfold execute_cancel_order. eauto with perp.
  - unfold execute_cancel_all. apply clean_bind; [eauto with perp|]. intros ids. apply total_clean. eauto with perp.
  - unfold execute_set_leverage. case_match; eauto with perp.
  - unfold execute_adjust_margin. apply clean_bind; [eauto with perp|]. intros b. case_match; [eauto with perp|].
    apply clean_bind; [eauto with perp|]. intros [pos|]; [|eauto with perp]. apply total_clean. eauto with perp.
Qed.

(** ** What is handed to the validation *)

Abbreviation filed := (emits (fun _ _ => True)).

Lemma silent_filed {A} (m : exec A) : silent m -> filed m.
Proof. intros Hm. by apply emits_same. Qed.
Lemma push_filed l v : filed (push l v).
Proof. by apply emits_push. Qed.
#[local] Hint Resolve silent_filed push_filed emits_bind : emits.

Lemma push_deletions_filed u m ids : filed (push_deletions u m ids).
Proof. induction ids; cbn; auto with emits. Qed.
#[local] Hint Resolve push_deletions_filed : emits.

Lemma operation_filed tx op : filed (execute_operation x tx op).
Proof.
  destruct op; cbn [execute_operation];
    unfold execute_place_order, execute_cancel_order, execute_cancel_all, execute_set_leverage, execute_adjust_margin;
    repeat first [by auto with emits perp | apply emits_bind; [|intros ?] | case_match].
Qed.

Lemma operations_filed tx gas ops : filed (execute_operations x tx gas ops).
Proof.
  revert gas. induction ops as [|op ops IH]; intros gas; cbn; [auto with emits|].
  apply emits_bind; [apply operation_filed|]. intros r. apply emits_bind; [apply IH|]. intros []. auto with emits.
Qed.

(** ** What is written *)

Lemma read_location_ok l s v s' : read_location x l s = (Ok v, s') -> s' = s /\ get (storage x) l = Ok v.
Proof. unfold read_location, lift. destruct (get _ _); cbn; by intros [= <- <-]. Qed.

(** The balance that the storage holds for a user, zero when it holds none. *)
Definition holds_balance (u : Address) (b : U256) : Prop :=
  get (storage x) (BalanceLoc u USDC_ASSET_ID) = Ok (Some (VBalance b)) \/
  (get (storage x) (BalanceLoc u USDC_ASSET_ID) = Ok None /\ b = 0).

Definition holds_nonce (u : Address) (n : Z) : Prop :=
  get (storage x) (UserNonce u) = Ok (Some (VNonce n)) \/ (get (storage x) (UserNonce u) = Ok None /\ n = 0).

Lemma read_balance_ok u s b s' : read_balance x u USDC_ASSET_ID s = (Ok b, s') -> s' = s /\ holds_balance u b.
Proof.
  intros (v & s1 & [-> Hg]%read_location_ok & H1)%state_bind_ok.
  destruct v as [[]|]; try discriminate H1; injection H1 as <- <-; (split; [done|]); [by left|by right].
Qed.

Lemma read_nonce_ok u s n s' : read_nonce x u s = (Ok n, s') -> s' = s /\ holds_nonce u n.
Proof.
  intros (v & s1 & [-> Hg]%read_location_ok & H1)%state_bind_ok.
  destruct v as [[]|]; try discriminate H1; injection H1 as <- <-; (split; [done|]); [by left|by right].
Qed.

(** What a transaction may write where: its user's balance, not above the stored
    one, its user's positions and orders, and its user's next nonce. *)
Definition permitted (tx : PerpDexTx) (l : PerpDexLocation) (v : PerpDexValue) : Prop :=
  match l, v with
  | BalanceLoc u a, VBalance b =>
      u = user tx /\ a = USDC_ASSET_ID /\ exists b0, holds_balance (user tx) b0 /\ 0 <= b <= b0
  | PositionLoc u _, VPosition _ _ _ _ _ _ => u = user tx
  | OrderLoc u _ _, (VOrder _ _ _ _ _ _ _ _ _ _ | Deleted) => u = user tx
  | UserNonce u, VNonce n => u = user tx /\ n = u64_add (perp_nonce tx) 1
  | _, _ => False
  end.

(** Stored balances are words, and so are the amounts of the operations. *)
Definition balances_typed (u : Address) : Prop := forall b, holds_balance u b -> is_u 256 b.
Definition amount_typed (op : Operation) : Prop :=
  match op with AdjustMargin _ amount => is_u 256 amount | _ => True end.

Abbreviation emits tx := (emits (permitted tx)).

Lemma deduct_permitted tx b c : balances_typed (user tx) -> holds_balance (user tx) b -> 0 <= c <= b ->
  permitted tx (BalanceLoc (user tx) USDC_ASSET_ID) (VBalance (u256_sub b c)).
Proof.
  intros Ht Hb Hc. split; [done|]. split; [done|]. exists b. split; [done|]. pose proof (Ht _ Hb) as Hu.
  unfold u256_sub. rewrite wrap_small; unfold is_u in *; lia.
Qed.

Lemma push_deletions_emits tx m ids : emits tx (push_deletions (user tx) m ids).
Proof.
  induction ids as [|id ids IH]; cbn; [auto with emits|]. apply emits_bind; [by apply emits_push|done].
Qed.

Lemma silent_emits {A} tx (m : exec A) : silent m -> emits tx m.
Proof. intros Hm. by apply emits_same. Qed.

Lemma place_order_emits tx m t side price size leverage po ro ex : balances_typed (user tx) ->
  emits tx (execute_place_order x tx m t side price size leverage po ro ex).
Proof.
  intros Ht. unfold execute_place_order. destruct (leverage_valid leverage) eqn:Hl; cbn [negb]; [|auto with emits].
  apply leverage_valid_bounds in Hl.
  apply emits_bind_with; [apply silent_emits, read_balance_silent|]. intros s0 b s1 [-> Hb]%read_balance_ok. revert s0.
  match goal with |- forall s, emits_from _ s ?m => change (emits tx m) end.
  apply emits_bind; [apply silent_emits, read_position_silent|]. intros pos.
  apply emits_bind; [apply silent_emits, read_market_silent|]. intros market.
  destruct (required_margin_ok price size leverage ltac:(lia)) as (required & -> & Hreq).
  apply emits_bind_with; [auto with emits|]. intros s0 r s1 [= <- <-]. revert s0.
  match goal with |- forall s, emits_from _ s ?m => change (emits tx m) end.
  destruct (Z.ltb_spec b required); [auto with emits|].
  apply emits_bind; [auto with emits|]. intros [filled avg].
  apply emits_bind; [auto with emits|]. intros id.
  apply emits_bind; [case_match; [by apply emits_push|auto with emits]|]. intros _.
  apply emits_bind; [|auto with emits]. case_match; [|auto with emits].
  apply emits_bind; [auto with emits|]. intros p. apply emits_bind; [by apply emits_push|]. intros _.
  apply emits_push. by apply deduct_permitted.
Qed.

Lemma adjust_margin_emits tx m amount : balances_typed (user tx) -> is_u 256 amount ->
  emits tx (execute_adjust_margin x tx m amount).
Proof.
  intros Ht Ha. unfold execute_adjust_margin.
  apply emits_bind_with; [apply silent_emits, read_balance_silent|]. intros s0 b s1 [-> Hb]%read_balance_ok. revert s0.
  match goal with |- forall s, emits_from _ s ?m => change (emits tx m) end.
  destruct (Z.ltb_spec b amount); [auto with emits|].
  apply emits_bind; [apply silent_emits, read_position_silent|]. intros [pos|]; [|auto with emits].
  apply emits_bind; [by apply emits_push|]. intros _. apply emits_bind; [|auto with emits].
  apply emits_push, deduct_permitted; [done|done|]. unfold is_u in Ha. lia.
Qed.

Lemma operation_emits tx op : balances_typed (user tx) -> amount_typed op ->
  emits tx (execute_operation x tx op).
Proof.
  intros Ht Ha. destruct op as [m t side price size lev po ro ex|m ids|m|m lev|m amount]; cbn [execute_operation].
  - by apply place_order_emits.
  - apply emits_bind; [apply push_deletions_emits|auto with emits].
  - apply emits_bind; [auto with emits|]. intros ids. apply emits_bind; [apply push_deletions_emits|auto with emits].
  - unfold execute_set_leverage. case_match; auto with emits.
  - by apply adjust_margin_emits.
Qed.

Lemma operations_emit tx gas ops : balances_typed (user tx) -> Forall amount_typed ops ->
  emits tx (execute_operations x tx gas ops).
Proof.
  intros Ht Ha. revert gas. induction Ha as [|op ops Hop Hops IH]; intros gas; cbn; [auto with emits|].
  apply emits_bind; [by apply operation_emits|]. intros r. apply emits_bind; [apply IH|]. intros [gas' rs].
  auto with emits.
Qed.

(** A successful execution, taken apart. *)
Lemma execute_success tx next rs ws r flags next' : execute x tx next = (Ok (Success rs ws r flags), next') ->
  holds_nonce (user tx) (perp_nonce tx) /\
  exists gas ors s, execute_operations x tx 0 (operations tx) (mkXstate ReadSet_new [] next) = (Ok (gas, ors), s) /\
    rs = ReadSet_new /\
    ws = WriteSet_push (write_set s) (UserNonce (user tx)) (VNonce (u64_add (perp_nonce tx) 1)) /\
    r = mkPerpDexResult gas ors /\ flags = flags_empty /\ next' = order_ids s.
Proof.
  intros Hx. unfold execute in Hx. destruct (execute_body x tx _) as [[r0|e|] s] eqn:Hbody; try done.
  unfold execute_body in Hbody.
  apply state_bind_ok in Hbody as (n & s1 & [-> Hn]%read_nonce_ok & Hbody).
  destruct (Z.eqb_spec n (perp_nonce tx)); cbn [negb] in Hbody; [subst n|discriminate Hbody].
  apply state_bind_ok in Hbody as ([gas ors] & s2 & Hops & Hbody).
  apply state_bind_ok in Hbody as ([] & s3 & [= <-] & [= <- <-]).
  destruct (operations_filed tx 0 (operations tx) (mkXstate ReadSet_new [] next)) as [Hrs _].
  rewrite Hops in Hrs. cbn in Hx, Hrs. rewrite Hrs in Hx. injection Hx as <- <- <- <- <-.
  split; [done|]. by exists gas, ors, s2.
Qed.

(** C25: a successful transaction writes its user's state only, and never more money
    than the user has.  Every write is filed under the hash of its location, in the
    PerpDex partition; it is a position, an order or a deletion of the user, the
    user's next nonce, or a balance between zero and the stored one.  The nonce is
    the last write. *)
Theorem writes_are_permitted tx next rs ws r flags next'
  (Ht : balances_typed (user tx)) (Ha : Forall amount_typed (operations tx))
  (Hx : execute x tx next = (Ok (Success rs ws r flags), next')) :
  Forall (fun w => w.1.1 = location_hash w.1.2 /\ from_hash w.1.1 = PERPDEX /\ permitted tx w.1.2 w.2) ws /\
  exists ws0, ws = ws0 ++ [(location_hash (UserNonce (user tx)), UserNonce (user tx),
    VNonce (u64_add (perp_nonce tx) 1))].
Proof.
  apply execute_success in Hx as (_ & gas & ors & s & Hops & _ & -> & _).
  destruct (operations_emit tx 0 (operations tx) Ht Ha (mkXstate ReadSet_new [] next)) as (_ & new & Hw & Hnew).
  rewrite Hops in Hw. cbn in Hw. unfold WriteSet_push. rewrite Hw. split; [|by eexists].
  apply Forall_app. split.
  - eapply Forall_impl; [exact Hnew|]. intros w [Hh Hp]. split; [done|]. split; [|done].
    rewrite Hh. apply location_hash_partition.
  - repeat constructor. cbn [fst]. apply location_hash_partition.
Qed.

(** ** Results, gas and order ids *)

(** The result of an operation, when the counter is [ids]. *)
Definition result_ok (tx : PerpDexTx) (ids : OrderIds) (op : Operation) (r : OperationResult) : Prop :=
  match op, r with
  | PlaceOrder _ _ _ _ size leverage _ _ _, OrderPlaced id filled =>
      id = (fetch_add ids).1 /\ (filled = 0 \/ filled = size) /\ 1 <= leverage <= 100
  | CancelOrder _ cancelled, OrdersCancelled cancelled' => cancelled' = cancelled
  | CancelAll (Some m), OrdersCancelled cancelled => get_user_orders (storage x) (user tx) m = Ok cancelled
  | CancelAll None, OrdersCancelled cancelled => get_all_user_orders (storage x) (user tx) = Ok cancelled
  | SetLeverage m l, LeverageUpdated m' l' => m' = m /\ l' = l /\ 1 <= l <= 100
  | AdjustMargin m a, MarginAdjusted m' a' => m' = m /\ a' = a
  | _, _ => False
  end.

Definition next_ids (op : Operation) (ids : OrderIds) : OrderIds := if is_place_order op then (fetch_add ids).2 else ids.

Fixpoint results_ok (tx : PerpDexTx) (ids : OrderIds) (ops : list Operation) (rs : list OperationResult) : Prop :=
  match ops, rs with
  | [], [] => True
  | op :: ops, r :: rs => result_ok tx ids op r /\ results_ok tx (next_ids op ids) ops rs
  | _, _ => False
  end.

Lemma push_ok l v s u s' : push l v s = (Ok u, s') -> order_ids s' = order_ids s.
Proof. by intros [= _ <-]. Qed.

Lemma push_deletions_ok u m ids s v s' : push_deletions u m ids s = (Ok v, s') ->
  order_ids s' = order_ids s.
Proof.
  revert s. induction ids as [|id ids IH]; intros s; cbn; [by intros [= _ <-]|].
  intros (w & s1 & H1%push_ok & H2%IH)%state_bind_ok. congruence.
Qed.

Lemma silent_ok {A} (m : exec A) s a s' : silent m -> m s = (Ok a, s') -> s' = s.
Proof. intros Hm E. specialize (Hm s). by rewrite E in Hm. Qed.

Lemma match_order_filled t side price size po ro market position filled avg :
  match_order t side price size po ro market position = Ok (filled, avg) -> filled = 0 \/ filled = size.
Proof.
  destruct t; cbn; unfold execute_limit_order, execute_market_order.
  - destruct po; [intros [= <- _]; by left|]. case_match; [intros [= <- _]; by left|].
    intros (u & _ & [= <- _])%outcome_bind_ok. by right.
  - intros (u & _ & [= <- _])%outcome_bind_ok. by right.
  - intros [= <- _]. by left.
  - intros [= <- _]. by left.
Qed.

Lemma place_order_ok tx m t side price size leverage po ro ex s r s' :
  execute_place_order x tx m t side price size leverage po ro ex s = (Ok r, s') ->
  (exists filled, r = OrderPlaced (fetch_add (order_ids s)).1 filled /\ (filled = 0 \/ filled = size)) /\ 1 <= leverage <= 100 /\
  order_ids s' = (fetch_add (order_ids s)).2.
Proof.
  unfold execute_place_order. destruct (leverage_valid leverage) eqn:Hl; cbn [negb]; [|by intros [=]].
  apply leverage_valid_bounds in Hl.
  intros (b & s1 & ->%silent_ok & H1)%state_bind_ok; [|apply read_balance_silent].
  apply state_bind_ok in H1 as (pos & s1 & ->%silent_ok & H1); [|apply read_position_silent].
  apply state_bind_ok in H1 as (market & s1 & ->%silent_ok & H1); [|apply read_market_silent].
  apply state_bind_ok in H1 as (required & s1 & ->%silent_ok & H1); [|done].
  destruct (b <? required); [by discriminate H1|].
  apply state_bind_ok in H1 as ([filled avg] & s1 & Hm & H1). injection Hm as Hm <-.
  apply match_order_filled in Hm. apply state_bind_ok in H1 as (id & s2 & [= <- <-] & H1).
  apply state_bind_ok in H1 as (u & s3 & Hrest & H1).
  apply state_bind_ok in H1 as (u' & s4 & Hpos & H1). injection H1 as <- <-.
  split; [by exists filled|]. split; [done|].
  assert (order_ids s3 = (fetch_add (order_ids s)).2) as <- by (destruct (0 <? u256_sub size filled); [by apply push_ok in Hrest|by injection Hrest as _ <-]).
  destruct (0 <? filled); [|by injection Hpos as _ <-].
  apply state_bind_ok in Hpos as (p & s5 & ->%silent_ok & Hpos); [|done].
  apply state_bind_ok in Hpos as (w & s6 & H6%push_ok & H7%push_ok). congruence.
Qed.

Lemma operation_ok tx op s r s' : execute_operation x tx op s = (Ok r, s') ->
  result_ok tx (order_ids s) op r /\ order_ids s' = next_ids op (order_ids s).
Proof.
  destruct op as [m t side price size lev po ro ex|m ids|m|m lev|m amount]; cbn [execute_operation]; unfold next_ids; cbn [is_place_order].
  - intros ((filled & -> & Hf) & Hl & Hn)%place_order_ok. by split.
  - intros (u & s1 & H1%push_deletions_ok & [= <- <-])%state_bind_ok. by split.
  - intros (ids & s1 & Hids & (u & s2 & H2%push_deletions_ok & [= <- <-])%state_bind_ok)%state_bind_ok.
    unfold lift in Hids. destruct m as [m|]; cbn.
    + destruct (get_user_orders _ _ _) eqn:E; try discriminate Hids. injection Hids as <- <-. by split.
    + destruct (get_all_user_orders _ _) eqn:E; try discriminate Hids. injection Hids as <- <-. by split.
  - unfold execute_set_leverage. destruct (leverage_valid lev) eqn:Hl; cbn [negb]; [|by intros [=]].
    apply leverage_valid_bounds in Hl. intros [= <- <-]. by split.
  - unfold execute_adjust_margin. intros (b & s1 & ->%silent_ok & H1)%state_bind_ok; [|apply read_balance_silent].
    destruct (b <? amount); [by discriminate H1|].
    apply state_bind_ok in H1 as (pos & s1 & ->%silent_ok & H1); [|apply read_position_silent].
    destruct pos as [pos|]; [|by discriminate H1].
    apply state_bind_ok in H1 as (u & s1 & H2%push_ok & (u' & s2 & H3%push_ok & [= <- <-])%state_bind_ok).
    split; [done|congruence].
Qed.

Lemma operations_ok tx gas ops s gas' rs s' : is_u 64 gas ->
  execute_operations x tx gas ops s = (Ok (gas', rs), s') ->
  results_ok tx (order_ids s) ops rs /\ gas' = wrap 64 (gas + 21000 * Z.of_nat (length ops)) /\
  order_ids s' = foldl (fun ids op => next_ids op ids) (order_ids s) ops.
Proof.
  revert gas s rs. induction ops as [|op ops IH]; intros gas s rs Hgas; cbn.
  { intros [= <- <- <-]. split; [done|]. by rewrite Z.add_0_r, wrap_small. }
  intros (r & s1 & [Hr Hn]%operation_ok & ([g rs1] & s2 & H2 & [= <- <- <-])%state_bind_ok)%state_bind_ok.
  apply IH in H2 as (Hrs & -> & ->); [|by apply wrap_is_u]. rewrite Hn in *. split; [by split|]. split; [|done].
  unfold u64_add, estimate_gas, wrap. rewrite Zplus_mod_idemp_l. f_equal. lia.
Qed.

(** The ids of the orders placed. *)
Definition placed_ids (rs : list OperationResult) : list Z :=
  omap (fun r => match r with OrderPlaced id _ => Some id | _ => None end) rs.
Definition placed_count (ops : list Operation) : nat := length (filter (fun op => is_place_order op = true) ops).

Lemma placed_count_cons op ops :
  placed_count (op :: ops) = if is_place_order op then Datatypes.S (placed_count ops) else placed_count ops.
Proof. unfold placed_count. rewrite filter_cons. by destruct (is_place_order op). Qed.

Lemma placed_ids_cons tx ids op r rs : result_ok tx ids op r ->
  placed_ids (r :: rs) = if is_place_order op then (fetch_add ids).1 :: placed_ids rs else placed_ids rs.
Proof. destruct op as [| |[]| |], r; try done. by intros (-> & _). Qed.

(** The [k]-th id that an execution takes, after the others that come first. *)
Definition nth_id (ids : OrderIds) (k : nat) : Z :=
  wrap 64 (next_order_id ids + Z.of_nat (k + sum_list (take (Datatypes.S k) (meanwhile ids)))).

Lemma sum_take_succ (l : list nat) k : sum_list (take (Datatypes.S k) l) = (default 0 (head l) + sum_list (take k (tail l)))%nat.
Proof. destruct l; cbn; [by rewrite take_nil|done]. Qed.

Lemma fetch_add_nth ids : (fetch_add ids).1 = nth_id ids 0 /\ forall k, nth_id (fetch_add ids).2 k = nth_id ids (Datatypes.S k).
Proof.
  unfold nth_id, fetch_add, u64_add. cbn [fst snd next_order_id meanwhile]. split.
  - rewrite sum_take_succ, take_0. f_equal. cbn. lia.
  - intros k. rewrite (sum_take_succ (meanwhile ids)). unfold wrap. rewrite !Zplus_mod_idemp_l.
    rewrite <- Z.add_assoc, Zplus_mod_idemp_l. f_equal. lia.
Qed.

Lemma results_ids tx ids ops rs : results_ok tx ids ops rs -> placed_ids rs = nth_id ids <$> seq 0 (placed_count ops).
Proof.
  revert ids rs. induction ops as [|op ops IH]; intros ids [|r rs]; try done.
  intros [Hr Hrs]. rewrite (placed_ids_cons _ _ _ _ _ Hr), placed_count_cons.
  apply IH in Hrs as ->. unfold next_ids. destruct (is_place_order op); [|done].
  destruct (fetch_add_nth ids) as [-> Hk]. cbn [seq]. rewrite fmap_cons. f_equal.
  rewrite <- seq_shift, <- list_fmap_compose. apply list_fmap_ext. intros i k _. apply Hk.
Qed.

(** *** The counter that the executions share

    In the order in which the executions take them, the ids are successive words.
    [log] says which execution took which. *)
Fixpoint gaps (e : nat) (log : list nat) (before : nat) : list nat :=
  match log with
  | [] => []
  | e' :: log => if decide (e' = e) then before :: gaps e log 0 else gaps e log (Datatypes.S before)
  end.

Lemma gaps_positions e log before k : (k < length (gaps e log before))%nat ->
  exists p, log !! p = Some e /\ (before + p = k + sum_list (take (Datatypes.S k) (gaps e log before)))%nat.
Proof.
  revert before k. induction log as [|e' log IH]; intros before k; cbn [gaps]; [cbn; lia|]. case_decide as He.
  - destruct k as [|k]; cbn [length take].
    + intros _. exists 0%nat. subst. split; [done|]. rewrite take_0. cbn. lia.
    + intros Hk. destruct (IH 0%nat k ltac:(lia)) as (p & Hp & Heq). exists (Datatypes.S p). split; [done|].
      cbn [sum_list sum_list_with foldr] in *. cbn in *. lia.
  - intros Hk. destruct (IH _ _ Hk) as (p & Hp & Heq). exists (Datatypes.S p). split; [done|]. lia.
Qed.

Lemma nth_id_logged start e log k : (k < length (gaps e log 0))%nat ->
  exists p, log !! p = Some e /\ nth_id (mkOrderIds start (gaps e log 0)) k = wrap 64 (start + Z.of_nat p).
Proof.
  intros Hk. destruct (gaps_positions e log 0 k Hk) as (p & Hp & Heq). exists p. split; [done|].
  unfold nth_id. cbn [next_order_id meanwhile]. by rewrite <- Heq.
Qed.

Lemma logged_ids_apart start (p q : nat) (log : list nat) : (Z.of_nat (length log) <= 2 ^ 64) ->
  is_Some (log !! p) -> is_Some (log !! q) -> wrap 64 (start + Z.of_nat p) = wrap 64 (start + Z.of_nat q) -> p = q.
Proof.
  intros Hl Hp%lookup_lt_is_Some Hq%lookup_lt_is_Some Heq. unfold wrap in Heq.
  assert ((start + Z.of_nat p - (start + Z.of_nat q)) mod 2 ^ 64 = 0) as Hmod by (by rewrite Zminus_mod, Heq, Z.sub_diag).
  apply Z.mod_divide in Hmod as [z Hz]; [|done]. assert (z = 0) as -> by nia. lia.
Qed.

Lemma gaps_mono e log before j k : (j < k < length (gaps e log before))%nat ->
  (j + sum_list (take (Datatypes.S j) (gaps e log before)) < k + sum_list (take (Datatypes.S k) (gaps e log before)))%nat.
Proof.
  intros Hjk. assert (sum_list (take (Datatypes.S j) (gaps e log before)) <= sum_list (take (Datatypes.S k) (gaps e log before)))%nat; [|lia].
  rewrite <- (take_drop (Datatypes.S j) (take (Datatypes.S k) (gaps e log before))), take_take, Nat.min_l by lia.
  rewrite sum_list_with_app. lia.
Qed.

Lemma logged_ids_inj start e log a b : (a < length (gaps e log 0))%nat -> (b < length (gaps e log 0))%nat ->
  Z.of_nat (length log) <= 2 ^ 64 ->
  nth_id (mkOrderIds start (gaps e log 0)) a = nth_id (mkOrderIds start (gaps e log 0)) b -> a = b.
Proof.
  intros Ha Hb Hl. destruct (gaps_positions e log 0 a Ha) as (p & Hp & Hpa). destruct (gaps_positions e log 0 b Hb) as (q & Hq & Hqb).
  unfold nth_id. cbn [next_order_id meanwhile]. rewrite <- Hpa, <- Hqb. intros Heq.
  apply (logged_ids_apart start p q log Hl) in Heq; [|by eexists..]. subst q.
  destruct (Nat.lt_trichotomy a b) as [Hlt|[?|Hlt]]; [|done|].
  - pose proof (gaps_mono e log 0 a b ltac:(lia)). lia.
  - pose proof (gaps_mono e log 0 b a ltac:(lia)). lia.
Qed.

Lemma gaps_alone e log : Forall (fun e' => e' = e) log ->
  length (gaps e log 0) = length log /\ forall k, sum_list (take k (gaps e log 0)) = 0%nat.
Proof.
  induction 1 as [|e' log -> _ [IHl IHs]]; cbn [gaps]; [split; [done|]; by intros []|].
  rewrite decide_True by done. cbn [length]. split; [by rewrite IHl|]. intros [|k]; [done|]. cbn. apply IHs.
Qed.

(** C27: a successful transaction had the stored nonce, answers every operation in
    order, charges 21000 gas for each, and numbers its orders from the counter that
    it shares with all executions.  [log] is the order in which the executions take
    ids from the counter, starting at [start]; this one is [e].  Then its orders have
    the ids that fall to it in this order, each once, and another execution of the
    same log has different ones, unless 2^64 orders are placed; alone it numbers
    its orders consecutively.  It records no read: its read set is empty and its
    flags ask for nothing. *)
Theorem success_accounts tx start e log rs ws r flags ids'
  (Hlog : (placed_count (operations tx) <= length (gaps e log 0))%nat) (Hsize : Z.of_nat (length log) <= 2 ^ 64)
  (Hx : execute x tx (mkOrderIds start (gaps e log 0)) = (Ok (Success rs ws r flags), ids')) :
  holds_nonce (user tx) (perp_nonce tx) /\
  results_ok tx (mkOrderIds start (gaps e log 0)) (operations tx) (operations_executed r) /\
  perp_gas_used r = wrap 64 (21000 * Z.of_nat (length (operations tx))) /\
  length (placed_ids (operations_executed r)) = placed_count (operations tx) /\
  (forall id, id ∈ placed_ids (operations_executed r) -> exists p, log !! p = Some e /\ id = wrap 64 (start + Z.of_nat p)) /\
  NoDup (placed_ids (operations_executed r)) /\
  (forall e' k, e' <> e -> (k < length (gaps e' log 0))%nat ->
     nth_id (mkOrderIds start (gaps e' log 0)) k ∉ placed_ids (operations_executed r)) /\
  (Forall (fun e' => e' = e) log -> placed_ids (operations_executed r) =
     (fun k => wrap 64 (start + Z.of_nat k)) <$> seq 0 (placed_count (operations tx))) /\
  rs = ReadSet_new /\ flags = flags_empty.
Proof.
  apply execute_success in Hx as (Hn & gas & ors & s & Hops & -> & _ & -> & -> & ->).
  apply operations_ok in Hops as (Hres & -> & Hnext); [|done]. cbn in Hres, Hnext.
  pose proof (results_ids _ _ _ _ Hres) as Hids. cbn [operations_executed perp_gas_used]. rewrite Hids.
  assert (forall id, id ∈ nth_id (mkOrderIds start (gaps e log 0)) <$> seq 0 (placed_count (operations tx)) ->
    exists p, log !! p = Some e /\ id = wrap 64 (start + Z.of_nat p)) as Hin.
  { intros id (k & -> & [_ Hk]%elem_of_seq)%list_elem_of_fmap. apply nth_id_logged. lia. }
  split; [done|]. split; [done|]. split; [done|]. split; [by rewrite length_fmap, length_seq|]. split; [exact Hin|].
  split; [|split; [|split; [|done]]].
  - apply NoDup_fmap_2_strong; [|apply NoDup_seq]. intros a b [_ Ha]%elem_of_seq [_ Hb]%elem_of_seq.
    by apply (logged_ids_inj start e log); lia.
  - intros e' k Hne Hk (p & Hp & Hpq)%Hin. destruct (nth_id_logged start e' log k Hk) as (q & Hq & Heq).
    rewrite Heq in Hpq. apply (logged_ids_apart start q p log Hsize) in Hpq; [|by eexists..]. congruence.
  - intros Hall. apply list_fmap_ext. intros i k [-> Hi]%lookup_seq. destruct (gaps_alone e log Hall) as [Hl Hsum].
    unfold nth_id. cbn [next_order_id meanwhile]. rewrite Hsum. f_equal. lia.
Qed.
End Executor.

(** ** Witnesses and examples *)

(** All locations hash alike, below their partition. *)
#[local] Instance demo_hash : FxHash PerpDexLocation := fun _ => 0.

(** User 7 has 1000 USDC and a long position of one unit at 1000 in market 0. *)
Definition demo_storage : InMemoryPerp :=
  set_data (with_balances [(7, 0, 1000 * 10 ^ 18)]) (PositionLoc 7 0) (VPosition (10 ^ 18) (10 ^ 21) 10 (10 ^ 20) 0 0).
Definition demo_executor : PerpDexExecutor InMemoryPerp := mkPerpDexExecutor demo_storage (mkBlockConfig 1700000000 1).
Definition demo_tx (ops : list Operation) : PerpDexTx := mkPerpDexTx 7 ops 1000000 1 0 None.
Definition demo_ops : list Operation :=
  [PlaceOrder 0 Market Long 0 (10 ^ 18) 10 false false None; SetLeverage 0 20; AdjustMargin 0 (10 ^ 20);
   PlaceOrder 0 Limit Long (10 ^ 20) (10 ^ 18) 10 false false None].

Lemma demo_balances_typed : balances_typed demo_executor 7.
Proof. by intros b [[= <-]|[[=] _]]. Qed.

Lemma writes_are_permitted_witness :
  exists rs ws r flags next', execute demo_executor (demo_tx demo_ops) (first_order_id []) = (Ok (Success rs ws r flags), next') /\
    exists ws0, ws = ws0 ++ [(location_hash (UserNonce 7), UserNonce 7, VNonce 1)].
Proof.
  do 5 eexists. split; [vm_compute; reflexivity|].
  eapply (writes_are_permitted demo_executor (demo_tx demo_ops) (first_order_id [])).
  - exact demo_balances_typed.
  - by repeat constructor.
  - vm_compute. reflexivity.
Defined.

(** Another execution takes two ids between its two orders. *)
Definition demo_log : list nat := [0; 1; 1; 0; 1]%nat.

Lemma success_accounts_witness :
  exists rs ws r flags ids', execute demo_executor (demo_tx demo_ops) (first_order_id (gaps 0 demo_log 0)) =
      (Ok (Success rs ws r flags), ids') /\
    placed_ids (operations_executed r) = [1; 4] /\ NoDup (placed_ids (operations_executed r)) /\ flags = flags_empty.
Proof.
  do 5 eexists. split; [vm_compute; reflexivity|].
  edestruct (success_accounts demo_executor (demo_tx demo_ops) 1 0 demo_log) as (_ & _ & _ & _ & _ & Hnd & _ & _ & _ & Hf).
  - vm_compute. lia.
  - by vm_compute.
  - vm_compute. reflexivity.
  - split; [by vm_compute|]. split; [exact Hnd|exact Hf].
Defined.

(** The balances a transaction writes, in order. *)
Definition written_balances (res : outcome Empty_set (PerpExecutionResult PerpDexLocation PerpDexValue PerpDexResult ExecutionError) * OrderIds) : list U256 :=
  match res.1 with
  | Ok (Success _ ws _ _) => omap (fun w => match w.2 with VBalance b => Some b | _ => None end) ws
  | _ => []
  end.

(** The operations of a transaction read the storage, not the writes before them:
    600 and 600 are both taken out of the same 1000, and 400 are left. *)
Lemma operations_do_not_see_each_other :
  written_balances (execute demo_executor
    (demo_tx [AdjustMargin 0 (600 * 10 ^ 18); AdjustMargin 0 (600 * 10 ^ 18)]) (first_order_id [])) = [400 * 10 ^ 18; 400 * 10 ^ 18].
Proof. by vm_compute. Qed.

(** A market order is margined at the price the user wrote into it: at price zero it
    is filled at the market price and costs nothing. *)
Lemma market_order_without_margin :
  written_balances (execute demo_executor
    (demo_tx [PlaceOrder 0 Market Long 0 (5 * 10 ^ 18) 10 false false None]) (first_order_id [])) = [1000 * 10 ^ 18].
Proof. by vm_compute. Qed.

(** Cancelling the orders of every market deletes them in market 0. *)
Lemma cancel_all_uses_market_zero :
  let s := set_data (set_index demo_storage (OrderLoc 7 3 9) empty_position) (OrderLoc 7 3 9) empty_position in
  match (execute (mkPerpDexExecutor s (mkBlockConfig 0 0)) (demo_tx [CancelAll None]) (first_order_id [])).1 with
  | Ok (Success _ ws _ _) => (fun w => w.1.2) <$> ws = [OrderLoc 7 0 9; UserNonce 7]
  | _ => False
  end.
Proof. by vm_compute. Qed.
