(* ===== verification/PerpVms.v ===== *)
(** * PerpVms: VMs of the framework side by side (perpdex/state_traits.rs, executor_traits.rs)

    The traits promise that VMs of different partitions never meet in the
    multi-version memory.  Here: what [ReadSet::insert] keeps, the laws of
    [VmExecutor] for the PerpDex executor, and that promise for any two executors
    that keep the laws. *)

From S2P Require Import Prelude Types PerpTypes PerpTraits PerpState PerpStorage PerpExecutor PerpStateSpec PerpSpec.
#[local] Open Scope Z_scope.

(** ** Read sets *)

Section ReadSets.
Context {L : Type} `{StateLocation L}.
Implicit Types (rs : PerpReadSet L) (l : L).

Lemma read_set_new_ok : read_set_ok (ReadSet_new (L := L)).
Proof.
  split; cbn; [|constructor|by intros h os].
  intros h. rewrite lookup_empty. split; [by intros []|]. by intros (l & ?%elem_of_nil & _).
Qed.

Lemma existsb_hash ls h :
  existsb (fun l => location_hash l =? h) ls = true <-> exists l, l ∈ ls /\ location_hash l = h.
Proof.
  rewrite existsb_exists. split; intros (l & Hl & Hh); exists l; (split; [by apply list_elem_of_In|lia]).
Qed.

Lemma read_set_insert_ok rs l o : read_set_ok rs -> read_set_ok (ReadSet_insert rs l o).
Proof.
  intros [Hlisted Honce Horig]. pose proof (existsb_hash (rs_locations rs) (location_hash l)) as He.
  split; cbn [ReadSet_insert rs_data rs_locations].
  - intros h. rewrite lookup_insert_is_Some', Hlisted.
    destruct (existsb _ _).
    + destruct (proj1 He eq_refl) as (l0 & Hl0 & Hh0). split; [|by right]. intros [<-|?]; [by exists l0|done].
    + split.
      * intros [<-|(l0 & Hl0 & Hh0)]; [exists l|exists l0]; (split; [apply elem_of_app|done]); [right|by left].
        by apply list_elem_of_singleton.
      * intros (l0 & [Hl0| ->%list_elem_of_singleton]%elem_of_app & Hh0); [right; by exists l0|by left].
  - destruct (existsb _ _); [done|]. rewrite fmap_app. apply NoDup_app. split; [done|]. split; [|apply NoDup_singleton].
    intros h (l0 & -> & Hl0)%list_elem_of_fmap Hin%list_elem_of_singleton. enough (false = true) by done.
    apply He. by exists l0.
  - intros h os [[<- <-]|[_ Hos]]%lookup_insert_Some; [by destruct (default [] _)|by eapply Horig].
Qed.
End ReadSets.

(** ** The PerpDex executor keeps the laws *)

#[export] Instance PerpDexExecutor_laws {S} `{PerpDexStorage S} `{!FxHash PerpDexLocation} :
  VmExecutorLaws (PerpDexExecutor S * OrderIds) PerpDexLocation PerpDexValue PerpDexTx PerpDexResult S ExecutionError.
Proof.
  split; intros [x next] v tx st mv x' rs ws r flags Hx; cbn in Hx; destruct (execute x tx next) as [res next'] eqn:E;
    injection Hx as -> <-; apply execute_success in E as (_ & gas & ors & s & Hops & -> & -> & _).
  - apply read_set_new_ok.
  - destruct (operations_filed x tx 0 (operations tx) (mkXstate ReadSet_new [] next)) as (_ & new & Hw & Hnew).
    rewrite Hops in Hw. cbn in Hw. unfold WriteSet_push. rewrite Hw. apply Forall_app. split; [|by repeat constructor].
    by eapply Forall_impl; [exact Hnew|intros w []].
Qed.

(** ** Isolation *)

(** The hashes that an execution hands to validation and to the memory. *)
Definition hashes_read {L} (rs : PerpReadSet L) : gset Z := dom (rs_data rs).
Definition hashes_written {L V} (ws : PerpWriteSet L V) : gset Z := list_to_set (map (fun w => w.1.1) ws).

Section Executor.
Context {X L V Tx R St E : Type} `{VmExecutorLaws X L V Tx R St E} `{!PartitionedLocation L}.

Lemma touched_hash x v tx st mv x' rs ws r flags h :
  vm_execute x v tx st mv = (Ok (Success rs ws r flags), x') ->
  h ∈ hashes_read rs ∪ hashes_written ws -> exists l : L, location_hash l = h.
Proof.
  intros Hx [Hh|Hh]%elem_of_union.
  - unfold hashes_read in Hh. rewrite elem_of_dom in Hh. apply (read_listed _ (reads_filed _ _ _ _ _ _ _ _ _ _ Hx)) in Hh as (l & _ & Hl). by exists l.
  - apply elem_of_list_to_set, list_elem_of_In, in_map_iff in Hh as (w & <- & Hw%list_elem_of_In).
    pose proof (writes_filed _ _ _ _ _ _ _ _ _ _ Hx) as Hall. rewrite Forall_forall in Hall. exists w.1.2.
    symmetry. by apply Hall.
Qed.
End Executor.

Section Isolation.
Context {X L V Tx R St E : Type} `{VmExecutorLaws X L V Tx R St E} `{!PartitionedLocation L}.
Context {X' L' V' Tx' R' St' E' : Type} `{VmExecutorLaws X' L' V' Tx' R' St' E'} `{!PartitionedLocation L'}.

(** C38: VMs of different partitions never conflict.  Take two executors that file what
    they read and write under the hashes of their locations, as the PerpDex executor
    does, and whose locations mix in different partitions.  Whatever transactions
    they execute, on whatever storages, no location hash that one of them reads or
    writes is read or written by the other; all are 64-bit words that carry their
    partition. *)
Theorem executors_never_conflict (p q : PartitionId)
  (x : X) v tx st mv x1 rs ws r flags (y : X') v' tx' st' mv' y1 rs' ws' r' flags'
  (Hp : forall l : L, partition_id l = p) (Hq : forall l : L', partition_id l = q) (Hpq : p <> q)
  (Hx : vm_execute x v tx st mv = (Ok (Success rs ws r flags), x1))
  (Hy : vm_execute y v' tx' st' mv' = (Ok (Success rs' ws' r' flags'), y1)) :
  (forall h, h ∈ hashes_read rs ∪ hashes_written ws -> is_u 64 h /\ from_hash h = p) /\
  (forall h, h ∈ hashes_read rs' ∪ hashes_written ws' -> is_u 64 h /\ from_hash h = q) /\
  hashes_read rs ∪ hashes_written ws ## hashes_read rs' ∪ hashes_written ws'.
Proof.
  assert (forall h, h ∈ hashes_read rs ∪ hashes_written ws -> is_u 64 h /\ from_hash h = p) as Hleft.
  { intros h (l & <-)%(touched_hash (X := X) (L := L) _ _ _ _ _ _ _ _ _ _ _ Hx). rewrite <- (Hp l). apply and_comm, partitioned_hash. }
  assert (forall h, h ∈ hashes_read rs' ∪ hashes_written ws' -> is_u 64 h /\ from_hash h = q) as Hright.
  { intros h (l & <-)%(touched_hash (X := X') (L := L') _ _ _ _ _ _ _ _ _ _ _ Hy). rewrite <- (Hq l). apply and_comm, partitioned_hash. }
  split; [done|]. split; [done|]. intros h [_ Hh1]%Hleft [_ Hh2]%Hright. congruence.
Qed.
End Isolation.

(** ** Witness

    PerpDex next to a VM of the WASM partition whose transactions increment slots;
    it reads and writes, and keeps the defaults of the traits. *)
Section Demo.
#[local] Existing Instance demo_hash.
#[local] Instance slot_location : StateLocation Z := {
  location_hash l := mix_hash WASM l;
  partition_id _ := WASM;
}.
#[local] Instance slot_partitioned : PartitionedLocation Z.
Proof. split; intros l; [by vm_compute|by eexists]. Qed.
#[local] Instance slot_value : StateValue Z := {
  is_lazy := is_lazy_default;
  is_deleted := is_deleted_default;
}.

Definition increment (slots : list Z) (st : Z -> Z) : PerpReadSet Z * PerpWriteSet Z Z :=
  foldl (fun '(rs, ws) l => (ReadSet_insert rs l FromStorage, WriteSet_push ws l (st l + 1))) (ReadSet_new, []) slots.

#[local] Instance slot_vm : VmExecutor unit Z Z (list Z) unit (Z -> Z) Empty_set := {
  vm_execute x _ tx st _ := let '(rs, ws) := increment tx st in (Ok (Success rs ws tt NeedValidation), x);
  vm_lazy_locations := lazy_locations_default;
}.

Lemma increment_ok slots st : read_set_ok (increment slots st).1 /\
  Forall (fun w => w.1.1 = location_hash w.1.2) (increment slots st).2.
Proof.
  unfold increment. induction slots as [|l slots IH] using rev_ind; cbn; [split; [apply read_set_new_ok|constructor]|].
  rewrite foldl_app. destruct (foldl _ _ slots) as [rs ws]. destruct IH as [Hrs Hws]. cbn.
  split; [by apply read_set_insert_ok|]. apply Forall_app. split; [done|by repeat constructor].
Qed.

#[local] Instance slot_laws : VmExecutorLaws unit Z Z (list Z) unit (Z -> Z) Empty_set.
Proof.
  split; intros x v tx st mv x' rs ws r flags Hx; destruct (increment_ok tx st) as [Hrs Hws]; cbn in Hx;
    destruct (increment tx st) as [rs0 ws0]; by injection Hx as <- <- _ _ _.
Qed.

Lemma executors_never_conflict_witness :
  exists (rs : PerpReadSet PerpDexLocation) (ws : PerpWriteSet PerpDexLocation PerpDexValue)
      (r : PerpDexResult) flags x1 (rs' : PerpReadSet Z) (ws' : PerpWriteSet Z Z) flags',
    vm_execute (demo_executor, first_order_id []) (mkTxVersion 0 0) (demo_tx demo_ops) demo_storage MkPerpMvMemory =
      (Ok (Success (E := ExecutionError) rs ws r flags), x1) /\
    vm_execute tt (mkTxVersion 1 0) [0; 5; 0] (fun _ : Z => 0) MkPerpMvMemory = (Ok (Success (E := Empty_set) rs' ws' tt flags'), tt) /\
    size (hashes_read rs') = 2%nat /\ hashes_written ws ## hashes_read rs'.
Proof.
  assert (exists rs ws r flags x1, vm_execute (demo_executor, first_order_id []) (mkTxVersion 0 0) (demo_tx demo_ops) demo_storage
    MkPerpMvMemory = (Ok (Success (L := PerpDexLocation) (V := PerpDexValue) (R := PerpDexResult) (E := ExecutionError) rs ws r flags), x1))
    as (rs & ws & r & flags & x1 & Hx) by (do 5 eexists; vm_compute; reflexivity).
  assert (exists (rs' : PerpReadSet Z) (ws' : PerpWriteSet Z Z) flags',
    vm_execute tt (mkTxVersion 1 0) [0; 5; 0] (fun _ : Z => 0) MkPerpMvMemory =
      (Ok (Success (E := Empty_set) rs' ws' tt flags'), tt) /\ size (hashes_read rs') = 2%nat)
    as (rs' & ws' & flags' & Hy & Hsize) by (do 3 eexists; split; vm_compute; reflexivity).
  exists rs, ws, r, flags, x1, rs', ws', flags'. split; [exact Hx|]. split; [exact Hy|]. split; [exact Hsize|].
  destruct (executors_never_conflict (L := PerpDexLocation) (L' := Z) PERPDEX WASM
    (demo_executor, first_order_id []) (mkTxVersion 0 0) (demo_tx demo_ops) demo_storage MkPerpMvMemory x1 rs ws r flags
    tt (mkTxVersion 1 0) [0; 5; 0] (fun _ => 0) MkPerpMvMemory tt rs' ws' tt flags') as (_ & _ & Hd);
    [reflexivity|reflexivity|done|exact Hx|exact Hy|].
  intros h Hl Hr. apply (Hd h); apply elem_of_union; [by right|by left].
Defined.
End Demo.
